(* ===== verification/_CoqProject ===== *)
-Q . S2P
Prelude.v
Persister.v
RaftTypes.v
RaftTools.v
Decimal.v
RaftPrint.v
RaftPersist.v
RaftLog.v
RaftLogFacts.v
RaftReplication.v
RaftElection.v
RaftAppend.v
RaftSnapshot.v
RaftNode.v
RaftCluster.v
RaftSafety.v
RaftElectionSafety.v
RaftRuns.v
RaftChains.v
RaftLogMatching.v
RaftLogRuns.v
RaftTree.v
RaftCommit.v
RaftCommitSteps.v
RaftCommitOps.v
RaftStateSafety.v
RaftStateMachine.v
RaftRefinement.v
RaftTables.v
RaftSafetyRuns.v
ApplyBuffer.v
RaftWitnesses.v
Bitset.v
Checker.v
LinSpec.v
CheckerList.v
CheckerSearch.v
CheckerOrder.v
CheckerSound.v
KvModel.v
CheckerVerdict.v
CheckerTheorems.v
EventsVerdict.v
KvLocality.v
Visualization.v
VisualizationTheorems.v
Render.v
RenderLayout.v
RenderScan.v
RenderTheorems.v
RenderUI.v
RenderUITheorems.v
RenderChecker.v
Visualize.v
Labrpc.v
LabrpcFacts.v
LabrpcTheorems.v
KvRaft.v
ShardCtrler.v
ShardKv.v
MapReduce.v
MapReduceTiming.v
Programs.v
Wiring.v
RaftConfig.v
RaftConfigWiring.v
RaftConfigLogs.v
Tester.v
TesterFacts.v
ServiceTesters.v
Randoms.v
ShardKvConfig.v
Labgob.v
