(* ===== verification/Prelude.v ===== *)
(** * Verification of the 6.5840 labs: Raft, its services, testers and checker

    The repository holds a Raft implementation ([src/raft]), the frames of three services
    on top of it ([src/kvraft], [src/shardctrler], [src/shardkv]), a simulated network
    ([src/labrpc]), the linearizability checker porcupine with a key/value model
    ([src/porcupine], [src/models]), a wrapper of gob ([src/labgob]), MapReduce ([src/mr],
    [src/mrapps], [src/main]) and, per service, the tester that drives it ([config.go]).
    This library translates that code, function by function under the names of the
    source, and proves what it does.  Paths below are short for [src/src/...].

    ** How code is translated

    A function becomes a Gallina function on the values it reads; what it mutates is an
    argument and part of the result.  Code that can panic or block returns in the monad
    [go] of this file: [Done], [Panic] (an explicit panic, an index out of range, a nil
    pointer, [log.Fatal] and [t.Fatal]) or [Hang] (a wait that nothing will end).  An
    index into a slice is [go_index], an assignment to one [go_update].  Structs are
    records, with [r <| field := v |>] for an assignment to a field; pointers are
    positions in a list that is passed along wherever aliasing matters (the checker's
    linked list, the testers' servers and persisters, the network's servers).

    Goroutines are handled in two ways.  A function that holds its mutex for its whole
    body is one function; where the code unlocks and goes on later, the rest is a step of
    its own.  Interleavings are then explicit: the cluster ([RaftCluster.cstep]), the apply
    buffer ([ApplyBuffer.bstep]) and the network ([Labrpc.step]) are step functions over
    sequences of events, and their theorems hold for every sequence.

    What the code gets from outside is an argument: clock readings, random numbers and
    names, the order in which [sort.Sort] leaves equal elements and a map is iterated, what
    [select] receives when, what other goroutines do while a tester sleeps, and the answers
    of the network to a clerk.  Three parts of Go's library are type classes, with the
    laws that the code relies on where a theorem needs them: gob ([RaftPersist.GobCodec],
    [RaftConfig.SnapCodec], [Labrpc.Codec]), sorting ([CheckerVerdict.GoSort],
    [MapReduce.KvSort]), reflection (lists of methods in [Labrpc], a table of types in
    [Labgob]).  Each theorem with such a law has a witness with a concrete instance.

    ** Raft

    - [Persister] (persister.go): the stable storage and its copies.
    - [RaftTypes], [RaftTools], [RaftPersist] (raft.go, tools.go): the peer, its messages,
      searching the log, [persist] and [readPersist].  [RaftTools.consecutive] and
      [log_ok] (indexes follow the snapshot's without gaps) are the invariant of a log.
    - [Decimal], [RaftPrint] (tools.go): numbers printed and read; the lines that a peer
      prints, which tell its state.
    - [RaftLog], [RaftLogFacts], [RaftReplication] (logActivities.go): replication and
      commitment.  [followerHandleLog] refines the receiver rules of Figure 2 of the Raft
      paper ([RaftLogFacts]); the leader commits by majority and in its own term only; a
      rejection makes the leader back up.
    - [RaftElection] (serverStateTrans.go, requestVoteRPC.go), [RaftAppend]
      (appendEntriesRPC.go), [RaftSnapshot] (installSnapshotRPC.go): every handler, on
      every branch, with the reachability of the panics in the source.
    - [RaftNode] (raft.go): [Start] and [Make]; a restart restores what was persisted.
    - [ApplyBuffer] (raft.go): the buffer between a peer and its service, with mutex and
      condition variable.  Batches are conserved, and delivered in order if they are
      started one after the other; [Signal] can be lost, and then nothing is delivered.
    - [RaftCluster], [RaftSafety], [RaftElectionSafety], [RaftRuns]: peers, calls in flight,
      crashes and restarts.  Election safety holds for the steps outside two gaps of the
      code, which are named by the theorem's step relation; [RaftRuns] evaluates runs in
      which the gaps lead to two leaders of one term and to diverging commits.
    - [RaftChains], [RaftLogMatching], [RaftLogRuns]: a record of what was appended where;
      every log and every request in flight follows it, hence log matching and no failing
      [followerHandleLog].  The steps are those of election safety with two conditions
      more ([orderly]): who sends is leader, and an accepted request does not contradict
      the receiver's snapshot.  A run breaks the first one and makes two services differ.
    - [RaftTree], [RaftCommit], [RaftCommitSteps], [RaftCommitOps], [RaftStateSafety],
      [RaftStateMachine], [RaftRefinement], [RaftTables], [RaftSafetyRuns]: the record as
      a tree, of which logs are paths; who has acknowledged which position, and that an
      entry that a majority has acknowledged is on the path of every later leader.  For the steps of [sound], which
      replace the second condition by two on the service and the network (a request from
      the very beginning of the log does not reach a peer with a snapshot, and a service
      compacts what was applied to it): leader completeness, state machine safety, the
      agreement of what all services are handed over time, restarts included, and, with
      the range of the leaders' tables ([RaftTables]), which panics can still be reached:
      one, by a snapshot that meets a conflicting log.  [RaftRefinement] puts it as a
      forward simulation of a specification: a log of submitted commands that only grows,
      with each of them at most once, from which every service is handed commands by their number.
    - [RaftWitnesses]: concrete peers on which the hypotheses of these theorems hold.

    ** The linearizability checker

    - [Bitset] (bitset.go), on 64-bit words: a set of positions.
    - [Checker] (model.go, checker.go, porcupine.go): entries, the doubly linked list in a
      heap, the search with its cache, partitions in parallel, the exported functions.
    - [LinSpec]: linearizability, as a declarative statement and as the removal of calls;
      [CheckerList]: [lift] and [unlift] on list segments; [CheckerSearch], [CheckerSound],
      [CheckerVerdict]: from the search to the verdict on operations; [CheckerTheorems]:
      the search ends and decides linearizability; timeouts never make a wrong verdict.
    - [EventsVerdict]: the same verdict for histories of events, through [renumber].
    - [KvModel] (models/kv.go), [KvLocality]: the partition by key decides whether the
      whole history is linearizable on one store.
    - [CheckerOrder]: a call is taken off the list before the return of every operation
      that is not below it on the stack, so that the recorded partial linearizations, also
      those of a search that failed or was killed, respect the order of the history.
    - [Visualization], [VisualizationTheorems], [Visualize] (visualization.go): the data
      that is shown, that every recorded partial linearization replays, and the file.
    - [Render] (the script in the page of visualization.go, up to its handlers): the
      preparation of the times, the left-to-right scan that warps them, the boxes, lines
      and points that are drawn.  [RenderLayout]: what the preparation and the tables of
      linearizations are; [RenderScan]: the scan solves its constraints with the least
      positions, by an invariant over the times that are placed ([layout_Done]);
      [RenderTheorems]: the layout is the least one, and boxes and points of the page are
      in their places.
    - [RenderUI], [RenderUITheorems] (the handlers of the script): mouse, clicks, the link
      to the first error and the tooltip.  The page refines a machine whose state is the
      selected and the highlighted element ([view_step], [looks]).
    - [RenderChecker]: the composition: what a verbose check on operations that take time
      records is data that the script lays out, draws and lets one explore without an
      exception.  An operation without duration at the last time breaks the layout.

    ** Network, services, MapReduce

    - [Labrpc], [LabrpcFacts], [LabrpcTheorems] (labrpc.go): the phases of a call, the
      operations of the tester; at most one execution, accounting, silence of deleted
      servers, the reliable case.
    - [Labgob] (labgob.go): the traversal of types and values that looks for lower-case
      fields and non-default targets.
    - [KvRaft], [ShardCtrler], [ShardKv] (client.go, common.go, server.go): the clerks'
      retry loops on any answers.  The servers' handlers are empty in the source and are so
      here: nothing is claimed of the services.
    - [MapReduce] (mrsequential.go, mr, mrapps): the sequential program and the
      applications; word count prints the number of occurrences of every word.
    - [MapReduceTiming] (mtiming.go, rtiming.go, jobcount.go): workers that start, run and
      die while others count them by files and process ids; the counts are right.
    - [Programs] (src/main): command lines, files and plugins of the main programs; the
      command line of diskvd is read back as it was written.

    ** Testers

    - [Wiring]: making, connecting and switching the ends of the network.
    - [RaftConfig], [RaftConfigWiring], [RaftConfigLogs] (raft/config.go): the tester of
      Raft; who is connected to whom in every state a test reaches; what the appliers,
      [one], [checkOneLeader] and a restart guarantee.
    - [Tester], [TesterFacts], [ServiceTesters] (kvraft/config.go, shardctrler/config.go):
      the code the two share, over the class [TestServer], and its two instances;
      partitions cut exactly the connections between their sides.
    - [ShardKvConfig] (shardkv/config.go): groups, controllers, shutting a server down.
    - [Randoms] (config.go, utils.go, util.go): random names have the length that is asked
      for, shuffles are permutations and every permutation can come out; what is printed.

    ** Fuel and bounds

    - [CheckerSearch.bound c] turns are enough for the search on [c] entries: it is the
      recurrence of exploring each call of the list once per configuration, and the
      theorems ask for more fuel than that.  [Checker.length] has the size of the heap as
      fuel, one turn per node.
    - [Labgob] takes the number of types of the table that are not checked yet as fuel for
      a type, and the theorem is that this is enough.
    - Loops that wait for other goroutines ([RaftConfig.one], [checkOneLeader], the clerks)
      run over the list of what they see, turn by turn; their theorems hold for any list,
      and say when they return.  Where a tester takes its lock for each server again
      ([nCommitted], the submission of a command), what the others do before each look is
      an argument of its own.
    - [MapReduce.reduce_loop] has the length of the intermediate list as fuel.
    - In [Render] the scan runs over the list of times and the boxes in the order of their
      ends, so that no fuel is needed.  A time is counted in halves of its unit, a length
      in fractions of a pixel ([px] of them to one); [None] is NaN.  Numbers are exact,
      as doubles are below 2^53; an [int64] time beyond that would be rounded by the
      script, so that a call and its return could become one.  The times of this
      repository come from [time.Since] and stay below.
    - Terms, indexes and timestamps, and counters of type [int] and [int64], are unbounded
      integers; the [int32] counters (requests of the network, operations of the testers),
      the words of the bit set, the FNV hash of [ihash] and the opcodes of [KvInput] keep
      their width.

    ** Not modelled

    - The calls of the printing functions and the time stamps of package log: no state of
      the program depends on them.
    - The style sheet and the legend of the page, the names of the clients at its left
      edge, scrolling and the place of the tooltip; the encoding of JSON and the file
      system, which are parameters of [Visualize].
    - The packages that main programs call and the repository does not have (diskv,
      lockservice, pbservice, viewservice): parameters of [Programs].
    - Byte formats of gob, and everything of [reflect] that the code does not ask for. *)
From Stdlib Require Export Strings.Byte.
From stdpp Require Export base tactics list list_numbers numbers option strings gmap sorting relations.
Open Scope Z_scope.

(** * Go computations that may panic *)

(** A statement sequence of the code runs to its end ([Done]), panics (by
    [panic("...")], or by the runtime on an index out of range), or waits for a
    condition that no running goroutine can make true ([Hang]). *)
Inductive go (A : Type) : Type :=
| Done (a : A)
| Panic (why : string)
| Hang (why : string).
Arguments Done {A} _.
Arguments Panic {A} _.
Arguments Hang {A} _.

#[export] Instance go_ret : MRet go := fun A a => Done a.
#[export] Instance go_bind : MBind go := fun A B k m =>
  match m with Done a => k a | Panic w => Panic w | Hang w => Hang w end.
#[export] Instance go_fmap : FMap go := fun A B f m =>
  match m with Done a => Done (f a) | Panic w => Panic w | Hang w => Hang w end.

Definition returns {A} (m : go A) : Prop := exists a, m = Done a.

Lemma go_bind_Done {A B} (m : go A) (k : A -> go B) b :
  (m ≫= k) = Done b <-> exists a, m = Done a /\ k a = Done b.
Proof.
  split.
  - destruct m as [a|w|w]; cbn; [eauto | discriminate..].
  - by intros (a & -> & H).
Qed.

Lemma go_bind_ret {A} (m : go A) : (m ≫= mret) = m.
Proof. by destruct m. Qed.

(** ** Slices *)

Definition oob : string := "index out of range".

(** [l[i]] *)
Definition go_index {A} (l : list A) (i : Z) : go A :=
  if i <? 0 then Panic oob else
  match l !! Z.to_nat i with Some x => Done x | None => Panic oob end.

(** [l[i] = v] *)
Definition go_update {A} (l : list A) (i : Z) (v : A) : go (list A) :=
  if (0 <=? i) && (i <? Z.of_nat (length l)) then Done (<[Z.to_nat i := v]> l) else Panic oob.

(** [l[i:]] *)
Definition slice_from {A} (l : list A) (i : Z) : go (list A) :=
  if (0 <=? i) && (i <=? Z.of_nat (length l)) then Done (drop (Z.to_nat i) l) else Panic oob.

(** [l[:i]], for [i] up to the length (the code never reslices into spare capacity) *)
Definition slice_to {A} (l : list A) (i : Z) : go (list A) :=
  if (0 <=? i) && (i <=? Z.of_nat (length l)) then Done (take (Z.to_nat i) l) else Panic oob.

(** [len(l)] *)
Abbreviation len l := (Z.of_nat (length l)).

(** An [int32] wraps around. *)
Definition wrap32 (z : Z) : Z := (z + 2 ^ 31) mod 2 ^ 32 - 2 ^ 31.

Lemma wrap32_small z : - 2 ^ 31 <= z < 2 ^ 31 -> wrap32 z = z.
Proof. intros Hz. unfold wrap32. rewrite Z.mod_small; lia. Qed.

(** A counter that wraps at every step is the number of steps, wrapped once. *)
Lemma wrap32_succ z : wrap32 (wrap32 z + 1) = wrap32 (z + 1).
Proof.
  unfold wrap32. f_equal.
  replace ((z + 2 ^ 31) mod 2 ^ 32 - 2 ^ 31 + 1 + 2 ^ 31) with ((z + 2 ^ 31) mod 2 ^ 32 + 1) by lia.
  rewrite Z.add_mod_idemp_l by lia. f_equal. lia.
Qed.

Lemma go_index_Done {A} (l : list A) i x :
  go_index l i = Done x <-> 0 <= i /\ l !! Z.to_nat i = Some x.
Proof.
  unfold go_index. destruct (Z.ltb_spec i 0); [split; [done | lia] |].
  destruct (l !! Z.to_nat i) eqn:E; split; intros H'; simplify_eq; try done.
  - by destruct H' as [_ [= ->]].
  - by destruct H'.
Qed.

Lemma go_index_lookup {A} (l : list A) i x :
  0 <= i -> l !! Z.to_nat i = Some x -> go_index l i = Done x.
Proof. intros. by apply go_index_Done. Qed.

Lemma go_index_nat {A} (l : list A) (n : nat) x :
  l !! n = Some x -> go_index l (Z.of_nat n) = Done x.
Proof. intros H. apply go_index_lookup; [lia | by rewrite Nat2Z.id]. Qed.

Lemma go_index_total {A} (l : list A) i :
  0 <= i < len l -> exists x, go_index l i = Done x /\ l !! Z.to_nat i = Some x.
Proof.
  intros Hi. destruct (lookup_lt_is_Some_2 l (Z.to_nat i)) as [x Hx]; [lia |].
  exists x. split; [by apply go_index_lookup; [lia|] | done].
Qed.

Lemma go_update_Done {A} (l : list A) i v :
  0 <= i < len l -> go_update l i v = Done (<[Z.to_nat i := v]> l).
Proof.
  intros Hi. unfold go_update.
  destruct (Z.leb_spec 0 i), (Z.ltb_spec i (len l)); cbn; [done | lia..].
Qed.

Lemma go_update_inv {A} (l : list A) i v l' :
  go_update l i v = Done l' -> 0 <= i < len l /\ l' = <[Z.to_nat i := v]> l.
Proof.
  unfold go_update.
  destruct (Z.leb_spec 0 i), (Z.ltb_spec i (len l)); cbn; intros; simplify_eq; split; (done || lia).
Qed.

Lemma slice_from_Done {A} (l : list A) i :
  0 <= i <= len l -> slice_from l i = Done (drop (Z.to_nat i) l).
Proof.
  intros Hi. unfold slice_from.
  destruct (Z.leb_spec 0 i), (Z.leb_spec i (len l)); cbn; [done | lia..].
Qed.

Lemma slice_to_Done {A} (l : list A) i :
  0 <= i <= len l -> slice_to l i = Done (take (Z.to_nat i) l).
Proof.
  intros Hi. unfold slice_to.
  destruct (Z.leb_spec 0 i), (Z.leb_spec i (len l)); cbn; [done | lia..].
Qed.

(** * Updating one field of a record *)

(** [Eta R] is the identity of a record type written field by field; the setter
    of a field is derived from it. *)
Class Eta (R : Type) := eta_expand : R -> R.
Class Setter {R T : Type} (proj : R -> T) := set_field : (T -> T) -> R -> R.
Arguments set_field {R T} proj {_} _ _.

Ltac derive_setter :=
  match goal with
  | |- @Setter ?R ?T ?proj =>
      let i := constr:(_ : Eta R) in
      let b := eval hnf in i in
      match eval pattern proj in b with
      | ?f _ => exact (fun (g : T -> T) => f (fun r : R => g (proj r)))
      end
  end.
#[export] Hint Extern 1 (Setter _) => derive_setter : typeclass_instances.

Declare Scope record_scope.
Notation "r <| f := v |>" := (set_field f (fun _ => v) r)
  (at level 1, f at next level, left associativity, format "r  <| f  :=  v |>") : record_scope.
Open Scope record_scope.

(** * Automation *)

#[global] Arguments Z.add : simpl never.
#[global] Arguments Z.sub : simpl never.
#[global] Arguments Z.mul : simpl never.
#[global] Arguments Z.max : simpl never.
#[global] Arguments Z.min : simpl never.

Lemma half_cases (a : nat) : (a = 2 * (a / 2) \/ a = 2 * (a / 2) + 1)%nat.
Proof. pose proof (Nat.div_mod_eq a 2). pose proof (Nat.mod_upper_bound a 2). lia. Qed.

(** Linear arithmetic with halves of naturals and Go's truncated division. *)
Ltac div_lia :=
  repeat match goal with
  | |- context [Nat.div ?a 2] => pose proof (half_cases a); generalize dependent (Nat.div a 2); intros
  | H : context [Nat.div ?a 2] |- _ =>
      pose proof (half_cases a); generalize dependent (Nat.div a 2); intros
  end;
  Z.to_euclidean_division_equations; lia.

(** Run the binds of a computation whose first step is known. *)
Ltac go_simpl := unfold mret, go_ret in *; cbn [mbind go_bind fmap go_fmap] in *.

(** Split a hypothesis into its conjuncts and witnesses. *)
Ltac split_all := repeat match goal with
  | H : _ /\ _ |- _ => destruct H
  | H : exists _, _ |- _ => destruct H
  end.

(** Hint database of the Raft components. *)
Create HintDb raft.
