(* ===== verification/Persister.v ===== *)
(** The persister of [src/raft/persister.go]: the stable storage of one Raft peer,
    holding the encoded Raft state and the service's snapshot.

    Every method takes the persister's mutex for its whole body, so each is one
    function on the persister's contents.  A byte slice is the list of its bytes: no
    method writes into a slice it has stored ([Save] installs fresh clones), so the
    sharing that [Copy] creates cannot be observed. *)
From S2P Require Import Prelude.

Abbreviation bytes := (list byte).

Record Persister := mkPersister { raftstate : bytes; psnapshot : bytes }.
#[export] Instance eta_Persister : Eta Persister :=
  fun ps => mkPersister (raftstate ps) (psnapshot ps).

Definition MakePersister : Persister := mkPersister [] [].

(** [x := make([]byte, len(orig)); copy(x, orig)]: the bytes of [orig], one by one, over
    zeroes. *)
Fixpoint copy_into {A} (dst src : list A) : list A :=
  match dst, src with
  | _ :: dst', b :: src' => b :: copy_into dst' src'
  | _, _ => dst
  end.

Definition clone (orig : bytes) : bytes := copy_into (replicate (length orig) x00) orig.
#[global] Arguments clone : simpl never.

Definition Copy (ps : Persister) : Persister :=
  MakePersister <| raftstate := raftstate ps |> <| psnapshot := psnapshot ps |>.

Definition ReadRaftState (ps : Persister) : bytes := clone (raftstate ps).
Definition RaftStateSize (ps : Persister) : Z := len (raftstate ps).
Definition Save (ps : Persister) (rs snap : bytes) : Persister :=
  ps <| raftstate := clone rs |> <| psnapshot := clone snap |>.
Definition ReadSnapshot (ps : Persister) : bytes := clone (psnapshot ps).
Definition SnapshotSize (ps : Persister) : Z := len (psnapshot ps).

Lemma copy_into_same_length {A} (d s : list A) : length d = length s -> copy_into d s = s.
Proof.
  revert s; induction d as [|x d IH]; intros [|y s]; cbn; intros H; try done.
  f_equal. apply IH. lia.
Qed.

Lemma clone_id b : clone b = b.
Proof. unfold clone. apply copy_into_same_length. by rewrite length_replicate. Qed.

Lemma ReadRaftState_Save ps rs snap : ReadRaftState (Save ps rs snap) = rs.
Proof. unfold ReadRaftState. cbn. by rewrite !clone_id. Qed.

Lemma ReadSnapshot_Save ps rs snap : ReadSnapshot (Save ps rs snap) = snap.
Proof. unfold ReadSnapshot. cbn. by rewrite !clone_id. Qed.

Lemma Copy_id ps : Copy ps = ps.
Proof. by destruct ps. Qed.

Create Rewrite HintDb persister.
#[export] Hint Rewrite clone_id ReadRaftState_Save ReadSnapshot_Save Copy_id : persister.
