(* ===== verification/RaftTypes.v ===== *)
(** The data of one Raft peer: [src/raft/raft.go] (types), the argument and reply
    structs of the three RPCs, and the helpers of [src/raft/tools.go] that the
    protocol code calls. *)
From S2P Require Import Prelude Persister.

(** ** Log entries and messages for the service *)

Record LogEntry (C : Type) := mkLogEntry { le_Term : Z; le_Index : Z; le_Command : C }.
Arguments mkLogEntry {C} _ _ _.
Arguments le_Term {C} _.
Arguments le_Index {C} _.
Arguments le_Command {C} _.

Record ApplyMsg (C : Type) := mkApplyMsg {
  CommandValid : bool;
  am_Command : option C;         (* [None] is the nil interface *)
  CommandIndex : Z;
  SnapshotValid : bool;
  am_Snapshot : bytes;
  SnapshotTerm : Z;
  SnapshotIndex : Z }.
Arguments mkApplyMsg {C} _ _ _ _ _ _ _.
Arguments CommandValid {C} _.
Arguments am_Command {C} _.
Arguments CommandIndex {C} _.
Arguments SnapshotValid {C} _.
Arguments am_Snapshot {C} _.
Arguments SnapshotTerm {C} _.
Arguments SnapshotIndex {C} _.

(** ** The peer *)

(** [role] keeps the code's encoding 0, 1, 2.  [peers] is the number of end points.
    [pendingPuts] holds the argument of every goroutine started with
    [go rf.putApplyChBuffer(msgs)] that has not yet entered the buffer. *)
Record Raft (C : Type) := mkRaft {
  peers : nat;
  persister : Persister;
  me : Z;
  dead : Z;
  currentTerm : Z;
  votedFor : Z;
  log : list (LogEntry C);
  commitIndex : Z;
  lastApplied : Z;
  nextIndex : list Z;
  matchIndex : list Z;
  role : Z;
  lastHeartbeatTime : Z;
  electionTimeout : Z;
  voteCnt : Z;
  curLeader : Z;
  applyMsgReady : bool;
  applyChBuffer : list (ApplyMsg C);
  pendingPuts : list (list (ApplyMsg C));
  snapshot : bytes;
  snapshotIndex : Z;
  snapshotTerm : Z }.
Arguments mkRaft {C} _ _ _ _ _ _ _ _ _ _ _ _ _ _ _ _ _ _ _ _ _ _.
Arguments peers {C} _.
Arguments persister {C} _.
Arguments me {C} _.
Arguments dead {C} _.
Arguments currentTerm {C} _.
Arguments votedFor {C} _.
Arguments log {C} _.
Arguments commitIndex {C} _.
Arguments lastApplied {C} _.
Arguments nextIndex {C} _.
Arguments matchIndex {C} _.
Arguments role {C} _.
Arguments lastHeartbeatTime {C} _.
Arguments electionTimeout {C} _.
Arguments voteCnt {C} _.
Arguments curLeader {C} _.
Arguments applyMsgReady {C} _.
Arguments applyChBuffer {C} _.
Arguments pendingPuts {C} _.
Arguments snapshot {C} _.
Arguments snapshotIndex {C} _.
Arguments snapshotTerm {C} _.

#[export] Instance eta_Raft {C} : Eta (Raft C) := fun r =>
  mkRaft (peers r) (persister r) (me r) (dead r) (currentTerm r) (votedFor r) (log r)
    (commitIndex r) (lastApplied r) (nextIndex r) (matchIndex r) (role r)
    (lastHeartbeatTime r) (electionTimeout r) (voteCnt r) (curLeader r)
    (applyMsgReady r) (applyChBuffer r) (pendingPuts r) (snapshot r) (snapshotIndex r)
    (snapshotTerm r).

Definition Follower : Z := 0.
Definition Candidate : Z := 1.
Definition Leader : Z := 2.

(** [rf := &Raft{}]: every field at its zero value. *)
Definition zero_Raft {C} : Raft C :=
  mkRaft 0 MakePersister 0 0 0 0 [] 0 0 [] [] 0 0 0 0 0 false [] [] [] 0 0.

(** ** RPC arguments and replies *)

Record RequestVoteArgs := mkRequestVoteArgs {
  rva_Term : Z; rva_CandidateId : Z; rva_LastLogIndex : Z; rva_LastLogTerm : Z }.
Record RequestVoteReply := mkRequestVoteReply { rvr_Term : Z; rvr_VoteGranted : bool }.
#[export] Instance eta_RequestVoteReply : Eta RequestVoteReply :=
  fun r => mkRequestVoteReply (rvr_Term r) (rvr_VoteGranted r).
Definition zero_RequestVoteReply := mkRequestVoteReply 0 false.

Record AppendEntriesArgs (C : Type) := mkAppendEntriesArgs {
  aea_Term : Z; aea_LeaderId : Z; aea_PrevLogIndex : Z; aea_PrevLogTerm : Z;
  aea_Entries : list (LogEntry C); aea_LeaderCommit : Z }.
Arguments mkAppendEntriesArgs {C} _ _ _ _ _ _.
Arguments aea_Term {C} _.
Arguments aea_LeaderId {C} _.
Arguments aea_PrevLogIndex {C} _.
Arguments aea_PrevLogTerm {C} _.
Arguments aea_Entries {C} _.
Arguments aea_LeaderCommit {C} _.
Record AppendEntriesReply := mkAppendEntriesReply {
  aer_Term : Z; aer_Success : bool; aer_ServerId : Z;
  aer_XTerm : Z; aer_XIndex : Z; aer_XLen : Z }.
#[export] Instance eta_AppendEntriesReply : Eta AppendEntriesReply := fun r =>
  mkAppendEntriesReply (aer_Term r) (aer_Success r) (aer_ServerId r)
    (aer_XTerm r) (aer_XIndex r) (aer_XLen r).
Definition zero_AppendEntriesReply := mkAppendEntriesReply 0 false 0 0 0 0.

Record InstallSnapshotArgs := mkInstallSnapshotArgs {
  isa_Term : Z; isa_LeaderId : Z; isa_LastIncludedIndex : Z; isa_LastIncludedTerm : Z;
  isa_Snapshot : bytes }.
Record InstallSnapshotReply := mkInstallSnapshotReply { isr_Term : Z; isr_ServerId : Z }.
#[export] Instance eta_InstallSnapshotReply : Eta InstallSnapshotReply :=
  fun r => mkInstallSnapshotReply (isr_Term r) (isr_ServerId r).
Definition zero_InstallSnapshotReply := mkInstallSnapshotReply 0 0.
