(* ===== verification/RaftTools.v ===== *)
(** Looking up the log: [findIndex] and [getLastLogIndexAndTerm] of
    [src/raft/tools.go], and the shape of a log whose indexes are consecutive. *)
From S2P Require Import Prelude Persister RaftTypes.

Section tools.
Context {C : Type}.
Implicit Types (rf : Raft C) (l : list (LogEntry C)) (e : LogEntry C).

(** [for i := 0; i < len(rf.log); i++ { if rf.log[i].Index == target { return i } }] *)
Fixpoint findIndex_loop (i : Z) l (target : Z) : Z :=
  match l with
  | [] => -1
  | e :: l' => if le_Index e =? target then i else findIndex_loop (i + 1) l' target
  end.

Definition findIndex rf (target : Z) : Z := findIndex_loop 0 (log rf) target.

Definition getLastLogIndexAndTerm rf : Z * Z :=
  match last (log rf) with
  | Some e => (le_Index e, le_Term e)
  | None => (snapshotIndex rf, snapshotTerm rf)
  end.

Definition GetState rf : Z * bool := (currentTerm rf, role rf =? Leader).

(** ** Consecutive logs *)

(** The entries of [l] carry the indexes [start], [start + 1], ... *)
Definition consecutive (start : Z) l : Prop :=
  forall (i : nat) e, l !! i = Some e -> le_Index e = start + Z.of_nat i.

(** A peer's log starts right after its snapshot. *)
Definition log_ok rf : Prop := consecutive (snapshotIndex rf + 1) (log rf).

Lemma consecutive_nil s : consecutive s [].
Proof. intros i e H. by rewrite lookup_nil in H. Qed.

Lemma consecutive_cons s e l :
  consecutive s (e :: l) <-> le_Index e = s /\ consecutive (s + 1) l.
Proof.
  split.
  - intros H. split.
    + specialize (H 0%nat e eq_refl). lia.
    + intros i e' Hi. specialize (H (S i) e' Hi). lia.
  - intros [He H] [|i] e' Hi; cbn in Hi; simplify_eq; [lia |].
    specialize (H i e' Hi). lia.
Qed.

Lemma consecutive_app s l1 l2 :
  consecutive s (l1 ++ l2) <-> consecutive s l1 /\ consecutive (s + len l1) l2.
Proof.
  revert s; induction l1 as [|e l1 IH]; intros s; cbn [app length].
  - replace (s + Z.of_nat 0) with s by lia. pose proof (consecutive_nil s). tauto.
  - rewrite !consecutive_cons, IH. replace (s + 1 + len l1) with (s + Z.of_nat (S (length l1))) by lia.
    tauto.
Qed.

Lemma consecutive_take s n l : consecutive s l -> consecutive s (take n l).
Proof. rewrite <- (take_drop n l) at 1. rewrite consecutive_app. tauto. Qed.

Lemma consecutive_drop s n l :
  (n <= length l)%nat -> consecutive s l -> consecutive (s + Z.of_nat n) (drop n l).
Proof.
  intros Hn. rewrite <- (take_drop n l) at 1. rewrite consecutive_app, length_take.
  rewrite Nat.min_l by lia. tauto.
Qed.

Lemma consecutive_snoc s e l :
  consecutive s l -> le_Index e = s + len l -> consecutive s (l ++ [e]).
Proof.
  intros Hl He. apply consecutive_app. split; [done |].
  apply consecutive_cons. split; [done | apply consecutive_nil].
Qed.

Lemma findIndex_loop_spec s l j target :
  consecutive s l ->
  findIndex_loop j l target =
    if (s <=? target) && (target <? s + len l) then j + (target - s) else -1.
Proof.
  revert s j; induction l as [|e l IH]; intros s j; cbn [findIndex_loop length].
  - intros _. destruct (Z.leb_spec s target), (Z.ltb_spec target (s + Z.of_nat 0)); cbn; lia.
  - intros [He Hl]%consecutive_cons. rewrite (IH _ (j + 1) Hl).
    destruct (Z.eqb_spec (le_Index e) target), (Z.leb_spec s target),
      (Z.leb_spec (s + 1) target), (Z.ltb_spec target (s + Z.of_nat (S (length l)))),
      (Z.ltb_spec target (s + 1 + len l)); cbn; lia.
Qed.

Lemma findIndex_spec rf target :
  log_ok rf ->
  findIndex rf target =
    if (snapshotIndex rf <? target) && (target <=? snapshotIndex rf + len (log rf))
    then target - snapshotIndex rf - 1 else -1.
Proof.
  intros H. unfold findIndex. rewrite (findIndex_loop_spec _ _ _ _ H).
  destruct (Z.leb_spec (snapshotIndex rf + 1) target),
    (Z.ltb_spec target (snapshotIndex rf + 1 + len (log rf))),
    (Z.ltb_spec (snapshotIndex rf) target),
    (Z.leb_spec target (snapshotIndex rf + len (log rf))); cbn; lia.
Qed.

Lemma lastIndex_spec rf :
  log_ok rf -> fst (getLastLogIndexAndTerm rf) = snapshotIndex rf + len (log rf).
Proof.
  unfold log_ok, getLastLogIndexAndTerm. intros H.
  destruct (last (log rf)) as [e|] eqn:E; cbn.
  - rewrite last_lookup in E. rewrite (H _ _ E).
    destruct (log rf); cbn in *; [done | lia].
  - apply last_None in E. rewrite E. cbn. lia.
Qed.

Lemma findIndex_found rf target :
  log_ok rf -> snapshotIndex rf < target <= snapshotIndex rf + len (log rf) ->
  findIndex rf target = target - snapshotIndex rf - 1.
Proof.
  intros H Ht. rewrite findIndex_spec by done.
  destruct (Z.ltb_spec (snapshotIndex rf) target),
    (Z.leb_spec target (snapshotIndex rf + len (log rf))); cbn; lia.
Qed.

Lemma findIndex_absent rf target :
  log_ok rf -> target <= snapshotIndex rf \/ snapshotIndex rf + len (log rf) < target ->
  findIndex rf target = -1.
Proof.
  intros H Ht. rewrite findIndex_spec by done.
  destruct (Z.ltb_spec (snapshotIndex rf) target),
    (Z.leb_spec target (snapshotIndex rf + len (log rf))); cbn; lia.
Qed.

(** The entry with index [i] of a consecutive log sits at [i - snapshotIndex - 1]. *)
Lemma log_lookup_index rf i :
  log_ok rf -> snapshotIndex rf < i <= snapshotIndex rf + len (log rf) ->
  exists e, go_index (log rf) (i - snapshotIndex rf - 1) = Done e
    /\ log rf !! Z.to_nat (i - snapshotIndex rf - 1) = Some e /\ le_Index e = i.
Proof.
  intros H Hi.
  destruct (go_index_total (log rf) (i - snapshotIndex rf - 1)) as (e & He & Hl); [lia |].
  exists e. repeat split; try done. rewrite (H _ _ Hl). lia.
Qed.
End tools.

#[export] Hint Resolve consecutive_nil consecutive_take : raft.
