(* ===== verification/Decimal.v ===== *)
(** Decimal numbers in texts: [strconv.Itoa] and [%d] print as [pretty] does, and the
    number at the front of a text is read as [fmt.Sscanf] reads [%d]. *)
From Stdlib Require Import Ascii.
From stdpp Require Import pretty.
From S2P Require Import Prelude.

Definition digit (c : ascii) : option Z :=
  let b := Z.of_N (N_of_ascii c) in
  if (48 <=? b) && (b <=? 57) then Some (b - 48) else None.

(** The digits at the front, added to what was read before them, and the rest. *)
Fixpoint read_digits (acc : Z) (s : string) : Z * string :=
  match s with
  | EmptyString => (acc, EmptyString)
  | String c s' =>
    match digit c with
    | Some d => read_digits (10 * acc + d) s'
    | None => (acc, s)
    end
  end.

Definition digit_first (s : string) : bool :=
  match s with EmptyString => false | String c _ => bool_decide (is_Some (digit c)) end.

(** An optional sign and at least one digit. *)
Definition read_int (s : string) : option (Z * string) :=
  let '(negative, t) :=
    match s with
    | String c t =>
      if Ascii.eqb c "-"%char then (true, t) else if Ascii.eqb c "+"%char then (false, t) else (false, s)
    | EmptyString => (false, s)
    end in
  if digit_first t then
    let out := read_digits 0 t in
    Some (if negative : bool then - out.1 else out.1, out.2)
  else None.

Lemma digit_char x : (x < 10)%N -> digit (pretty_N_char x) = Some (Z.of_N x).
Proof. intros Hx. destruct (N.lt_exists_pred 0 10) as [? _]; [done |].
  assert (x = 0 \/ x = 1 \/ x = 2 \/ x = 3 \/ x = 4 \/ x = 5 \/ x = 6 \/ x = 7 \/ x = 8 \/ x = 9)%N as Hc by lia.
  by repeat (destruct Hc as [->|Hc]; [reflexivity |]); subst.
Qed.

(** What [pretty_N_go] puts in front of a text is read back as the number. *)
Lemma read_digits_go x s : exists k, forall acc,
  read_digits acc (pretty_N_go x s) = read_digits (acc * 10 ^ Z.of_nat k + Z.of_N x) s.
Proof.
  revert s. induction (N.lt_wf_0 x) as [x _ IH]; intros s.
  destruct (decide (x = 0)%N) as [->|Hx].
  { exists 0%nat. intros acc. rewrite pretty_N_go_0. f_equal. lia. }
  rewrite pretty_N_go_step by lia.
  destruct (IH (x `div` 10)%N) with (s := String (pretty_N_char (x `mod` 10)) s) as [k Hk].
  { apply N.div_lt; lia. }
  exists (S k). intros acc. rewrite Hk. cbn [read_digits]. rewrite digit_char by (apply N.mod_lt; lia).
  f_equal. rewrite Nat2Z.inj_succ, Z.pow_succ_r by lia.
  assert (Z.of_N x = 10 * Z.of_N (x `div` 10) + Z.of_N (x `mod` 10)) as Hdiv
    by (pose proof (N.div_mod x 10 ltac:(done)); lia).
  rewrite Hdiv. ring.
Qed.

Lemma digit_first_go x s : (0 < x)%N -> digit_first (pretty_N_go x s) = true.
Proof.
  revert s. induction (N.lt_wf_0 x) as [x _ IH]; intros s Hx. rewrite pretty_N_go_step by done.
  destruct (decide (x `div` 10 = 0)%N) as [->|Hd];
    [|apply IH; [by apply N.div_lt | by apply N.neq_0_lt_0]].
  rewrite pretty_N_go_0. cbn [digit_first]. rewrite digit_char by (apply N.mod_lt; lia). done.
Qed.

Lemma read_digits_stop acc s : digit_first s = false -> read_digits acc s = (acc, s).
Proof. destruct s as [|c s]; [done |]. cbn. by destruct (digit c). Qed.

Lemma go_app x s t : pretty_N_go x s +:+ t = pretty_N_go x (s +:+ t).
Proof.
  revert s. induction (N.lt_wf_0 x) as [x _ IH]; intros s.
  destruct (decide (x = 0)%N) as [->|Hx]; [by rewrite !pretty_N_go_0 |].
  rewrite !(pretty_N_go_step x) by lia. rewrite IH; [done |]. apply N.div_lt; lia.
Qed.

(** A printed number that is not followed by a digit is read back. *)
Lemma read_pretty_N (x : N) s :
  digit_first s = false ->
  digit_first (pretty x +:+ s) = true /\ read_digits 0 (pretty x +:+ s) = (Z.of_N x, s).
Proof.
  intros Hs. unfold pretty, pretty_N. destruct (decide (x = 0)%N) as [->|Hx].
  { split; [done |]. change ("0" +:+ s) with (String "0" s). cbn [read_digits].
    change (digit "0") with (Some 0). by apply read_digits_stop. }
  rewrite go_app. change (EmptyString +:+ s) with s. split; [apply digit_first_go; lia |].
  destruct (read_digits_go x s) as [k ->]. rewrite read_digits_stop by done. f_equal; lia.
Qed.

Lemma first_sign c (d : Z) : digit c = Some d -> c <> "-"%char /\ c <> "+"%char.
Proof. by intros Hd; split; intros ->. Qed.

Lemma read_int_unsigned t : digit_first t = true -> read_int t = Some (read_digits 0 t).
Proof.
  intros Ht. destruct t as [|c t]; [done |]. pose proof Ht as Hd. cbn in Hd. apply bool_decide_eq_true in Hd as [d Hd].
  destruct (first_sign c d Hd) as [Hm Hp]. unfold read_int.
  apply Ascii.eqb_neq in Hm as ->. apply Ascii.eqb_neq in Hp as ->.
  rewrite Ht. by destruct (read_digits 0 (String c t)).
Qed.

Lemma read_int_minus t :
  digit_first t = true -> read_int (String "-" t) = Some (- (read_digits 0 t).1, (read_digits 0 t).2).
Proof. intros Ht. unfold read_int. cbn. by rewrite Ht. Qed.

Theorem read_pretty (z : Z) s : digit_first s = false -> read_int (pretty z +:+ s) = Some (z, s).
Proof.
  intros Hs. destruct z as [|p|p].
  - destruct (read_pretty_N 0 s Hs) as [H1 H2]. transitivity (read_int (pretty 0%N +:+ s)); [done |].
    rewrite read_int_unsigned by exact H1. f_equal. exact H2.
  - destruct (read_pretty_N (N.pos p) s Hs) as [H1 H2].
    transitivity (read_int (pretty (N.pos p) +:+ s)); [done |].
    rewrite read_int_unsigned by exact H1. f_equal. exact H2.
  - destruct (read_pretty_N (N.pos p) s Hs) as [H1 H2].
    transitivity (read_int (String "-" (pretty (N.pos p) +:+ s))); [done |].
    rewrite (read_int_minus (pretty (N.pos p) +:+ s) H1), H2. done.
Qed.

(** Two texts that start with a number and go on with something else than a digit. *)
Lemma pretty_prefix (z z' : Z) s s' :
  digit_first s = false -> digit_first s' = false ->
  pretty z +:+ s = pretty z' +:+ s' -> z = z' /\ s = s'.
Proof. intros Hs Hs' He. apply (f_equal read_int) in He. rewrite !read_pretty in He by done. by injection He. Qed.

(** ** Texts put together *)

Lemma text_assoc (a b c : string) : (a +:+ b) +:+ c = a +:+ b +:+ c.
Proof. induction a as [|x a IH]; [done |]. exact (f_equal (String x) IH). Qed.

(** [for i ... { s += f(l[i]); if i != len(l)-1 { s += " " } }] *)
Fixpoint spaced {A} (f : A -> string) (l : list A) : string :=
  match l with
  | [] => ""
  | [a] => f a
  | a :: l' => f a +:+ " " +:+ spaced f l'
  end.

(** If what is printed for an element determines a part of it in front of any text that
    does not go on with a digit, then the list determines the parts of its elements. *)
Section spaced.
Context {A K : Type} (f : A -> string) (key : A -> K) (close : ascii).
Hypothesis Hclose : digit close = None /\ close <> " "%char.
Hypothesis Hkey : forall a b s s', digit_first s = false -> digit_first s' = false ->
  f a +:+ s = f b +:+ s' -> key a = key b /\ s = s'.
Hypothesis Hopen : forall a s s', f a +:+ s <> String close s'.

Lemma close_first s : digit_first (String close s) = false.
Proof. destruct Hclose as [Hd _]. cbn. by rewrite Hd. Qed.

Lemma spaced_prefix l l' s s' :
  spaced f l +:+ String close s = spaced f l' +:+ String close s' -> key <$> l = key <$> l' /\ s = s'.
Proof.
  destruct Hclose as [_ Hsp]. revert l'. induction l as [|a l IH]; intros l' He.
  { destruct l' as [|b [|b' l']]; [by injection He | |]; exfalso; cbn [spaced] in He;
      [|rewrite text_assoc in He]; by eapply Hopen. }
  destruct l' as [|b l'].
  { exfalso. destruct l as [|a' l]; cbn [spaced] in He; [|rewrite text_assoc in He]; by eapply Hopen. }
  destruct l as [|a' l], l' as [|b' l'].
  - cbn [spaced] in He. apply Hkey in He as [Hk [= ->]]; [|apply close_first..].
    split; [|done]. cbn. by rewrite Hk.
  - exfalso. change (spaced f (b :: b' :: l')) with (f b +:+ " " +:+ spaced f (b' :: l')) in He. cbn [spaced] in He.
    rewrite text_assoc in He. apply Hkey in He as [_ He]; [|apply close_first | done]. by injection He.
  - exfalso. change (spaced f (a :: a' :: l)) with (f a +:+ " " +:+ spaced f (a' :: l)) in He. cbn [spaced] in He.
    rewrite text_assoc in He. apply Hkey in He as [_ He]; [|done | apply close_first]. by injection He as <-.
  - change (spaced f (a :: a' :: l)) with (f a +:+ " " +:+ spaced f (a' :: l)) in He.
    change (spaced f (b :: b' :: l')) with (f b +:+ " " +:+ spaced f (b' :: l')) in He.
    rewrite !text_assoc in He. apply Hkey in He as [Hk He]; [|done..]. injection He as He.
    destruct (IH (b' :: l') He) as [Hl ->]. split; [|done].
    change (key a :: (key <$> a' :: l) = key b :: (key <$> b' :: l')). by rewrite Hk, Hl.
Qed.
End spaced.

(** The front of a printed number. *)
Lemma pretty_open (z : Z) s c s' : digit c = None -> c <> "-"%char -> pretty z +:+ s <> String c s'.
Proof.
  intros Hc Hm He. destruct z as [|p|p].
  - change (pretty 0) with "0" in He. injection He as <-. done.
  - pose proof (digit_first_go (N.pos p) s ltac:(lia)) as Hd.
    assert (pretty_N_go (N.pos p) s = String c s') as E by (rewrite <- He, <- (go_app _ "" s); done).
    rewrite E in Hd. cbn in Hd. by rewrite Hc in Hd.
  - by injection He as <-.
Qed.
