(* ===== verification/RaftPrint.v ===== *)
(** What a peer prints: [src/raft/tools.go], and that a printed state tells the state.

    A line is given without the date and time that [log] puts in front of it. *)
From Stdlib Require Import Ascii.
From stdpp Require Import pretty.
From S2P Require Import Prelude Persister RaftTypes RaftTools Decimal.

(** [strconv.Itoa] and [%d]; [%t]. *)
Definition Itoa (z : Z) : string := pretty z.
Definition bool_str (b : bool) : string := if b then "true" else "false".
(** The escape character, [\033]. *)
Definition esc (s : string) : string := String "027"%char s.

Definition selectColor (inputColor : string) : string :=
  let color := esc "[0m" in
  if String.eqb inputColor "red" then esc "[31m"
  else if String.eqb inputColor "green" then esc "[32m"
  else if String.eqb inputColor "yellow" then esc "[33m"
  else if String.eqb inputColor "blue" then esc "[34m"
  else if String.eqb inputColor "purple" then esc "[35m"
  else if String.eqb inputColor "skyblue" then esc "[36m"
  else if String.eqb inputColor "default" then esc "[0m"
  else color.

Definition getRoleStr (role : Z) : string :=
  if role =? 0 then "Follower" else if role =? 1 then "Candidate" else if role =? 2 then "Leader" else "Unknown".

Definition printSplit (content : string) : list string :=
  [""; "-------------------" +:+ content +:+ "-------------------"; ""].

Section print.
Context {C : Type}.
Implicit Types (rf : Raft C) (l : list (LogEntry C)) (e : LogEntry C).

Definition entry_str e : string := Itoa (le_Term e) +:+ "[" +:+ Itoa (le_Index e) +:+ "]".
Definition getLogStr l : string := "{" +:+ spaced entry_str l +:+ "}".

Definition PrintLog rf (content color : string) : string :=
  selectColor color +:+ "[Server " +:+ Itoa (me rf) +:+ "]" +:+ content +:+ esc "[0m".

(** The text that [PrintServerState] hands to [PrintLog]. *)
Definition state_str rf : string :=
  let nextIndexStr := "[nextIndex [" +:+ spaced Itoa (nextIndex rf) +:+ "]]" in
  let matchIndexStr := "[matchIndex [" +:+ spaced Itoa (matchIndex rf) +:+ "]]" in
  let logStr := "[log [" +:+ getLogStr (log rf) +:+ "]]" in
  let snapshotStatusStr := " [SnapshotIndex " +:+ Itoa (snapshotIndex rf) +:+ "] [SnapshotTerm "
                           +:+ Itoa (snapshotTerm rf) +:+ "]" in
  let server := " " +:+ Itoa (me rf) +:+ "]" +:+ " [Term " +:+ Itoa (currentTerm rf) +:+ "]"
                +:+ " [CommitIndex " +:+ Itoa (commitIndex rf) +:+ "]" in
  let stateStr := "            [STATE]" in
  if role rf =? 0 then stateStr +:+ "[Follower" +:+ server +:+ snapshotStatusStr +:+ logStr
  else if role rf =? 1 then stateStr +:+ "[Candidate" +:+ server +:+ snapshotStatusStr +:+ logStr
  else if role rf =? 2 then
    stateStr +:+ "[Leader" +:+ server +:+ snapshotStatusStr +:+ nextIndexStr +:+ matchIndexStr +:+ logStr
  else stateStr.

Definition PrintServerState rf (color : string) : string := PrintLog rf (state_str rf) color.
Definition PrintRfLog rf : string := PrintLog rf ("[LOG]" +:+ getLogStr (log rf)) "red".

Definition getAppendEntriesRPCStr (args : AppendEntriesArgs C) (reply : AppendEntriesReply) : string :=
  let str1 := "[Leader term " +:+ Itoa (aea_Term args) +:+ "], [Leader Id " +:+ Itoa (aea_LeaderId args)
    +:+ "], [prevLogIndex " +:+ Itoa (aea_PrevLogIndex args) +:+ "], [prevLogTerm "
    +:+ Itoa (aea_PrevLogTerm args) +:+ "], [LeaderCommit " +:+ Itoa (aea_LeaderCommit args)
    +:+ "], [Entries " +:+ getLogStr (aea_Entries args) +:+ "]" in
  let str2 := "[Follower term " +:+ Itoa (aer_Term reply) +:+ "], [Follower Id " +:+ Itoa (aer_ServerId reply)
    +:+ "], [Success " +:+ bool_str (aer_Success reply) +:+ "], [XTerm " +:+ Itoa (aer_XTerm reply)
    +:+ "], [XIndex " +:+ Itoa (aer_XIndex reply) +:+ "], [XLen " +:+ Itoa (aer_XLen reply) +:+ "]" in
  str1 +:+ " || " +:+ str2.

(** ** Reading it *)

Lemma Itoa_prefix z z' s s' :
  digit_first s = false -> digit_first s' = false -> Itoa z +:+ s = Itoa z' +:+ s' -> z = z' /\ s = s'.
Proof. apply pretty_prefix. Qed.

(** A printed entry tells its term and index. *)
Lemma entry_prefix e e' s s' :
  entry_str e +:+ s = entry_str e' +:+ s' -> (le_Term e, le_Index e) = (le_Term e', le_Index e') /\ s = s'.
Proof.
  unfold entry_str. rewrite !text_assoc. intros [Ht He]%Itoa_prefix; [|done..]. injection He as He.
  apply Itoa_prefix in He as [Hi He]; [|done..]. split; [by rewrite Ht, Hi | by injection He].
Qed.

Lemma log_prefix l l' s s' :
  getLogStr l +:+ s = getLogStr l' +:+ s' ->
  (fun e => (le_Term e, le_Index e)) <$> l = (fun e => (le_Term e, le_Index e)) <$> l' /\ s = s'.
Proof.
  unfold getLogStr. rewrite !(text_assoc "{").
  rewrite (text_assoc (spaced _ l)), (text_assoc (spaced _ l')). intros [= He].
  eapply (spaced_prefix entry_str _ "}") in He; [done | done | intros; by apply entry_prefix |].
  intros e t t'. unfold entry_str. rewrite text_assoc. by apply pretty_open.
Qed.

Lemma numbers_prefix (l l' : list Z) s s' :
  spaced Itoa l +:+ String "]" s = spaced Itoa l' +:+ String "]" s' -> l = l' /\ s = s'.
Proof.
  intros He. eapply (spaced_prefix Itoa id "]") in He;
    [by rewrite !list_fmap_id in He | done | intros; by apply Itoa_prefix |].
  intros z t t'. by apply pretty_open.
Qed.

(** The part of a printed state that does not depend on the role. *)
Lemma server_prefix rf rf' s s' :
  let text r t := Itoa (me r) +:+ "]" +:+ " [Term " +:+ Itoa (currentTerm r) +:+ "]"
    +:+ " [CommitIndex " +:+ Itoa (commitIndex r) +:+ "]" +:+ " [SnapshotIndex " +:+ Itoa (snapshotIndex r)
    +:+ "] [SnapshotTerm " +:+ Itoa (snapshotTerm r) +:+ "]" +:+ t in
  text rf s = text rf' s' ->
  (me rf = me rf' /\ currentTerm rf = currentTerm rf' /\ commitIndex rf = commitIndex rf'
   /\ snapshotIndex rf = snapshotIndex rf' /\ snapshotTerm rf = snapshotTerm rf') /\ s = s'.
Proof.
  cbn zeta. intros He. apply Itoa_prefix in He as [Hm [= He]]; [|done..].
  apply Itoa_prefix in He as [Ht [= He]]; [|done..]. apply Itoa_prefix in He as [Hc [= He]]; [|done..].
  apply Itoa_prefix in He as [Hi [= He]]; [|done..]. apply Itoa_prefix in He as [Hs He]; [|done..].
  split; [done | by injection He].
Qed.

(** The roles, terms, indexes and log positions that a line shows. *)
Definition shown_state rf : Z * (Z * Z * Z * Z * Z) * list (Z * Z) * (list Z * list Z) :=
  (role rf, (me rf, currentTerm rf, commitIndex rf, snapshotIndex rf, snapshotTerm rf),
   (fun e => (le_Term e, le_Index e)) <$> log rf,
   if role rf =? 2 then (nextIndex rf, matchIndex rf) else ([], [])).

Lemma logged_prefix rf rf' s s' :
  "[log [" +:+ getLogStr (log rf) +:+ "]]" +:+ s = "[log [" +:+ getLogStr (log rf') +:+ "]]" +:+ s' ->
  (fun e => (le_Term e, le_Index e)) <$> log rf = (fun e => (le_Term e, le_Index e)) <$> log rf' /\ s = s'.
Proof. intros [Hl He]%(inj (String.append "[log ["))%log_prefix. split; [done | by injection He]. Qed.

Lemma indexes_prefix rf rf' s s' :
  let text r t := "[nextIndex [" +:+ spaced Itoa (nextIndex r) +:+ "]]"
    +:+ "[matchIndex [" +:+ spaced Itoa (matchIndex r) +:+ "]]" +:+ t in
  text rf s = text rf' s' -> nextIndex rf = nextIndex rf' /\ matchIndex rf = matchIndex rf' /\ s = s'.
Proof.
  cbn zeta. intros [= [Hn [= [Hm He]%numbers_prefix]]%numbers_prefix].
  split; [done |]. split; [done | by injection He].
Qed.

Lemma state_prefix rf rf' s s' :
  0 <= role rf <= 2 -> 0 <= role rf' <= 2 -> state_str rf +:+ s = state_str rf' +:+ s' ->
  shown_state rf = shown_state rf' /\ s = s'.
Proof.
  intros Hr Hr'. unfold state_str, shown_state.
  assert (role rf = 0 \/ role rf = 1 \/ role rf = 2) as [-> | [-> | ->]] by lia;
    assert (role rf' = 0 \/ role rf' = 1 \/ role rf' = 2) as [-> | [-> | ->]] by lia;
    cbn [Z.eqb Pos.eqb]; rewrite !text_assoc; try done; intros [= He]; apply server_prefix in He as [Hsrv He].
  1-2: apply logged_prefix in He as [-> ->]; by destruct Hsrv as (-> & -> & -> & -> & ->).
  apply indexes_prefix in He as (-> & -> & He). apply logged_prefix in He as [-> ->].
  by destruct Hsrv as (-> & -> & -> & -> & ->).
Qed.

(** A printed state tells the state: if two peers print the same line in the same
    colour, then they have the same role, term, commit index and snapshot position, the
    terms and indexes of their log entries are the same, and so are, for leaders, the
    next and match indexes. *)
Theorem PrintServerState_tells rf rf' color :
  0 <= role rf <= 2 -> 0 <= role rf' <= 2 ->
  PrintServerState rf color = PrintServerState rf' color -> shown_state rf = shown_state rf'.
Proof.
  intros Hr Hr'. unfold PrintServerState, PrintLog. intros He%(inj (String.append (selectColor color))).
  injection He as He. apply Itoa_prefix in He as [_ He]; [|done..]. injection He as He.
  by apply state_prefix in He as [Hs _].
Qed.
End print.

(** Commands are not printed: two logs that differ in them only look the same. *)
Lemma PrintServerState_tells_witness :
  let r := mkRaft 2 MakePersister 0 0 1 0 [mkLogEntry 1 0 7] 0 0 [1; 1] [0; 0] 2 0 0 0 0 false [] [] [] (-1) 0 in
  shown_state r = shown_state (r <| log := [mkLogEntry 1 0 8] |>).
Proof. intros r. apply (PrintServerState_tells r _ "red"); vm_compute; (reflexivity || by split). Defined.
