(* ===== verification/RaftPersist.v ===== *)
(** Stable storage of a peer: [persist], [readPersist] and [readPersistSnapshot] of
    [src/raft/raft.go].

    The byte format is that of Go's [encoding/gob] behind [src/labgob]; it is a
    parameter, the class [GobCodec], and what the code relies on (a decoder asked for
    the kinds of the values that were encoded, in order, yields those values) is the
    class [GobLaws]. *)
From S2P Require Import Prelude Persister RaftTypes RaftTools.

(** ** The codec *)

(** The values that [persist] encodes, and the types that [readPersist] decodes into. *)
Inductive gobval (C : Type) := GInt (z : Z) | GLog (l : list (LogEntry C)).
Arguments GInt {C} _.
Arguments GLog {C} _.
Inductive gobkind := KInt | KLog.
#[export] Instance gobkind_eq_dec : EqDecision gobkind.
Proof. solve_decision. Defined.
Definition kind_of {C} (v : gobval C) : gobkind :=
  match v with GInt _ => KInt | GLog _ => KLog end.

(** [gob_encode vs]: the bytes one encoder writes for the values [vs] in order.
    [gob_decode ks b]: what one decoder over [b] yields when asked for values of the
    kinds [ks] in order, [None] as soon as one call of Decode returns an error. *)
Class GobCodec (C : Type) := {
  gob_encode : list (gobval C) -> bytes;
  gob_decode : list gobkind -> bytes -> option (list (gobval C)) }.

Class GobLaws (C : Type) `{GobCodec C} := {
  gob_roundtrip vs : gob_decode (kind_of <$> vs) (gob_encode vs) = Some vs;
  gob_nonempty vs : vs <> [] -> gob_encode vs <> [] }.

(** ** persist and readPersist *)

Section persist.
Context {C : Type} `{GobCodec C}.
Implicit Types (rf : Raft C).

Definition raftState rf : bytes :=
  gob_encode [GInt (currentTerm rf); GInt (votedFor rf); GLog (log rf);
              GInt (snapshotIndex rf); GInt (snapshotTerm rf)].

Definition persist rf : Raft C :=
  rf <| persister := Save (persister rf) (raftState rf) (snapshot rf) |>.

Definition readPersist (data : bytes) rf : Raft C :=
  match data with
  | [] => rf
  | _ =>
    match gob_decode [KInt; KInt; KLog; KInt; KInt] data with
    | Some [GInt term; GInt voted; GLog l; GInt si; GInt st] =>
        rf <| currentTerm := term |> <| votedFor := voted |> <| log := l |>
           <| snapshotIndex := si |> <| snapshotTerm := st |>
    | _ => rf
    end
  end.

Definition readPersistSnapshot (data : bytes) rf : Raft C := rf <| snapshot := data |>.

(** The stable storage of [rf] holds its current term, vote, log and snapshot. *)
Definition persisted rf : Prop :=
  raftstate (persister rf) = raftState rf /\ psnapshot (persister rf) = snapshot rf.

Lemma persist_persisted rf : persisted (persist rf).
Proof. split; cbn; by rewrite clone_id. Qed.

(** What [readPersist] restores from a storage that [persist] wrote. *)
Lemma readPersist_restores `{!GobLaws C} rf rf0 :
  persisted rf ->
  readPersist (ReadRaftState (persister rf)) rf0 =
    rf0 <| currentTerm := currentTerm rf |> <| votedFor := votedFor rf |> <| log := log rf |>
        <| snapshotIndex := snapshotIndex rf |> <| snapshotTerm := snapshotTerm rf |>.
Proof.
  intros [Hs _]. unfold ReadRaftState, readPersist. rewrite clone_id, Hs.
  destruct (raftState rf) as [|b bs] eqn:E.
  { exfalso. by apply (gob_nonempty [GInt (currentTerm rf); GInt (votedFor rf); GLog (log rf);
      GInt (snapshotIndex rf); GInt (snapshotTerm rf)]). }
  rewrite <- E. unfold raftState.
  change [KInt; KInt; KLog; KInt; KInt] with
    (kind_of <$> [GInt (currentTerm rf); GInt (votedFor rf); GLog (log rf);
      GInt (snapshotIndex rf); GInt (snapshotTerm rf)]).
  by rewrite gob_roundtrip.
Qed.

Lemma ReadSnapshot_persisted rf : persisted rf -> ReadSnapshot (persister rf) = snapshot rf.
Proof. intros [_ Hs]. unfold ReadSnapshot. by rewrite clone_id. Qed.
End persist.
#[global] Arguments raftState : simpl never.
#[global] Arguments Save : simpl never.

(** ** A codec for integer commands, used to evaluate the model *)

Module ZCodec.
Definition to_sum (v : gobval Z) : Z + list (Z * Z * Z) :=
  match v with
  | GInt z => inl z
  | GLog l => inr ((fun e => (le_Term e, le_Index e, le_Command e)) <$> l)
  end.
Definition of_sum (s : Z + list (Z * Z * Z)) : gobval Z :=
  match s with
  | inl z => GInt z
  | inr l => GLog ((fun '(t, i, c) => mkLogEntry t i c) <$> l)
  end.

Lemma of_to_sum v : of_sum (to_sum v) = v.
Proof.
  destruct v as [z|l]; cbn; [done |]. f_equal.
  rewrite <- list_fmap_compose. induction l as [|[t i c] l IH]; cbn; [done |]. by f_equal.
Qed.

Fixpoint pos_to_bytes (p : positive) : bytes :=
  match p with xH => [x02] | xO p => x00 :: pos_to_bytes p | xI p => x01 :: pos_to_bytes p end.
Fixpoint bytes_to_pos (b : bytes) : option positive :=
  match b with
  | [x02] => Some xH
  | x00 :: b => xO <$> bytes_to_pos b
  | x01 :: b => xI <$> bytes_to_pos b
  | _ => None
  end.

Lemma bytes_to_pos_to_bytes p : bytes_to_pos (pos_to_bytes p) = Some p.
Proof.
  induction p as [p IH|p IH|]; cbn; [by rewrite IH | by rewrite IH | done].
Qed.

Definition zencode (vs : list (gobval Z)) : bytes := pos_to_bytes (encode (to_sum <$> vs)).
Definition zdecode (ks : list gobkind) (b : bytes) : option (list (gobval Z)) :=
  p ← bytes_to_pos b;
  l ← (decode p : option (list (Z + list (Z * Z * Z))));
  let vs := of_sum <$> l in
  if decide (kind_of <$> vs = ks) then Some vs else None.

#[export] Instance z_codec : GobCodec Z := {| gob_encode := zencode; gob_decode := zdecode |}.

#[export] Instance z_laws : GobLaws Z.
Proof.
  split.
  - intros vs. cbn. unfold zdecode, zencode. rewrite bytes_to_pos_to_bytes. cbn.
    rewrite decode_encode. cbn.
    assert (of_sum <$> (to_sum <$> vs) = vs) as ->.
    { rewrite <- list_fmap_compose.
      induction vs as [|v vs IH]; cbn; [done |]. by rewrite of_to_sum, IH. }
    by rewrite decide_True.
  - intros vs _. cbn. unfold zencode. by destruct (encode (to_sum <$> vs)).
Qed.
End ZCodec.
