(* ===== verification/RaftLog.v ===== *)
(** Log replication and commitment: [src/raft/logActivities.go].

    All functions run with the peer's mutex held.  A function that mutates the peer
    and fills a reply returns both; printing is left out. *)
From S2P Require Import Prelude Persister RaftTypes RaftTools RaftPersist.

Section log_defs.
Context {C : Type} `{GobCodec C}.
Implicit Types (rf : Raft C) (l : list (LogEntry C)) (e : LogEntry C).

(** [for ; i < len(l); i++ { if l[i].Index == target { found = true; break } }] *)
Fixpoint scanIndex (i : Z) l (target : Z) : Z * bool :=
  match l with
  | [] => (i, false)
  | e :: l' => if le_Index e =? target then (i, true) else scanIndex (i + 1) l' target
  end.

(** Lines 51-55: compare [rf.log] and [newEntries] position by position. *)
Fixpoint replaceLoop (n : nat) (i : Z) l (newEntries : list (LogEntry C)) : go (list (LogEntry C)) :=
  match n with
  | O => Done l
  | S n' =>
    a ← go_index l i;
    b ← go_index newEntries i;
    replaceLoop n' (i + 1) (if le_Term a =? le_Term b then l else newEntries) newEntries
  end.

(** Lines 71-75: the first position up to [actualIndex] whose term is [tarTerm];
    [n] is the number of iterations left. *)
Fixpoint firstTermLoop (n : nat) (i : Z) l (tarTerm : Z) : go Z :=
  match n with
  | O => Done i
  | S n' =>
    a ← go_index l i;
    if le_Term a =? tarTerm then Done i else firstTermLoop n' (i + 1) l tarTerm
  end.

(** Lines 128-133: [i] runs from [actualIndex + 1], [n] iterations are left. *)
Fixpoint appendLoop (n : nat) (i actualIndex : Z) l (entries : list (LogEntry C))
    : go (list (LogEntry C)) :=
  match n with
  | O => Done l
  | S n' =>
    a ← go_index l i;
    b ← go_index entries (i - actualIndex - 1);
    l' ← (if le_Term a =? le_Term b then mret l else
            remainingEntries ← slice_from entries (i - actualIndex - 1);
            prefix ← slice_to l i;
            mret (prefix ++ remainingEntries));
    appendLoop n' (i + 1) actualIndex l' entries
  end.

Definition followerHandleLog rf (args : AppendEntriesArgs C) (reply : AppendEntriesReply)
    : go (Raft C * AppendEntriesReply) :=
  let prevLogIndex := fst (getLastLogIndexAndTerm rf) in
  if prevLogIndex <? aea_PrevLogIndex args then
    mret (rf, reply <| aer_XTerm := -1 |> <| aer_XIndex := prevLogIndex + 1 |>
                    <| aer_XLen := len (log rf) |> <| aer_Success := false |>)
  else
  let actualIndex := findIndex rf (aea_PrevLogIndex args) in
  if (actualIndex =? -1) && negb (aea_PrevLogIndex args =? -1) then
    let '(entriesActualStartIndex, foundUnCommittedLog) :=
      scanIndex 0 (aea_Entries args) (snapshotIndex rf + 1) in
    if negb foundUnCommittedLog then
      mret (rf, reply <| aer_XTerm := -1 |> <| aer_XIndex := -1 |>
                      <| aer_XLen := len (log rf) |> <| aer_Success := true |>)
    else
      newEntries ← slice_from (aea_Entries args) entriesActualStartIndex;
      log' ← (if len (log rf) <=? len newEntries then mret newEntries
              else replaceLoop (length newEntries) 0 (log rf) newEntries);
      mret (rf <| log := log' |>,
            reply <| aer_XTerm := -1 |> <| aer_XIndex := -1 |>
                  <| aer_XLen := len log' |> <| aer_Success := true |>)
  else
  conflict ← (if aea_PrevLogIndex args =? -1 then mret None else
                a ← go_index (log rf) actualIndex;
                mret (if le_Term a =? aea_PrevLogTerm args then None else Some (le_Term a)));
  match conflict with
  | Some tarTerm =>
    startIndex ← firstTermLoop (Z.to_nat (actualIndex + 1)) 0 (log rf) tarTerm;
    target ← go_index (log rf) startIndex;
    log' ← slice_to (log rf) actualIndex;
    mret (rf <| log := log' |>,
          reply <| aer_XTerm := tarTerm |> <| aer_XIndex := le_Index target |>
                <| aer_XLen := len log' |> <| aer_Success := false |>)
  | None =>
    log' ← (if len (log rf) - 1 - actualIndex <=? len (aea_Entries args) then
              prefix ← slice_to (log rf) (actualIndex + 1);
              mret (prefix ++ aea_Entries args)
            else appendLoop (length (aea_Entries args)) (actualIndex + 1) actualIndex
                   (log rf) (aea_Entries args));
    mret (rf <| log := log' |>,
          reply <| aer_XTerm := -1 |> <| aer_XIndex := -1 |>
                <| aer_XLen := len log' |> <| aer_Success := true |>)
  end.

(** Lines 161-166: the last position whose term is [xterm], [-1] if there is none. *)
Fixpoint lastTermLoop (n : nat) l (xterm : Z) : go Z :=
  match n with
  | O => Done (-1)
  | S n' =>
    a ← go_index l (Z.of_nat n');
    if le_Term a =? xterm then Done (Z.of_nat n') else lastTermLoop n' l xterm
  end.

Definition leaderHandleLog rf (args : AppendEntriesArgs C) (reply : AppendEntriesReply)
    : go (Raft C) :=
  next ← go_index (nextIndex rf) (aer_ServerId reply);
  if negb (aea_PrevLogIndex args =? next - 1) then mret rf
  else if negb (aer_Success reply) && (aer_XTerm reply =? -1) then
    ni ← go_update (nextIndex rf) (aer_ServerId reply) (aer_XIndex reply);
    mret (rf <| nextIndex := ni |>)
  else if negb (aer_Success reply) then
    lastX ← lastTermLoop (length (log rf)) (log rf) (aer_XTerm reply);
    if negb (lastX =? -1) then
      e ← go_index (log rf) lastX;
      ni ← go_update (nextIndex rf) (aer_ServerId reply) (le_Index e + 1);
      mret (rf <| nextIndex := ni |>)
    else
      ni ← go_update (nextIndex rf) (aer_ServerId reply) (aer_XIndex reply);
      mret (rf <| nextIndex := ni |>)
  else
    let next' := aea_PrevLogIndex args + len (aea_Entries args) + 1 in
    ni ← go_update (nextIndex rf) (aer_ServerId reply) next';
    mi ← go_update (matchIndex rf) (aer_ServerId reply) (next' - 1);
    mret (rf <| nextIndex := ni |> <| matchIndex := mi |>).

(** The message for one committed entry, and for an installed snapshot. *)
Definition commandMsg e : ApplyMsg C :=
  mkApplyMsg true (Some (le_Command e)) (le_Index e + 1) false [] 0 0.
Definition snapshotMsg rf : ApplyMsg C :=
  mkApplyMsg false None (-1) true (snapshot rf) (snapshotTerm rf) (snapshotIndex rf + 1).

(** [go rf.putApplyChBuffer(msgs)]: one more goroutine that waits for the buffer. *)
Definition spawnPut rf (msgs : list (ApplyMsg C)) : Raft C :=
  rf <| pendingPuts := pendingPuts rf ++ [msgs] |>.

(** Lines 279-281: [n] iterations from position [i]. *)
Fixpoint collectMsgs (n : nat) (i : Z) l : go (list (ApplyMsg C)) :=
  match n with
  | O => Done []
  | S n' =>
    a ← go_index l i;
    ms ← collectMsgs n' (i + 1) l;
    mret (commandMsg a :: ms)
  end.

Definition sendCommittedLogChannel rf (prevCommitIndex curCommitIndex : Z) : go (Raft C) :=
  let '(startIndex, found) :=
    if (prevCommitIndex =? -1) || (prevCommitIndex =? snapshotIndex rf) then (-1, true)
    else scanIndex 0 (log rf) prevCommitIndex in
  if negb found then Panic "should found startIndex" else
  applyMsgLs ← collectMsgs (Z.to_nat (curCommitIndex - prevCommitIndex)) (startIndex + 1) (log rf);
  mret (spawnPut rf applyMsgLs).

Definition followerUpdateCommitIndex rf (leaderCommit : Z) : go (Raft C) :=
  if leaderCommit <=? commitIndex rf then mret rf else
  let prevCommitIndex := commitIndex rf in
  let lastLogIndex := fst (getLastLogIndexAndTerm rf) in
  let minCommitIndex := if lastLogIndex <? leaderCommit then lastLogIndex else leaderCommit in
  let rf := rf <| commitIndex := minCommitIndex |> <| lastApplied := minCommitIndex |> in
  sendCommittedLogChannel rf prevCommitIndex (commitIndex rf).

(** [sort.Ints] of a copy *)
Definition sortInts (l : list Z) : list Z := merge_sort Z.le l.

Definition majorityMatch rf : go Z :=
  go_index (sortInts (matchIndex rf)) (Z.quot (Z.of_nat (peers rf) + 1) 2 - 1).

Definition leaderUpdateCommitIndex rf : go (Raft C) :=
  if (len (log rf) =? 0) && (snapshotIndex rf =? -1) then mret (persist rf) else
  majorityIndex ← majorityMatch rf;
  if majorityIndex =? -1 then mret (persist rf)
  else if negb (commitIndex rf <? majorityIndex) then mret (persist rf)
  else
    e ← go_index (log rf) (findIndex rf majorityIndex);
    if le_Term e =? currentTerm rf then
      let prevCommitIndex := commitIndex rf in
      let rf := rf <| commitIndex := majorityIndex |> <| lastApplied := majorityIndex |> in
      rf ← sendCommittedLogChannel rf prevCommitIndex (commitIndex rf);
      mret (persist rf)
    else mret (persist rf).
End log_defs.
