(* ===== verification/RaftLogFacts.v ===== *)
(** The loops of [followerHandleLog] computed in closed form, and the receiver rules
    of Raft's AppendEntries (Figure 2 of the paper) as the reference they refine. *)
From S2P Require Import Prelude Persister RaftTypes RaftTools RaftPersist RaftLog.

Section reconcile.
Context {C : Type}.
Implicit Types (l old new : list (LogEntry C)) (a b e : LogEntry C).

(** "If an existing entry conflicts with a new one (same index but different terms),
    delete the existing entry and all that follow it; append any new entries not
    already in the log", on two lists that start at the same index. *)
Fixpoint reconcile old new : list (LogEntry C) :=
  match old, new with
  | _, [] => old
  | [], _ => new
  | a :: old', b :: new' =>
      if le_Term a =? le_Term b then a :: reconcile old' new' else new
  end.

(** Equal terms at every common position. *)
Fixpoint same_terms old new : bool :=
  match old, new with
  | a :: old', b :: new' => (le_Term a =? le_Term b) && same_terms old' new'
  | _, _ => true
  end.

(** Log matching: entries at the same position with the same term are the same. *)
Definition agree old new : Prop :=
  forall (i : nat) a b, old !! i = Some a -> new !! i = Some b -> le_Term a = le_Term b -> a = b.

Lemma agree_nil_l new : agree [] new.
Proof. intros i a b H. by rewrite lookup_nil in H. Qed.

Lemma agree_cons a b old new :
  agree (a :: old) (b :: new) <-> (le_Term a = le_Term b -> a = b) /\ agree old new.
Proof.
  split.
  - intros H. split; [intros Ht; by apply (H 0%nat) |]. intros i x y Hx Hy. by apply (H (S i)).
  - intros [H0 H] [|i] x y Hx Hy Ht; cbn in *; simplify_eq; [by apply H0 | by apply (H i)].
Qed.

Lemma reconcile_nil_r old : reconcile old [] = old.
Proof. by destruct old. Qed.

Lemma reconcile_nil_l new : reconcile [] new = new.
Proof. by destruct new. Qed.

Lemma reconcile_refl l : reconcile l l = l.
Proof. induction l as [|a l IH]; cbn; [done |]. by rewrite Z.eqb_refl, IH. Qed.

Lemma same_terms_refl l : same_terms l l = true.
Proof. induction l as [|a l IH]; cbn; [done |]. by rewrite Z.eqb_refl, IH. Qed.

Lemma same_terms_nil_r l : same_terms l [] = true.
Proof. by destruct l. Qed.

Lemma reconcile_agree old new :
  agree old new ->
  reconcile old new =
    if same_terms old new && (length new <=? length old)%nat then old else new.
Proof.
  revert new; induction old as [|a old IH]; intros [|b new] H; cbn; try done.
  apply agree_cons in H as [Hab H]. destruct (Z.eqb_spec (le_Term a) (le_Term b)); cbn; [|done].
  rewrite IH by done. rewrite (Hab ltac:(done)). by destruct (same_terms _ _ && _).
Qed.

Lemma reconcile_shorter old new :
  agree old new -> (length old <= length new)%nat -> reconcile old new = new.
Proof.
  revert new; induction old as [|a old IH]; intros [|b new] H Hl; cbn in *; try done; [lia |].
  apply agree_cons in H as [Hab H]. destruct (Z.eqb_spec (le_Term a) (le_Term b)); [|done].
  rewrite IH by (done || lia). by rewrite Hab.
Qed.

Lemma reconcile_length old new : (length new <= length (reconcile old new))%nat.
Proof.
  revert new; induction old as [|a old IH]; intros [|b new]; cbn; try lia.
  destruct (_ =? _); cbn; [specialize (IH new) |]; lia.
Qed.

(** After reconciliation the new entries are in the log, up to the commands of
    entries that were already there with the same term. *)
Lemma reconcile_contains old new i b :
  new !! i = Some b -> exists a, reconcile old new !! i = Some a /\ le_Term a = le_Term b.
Proof.
  revert new i; induction old as [|a old IH]; intros new i Hi.
  { rewrite reconcile_nil_l. eauto. }
  destruct new as [|b0 new]; [by rewrite lookup_nil in Hi |]. cbn.
  destruct (Z.eqb_spec (le_Term a) (le_Term b0)); [|eauto].
  destruct i as [|i]; cbn in *; simplify_eq; [eauto | by apply IH].
Qed.

(** Nothing is removed from a log that already contains the new entries. *)
Lemma reconcile_keeps old new :
  same_terms old new = true -> (length new <= length old)%nat -> reconcile old new = old.
Proof.
  revert new; induction old as [|a old IH]; intros [|b new]; cbn; try done; [lia |].
  destruct (Z.eqb_spec (le_Term a) (le_Term b)); cbn; [|done].
  intros Hs Hl. rewrite IH; [done | done | lia].
Qed.

Lemma consecutive_reconcile s old new :
  consecutive s old -> consecutive s new -> consecutive s (reconcile old new).
Proof.
  revert s new; induction old as [|a old IH]; intros s [|b new] Ho Hn; cbn; try done.
  destruct (_ =? _); [|done].
  apply consecutive_cons in Ho as [Ha Ho]. apply consecutive_cons in Hn as [Hb Hn].
  apply consecutive_cons. split; [done |]. by apply IH.
Qed.

Lemma Forall_reconcile (P : LogEntry C -> Prop) old new :
  Forall P old -> Forall P new -> Forall P (reconcile old new).
Proof.
  revert new; induction old as [|a old IH]; intros [|b new] Ho Hn; cbn; try done.
  destruct (_ =? _); [|done]. inversion Ho; inversion Hn; subst. constructor; auto.
Qed.

Lemma agree_drop old new n : agree old new -> agree (drop n old) (drop n new).
Proof. intros H i a b. rewrite !lookup_drop. apply H. Qed.
End reconcile.

Section loops.
Context {C : Type}.
Implicit Types (l new : list (LogEntry C)) (a b e : LogEntry C).

Lemma scanIndex_found s l j target :
  consecutive s l -> s <= target < s + len l ->
  scanIndex j l target = (j + (target - s), true).
Proof.
  revert s j; induction l as [|e l IH]; intros s j H Ht; cbn [scanIndex length] in *; [lia |].
  apply consecutive_cons in H as [He Hl].
  destruct (Z.eqb_spec (le_Index e) target); [f_equal; lia |].
  rewrite (IH (s + 1)) by (done || lia). f_equal. lia.
Qed.

Lemma scanIndex_absent s l j target :
  consecutive s l -> target < s \/ s + len l <= target -> snd (scanIndex j l target) = false.
Proof.
  revert s j; induction l as [|e l IH]; intros s j H Ht; cbn [scanIndex length] in *; [done |].
  apply consecutive_cons in H as [He Hl].
  destruct (Z.eqb_spec (le_Index e) target); [lia |]. apply (IH (s + 1)); [done | lia].
Qed.

Lemma replaceLoop_spec n (i : nat) l new :
  (length new = i + n)%nat -> (length new <= length l)%nat ->
  replaceLoop n (Z.of_nat i) l new =
    Done (if same_terms (drop i l) (drop i new) then l else new).
Proof.
  revert i l; induction n as [|n IH]; intros i l Hn Hl; cbn [replaceLoop].
  { rewrite (drop_ge new) by lia. by rewrite same_terms_nil_r. }
  destruct (lookup_lt_is_Some_2 l i) as [a Ha]; [lia |].
  destruct (lookup_lt_is_Some_2 new i) as [b Hb]; [lia |].
  rewrite (go_index_nat _ _ _ Ha), (go_index_nat _ _ _ Hb). cbn [mbind go_bind].
  replace (Z.of_nat i + 1) with (Z.of_nat (S i)) by lia.
  rewrite (drop_S _ _ _ Ha), (drop_S _ _ _ Hb). cbn [same_terms].
  destruct (Z.eqb_spec (le_Term a) (le_Term b)); cbn [andb].
  - by rewrite IH by lia.
  - rewrite IH by lia. by destruct (same_terms _ _).
Qed.

Lemma appendLoop_spec n (i act j : nat) l new :
  i = (act + j)%nat -> (length new = j + n)%nat -> (act + length new <= length l)%nat ->
  appendLoop n (Z.of_nat i) (Z.of_nat act - 1) l new =
    Done (take i l ++ reconcile (drop i l) (drop j new)).
Proof.
  revert i j l; induction n as [|n IH]; intros i j l Hi Hn Hl; cbn [appendLoop].
  { rewrite (drop_ge new) by lia. by rewrite reconcile_nil_r, take_drop. }
  destruct (lookup_lt_is_Some_2 l i) as [a Ha]; [lia |].
  destruct (lookup_lt_is_Some_2 new j) as [b Hb]; [lia |].
  rewrite (go_index_nat _ _ _ Ha). replace (_ - _ - 1) with (Z.of_nat j) by lia.
  rewrite (go_index_nat _ _ _ Hb). cbn [mbind go_bind].
  replace (Z.of_nat i + 1) with (Z.of_nat (S i)) by lia.
  rewrite (drop_S _ _ _ Ha), (drop_S _ _ _ Hb). cbn [reconcile].
  destruct (Z.eqb_spec (le_Term a) (le_Term b)).
  - cbn. rewrite IH with (j := S j) by lia.
    rewrite (take_S_r _ _ _ Ha), <- app_assoc. done.
  - rewrite slice_from_Done, slice_to_Done by lia. rewrite !Nat2Z.id. cbn.
    assert (length (take i l) = i) as Hlen by (rewrite length_take; lia).
    rewrite IH with (j := S j); [| lia | lia | rewrite length_app, length_drop, Hlen; lia].
    rewrite drop_app_ge, take_app_ge by lia. rewrite Hlen.
    replace (S i - i)%nat with 1%nat by lia.
    rewrite drop_drop. replace (j + 1)%nat with (S j) by lia.
    rewrite reconcile_refl, (drop_S _ _ _ Hb). cbn. by rewrite <- app_assoc.
Qed.

(** The position [firstTermLoop] stops at: the first one with the term, given that
    there is one among those it may visit. *)
Lemma firstTermLoop_spec n (i k : nat) l t e :
  l !! k = Some e -> le_Term e = t -> (i <= k < i + n)%nat ->
  exists (s : nat) e', firstTermLoop n (Z.of_nat i) l t = Done (Z.of_nat s)
    /\ (i <= s <= k)%nat /\ l !! s = Some e' /\ le_Term e' = t
    /\ forall (m : nat) x, (i <= m < s)%nat -> l !! m = Some x -> le_Term x <> t.
Proof.
  intros Hk He. revert i; induction n as [|n IH]; intros i Hik; [lia |].
  cbn [firstTermLoop].
  destruct (lookup_lt_is_Some_2 l i) as [a Ha].
  { apply lookup_lt_Some in Hk. lia. }
  rewrite (go_index_nat _ _ _ Ha). cbn [mbind go_bind].
  destruct (Z.eqb_spec (le_Term a) t) as [Hat|Hat].
  { exists i, a. repeat split; try done; lia. }
  assert (i <> k) by (intros ->; congruence).
  replace (Z.of_nat i + 1) with (Z.of_nat (S i)) by lia.
  destruct (IH (S i)) as (s & e' & Hs & Hr & Hl & Ht & Hm); [lia |].
  exists s, e'. repeat split; try done; try lia.
  intros m x Hmr Hx. destruct (decide (m = i)) as [->|]; [congruence | apply (Hm m); [lia | done]].
Qed.

Lemma lastTermLoop_total n l t :
  (n <= length l)%nat ->
  exists r, lastTermLoop n l t = Done r
    /\ (r = -1 /\ (forall (m : nat) x, (m < n)%nat -> l !! m = Some x -> le_Term x <> t)
        \/ exists (k : nat) e, r = Z.of_nat k /\ (k < n)%nat /\ l !! k = Some e /\ le_Term e = t
           /\ forall (m : nat) x, (k < m < n)%nat -> l !! m = Some x -> le_Term x <> t).
Proof.
  induction n as [|n IH]; intros Hn; cbn [lastTermLoop].
  { exists (-1). split; [done |]. left. split; [done | lia]. }
  destruct (lookup_lt_is_Some_2 l n) as [a Ha]; [lia |].
  rewrite (go_index_nat _ _ _ Ha). cbn [mbind go_bind].
  destruct (Z.eqb_spec (le_Term a) t) as [Hat|Hat].
  { exists (Z.of_nat n). split; [done |]. right. exists n, a. repeat split; try done; lia. }
  destruct IH as (r & Hr & Hcase); [lia |]. exists r. split; [done |].
  destruct Hcase as [[-> Hno]|(k & e & -> & Hk & He & Ht & Hm)]; [left|right].
  - split; [done |]. intros m x Hm Hx. destruct (decide (m = n)) as [->|]; [congruence |].
    apply (Hno m); [lia | done].
  - exists k, e. repeat split; try done; [lia |]. intros m x Hmr Hx.
    destruct (decide (m = n)) as [->|]; [congruence | apply (Hm m); [lia | done]].
Qed.

Lemma collectMsgs_spec n (i : nat) l :
  (i + n <= length l)%nat ->
  collectMsgs n (Z.of_nat i) l = Done (commandMsg <$> take n (drop i l)).
Proof.
  revert i; induction n as [|n IH]; intros i Hi; cbn [collectMsgs].
  { by rewrite take_0. }
  destruct (lookup_lt_is_Some_2 l i) as [a Ha]; [lia |].
  rewrite (go_index_nat _ _ _ Ha). cbn [mbind go_bind].
  replace (Z.of_nat i + 1) with (Z.of_nat (S i)) by lia.
  rewrite IH by lia. cbn. by rewrite (drop_S _ _ _ Ha).
Qed.
End loops.
