(* ===== verification/RaftReplication.v ===== *)
(** What [followerHandleLog], [leaderHandleLog] and [followerUpdateCommitIndex] achieve:
    the follower implements the receiver rules of AppendEntries, a rejection makes the
    leader back up, and the panics of the source are unreachable on well-formed
    peers. *)
From S2P Require Import Prelude Persister RaftTypes RaftTools RaftPersist RaftLog RaftLogFacts.

Section follower.
Context {C : Type}.
Implicit Types (rf : Raft C) (args : AppendEntriesArgs C) (l : list (LogEntry C)).

(** ** The reference *)

(** Rules 2 to 4 of AppendEntries on a log whose entries up to [snapshotIndex] have
    been compacted (and are committed, so they match): success, and the new log. *)
Definition receiver_rules rf args : bool * list (LogEntry C) :=
  let s := snapshotIndex rf in
  let p := aea_PrevLogIndex args in
  if s + len (log rf) <? p then (false, log rf)
  else if p <=? s then
    (true, reconcile (log rf) (drop (Z.to_nat (s - p)) (aea_Entries args)))
  else
    match log rf !! Z.to_nat (p - s - 1) with
    | Some e =>
        if le_Term e =? aea_PrevLogTerm args
        then (true, take (Z.to_nat (p - s)) (log rf)
                      ++ reconcile (drop (Z.to_nat (p - s)) (log rf)) (aea_Entries args))
        else (false, take (Z.to_nat (p - s - 1)) (log rf))
    | None => (false, log rf)
    end.

(** Raft's log matching property, between a log and the entries of a request. *)
Definition matching l (entries : list (LogEntry C)) : Prop :=
  forall a b, a ∈ l -> b ∈ entries ->
    le_Index a = le_Index b -> le_Term a = le_Term b -> a = b.

(** A request a leader builds: consecutive entries right after [PrevLogIndex], and
    [PrevLogIndex = -1] only sent to peers without a snapshot. *)
Definition request_ok rf args : Prop :=
  -1 <= snapshotIndex rf /\ -1 <= aea_PrevLogIndex args
  /\ (aea_PrevLogIndex args = -1 -> snapshotIndex rf = -1)
  /\ consecutive (aea_PrevLogIndex args + 1) (aea_Entries args)
  /\ matching (log rf) (aea_Entries args).

Lemma matching_agree s l1 l2 l entries :
  consecutive s l1 -> consecutive s l2 -> l1 ⊆ l -> l2 ⊆ entries ->
  matching l entries -> agree l1 l2.
Proof.
  intros H1 H2 S1 S2 Hm i a b Ha Hb Ht. apply Hm; [..|done].
  - apply S1, list_elem_of_lookup. eauto.
  - apply S2, list_elem_of_lookup. eauto.
  - by rewrite (H1 _ _ Ha), (H2 _ _ Hb).
Qed.

(** The receiver rules keep the log consecutive. *)
Lemma receiver_rules_ok rf args :
  log_ok rf -> request_ok rf args ->
  consecutive (snapshotIndex rf + 1) (snd (receiver_rules rf args)).
Proof.
  intros Hok (Hs & Hp & Hp1 & Hcons & Hm). unfold receiver_rules.
  destruct (Z.ltb_spec (snapshotIndex rf + len (log rf)) (aea_PrevLogIndex args)); [exact Hok |].
  destruct (Z.leb_spec (aea_PrevLogIndex args) (snapshotIndex rf)).
  - cbn. apply consecutive_reconcile; [exact Hok |].
    set (k := Z.to_nat (snapshotIndex rf - aea_PrevLogIndex args)).
    destruct (decide (k <= length (aea_Entries args))%nat).
    + replace (snapshotIndex rf + 1) with (aea_PrevLogIndex args + 1 + Z.of_nat k) by lia.
      by apply consecutive_drop.
    + rewrite drop_ge by lia. apply consecutive_nil.
  - destruct (log rf !! _) as [e|] eqn:He; [|exact Hok]. apply lookup_lt_Some in He.
    destruct (_ =? _); cbn; [|by apply consecutive_take].
    apply consecutive_app. split; [by apply consecutive_take |].
    rewrite length_take, Nat.min_l by lia.
    apply consecutive_reconcile; [apply consecutive_drop; [lia | exact Hok] |].
    by replace (snapshotIndex rf + 1 + Z.of_nat (Z.to_nat (aea_PrevLogIndex args - snapshotIndex rf)))
      with (aea_PrevLogIndex args + 1) by lia.
Qed.

Lemma set_log_same rf : rf <| log := log rf |> = rf.
Proof. by destruct rf. Qed.

Lemma drop_sub (A : Type) n (l : list A) : drop n l ⊆ l.
Proof. apply subseteq_drop. Qed.

(** ** Case 1: the follower's log is too short *)
Lemma follower_short rf args reply :
  log_ok rf -> snapshotIndex rf + len (log rf) < aea_PrevLogIndex args ->
  followerHandleLog rf args reply =
    Done (rf, reply <| aer_XTerm := -1 |> <| aer_XIndex := snapshotIndex rf + len (log rf) + 1 |>
                    <| aer_XLen := len (log rf) |> <| aer_Success := false |>).
Proof.
  intros Hok Hp. unfold followerHandleLog. rewrite lastIndex_spec by done.
  destruct (Z.ltb_spec (snapshotIndex rf + len (log rf)) (aea_PrevLogIndex args)); [done | lia].
Qed.

(** ** Case 2: the previous entry lies in the follower's snapshot *)
Lemma follower_snapshot rf args reply :
  log_ok rf -> request_ok rf args -> -1 < aea_PrevLogIndex args <= snapshotIndex rf ->
  exists reply',
    followerHandleLog rf args reply =
      Done (rf <| log := reconcile (log rf)
              (drop (Z.to_nat (snapshotIndex rf - aea_PrevLogIndex args)) (aea_Entries args)) |>, reply')
    /\ aer_Success reply' = true /\ aer_Term reply' = aer_Term reply
    /\ aer_ServerId reply' = aer_ServerId reply.
Proof.
  intros Hok (Hs & Hp & _ & Hcons & Hm) Hrange. unfold followerHandleLog.
  rewrite lastIndex_spec by done.
  destruct (Z.ltb_spec (snapshotIndex rf + len (log rf)) (aea_PrevLogIndex args)); [lia |].
  rewrite findIndex_absent by (done || lia).
  destruct (Z.eqb_spec (aea_PrevLogIndex args) (-1)); [lia |]. cbn [Z.eqb negb andb].
  change (-1 =? -1) with true. cbn [andb].
  set (k := Z.to_nat (snapshotIndex rf - aea_PrevLogIndex args)).
  destruct (decide (k < length (aea_Entries args))%nat) as [Hk|Hk].
  - rewrite (scanIndex_found (aea_PrevLogIndex args + 1)) by (done || lia).
    replace (0 + (snapshotIndex rf + 1 - (aea_PrevLogIndex args + 1))) with (Z.of_nat k) by lia.
    cbn [negb]. rewrite slice_from_Done, Nat2Z.id by lia. cbn [mbind go_bind].
    assert (agree (log rf) (drop k (aea_Entries args))) as Hag.
    { eapply matching_agree; [exact Hok | | done | apply drop_sub | done].
      replace (snapshotIndex rf + 1) with (aea_PrevLogIndex args + 1 + Z.of_nat k) by lia.
      apply consecutive_drop; [lia | done]. }
    destruct (Z.leb_spec (len (log rf)) (len (drop k (aea_Entries args)))) as [Hl|Hl].
    + rewrite reconcile_shorter by (done || lia). cbn. eauto.
    + rewrite (replaceLoop_spec _ 0) by lia. rewrite !drop_0. cbn [mbind go_bind].
      rewrite (reconcile_agree _ _ Hag).
      replace (length (drop k (aea_Entries args)) <=? length (log rf))%nat with true
        by (symmetry; apply Nat.leb_le; lia).
      rewrite !andb_true_r. eexists. by split.
  - destruct (scanIndex 0 (aea_Entries args) (snapshotIndex rf + 1)) as [j found] eqn:E.
    assert (found = false) as ->.
    { change found with (snd (j, found)). rewrite <- E.
      eapply scanIndex_absent; [exact Hcons | lia]. }
    cbn [negb]. rewrite drop_ge by lia. rewrite reconcile_nil_r, set_log_same. cbn. eauto.
Qed.

(** ** Case 3: the previous entry is in the log and conflicts *)
Lemma follower_conflict rf args reply e :
  log_ok rf -> snapshotIndex rf < aea_PrevLogIndex args -> -1 <= snapshotIndex rf ->
  log rf !! Z.to_nat (aea_PrevLogIndex args - snapshotIndex rf - 1) = Some e ->
  le_Term e <> aea_PrevLogTerm args ->
  exists reply' (s : nat) e',
    followerHandleLog rf args reply =
      Done (rf <| log := take (Z.to_nat (aea_PrevLogIndex args - snapshotIndex rf - 1)) (log rf) |>, reply')
    /\ aer_Success reply' = false /\ aer_Term reply' = aer_Term reply
    /\ aer_ServerId reply' = aer_ServerId reply
    /\ aer_XTerm reply' = le_Term e /\ aer_XIndex reply' = le_Index e'
    /\ log rf !! s = Some e' /\ le_Term e' = le_Term e /\ le_Index e' <= aea_PrevLogIndex args
    /\ snapshotIndex rf < le_Index e'.
Proof.
  intros Hok Hlo Hs He Hterm. unfold followerHandleLog.
  pose proof (lookup_lt_Some _ _ _ He) as Hlt.
  rewrite lastIndex_spec by done.
  destruct (Z.ltb_spec (snapshotIndex rf + len (log rf)) (aea_PrevLogIndex args)); [lia |].
  rewrite findIndex_found by (done || lia).
  destruct (Z.eqb_spec (aea_PrevLogIndex args - snapshotIndex rf - 1) (-1)); [lia |].
  cbn [andb].
  destruct (Z.eqb_spec (aea_PrevLogIndex args) (-1)); [lia |].
  set (k := aea_PrevLogIndex args - snapshotIndex rf - 1) in *.
  rewrite (go_index_lookup (log rf) k e ltac:(lia) He). cbn [mbind go_bind mret go_ret].
  destruct (Z.eqb_spec (le_Term e) (aea_PrevLogTerm args)); [done |].
  destruct (firstTermLoop_spec (Z.to_nat (k + 1)) 0 (Z.to_nat k) (log rf) (le_Term e) e)
    as (s & e' & Hf & Hsk & Hse & Het & _); [done | done | lia |].
  change (Z.of_nat 0) with 0 in Hf. rewrite Hf. cbn [mbind go_bind].
  rewrite (go_index_nat _ _ _ Hse). cbn [mbind go_bind].
  rewrite slice_to_Done by lia. cbn [mbind go_bind mret go_ret].
  pose proof (Hok _ _ Hse).
  eexists _, s, e'. split; [reflexivity |]. cbn. repeat split; try done; lia.
Qed.

(** ** Case 4: the previous entry matches *)
Lemma follower_match rf args reply :
  log_ok rf -> request_ok rf args ->
  (aea_PrevLogIndex args = -1 \/
   exists e, log rf !! Z.to_nat (aea_PrevLogIndex args - snapshotIndex rf - 1) = Some e
     /\ le_Term e = aea_PrevLogTerm args /\ snapshotIndex rf < aea_PrevLogIndex args) ->
  let n := Z.to_nat (aea_PrevLogIndex args - snapshotIndex rf) in
  exists reply',
    followerHandleLog rf args reply =
      Done (rf <| log := take n (log rf) ++ reconcile (drop n (log rf)) (aea_Entries args) |>, reply')
    /\ aer_Success reply' = true /\ aer_Term reply' = aer_Term reply
    /\ aer_ServerId reply' = aer_ServerId reply.
Proof.
  intros Hok (Hs & Hp & Hp1 & Hcons & Hm) Hcase n. unfold followerHandleLog.
  rewrite lastIndex_spec by done.
  assert (aea_PrevLogIndex args <= snapshotIndex rf + len (log rf)) as Hle.
  { destruct Hcase as [->|(e & He & _)]; [lia |]. apply lookup_lt_Some in He. lia. }
  destruct (Z.ltb_spec (snapshotIndex rf + len (log rf)) (aea_PrevLogIndex args)); [lia |].
  assert (snapshotIndex rf <= aea_PrevLogIndex args) as Hge.
  { destruct Hcase as [Hc|(x & _ & _ & Hlt)]; lia. }
  assert (findIndex rf (aea_PrevLogIndex args) = Z.of_nat n - 1) as Hfi.
  { destruct Hcase as [Hc|(e & He & _ & Hlt)].
    - rewrite findIndex_absent by (done || lia). lia.
    - rewrite findIndex_found by (done || lia). lia. }
  rewrite Hfi.
  assert ((Z.of_nat n - 1 =? -1) && negb (aea_PrevLogIndex args =? -1) = false) as ->.
  { destruct (Z.eqb_spec (Z.of_nat n - 1) (-1)), (Z.eqb_spec (aea_PrevLogIndex args) (-1));
      cbn; try done. destruct Hcase as [Hc|(x & Hx & _ & Hlt)]; lia. }
  assert ((if aea_PrevLogIndex args =? -1 then mret None else
      a ← go_index (log rf) (Z.of_nat n - 1);
      mret (if le_Term a =? aea_PrevLogTerm args then None else Some (le_Term a))) = Done None) as ->.
  { destruct (Z.eqb_spec (aea_PrevLogIndex args) (-1)); [done |].
    destruct Hcase as [Hc|(e & He & Ht & Hlt)]; [lia |].
    rewrite (go_index_lookup _ _ e) by
      (try lia; by replace (Z.to_nat (Z.of_nat n - 1))
         with (Z.to_nat (aea_PrevLogIndex args - snapshotIndex rf - 1)) by lia).
    cbn. rewrite Ht, Z.eqb_refl. done. }
  cbn [mbind go_bind].
  assert (agree (drop n (log rf)) (aea_Entries args)) as Hag.
  { eapply matching_agree; [apply consecutive_drop; [lia | exact Hok] | | apply drop_sub | done | done].
    by replace (snapshotIndex rf + 1 + Z.of_nat n) with (aea_PrevLogIndex args + 1) by lia. }
  destruct (Z.leb_spec (len (log rf) - 1 - (Z.of_nat n - 1)) (len (aea_Entries args))).
  - rewrite slice_to_Done by lia. cbn [mbind go_bind mret go_ret].
    replace (Z.to_nat (Z.of_nat n - 1 + 1)) with n by lia.
    rewrite reconcile_shorter by (done || rewrite length_drop; lia). eauto.
  - replace (Z.of_nat n - 1 + 1) with (Z.of_nat n) by lia.
    rewrite appendLoop_spec with (j := 0%nat) by lia. rewrite drop_0. cbn. eauto.
Qed.
End follower.

(** ** Commitment *)

Section commit.
Context {C : Type} `{GobCodec C}.
Implicit Types (rf : Raft C).

Definition lastIndex rf : Z := snapshotIndex rf + len (log rf).

(** The commit index lies between the snapshot and the end of the log. *)
Definition commit_ok rf : Prop :=
  -1 <= snapshotIndex rf <= commitIndex rf /\ commitIndex rf <= lastIndex rf.

(** The entries with indexes [lo + 1] to [hi]. *)
Definition entries_between rf (lo hi : Z) : list (LogEntry C) :=
  take (Z.to_nat (hi - lo)) (drop (Z.to_nat (lo - snapshotIndex rf)) (log rf)).

Lemma sendCommitted_spec rf prev cur :
  log_ok rf -> -1 <= snapshotIndex rf <= prev -> prev <= cur <= lastIndex rf ->
  sendCommittedLogChannel rf prev cur =
    Done (spawnPut rf (commandMsg <$> entries_between rf prev cur)).
Proof.
  unfold lastIndex. intros Hok Hs Hc. unfold sendCommittedLogChannel.
  assert ((if (prev =? -1) || (prev =? snapshotIndex rf) then (-1, true)
           else scanIndex 0 (log rf) prev) = (prev - snapshotIndex rf - 1, true)) as ->.
  { destruct (Z.eqb_spec prev (-1)), (Z.eqb_spec prev (snapshotIndex rf)); cbn.
    1-3: f_equal; lia.
    rewrite (scanIndex_found _ _ _ _ Hok) by lia. f_equal. lia. }
  cbn [negb].
  replace (prev - snapshotIndex rf - 1 + 1) with (Z.of_nat (Z.to_nat (prev - snapshotIndex rf))) by lia.
  rewrite collectMsgs_spec by lia. done.
Qed.

Lemma entries_between_indexes rf lo hi :
  log_ok rf -> -1 <= snapshotIndex rf <= lo -> lo <= hi <= lastIndex rf ->
  le_Index <$> entries_between rf lo hi = seqZ (lo + 1) (hi - lo).
Proof.
  unfold lastIndex. intros Hok Hs Hc. apply list_eq. intros i.
  rewrite list_lookup_fmap. unfold entries_between.
  destruct (decide (i < Z.to_nat (hi - lo))%nat) as [Hi|Hi].
  - rewrite lookup_take_lt, lookup_drop by done.
    destruct (lookup_lt_is_Some_2 (log rf) (Z.to_nat (lo - snapshotIndex rf) + i)) as [e He]; [lia |].
    rewrite He. cbn. rewrite (Hok _ _ He). symmetry. apply lookup_seqZ. lia.
  - rewrite lookup_take_ge by lia. cbn. symmetry. apply lookup_seqZ_ge. lia.
Qed.

Lemma followerUpdate_spec rf leaderCommit :
  log_ok rf -> commit_ok rf ->
  let c := Z.max (commitIndex rf) (Z.min leaderCommit (lastIndex rf)) in
  followerUpdateCommitIndex rf leaderCommit =
    Done (if leaderCommit <=? commitIndex rf then rf else
            spawnPut (rf <| commitIndex := c |> <| lastApplied := c |>)
              (commandMsg <$> entries_between rf (commitIndex rf) c)).
Proof.
  intros Hok [Hs Hc] c. unfold followerUpdateCommitIndex. rewrite lastIndex_spec by done.
  fold (lastIndex rf).
  destruct (Z.leb_spec leaderCommit (commitIndex rf)); [done |].
  assert ((if lastIndex rf <? leaderCommit then lastIndex rf else leaderCommit) = c) as ->.
  { subst c. destruct (Z.ltb_spec (lastIndex rf) leaderCommit); lia. }
  rewrite sendCommitted_spec; [done | exact Hok | exact Hs |]. subst c.
  change (lastIndex (_ <| lastApplied := _ |>)) with (lastIndex rf). cbn. lia.
Qed.

(** ** The majority rule *)

(** How many peers are known to hold the entry with index [v]. *)
Definition matched_by (mi : list Z) (v : Z) : nat := length (filter (fun x => v <= x) mi).

Lemma sortInts_perm l : sortInts l ≡ₚ l.
Proof. apply merge_sort_Permutation. Qed.

Lemma sortInts_sorted l : StronglySorted Z.le (sortInts l).
Proof. apply (StronglySorted_merge_sort Z.le). Qed.

Lemma matched_by_perm l1 l2 v : l1 ≡ₚ l2 -> matched_by l1 v = matched_by l2 v.
Proof. intros Hp. unfold matched_by. by rewrite Hp. Qed.

Lemma matched_by_all l v : (forall x, x ∈ l -> v <= x) -> matched_by l v = length l.
Proof.
  unfold matched_by. induction l as [|x l IH]; intros Hall; [done |].
  rewrite filter_cons_True by (apply Hall; by left). cbn. rewrite IH; [done |].
  intros y Hy. apply Hall. by right.
Qed.

Lemma matched_by_none l v : (forall x, x ∈ l -> x < v) -> matched_by l v = 0%nat.
Proof.
  unfold matched_by. induction l as [|x l IH]; intros Hall; [done |].
  rewrite filter_cons_False by (specialize (Hall x ltac:(by left)); lia). apply IH.
  intros y Hy. apply Hall. by right.
Qed.

Lemma matched_by_app l1 l2 v : matched_by (l1 ++ l2) v = (matched_by l1 v + matched_by l2 v)%nat.
Proof. unfold matched_by. by rewrite filter_app, length_app. Qed.

(** In a sorted list, position [k] splits the elements around its value. *)
Lemma sorted_position l (k : nat) m :
  StronglySorted Z.le l -> l !! k = Some m ->
  (length l - k <= matched_by l m)%nat
  /\ forall v, m < v -> (matched_by l v <= length l - S k)%nat.
Proof.
  intros Hs Hk. pose proof (take_drop_middle _ _ _ Hk) as Heq.
  pose proof (lookup_lt_Some _ _ _ Hk) as Hlt.
  rewrite <- Heq in Hs. split.
  - rewrite <- Heq at 2. rewrite matched_by_app.
    rewrite (matched_by_all (m :: drop (S k) l)).
    { cbn. rewrite length_drop. lia. }
    intros x [->|Hx]%elem_of_cons; [lia |].
    apply StronglySorted_app_1_r in Hs. inversion Hs as [|? ? _ Hall]; subst.
    by apply (proj1 (Forall_forall _ _) Hall).
  - intros v Hv. rewrite <- Heq at 1. rewrite matched_by_app.
    rewrite (matched_by_none (take k l)).
    { unfold matched_by. rewrite filter_cons_False by lia.
      etransitivity; [apply length_filter |]. rewrite length_drop. lia. }
    intros x Hx. enough (x <= m) by lia.
    by eapply StronglySorted_app_1_elem_of; [exact Hs | exact Hx | left].
Qed.

Lemma majorityMatch_spec rf :
  length (matchIndex rf) = peers rf -> (0 < peers rf)%nat ->
  exists m, majorityMatch rf = Done m /\ m ∈ matchIndex rf
    /\ (peers rf / 2 + 1 <= matched_by (matchIndex rf) m)%nat
    /\ forall v, (peers rf / 2 + 1 <= matched_by (matchIndex rf) v)%nat -> v <= m.
Proof.
  intros Hlen Hpos. unfold majorityMatch.
  set (k := ((peers rf + 1) / 2 - 1)%nat).
  assert (Z.quot (Z.of_nat (peers rf) + 1) 2 - 1 = Z.of_nat k) as ->.
  { subst k. div_lia. }
  pose proof (sortInts_perm (matchIndex rf)) as Hp.
  assert (length (sortInts (matchIndex rf)) = peers rf) as Hl by (by rewrite Hp).
  assert (k < peers rf)%nat as Hk.
  { subst k. div_lia. }
  destruct (lookup_lt_is_Some_2 (sortInts (matchIndex rf)) k) as [m Hm]; [lia |].
  destruct (sorted_position _ _ _ (sortInts_sorted _) Hm) as [H1 H2].
  exists m. split; [by apply go_index_nat |].
  assert (peers rf - k = peers rf / 2 + 1)%nat as Hcount.
  { subst k. div_lia. }
  rewrite <- !(matched_by_perm _ _ m Hp). split; [|split].
  - rewrite <- Hp. apply list_elem_of_lookup. eauto.
  - lia.
  - intros v Hv. rewrite <- (matched_by_perm _ _ v Hp) in Hv.
    destruct (decide (v <= m)) as [|Hgt]; [done |]. specialize (H2 v ltac:(lia)). lia.
Qed.
End commit.

(** ** The properties of the component *)

Section theorems.
Context {C : Type} `{GobCodec C}.
Implicit Types (rf : Raft C) (args : AppendEntriesArgs C).

(** The three cases together. *)
Lemma follower_refines rf args reply :
  log_ok rf -> request_ok rf args ->
  exists reply',
    followerHandleLog rf args reply = Done (rf <| log := snd (receiver_rules rf args) |>, reply')
    /\ aer_Success reply' = fst (receiver_rules rf args)
    /\ aer_Term reply' = aer_Term reply /\ aer_ServerId reply' = aer_ServerId reply.
Proof.
  intros Hok Hreq. pose proof Hreq as (Hs & Hp & Hp1 & Hcons & Hm). unfold receiver_rules.
  destruct (Z.ltb_spec (snapshotIndex rf + len (log rf)) (aea_PrevLogIndex args)).
  { rewrite follower_short by done. eexists. cbn [fst snd]. by rewrite set_log_same. }
  destruct (Z.leb_spec (aea_PrevLogIndex args) (snapshotIndex rf)).
  { destruct (decide (aea_PrevLogIndex args = -1)) as [Heq|Hne].
    - destruct (follower_match rf args reply Hok Hreq (or_introl Heq)) as (r & Hr & ?).
      exists r. replace (Z.to_nat (snapshotIndex rf - aea_PrevLogIndex args)) with 0%nat by lia.
      replace (Z.to_nat (aea_PrevLogIndex args - snapshotIndex rf)) with 0%nat in Hr by lia. done.
    - apply follower_snapshot; [done | done | lia]. }
  destruct (lookup_lt_is_Some_2 (log rf) (Z.to_nat (aea_PrevLogIndex args - snapshotIndex rf - 1)))
    as [e He]; [lia |].
  rewrite He. destruct (Z.eqb_spec (le_Term e) (aea_PrevLogTerm args)).
  - apply (follower_match rf args reply Hok Hreq). right. exists e. done.
  - destruct (follower_conflict rf args reply e) as (r & s & e' & Hr & ? & ? & ? & _); try done.
    exists r. done.
Qed.

(** C7: on a well-formed follower and a well-formed request, [followerHandleLog]
    returns without panicking, changes nothing but the log, and its answer and the new
    log are those of the receiver rules of AppendEntries. *)
Theorem followerHandleLog_refines rf args reply :
  log_ok rf -> request_ok rf args ->
  exists reply',
    followerHandleLog rf args reply = Done (rf <| log := snd (receiver_rules rf args) |>, reply')
    /\ aer_Success reply' = fst (receiver_rules rf args)
    /\ aer_Term reply' = aer_Term reply /\ aer_ServerId reply' = aer_ServerId reply.
Proof. apply follower_refines. Qed.

(** A rejection sends the leader back: the hint [XIndex] is at most
    [PrevLogIndex] and above the follower's snapshot, and when [XTerm] is given it is
    a term that conflicts with [PrevLogTerm] and the term of the entry at [XIndex]. *)
Theorem followerHandleLog_reject_hint rf args reply rf' reply' :
  log_ok rf -> request_ok rf args ->
  followerHandleLog rf args reply = Done (rf', reply') -> aer_Success reply' = false ->
  snapshotIndex rf < aer_XIndex reply' <= aea_PrevLogIndex args
  /\ (aer_XTerm reply' = -1 \/
      (aer_XTerm reply' <> aea_PrevLogTerm args /\
       exists e, e ∈ log rf /\ le_Index e = aer_XIndex reply' /\ le_Term e = aer_XTerm reply')).
Proof.
  intros Hok Hreq Hrun Hfail. pose proof Hreq as (Hs & Hp & Hp1 & Hcons & Hm).
  destruct (decide (snapshotIndex rf + len (log rf) < aea_PrevLogIndex args)).
  { rewrite follower_short in Hrun by done. simplify_eq. cbn in *. split; [lia | by left]. }
  destruct (follower_refines rf args reply Hok Hreq) as (r & Hr & Hsucc & _).
  rewrite Hr in Hrun. simplify_eq. rewrite Hfail in Hsucc. unfold receiver_rules in Hsucc.
  destruct (Z.ltb_spec (snapshotIndex rf + len (log rf)) (aea_PrevLogIndex args)); [lia |].
  destruct (Z.leb_spec (aea_PrevLogIndex args) (snapshotIndex rf)); [done |].
  destruct (lookup_lt_is_Some_2 (log rf) (Z.to_nat (aea_PrevLogIndex args - snapshotIndex rf - 1)))
    as [e He]; [lia |].
  rewrite He in Hsucc. destruct (Z.eqb_spec (le_Term e) (aea_PrevLogTerm args)); [done |].
  destruct (follower_conflict rf args reply e)
    as (r' & s & e' & Hr' & _ & _ & _ & Hxt & Hxi & Hlook & Het & Hle & Hgt); try done.
  rewrite Hr' in Hr. simplify_eq. rewrite Hxi, Hxt. split; [lia | right].
  split; [done |]. exists e'. repeat split; try done. apply list_elem_of_lookup. eauto.
Qed.

(** An AppendEntries request from the very beginning
    ([PrevLogIndex = -1]) that reaches a peer with a snapshot, and is at least as long
    as the peer's log, replaces the log by its entries, which the snapshot covers; the
    log then no longer follows the snapshot, though the answer is success. *)
Theorem followerHandleLog_covered rf args reply e entries :
  0 <= snapshotIndex rf -> log_ok rf -> aea_PrevLogIndex args = -1 ->
  aea_Entries args = e :: entries -> le_Index e = 0 -> len (log rf) <= len (e :: entries) ->
  exists rf' reply', followerHandleLog rf args reply = Done (rf', reply')
    /\ aer_Success reply' = true /\ log rf' = e :: entries
    /\ snapshotIndex rf' = snapshotIndex rf /\ ~ log_ok rf'.
Proof.
  intros Hs Hok Hp He Hi Hlen. unfold followerHandleLog. rewrite Hp, He.
  destruct (Z.ltb_spec (fst (getLastLogIndexAndTerm rf)) (-1)) as [Hlt|_].
  { rewrite lastIndex_spec in Hlt by done. lia. }
  rewrite findIndex_absent by (done || lia). cbn [negb andb mbind go_bind].
  change (-1 =? -1) with true. cbn [negb andb]. go_simpl.
  destruct (Z.leb_spec (len (log rf) - 1 - -1) (len (e :: entries))) as [_|]; [|lia].
  rewrite slice_to_Done by lia. change (Z.to_nat (-1 + 1)) with 0%nat. rewrite take_0. go_simpl.
  eexists _, _. split; [reflexivity |]. split; [done |]. split; [done |]. split; [done |].
  intros Hbad. specialize (Hbad 0%nat e eq_refl). cbn in Hbad. lia.
Qed.

(** When the log matches, the leader records that the follower holds everything
    it sent: [nextIndex] moves past the entries and [matchIndex] is the last of them. *)
Theorem leaderHandleLog_success rf args reply :
  0 <= aer_ServerId reply < len (nextIndex rf) -> length (matchIndex rf) = length (nextIndex rf) ->
  go_index (nextIndex rf) (aer_ServerId reply) = Done (aea_PrevLogIndex args + 1) ->
  aer_Success reply = true ->
  let s := Z.to_nat (aer_ServerId reply) in
  let n := aea_PrevLogIndex args + len (aea_Entries args) in
  leaderHandleLog rf args reply =
    Done (rf <| nextIndex := <[s := n + 1]> (nextIndex rf) |>
             <| matchIndex := <[s := n]> (matchIndex rf) |>).
Proof.
  intros Hid Hlen Hnext Hok s n. unfold leaderHandleLog. rewrite Hnext. cbn [mbind go_bind].
  destruct (Z.eqb_spec (aea_PrevLogIndex args) (aea_PrevLogIndex args + 1 - 1)); [|lia].
  rewrite Hok. cbn [negb andb].
  rewrite go_update_Done by lia. cbn [mbind go_bind].
  rewrite go_update_Done by lia. cbn [mbind go_bind mret go_ret].
  by replace (aea_PrevLogIndex args + len (aea_Entries args) + 1 - 1) with n by lia.
Qed.

(** Terms never decrease along a log. *)
Definition terms_sorted (l : list (LogEntry C)) : Prop :=
  forall (i j : nat) a b, (i <= j)%nat -> l !! i = Some a -> l !! j = Some b -> le_Term a <= le_Term b.

(** A rejected request strictly lowers [nextIndex] of that follower and leaves
    the leader's other bookkeeping alone, given a rejection as [followerHandleLog]
    forms it whose conflicting term is older than the leader's term at
    [PrevLogIndex]. *)
Theorem leaderHandleLog_backs_up rf args reply e :
  log_ok rf -> terms_sorted (log rf) ->
  0 <= aer_ServerId reply < len (nextIndex rf) ->
  go_index (nextIndex rf) (aer_ServerId reply) = Done (aea_PrevLogIndex args + 1) ->
  aer_Success reply = false -> aer_XIndex reply <= aea_PrevLogIndex args ->
  e ∈ log rf -> le_Index e = aea_PrevLogIndex args -> aer_XTerm reply < le_Term e ->
  exists next',
    next' <= aea_PrevLogIndex args
    /\ leaderHandleLog rf args reply =
         Done (rf <| nextIndex := <[Z.to_nat (aer_ServerId reply) := next']> (nextIndex rf) |>).
Proof.
  intros Hok Hsorted Hid Hnext Hfail Hx (i & Hi)%list_elem_of_lookup Hidx Hterm.
  unfold leaderHandleLog. rewrite Hnext. cbn [mbind go_bind].
  destruct (Z.eqb_spec (aea_PrevLogIndex args) (aea_PrevLogIndex args + 1 - 1)); [|lia].
  rewrite Hfail. cbn [negb andb].
  rewrite !go_update_Done by lia. cbn [mbind go_bind mret go_ret].
  destruct (Z.eqb_spec (aer_XTerm reply) (-1)).
  { exists (aer_XIndex reply). done. }
  destruct (lastTermLoop_total (length (log rf)) (log rf) (aer_XTerm reply))
    as (r & -> & [[-> _]|(k & x & -> & Hk & Hxk & Hxt & _)]); [done | |]; cbn [mbind go_bind].
  { change (-1 =? -1) with true. cbn [negb]. exists (aer_XIndex reply). done. }
  destruct (Z.eqb_spec (Z.of_nat k) (-1)); [lia |]. cbn [negb].
  rewrite (go_index_nat _ _ _ Hxk). cbn [mbind go_bind].
  rewrite go_update_Done by lia. cbn [mbind go_bind mret go_ret].
  exists (le_Index x + 1). split; [|done].
  assert (k < i)%nat.
  { destruct (decide (k < i)%nat) as [|Hge]; [done |].
    specialize (Hsorted i k e x ltac:(lia) Hi Hxk). lia. }
  rewrite (Hok _ _ Hxk). rewrite (Hok _ _ Hi) in Hidx. lia.
Qed.

(** A follower's commit index becomes the smaller of the leader's and its own
    last index, never moves back, and the newly committed entries are handed over in
    one batch, in index order and each exactly once. *)
Theorem followerUpdateCommitIndex_spec rf leaderCommit :
  log_ok rf -> commit_ok rf ->
  exists rf', followerUpdateCommitIndex rf leaderCommit = Done rf'
    /\ commitIndex rf' = Z.max (commitIndex rf) (Z.min leaderCommit (lastIndex rf))
    /\ commit_ok rf' /\ log rf' = log rf
    /\ (commitIndex rf < leaderCommit ->
        exists msgs, pendingPuts rf' = pendingPuts rf ++ [msgs]
          /\ CommandIndex <$> msgs = seqZ (commitIndex rf + 2) (commitIndex rf' - commitIndex rf)
          /\ msgs = commandMsg <$> entries_between rf (commitIndex rf) (commitIndex rf')).
Proof.
  intros Hok Hc. rewrite followerUpdate_spec by done. eexists. split; [reflexivity |].
  pose proof Hc as [? ?].
  destruct (Z.leb_spec leaderCommit (commitIndex rf)) as [Hle|Hlt].
  - repeat split; try done; lia.
  - cbn. unfold commit_ok, lastIndex in *. cbn. repeat split; try done; try lia.
    intros _. eexists. split; [reflexivity |]. split; [|done].
    rewrite <- list_fmap_compose.
    transitivity ((Z.add 1) <$> (le_Index <$> entries_between rf (commitIndex rf)
      (commitIndex rf `max` (leaderCommit `min` (snapshotIndex rf + len (log rf)))))).
    { rewrite <- list_fmap_compose. apply list_fmap_ext. intros _ x _. cbn. lia. }
    rewrite entries_between_indexes by (unfold lastIndex; done || lia).
    rewrite fmap_add_seqZ. f_equal. lia.
Qed.

(** What [leaderUpdateCommitIndex] does for the majority index [m]. *)
Definition advance rf (m : Z) : Raft C :=
  match (if commitIndex rf <? m then log rf !! Z.to_nat (m - snapshotIndex rf - 1) else None) with
  | Some e =>
      if le_Term e =? currentTerm rf
      then spawnPut (rf <| commitIndex := m |> <| lastApplied := m |>)
             (commandMsg <$> entries_between rf (commitIndex rf) m)
      else rf
  | None => rf
  end.

Lemma leaderUpdate_eval rf m :
  log_ok rf -> commit_ok rf -> majorityMatch rf = Done m -> m <= lastIndex rf ->
  leaderUpdateCommitIndex rf = Done (persist (advance rf m)).
Proof.
  intros Hok [Hc1 Hc2] Hm Hle. unfold leaderUpdateCommitIndex, advance. rewrite Hm.
  unfold lastIndex in *.
  destruct ((len (log rf) =? 0) && (snapshotIndex rf =? -1)) eqn:Hempty.
  { apply andb_true_iff in Hempty as [Hl%Z.eqb_eq Hs%Z.eqb_eq].
    destruct (Z.ltb_spec (commitIndex rf) m); [lia | done]. }
  cbn [mbind go_bind]. destruct (Z.eqb_spec m (-1)).
  { destruct (Z.ltb_spec (commitIndex rf) m); [lia | done]. }
  destruct (Z.ltb_spec (commitIndex rf) m); cbn [negb]; [|done].
  destruct (log_lookup_index rf m Hok) as (e & He & Hl & Hi); [lia |].
  rewrite findIndex_found, He, Hl by (done || lia). cbn [mbind go_bind].
  destruct (le_Term e =? currentTerm rf); [|done].
  rewrite sendCommitted_spec; [done | exact Hok | cbn; lia | unfold lastIndex; cbn; lia].
Qed.

Lemma advance_cases rf m :
  log_ok rf -> commit_ok rf -> m <= lastIndex rf ->
  advance rf m = rf /\ (m <= commitIndex rf \/
      forall e, e ∈ log rf -> le_Index e = m -> le_Term e <> currentTerm rf)
  \/ commitIndex rf < m
     /\ (exists e, e ∈ log rf /\ le_Index e = m /\ le_Term e = currentTerm rf)
     /\ advance rf m = spawnPut (rf <| commitIndex := m |> <| lastApplied := m |>)
             (commandMsg <$> entries_between rf (commitIndex rf) m).
Proof.
  intros Hok [Hc1 Hc2] Hle. unfold advance, lastIndex in *.
  destruct (Z.ltb_spec (commitIndex rf) m) as [Hlt|Hge]; [|left; split; [done | by left]].
  destruct (log_lookup_index rf m Hok) as (e & He & Hl & Hi); [lia |]. rewrite Hl.
  destruct (Z.eqb_spec (le_Term e) (currentTerm rf)) as [Ht|Ht].
  - right. split; [done |]. split; [|done]. exists e. repeat split; try done.
    apply list_elem_of_lookup. eauto.
  - left. split; [done |]. right. intros x (i & Hx)%list_elem_of_lookup Hxi.
    rewrite (Hok _ _ Hx) in Hxi. replace (Z.to_nat (m - snapshotIndex rf - 1)) with i in Hl by lia.
    congruence.
Qed.

(** C8: the leader commits by majority.  With its match table in range the update
    returns; the commit index never moves back; if it moves, the new one is held by a
    strict majority, its entry is of the current term and exactly the entries in
    between are handed over; and the largest index held by a majority is committed
    whenever its entry is of the current term. *)
Theorem leaderUpdateCommitIndex_spec rf :
  log_ok rf -> commit_ok rf -> length (matchIndex rf) = peers rf -> (0 < peers rf)%nat ->
  (forall x, x ∈ matchIndex rf -> x <= lastIndex rf) ->
  exists rf', leaderUpdateCommitIndex rf = Done rf'
    /\ commit_ok rf' /\ log rf' = log rf /\ persisted rf'
    /\ (commitIndex rf' = commitIndex rf /\ pendingPuts rf' = pendingPuts rf
        \/ commitIndex rf < commitIndex rf'
           /\ (peers rf / 2 + 1 <= matched_by (matchIndex rf) (commitIndex rf'))%nat
           /\ (exists e, e ∈ log rf /\ le_Index e = commitIndex rf' /\ le_Term e = currentTerm rf)
           /\ pendingPuts rf' = pendingPuts rf ++
                [commandMsg <$> entries_between rf (commitIndex rf) (commitIndex rf')])
    /\ (forall e, (peers rf / 2 + 1 <= matched_by (matchIndex rf) (le_Index e))%nat ->
         (forall v, (peers rf / 2 + 1 <= matched_by (matchIndex rf) v)%nat -> v <= le_Index e) ->
         commitIndex rf < le_Index e -> e ∈ log rf -> le_Term e = currentTerm rf ->
         commitIndex rf' = le_Index e).
Proof.
  intros Hok Hc Hlen Hpos Hbound.
  destruct (majorityMatch_spec rf Hlen Hpos) as (m & Hm & Hin & Hmaj & Hmax).
  exists (persist (advance rf m)). split; [apply leaderUpdate_eval; auto |].
  assert (forall e : LogEntry C, (peers rf / 2 + 1 <= matched_by (matchIndex rf) (le_Index e))%nat ->
    (forall v, (peers rf / 2 + 1 <= matched_by (matchIndex rf) v)%nat -> v <= le_Index e) ->
    le_Index e = m) as Hunique.
  { intros e He Hemax. specialize (Hmax _ He). specialize (Hemax _ Hmaj). lia. }
  destruct (advance_cases rf m Hok Hc (Hbound m Hin)) as [[-> Hno]|(Hlt & Hex & ->)].
  - split; [exact Hc |]. split; [done |]. split; [apply persist_persisted |].
    split; [by left |]. intros e He Hemax Hgt Hel Ht. pose proof (Hunique e He Hemax) as Heq.
    destruct Hno as [?|Hno]; [lia |]. by destruct (Hno e Hel Heq).
  - split.
    { destruct Hc. specialize (Hbound m Hin). unfold persist, commit_ok, lastIndex in *. cbn. lia. }
    split; [done |]. split; [apply persist_persisted |]. split; [by right |].
    intros e He Hemax _ _ _. by rewrite (Hunique e He Hemax).
Qed.
End theorems.
