(* ===== verification/RaftElection.v ===== *)
(** Roles and elections: [src/raft/serverStateTrans.go] and
    [src/raft/requestVoteRPC.go].

    Wall-clock readings and random numbers are arguments ([now] for
    [time.Now().UnixMilli()], [rnd] for [rand.Intn(100)]).  A handler that holds the
    mutex for its whole body is one function; where the code unlocks before it calls
    the next function, the call is a flag in the result and the caller runs it as a
    later step. *)
From S2P Require Import Prelude Persister RaftTypes RaftTools RaftPersist.

Section election.
Context {C : Type} `{GobCodec C}.
Implicit Types (rf : Raft C).

Definition Kill rf : Raft C := rf <| dead := 1 |>.
Definition killed rf : bool := dead rf =? 1.

Definition toFollower (term : Z) rf : Raft C :=
  let prevTerm := currentTerm rf in
  let rf := rf <| role := Follower |> in
  if prevTerm <? term then rf <| votedFor := -1 |> <| currentTerm := term |> else rf.

(** The other servers, in the order of the loop over [rf.peers]. *)
Definition others rf : list Z :=
  filter (fun i => i <> me rf) (Z.of_nat <$> seq 0 (peers rf)).

(** The state after the critical section, and the requests the goroutines send. *)
Definition toCandidate (now rnd : Z) rf : Raft C * list (Z * RequestVoteArgs) :=
  let rf := rf <| role := Candidate |> <| currentTerm := currentTerm rf + 1 |>
               <| votedFor := me rf |> <| voteCnt := 1 |>
               <| electionTimeout := 200 + rnd |> <| lastHeartbeatTime := now |> in
  let '(lastLogIndex, lastLogTerm) := getLastLogIndexAndTerm rf in
  let args := mkRequestVoteArgs (currentTerm rf) (me rf) lastLogIndex lastLogTerm in
  (persist rf, (fun i => (i, args)) <$> others rf).

Definition toLeader rf : go (Raft C) :=
  let rf := rf <| role := Leader |> in
  let lastIndex := fst (getLastLogIndexAndTerm rf) in
  let rf := rf <| nextIndex := replicate (peers rf) (lastIndex + 1) |>
               <| matchIndex := replicate (peers rf) (-1) |> in
  mi ← go_update (matchIndex rf) (me rf) lastIndex;
  let rf := rf <| matchIndex := mi |> <| votedFor := -1 |> in
  mret (persist rf).

(** One turn of the loop of [ticker], and of [leaderTicker]. *)
Inductive tick := TickExit | TickAgain | TickSleep | TickAct.

Definition ticker (now : Z) rf : tick :=
  if killed rf then TickExit
  else if role rf =? Leader then TickAgain
  else if electionTimeout rf <? now - lastHeartbeatTime rf then TickAct
  else TickSleep.

Definition leaderTicker rf : tick :=
  if killed rf then TickExit else if negb (role rf =? Leader) then TickExit else TickAct.

Definition RequestVoteRequestHandler (now : Z) rf (args : RequestVoteArgs)
    (reply : RequestVoteReply) : Raft C * RequestVoteReply :=
  let rf := if currentTerm rf <? rva_Term args then toFollower (rva_Term args) rf else rf in
  let reply := if role rf =? Leader
    then reply <| rvr_VoteGranted := false |> <| rvr_Term := currentTerm rf |> else reply in
  let reject := reply <| rvr_Term := currentTerm rf |> <| rvr_VoteGranted := false |> in
  if rva_Term args <? currentTerm rf then (persist rf, reject)
  else if negb (votedFor rf =? -1) then (persist rf, reject)
  else
    let '(lastLogIndex, lastLogTerm) := getLastLogIndexAndTerm rf in
    if (rva_LastLogTerm args <? lastLogTerm)
       || ((lastLogTerm =? rva_LastLogTerm args) && (rva_LastLogIndex args <? lastLogIndex))
    then (persist rf, reject)
    else
      let rf := rf <| lastHeartbeatTime := now |> <| votedFor := rva_CandidateId args |> in
      (persist rf, reply <| rvr_Term := currentTerm rf |> <| rvr_VoteGranted := true |>).

(** The flag tells that the handler unlocked and goes on to call [toLeader]. *)
Definition RequestVoteResponseHandler rf (args : RequestVoteArgs) (reply : RequestVoteReply)
    : Raft C * bool :=
  if negb (role rf =? Candidate) then (rf, false)
  else if (rvr_Term reply <? currentTerm rf) || (rva_Term args <? currentTerm rf) then (rf, false)
  else if currentTerm rf <? rvr_Term reply then (toFollower (rvr_Term reply) rf, false)
  else if rvr_VoteGranted reply then
    let rf := rf <| voteCnt := voteCnt rf + 1 |> in
    if Z.quot (Z.of_nat (peers rf)) 2 + 1 <=? voteCnt rf then (rf, true) else (rf, false)
  else (rf, false).
End election.

(** ** Properties of one peer *)

Section election_facts.
Context {C : Type} `{GobCodec C}.
Implicit Types (rf : Raft C).

(** The candidate's log is at least as up to date as the peer's (§5.4.1 of the paper). *)
Definition up_to_date rf (args : RequestVoteArgs) : Prop :=
  let '(i, t) := getLastLogIndexAndTerm rf in
  t < rva_LastLogTerm args \/ (t = rva_LastLogTerm args /\ i <= rva_LastLogIndex args).

Lemma toFollower_term term rf : currentTerm (toFollower term rf) = Z.max (currentTerm rf) term.
Proof. unfold toFollower. destruct (Z.ltb_spec (currentTerm rf) term); cbn; lia. Qed.

Lemma toFollower_vote term rf :
  votedFor (toFollower term rf) = if currentTerm rf <? term then -1 else votedFor rf.
Proof. unfold toFollower. by destruct (_ <? _). Qed.

Lemma toFollower_role term rf : role (toFollower term rf) = Follower.
Proof. unfold toFollower. by destruct (_ <? _). Qed.

(** [toFollower] touches the role, the term and the vote only. *)
Lemma toFollower_frame term rf :
  log (toFollower term rf) = log rf /\ snapshotIndex (toFollower term rf) = snapshotIndex rf
  /\ snapshotTerm (toFollower term rf) = snapshotTerm rf
  /\ commitIndex (toFollower term rf) = commitIndex rf
  /\ peers (toFollower term rf) = peers rf /\ me (toFollower term rf) = me rf
  /\ persister (toFollower term rf) = persister rf
  /\ pendingPuts (toFollower term rf) = pendingPuts rf
  /\ nextIndex (toFollower term rf) = nextIndex rf /\ matchIndex (toFollower term rf) = matchIndex rf
  /\ snapshot (toFollower term rf) = snapshot rf /\ voteCnt (toFollower term rf) = voteCnt rf.
Proof. unfold toFollower. by destruct (_ <? _). Qed.

Lemma rv_restriction_spec rf (args : RequestVoteArgs) i t :
  getLastLogIndexAndTerm rf = (i, t) ->
  (rva_LastLogTerm args <? t) || ((t =? rva_LastLogTerm args) && (rva_LastLogIndex args <? i)) = false
  <-> up_to_date rf args.
Proof.
  intros Hl. unfold up_to_date. rewrite Hl.
  destruct (Z.ltb_spec (rva_LastLogTerm args) t), (Z.eqb_spec t (rva_LastLogTerm args)),
    (Z.ltb_spec (rva_LastLogIndex args) i); cbn; split; intros; try done; try lia.
Qed.

(** The result of the vote handler, decision by decision. *)
Lemma requestVote_eval now rf args reply :
  let rf1 := if currentTerm rf <? rva_Term args then toFollower (rva_Term args) rf else rf in
  exists reply', RequestVoteRequestHandler now rf args reply =
    (persist (if rvr_VoteGranted reply'
              then rf1 <| lastHeartbeatTime := now |> <| votedFor := rva_CandidateId args |>
              else rf1), reply')
    /\ rvr_Term reply' = currentTerm rf1
    /\ (rvr_VoteGranted reply' = true <->
        currentTerm rf1 <= rva_Term args /\ votedFor rf1 = -1 /\ up_to_date rf1 args).
Proof.
  intros rf1. unfold RequestVoteRequestHandler. fold rf1.
  set (reply1 := if role rf1 =? Leader then _ else _).
  pose (answer b := reply1 <| rvr_Term := currentTerm rf1 |> <| rvr_VoteGranted := b |>).
  destruct (getLastLogIndexAndTerm rf1) as [i t] eqn:Hl.
  destruct (Z.ltb_spec (rva_Term args) (currentTerm rf1)).
  { exists (answer false). split; [done |]. split; [done |]. cbn. split; [done | lia]. }
  destruct (Z.eqb_spec (votedFor rf1) (-1)) as [Hv|Hv]; cbn [negb].
  2: { exists (answer false). split; [done |]. split; [done |]. cbn. split; [done | tauto]. }
  pose proof (rv_restriction_spec rf1 args i t Hl) as Hr.
  destruct ((rva_LastLogTerm args <? t) || _).
  - exists (answer false). split; [done |]. split; [done |]. cbn. split; [done |].
    intros (_ & _ & Hu). by apply Hr in Hu.
  - exists (answer true). split; [done |]. split; [done |]. cbn. split; [|done].
    intros _. split; [lia |]. split; [done |]. by apply Hr.
Qed.

(** A vote handler grants at most one vote per term: after a grant every request of
    that term is refused. *)
Lemma grant_then_refuse now rf args reply rf' reply' now2 args2 reply2 :
  RequestVoteRequestHandler now rf args reply = (rf', reply') ->
  rvr_VoteGranted reply' = true -> rva_CandidateId args <> -1 ->
  rva_Term args2 <= rva_Term args ->
  rvr_VoteGranted (snd (RequestVoteRequestHandler now2 rf' args2 reply2)) = false.
Proof.
  intros Hh Hg Hc Ht.
  destruct (requestVote_eval now rf args reply) as (r & Hr & Hterm & Hgr).
  rewrite Hh in Hr. simplify_eq. rewrite Hg in *. apply proj1 in Hgr. specialize (Hgr eq_refl).
  set (rf1 := if currentTerm rf <? rva_Term args then _ else rf) in *.
  destruct (requestVote_eval now2
    (persist (rf1 <| lastHeartbeatTime := now |> <| votedFor := rva_CandidateId args |>)) args2 reply2)
    as (r2 & -> & _ & Hgr2). cbn [snd].
  destruct (rvr_VoteGranted r2) eqn:E; [|done]. exfalso.
  destruct Hgr2 as [Hgr2 _]. specialize (Hgr2 eq_refl) as (_ & Hv & _).
  assert (rva_Term args <= currentTerm rf1).
  { subst rf1. destruct (Z.ltb_spec (currentTerm rf) (rva_Term args)); [rewrite toFollower_term |]; lia. }
  change (currentTerm (persist _)) with (currentTerm rf1) in Hv.
  destruct (Z.ltb_spec (currentTerm rf1) (rva_Term args2)); [lia |]. by cbn in Hv.
Qed.

Lemma up_to_date_log rf rf' args :
  log rf' = log rf -> snapshotIndex rf' = snapshotIndex rf -> snapshotTerm rf' = snapshotTerm rf ->
  up_to_date rf' args <-> up_to_date rf args.
Proof. intros Hl Hi Ht. unfold up_to_date, getLastLogIndexAndTerm. by rewrite Hl, Hi, Ht. Qed.

(** C16: the vote handler on every branch.  It grants exactly when the request is not
    of an older term, the peer has no vote in that term, and the candidate's log is up
    to date; the answer carries the peer's term, a newer term makes it a follower with
    no vote, only a grant resets the election timer, the log is untouched, and the
    result is on disk before the answer leaves. *)
Theorem RequestVoteRequestHandler_spec now rf args reply :
  exists rf' reply', RequestVoteRequestHandler now rf args reply = (rf', reply')
    /\ persisted rf' /\ log rf' = log rf
    /\ currentTerm rf' = Z.max (currentTerm rf) (rva_Term args) /\ rvr_Term reply' = currentTerm rf'
    /\ (rvr_VoteGranted reply' = true <->
         currentTerm rf <= rva_Term args /\ (currentTerm rf < rva_Term args \/ votedFor rf = -1)
         /\ up_to_date rf args)
    /\ votedFor rf' = (if rvr_VoteGranted reply' then rva_CandidateId args
                       else if currentTerm rf <? rva_Term args then -1 else votedFor rf)
    /\ role rf' = (if currentTerm rf <? rva_Term args then Follower else role rf)
    /\ lastHeartbeatTime rf' = (if rvr_VoteGranted reply' then now else lastHeartbeatTime rf).
Proof.
  destruct (requestVote_eval now rf args reply) as (r & Hr & Ht & Hg).
  set (rf1 := if currentTerm rf <? rva_Term args then toFollower (rva_Term args) rf else rf) in *.
  assert (log rf1 = log rf /\ snapshotIndex rf1 = snapshotIndex rf /\ snapshotTerm rf1 = snapshotTerm rf)
    as (Hl & Hsi & Hst).
  { subst rf1. destruct (_ <? _); [|done]. unfold toFollower. by destruct (_ <? _). }
  assert (currentTerm rf1 = Z.max (currentTerm rf) (rva_Term args)
    /\ votedFor rf1 = (if currentTerm rf <? rva_Term args then -1 else votedFor rf)
    /\ role rf1 = (if currentTerm rf <? rva_Term args then Follower else role rf)
    /\ lastHeartbeatTime rf1 = lastHeartbeatTime rf) as (Htm & Hv & Hro & Hb).
  { subst rf1. destruct (Z.ltb_spec (currentTerm rf) (rva_Term args)) as [Hlt|?].
    - rewrite toFollower_term, toFollower_vote, toFollower_role.
      destruct (Z.ltb_spec (currentTerm rf) (rva_Term args)); [|lia]. repeat split.
      unfold toFollower. by destruct (_ <? _).
    - repeat split; lia. }
  clearbody rf1. rewrite (up_to_date_log rf) in Hg by done. rewrite Htm, Hv in Hg.
  eexists _, r. split; [exact Hr |]. split; [apply persist_persisted |].
  rewrite <- Htm. destruct (rvr_VoteGranted r); cbn; repeat (split; [done |]).
  all: split; [rewrite Hg; destruct (Z.ltb_spec (currentTerm rf) (rva_Term args)); intuition lia |].
  all: done.
Qed.

(** The branch of the vote handler that
    is meant for a leader does not return, and [toLeader] has erased the leader's own
    vote.  So a peer that has just become leader grants its vote to any up-to-date
    candidate of its own term, and goes on as leader. *)
Theorem leader_grants_vote now rf rf1 args reply :
  toLeader rf = Done rf1 -> rva_Term args = currentTerm rf1 -> up_to_date rf1 args ->
  exists rf2 reply', RequestVoteRequestHandler now rf1 args reply = (rf2, reply')
    /\ rvr_VoteGranted reply' = true /\ rvr_Term reply' = currentTerm rf1
    /\ role rf2 = Leader /\ currentTerm rf2 = currentTerm rf1.
Proof.
  intros Hl Ht Hu. unfold toLeader in Hl. apply go_bind_Done in Hl as (mi & _ & Hl).
  assert (role rf1 = Leader /\ votedFor rf1 = -1) as [Hr Hv] by by injection Hl as <-. clear Hl.
  destruct (requestVote_eval now rf1 args reply) as (r & He & Hrt & Hg).
  rewrite Ht, Z.ltb_irrefl in *. assert (rvr_VoteGranted r = true) as Hgr by (apply Hg; split; [lia | done]).
  rewrite Hgr in He. eexists _, r. split; [exact He |]. done.
Qed.

(** A vote reply makes its candidate go on to [toLeader] exactly when it is still
    a candidate of the term it asked in, the reply grants the vote in that term, and
    the votes so far are a strict majority of the peers.  Any other reply changes at
    most the term (to a newer one, as follower) or, if it grants, the count. *)
Theorem RequestVoteResponseHandler_spec rf args reply :
  0 <= voteCnt rf ->
  let rf' := fst (RequestVoteResponseHandler rf args reply) in
  (snd (RequestVoteResponseHandler rf args reply) = true <->
     role rf = Candidate /\ rvr_VoteGranted reply = true /\ rvr_Term reply = currentTerm rf
     /\ currentTerm rf <= rva_Term args /\ Z.of_nat (peers rf) < 2 * (voteCnt rf + 1))
  /\ (role rf <> Candidate \/ rvr_Term reply < currentTerm rf \/ rva_Term args < currentTerm rf ->
       rf' = rf)
  /\ (role rf = Candidate -> currentTerm rf < rvr_Term reply -> currentTerm rf <= rva_Term args ->
       role rf' = Follower /\ currentTerm rf' = rvr_Term reply /\ votedFor rf' = -1)
  /\ (role rf = Candidate -> rvr_Term reply = currentTerm rf -> currentTerm rf <= rva_Term args ->
       role rf' = Candidate /\ currentTerm rf' = currentTerm rf
       /\ voteCnt rf' = voteCnt rf + (if rvr_VoteGranted reply then 1 else 0)).
Proof.
  intros Hc. unfold RequestVoteResponseHandler.
  destruct (Z.eqb_spec (role rf) Candidate) as [Hr|Hr]; cbn [negb].
  2: { cbn. intuition congruence. }
  destruct (Z.ltb_spec (rvr_Term reply) (currentTerm rf)), (Z.ltb_spec (rva_Term args) (currentTerm rf));
    cbn [orb]; try (cbn; intuition (done || lia)).
  destruct (Z.ltb_spec (currentTerm rf) (rvr_Term reply)).
  { cbn [fst snd]. rewrite toFollower_role, toFollower_term, toFollower_vote.
    destruct (Z.ltb_spec (currentTerm rf) (rvr_Term reply)); [|lia]. intuition (done || lia). }
  destruct (rvr_VoteGranted reply).
  2: { cbn. intuition (done || lia). }
  match goal with |- context [?a <=? ?b] =>
    change b with (voteCnt rf + 1); change a with (Z.quot (Z.of_nat (peers rf)) 2 + 1) end.
  assert (Z.quot (Z.of_nat (peers rf)) 2 + 1 <= voteCnt rf + 1 <-> Z.of_nat (peers rf) < 2 * (voteCnt rf + 1))
    as Hmaj by div_lia.
  destruct (Z.leb_spec (Z.quot (Z.of_nat (peers rf)) 2 + 1) (voteCnt rf + 1)); cbn; intuition (done || lia).
Qed.

(** A peer that becomes leader keeps its term and log, assumes every peer to be
    up to date and none to have acknowledged anything except itself, erases its vote,
    and persists that; it fails only if its own number is not one of the peers'. *)
Theorem toLeader_spec rf :
  0 <= me rf < Z.of_nat (peers rf) ->
  exists rf', toLeader rf = Done rf' /\ persisted rf' /\ role rf' = Leader
    /\ currentTerm rf' = currentTerm rf /\ log rf' = log rf /\ votedFor rf' = -1
    /\ forall i, (i < peers rf)%nat ->
         nextIndex rf' !! i = Some (fst (getLastLogIndexAndTerm rf) + 1)
         /\ matchIndex rf' !! i =
              Some (if Z.of_nat i =? me rf then fst (getLastLogIndexAndTerm rf) else -1).
Proof.
  intros Hme. unfold toLeader.
  set (rf1 := (rf <| role := Leader |>) <| nextIndex := _ |> <| matchIndex := _ |>).
  change (me rf1) with (me rf). change (fst (getLastLogIndexAndTerm (rf <| role := Leader |>)))
    with (fst (getLastLogIndexAndTerm rf)).
  change (matchIndex rf1) with (replicate (peers rf) (-1)).
  rewrite go_update_Done by (rewrite length_replicate; lia). go_simpl.
  eexists. split; [reflexivity |]. split; [apply persist_persisted |].
  repeat (split; [done |]). intros i Hi. cbn. split; [by apply lookup_replicate_2 |].
  destruct (Z.eqb_spec (Z.of_nat i) (me rf)) as [<-|Hne].
  - rewrite Nat2Z.id, list_lookup_insert_eq; [done |]. by rewrite length_replicate.
  - rewrite list_lookup_insert_ne by lia. by apply lookup_replicate_2.
Qed.
End election_facts.
