(* ===== verification/RaftAppend.v ===== *)
(** The AppendEntries RPC: [src/raft/appendEntriesRPC.go]. *)
From S2P Require Import Prelude Persister RaftTypes RaftTools RaftPersist RaftLog RaftLogFacts.
From S2P Require Import RaftReplication RaftElection.

Section append.
Context {C : Type} `{GobCodec C}.
Implicit Types (rf : Raft C).

Definition AppendEntriesRequestHandler (now : Z) rf (args : AppendEntriesArgs C)
    (reply : AppendEntriesReply) : go (Raft C * AppendEntriesReply) :=
  if aea_Term args <? currentTerm rf then
    mret (persist rf, reply <| aer_Term := currentTerm rf |> <| aer_Success := false |>)
  else
    let rf := toFollower (aea_Term args) rf in
    let rf := rf <| lastHeartbeatTime := now |> in
    let reply := reply <| aer_Term := aea_Term args |> <| aer_Success := true |>
                       <| aer_ServerId := me rf |> in
    '(rf, reply) ← followerHandleLog rf args reply;
    if negb (aer_Success reply) then mret (persist rf, reply)
    else
      rf ← followerUpdateCommitIndex rf (aea_LeaderCommit args);
      mret (persist rf, reply).

Definition AppendEntriesResponseHandler rf (args : AppendEntriesArgs C)
    (reply : AppendEntriesReply) : go (Raft C) :=
  if (aer_Term reply <? currentTerm rf) || (aea_Term args <? currentTerm rf) then mret (persist rf)
  else if currentTerm rf <? aer_Term reply then mret (persist (toFollower (aer_Term reply) rf))
  else
    rf ← leaderHandleLog rf args reply;
    mret (persist rf).

(** What a goroutine of [leaderSendAppendEntriesRPC] sends to its server. *)
Inductive outgoing : Type :=
| OutAppend (args : AppendEntriesArgs C)
| OutInstall (args : InstallSnapshotArgs).

(** The body of the goroutine for server [curI], up to the call.  The values it reads
    are the copies taken under the read lock. *)
Definition buildRequest rf (curI : Z) : go outgoing :=
  next ← go_index (nextIndex rf) curI;
  let prevLogIndex := next - 1 in
  if prevLogIndex <? snapshotIndex rf then
    mret (OutInstall (mkInstallSnapshotArgs (currentTerm rf) (me rf) (snapshotIndex rf)
      (snapshotTerm rf) (snapshot rf)))
  else
    '(prevLogTerm, entries) ←
      (if prevLogIndex =? snapshotIndex rf then mret (snapshotTerm rf, log rf)
       else
         let '(actualIndex, found) := scanIndex 0 (log rf) prevLogIndex in
         if negb found then Panic "should found prevLogIndex" else
         e ← go_index (log rf) (actualIndex + 1 - 1);
         suffix ← slice_from (log rf) (actualIndex + 1);
         mret (le_Term e, suffix));
    mret (OutAppend (mkAppendEntriesArgs (currentTerm rf) (me rf) prevLogIndex prevLogTerm
      entries (commitIndex rf))).

Fixpoint buildRequests rf (servers : list Z) : go (list (Z * outgoing)) :=
  match servers with
  | [] => mret []
  | i :: rest =>
    r ← buildRequest rf i;
    rs ← buildRequests rf rest;
    mret ((i, r) :: rs)
  end.

Definition leaderSendAppendEntriesRPC rf : go (list (Z * outgoing)) :=
  buildRequests rf (others rf).
End append.
Arguments outgoing C : clear implicits.

(** ** Properties *)

Section append_facts.
Context {C : Type} `{GobCodec C}.
Implicit Types (rf : Raft C).

(** Every AppendEntries request a leader builds carries the whole rest of its
    log: the entries follow [PrevLogIndex], reach the leader's last index, hence cover
    [LeaderCommit], and the previous term is the term at [PrevLogIndex]. *)
Theorem buildRequest_append rf curI args :
  log_ok rf -> commit_ok rf -> buildRequest rf curI = Done (OutAppend args) ->
  aea_Term args = currentTerm rf /\ aea_LeaderId args = me rf
  /\ go_index (nextIndex rf) curI = Done (aea_PrevLogIndex args + 1)
  /\ consecutive (aea_PrevLogIndex args + 1) (aea_Entries args)
  /\ aea_PrevLogIndex args + len (aea_Entries args) = lastIndex rf
  /\ aea_LeaderCommit args <= aea_PrevLogIndex args + len (aea_Entries args)
  /\ aea_Entries args ⊆ log rf
  /\ (aea_PrevLogIndex args = snapshotIndex rf /\ aea_PrevLogTerm args = snapshotTerm rf
      \/ exists e, e ∈ log rf /\ le_Index e = aea_PrevLogIndex args /\ le_Term e = aea_PrevLogTerm args).
Proof.
  intros Hok [Hc1 Hc2]. unfold buildRequest, lastIndex in *.
  destruct (go_index (nextIndex rf) curI) as [next| |] eqn:Hn; cbn [mbind go_bind]; try done.
  destruct (Z.ltb_spec (next - 1) (snapshotIndex rf)) as [|Hge]; [done |].
  destruct (Z.eqb_spec (next - 1) (snapshotIndex rf)) as [Heq|Hne].
  { go_simpl. intros Hr. simplify_eq. cbn.
    rewrite Heq. replace next with (snapshotIndex rf + 1) by lia.
    repeat split; try done; try lia. }
  destruct (decide (next - 1 <= snapshotIndex rf + len (log rf))) as [Hin|Hout].
  2: { destruct (scanIndex 0 (log rf) (next - 1)) as [j found] eqn:E.
       pose proof (scanIndex_absent _ (log rf) 0 (next - 1) Hok ltac:(lia)) as Hf.
       rewrite E in Hf. cbn in Hf. by subst found. }
  rewrite (scanIndex_found _ _ _ _ Hok) by lia. cbn [negb].
  set (k := 0 + (next - 1 - (snapshotIndex rf + 1))) in *.
  destruct (go_index_total (log rf) (k + 1 - 1)) as (e & -> & He); [lia |]. cbn [mbind go_bind].
  rewrite slice_from_Done by lia. go_simpl. intros Hr. simplify_eq. cbn.
  repeat split; try done; try lia.
  - f_equal. lia.
  - replace (next - 1 + 1) with (snapshotIndex rf + 1 + Z.of_nat (Z.to_nat (k + 1))) by lia.
    apply consecutive_drop; [lia | exact Hok].
  - rewrite length_drop. lia.
  - rewrite length_drop. lia.
  - apply subseteq_drop.
  - right. exists e. split; [apply list_elem_of_lookup; eauto |]. split; [|done].
    rewrite (Hok _ _ He). lia.
Qed.

(** Building a request panics ("should found prevLogIndex") exactly when
    [nextIndex] points more than one past the log; otherwise it returns an
    InstallSnapshot request if the previous entry has been compacted beyond the
    snapshot's last entry, and an AppendEntries request if not. *)
Theorem buildRequest_returns rf curI next :
  log_ok rf -> go_index (nextIndex rf) curI = Done next ->
  (buildRequest rf curI = Panic "should found prevLogIndex" <->
     lastIndex rf + 1 < next)
  /\ (next <= snapshotIndex rf -> buildRequest rf curI =
       Done (OutInstall (mkInstallSnapshotArgs (currentTerm rf) (me rf) (snapshotIndex rf)
         (snapshotTerm rf) (snapshot rf))))
  /\ (snapshotIndex rf < next <= lastIndex rf + 1 ->
       exists args, buildRequest rf curI = Done (OutAppend args)).
Proof.
  intros Hok Hn. unfold buildRequest, lastIndex in *. rewrite Hn. cbn [mbind go_bind].
  destruct (Z.ltb_spec (next - 1) (snapshotIndex rf)) as [|Hge].
  { go_simpl. split; [split; [done | lia] |]. split; [done | lia]. }
  destruct (Z.eqb_spec (next - 1) (snapshotIndex rf)) as [Heq|Hne].
  { go_simpl. split; [split; [done | lia] |]. split; [lia | by eexists]. }
  destruct (decide (next <= snapshotIndex rf + len (log rf) + 1)) as [Hle|Hout].
  - rewrite (scanIndex_found _ _ _ _ Hok) by lia. cbn [negb].
    set (k := 0 + (next - 1 - (snapshotIndex rf + 1))) in *.
    destruct (go_index_total (log rf) (k + 1 - 1)) as (e & -> & He); [lia |]. cbn [mbind go_bind].
    rewrite slice_from_Done by lia. go_simpl.
    split; [split; [done | lia] |]. split; [lia | by eexists].
  - destruct (scanIndex 0 (log rf) (next - 1)) as [j found] eqn:E.
    pose proof (scanIndex_absent _ (log rf) 0 (next - 1) Hok ltac:(lia)) as Hf.
    rewrite E in Hf. cbn in Hf. subst found. split; [|split; lia]. split; [lia | done].
Qed.

Lemma receiver_rules_frame rf rf' args :
  log rf' = log rf -> snapshotIndex rf' = snapshotIndex rf ->
  receiver_rules rf' args = receiver_rules rf args.
Proof. intros Hl Hs. unfold receiver_rules. by rewrite Hl, Hs. Qed.

Lemma request_ok_frame rf rf' args :
  log rf' = log rf -> snapshotIndex rf' = snapshotIndex rf -> request_ok rf args -> request_ok rf' args.
Proof. intros Hl Hs. unfold request_ok. by rewrite Hl, Hs. Qed.

(** The state between [followerHandleLog] and the update of the commit index. *)
Definition reconciled (now : Z) rf args : Raft C :=
  (toFollower (aea_Term args) rf) <| lastHeartbeatTime := now |>
    <| log := snd (receiver_rules rf args) |>.

Lemma appendEntries_log now rf args reply :
  log_ok rf -> currentTerm rf <= aea_Term args -> request_ok rf args ->
  exists reply',
    aer_Success reply' = fst (receiver_rules rf args) /\ aer_Term reply' = aea_Term args
    /\ aer_ServerId reply' = me rf
    /\ AppendEntriesRequestHandler now rf args reply =
         (if fst (receiver_rules rf args) then
            rf' ← followerUpdateCommitIndex (reconciled now rf args) (aea_LeaderCommit args);
            Done (persist rf', reply')
          else Done (persist (reconciled now rf args), reply')).
Proof.
  intros Hok Ht Hreq. unfold AppendEntriesRequestHandler.
  destruct (Z.ltb_spec (aea_Term args) (currentTerm rf)); [lia |].
  pose proof (toFollower_frame (aea_Term args) rf) as (Hlog & Hsi & _ & _ & _ & Hme & _).
  set (rf0 := (toFollower (aea_Term args) rf) <| lastHeartbeatTime := now |>).
  assert (log rf0 = log rf) as Hlog0 by exact Hlog.
  assert (snapshotIndex rf0 = snapshotIndex rf) as Hsi0 by exact Hsi.
  destruct (follower_refines rf0 args
    (reply <| aer_Term := aea_Term args |> <| aer_Success := true |> <| aer_ServerId := me rf0 |>))
    as (r & Hr & Hsucc & Hterm & Hsid).
  { unfold log_ok. by rewrite Hlog0, Hsi0. }
  { by eapply request_ok_frame. }
  rewrite (receiver_rules_frame rf rf0) in * by done.
  exists r. split; [done |]. split; [done |]. split; [by rewrite Hsid |].
  rewrite Hr. go_simpl. rewrite Hsucc. by destruct (fst (receiver_rules rf args)).
Qed.

Lemma reconciled_ok now rf args :
  log_ok rf -> commit_ok rf -> request_ok rf args ->
  commitIndex rf <= snapshotIndex rf + len (snd (receiver_rules rf args)) ->
  log_ok (reconciled now rf args) /\ commit_ok (reconciled now rf args).
Proof.
  intros Hok [Hc1 Hc2] Hreq Hcl. unfold reconciled, log_ok, commit_ok, lastIndex. cbn.
  pose proof (toFollower_frame (aea_Term args) rf) as (_ & -> & _ & -> & _).
  split; [by apply receiver_rules_ok | lia].
Qed.

(** C9: AppendEntries of a stale leader is refused: nothing of the peer changes, its
    heartbeat time included, only its stable storage is written again.  Otherwise the
    peer follows the leader's term, its log becomes that of the receiver rules, on
    success its commit index becomes the larger of its own and
    [min(LeaderCommit, last index)], its snapshot stays, its log and commit invariants
    are kept, and everything is persisted before the reply leaves.  The request must
    be well formed and must not conflict with the peer's committed entries, as Raft's
    leader completeness guarantees. *)
Theorem AppendEntriesRequestHandler_spec now rf args reply :
  log_ok rf -> commit_ok rf -> request_ok rf args ->
  commitIndex rf <= snapshotIndex rf + len (snd (receiver_rules rf args)) ->
  exists rf' reply',
    AppendEntriesRequestHandler now rf args reply = Done (rf', reply')
    /\ log_ok rf' /\ commit_ok rf' /\ persisted rf'
    /\ currentTerm rf' = Z.max (currentTerm rf) (aea_Term args)
    /\ aer_Term reply' = currentTerm rf'
    /\ (aea_Term args < currentTerm rf ->
         aer_Success reply' = false /\ rf' = persist rf)
    /\ (currentTerm rf <= aea_Term args ->
         role rf' = Follower /\ lastHeartbeatTime rf' = now
         /\ votedFor rf' = (if currentTerm rf <? aea_Term args then -1 else votedFor rf)
         /\ aer_Success reply' = fst (receiver_rules rf args)
         /\ log rf' = snd (receiver_rules rf args)
         /\ commitIndex rf' = (
              if fst (receiver_rules rf args)
              then Z.max (commitIndex rf) (Z.min (aea_LeaderCommit args) (lastIndex rf'))
              else commitIndex rf)
         /\ snapshotIndex rf' = snapshotIndex rf /\ snapshotTerm rf' = snapshotTerm rf
         /\ snapshot rf' = snapshot rf).
Proof.
  intros Hok Hc Hreq Hcl. destruct (Z.ltb_spec (aea_Term args) (currentTerm rf)) as [Hst|Hnew].
  { unfold AppendEntriesRequestHandler.
    destruct (Z.ltb_spec (aea_Term args) (currentTerm rf)); [|lia].
    eexists _, _. split; [done |]. split; [exact Hok |]. split; [exact Hc |].
    split; [apply persist_persisted |]. cbn. repeat split; try done; lia. }
  destruct (appendEntries_log now rf args reply Hok Hnew Hreq) as (r & Hs & Ht & _ & ->).
  destruct (reconciled_ok now rf args Hok Hc Hreq Hcl) as [Hok1 Hc1].
  set (rf1 := reconciled now rf args) in *.
  assert (currentTerm rf1 = Z.max (currentTerm rf) (aea_Term args)) as Hterm1 by apply toFollower_term.
  assert (commitIndex rf1 = commitIndex rf) as Hci1.
  { exact (proj1 (proj2 (proj2 (proj2 (toFollower_frame (aea_Term args) rf))))). }
  assert (votedFor rf1 = if currentTerm rf <? aea_Term args then -1 else votedFor rf) as Hv1
    by apply toFollower_vote.
  assert (role rf1 = Follower) as Hr1 by apply toFollower_role.
  assert (snapshotIndex rf1 = snapshotIndex rf /\ snapshotTerm rf1 = snapshotTerm rf /\ snapshot rf1 = snapshot rf)
    as (Hs1 & Hs2 & Hs3) by (pose proof (toFollower_frame (aea_Term args) rf); by split_all).
  assert (log rf1 = snd (receiver_rules rf args) /\ lastHeartbeatTime rf1 = now) as [Hlog1 Hb1] by done.
  clearbody rf1. pose proof Hc1 as [Hc1a Hc1b]. unfold commit_ok, lastIndex in *.
  destruct (fst (receiver_rules rf args)).
  - rewrite followerUpdate_spec by done. go_simpl. eexists _, r. split; [reflexivity |].
    unfold lastIndex in *. rewrite Hci1 in *.
    destruct (Z.leb_spec (aea_LeaderCommit args) (commitIndex rf)); cbn.
    + repeat split; try done; try apply clone_id; lia.
    + repeat split; try done; try apply clone_id; lia.
  - exists (persist rf1), r. split; [done |]. cbn.
    repeat split; try done; try apply clone_id; lia.
Qed.
End append_facts.
