(* ===== verification/RaftSnapshot.v ===== *)
(** Log compaction and the InstallSnapshot RPC: [src/raft/installSnapshotRPC.go]. *)
From S2P Require Import Prelude Persister RaftTypes RaftTools RaftPersist RaftLog RaftLogFacts.
From S2P Require Import RaftReplication RaftElection.

Section snapshot.
Context {C : Type} `{GobCodec C}.
Implicit Types (rf : Raft C).

Definition InstallSnapshotRequestHandler (now : Z) rf (args : InstallSnapshotArgs)
    (reply : InstallSnapshotReply) : go (Raft C * InstallSnapshotReply) :=
  let reply := reply <| isr_ServerId := me rf |> in
  if (snapshotIndex rf =? isa_LastIncludedIndex args)
     && negb (snapshotTerm rf =? isa_LastIncludedTerm args)
  then Panic "InstallSnapshotRequestHandler ERROR: snapshot inconsistent!"
  else if isa_Term args <? currentTerm rf then
    mret (persist rf, reply <| isr_Term := currentTerm rf |>)
  else
  let rf := rf <| lastHeartbeatTime := now |> in
  if isa_LastIncludedIndex args <=? snapshotIndex rf then
    mret (persist rf, reply <| isr_Term := currentTerm rf |>)
  else
  let rf := if currentTerm rf <? isa_Term args then toFollower (isa_Term args) rf else rf in
  let trueIndex := findIndex rf (isa_LastIncludedIndex args) in
  if trueIndex =? -1 then
    let rf := rf <| snapshot := isa_Snapshot args |>
                 <| snapshotIndex := isa_LastIncludedIndex args |>
                 <| snapshotTerm := isa_LastIncludedTerm args |> <| log := [] |> in
    let prevCommitIndex := commitIndex rf in
    let rf := rf <| commitIndex := isa_LastIncludedIndex args |> in
    if commitIndex rf <? prevCommitIndex
    then Panic "InstallSnapshotRequestHandler ERROR: commitIndex inconsistent!"
    else
      let rf := spawnPut rf [snapshotMsg rf] in
      mret (persist rf, reply <| isr_Term := currentTerm rf |>)
  else
    e ← go_index (log rf) trueIndex;
    if negb (le_Term e =? isa_LastIncludedTerm args)
    then Panic "InstallSnapshotRequestHandler ERROR: log inconsistent!"
    else
      log' ← slice_from (log rf) (trueIndex + 1);
      let rf := rf <| snapshot := isa_Snapshot args |> <| snapshotIndex := le_Index e |>
                   <| snapshotTerm := le_Term e |> <| log := log' |> in
      let prevCommitIndex := commitIndex rf in
      let rf := if prevCommitIndex <? isa_LastIncludedIndex args
                then rf <| commitIndex := isa_LastIncludedIndex args |> else rf in
      let rf := spawnPut rf [snapshotMsg rf] in
      mret (persist rf, reply <| isr_Term := currentTerm rf |>).

Definition InstallSnapshotResponseHandler rf (args : InstallSnapshotArgs)
    (reply : InstallSnapshotReply) : go (Raft C) :=
  if negb (currentTerm rf =? isa_Term args) || (isr_Term reply <? currentTerm rf)
  then mret (persist rf)
  else if currentTerm rf <? isr_Term reply then mret (persist (toFollower (isr_Term reply) rf))
  else
    m ← go_index (matchIndex rf) (isr_ServerId reply);
    if isa_LastIncludedIndex args <=? m then mret (persist rf)
    else
      ni ← go_update (nextIndex rf) (isr_ServerId reply) (isa_LastIncludedIndex args + 1);
      mi ← go_update (matchIndex rf) (isr_ServerId reply) (isa_LastIncludedIndex args);
      mret (persist (rf <| nextIndex := ni |> <| matchIndex := mi |>)).

(** The message for a committed entry that follows a snapshot. *)
Definition remainingMsg (e : LogEntry C) : ApplyMsg C :=
  mkApplyMsg true (Some (le_Command e)) (le_Index e + 1) false [] (-1) (-1).

(** Lines 164-166 of the file: [n] iterations from position [i]. *)
Fixpoint remainingMsgs (n : nat) (i : Z) (l : list (LogEntry C)) : go (list (ApplyMsg C)) :=
  match n with
  | O => Done []
  | S n' =>
    a ← go_index l i;
    ms ← remainingMsgs n' (i + 1) l;
    mret (remainingMsg a :: ms)
  end.

Definition installCurRfSnapShot rf (index : Z) (snap : bytes) : go (Raft C) :=
  let trueIndex := findIndex rf index in
  if trueIndex =? -1 then mret (persist rf)
  else
    e ← go_index (log rf) trueIndex;
    log' ← slice_from (log rf) (trueIndex + 1);
    let rf := rf <| snapshot := snap |> <| snapshotIndex := le_Index e |>
                 <| snapshotTerm := le_Term e |> <| log := log' |> in
    rest ← (if snapshotIndex rf <? commitIndex rf then
              let trueIndex2 := findIndex rf (commitIndex rf) in
              remainingMsgs (Z.to_nat (trueIndex2 + 1)) 0 (log rf)
            else mret []);
    mret (persist (spawnPut rf (snapshotMsg rf :: rest))).

(** [Snapshot] of [raft.go]: the service counts entries from 1. *)
Definition Snapshot rf (index : Z) (snap : bytes) : go (Raft C) :=
  let targetIndex := index - 1 in installCurRfSnapShot rf targetIndex snap.
End snapshot.

(** ** Properties *)

Section snapshot_facts.
Context {C : Type} `{GobCodec C}.
Implicit Types (rf : Raft C).

Lemma remainingMsgs_spec n (i : nat) (l : list (LogEntry C)) :
  (i + n <= length l)%nat ->
  remainingMsgs n (Z.of_nat i) l = Done (remainingMsg <$> take n (drop i l)).
Proof.
  revert i; induction n as [|n IH]; intros i Hi; cbn [remainingMsgs].
  { by rewrite take_0. }
  destruct (lookup_lt_is_Some_2 l i) as [a Ha]; [lia |].
  rewrite (go_index_nat _ _ _ Ha). cbn [mbind go_bind].
  replace (Z.of_nat i + 1) with (Z.of_nat (S i)) by lia.
  rewrite IH by lia. cbn. by rewrite (drop_S _ _ _ Ha).
Qed.

(** The peer after cutting its log at index [i], with snapshot [snap]; [t] is the
    term of the entry with that index. *)
Definition compacted rf (i t : Z) (snap : bytes) : Raft C :=
  rf <| snapshot := snap |> <| snapshotIndex := i |> <| snapshotTerm := t |>
     <| log := drop (Z.to_nat (i - snapshotIndex rf)) (log rf) |>.

(** Compaction keeps the log consecutive, its last index and term, and every entry
    after the snapshot. *)
Lemma compacted_ok rf e snap :
  log_ok rf -> e ∈ log rf ->
  let rf' := compacted rf (le_Index e) (le_Term e) snap in
  log_ok rf' /\ lastIndex rf' = lastIndex rf
  /\ getLastLogIndexAndTerm rf' = getLastLogIndexAndTerm rf
  /\ forall x, x ∈ log rf' <-> x ∈ log rf /\ le_Index e < le_Index x.
Proof.
  intros Hok (k & Hk)%list_elem_of_lookup. pose proof (lookup_lt_Some _ _ _ Hk) as Hlt.
  pose proof (Hok _ _ Hk) as Hi. unfold compacted, lastIndex, log_ok. cbn.
  replace (Z.to_nat (le_Index e - snapshotIndex rf)) with (S k) by lia.
  split; [|split; [|split]].
  - replace (le_Index e + 1) with (snapshotIndex rf + 1 + Z.of_nat (S k)) by lia.
    apply consecutive_drop; [lia | exact Hok].
  - rewrite length_drop. lia.
  - unfold getLastLogIndexAndTerm. cbn. rewrite (last_lookup (log rf)), last_lookup, length_drop.
    destruct (decide (length (log rf) = S k)) as [Hend|Hmore].
    + rewrite Hend. replace (S k - S k)%nat with 0%nat by lia. cbn.
      rewrite lookup_drop, lookup_ge_None_2 by lia. by rewrite Hk.
    + rewrite lookup_drop. f_equal.
      replace (S k + pred (length (log rf) - S k))%nat with (pred (length (log rf))) by lia.
      destruct (lookup_lt_is_Some_2 (log rf) (pred (length (log rf)))) as [x Hx]; [lia |].
      by rewrite Hx.
  - intros x. split.
    + intros (j & Hj)%list_elem_of_lookup. rewrite lookup_drop in Hj. split.
      * apply list_elem_of_lookup. eauto.
      * rewrite (Hok _ _ Hj). lia.
    + intros [(j & Hj)%list_elem_of_lookup Hgt]. rewrite (Hok _ _ Hj) in Hgt.
      apply list_elem_of_lookup. exists (j - S k)%nat. rewrite lookup_drop.
      by replace (S k + (j - S k))%nat with j by lia.
Qed.

Lemma installCur_eval rf index snap :
  log_ok rf -> commit_ok rf -> snapshotIndex rf < index <= lastIndex rf ->
  exists e, e ∈ log rf /\ le_Index e = index /\
    let rf1 := compacted rf (le_Index e) (le_Term e) snap in
    installCurRfSnapShot rf index snap =
      Done (persist (spawnPut rf1
        (snapshotMsg rf1 :: (remainingMsg <$> entries_between rf index (commitIndex rf))))).
Proof.
  intros Hok [Hc1 Hc2] Hin. unfold lastIndex in *. unfold installCurRfSnapShot.
  destruct (log_lookup_index rf index Hok) as (e & He & Hl & Hi); [lia |].
  assert (e ∈ log rf) as Hel by (apply list_elem_of_lookup; eauto).
  exists e. split; [done |]. split; [done |].
  set (rf1 := compacted rf (le_Index e) (le_Term e) snap).
  rewrite findIndex_found by (done || lia).
  destruct (Z.eqb_spec (index - snapshotIndex rf - 1) (-1)); [lia |].
  rewrite He, slice_from_Done by lia. go_simpl.
  replace (Z.to_nat (index - snapshotIndex rf - 1 + 1)) with (Z.to_nat (le_Index e - snapshotIndex rf)) by lia.
  fold (compacted rf (le_Index e) (le_Term e) snap). fold rf1.
  destruct (compacted_ok rf e snap Hok Hel) as (Hok1 & Hlast1 & _). fold rf1 in Hok1, Hlast1.
  unfold lastIndex in Hlast1.
  assert (snapshotIndex rf1 = index /\ commitIndex rf1 = commitIndex rf) as [Hs1 Hci1] by done.
  rewrite Hs1, Hci1 in *.
  destruct (Z.ltb_spec index (commitIndex rf)).
  - rewrite findIndex_found by (done || lia). rewrite Hs1.
    rewrite (remainingMsgs_spec _ 0) by lia. rewrite drop_0. go_simpl.
    unfold entries_between. subst rf1. cbn. rewrite Hi.
    by replace (Z.to_nat (commitIndex rf - index - 1 + 1)) with (Z.to_nat (commitIndex rf - index)) by lia.
  - go_simpl. unfold entries_between.
    by replace (Z.to_nat (commitIndex rf - index)) with 0%nat by lia.
Qed.

Lemma remainingMsg_indexes rf lo hi :
  log_ok rf -> -1 <= snapshotIndex rf <= lo -> hi <= lastIndex rf ->
  CommandIndex <$> (remainingMsg <$> entries_between rf lo hi) = seqZ (lo + 2) (hi - lo).
Proof.
  intros Hok Hs Hh. destruct (decide (lo <= hi)).
  - rewrite <- list_fmap_compose.
    transitivity ((Z.add 1) <$> (le_Index <$> entries_between rf lo hi)).
    { rewrite <- list_fmap_compose. apply list_fmap_ext. intros _ x _. cbn. lia. }
    rewrite entries_between_indexes by (done || lia). rewrite fmap_add_seqZ. f_equal. lia.
  - unfold entries_between. replace (Z.to_nat (hi - lo)) with 0%nat by lia. cbn.
    symmetry. apply seqZ_nil. lia.
Qed.

(** A snapshot request of the service for an index outside the log changes
    nothing; for an index in the log it drops exactly the entries up to that index,
    keeps the log consecutive and the last index and term (so elections are
    unaffected), persists, and hands the service the snapshot followed by the
    committed entries after it, in order. *)
Theorem installCurRfSnapShot_spec rf index snap :
  log_ok rf -> commit_ok rf ->
  exists rf', installCurRfSnapShot rf index snap = Done rf' /\ persisted rf' /\ log_ok rf'
    /\ lastIndex rf' = lastIndex rf
    /\ getLastLogIndexAndTerm rf' = getLastLogIndexAndTerm rf
    /\ commitIndex rf' = commitIndex rf
    /\ (index <= snapshotIndex rf \/ lastIndex rf < index -> rf' = persist rf)
    /\ (snapshotIndex rf < index <= lastIndex rf ->
        snapshotIndex rf' = index /\ snapshot rf' = snap
        /\ (forall x, x ∈ log rf' <-> x ∈ log rf /\ index < le_Index x)
        /\ exists msgs, pendingPuts rf' = pendingPuts rf ++ [snapshotMsg rf' :: msgs]
           /\ CommandIndex <$> msgs = seqZ (index + 2) (commitIndex rf - index)
           /\ msgs = remainingMsg <$> entries_between rf index (commitIndex rf)).
Proof.
  intros Hok Hc. destruct (decide (snapshotIndex rf < index <= lastIndex rf)) as [Hin|Hout].
  2: { unfold installCurRfSnapShot. rewrite findIndex_absent by (done || unfold lastIndex in *; lia).
       change (-1 =? -1) with true. exists (persist rf).
       repeat split; try done; try apply clone_id; lia. }
  destruct (installCur_eval rf index snap Hok Hc Hin) as (e & Hel & Hi & ->).
  destruct (compacted_ok rf e snap Hok Hel) as (Hok1 & Hlast1 & Hterm1 & Hlog1).
  eexists. split; [reflexivity |]. split; [apply persist_persisted |].
  split; [exact Hok1 |]. split; [exact Hlast1 |]. split; [exact Hterm1 |]. split; [done |].
  split; [lia |]. intros _. split; [exact Hi |]. split; [done |].
  split; [intros x; rewrite <- Hi; apply Hlog1 |].
  eexists. split; [reflexivity |]. split; [|done].
  destruct Hc. apply remainingMsg_indexes; [done | lia | done].
Qed.

(** The peer after it has taken over the term and the snapshot of a leader. *)
Definition adopted (now : Z) rf (args : InstallSnapshotArgs) : Raft C :=
  let rf := rf <| lastHeartbeatTime := now |> in
  if currentTerm rf <? isa_Term args then toFollower (isa_Term args) rf else rf.
Definition installed (now : Z) rf (args : InstallSnapshotArgs) : Raft C :=
  (compacted (adopted now rf args) (isa_LastIncludedIndex args) (isa_LastIncludedTerm args)
     (isa_Snapshot args))
    <| commitIndex := Z.max (commitIndex rf) (isa_LastIncludedIndex args) |>.

Lemma adopted_frame now rf args :
  log (adopted now rf args) = log rf /\ snapshotIndex (adopted now rf args) = snapshotIndex rf
  /\ commitIndex (adopted now rf args) = commitIndex rf
  /\ currentTerm (adopted now rf args) = Z.max (currentTerm rf) (isa_Term args)
  /\ pendingPuts (adopted now rf args) = pendingPuts rf.
Proof.
  unfold adopted. cbn. destruct (Z.ltb_spec (currentTerm rf) (isa_Term args)); cbn.
  - rewrite toFollower_term. unfold toFollower. cbn. by destruct (_ <? _).
  - repeat split; lia.
Qed.

Definition consistent rf (args : InstallSnapshotArgs) : Prop :=
  (snapshotIndex rf = isa_LastIncludedIndex args -> snapshotTerm rf = isa_LastIncludedTerm args)
  /\ forall e, e ∈ log rf -> le_Index e = isa_LastIncludedIndex args ->
       le_Term e = isa_LastIncludedTerm args.

Lemma set_commit rf (c1 c2 : Z) : c1 = c2 -> rf <| commitIndex := c1 |> = rf <| commitIndex := c2 |>.
Proof. by intros ->. Qed.

Lemma installSnapshot_eval now rf args reply :
  log_ok rf -> commit_ok rf -> consistent rf args ->
  isa_Term args >= currentTerm rf -> snapshotIndex rf < isa_LastIncludedIndex args ->
  let rf1 := installed now rf args in
  exists reply', isr_ServerId reply' = me rf /\ isr_Term reply' = isa_Term args /\
    InstallSnapshotRequestHandler now rf args reply =
      Done (persist (spawnPut rf1 [snapshotMsg rf1]), reply').
Proof.
  intros Hok [Hc1 Hc2] [Hcs Hce] Ht Hlt rf1. unfold lastIndex in *.
  pose proof (adopted_frame now rf args) as (Hl & Hs & Hci & Hterm & _).
  exists (reply <| isr_ServerId := me rf |> <| isr_Term := isa_Term args |>).
  split; [done |]. split; [done |]. unfold InstallSnapshotRequestHandler.
  destruct (Z.eqb_spec (snapshotIndex rf) (isa_LastIncludedIndex args)); [lia |]. cbn [andb].
  destruct (Z.ltb_spec (isa_Term args) (currentTerm rf)); [lia |].
  change (snapshotIndex (rf <| lastHeartbeatTime := now |>)) with (snapshotIndex rf).
  destruct (Z.leb_spec (isa_LastIncludedIndex args) (snapshotIndex rf)); [lia |].
  fold (adopted now rf args). set (rfa := adopted now rf args) in *.
  assert (log_ok rfa) as Hoka by (unfold log_ok; by rewrite Hl, Hs).
  assert (currentTerm rfa = isa_Term args) as Hta by lia. clear Hterm.
  assert (rf1 = (compacted rfa (isa_LastIncludedIndex args) (isa_LastIncludedTerm args)
     (isa_Snapshot args)) <| commitIndex := Z.max (commitIndex rf) (isa_LastIncludedIndex args) |>)
    as Hrf1 by done.
  clearbody rf1 rfa.
  destruct (decide (isa_LastIncludedIndex args <= snapshotIndex rf + len (log rf))) as [Hin|Hout].
  - rewrite findIndex_found by (done || rewrite ?Hl, ?Hs; lia).
    rewrite Hs. destruct (Z.eqb_spec (isa_LastIncludedIndex args - snapshotIndex rf - 1) (-1)); [lia |].
    destruct (log_lookup_index rf (isa_LastIncludedIndex args) Hok) as (e & He & Hle & Hi); [lia |].
    rewrite Hl, He. go_simpl.
    rewrite (Hce e ltac:(apply list_elem_of_lookup; eauto) Hi), Z.eqb_refl. cbn [negb].
    rewrite slice_from_Done by lia. go_simpl.
    assert (forall r1 r2 : Raft C, r1 = r2 -> forall x1 x2 : Z, x1 = x2 ->
      Done (persist (spawnPut r1 [snapshotMsg r1]),
            reply <| isr_ServerId := me rf |> <| isr_Term := x1 |>)
      = Done (persist (spawnPut r2 [snapshotMsg r2]),
            reply <| isr_ServerId := me rf |> <| isr_Term := x2 |>)) as Hcong by (by intros ?? -> ?? ->).
    apply Hcong; [|by destruct (_ <? _)]. subst rf1. unfold compacted. rewrite Hs, Hl, Hi.
    replace (Z.to_nat (isa_LastIncludedIndex args - snapshotIndex rf - 1 + 1))
      with (Z.to_nat (isa_LastIncludedIndex args - snapshotIndex rf)) by lia.
    cbn. rewrite Hci. destruct (Z.ltb_spec (commitIndex rf) (isa_LastIncludedIndex args)); cbn.
    + by rewrite Z.max_r by lia.
    + rewrite Z.max_l by lia. by rewrite <- Hci.
  - rewrite findIndex_absent by (done || rewrite ?Hl, ?Hs; lia).
    change (-1 =? -1) with true. cbn iota.
    assert (rf1 = rfa <| snapshot := isa_Snapshot args |>
              <| snapshotIndex := isa_LastIncludedIndex args |>
              <| snapshotTerm := isa_LastIncludedTerm args |> <| log := [] |>
              <| commitIndex := isa_LastIncludedIndex args |>) as ->.
    { rewrite Hrf1. unfold compacted. rewrite Hs, Hl, drop_ge by lia. by rewrite Z.max_r by lia. }
    rewrite <- Hci, <- Hta in *. clear -Hout Hc2 Hci Hl Hs.
    cbn. rewrite Hci. destruct (Z.ltb_spec (isa_LastIncludedIndex args) (commitIndex rf)); [lia | done].
Qed.
Lemma installed_ok now rf args :
  log_ok rf -> commit_ok rf -> snapshotIndex rf < isa_LastIncludedIndex args ->
  let rf1 := installed now rf args in log_ok rf1 /\ commit_ok rf1.
Proof.
  intros Hok [Hc1 Hc2] Hlt rf1. pose proof (adopted_frame now rf args) as (Hl & Hs & _).
  subst rf1. unfold installed, log_ok, commit_ok, lastIndex in *. cbn. rewrite Hl, Hs.
  set (k := Z.to_nat (isa_LastIncludedIndex args - snapshotIndex rf)).
  destruct (decide (k <= length (log rf))%nat) as [Hk|Hk].
  - split; [|rewrite length_drop; lia].
    replace (isa_LastIncludedIndex args + 1) with (snapshotIndex rf + 1 + Z.of_nat k) by lia.
    by apply consecutive_drop.
  - rewrite drop_ge by lia. split; [apply consecutive_nil | cbn; lia].
Qed.

Lemma installSnapshot_cases now rf args reply :
  log_ok rf -> commit_ok rf -> consistent rf args ->
  exists rf' reply',
    InstallSnapshotRequestHandler now rf args reply = Done (rf', reply')
    /\ log_ok rf' /\ commit_ok rf' /\ persisted rf' /\ commitIndex rf <= commitIndex rf'
    /\ isr_Term reply' = currentTerm rf' /\ isr_ServerId reply' = me rf
    /\ (isa_Term args < currentTerm rf \/ isa_LastIncludedIndex args <= snapshotIndex rf ->
         log rf' = log rf /\ snapshotIndex rf' = snapshotIndex rf
         /\ currentTerm rf' = currentTerm rf /\ pendingPuts rf' = pendingPuts rf)
    /\ (currentTerm rf <= isa_Term args -> snapshotIndex rf < isa_LastIncludedIndex args ->
         currentTerm rf' = isa_Term args
         /\ snapshotIndex rf' = isa_LastIncludedIndex args
         /\ snapshotTerm rf' = isa_LastIncludedTerm args /\ snapshot rf' = isa_Snapshot args
         /\ log rf' = drop (Z.to_nat (isa_LastIncludedIndex args - snapshotIndex rf)) (log rf)
         /\ commitIndex rf' = Z.max (commitIndex rf) (isa_LastIncludedIndex args)
         /\ pendingPuts rf' = pendingPuts rf ++ [[snapshotMsg rf']]).
Proof.
  intros Hok Hc Hcons.
  destruct (decide (currentTerm rf <= isa_Term args /\ snapshotIndex rf < isa_LastIncludedIndex args))
    as [[Ht Hlt]|Hno].
  - destruct (installSnapshot_eval now rf args reply Hok Hc Hcons ltac:(lia) Hlt) as (r & Hid & Hrt & ->).
    destruct (installed_ok now rf args Hok Hc Hlt) as [Hok1 Hc1].
    pose proof (adopted_frame now rf args) as (Hl & Hs & Hci & Hterm & Hpp).
    eexists _, r. split; [reflexivity |]. split; [exact Hok1 |]. split; [exact Hc1 |].
    split; [apply persist_persisted |]. unfold installed in *. cbn in *.
    rewrite Hl, Hs, Hterm, Hpp, Hid, Hrt. split; [lia |]. split; [lia |]. split; [done |].
    split; [lia |]. intros _ _. repeat split; try done; lia.
  - unfold InstallSnapshotRequestHandler. destruct Hcons as [Hcs _].
    destruct (Z.eqb_spec (snapshotIndex rf) (isa_LastIncludedIndex args)) as [Heq|_];
      [rewrite (Hcs Heq), Z.eqb_refl|]; cbn [andb negb].
    all: destruct (Z.ltb_spec (isa_Term args) (currentTerm rf));
      [| change (snapshotIndex (rf <| lastHeartbeatTime := now |>)) with (snapshotIndex rf);
         destruct (Z.leb_spec (isa_LastIncludedIndex args) (snapshotIndex rf)); [|lia]].
    all: eexists _, _; split; [reflexivity |]; split; [exact Hok |]; split; [exact Hc |];
      split; [apply persist_persisted |]; cbn; repeat split; try done; lia.
Qed.

(** What the handler refuses leaves the peer as it is: a stale leader's request
    altogether, an old snapshot of a current leader but for the heartbeat time. *)
Lemma installSnapshot_refused now rf args reply rf' reply' :
  InstallSnapshotRequestHandler now rf args reply = Done (rf', reply') ->
  (isa_Term args < currentTerm rf -> rf' = persist rf)
  /\ (currentTerm rf <= isa_Term args -> isa_LastIncludedIndex args <= snapshotIndex rf ->
       rf' = persist (rf <| lastHeartbeatTime := now |>)).
Proof.
  unfold InstallSnapshotRequestHandler. intros Hrun. destruct (_ && _); [done |].
  destruct (Z.ltb_spec (isa_Term args) (currentTerm rf)).
  { injection Hrun as <- _. split; [done | lia]. }
  split; [lia |]. intros _ Hle. change (snapshotIndex (rf <| lastHeartbeatTime := now |>)) with (snapshotIndex rf) in Hrun.
  destruct (Z.leb_spec (isa_LastIncludedIndex args) (snapshotIndex rf)); [|lia]. by injection Hrun as <- _.
Qed.

(** C17: on a well-formed peer whose log agrees with the leader's snapshot, the
    InstallSnapshot handler never reaches one of its three panics.  A stale leader's
    request changes nothing of the peer; an old snapshot from a current leader resets
    the heartbeat time and nothing else (its term is not adopted either).  Otherwise
    the leader's term is adopted, the snapshot is installed and handed over, the entries
    it covers are dropped and the later ones kept, and the commit index covers it.
    The peer stays well formed and persisted. *)
Theorem InstallSnapshotRequestHandler_spec now rf args reply :
  log_ok rf -> commit_ok rf -> consistent rf args ->
  exists rf' reply',
    InstallSnapshotRequestHandler now rf args reply = Done (rf', reply')
    /\ log_ok rf' /\ commit_ok rf' /\ persisted rf' /\ commitIndex rf <= commitIndex rf'
    /\ isr_Term reply' = currentTerm rf' /\ isr_ServerId reply' = me rf
    /\ (isa_Term args < currentTerm rf -> rf' = persist rf)
    /\ (currentTerm rf <= isa_Term args -> isa_LastIncludedIndex args <= snapshotIndex rf ->
         rf' = persist (rf <| lastHeartbeatTime := now |>))
    /\ (currentTerm rf <= isa_Term args -> snapshotIndex rf < isa_LastIncludedIndex args ->
         currentTerm rf' = isa_Term args
         /\ snapshotIndex rf' = isa_LastIncludedIndex args
         /\ snapshotTerm rf' = isa_LastIncludedTerm args /\ snapshot rf' = isa_Snapshot args
         /\ log rf' = drop (Z.to_nat (isa_LastIncludedIndex args - snapshotIndex rf)) (log rf)
         /\ commitIndex rf' = Z.max (commitIndex rf) (isa_LastIncludedIndex args)
         /\ pendingPuts rf' = pendingPuts rf ++ [[snapshotMsg rf']]).
Proof.
  intros Hok Hc Hcons.
  destruct (installSnapshot_cases now rf args reply Hok Hc Hcons)
    as (rf' & r & Hrun & Hok' & Hc' & Hp & Hle & Ht & Hid & _ & Hinst).
  destruct (installSnapshot_refused now rf args reply rf' r Hrun) as [Hstale Hold].
  exists rf', r. by split_and!.
Qed.

(** When a delayed InstallSnapshot arrives at a
    peer that has already committed past it, the peer hands the service the old
    snapshot alone.  Its commit index stays ahead, and the committed entries between
    the snapshot and the commit index are not sent again. *)
Theorem installSnapshot_no_resend now rf args reply :
  log_ok rf -> commit_ok rf -> consistent rf args -> currentTerm rf <= isa_Term args ->
  snapshotIndex rf < isa_LastIncludedIndex args < commitIndex rf ->
  exists rf' reply' m,
    InstallSnapshotRequestHandler now rf args reply = Done (rf', reply')
    /\ commitIndex rf' = commitIndex rf
    /\ pendingPuts rf' = pendingPuts rf ++ [[m]]
    /\ SnapshotValid m = true /\ SnapshotIndex m = isa_LastIncludedIndex args + 1
    /\ SnapshotIndex m <= commitIndex rf.
Proof.
  intros Hok Hc Hcons Ht Hlt.
  destruct (installSnapshot_cases now rf args reply Hok Hc Hcons)
    as (rf' & r & Hrun & _ & _ & _ & _ & _ & _ & _ & Hinst).
  destruct (Hinst Ht ltac:(lia)) as (_ & Hs & _ & _ & _ & Hci & Hpp).
  exists rf', r, (snapshotMsg rf'). rewrite Hci. cbn. rewrite Hs. repeat split; try done; lia.
Qed.

(** The leader's bookkeeping for a peer never moves back when an InstallSnapshot
    answer arrives, whatever its age: either nothing changes, or the peer's match
    index rises to the snapshot and its next index is right after it. *)
Theorem InstallSnapshotResponseHandler_spec rf args reply rf' :
  InstallSnapshotResponseHandler rf args reply = Done rf' ->
  currentTerm rf <= currentTerm rf' /\ persisted rf' /\ log rf' = log rf
  /\ ((nextIndex rf' = nextIndex rf /\ matchIndex rf' = matchIndex rf)
      \/ exists m, matchIndex rf !! Z.to_nat (isr_ServerId reply) = Some m
           /\ m < isa_LastIncludedIndex args
           /\ currentTerm rf = isa_Term args /\ currentTerm rf = isr_Term reply
           /\ nextIndex rf' = <[Z.to_nat (isr_ServerId reply) := isa_LastIncludedIndex args + 1]> (nextIndex rf)
           /\ matchIndex rf' = <[Z.to_nat (isr_ServerId reply) := isa_LastIncludedIndex args]> (matchIndex rf)).
Proof.
  unfold InstallSnapshotResponseHandler. intros Hrun.
  pose proof (toFollower_frame (isr_Term reply) rf) as (Hl & _ & _ & _ & _ & _ & _ & _ & Hni & Hmi & _).
  pose proof (toFollower_term (isr_Term reply) rf) as Htt.
  destruct (Z.eqb_spec (currentTerm rf) (isa_Term args)), (Z.ltb_spec (isr_Term reply) (currentTerm rf));
    cbn [negb orb] in Hrun;
    try (go_simpl; simplify_eq; split; [done |]; split; [apply persist_persisted |];
         split; [done |]; by left).
  destruct (Z.ltb_spec (currentTerm rf) (isr_Term reply)).
  { go_simpl. simplify_eq. cbn. split; [lia |]. split; [apply persist_persisted |].
    split; [done |]. by left. }
  apply go_bind_Done in Hrun as (m & [? Hm]%go_index_Done & Hrun).
  destruct (Z.leb_spec (isa_LastIncludedIndex args) m).
  { go_simpl. simplify_eq. split; [done |]. split; [apply persist_persisted |].
    split; [done |]. by left. }
  apply go_bind_Done in Hrun as (ni & [_ ->]%go_update_inv & Hrun).
  apply go_bind_Done in Hrun as (mi & [_ ->]%go_update_inv & Hrun).
  go_simpl. simplify_eq. split; [done |]. split; [apply persist_persisted |]. split; [done |].
  right. exists m. repeat split; try done; lia.
Qed.
End snapshot_facts.
