(* ===== verification/RaftNode.v ===== *)
(** The interface of a peer: [Start] and [Make] of [src/raft/raft.go]. *)
From S2P Require Import Prelude Persister RaftTypes RaftTools RaftPersist RaftLog RaftLogFacts.
From S2P Require Import RaftReplication RaftElection RaftAppend RaftSnapshot.

Section node.
Context {C : Type} `{GobCodec C}.
Implicit Types (rf : Raft C).

(** The critical section of [Start].  On a leader the code then unlocks and calls
    [leaderSendAppendEntriesRPC], a later step. *)
Definition Start rf (command : C) : go (Raft C * (Z * Z * bool)) :=
  let isLeader := role rf =? Leader in
  if isLeader then
    let index := match last (log rf) with
                 | Some e => le_Index e + 1
                 | None => snapshotIndex rf + 1
                 end in
    let rf := rf <| log := log rf ++ [mkLogEntry (currentTerm rf) index command] |> in
    let term := currentTerm rf in
    mi ← go_update (matchIndex rf) (me rf) index;
    ni ← go_update (nextIndex rf) (me rf) (index + 1);
    let rf := rf <| matchIndex := mi |> <| nextIndex := ni |> in
    mret (persist rf, (index + 1, term, isLeader))
  else mret (rf, (-1, 0, isLeader)).

(** [putApplyChBuffer] called synchronously by [Make], before the goroutine that
    empties the buffer is started: a full buffer is waited for forever. *)
Definition putBeforeReader rf (msgs : list (ApplyMsg C)) : go (Raft C) :=
  match applyChBuffer rf with
  | [] => mret (rf <| applyChBuffer := msgs |>)
  | _ => Hang "putApplyChBuffer"
  end.

(** The loop that hands over the committed part of the restored log. *)
Fixpoint replayLoop (l : list (LogEntry C)) rf : go (Raft C) :=
  match l with
  | [] => mret rf
  | e :: l' =>
    if commitIndex rf <? le_Index e then mret rf
    else
      rf ← putBeforeReader rf [commandMsg e];
      replayLoop l' rf
  end.

(** The struct once [Make] has assigned its fields: zero values except for those
    assigned before [readPersist].  [now] and [rnd] are the clock and [rand.Intn(100)]. *)
Definition initial (npeers : nat) (id : Z) (ps : Persister) (now rnd : Z) : Raft C :=
  mkRaft npeers ps id 0 0 (-1) [] (-1) (-1) [] [] Follower now (200 + rnd) 0 0 false [] [] [] (-1) 0.

Definition Make (npeers : nat) (id : Z) (ps : Persister) (now rnd : Z) : go (Raft C) :=
  let rf := initial npeers id ps now rnd in
  let rf := readPersist (ReadRaftState ps) rf in
  let rf := readPersistSnapshot (ReadSnapshot ps) rf in
  let rf := rf <| commitIndex := snapshotIndex rf |> in
  let rf := rf <| lastApplied := commitIndex rf |> in
  rf ← (if negb (snapshotIndex rf =? -1)
        then putBeforeReader rf [snapshotMsg rf] else mret rf);
  replayLoop (log rf) rf.
End node.

(** ** Properties *)

Section node_facts.
Context {C : Type} `{GobCodec C}.
Implicit Types (rf : Raft C).

(** [Start] on a leader appends one entry of the current term at the next index,
    reports that index in the service's numbering, keeps the log consecutive, and
    persists before it returns; on any other role it changes nothing and says so. *)
Theorem Start_spec rf command :
  log_ok rf -> 0 <= me rf < len (matchIndex rf) -> length (nextIndex rf) = length (matchIndex rf) ->
  exists rf' index term isLeader,
    Start rf command = Done (rf', (index, term, isLeader))
    /\ (isLeader = true <-> role rf = Leader)
    /\ (isLeader = false -> rf' = rf /\ index = -1 /\ term = 0)
    /\ (isLeader = true ->
        index = lastIndex rf + 2 /\ term = currentTerm rf
        /\ log rf' = log rf ++ [mkLogEntry term (lastIndex rf + 1) command]
        /\ log_ok rf' /\ lastIndex rf' = lastIndex rf + 1 /\ persisted rf'
        /\ matchIndex rf' = <[Z.to_nat (me rf) := lastIndex rf + 1]> (matchIndex rf)
        /\ nextIndex rf' = <[Z.to_nat (me rf) := lastIndex rf + 2]> (nextIndex rf)).
Proof.
  intros Hok Hme Hlen. unfold Start.
  destruct (Z.eqb_spec (role rf) Leader) as [Hr|Hr].
  2: { eexists _, _, _, _. split; [reflexivity |]. repeat split; done. }
  assert (match last (log rf) with Some e => le_Index e + 1 | None => snapshotIndex rf + 1 end
          = lastIndex rf + 1) as ->.
  { pose proof (lastIndex_spec rf Hok) as Hl. unfold lastIndex, getLastLogIndexAndTerm in *.
    destruct (last (log rf)); cbn in Hl; lia. }
  cbn [matchIndex nextIndex me set_field].
  rewrite !go_update_Done by (cbn; lia). go_simpl.
  eexists _, _, _, _. split; [reflexivity |]. split; [done |]. split; [done |]. intros _.
  split; [lia |]. split; [done |]. split; [done |].
  split; [apply consecutive_snoc; [exact Hok | cbn; unfold lastIndex; lia] |].
  split; [unfold lastIndex; cbn; rewrite length_app; cbn; lia |].
  split; [apply persist_persisted |]. split; [done |].
  cbn. by replace (lastIndex rf + 1 + 1) with (lastIndex rf + 2) by lia.
Qed.

(** A peer as [Make] leaves it, except for the buffer. *)
Definition fresh_ok rf : Prop :=
  role rf = Follower /\ commitIndex rf = snapshotIndex rf /\ lastApplied rf = snapshotIndex rf
  /\ pendingPuts rf = [].

(** The peer that [Make] builds from the storage of [old], before it hands anything
    over. *)
Definition restored (npeers : nat) (id : Z) (old : Raft C) (now rnd : Z) : Raft C :=
  mkRaft npeers (persister old) id 0 (currentTerm old) (votedFor old) (log old)
    (snapshotIndex old) (snapshotIndex old) [] [] Follower now (200 + rnd) 0 0 false [] []
    (snapshot old) (snapshotIndex old) (snapshotTerm old).

Lemma Make_restored `{!GobLaws C} npeers id old now rnd :
  persisted old ->
  let r := restored npeers id old now rnd in
  Make npeers id (persister old) now rnd =
    if snapshotIndex old =? -1 then replayLoop (log old) r
    else replayLoop (log old) (r <| applyChBuffer := [snapshotMsg r] |>).
Proof.
  intros Hp r. unfold Make. rewrite readPersist_restores, ReadSnapshot_persisted by done.
  unfold readPersistSnapshot.
  match goal with |- context [set_field lastApplied ?f ?x] =>
    replace (set_field lastApplied f x) with r by reflexivity end.
  change (snapshotIndex r) with (snapshotIndex old).
  destruct (snapshotIndex old =? -1); reflexivity.
Qed.

(** Nothing in a well-formed log is covered by the snapshot. *)
Lemma replayLoop_ok rf old :
  log_ok old -> commitIndex rf = snapshotIndex old -> replayLoop (log old) rf = Done rf.
Proof.
  unfold log_ok. intros Hok Hc. destruct (log old) as [|e l]; [done |].
  cbn [replayLoop]. rewrite Hc. apply consecutive_cons in Hok as [Hi _].
  by destruct (Z.ltb_spec (snapshotIndex old) (le_Index e)); [|lia].
Qed.

(** C18: a restart loses nothing that was persisted: [Make] on the storage of a
    well-formed peer returns (its two hand-over loops cannot block), restores term,
    vote, log and snapshot, starts as a follower whose commit index is the snapshot's,
    and queues the snapshot, if there is one, as the only message. *)
Theorem Make_restores `{!GobLaws C} npeers id old now rnd :
  log_ok old -> persisted old ->
  exists rf, Make npeers id (persister old) now rnd = Done rf
    /\ fresh_ok rf /\ peers rf = npeers /\ me rf = id /\ dead rf = 0
    /\ currentTerm rf = currentTerm old /\ votedFor rf = votedFor old /\ log rf = log old
    /\ snapshotIndex rf = snapshotIndex old /\ snapshotTerm rf = snapshotTerm old
    /\ snapshot rf = snapshot old /\ log_ok rf /\ persisted rf
    /\ applyChBuffer rf = (if snapshotIndex old =? -1 then [] else [snapshotMsg rf]).
Proof.
  intros Hok Hp. rewrite Make_restored by done. cbn zeta.
  destruct (snapshotIndex old =? -1); rewrite replayLoop_ok by done;
    eexists; (split; [reflexivity |]); cbn; repeat split; solve [done | apply Hok | apply Hp].
Qed.

(** If the stored log still holds an
    entry that its snapshot covers, [Make] never returns: the snapshot fills the
    buffer, and the entry is waited for with no reader started yet. *)
Theorem Make_hangs `{!GobLaws C} npeers id old now rnd e l :
  persisted old -> snapshotIndex old <> -1 -> log old = e :: l ->
  le_Index e <= snapshotIndex old ->
  Make npeers id (persister old) now rnd = Hang "putApplyChBuffer".
Proof.
  intros Hp Hne Hl Hle. rewrite Make_restored by done. cbn zeta.
  destruct (Z.eqb_spec (snapshotIndex old) (-1)); [done |]. rewrite Hl. cbn.
  by destruct (Z.ltb_spec (snapshotIndex old) (le_Index e)); [lia |].
Qed.

(** A peer that starts on an empty storage. *)
Definition fresh (npeers : nat) (id now rnd : Z) : Raft C := initial npeers id MakePersister now rnd.

Lemma Make_fresh npeers id now rnd :
  Make npeers id MakePersister now rnd = Done (fresh npeers id now rnd).
Proof. reflexivity. Qed.

(** A candidate that learns of a newer term
    from a vote reply adopts it in memory only; a restart right after it comes back
    with the old term. *)
Theorem response_term_not_persisted `{!GobLaws C} rf args reply now rnd :
  log_ok rf -> persisted rf -> role rf = Candidate ->
  currentTerm rf <= rva_Term args -> currentTerm rf < rvr_Term reply ->
  exists rf' rf'', RequestVoteResponseHandler rf args reply = (rf', false)
    /\ currentTerm rf' = rvr_Term reply
    /\ Make (peers rf) (me rf) (persister rf') now rnd = Done rf''
    /\ currentTerm rf'' = currentTerm rf /\ currentTerm rf'' < currentTerm rf'.
Proof.
  intros Hok Hp Hr Ha Hlt. unfold RequestVoteResponseHandler. rewrite Hr. cbn [negb].
  destruct (Z.ltb_spec (rvr_Term reply) (currentTerm rf)); [lia |].
  destruct (Z.ltb_spec (rva_Term args) (currentTerm rf)); [lia |].
  destruct (Z.ltb_spec (currentTerm rf) (rvr_Term reply)); [|lia].
  pose proof (toFollower_frame (rvr_Term reply) rf) as (_ & _ & _ & _ & _ & _ & Hps & _).
  pose proof (toFollower_term (rvr_Term reply) rf) as Ht.
  exists (toFollower (rvr_Term reply) rf). rewrite Hps, Ht.
  rewrite Make_restored by done. cbn zeta.
  destruct (snapshotIndex rf =? -1); rewrite replayLoop_ok by done;
    eexists; split; [done | | done |]; (split; [lia |]); (split; [reflexivity |]); cbn; lia.
Qed.
End node_facts.
