(* ===== verification/RaftCluster.v ===== *)
(** Several peers and the network between them.

    The goroutines of the code are threads: one critical section of a goroutine (from
    taking the mutex to giving it up) is one step, and a goroutine that unlocks and
    locks again is two threads in a row, so that anything may happen in between.  A
    remote call is in flight from the moment it is issued; the request is executed at
    most once, and the caller's response handler runs exactly once, on the reply or, if
    the call failed, on a reply whose fields are all zero, as in the code, where the
    result of [Call] is ignored.

    A crash takes the calls that the peer has in flight with it: its ends are disabled,
    and the network drops what it reads from a disabled end.  A request that is already
    behind this test ([readEndnameInfo] of labrpc.go) can still be executed after the
    crash; here it is executed before it or not at all, so that a run in which such a
    request arrives after the restart of its sender is not one of this model. *)
From S2P Require Import Prelude Persister RaftTypes RaftTools RaftPersist RaftLog RaftLogFacts.
From S2P Require Import RaftReplication RaftElection RaftAppend RaftSnapshot RaftNode.

(** ** Threads, calls and the state of the cluster *)

Inductive thread :=
| ThTicker                       (* at the head of the loop of [ticker] *)
| ThCandidate                    (* about to call [toCandidate] *)
| ThToLeader (term : Z)          (* about to call [toLeader]; the term of the counted votes *)
| ThLeaderTicker                 (* at the head of the loop of [leaderTicker] *)
| ThLeaderUpdate                 (* about to call [leaderUpdateCommitIndex] *)
| ThLeaderSend                   (* about to call [leaderSendAppendEntriesRPC] *)
| ThStartSend.                   (* the same call, made by [Start] *)

Section cluster.
Context {C : Type} `{GobCodec C}.

(** A call, and the reply once its handler has run. *)
Inductive rpc :=
| CallRV (args : RequestVoteArgs) (reply : option RequestVoteReply)
| CallAE (args : AppendEntriesArgs C) (reply : option AppendEntriesReply)
| CallIS (args : InstallSnapshotArgs) (reply : option InstallSnapshotReply).

Record call := mkCall { c_src : nat; c_dst : nat; c_rpc : rpc }.

(** [granted] and [elected] record history: the votes given (voter, term, candidate),
    and the peers that became leader (term, peer).  No step reads them. *)
Record Cluster := mkCluster {
  nodes : list (Raft C);
  threads : list (nat * thread);
  calls : list call;
  granted : list (nat * Z * Z);
  elected : list (Z * nat) }.

#[export] Instance eta_Cluster : Eta Cluster := fun s =>
  mkCluster (nodes s) (threads s) (calls s) (granted s) (elected s).

(** ** One step of a goroutine *)

Definition outgoing_rpc (o : outgoing C) : rpc :=
  match o with OutAppend args => CallAE args None | OutInstall args => CallIS args None end.

Definition sends (reqs : list (Z * outgoing C)) : list (Z * rpc) :=
  (fun '(i, o) => (i, outgoing_rpc o)) <$> reqs.
Definition asks (reqs : list (Z * RequestVoteArgs)) : list (Z * rpc) :=
  (fun '(i, args) => (i, CallRV args None)) <$> reqs.

(** The new state of the peer, what the goroutine does next, and the calls it makes. *)
Definition run_thread (th : thread) (now rnd : Z) (rf : Raft C)
    : go (Raft C * list thread * list (Z * rpc)) :=
  match th with
  | ThTicker =>
    match ticker now rf with
    | TickExit => mret (rf, [], [])
    | TickAgain | TickSleep => mret (rf, [ThTicker], [])
    | TickAct => mret (rf, [ThCandidate], [])
    end
  | ThCandidate =>
    let out := toCandidate now rnd rf in
    mret (out.1, [ThTicker], asks out.2)
  | ThToLeader _ =>
    rf ← toLeader rf;
    mret (rf, [ThLeaderTicker], [])
  | ThLeaderTicker =>
    match leaderTicker rf with
    | TickAct => mret (rf, [ThLeaderUpdate], [])
    | _ => mret (rf, [], [])
    end
  | ThLeaderUpdate =>
    rf ← leaderUpdateCommitIndex rf;
    mret (rf, [ThLeaderSend], [])
  | ThLeaderSend =>
    reqs ← leaderSendAppendEntriesRPC rf;
    mret (rf, [ThLeaderTicker], sends reqs)
  | ThStartSend =>
    reqs ← leaderSendAppendEntriesRPC rf;
    mret (rf, [], sends reqs)
  end.

(** The server side of a call, on the zero reply that labrpc allocates. *)
Definition serve (now : Z) (rf : Raft C) (r : rpc) : go (Raft C * rpc) :=
  match r with
  | CallRV args _ =>
    let out := RequestVoteRequestHandler now rf args zero_RequestVoteReply in
    mret (out.1, CallRV args (Some out.2))
  | CallAE args _ =>
    '(rf, reply) ← AppendEntriesRequestHandler now rf args zero_AppendEntriesReply;
    mret (rf, CallAE args (Some reply))
  | CallIS args _ =>
    '(rf, reply) ← InstallSnapshotRequestHandler now rf args zero_InstallSnapshotReply;
    mret (rf, CallIS args (Some reply))
  end.

(** The caller's side, when [Call] has returned [ok]. *)
Definition respond (ok : bool) (rf : Raft C) (r : rpc) : go (Raft C * list thread) :=
  match r with
  | CallRV args reply =>
    let reply := if ok then default zero_RequestVoteReply reply else zero_RequestVoteReply in
    let out := RequestVoteResponseHandler rf args reply in
    mret (out.1, if out.2 then [ThToLeader (currentTerm out.1)] else [])
  | CallAE args reply =>
    let reply := if ok then default zero_AppendEntriesReply reply else zero_AppendEntriesReply in
    rf ← AppendEntriesResponseHandler rf args reply;
    mret (rf, [])
  | CallIS args reply =>
    let reply := if ok then default zero_InstallSnapshotReply reply else zero_InstallSnapshotReply in
    rf ← InstallSnapshotResponseHandler rf args reply;
    mret (rf, [])
  end.

Definition executed (r : rpc) : bool :=
  match r with
  | CallRV _ o => bool_decide (is_Some o)
  | CallAE _ o => bool_decide (is_Some o)
  | CallIS _ o => bool_decide (is_Some o)
  end.

(** ** Steps of the cluster *)

Inductive action :=
| ARun (k : nat) (now rnd : Z)          (* the [k]-th thread runs *)
| ADeliver (k : nat) (now : Z)          (* the server executes the [k]-th call *)
| AReturn (k : nat) (ok : bool)         (* the [k]-th call returns *)
| AStart (i : nat) (command : C)        (* the service calls [Start] on peer [i] *)
| ASnapshot (i : nat) (index : Z) (snap : bytes)
| ACrash (i : nat) (now rnd : Z)        (* peer [i] is killed and made anew *)
| AKill (i : nat).

(** The history entries of a step. *)
Definition vote_of (i : nat) (r : rpc) : list (nat * Z * Z) :=
  match r with
  | CallRV args (Some reply) =>
    if rvr_VoteGranted reply then [(i, rvr_Term reply, rva_CandidateId args)] else []
  | _ => []
  end.
Definition self_vote (i : nat) (th : thread) (rf' : Raft C) : list (nat * Z * Z) :=
  match th with ThCandidate => [(i, currentTerm rf', votedFor rf')] | _ => [] end.
Definition election_of (i : nat) (th : thread) (rf' : Raft C) : list (Z * nat) :=
  match th with ThToLeader _ => [(currentTerm rf', i)] | _ => [] end.

Definition of_go {A} (m : go A) : option A := match m with Done a => Some a | _ => None end.

Definition set_node (i : nat) (rf : Raft C) (s : Cluster) : Cluster :=
  s <| nodes := <[i := rf]> (nodes s) |>.

(** [None]: the step is not possible, or it panics. *)
Definition cstep (a : action) (s : Cluster) : option Cluster :=
  match a with
  | ARun k now rnd =>
    '(i, th) ← threads s !! k;
    rf ← nodes s !! i;
    '(rf', ths, reqs) ← of_go (run_thread th now rnd rf);
    Some (mkCluster (<[i := rf']> (nodes s))
      (delete k (threads s) ++ ((fun th => (i, th)) <$> ths))
      (calls s ++ ((fun '(j, r) => mkCall i (Z.to_nat j) r) <$> reqs))
      (self_vote i th rf' ++ granted s)
      (election_of i th rf' ++ elected s))
  | ADeliver k now =>
    c ← calls s !! k;
    if executed (c_rpc c) then None else
    rf ← nodes s !! c_dst c;
    '(rf', r) ← of_go (serve now rf (c_rpc c));
    Some ((set_node (c_dst c) rf' s)
      <| calls := <[k := mkCall (c_src c) (c_dst c) r]> (calls s) |>
      <| granted := vote_of (c_dst c) r ++ granted s |>)
  | AReturn k ok =>
    c ← calls s !! k;
    if ok && negb (executed (c_rpc c)) then None else
    rf ← nodes s !! c_src c;
    '(rf', ths) ← of_go (respond ok rf (c_rpc c));
    Some ((set_node (c_src c) rf' s)
      <| threads := threads s ++ ((fun th => (c_src c, th)) <$> ths) |>
      <| calls := delete k (calls s) |>)
  | AStart i command =>
    rf ← nodes s !! i;
    '(rf', (_, _, isLeader)) ← of_go (Start rf command);
    Some ((set_node i rf' s)
      <| threads := threads s ++ (if isLeader : bool then [(i, ThStartSend)] else []) |>)
  | ASnapshot i index snap =>
    rf ← nodes s !! i;
    rf' ← of_go (Snapshot rf index snap);
    Some (set_node i rf' s)
  | ACrash i now rnd =>
    rf ← nodes s !! i;
    rf' ← of_go (Make (length (nodes s)) (Z.of_nat i) (persister rf) now rnd);
    Some ((set_node i rf' s)
      <| threads := filter (fun t => t.1 <> i) (threads s) ++ [(i, ThTicker)] |>
      <| calls := filter (fun c => c_src c <> i) (calls s) |>)
  | AKill i =>
    rf ← nodes s !! i;
    Some (set_node i (Kill rf) s)
  end.

Fixpoint crun (l : list action) (s : Cluster) : option Cluster :=
  match l with [] => Some s | a :: l => s' ← cstep a s; crun l s' end.

(** [n] peers started on empty storage. *)
Definition boot (n : nat) : Cluster :=
  mkCluster ((fun i => fresh n (Z.of_nat i) 0 0) <$> seq 0 n)
    ((fun i => (i, ThTicker)) <$> seq 0 n) [] [] [].

Inductive reachable (n : nat) : Cluster -> Prop :=
| reach_boot : reachable n (boot n)
| reach_step s a s' : reachable n s -> cstep a s = Some s' -> reachable n s'.

Lemma reachable_run n s l s' : reachable n s -> crun l s = Some s' -> reachable n s'.
Proof.
  revert s; induction l as [|a l IH]; intros s Hs Hr; cbn in Hr; simplify_eq; [done |].
  destruct (cstep a s) as [s1|] eqn:E; [|done]. eapply IH; [|exact Hr]. by eapply reach_step.
Qed.
End cluster.
Arguments rpc C : clear implicits.
Arguments call C : clear implicits.
Arguments Cluster C : clear implicits.
Arguments action C : clear implicits.
