(* ===== verification/RaftSafety.v ===== *)
(** Elections across the cluster: what [RaftCluster.cstep] preserves, and where Raft's
    election safety depends on steps that the code does not rule out. *)
From S2P Require Import Prelude Persister RaftTypes RaftTools RaftPersist RaftLog RaftLogFacts.
From S2P Require Import RaftReplication RaftElection RaftAppend RaftSnapshot RaftNode RaftCluster.

(** Open the binds and the case distinctions of a computation known to return. *)
Ltac go_inv := repeat match goal with
  | H : (_ ≫= _) = Done _ |- _ => apply go_bind_Done in H as (? & ? & H)
  | H : mret _ = Done _ |- _ => injection H as <-
  | H : Done _ = Done _ |- _ => injection H as <-
  | H : Panic _ = Done _ |- _ => discriminate H
  | H : (_, _) = (_, _) |- _ => injection H as <- <-
  | H : context [match ?x with _ => _ end] |- _ => destruct x eqn:?
  end.

Section frames.
Context {C : Type} `{GobCodec C}.
Implicit Types (rf : Raft C).

(** The part of a peer that elections read and write. *)
Definition ballot rf := (me rf, peers rf, currentTerm rf, votedFor rf, voteCnt rf, role rf, persister rf).

Lemma followerHandleLog_ballot rf args reply rf' reply' :
  followerHandleLog rf args reply = Done (rf', reply') -> ballot rf' = ballot rf.
Proof. unfold followerHandleLog. intros Hr. go_inv; reflexivity. Qed.

Lemma sendCommitted_ballot rf p c rf' :
  sendCommittedLogChannel rf p c = Done rf' -> ballot rf' = ballot rf.
Proof. unfold sendCommittedLogChannel. intros Hr. go_inv; reflexivity. Qed.

Lemma followerUpdate_ballot rf lc rf' :
  followerUpdateCommitIndex rf lc = Done rf' -> ballot rf' = ballot rf.
Proof.
  unfold followerUpdateCommitIndex. intros Hr. destruct (lc <=? commitIndex rf).
  - go_inv. done.
  - by apply sendCommitted_ballot in Hr.
Qed.

Lemma leaderHandleLog_ballot rf args reply rf' :
  leaderHandleLog rf args reply = Done rf' -> ballot rf' = ballot rf.
Proof. unfold leaderHandleLog. intros Hr. go_inv; reflexivity. Qed.

(** The term and the vote that a restart would find. *)
Definition stored rf : Z * Z :=
  let r := readPersist (ReadRaftState (persister rf)) (fresh 0 0 0 0 : Raft C) in
  (currentTerm r, votedFor r).

(** What every step of a peer that is not an election step of its own does to its
    ballot: the term does not fall; within a term the vote and the count stay; a new
    term comes with no vote and the role of a follower. *)
Record evolves rf rf' : Prop := {
  ev_me : me rf' = me rf;
  ev_peers : peers rf' = peers rf;
  ev_term : currentTerm rf <= currentTerm rf';
  ev_same : currentTerm rf' = currentTerm rf ->
    votedFor rf' = votedFor rf /\ voteCnt rf' = voteCnt rf
    /\ (role rf' = role rf \/ role rf' = Follower);
  ev_new : currentTerm rf < currentTerm rf' -> role rf' = Follower /\ votedFor rf' = -1;
  ev_disk : persister rf' = persister rf \/ stored rf' = (currentTerm rf', votedFor rf') }.

Lemma stored_ballot rf rf' : ballot rf' = ballot rf -> stored rf' = stored rf.
Proof. unfold ballot, stored. intros [=]. by f_equal; f_equal; congruence. Qed.

Lemma stored_persist `{!GobLaws C} rf : stored (persist rf) = (currentTerm rf, votedFor rf).
Proof.
  unfold stored. rewrite (readPersist_restores (persist rf)) by apply persist_persisted. done.
Qed.

Lemma evolves_ballot rf rf' : ballot rf' = ballot rf -> evolves rf rf'.
Proof.
  intros Hb. pose proof (stored_ballot _ _ Hb). unfold ballot in Hb. simplify_eq.
  split; try congruence; try lia; by left.
Qed.

Lemma evolves_follower term rf rf' :
  ballot rf' = ballot (toFollower term rf) -> evolves rf rf'.
Proof.
  unfold ballot. intros [= Hm Hp Ht Hv Hc Hr Hps].
  pose proof (toFollower_frame term rf) as (_ & _ & _ & _ & Hfp & Hfm & Hfps & _ & _ & _ & _ & Hfc).
  rewrite toFollower_term in Ht. rewrite toFollower_vote in Hv. rewrite toFollower_role in Hr.
  split; try congruence; try lia.
  - intros Hs. rewrite Hv. destruct (Z.ltb_spec (currentTerm rf) term); [lia |].
    split; [done |]. split; [congruence | by right].
  - intros Hn. split; [done |]. rewrite Hv. destruct (Z.ltb_spec (currentTerm rf) term); [done | lia].
  - left. congruence.
Qed.

Lemma evolves_persist `{!GobLaws C} rf rf' : evolves rf rf' -> evolves rf (persist rf').
Proof. intros [? ? ? ? ? _]. split; try done. right. by rewrite stored_persist. Qed.
End frames.

(** ** The operations that are not election steps *)

Section evolving.
Context {C : Type} `{GobLaws C}.
Implicit Types (rf : Raft C).

Lemma evolves_refl rf : evolves rf rf.
Proof. by apply evolves_ballot. Qed.

Lemma AppendEntriesRequestHandler_evolves now rf args reply rf' reply' :
  AppendEntriesRequestHandler now rf args reply = Done (rf', reply') -> evolves rf rf'.
Proof.
  unfold AppendEntriesRequestHandler. intros Hr.
  destruct (aea_Term args <? currentTerm rf).
  { go_inv. apply evolves_persist, evolves_refl. }
  apply go_bind_Done in Hr as ([rf1 r1] & H1 & Hr). apply followerHandleLog_ballot in H1.
  destruct (negb (aer_Success r1)).
  { injection Hr as <- <-. eapply evolves_persist, evolves_follower. exact H1. }
  apply go_bind_Done in Hr as (rf2 & H2 & Hr). apply followerUpdate_ballot in H2.
  injection Hr as <- <-. eapply evolves_persist, evolves_follower. rewrite H2. exact H1.
Qed.

Lemma InstallSnapshotRequestHandler_evolves now rf args reply rf' reply' :
  InstallSnapshotRequestHandler now rf args reply = Done (rf', reply') -> evolves rf rf'.
Proof.
  unfold InstallSnapshotRequestHandler. intros Hr.
  destruct (_ && _); [done |].
  destruct (isa_Term args <? currentTerm rf).
  { go_inv. apply evolves_persist, evolves_refl. }
  set (rf1 := rf <| lastHeartbeatTime := now |>) in Hr.
  assert (ballot rf1 = ballot rf) as Hb by done.
  destruct (isa_LastIncludedIndex args <=? snapshotIndex rf1).
  { go_inv. by apply evolves_persist, evolves_ballot. }
  set (rf2 := if currentTerm rf1 <? isa_Term args then _ else _) in Hr.
  assert (forall r, ballot r = ballot rf2 -> evolves rf (persist r)) as Hev.
  { intros r Hbr. apply evolves_persist. subst rf2. destruct (_ <? _).
    - apply (evolves_follower (isa_Term args)). rewrite Hbr. unfold toFollower. subst rf1.
      change (currentTerm (rf <| lastHeartbeatTime := now |>)) with (currentTerm rf).
      by destruct (currentTerm rf <? isa_Term args).
    - by apply evolves_ballot. }
  clearbody rf2. destruct (_ =? -1).
  - destruct (_ <? _); [done |]. injection Hr as <- <-. by apply Hev.
  - apply go_bind_Done in Hr as (e & _ & Hr). destruct (negb _); [done |].
    apply go_bind_Done in Hr as (l & _ & Hr). injection Hr as <- <-. apply Hev. by destruct (_ <? _).
Qed.

Lemma AppendEntriesResponseHandler_evolves rf args reply rf' :
  AppendEntriesResponseHandler rf args reply = Done rf' -> evolves rf rf'.
Proof.
  unfold AppendEntriesResponseHandler. intros Hr. destruct (_ || _).
  { go_inv. apply evolves_persist, evolves_refl. }
  destruct (_ <? _).
  { go_inv. by eapply evolves_persist, evolves_follower. }
  apply go_bind_Done in Hr as (rf1 & H1 & Hr). apply leaderHandleLog_ballot in H1.
  go_inv. by apply evolves_persist, evolves_ballot.
Qed.

Lemma InstallSnapshotResponseHandler_evolves rf args reply rf' :
  InstallSnapshotResponseHandler rf args reply = Done rf' -> evolves rf rf'.
Proof.
  unfold InstallSnapshotResponseHandler. intros Hr. destruct (_ || _).
  { go_inv. apply evolves_persist, evolves_refl. }
  destruct (_ <? _).
  { go_inv. by eapply evolves_persist, evolves_follower. }
  apply go_bind_Done in Hr as (m & _ & Hr). destruct (_ <=? m).
  { go_inv. apply evolves_persist, evolves_refl. }
  apply go_bind_Done in Hr as (ni & _ & Hr). apply go_bind_Done in Hr as (mi & _ & Hr).
  injection Hr as <-. by apply evolves_persist, evolves_ballot.
Qed.

Lemma leaderUpdateCommitIndex_evolves rf rf' :
  leaderUpdateCommitIndex rf = Done rf' -> evolves rf rf'.
Proof.
  unfold leaderUpdateCommitIndex. intros Hr.
  destruct (_ && _); [go_inv; apply evolves_persist, evolves_refl |].
  apply go_bind_Done in Hr as (m & _ & Hr).
  destruct (m =? -1); [go_inv; apply evolves_persist, evolves_refl |].
  destruct (negb _); [go_inv; apply evolves_persist, evolves_refl |].
  apply go_bind_Done in Hr as (e & _ & Hr).
  destruct (_ =? _); [|go_inv; apply evolves_persist, evolves_refl].
  apply go_bind_Done in Hr as (rf1 & H1 & Hr). apply sendCommitted_ballot in H1.
  go_inv. by apply evolves_persist, evolves_ballot.
Qed.

Lemma Start_evolves rf command rf' r : Start rf command = Done (rf', r) -> evolves rf rf'.
Proof.
  unfold Start. intros Hr. destruct (role rf =? Leader); [|injection Hr as <- <-; apply evolves_refl].
  apply go_bind_Done in Hr as (mi & _ & Hr). apply go_bind_Done in Hr as (ni & _ & Hr).
  injection Hr as <- <-. by apply evolves_persist, evolves_ballot.
Qed.

Lemma Snapshot_evolves rf index snap rf' : Snapshot rf index snap = Done rf' -> evolves rf rf'.
Proof.
  unfold Snapshot, installCurRfSnapShot. intros Hr.
  destruct (_ =? -1); [go_inv; apply evolves_persist, evolves_refl |].
  apply go_bind_Done in Hr as (e & _ & Hr). apply go_bind_Done in Hr as (l & _ & Hr).
  apply go_bind_Done in Hr as (rest & _ & Hr). injection Hr as <-.
  by apply evolves_persist, evolves_ballot.
Qed.

Lemma Kill_evolves rf : evolves rf (Kill rf).
Proof. by apply evolves_ballot. Qed.
End evolving.

(** ** Calls that fail *)

Section failures.
Context {C : Type} `{GobLaws C}.
Implicit Types (rf : Raft C).

(** The code ignores the result of [Call] and hands the zero reply of a failed
    call to the response handler; in any term after the first this is harmless: the
    handler starts no election and leaves the peer as it is, except that it may save
    it again. *)
Theorem failed_call_ignored rf (r : rpc C) :
  0 < currentTerm rf ->
  respond false rf r = Done (rf, []) \/ respond false rf r = Done (persist rf, []).
Proof.
  intros Hpos. destruct r as [args o|args o|args o]; cbn [respond].
  - left. unfold RequestVoteResponseHandler. destruct (negb _); [done |].
    cbn [rvr_Term zero_RequestVoteReply]. by destruct (Z.ltb_spec 0 (currentTerm rf)); [|lia].
  - right. unfold AppendEntriesResponseHandler. cbn [aer_Term zero_AppendEntriesReply].
    by destruct (Z.ltb_spec 0 (currentTerm rf)); [|lia].
  - right. unfold InstallSnapshotResponseHandler. cbn [isr_Term zero_InstallSnapshotReply].
    destruct (Z.ltb_spec 0 (currentTerm rf)); [|lia]. by rewrite orb_true_r.
Qed.
End failures.
