(* ===== verification/RaftElectionSafety.v ===== *)
(** Election safety of the cluster of [RaftCluster]: an invariant over votes, terms on
    disk and in memory, calls in flight and vote counts. *)
From S2P Require Import Prelude Persister RaftTypes RaftTools RaftPersist RaftLog RaftLogFacts.
From S2P Require Import RaftReplication RaftElection RaftAppend RaftSnapshot RaftNode RaftCluster.
From S2P Require Import RaftSafety.

Section invariant.
Context {C : Type} `{GobLaws C} (n : nat).
Implicit Types (rf : Raft C) (s : Cluster C).

(** The votes peer [i] has given are of no later term than [T], and the vote of the
    term [T] is the one in the slot [v], unless becoming leader has erased it. *)
Definition slot s (i : nat) (T v : Z) : Prop :=
  forall t c, (i, t, c) ∈ granted s -> t <= T /\ (t = T -> v = c \/ (T, i) ∈ elected s).

(** A majority has voted for [i] in term [t]. *)
Definition quorum s (t : Z) (i : nat) : Prop :=
  exists vs : list nat, NoDup vs /\ (n / 2 + 1 <= length vs)%nat
    /\ forall j, j ∈ vs -> (j < n)%nat /\ (j, t, Z.of_nat i) ∈ granted s.

Definition rv_key (c : call C) : option (nat * nat * Z) :=
  match c_rpc c with
  | CallRV args _ => Some (c_src c, c_dst c, rva_Term args)
  | _ => None
  end.
Definition keys (l : list (call C)) := omap rv_key l.

#[export] Instance keys_proper : Proper ((≡ₚ) ==> (≡ₚ)) keys.
Proof. intros l1 l2 Hl. unfold keys. by rewrite Hl. Qed.

(** The votes a candidate has counted are votes of distinct peers, and no call in
    flight can bring one of them again. *)
Definition count_ok s (i : nat) rf : Prop :=
  role rf = Candidate -> exists counted : list nat,
    voteCnt rf = 1 + len counted /\ NoDup (i :: counted)
    /\ (forall j, j ∈ i :: counted -> (j < n)%nat /\ (j, currentTerm rf, Z.of_nat i) ∈ granted s)
    /\ forall d, (i, d, currentTerm rf) ∈ keys (calls s) -> d ∉ i :: counted.

Record node_ok s (i : nat) rf : Prop := {
  ok_me : me rf = Z.of_nat i;
  ok_peers : peers rf = n;
  ok_memory : slot s i (currentTerm rf) (votedFor rf);
  ok_disk : slot s i (stored rf).1 (stored rf).2;
  ok_behind : (stored rf).1 <= currentTerm rf;
  ok_elected : forall t, (t, i) ∈ elected s -> t <= (stored rf).1;
  ok_leader : role rf = Leader -> (currentTerm rf, i) ∈ elected s;
  ok_count : count_ok s i rf }.

Definition call_ok s (c : call C) : Prop :=
  match c_rpc c with
  | CallRV args reply =>
      rva_CandidateId args = Z.of_nat (c_src c)
      /\ (forall rf, nodes s !! c_src c = Some rf -> rva_Term args <= currentTerm rf)
      /\ forall r, reply = Some r -> rvr_VoteGranted r = true ->
           rvr_Term r = rva_Term args /\ (c_dst c < n)%nat
           /\ (c_dst c, rva_Term args, Z.of_nat (c_src c)) ∈ granted s
  | _ => True
  end.

Record inv s : Prop := {
  inv_length : length (nodes s) = n;
  inv_node : forall i rf, nodes s !! i = Some rf -> node_ok s i rf;
  inv_call : forall c, c ∈ calls s -> call_ok s c;
  inv_keys : NoDup (keys (calls s));
  inv_thread : forall i t, (i, ThToLeader t) ∈ threads s -> quorum s t i;
  inv_elected : forall t i, (t, i) ∈ elected s -> quorum s t i;
  inv_range : forall j t c, (j, t, c) ∈ granted s -> 0 <= c;
  inv_once : forall j t c1 c2, (j, t, c1) ∈ granted s -> (j, t, c2) ∈ granted s -> c1 = c2 }.

(** Two majorities for the same term share a voter. *)
Lemma quorum_unique s t i1 i2 :
  (forall j t c1 c2, (j, t, c1) ∈ granted s -> (j, t, c2) ∈ granted s -> c1 = c2) ->
  quorum s t i1 -> quorum s t i2 -> i1 = i2.
Proof.
  intros Honce (v1 & Hn1 & Hl1 & Hv1) (v2 & Hn2 & Hl2 & Hv2).
  destruct (decide (Exists (fun j => j ∈ v2) v1)) as [(j & Hj1 & Hj2)%Exists_exists|Hdis].
  { apply Hv1 in Hj1 as [_ Hj1]. apply Hv2 in Hj2 as [_ Hj2].
    apply Nat2Z.inj. eapply Honce; eassumption. }
  exfalso. assert (NoDup (v1 ++ v2)) as Hnd.
  { apply NoDup_app. split; [done |]. split; [|done]. intros j Hj1 Hj2. apply Hdis, Exists_exists. eauto. }
  assert (v1 ++ v2 ⊆ seq 0 n) as Hsub.
  { intros j [Hj|Hj]%elem_of_app; apply elem_of_seq; [apply Hv1 in Hj | apply Hv2 in Hj]; lia. }
  pose proof (submseteq_length _ _ (NoDup_submseteq _ _ Hnd Hsub)) as Hlen.
  rewrite length_app, length_seq in Hlen. div_lia.
Qed.

Lemma quorum_mono s s' t i : granted s ⊆ granted s' -> quorum s t i -> quorum s' t i.
Proof.
  intros Hg (vs & ? & ? & Hvs). exists vs. split; [done |]. split; [done |].
  intros j Hj. destruct (Hvs j Hj). split; [done |]. by apply Hg.
Qed.

(** ** Steps that leave the history alone *)

Lemma node_ok_mono s s' i rf :
  (forall t c, (i, t, c) ∈ granted s' -> (i, t, c) ∈ granted s) -> granted s ⊆ granted s' ->
  (forall t, (t, i) ∈ elected s' <-> (t, i) ∈ elected s) ->
  (forall d, (i, d, currentTerm rf) ∈ keys (calls s') -> (i, d, currentTerm rf) ∈ keys (calls s)) ->
  node_ok s i rf -> node_ok s' i rf.
Proof.
  intros Hg Hgs He Hk [? ? Hm Hd ? Hel Hl Hc]. split; try done.
  - intros t c Hv. rewrite He. by apply Hm, Hg.
  - intros t c Hv. rewrite He. by apply Hd, Hg.
  - intros t Ht. apply Hel. by apply He.
  - intros Hr. by apply He, Hl.
  - intros Hr. destruct (Hc Hr) as (cn & ? & ? & Hin & Hout). exists cn.
    split; [done |]. split; [done |]. split; [|intros d Hkd; by apply Hout, Hk].
    intros j Hj. destruct (Hin j Hj). split; [done |]. by apply Hgs.
Qed.

Lemma node_ok_evolves s i rf rf' : node_ok s i rf -> evolves rf rf' -> node_ok s i rf'.
Proof.
  intros [Hme Hp Hm Hd Hb Hel Hl Hc] [Eme Ep Et Es En Ed].
  assert (currentTerm rf' = currentTerm rf \/ currentTerm rf < currentTerm rf') as Hcase by lia.
  assert (slot s i (currentTerm rf') (votedFor rf')) as Hm'.
  { destruct Hcase as [Heq|Hlt].
    - destruct (Es Heq) as [-> _]. by rewrite Heq.
    - intros t c Hv. apply Hm in Hv as [Hv _]. split; lia. }
  assert (stored rf' = stored rf \/ stored rf' = (currentTerm rf', votedFor rf')) as Hst.
  { destruct Ed as [Ed|Ed]; [left | by right]. unfold stored. by rewrite Ed. }
  split; try congruence; try done.
  - destruct Hst as [-> | ->]; done.
  - destruct Hst as [-> | ->]; [lia | cbn; lia].
  - intros t Ht. apply Hel in Ht. destruct Hst as [-> | ->]; [lia | cbn; lia].
  - intros Hr. destruct Hcase as [Heq|Hlt]; [|by destruct (En Hlt) as [Hf _]; rewrite Hf in Hr].
    destruct (Es Heq) as (_ & _ & [Hr'|Hr']); [|by rewrite Hr' in Hr].
    rewrite Heq. apply Hl. congruence.
  - intros Hr. destruct Hcase as [Heq|Hlt]; [|by destruct (En Hlt) as [Hf _]; rewrite Hf in Hr].
    destruct (Es Heq) as (_ & Hvc & [Hr'|Hr']); [|by rewrite Hr' in Hr].
    rewrite Heq, Hvc. apply Hc. congruence.
Qed.

Lemma inv_set_node_gen s i rf' :
  inv s -> node_ok s i rf' ->
  (forall c args r, c ∈ calls s -> c_src c = i -> c_rpc c = CallRV args r ->
     rva_Term args <= currentTerm rf') ->
  inv (set_node i rf' s).
Proof.
  intros I Hok Hct. split; try apply I.
  - cbn. rewrite length_insert. apply I.
  - intros j rj. cbn. intros Hj. apply list_lookup_insert_Some in Hj as [(<- & <- & _)|[Hne Hj]].
    + by apply (node_ok_mono s).
    + apply (node_ok_mono s); try done. by apply I.
  - intros c Hc. pose proof (inv_call s I c Hc) as Hcok. unfold call_ok in *.
    destruct (c_rpc c) as [args r|?|?] eqn:E; try done. destruct Hcok as (? & Ht & ?).
    split; [done |]. split; [|done].
    intros rj. cbn. intros Hj. apply list_lookup_insert_Some in Hj as [(Heq & <- & _)|[Hne Hj]].
    + by eapply Hct.
    + by apply Ht.
Qed.

Lemma inv_set_node s i rf rf' :
  inv s -> nodes s !! i = Some rf -> evolves rf rf' -> inv (set_node i rf' s).
Proof.
  intros I Hi Hev. apply inv_set_node_gen; [done | by eapply node_ok_evolves; [apply I|] |].
  intros c args r Hc Hsrc Hr. pose proof (inv_call s I c Hc) as Hok. unfold call_ok in Hok.
  rewrite Hr, Hsrc in Hok. destruct Hok as (_ & Ht & _). specialize (Ht _ Hi).
  pose proof (ev_term _ _ Hev). lia.
Qed.

(** Calls may go away or be joined by calls that are not vote requests; threads may go
    away or be joined by threads that are not about to lead. *)
Lemma inv_shrink s s' :
  inv s -> nodes s' = nodes s -> granted s' = granted s -> elected s' = elected s ->
  (forall c, c ∈ calls s' -> c ∈ calls s \/ rv_key c = None) ->
  keys (calls s') ⊆+ keys (calls s) ->
  (forall i t, (i, ThToLeader t) ∈ threads s' -> (i, ThToLeader t) ∈ threads s) ->
  inv s'.
Proof.
  intros I Hn Hg He Hc Hk Ht.
  assert (keys (calls s') ⊆ keys (calls s)) as Hks by (intros x Hx; by eapply elem_of_submseteq).
  split.
  - rewrite Hn. apply I.
  - intros i rf Hi. rewrite Hn in Hi. eapply node_ok_mono; [| | | |by apply I]; rewrite ?Hg, ?He; set_solver.
  - intros c [Hin|Hno]%Hc.
    + pose proof (inv_call s I c Hin) as Hok. unfold call_ok in *. by rewrite Hn, Hg.
    + unfold call_ok, rv_key in *. by destruct (c_rpc c).
  - destruct (submseteq_Permutation _ _ Hk) as [l Hl]. pose proof (inv_keys s I) as Hnd.
    rewrite Hl in Hnd. by apply NoDup_app in Hnd as [Hnd _].
  - intros i t Hin%Ht. apply I in Hin. eapply quorum_mono; [|done]. by rewrite Hg.
  - intros t i Hin. rewrite He in Hin. apply I in Hin. eapply quorum_mono; [|done]. by rewrite Hg.
  - rewrite Hg. apply I.
  - rewrite Hg. apply I.
Qed.

(** ** Vote requests *)

(** A granted request: what it says about the peer. *)
Lemma requestVote_granted now rf args rf' reply' :
  RequestVoteRequestHandler now rf args zero_RequestVoteReply = (rf', reply') ->
  me rf' = me rf /\ peers rf' = peers rf /\
  if rvr_VoteGranted reply' then
    rvr_Term reply' = rva_Term args /\ currentTerm rf' = rva_Term args
    /\ currentTerm rf <= rva_Term args
    /\ (currentTerm rf = rva_Term args -> votedFor rf = -1)
    /\ votedFor rf' = rva_CandidateId args /\ voteCnt rf' = voteCnt rf
    /\ stored rf' = (rva_Term args, rva_CandidateId args)
    /\ role rf' = (if currentTerm rf <? rva_Term args then Follower else role rf)
  else evolves rf rf'.
Proof.
  intros Hh. destruct (requestVote_eval now rf args zero_RequestVoteReply) as (r & Hr & Hterm & Hgr).
  rewrite Hh in Hr. injection Hr as -> ->.
  set (rf1 := if currentTerm rf <? rva_Term args then _ else rf) in *.
  assert (evolves rf rf1) as Hev.
  { subst rf1. destruct (_ <? _); [by eapply evolves_follower | apply evolves_refl]. }
  assert (rf1 = if currentTerm rf <? rva_Term args then toFollower (rva_Term args) rf else rf) as Hrf1 by done.
  destruct (rvr_VoteGranted r) eqn:E; cbn [ballot].
  2: { split; [apply Hev |]. split; [apply Hev |]. by apply evolves_persist. }
  split; [apply Hev |]. split; [apply Hev |]. rewrite stored_persist.
  apply proj1 in Hgr. destruct (Hgr eq_refl) as (Ht1 & Hv1 & _).
  change (currentTerm (persist (rf1 <| lastHeartbeatTime := now |> <| votedFor := rva_CandidateId args |>)))
    with (currentTerm rf1).
  assert (currentTerm rf1 = rva_Term args) as Ht.
  { rewrite Hrf1 in *. destruct (Z.ltb_spec (currentTerm rf) (rva_Term args)); [rewrite toFollower_term in * |]; lia. }
  pose proof (ev_term _ _ Hev).
  assert (voteCnt rf1 = voteCnt rf) as Hvc.
  { rewrite Hrf1. destruct (_ <? _); [|done]. unfold toFollower. by destruct (_ <? _). }
  assert (role rf1 = if currentTerm rf <? rva_Term args then Follower else role rf) as Hro.
  { rewrite Hrf1. destruct (_ <? _); [|done]. apply toFollower_role. }
  repeat split; try done; try lia.
  - intros Heq. destruct (ev_same _ _ Hev) as [Hv _]; lia.
  - cbn. by rewrite Ht.
Qed.

Lemma call_ok_mono s s' c :
  granted s ⊆ granted s' ->
  (forall rf', nodes s' !! c_src c = Some rf' ->
     exists rf, nodes s !! c_src c = Some rf /\ currentTerm rf <= currentTerm rf') ->
  call_ok s c -> call_ok s' c.
Proof.
  intros Hg Hn. unfold call_ok. destruct (c_rpc c) as [args reply|?|?]; try done.
  intros (? & Ht & Hr). split; [done |]. split.
  - intros rf' (rf & Hrf & Hle)%Hn. specialize (Ht rf Hrf). lia.
  - intros r Hrep Hgr. destruct (Hr r Hrep Hgr) as (? & ? & ?). repeat split; try done. by apply Hg.
Qed.

(** Peer [i] gives a vote, to a candidate or to itself. *)
Lemma inv_vote s i rf rf' t c :
  inv s -> nodes s !! i = Some rf ->
  me rf' = me rf -> peers rf' = peers rf -> currentTerm rf' = t -> currentTerm rf <= t ->
  (currentTerm rf = t -> votedFor rf = -1 /\ ((i, t, c) ∈ granted s \/ (t, i) ∉ elected s)) ->
  votedFor rf' = c -> stored rf' = (t, c) -> 0 <= c ->
  (role rf' = Leader -> role rf = Leader /\ currentTerm rf = t) ->
  let s' := (set_node i rf' s) <| granted := (i, t, c) :: granted s |> in
  count_ok s' i rf' -> inv s'.
Proof.
  intros I Hi Hme Hp Ht Hle Hfree Hv Hst Hc Hlead s' Hcount.
  pose proof (inv_node s I i rf Hi) as [Ome Op Om Od Ob Oe Ol _].
  assert (granted s ⊆ granted s') as Hg by (by apply list_subseteq_cons).
  assert (forall t0 c0, (i, t0, c0) ∈ granted s -> t0 <= t /\ (t0 = t -> (t, i) ∈ elected s /\ currentTerm rf = t)) as Hold.
  { intros t0 c0 Hin. destruct (Om _ _ Hin) as [Hle0 Heq0]. split; [lia |]. intros ->.
    assert (currentTerm rf = t) as Heq by lia. split; [|done].
    destruct (Hfree Heq) as [Hv1 _]. destruct (Heq0 (eq_sym Heq)) as [Hv2|Hel]; [|by rewrite <- Heq].
    apply (inv_range s I) in Hin. lia. }
  assert (slot s' i t c) as Hslot.
  { intros t0 c0. cbn. intros [[= -> ->]|Hin]%elem_of_cons; [split; [lia | by left] |].
    destruct (Hold _ _ Hin) as [? Hel]. split; [lia |]. intros ->. right. by apply Hel. }
  split.
  - cbn. rewrite length_insert. apply I.
  - intros j rj. cbn. intros [(<- & <- & _)|[Hne Hj]]%list_lookup_insert_Some.
    + split; try congruence; try done.
      * by rewrite Ht, Hv.
      * by rewrite Hst.
      * rewrite Hst, Ht. cbn. lia.
      * intros t0 Hel. rewrite Hst. cbn. apply Oe in Hel. lia.
      * intros Hr. destruct (Hlead Hr) as [Hl Heq]. rewrite Ht, <- Heq. by apply Ol.
    + apply (node_ok_mono s); try done; [|by apply I].
      intros t0 c0. cbn. intros [[= -> _ _]|Hin]%elem_of_cons; done.
  - intros cl Hcl. apply (call_ok_mono s); [done | | by apply I].
    cbn. intros r [(Heq & <- & _)|[Hne Hj]]%list_lookup_insert_Some; [|exists r; split; [done | lia]].
    exists rf. rewrite <- Heq. split; [done | lia].
  - apply I.
  - intros j t0 Hin. apply (quorum_mono s); [done | by apply (inv_thread s I)].
  - intros t0 j Hin. apply (quorum_mono s); [done | by apply (inv_elected s I)].
  - intros j t0 c0. cbn. intros [[= -> -> ->]|Hin]%elem_of_cons; [done | by eapply I].
  - assert (forall c0, (i, t, c0) ∈ granted s -> c0 = c) as Hone.
    { intros c0 Hin. destruct (Hold _ _ Hin) as [_ Hel]. destruct (Hel eq_refl) as [Hel1 Heq].
      destruct (Hfree Heq) as [_ [Hin2|Hno]]; [by eapply (inv_once s I) | done]. }
    intros j t0 c1 c2. cbn. intros [[= -> -> ->]|H1]%elem_of_cons [[= ]|H2]%elem_of_cons; subst; try done.
    + symmetry. by apply Hone.
    + by apply Hone.
    + by eapply (inv_once s I).
Qed.

Lemma keys_cons (c : call C) l :
  keys (c :: l) = match rv_key c with Some x => x :: keys l | None => keys l end.
Proof. done. Qed.

Lemma keys_insert (l : list (call C)) k c c' :
  l !! k = Some c -> rv_key c' = rv_key c -> keys (<[k := c']> l) = keys l.
Proof.
  revert k; induction l as [|x l IH]; intros [|k] Hk He; try done.
  - injection Hk as ->. change (<[0%nat := c']> (c :: l)) with (c' :: l). by rewrite !keys_cons, He.
  - change (<[S k := c']> (x :: l)) with (x :: <[k := c']> l). by rewrite !keys_cons, IH.
Qed.

(** The reply of a call is filled in. *)
Lemma inv_update_call s k c r :
  inv s -> calls s !! k = Some c ->
  let c' := mkCall (c_src c) (c_dst c) r in
  rv_key c' = rv_key c -> call_ok s c' -> inv (s <| calls := <[k := c']> (calls s) |>).
Proof.
  intros I Hk c' Hkey Hok. split; try apply I.
  - intros i rf Hi. apply (node_ok_mono s); try done; [|by apply I].
    intros d. cbn. by rewrite (keys_insert _ _ c).
  - intros x. cbn. intros (j & [(_ & <- & _)|[_ Hj]]%list_lookup_insert_Some)%list_elem_of_lookup.
    + exact Hok.
    + apply (inv_call s I), list_elem_of_lookup. eauto.
  - cbn. rewrite (keys_insert _ _ c) by done. apply I.
Qed.

Lemma keys_delete (l : list (call C)) k : keys (delete k l) ⊆+ keys l.
Proof.
  revert k; induction l as [|y l IH]; intros [|k]; [done | done | |].
  - change (delete 0%nat (y :: l)) with l. rewrite keys_cons. destruct (rv_key y); [by apply submseteq_cons | done].
  - change (delete (S k) (y :: l)) with (y :: delete k l). rewrite !keys_cons.
    destruct (rv_key y); [by apply submseteq_skip | apply IH].
Qed.

(** ** Each step keeps the invariant *)

(** A step in which no peer votes in a term it was elected for, and no peer becomes
    leader of a term other than that of the votes it counted. *)
Definition careful s (a : action C) s' : Prop :=
  (forall j t c, (j, t, c) ∈ granted s' -> (j, t, c) ∈ granted s \/ (t, j) ∉ elected s)
  /\ (forall k now rnd i t rf, a = ARun k now rnd -> threads s !! k = Some (i, ThToLeader t) ->
       nodes s !! i = Some rf -> currentTerm rf = t).

Lemma deliver_inv s k now s' :
  inv s -> cstep (ADeliver k now) s = Some s' -> careful s (ADeliver k now) s' -> inv s'.
Proof.
  intros I Hs [Hcare _]. cbn in Hs.
  destruct (calls s !! k) as [c|] eqn:Hk; [|done]. cbn in Hs.
  destruct (executed (c_rpc c)) eqn:Hex; [done |].
  destruct (nodes s !! c_dst c) as [rf|] eqn:Hd; [|done]. cbn in Hs.
  assert (c ∈ calls s) as Hc by (apply list_elem_of_lookup; eauto).
  pose proof (inv_call s I c Hc) as Hcok. unfold call_ok in Hcok.
  assert (c_dst c < n)%nat as Hdn.
  { rewrite <- (inv_length s I). by eapply lookup_lt_Some. }
  destruct (c_rpc c) as [args r|args r|args r] eqn:Hr; cbn [serve] in Hs.
  - destruct Hcok as (Hcid & Hterm & _).
    destruct (RequestVoteRequestHandler now rf args zero_RequestVoteReply) as [rf' reply] eqn:Hh.
    cbn in Hs. injection Hs as <-.
    pose proof (requestVote_granted now rf args rf' reply Hh) as (Hme & Hpe & Hg).
    destruct (rvr_VoteGranted reply) eqn:Hgr.
    + destruct Hg as (Hrt & Ht' & Hle & Hfree & Hv & Hvc & Hst & Hro).
      set (s1 := (set_node (c_dst c) rf' s)
        <| granted := (c_dst c, rva_Term args, rva_CandidateId args) :: granted s |>).
      assert (inv s1) as I1.
      { eapply inv_vote; try eassumption.
        - intros Heq. split; [by apply Hfree |]. rewrite <- Hrt. apply Hcare. by left.
        - lia.
        - rewrite Hro. destruct (Z.ltb_spec (currentTerm rf) (rva_Term args)); [done | split; [done | lia]].
        - pose proof (ok_count _ _ _ (inv_node s I _ _ Hd)) as Hcn. unfold count_ok. rewrite Hro, Ht', Hvc.
          destruct (Z.ltb_spec (currentTerm rf) (rva_Term args)); [done |].
          intros (cn & ? & ? & Hin & Hout)%Hcn.
          assert (currentTerm rf = rva_Term args) as Heq by lia. rewrite Heq in Hin, Hout.
          exists cn. split; [done |]. split; [done |]. split; [|done].
          intros j Hj. destruct (Hin j Hj). split; [done |]. cbn. by right. }
      rewrite Hrt. apply (inv_update_call s1 k c (CallRV args (Some reply))); [done | done | |].
      * unfold rv_key. by rewrite Hr.
      * unfold call_ok. cbn. split; [done |]. split.
        -- intros rj [(Heq & <- & _)|[_ Hj]]%list_lookup_insert_Some; [lia | by apply Hterm].
        -- intros r0 [= <-] _. split; [done |]. split; [done |]. rewrite <- Hcid. by left.
    + apply (inv_update_call (set_node (c_dst c) rf' s) k c (CallRV args (Some reply)));
        [by eapply inv_set_node | done | |].
      * unfold rv_key. by rewrite Hr.
      * unfold call_ok. cbn. split; [done |]. split; [|intros r0 [=]; congruence].
        intros rj [(Heq & <- & _)|[_ Hj]]%list_lookup_insert_Some; [|by apply Hterm].
        rewrite <- Heq in Hterm. specialize (Hterm _ Hd). pose proof (ev_term _ _ Hg). lia.
  - destruct (AppendEntriesRequestHandler now rf args zero_AppendEntriesReply) as [[rf' reply]| |] eqn:Hh;
      cbn in Hs; [|done..]. injection Hs as <-.
    apply (inv_update_call (set_node (c_dst c) rf' s) k c (CallAE args (Some reply))); try done.
    + eapply inv_set_node; [done | done |]. by eapply AppendEntriesRequestHandler_evolves.
    + unfold rv_key. by rewrite Hr.
  - destruct (InstallSnapshotRequestHandler now rf args zero_InstallSnapshotReply) as [[rf' reply]| |] eqn:Hh;
      cbn in Hs; [|done..]. injection Hs as <-.
    apply (inv_update_call (set_node (c_dst c) rf' s) k c (CallIS args (Some reply))); try done.
    + eapply inv_set_node; [done | done |]. by eapply InstallSnapshotRequestHandler_evolves.
    + unfold rv_key. by rewrite Hr.
Qed.

Lemma inv_drop_call s k : inv s -> inv (s <| calls := delete k (calls s) |>).
Proof.
  intros I. apply (inv_shrink s); try done.
  - intros c Hc%list_elem_of_delete_inv. by left.
  - apply keys_delete.
Qed.

(** A candidate counts one more vote. *)
Lemma inv_counted s k c args reply rf :
  inv s -> calls s !! k = Some c -> c_rpc c = CallRV args (Some reply) ->
  nodes s !! c_src c = Some rf -> role rf = Candidate -> rvr_VoteGranted reply = true ->
  rva_Term args = currentTerm rf -> rvr_Term reply = currentTerm rf ->
  let rf' := rf <| voteCnt := voteCnt rf + 1 |> in
  inv ((set_node (c_src c) rf' s) <| calls := delete k (calls s) |>)
  /\ (Z.of_nat (n / 2) + 1 <= voteCnt rf' -> quorum s (currentTerm rf) (c_src c)).
Proof.
  intros I Hk Hr Hn Hcand Hgr Ha Hrt rf'.
  assert (c ∈ calls s) as Hc by (apply list_elem_of_lookup; eauto).
  pose proof (inv_call s I c Hc) as Hcok. unfold call_ok in Hcok. rewrite Hr in Hcok.
  destruct Hcok as (_ & _ & Hvote). destruct (Hvote reply eq_refl Hgr) as (_ & Hdn & Hvd).
  rewrite Ha in Hvd.
  pose proof (inv_node s I _ _ Hn) as Hok.
  destruct (ok_count _ _ _ Hok Hcand) as (cn & Hcnt & Hnd & Hin & Hout).
  assert (rv_key c = Some (c_src c, c_dst c, currentTerm rf)) as Hkey.
  { unfold rv_key. by rewrite Hr, Ha. }
  assert (c_dst c ∉ c_src c :: cn) as Hnew.
  { apply Hout. unfold keys. apply list_elem_of_omap. eauto. }
  assert (NoDup (c_src c :: c_dst c :: cn)) as Hnd'.
  { apply NoDup_cons. apply NoDup_cons in Hnd as [? ?]. apply not_elem_of_cons in Hnew as [? ?].
    split; [apply not_elem_of_cons; by split | by apply NoDup_cons]. }
  assert (forall j, j ∈ c_src c :: c_dst c :: cn ->
    (j < n)%nat /\ (j, currentTerm rf, Z.of_nat (c_src c)) ∈ granted s) as Hin'.
  { intros j [->|[->|Hj]%elem_of_cons]%elem_of_cons; [apply Hin; by left | done | apply Hin; by right]. }
  split.
  2: { intros Hmaj. exists (c_src c :: c_dst c :: cn). split; [done |]. split; [|done]. cbn in *. lia. }
  pose proof (delete_Permutation _ _ _ Hk) as Hperm.
  assert ((c_src c, c_dst c, currentTerm rf) ∉ keys (delete k (calls s))) as Hgone.
  { pose proof (inv_keys s I) as Hks. rewrite Hperm, keys_cons, Hkey in Hks.
    by apply NoDup_cons in Hks as [? _]. }
  change (inv (set_node (c_src c) rf' (s <| calls := delete k (calls s) |>))).
  apply inv_set_node_gen; [by apply inv_drop_call | |].
  - destruct Hok as [? ? ? ? ? ? ? _]. split; try done. intros _.
    exists (c_dst c :: cn). split; [cbn in *; lia |]. split; [done |]. split; [done |].
    intros d Hd. cbn in Hd. assert (d ∉ c_src c :: cn) as Hd1.
    { apply Hout. eapply elem_of_submseteq; [exact Hd | apply keys_delete]. }
    assert (d <> c_dst c) by (intros ->; by apply Hgone).
    apply not_elem_of_cons in Hd1 as [? ?]. by rewrite !not_elem_of_cons.
  - intros x args0 r0 Hx%list_elem_of_delete_inv Hsrc Hx0.
    pose proof (inv_call s I x Hx) as Hxok. unfold call_ok in Hxok. rewrite Hx0, Hsrc in Hxok.
    destruct Hxok as (_ & Ht & _). exact (Ht _ Hn).
Qed.

Lemma inv_add_threads s ths :
  inv s -> (forall i t, (i, ThToLeader t) ∈ ths -> quorum s t i) ->
  inv (s <| threads := threads s ++ ths |>).
Proof.
  intros I Hq. split; try apply I.
  - intros i rf Hi. apply (node_ok_mono s); try done. by apply I.
  - intros i t. cbn. intros [Hin|Hin]%elem_of_app; [by apply (inv_thread s I) | by apply Hq].
Qed.

Lemma return_inv s k ok s' : inv s -> cstep (AReturn k ok) s = Some s' -> inv s'.
Proof.
  intros I Hs. cbn in Hs.
  destruct (calls s !! k) as [c|] eqn:Hk; [|done]. cbn in Hs.
  destruct (ok && negb (executed (c_rpc c))) eqn:Hex; [done |].
  destruct (nodes s !! c_src c) as [rf|] eqn:Hn; [|done]. cbn in Hs.
  assert (forall rf' l, evolves rf rf' -> l = [] -> inv ((set_node (c_src c) rf' s)
    <| threads := threads s ++ ((fun th => (c_src c, th)) <$> l) |>
    <| calls := delete k (calls s) |>)) as Hquiet.
  { intros rf' l Hev ->. rewrite fmap_nil.
    set (s1 := set_node (c_src c) rf' s). set (s2 := s1 <| threads := threads s1 ++ [] |>).
    change (inv (s2 <| calls := delete k (calls s2) |>)).
    apply inv_drop_call, inv_add_threads; [by eapply inv_set_node | set_solver]. }
  destruct (c_rpc c) as [args r|args r|args r] eqn:Hr; cbn [respond] in Hs.
  2: { destruct (AppendEntriesResponseHandler _ _ _) as [rf'| |] eqn:Hh; cbn in Hs; [|done..].
       injection Hs as <-. apply (Hquiet _ []); [|done]. by eapply AppendEntriesResponseHandler_evolves. }
  2: { destruct (InstallSnapshotResponseHandler _ _ _) as [rf'| |] eqn:Hh; cbn in Hs; [|done..].
       injection Hs as <-. apply (Hquiet _ []); [|done]. by eapply InstallSnapshotResponseHandler_evolves. }
  set (reply := if ok then default zero_RequestVoteReply r else zero_RequestVoteReply) in *.
  unfold RequestVoteResponseHandler in Hs.
  destruct (Z.eqb_spec (role rf) Candidate) as [Hcand|]; cbn [negb] in Hs.
  2: { injection Hs as <-. apply (Hquiet rf []); [apply evolves_refl | done]. }
  destruct (Z.ltb_spec (rvr_Term reply) (currentTerm rf)) as [|H1]; cbn [orb] in Hs.
  { injection Hs as <-. apply (Hquiet rf []); [apply evolves_refl | done]. }
  destruct (Z.ltb_spec (rva_Term args) (currentTerm rf)) as [|H2].
  { injection Hs as <-. apply (Hquiet rf []); [apply evolves_refl | done]. }
  destruct (Z.ltb_spec (currentTerm rf) (rvr_Term reply)) as [|H3].
  { injection Hs as <-. eapply (Hquiet _ []); [by eapply evolves_follower |done]. }
  destruct (rvr_VoteGranted reply) eqn:Hgr.
  2: { injection Hs as <-. apply (Hquiet rf []); [apply evolves_refl | done]. }
  destruct ok; [|done]. destruct r as [r|]; [|done]. change reply with r in *.
  assert (c ∈ calls s) as Hc by (apply list_elem_of_lookup; eauto).
  pose proof (inv_call s I c Hc) as Hcok. unfold call_ok in Hcok. rewrite Hr in Hcok.
  destruct Hcok as (_ & Hle & Hvote). specialize (Hle _ Hn).
  destruct (inv_counted s k c args r rf) as [I1 Hq]; try done; try lia.
  match type of Hs with context [peers ?x] => change (peers x) with (peers rf) in Hs end.
  rewrite (ok_peers _ _ _ (inv_node s I _ _ Hn)) in Hs.
  change 2 with (Z.of_nat 2) in Hs. rewrite Z.quot_div_nonneg, <- Nat2Z.inj_div in Hs by lia.
  match type of Hs with context [?a <=? ?b] => destruct (Z.leb_spec a b) as [Hmaj|Hno] end;
    injection Hs as <-.
  - apply (inv_add_threads _ [(c_src c, ThToLeader (currentTerm rf))] I1).
    intros i t [= -> ->]%list_elem_of_singleton. by apply (quorum_mono s), Hq.
  - by apply (inv_add_threads _ [] I1); set_solver.
Qed.

Lemma inv_swap_thread s k ths :
  inv s -> (forall i t, (i, ThToLeader t) ∈ ths -> quorum s t i) ->
  inv (s <| threads := delete k (threads s) ++ ths |>).
Proof.
  intros I Hq. set (s1 := s <| threads := delete k (threads s) |>).
  change (inv (s1 <| threads := threads s1 ++ ths |>)). apply inv_add_threads; [|done].
  apply (inv_shrink s); try done.
  - intros c Hc. by left.
  - intros i t Ht. exact (list_elem_of_delete_inv _ k _ Ht).
Qed.

Lemma inv_add_calls s new :
  inv s -> (forall c, c ∈ new -> rv_key c = None) -> inv (s <| calls := calls s ++ new |>).
Proof.
  intros I Hnew.
  assert (keys new = []) as Hkn.
  { clear I. induction new as [|c new IH]; [done |]. rewrite keys_cons, Hnew by by left.
    apply IH. intros x Hx. apply Hnew. by right. }
  apply (inv_shrink s); try done.
  - intros c [Hc|Hc]%elem_of_app; [by left | right; by apply Hnew].
  - cbn. unfold keys in *. by rewrite omap_app, Hkn, app_nil_r.
Qed.

(** A new candidate asks every other peer once. *)
Lemma others_spec i rf j : me rf = Z.of_nat i -> j ∈ others rf <->
  exists d, j = Z.of_nat d /\ d <> i /\ (d < peers rf)%nat.
Proof.
  intros Hme. unfold others. rewrite list_elem_of_filter, list_elem_of_fmap. split.
  - intros (Hne & d & -> & Hd%elem_of_seq). exists d. repeat split; [congruence | lia].
  - intros (d & -> & Hne & Hd). split; [rewrite Hme; lia |]. exists d. split; [done | apply elem_of_seq; lia].
Qed.

Definition requests (i : nat) (args : RequestVoteArgs) (l : list Z) : list (call C) :=
  (fun '(j, r) => mkCall i (Z.to_nat j) r) <$> asks ((fun j => (j, args)) <$> l).

Lemma requests_keys i args l :
  keys (requests i args l) = (fun j => (i, Z.to_nat j, rva_Term args)) <$> l.
Proof. induction l as [|j l IH]; [done |]. cbn. f_equal. exact IH. Qed.

Lemma requests_elem i args l c : c ∈ requests i args l -> c_src c = i /\ c_rpc c = CallRV args None.
Proof.
  unfold requests, asks. rewrite !list_elem_of_fmap.
  intros ([j r] & -> & ([j2 a] & [= <- ->] & Hin)%list_elem_of_fmap).
  by apply list_elem_of_fmap in Hin as (? & [= <- ->] & _).
Qed.

Lemma inv_add_requests s i rf args :
  inv s -> nodes s !! i = Some rf -> rva_CandidateId args = Z.of_nat i ->
  rva_Term args = currentTerm rf -> voteCnt rf = 1 ->
  (forall d, (i, d, currentTerm rf) ∉ keys (calls s)) ->
  inv (s <| calls := calls s ++ requests i args (others rf) |>).
Proof.
  intros I Hi Hcid Hterm Hone Hnew. pose proof (inv_node s I i rf Hi) as Hok.
  pose proof (ok_me _ _ _ Hok) as Hme.
  set (s2 := s <| calls := calls s ++ requests i args (others rf) |>).
  assert (keys (calls s2) =
    keys (calls s) ++ ((fun j => (i, Z.to_nat j, currentTerm rf)) <$> others rf)) as Hkeys.
  { change (calls s2) with (calls s ++ requests i args (others rf)). unfold keys at 1. rewrite omap_app. f_equal. rewrite <- Hterm. apply requests_keys. }
  split; try apply I.
  - intros j rj Hj. destruct (decide (j = i)) as [->|Hne].
    + cbn in Hj. rewrite Hi in Hj. injection Hj as <-. destruct Hok as [? ? ? ? ? ? ? Hcn]. split; try done.
      intros Hr. destruct (Hcn Hr) as (cn & Hc1 & ? & ? & _). exists cn. repeat (split; [done |]).
      destruct cn; [|cbn in Hc1; lia]. rewrite Hkeys.
      intros d [Hd|Hd]%elem_of_app; [by apply Hnew in Hd |].
      apply list_elem_of_fmap in Hd as (x & [= ->] & (d & -> & Hd & _)%(others_spec i)); [|done].
      rewrite Nat2Z.id. by intros ->%list_elem_of_singleton.
    + apply (node_ok_mono s); try done; [|by apply I]. rewrite Hkeys.
      intros d [Hd|(x & [= ? _ _] & _)%list_elem_of_fmap]%elem_of_app; [done | congruence].
  - intros c [Hc|[Hsrc Hr]%requests_elem]%elem_of_app; [by apply (inv_call s I) |].
    unfold call_ok. rewrite Hr, Hsrc. split; [done |]. split; [|done].
    intros rj Hj. cbn in Hj. rewrite Hi in Hj. injection Hj as <-. lia.
  - rewrite Hkeys. apply NoDup_app. split; [apply I |]. split.
    + intros x Hx (j & -> & _)%list_elem_of_fmap. by apply Hnew in Hx.
    + apply NoDup_fmap_2_strong.
      * intros j1 j2 (d1 & -> & _)%(others_spec i) (d2 & -> & _)%(others_spec i) [= Heq]; [|done..]. lia.
      * unfold others. apply NoDup_filter, NoDup_fmap_2; [apply Nat2Z.inj' | apply NoDup_seq].
Qed.

(** A step of a goroutine that is not an election step. *)
Lemma run_quiet s i k rf rf' ths new :
  inv s -> nodes s !! i = Some rf -> evolves rf rf' ->
  (forall j t, (j, ThToLeader t) ∉ ths) -> (forall c, c ∈ new -> rv_key c = None) ->
  inv (mkCluster (<[i := rf']> (nodes s)) (delete k (threads s) ++ ths) (calls s ++ new)
         (granted s) (elected s)).
Proof.
  intros I Hi Hev Hths Hnew. set (s1 := set_node i rf' s).
  set (s2 := s1 <| threads := delete k (threads s1) ++ ths |>).
  change (inv (s2 <| calls := calls s2 ++ new |>)). apply inv_add_calls; [|done].
  apply inv_swap_thread; [by eapply inv_set_node | by intros j t ?%Hths].
Qed.

Lemma sends_quiet i (reqs : list (Z * outgoing C)) c :
  c ∈ ((fun '(j, r) => mkCall i (Z.to_nat j) r) <$> sends reqs) -> rv_key c = None.
Proof.
  unfold sends. rewrite <- list_fmap_compose. intros ([j o] & -> & _)%list_elem_of_fmap.
  by destruct o.
Qed.

Lemma toLeader_inv s i k t rf rf' :
  inv s -> nodes s !! i = Some rf -> quorum s t i -> currentTerm rf = t ->
  toLeader rf = Done rf' ->
  inv (mkCluster (<[i := rf']> (nodes s)) (delete k (threads s) ++ [(i, ThLeaderTicker)])
         (calls s) (granted s) ((currentTerm rf', i) :: elected s)).
Proof.
  intros I Hi Hq Ht Hl. unfold toLeader in Hl. apply go_bind_Done in Hl as (mi & _ & Hl).
  injection Hl as <-. set (rf' := persist _).
  assert (currentTerm rf' = t /\ role rf' = Leader) as [Ht' Hr'] by done.
  assert (stored rf' = (t, -1)) as Hst by (subst rf'; rewrite stored_persist; cbn; by rewrite Ht).
  pose proof (inv_node s I i rf Hi) as [Ome Op Om Od Ob Oe _ _].
  assert (me rf' = me rf /\ peers rf' = peers rf) as [Hme Hp] by done.
  clearbody rf'. rewrite Ht'. set (s' := mkCluster _ _ _ _ _).
  assert (granted s' = granted s) as Hg by done.
  assert (slot s' i t (-1)) as Hslot.
  { intros t0 c Hv. destruct (Om t0 c Hv) as [? _]. split; [lia |]. intros _. right. by left. }
  split.
  - cbn. rewrite length_insert. apply I.
  - intros j rj. cbn. intros [(<- & <- & _)|[Hne Hj]]%list_lookup_insert_Some.
    + split; try congruence.
      * rewrite Ht'. intros t0 c Hv. destruct (Hslot t0 c Hv) as [? _]. split; [done |].
        intros _. right. by left.
      * by rewrite Hst.
      * rewrite Hst, Ht'. cbn. lia.
      * intros t0 [[= ->]|He]%elem_of_cons; rewrite Hst; cbn; [lia |]. apply Oe in He. lia.
      * intros _. rewrite Ht'. by left.
      * intros Hc. by rewrite Hr' in Hc.
    + apply (node_ok_mono s); try done; [|by apply I].
      intros t0. cbn. rewrite elem_of_cons. split; [intros [[= _ ->]|?]; done | by right].
  - intros c Hc. apply (call_ok_mono s); [done | | by apply I].
    cbn. intros r [(Heq & <- & _)|[Hne Hj]]%list_lookup_insert_Some; [|exists r; split; [done | lia]].
    exists rf. rewrite <- Heq. split; [done | lia].
  - apply I.
  - intros j t0 [Hin%list_elem_of_delete_inv|[= ]%list_elem_of_singleton]%elem_of_app.
    apply (quorum_mono s); [done | by apply (inv_thread s I)].
  - intros t0 j [[= -> ->]|Hin]%elem_of_cons; apply (quorum_mono s); try done.
    by apply (inv_elected s I).
  - apply I.
  - apply I.
Qed.

Lemma toCandidate_spec now rnd rf rf' reqs :
  toCandidate now rnd rf = (rf', reqs) -> exists li lt,
    currentTerm rf' = currentTerm rf + 1 /\ votedFor rf' = me rf /\ voteCnt rf' = 1
    /\ me rf' = me rf /\ peers rf' = peers rf /\ role rf' = Candidate
    /\ stored rf' = (currentTerm rf + 1, me rf)
    /\ reqs = (fun j => (j, mkRequestVoteArgs (currentTerm rf + 1) (me rf) li lt)) <$> others rf'.
Proof.
  unfold toCandidate. set (rf1 := rf <| role := _ |> <| currentTerm := _ |> <| votedFor := _ |>
    <| voteCnt := _ |> <| electionTimeout := _ |> <| lastHeartbeatTime := _ |>).
  assert (currentTerm rf1 = currentTerm rf + 1 /\ votedFor rf1 = me rf /\ voteCnt rf1 = 1
    /\ me rf1 = me rf /\ peers rf1 = peers rf /\ role rf1 = Candidate)
    as (Ht & Hv & Hc & Hm & Hp & Hr) by (subst rf1; cbn; done).
  clearbody rf1. destruct (getLastLogIndexAndTerm rf1) as [li lt]. intros [= <- <-].
  exists li, lt. rewrite stored_persist, Ht, Hv, Hm. repeat (split; [done |]). done.
Qed.

Ltac quiet := first
  [ by intros ? ? [= ]%list_elem_of_singleton | by intros ? ? ?%elem_of_nil | by intros ? ?%elem_of_nil ].

(** The step of [toCandidate]: the new candidate votes for itself and asks the others. *)
Lemma candidate_inv s i k now rnd rf rf' reqs :
  inv s -> nodes s !! i = Some rf -> toCandidate now rnd rf = (rf', reqs) ->
  inv (mkCluster (<[i := rf']> (nodes s)) (delete k (threads s) ++ [(i, ThTicker)])
    (calls s ++ ((fun '(j, r) => mkCall i (Z.to_nat j) r) <$> asks reqs))
    ((i, currentTerm rf', votedFor rf') :: granted s) (elected s)).
Proof.
  intros I Hi Hcd. pose proof (inv_node s I i rf Hi) as [Ome _ _ _ _ _ _ _].
  destruct (toCandidate_spec now rnd rf rf' reqs Hcd)
    as (li & lt & Ht' & Hv' & Hc' & Hm' & Hp' & Hr' & Hst & ->).
  set (args := mkRequestVoteArgs (currentTerm rf + 1) (me rf) li lt). fold (requests i args (others rf')).
  rewrite Ht', Hv'.
  set (s1 := (set_node i rf' s) <| granted := (i, currentTerm rf + 1, me rf) :: granted s |>).
  assert (forall d, (i, d, currentTerm rf + 1) ∉ keys (calls s)) as Hfresh.
  { intros d (c & Hc & Hkey)%list_elem_of_omap. pose proof (inv_call s I c Hc) as Hcok.
    unfold rv_key in Hkey. unfold call_ok in Hcok. destruct (c_rpc c); [|done..].
    injection Hkey as <- _ Hterm. destruct Hcok as (_ & Hle & _). specialize (Hle _ Hi). lia. }
  assert (inv s1) as I1.
  { apply (inv_vote s i rf rf'); try done; try lia.
    { intros Hr. by rewrite Hr' in Hr. }
    intros _. exists []. rewrite Ht'. split; [done |].
    split; [by apply NoDup_singleton |]. split.
    - intros j ->%list_elem_of_singleton. split.
      + rewrite <- (inv_length s I). by eapply lookup_lt_Some.
      + rewrite <- Ome. by left.
    - intros d Hd. by apply Hfresh in Hd. }
  assert (inv (s1 <| calls := calls s1 ++ requests i args (others rf') |>)) as I2.
  { apply (inv_add_requests s1 i rf' args); try done.
    - cbn. rewrite list_lookup_insert_eq; [done |]. by eapply lookup_lt_Some.
    - by rewrite Ht'. }
  apply (inv_swap_thread _ k [(i, ThTicker)] I2). by intros j t0 [= ]%list_elem_of_singleton.
Qed.

Lemma run_inv s k now rnd s' :
  inv s -> cstep (ARun k now rnd) s = Some s' -> careful s (ARun k now rnd) s' -> inv s'.
Proof.
  intros I Hs [_ Hcare]. cbn in Hs.
  destruct (threads s !! k) as [[i th]|] eqn:Hk; [|done]. cbn in Hs.
  destruct (nodes s !! i) as [rf|] eqn:Hi; [|done]. cbn in Hs.
  assert ((i, th) ∈ threads s) as Hth by (apply list_elem_of_lookup; eauto).
  destruct (run_thread th now rnd rf) as [[[rf' ths] reqs]|?|?] eqn:Hrun; cbn in Hs; [|done..].
  injection Hs as <-.
  destruct th; cbn [run_thread self_vote election_of app] in *.
  - destruct (ticker now rf); injection Hrun as <- <- <-;
      apply (run_quiet s i k rf rf _ []); try done; try apply evolves_refl; quiet.
  - destruct (toCandidate now rnd rf) as [rf1 reqs1] eqn:Hcd. injection Hrun as <- <- <-.
    exact (candidate_inv s i k now rnd rf rf1 reqs1 I Hi Hcd).
  - apply go_bind_Done in Hrun as (rf1 & Hl & Hrun). injection Hrun as <- <- <-.
    rewrite fmap_nil, app_nil_r. apply (toLeader_inv s i k term rf rf1); try done.
    + by apply (inv_thread s I).
    + by eapply Hcare.
  - destruct (leaderTicker rf); injection Hrun as <- <- <-;
      apply (run_quiet s i k rf rf _ []); try done; try apply evolves_refl; quiet.
  - apply go_bind_Done in Hrun as (rf1 & Hl & Hrun). injection Hrun as <- <- <-.
    apply (run_quiet s i k rf rf1 _ []); try done; [by apply leaderUpdateCommitIndex_evolves | quiet..].
  - apply go_bind_Done in Hrun as (l & Hl & Hrun). injection Hrun as <- <- <-.
    apply (run_quiet s i k rf rf); try done; [apply evolves_refl | quiet | apply sends_quiet].
  - apply go_bind_Done in Hrun as (l & Hl & Hrun). injection Hrun as <- <- <-.
    apply (run_quiet s i k rf rf); try done; [apply evolves_refl | quiet | apply sends_quiet].
Qed.

(** What a restart does to the ballot: memory takes the values of the disk. *)
Lemma readPersist_ballot d rf1 rf2 :
  currentTerm rf1 = currentTerm rf2 -> votedFor rf1 = votedFor rf2 ->
  currentTerm (readPersist d rf1) = currentTerm (readPersist d rf2)
  /\ votedFor (readPersist d rf1) = votedFor (readPersist d rf2).
Proof.
  intros Ht Hv. unfold readPersist. destruct d as [|b d]; [done |].
  destruct (gob_decode _ _) as [[|[?|?] [|[?|?] [|[?|?] [|[?|?] [|[?|?] [|? ?]]]]]]|]; done.
Qed.

Lemma readPersist_frame d rf :
  me (readPersist d rf) = me rf /\ peers (readPersist d rf) = peers rf
  /\ role (readPersist d rf) = role rf /\ persister (readPersist d rf) = persister rf.
Proof.
  unfold readPersist. destruct d as [|b d]; [done |].
  destruct (gob_decode _ _) as [[|[?|?] [|[?|?] [|[?|?] [|[?|?] [|[?|?] [|? ?]]]]]]|]; done.
Qed.

Lemma replayLoop_ballot l rf rf' : replayLoop l rf = Done rf' -> ballot rf' = ballot rf.
Proof.
  revert rf; induction l as [|e l IH]; intros rf; cbn [replayLoop]; [by intros [= <-] |].
  destruct (_ <? _); [by intros [= <-] |]. intros (rf1 & H1 & Hr)%go_bind_Done.
  apply IH in Hr as ->. unfold putBeforeReader in H1. destruct (applyChBuffer rf); [|done].
  by injection H1 as <-.
Qed.

Lemma Make_ballot m i now rnd rf rf' :
  Make m i (persister rf) now rnd = Done rf' ->
  me rf' = i /\ peers rf' = m /\ role rf' = Follower /\ stored rf' = stored rf
  /\ currentTerm rf' = (stored rf).1 /\ votedFor rf' = (stored rf).2.
Proof.
  unfold Make.
  set (rf0 := initial m i (persister rf) now rnd).
  destruct (readPersist_frame (ReadRaftState (persister rf)) rf0) as (Hm & Hp & Hr & Hps).
  destruct (readPersist_ballot (ReadRaftState (persister rf)) rf0 (fresh 0 0 0 0)) as [Ht Hv]; try done.
  assert (me rf0 = i /\ peers rf0 = m /\ role rf0 = Follower /\ persister rf0 = persister rf)
    as (Hm0 & Hp0 & Hr0 & Hps0) by done.
  set (rf1 := readPersist _ rf0) in *. clearbody rf1 rf0. rewrite Hm0 in Hm. rewrite Hp0 in Hp.
  rewrite Hr0 in Hr. rewrite Hps0 in Hps.
  set (rf2 := (readPersistSnapshot _ rf1) <| commitIndex := _ |> <| lastApplied := _ |>).
  assert (ballot rf2 = ballot rf1) as Hb by done. clearbody rf2.
  intros (rf3 & H3 & Hrun)%go_bind_Done. apply replayLoop_ballot in Hrun.
  assert (ballot rf3 = ballot rf2) as Hb3.
  { destruct (negb _); [|by injection H3 as <-].
    unfold putBeforeReader in H3. destruct (applyChBuffer rf2); [|done]. by injection H3 as <-. }
  assert (ballot rf' = ballot rf1) as Hb' by congruence. unfold ballot in Hb'.
  injection Hb' as E1 E2 E3 E4 _ E6 E7.
  split; [congruence |]. split; [congruence |]. split; [congruence |].
  split; [unfold stored; by rewrite E7, Hps |].
  unfold stored. cbn. by rewrite E3, E4, Ht, Hv.
Qed.

Lemma filter_shrinks P `{!forall c, Decision (P c)} (l : list (call C)) : keys (filter P l) ⊆+ keys l.
Proof.
  induction l as [|c l IH]; [done |]. rewrite filter_cons. case_decide; rewrite !keys_cons.
  - destruct (rv_key c); [by apply submseteq_skip | done].
  - destruct (rv_key c); [by apply submseteq_cons | done].
Qed.

Lemma crash_inv s i now rnd s' : inv s -> cstep (ACrash i now rnd) s = Some s' -> inv s'.
Proof.
  intros I Hs. cbn in Hs. destruct (nodes s !! i) as [rf|] eqn:Hi; [|done]. cbn in Hs.
  destruct (Make _ _ _ _ _) as [rf'| |] eqn:Hmake; cbn in Hs; [|done..]. injection Hs as <-.
  apply Make_ballot in Hmake as (Hme & Hp & Hr & Hst & Ht & Hv). rewrite (inv_length s I) in Hp.
  pose proof (inv_node s I i rf Hi) as [_ _ _ Od _ Oe _ _].
  set (s1 := s <| threads := filter (fun t => t.1 <> i) (threads s) ++ [(i, ThTicker)] |>
               <| calls := filter (fun c => c_src c <> i) (calls s) |>).
  change (inv (set_node i rf' s1)).
  assert (inv s1) as I1.
  { apply (inv_shrink s); try done.
    - intros c [_ Hc]%list_elem_of_filter. by left.
    - apply filter_shrinks.
    - intros j t [Hin|[= ]%list_elem_of_singleton]%elem_of_app. by apply list_elem_of_filter in Hin as [_ ?]. }
  apply inv_set_node_gen; [done | |].
  - split; try done.
    + by rewrite Ht, Hv.
    + by rewrite Hst.
    + rewrite Hst, Ht. lia.
    + intros t. rewrite Hst. apply Oe.
    + intros Hl. by rewrite Hr in Hl.
    + intros Hl. by rewrite Hr in Hl.
  - intros c args r Hc Hsrc _. apply list_elem_of_filter in Hc as [? _]. done.
Qed.

Lemma service_inv s a s' :
  inv s -> cstep a s = Some s' ->
  match a with AStart _ _ | ASnapshot _ _ _ | AKill _ => True | _ => False end -> inv s'.
Proof.
  intros I Hs Ha. destruct a as [| | |i cmd|i index snap| |i]; try done; cbn in Hs;
    destruct (nodes s !! i) as [rf|] eqn:Hi; try done; cbn in Hs.
  - destruct (Start rf cmd) as [[rf' [[? ?] l]]| |] eqn:Hst; cbn in Hs; [|done..]. injection Hs as <-.
    set (s1 := set_node i rf' s). set (ths := if l then _ else _).
    change (inv (s1 <| threads := threads s1 ++ ths |>)). apply inv_add_threads.
    + eapply inv_set_node; [done | done |]. by eapply Start_evolves.
    + subst ths. destruct l; [by intros j t [= ]%list_elem_of_singleton | by intros j t ?%elem_of_nil].
  - destruct (Snapshot rf index snap) as [rf'| |] eqn:Hsn; cbn in Hs; [|done..]. injection Hs as <-.
    eapply inv_set_node; [done | done |]. by eapply Snapshot_evolves.
  - injection Hs as <-. eapply inv_set_node; [done | done |]. apply Kill_evolves.
Qed.

Lemma cstep_inv s a s' : inv s -> cstep a s = Some s' -> careful s a s' -> inv s'.
Proof.
  intros I Hs Hc. destruct a.
  - by eapply run_inv.
  - by eapply deliver_inv.
  - by eapply return_inv.
  - by eapply service_inv.
  - by eapply service_inv.
  - by eapply crash_inv.
  - by eapply service_inv.
Qed.

Inductive carefully_reachable : Cluster C -> Prop :=
| careful_boot : carefully_reachable (boot n)
| careful_step s a s' :
    carefully_reachable s -> cstep a s = Some s' -> careful s a s' -> carefully_reachable s'.

Lemma boot_inv : inv (boot n).
Proof.
  split; cbn.
  - by rewrite length_fmap, length_seq.
  - intros i rf Hi. apply list_lookup_fmap_Some in Hi as (j & -> & Hj).
    apply lookup_seq in Hj as [-> Hlt]. split; try done; cbn; try (by intros ? ? ?%elem_of_nil).
    by intros t ?%elem_of_nil.
  - by intros c ?%elem_of_nil.
  - apply NoDup_nil_2.
  - by intros i t (j & [= ] & _)%list_elem_of_fmap.
  - by intros t i ?%elem_of_nil.
  - by intros j t c ?%elem_of_nil.
  - by intros j t c1 c2 ?%elem_of_nil.
Qed.

Lemma reachable_inv s : carefully_reachable s -> inv s.
Proof. induction 1 as [|s a s' _ IH Hs Hc]; [apply boot_inv | by eapply cstep_inv]. Qed.

(** C2: election safety, up to the two gaps of the code.  In every state that is
    reached by steps in which no peer votes in a term it has already been elected for,
    and in which [toLeader] runs in the term whose votes were counted, a term has at
    most one leader; it was voted in by a majority, and its term is on its disk. *)
Theorem election_safety s i j ri rj :
  carefully_reachable s -> nodes s !! i = Some ri -> nodes s !! j = Some rj ->
  role ri = Leader -> role rj = Leader -> currentTerm ri = currentTerm rj ->
  i = j /\ quorum s (currentTerm ri) i /\ (stored ri).1 = currentTerm ri.
Proof.
  intros Hreach Hi Hj Hli Hlj Ht. pose proof (reachable_inv s Hreach) as I.
  pose proof (inv_node s I i ri Hi) as Oi. pose proof (inv_node s I j rj Hj) as Oj.
  pose proof (ok_leader _ _ _ Oi Hli) as Ei. pose proof (ok_leader _ _ _ Oj Hlj) as Ej.
  rewrite <- Ht in Ej. pose proof (inv_elected s I _ _ Ei) as Qi.
  split; [|split; [done |]].
  - eapply quorum_unique; [apply I | done | by apply (inv_elected s I)].
  - pose proof (ok_elected _ _ _ Oi _ Ei). pose proof (ok_behind _ _ _ Oi). lia.
Qed.

(** Under the same condition a peer votes for at most one candidate in a term,
    crashes and restarts included: what it voted is on its disk when it answers. *)
Theorem vote_once s j t c1 c2 :
  carefully_reachable s -> (j, t, c1) ∈ granted s -> (j, t, c2) ∈ granted s -> c1 = c2.
Proof. intros Hr. apply (inv_once s (reachable_inv s Hr)). Qed.
End invariant.
