(* ===== verification/RaftRuns.v ===== *)
(** Runs of the cluster model, evaluated: a careful run that elects a leader, and runs in
    which the gaps of the election code have consequences. *)
From S2P Require Import Prelude Persister RaftTypes RaftTools RaftPersist RaftLog RaftLogFacts.
From S2P Require Import RaftReplication RaftElection RaftAppend RaftSnapshot RaftNode RaftCluster.
From S2P Require Import RaftSafety RaftElectionSafety.

(** ** Checking that a run is careful *)

Section careful_run.
Context {C : Type} `{GobLaws C}.

Definition careful_votes (s s' : Cluster C) : bool :=
  forallb (fun '(j, t, c) => bool_decide ((j, t, c) ∈ granted s) || bool_decide ((t, j) ∉ elected s))
    (granted s').
Definition careful_lead (s : Cluster C) (a : action C) : bool :=
  match a with
  | ARun k _ _ =>
    match threads s !! k with
    | Some (i, ThToLeader t) =>
      match nodes s !! i with Some rf => currentTerm rf =? t | None => true end
    | _ => true
    end
  | _ => true
  end.

Fixpoint careful_run (l : list (action C)) (s : Cluster C) : option (Cluster C) :=
  match l with
  | [] => Some s
  | a :: l =>
    s' ← cstep a s;
    if careful_votes s s' && careful_lead s a then careful_run l s' else None
  end.

Lemma careful_check s a s' :
  careful_votes s s' && careful_lead s a = true -> careful s a s'.
Proof.
  intros [Hv Hl]%andb_true_iff. split.
  - intros j t c Hin%list_elem_of_In. unfold careful_votes in Hv. rewrite forallb_forall in Hv.
    specialize (Hv _ Hin). cbn in Hv. apply orb_true_iff in Hv.
    by destruct Hv as [?%bool_decide_eq_true | ?%bool_decide_eq_true]; [left | right].
  - intros k now rnd i t rf -> Hk Hi. cbn in Hl. rewrite Hk, Hi in Hl. by apply Z.eqb_eq.
Qed.

Lemma careful_run_reaches n l s s' :
  carefully_reachable n s -> careful_run l s = Some s' -> carefully_reachable n s'.
Proof.
  revert s; induction l as [|a l IH]; intros s Hs; cbn; [by intros [= <-] |].
  destruct (cstep a s) as [s1|] eqn:E; [|done]. cbn.
  destruct (careful_votes s s1 && careful_lead s a) eqn:Hc; [|done].
  apply IH. by eapply careful_step; [| | apply careful_check].
Qed.
End careful_run.

(** ** Three peers *)

Module Runs.
Import ZCodec.

(** Peer 0 times out, gets the vote of peer 1 and becomes leader of term 1. *)
Definition elect_0 : list (action Z) :=
  [ARun 0 1000 0; ARun 2 1000 0; ADeliver 0 1000; AReturn 0 true; AReturn 0 false; ARun 3 1000 0].
(** Peer 2 times out too and asks peer 0, the leader, for its vote. *)
Definition elect_2 : list (action Z) :=
  [ARun 1 1000 0; ARun 3 1000 0; ADeliver 0 1000; AReturn 0 true; AReturn 0 false; ARun 4 1000 0].
(** Both leaders accept a command, replicate it to peer 1 and commit it. *)
Definition commit_both : list (action Z) :=
  [AStart 0 7; AStart 2 8; ARun 5 1000 0; ARun 5 1000 0; ADeliver 0 1000; AReturn 0 true;
   ADeliver 2 1000; AReturn 2 true; ARun 2 1000 0; ARun 4 1000 0; ARun 3 1000 0; ARun 4 1000 0].

Definition after (l : list (action Z)) : Cluster Z := default (boot 3) (crun l (boot 3)).

Lemma after_reachable l s : crun l (boot 3) = Some s -> reachable 3 (after l).
Proof. intros Hr. unfold after. rewrite Hr. by eapply reachable_run; [apply reach_boot|]. Qed.

Definition is_leader_of (t : Z) (rf : Raft Z) : bool := (role rf =? Leader) && (currentTerm rf =? t).

(** C12 (election safety fails): the cluster can reach a state in which two peers are
    leader of the same term.  [toLeader] has erased and persisted the leader's own
    vote, and the vote handler's branch for a leader does not return, so the leader of
    a term votes for another candidate of that term. *)
Theorem two_leaders_one_term : exists s, reachable (C := Z) 3 s /\
  exists ri rj, nodes s !! 0%nat = Some ri /\ nodes s !! 2%nat = Some rj
    /\ role ri = Leader /\ role rj = Leader /\ currentTerm ri = 1 /\ currentTerm rj = 1.
Proof.
  exists (after (elect_0 ++ elect_2)). split.
  - eapply after_reachable. vm_compute. reflexivity.
  - assert (exists ri rj, nodes (after (elect_0 ++ elect_2)) !! 0%nat = Some ri
      /\ nodes (after (elect_0 ++ elect_2)) !! 2%nat = Some rj) as (ri & rj & Hi & Hj).
    { eexists _, _. split; vm_compute; reflexivity. }
    exists ri, rj. rewrite Hi, Hj. vm_compute in Hi, Hj. simplify_eq. done.
Qed.

(** C13 (state machine safety fails): from there both leaders commit, and two peers
    hand their services different commands as entry 1. *)
Theorem committed_entries_diverge : exists s, reachable (C := Z) 3 s /\
  exists ri rj, nodes s !! 0%nat = Some ri /\ nodes s !! 2%nat = Some rj
    /\ pendingPuts ri = [[mkApplyMsg true (Some 7) 1 false [] 0 0]]
    /\ pendingPuts rj = [[mkApplyMsg true (Some 8) 1 false [] 0 0]].
Proof.
  exists (after (elect_0 ++ elect_2 ++ commit_both)). split.
  - eapply after_reachable. vm_compute. reflexivity.
  - eexists _, _. vm_compute. repeat split; reflexivity.
Qed.

(** The first election alone is careful. *)
Lemma election_safety_witness :
  exists s ri, carefully_reachable (C := Z) 3 s /\ nodes s !! 0%nat = Some ri /\ role ri = Leader
    /\ (0%nat = 0%nat /\ quorum 3 s (currentTerm ri) 0 /\ (stored ri).1 = currentTerm ri).
Proof.
  assert (exists s, careful_run elect_0 (boot 3) = Some s /\
    (role <$> nodes s !! 0%nat) = Some Leader) as (s & Hrun & Hr).
  { eexists. split; vm_compute; reflexivity. }
  assert (carefully_reachable (C := Z) 3 s) as Hreach.
  { eapply careful_run_reaches; [apply careful_boot | exact Hrun]. }
  destruct (nodes s !! 0%nat) as [ri|] eqn:Hi; [|done]. injection Hr as Hr.
  exists s, ri. split; [done |]. split; [done |]. split; [done |].
  exact (election_safety 3 s 0 0 ri ri Hreach Hi Hi Hr Hr eq_refl).
Defined.

Lemma vote_once_witness :
  exists s, carefully_reachable (C := Z) 3 s /\ (1%nat, 1, 0) ∈ granted s /\ 0 = 0.
Proof.
  assert (exists s, careful_run elect_0 (boot 3) = Some s /\ granted s = [(1%nat, 1, 0); (0%nat, 1, 0)])
    as (s & Hrun & Hg).
  { eexists. split; vm_compute; reflexivity. }
  assert (carefully_reachable (C := Z) 3 s) as Hreach.
  { eapply careful_run_reaches; [apply careful_boot | exact Hrun]. }
  assert ((1%nat, 1, 0) ∈ granted s) as Hin by (rewrite Hg; by left).
  exists s. split; [done |]. split; [done |]. exact (vote_once 3 s 1 1 0 0 Hreach Hin Hin).
Defined.

(** Peer 0 leads, commits its first entry with peer 1, whose service then takes a
    snapshot; the first AppendEntries to peer 1 arrives late. *)
Definition late_append : list (action Z) :=
  [AStart 0 7; ARun 4 1000 0; ARun 3 1000 0; ARun 3 1000 0; ARun 3 1000 0; ADeliver 2 1000;
   AReturn 2 true; ARun 3 1000 0; ARun 3 1000 0; ARun 3 1000 0; ADeliver 3 1000;
   ASnapshot 1 1 [x01]; ADeliver 0 1000].

(** A late AppendEntries makes a restart hang: in a run with one leader and no
    crash, a peer can come to hold, and have saved, an entry that its snapshot already
    covers; [Make] on its storage then never returns. *)
Theorem late_append_blocks_restart : exists s rf, carefully_reachable (C := Z) 3 s
  /\ nodes s !! 1%nat = Some rf /\ snapshotIndex rf = 0 /\ log rf = [mkLogEntry 1 0 7]
  /\ forall now rnd, Make 3 1 (persister rf) now rnd = Hang "putApplyChBuffer".
Proof.
  assert (exists s, careful_run (elect_0 ++ late_append) (boot 3) = Some s /\
    exists rf, nodes s !! 1%nat = Some rf /\ snapshotIndex rf = 0 /\ log rf = [mkLogEntry 1 0 7]
      /\ forall now rnd, Make 3 1 (persister rf) now rnd = Hang "putApplyChBuffer")
    as (s & Hrun & rf & Hrf).
  { eexists. split; [vm_compute; reflexivity |]. eexists. split; [reflexivity |].
    split; [reflexivity |]. split; [reflexivity |]. intros. vm_compute. reflexivity. }
  exists s, rf. split; [|exact Hrf]. eapply careful_run_reaches; [apply careful_boot | exact Hrun].
Qed.
End Runs.
