(* ===== verification/RaftChains.v ===== *)
(** Logs as chains: a record of which command, after an entry of which term, was
    appended at an index in a term; the logs and requests that follow one record; and
    that every operation of a peer keeps its log on the record. *)
From S2P Require Import Prelude Persister RaftTypes RaftTools RaftPersist RaftLog RaftLogFacts.
From S2P Require Import RaftReplication RaftElection RaftAppend RaftSnapshot RaftNode RaftCluster RaftSafety RaftElectionSafety.

(** What was appended: index and term of an entry to its command and the term of the
    entry before it. *)
Abbreviation record_of C := (gmap (Z * Z) (C * Z)).

Section chains.
Context {C : Type}.
Implicit Types (G : record_of C) (l old new : list (LogEntry C)) (a b e : LogEntry C).

(** The entries of [l] have the indexes after [i], the first of them was appended after
    an entry of term [t], and each other one after the entry before it in [l]. *)
Fixpoint chain G (i t : Z) l : Prop :=
  match l with
  | [] => True
  | e :: l' => le_Index e = i + 1 /\ G !! (i + 1, le_Term e) = Some (le_Command e, t)
               /\ chain G (i + 1) (le_Term e) l'
  end.

(** The term of the last entry, [t] if there is none. *)
Definition end_term (t : Z) l : Z := from_option le_Term t (last l).

Lemma chain_mono G G' i t l : G ⊆ G' -> chain G i t l -> chain G' i t l.
Proof.
  intros Hsub. revert i t; induction l as [|e l IH]; intros i t; [done |].
  cbn. intros (? & ? & ?). split; [done |]. split; [by eapply lookup_weaken | by apply IH].
Qed.

Lemma chain_consecutive G i t l : chain G i t l -> consecutive (i + 1) l.
Proof.
  revert i t; induction l as [|e l IH]; intros i t; [intros _; apply consecutive_nil |].
  intros (? & _ & ?). apply consecutive_cons. split; [done | by eapply IH].
Qed.

Lemma end_term_cons t e l : end_term t (e :: l) = end_term (le_Term e) l.
Proof. unfold end_term. rewrite last_cons. by destruct (last l). Qed.

Lemma chain_app G i t l1 l2 :
  chain G i t (l1 ++ l2) <-> chain G i t l1 /\ chain G (i + len l1) (end_term t l1) l2.
Proof.
  revert i t; induction l1 as [|e l1 IH]; intros i t; cbn [app chain length].
  - replace (i + Z.of_nat 0) with i by lia. unfold end_term. cbn. tauto.
  - rewrite IH, end_term_cons. replace (i + 1 + len l1) with (i + Z.of_nat (S (length l1))) by lia.
    tauto.
Qed.

Lemma chain_take G i t k l : chain G i t l -> chain G i t (take k l).
Proof. rewrite <- (take_drop k l) at 1. rewrite chain_app. tauto. Qed.

Lemma chain_drop G i t k l :
  (k <= length l)%nat -> chain G i t l -> chain G (i + Z.of_nat k) (end_term t (take k l)) (drop k l).
Proof.
  intros Hk. rewrite <- (take_drop k l) at 1. rewrite chain_app, length_take, Nat.min_l by lia. tauto.
Qed.

(** The term before position [k] of a list that follows an entry of term [t]. *)
Lemma end_term_take t k e l : l !! k = Some e -> end_term t (take (S k) l) = le_Term e.
Proof. intros Hk. unfold end_term. by rewrite (take_S_r _ _ _ Hk), last_snoc. Qed.

Lemma chain_drop_after G i t k e l :
  chain G i t l -> l !! k = Some e -> chain G (le_Index e) (le_Term e) (drop (S k) l).
Proof.
  intros Hc Hk. pose proof (chain_consecutive _ _ _ _ Hc _ _ Hk) as Hi.
  pose proof (lookup_lt_Some _ _ _ Hk). apply (chain_drop _ _ _ (S k)) in Hc; [|lia].
  rewrite (end_term_take _ _ _ _ Hk) in Hc. by replace (le_Index e) with (i + Z.of_nat (S k)) by lia.
Qed.

Lemma chain_snoc G i t l e :
  chain G i t l -> le_Index e = i + len l + 1 ->
  G !! (i + len l + 1, le_Term e) = Some (le_Command e, end_term t l) -> chain G i t (l ++ [e]).
Proof. intros Hl Hi He. apply chain_app. split; [done |]. by repeat split. Qed.

(** Two lists that follow entries of one index and term: an entry at the same place with
    the same term is the same entry. *)
Lemma chain_reconcile G i t old new :
  chain G i t old -> chain G i t new -> chain G i t (reconcile old new).
Proof.
  revert i t new; induction old as [|a old IH]; intros i t [|b new] Ho Hn; try done.
  cbn [reconcile]. destruct (Z.eqb_spec (le_Term a) (le_Term b)) as [Hab|]; [|done].
  destruct Ho as (? & ? & Ho), Hn as (_ & _ & Hn). rewrite <- Hab in Hn.
  split; [done |]. split; [done |]. by apply IH.
Qed.

(** ** Log matching for two lists on one record *)

(** The record has the entry at position [k], and tells the term of the one before. *)
Lemma chain_lookup G i t l k e :
  chain G i t l -> l !! k = Some e ->
  le_Index e = i + 1 + Z.of_nat k
  /\ G !! (le_Index e, le_Term e) = Some (le_Command e, end_term t (take k l)).
Proof.
  intros Hc Hk. pose proof (chain_consecutive _ _ _ _ Hc _ _ Hk) as Hi. split; [done |].
  pose proof (lookup_lt_Some _ _ _ Hk). apply (chain_drop _ _ _ k) in Hc; [|lia].
  rewrite (drop_S _ _ _ Hk) in Hc. destruct Hc as (_ & Hc & _). rewrite Hi.
  by replace (i + 1 + Z.of_nat k) with (i + Z.of_nat k + 1) by lia.
Qed.

Lemma entry_eq a b :
  le_Term a = le_Term b -> le_Index a = le_Index b -> le_Command a = le_Command b -> a = b.
Proof. destruct a, b. cbn. congruence. Qed.

(** If two chains share an entry's index and term, they agree there and at every
    earlier position that both have; [d] counts down from the shared position. *)
Lemma chain_agree G i1 t1 l1 i2 t2 l2 (k1 k2 d : nat) a b x y :
  chain G i1 t1 l1 -> chain G i2 t2 l2 ->
  l1 !! (k1 + d)%nat = Some a -> l2 !! (k2 + d)%nat = Some b ->
  le_Index a = le_Index b -> le_Term a = le_Term b ->
  l1 !! k1 = Some x -> l2 !! k2 = Some y -> x = y.
Proof.
  intros H1 H2. revert a b; induction d as [|d IH]; intros a b Ha Hb Hi Ht Hx Hy.
  all: destruct (chain_lookup _ _ _ _ _ _ H1 Ha) as [_ Ga];
    destruct (chain_lookup _ _ _ _ _ _ H2 Hb) as [_ Gb];
    rewrite Hi, Ht, Gb in Ga; injection Ga as Hcmd Hend.
  - rewrite Nat.add_0_r in Ha, Hb. simplify_eq. by apply entry_eq.
  - rewrite Nat.add_succ_r in Ha, Hb, Hend. rewrite Nat.add_succ_r in Hend.
    destruct (lookup_lt_is_Some_2 l1 (k1 + d)) as [a' Ha']; [apply lookup_lt_Some in Ha; lia |].
    destruct (lookup_lt_is_Some_2 l2 (k2 + d)) as [b' Hb']; [apply lookup_lt_Some in Hb; lia |].
    rewrite (end_term_take _ _ _ _ Ha'), (end_term_take _ _ _ _ Hb') in Hend.
    destruct (chain_lookup _ _ _ _ _ _ H1 Ha) as [Ia _], (chain_lookup _ _ _ _ _ _ H2 Hb) as [Ib _].
    destruct (chain_lookup _ _ _ _ _ _ H1 Ha') as [Ia' _], (chain_lookup _ _ _ _ _ _ H2 Hb') as [Ib' _].
    apply (IH a' b'); try done; lia.
Qed.

(** Log matching, in the words of the paper. *)
Lemma chains_match G i1 t1 l1 i2 t2 l2 a b x y :
  chain G i1 t1 l1 -> chain G i2 t2 l2 -> a ∈ l1 -> b ∈ l2 ->
  le_Index a = le_Index b -> le_Term a = le_Term b ->
  x ∈ l1 -> y ∈ l2 -> le_Index x = le_Index y -> le_Index x <= le_Index a -> x = y.
Proof.
  intros H1 H2 (ka & Ha)%list_elem_of_lookup (kb & Hb)%list_elem_of_lookup Hi Ht
    (kx & Hx)%list_elem_of_lookup (ky & Hy)%list_elem_of_lookup Hxy Hle.
  destruct (chain_lookup _ _ _ _ _ _ H1 Ha) as [Ia _], (chain_lookup _ _ _ _ _ _ H2 Hb) as [Ib _].
  destruct (chain_lookup _ _ _ _ _ _ H1 Hx) as [Ix _], (chain_lookup _ _ _ _ _ _ H2 Hy) as [Iy _].
  apply (chain_agree G i1 t1 l1 i2 t2 l2 kx ky (ka - kx) a b x y); try done.
  - by replace (kx + (ka - kx))%nat with ka by lia.
  - by replace (ky + (ka - kx))%nat with kb by lia.
Qed.
End chains.

(** ** The log of a peer on the record *)

Section peers.
Context {C : Type} `{GobLaws C}.
Implicit Types (G : record_of C) (rf : Raft C) (args : AppendEntriesArgs C).

(** The log and the snapshot position that a restart would find. *)
Definition stored_log rf : list (LogEntry C) * Z * Z :=
  let r := readPersist (ReadRaftState (persister rf)) (fresh 0 0 0 0 : Raft C) in
  (log r, snapshotIndex r, snapshotTerm r).
Definition log_part rf : list (LogEntry C) * Z * Z := (log rf, snapshotIndex rf, snapshotTerm rf).
Definition saved rf : Prop := stored_log rf = log_part rf.

(** The log follows the snapshot on the record, and is on disk. *)
Record node_log G rf : Prop := {
  nl_chain : chain G (snapshotIndex rf) (snapshotTerm rf) (log rf);
  nl_low : -1 <= snapshotIndex rf;
  nl_none : snapshotIndex rf = -1 -> snapshotTerm rf = 0;
  nl_saved : saved rf }.

(** The entries of a request follow its previous entry on the record. *)
Record request_chain G args : Prop := {
  rc_chain : chain G (aea_PrevLogIndex args) (aea_PrevLogTerm args) (aea_Entries args);
  rc_low : -1 <= aea_PrevLogIndex args;
  rc_none : aea_PrevLogIndex args = -1 -> aea_PrevLogTerm args = 0 }.

(** The term a request gives for the entry at index [i], if it covers [i]. *)
Definition term_at args (i : Z) : option Z :=
  if i =? aea_PrevLogIndex args then Some (aea_PrevLogTerm args)
  else le_Term <$> aea_Entries args !! Z.to_nat (i - aea_PrevLogIndex args - 1).

(** A request does not contradict a peer's snapshot: it does not start before the
    first entry, and gives the snapshot's last entry the term the snapshot has. *)
Definition agrees args rf : Prop :=
  0 <= snapshotIndex rf ->
  0 <= aea_PrevLogIndex args
  /\ (aea_PrevLogIndex args <= snapshotIndex rf ->
      forall t, term_at args (snapshotIndex rf) = Some t -> t = snapshotTerm rf).

Lemma node_log_ok G rf : node_log G rf -> log_ok rf.
Proof. intros [Hc _ _ _]. by eapply chain_consecutive. Qed.

Lemma node_log_mono G G' rf : G ⊆ G' -> node_log G rf -> node_log G' rf.
Proof. intros Hs [? ? ? ?]. split; try done. by eapply chain_mono. Qed.

Lemma request_chain_mono G G' args : G ⊆ G' -> request_chain G args -> request_chain G' args.
Proof. intros Hs [? ? ?]. split; try done. by eapply chain_mono. Qed.

Lemma saved_persist rf : saved (persist rf).
Proof.
  unfold saved, stored_log. rewrite (readPersist_restores (persist rf)) by apply persist_persisted. done.
Qed.

(** ** Operations that leave the log alone *)

Definition keeps_log rf rf' : Prop :=
  log_part rf' = log_part rf /\ (persister rf' = persister rf \/ saved rf').

Lemma keeps_refl rf : keeps_log rf rf.
Proof. split; [done | by left]. Qed.

Lemma keeps_persist rf rf' : log_part rf' = log_part rf -> keeps_log rf (persist rf').
Proof. intros Hl. split; [done | right; apply saved_persist]. Qed.

Lemma node_log_keeps G rf rf' : keeps_log rf rf' -> node_log G rf -> node_log G rf'.
Proof.
  intros [Hl Hp] [Hc Hlow Hn Hs]. pose proof Hl as Hl'. injection Hl' as Elog Esi Est.
  split; rewrite ?Elog, ?Esi, ?Est; try done.
  destruct Hp as [Hp|Hp]; [|done]. unfold saved, stored_log in *. by rewrite Hp, Hl.
Qed.

Lemma toFollower_part term rf : log_part (toFollower term rf) = log_part rf.
Proof. unfold toFollower. by destruct (_ <? _). Qed.

Lemma sendCommitted_part rf p c rf' :
  sendCommittedLogChannel rf p c = Done rf' -> log_part rf' = log_part rf.
Proof. unfold sendCommittedLogChannel. intros Hr. go_inv; reflexivity. Qed.

Lemma followerUpdate_part rf lc rf' :
  followerUpdateCommitIndex rf lc = Done rf' -> log_part rf' = log_part rf.
Proof.
  unfold followerUpdateCommitIndex. intros Hr. destruct (lc <=? commitIndex rf); [by go_inv |].
  by apply sendCommitted_part in Hr.
Qed.

Lemma leaderHandleLog_part rf args reply rf' :
  leaderHandleLog rf args reply = Done rf' -> log_part rf' = log_part rf.
Proof. unfold leaderHandleLog. intros Hr. go_inv; reflexivity. Qed.

Lemma AppendEntriesResponse_keeps rf args reply rf' :
  AppendEntriesResponseHandler rf args reply = Done rf' -> keeps_log rf rf'.
Proof.
  unfold AppendEntriesResponseHandler. intros Hr. destruct (_ || _); [by go_inv; apply keeps_persist |].
  destruct (_ <? _); [go_inv; apply keeps_persist, toFollower_part |].
  apply go_bind_Done in Hr as (rf1 & H1 & Hr). injection Hr as <-.
  by eapply keeps_persist, leaderHandleLog_part.
Qed.

Lemma InstallSnapshotResponse_keeps rf sargs reply rf' :
  InstallSnapshotResponseHandler rf sargs reply = Done rf' -> keeps_log rf rf'.
Proof.
  unfold InstallSnapshotResponseHandler. intros Hr. destruct (_ || _); [by go_inv; apply keeps_persist |].
  destruct (_ <? _); [go_inv; apply keeps_persist, toFollower_part |].
  apply go_bind_Done in Hr as (m & _ & Hr). destruct (_ <=? m); [by go_inv; apply keeps_persist |].
  apply go_bind_Done in Hr as (ni & _ & Hr). apply go_bind_Done in Hr as (mi & _ & Hr).
  injection Hr as <-. by apply keeps_persist.
Qed.

Lemma leaderUpdate_keeps rf rf' : leaderUpdateCommitIndex rf = Done rf' -> keeps_log rf rf'.
Proof.
  unfold leaderUpdateCommitIndex. intros Hr.
  destruct (_ && _); [by go_inv; apply keeps_persist |].
  apply go_bind_Done in Hr as (m & _ & Hr).
  destruct (m =? -1); [by go_inv; apply keeps_persist |].
  destruct (negb _); [by go_inv; apply keeps_persist |].
  apply go_bind_Done in Hr as (e & _ & Hr).
  destruct (_ =? _); [|by go_inv; apply keeps_persist].
  apply go_bind_Done in Hr as (rf1 & H1 & Hr). apply sendCommitted_part in H1.
  injection Hr as <-. by apply keeps_persist.
Qed.

Lemma RequestVoteRequest_keeps now rf vargs reply :
  keeps_log rf (RequestVoteRequestHandler now rf vargs reply).1.
Proof.
  destruct (requestVote_eval now rf vargs reply) as (r & -> & _). apply keeps_persist.
  set (rf1 := if currentTerm rf <? rva_Term vargs then _ else rf).
  assert (log_part rf1 = log_part rf) as Hp.
  { subst rf1. destruct (_ <? _); [apply toFollower_part | done]. }
  by destruct (rvr_VoteGranted r).
Qed.

Lemma RequestVoteResponse_keeps rf vargs reply :
  keeps_log rf (RequestVoteResponseHandler rf vargs reply).1.
Proof.
  unfold RequestVoteResponseHandler. repeat case_match; cbn [fst];
    first [ apply keeps_refl | by split; [|left]
          | split; [apply toFollower_part | left; apply toFollower_frame] ].
Qed.

Lemma RequestVoteResponse_persister rf vargs reply :
  persister (RequestVoteResponseHandler rf vargs reply).1 = persister rf.
Proof.
  unfold RequestVoteResponseHandler. repeat case_match; cbn [fst]; try done. apply toFollower_frame.
Qed.

Lemma toLeader_keeps rf rf' : toLeader rf = Done rf' -> keeps_log rf rf'.
Proof.
  unfold toLeader. intros (mi & _ & Hr)%go_bind_Done. injection Hr as <-. by apply keeps_persist.
Qed.

Lemma toCandidate_keeps now rnd rf : keeps_log rf (toCandidate now rnd rf).1.
Proof.
  unfold toCandidate. destruct (getLastLogIndexAndTerm _) as [li lt]. by apply keeps_persist.
Qed.
End peers.

(** ** Operations that change the log *)

Section changes.
Context {C : Type} `{GobLaws C}.
Implicit Types (G : record_of C) (rf : Raft C) (args : AppendEntriesArgs C).

Lemma term_at_take args k :
  (k <= length (aea_Entries args))%nat ->
  term_at args (aea_PrevLogIndex args + Z.of_nat k) =
    Some (end_term (aea_PrevLogTerm args) (take k (aea_Entries args))).
Proof.
  intros Hk. unfold term_at. destruct (Z.eqb_spec (aea_PrevLogIndex args + Z.of_nat k) (aea_PrevLogIndex args)).
  - by replace k with 0%nat by lia.
  - destruct k as [|k]; [lia |].
    destruct (lookup_lt_is_Some_2 (aea_Entries args) k) as [e He]; [lia |].
    rewrite (end_term_take _ _ _ _ He).
    replace (Z.to_nat (aea_PrevLogIndex args + Z.of_nat (S k) - aea_PrevLogIndex args - 1)) with k by lia.
    by rewrite He.
Qed.

(** A request on the record that does not contradict the snapshot is well-formed for
    the peer. *)
Lemma request_on_record G rf args :
  node_log G rf -> request_chain G args -> agrees args rf -> request_ok rf args.
Proof.
  intros [Hc Hlow _ _] [Hr Hrl _] Hag. split; [done |]. split; [done |]. split.
  { intros Hp. destruct (decide (0 <= snapshotIndex rf)) as [Hs|]; [|lia].
    destruct (Hag Hs). lia. }
  split; [by eapply chain_consecutive |]. intros a b Ha Hb Hi Ht.
  apply (chains_match G _ _ _ _ _ _ a b a b Hc Hr); (done || lia).
Qed.

(** Where the snapshot ends inside a request, the two agree. *)
Lemma covered_term G rf args :
  node_log G rf -> request_chain G args -> agrees args rf ->
  aea_PrevLogIndex args <= snapshotIndex rf ->
  let k := Z.to_nat (snapshotIndex rf - aea_PrevLogIndex args) in
  (k <= length (aea_Entries args))%nat ->
  end_term (aea_PrevLogTerm args) (take k (aea_Entries args)) = snapshotTerm rf.
Proof.
  intros [_ Hlow Hn _] [_ Hrl Hrn] Hag Hle k Hk. pose proof (term_at_take args k Hk) as Hterm.
  replace (aea_PrevLogIndex args + Z.of_nat k) with (snapshotIndex rf) in Hterm by lia.
  destruct (decide (0 <= snapshotIndex rf)) as [Hs|].
  - apply (Hag Hs); done.
  - replace k with 0%nat by lia. rewrite take_0, Hn by lia. cbn. apply Hrn. lia.
Qed.

Lemma covered_chain G rf args :
  node_log G rf -> request_chain G args -> agrees args rf ->
  aea_PrevLogIndex args <= snapshotIndex rf ->
  chain G (snapshotIndex rf) (snapshotTerm rf)
    (drop (Z.to_nat (snapshotIndex rf - aea_PrevLogIndex args)) (aea_Entries args)).
Proof.
  intros Hnl Hrc Hag Hle. pose proof (covered_term G rf args Hnl Hrc Hag Hle) as Hterm.
  set (k := Z.to_nat (snapshotIndex rf - aea_PrevLogIndex args)) in *.
  destruct (decide (k <= length (aea_Entries args))%nat) as [Hk|]; [|by rewrite drop_ge by lia].
  pose proof (chain_drop _ _ _ k _ Hk (rc_chain _ _ Hrc)) as Hr. rewrite (Hterm Hk) in Hr.
  by replace (aea_PrevLogIndex args + Z.of_nat k) with (snapshotIndex rf) in Hr by lia.
Qed.

(** The receiver rules keep the log on the record. *)
Lemma receiver_chain G rf args :
  node_log G rf -> request_chain G args -> agrees args rf ->
  chain G (snapshotIndex rf) (snapshotTerm rf) (snd (receiver_rules rf args)).
Proof.
  intros Hnl Hrc Hag. pose proof Hnl as [Hc _ _ _]. pose proof Hrc as [Hr _ _]. unfold receiver_rules.
  destruct (Z.ltb_spec (snapshotIndex rf + len (log rf)) (aea_PrevLogIndex args)); [done |].
  destruct (Z.leb_spec (aea_PrevLogIndex args) (snapshotIndex rf)).
  { apply chain_reconcile; [done | by apply covered_chain]. }
  destruct (log rf !! _) as [e|] eqn:He; [|done].
  destruct (Z.eqb_spec (le_Term e) (aea_PrevLogTerm args)) as [Ht|]; [|by apply chain_take].
  destruct (chain_lookup _ _ _ _ _ _ Hc He) as [Hi _]. pose proof (lookup_lt_Some _ _ _ He).
  set (k := Z.to_nat (aea_PrevLogIndex args - snapshotIndex rf - 1)) in *.
  replace (Z.to_nat (aea_PrevLogIndex args - snapshotIndex rf)) with (S k) by lia.
  cbn [snd]. apply chain_app. split; [by apply chain_take |].
  rewrite (end_term_take _ _ _ _ He), Ht, length_take, Nat.min_l by lia.
  replace (snapshotIndex rf + Z.of_nat (S k)) with (aea_PrevLogIndex args) by lia.
  apply chain_reconcile; [|done].
  pose proof (chain_drop_after _ _ _ _ _ _ Hc He) as Hd. rewrite Ht in Hd.
  by replace (le_Index e) with (aea_PrevLogIndex args) in Hd by lia.
Qed.

(** A handler that answers a stale leader keeps the log; one that follows the leader
    takes its term. *)
Lemma AppendEntriesRequest_log G now rf args reply rf' reply' :
  node_log G rf -> request_chain G args -> (currentTerm rf <= aea_Term args -> agrees args rf) ->
  AppendEntriesRequestHandler now rf args reply = Done (rf', reply') ->
  node_log G rf' /\ (keeps_log rf rf' \/ (stored rf').1 = aea_Term args).
Proof.
  intros Hnl Hrc Hag Hh. destruct (Z.ltb_spec (aea_Term args) (currentTerm rf)) as [Hst|Hnew].
  { unfold AppendEntriesRequestHandler in Hh.
    destruct (Z.ltb_spec (aea_Term args) (currentTerm rf)); [|lia]. injection Hh as <- <-.
    assert (keeps_log rf (persist rf)) as Hk by by apply keeps_persist.
    split; [by eapply node_log_keeps | by left]. }
  specialize (Hag Hnew). pose proof (request_on_record G rf args Hnl Hrc Hag) as Hreq.
  pose proof (receiver_chain G rf args Hnl Hrc Hag) as Hch.
  destruct (appendEntries_log now rf args reply (node_log_ok _ _ Hnl) Hnew Hreq)
    as (r & _ & _ & _ & He). rewrite He in Hh. clear He.
  assert (exists rf1, log_part rf1 = log_part (reconciled now rf args) /\ rf' = persist rf1
    /\ currentTerm rf1 = currentTerm (reconciled now rf args)) as (rf1 & Hp & -> & Ht1).
  { destruct (fst (receiver_rules rf args)); [|by injection Hh as <- <-; eexists].
    apply go_bind_Done in Hh as (rf2 & H2 & Hh). injection Hh as <- <-. exists rf2.
    split; [by eapply followerUpdate_part |]. split; [done |].
    apply followerUpdate_ballot in H2. by injection H2. }
  assert (currentTerm rf1 = aea_Term args) as Ht.
  { rewrite Ht1. cbn. rewrite toFollower_term. lia. }
  split; [|by right; rewrite stored_persist]. clear Hh. unfold reconciled, log_part in Hp. cbn in Hp.
  pose proof (toFollower_frame (aea_Term args) rf) as (_ & Hsi & Hstt & _). rewrite Hsi, Hstt in Hp.
  injection Hp as E1 E2 E3. destruct Hnl as [_ Hlow Hn _].
  split; [..|apply saved_persist]; cbn; rewrite ?E1, ?E2, ?E3; done.
Qed.

Lemma InstallSnapshotRequest_log G now rf sargs reply rf' reply' :
  node_log G rf -> InstallSnapshotRequestHandler now rf sargs reply = Done (rf', reply') ->
  node_log G rf' /\ (keeps_log rf rf' \/ (stored rf').1 = isa_Term sargs).
Proof.
  intros Hnl Hh. pose proof Hnl as [Hc Hlow Hn _]. unfold InstallSnapshotRequestHandler in Hh.
  destruct (_ && _); [done |].
  assert (forall r, log_part r = log_part rf -> node_log G (persist r) /\
    (keeps_log rf (persist r) \/ (stored (persist r)).1 = isa_Term sargs)) as Hkeep.
  { intros r Hr. assert (keeps_log rf (persist r)) as Hk by by apply keeps_persist.
    split; [by eapply node_log_keeps | by left]. }
  destruct (Z.ltb_spec (isa_Term sargs) (currentTerm rf)) as [|Hnew]; [injection Hh as <- <-; by apply Hkeep |].
  set (rf0 := rf <| lastHeartbeatTime := now |>) in Hh.
  destruct (Z.leb_spec (isa_LastIncludedIndex sargs) (snapshotIndex rf0)) as [|Hlt];
    [injection Hh as <- <-; by apply Hkeep |].
  change (snapshotIndex rf0) with (snapshotIndex rf) in Hlt.
  set (rf1 := if currentTerm rf0 <? isa_Term sargs then _ else _) in Hh.
  assert (log_part rf1 = log_part rf /\ currentTerm rf1 = isa_Term sargs) as [Hp1 Ht1].
  { subst rf1. change (currentTerm rf0) with (currentTerm rf).
    destruct (Z.ltb_spec (currentTerm rf) (isa_Term sargs)).
    - split; [rewrite toFollower_part; done |]. rewrite toFollower_term. cbn. lia.
    - split; [done | cbn; lia]. }
  injection Hp1 as E1 E2 E3. clearbody rf1. clear Hkeep.
  destruct (findIndex rf1 (isa_LastIncludedIndex sargs) =? -1).
  - destruct (_ <? _); [done |]. injection Hh as <- <-. split; [|by right; rewrite stored_persist].
    split; [done | cbn; lia | cbn; lia | apply saved_persist].
  - apply go_bind_Done in Hh as (e & He & Hh). destruct (negb _); [done |].
    apply go_bind_Done in Hh as (l & Hl & Hh). injection Hh as <- <-.
    apply go_index_Done in He as [Hpos He]. rewrite E1 in He, Hl.
    destruct (chain_lookup _ _ _ _ _ _ Hc He) as [Hi _].
    pose proof (lookup_lt_Some _ _ _ He). rewrite slice_from_Done in Hl by lia. injection Hl as <-.
    pose proof (chain_drop_after _ _ _ _ _ _ Hc He) as Hd.
    replace (S (Z.to_nat (findIndex rf1 (isa_LastIncludedIndex sargs))))
      with (Z.to_nat (findIndex rf1 (isa_LastIncludedIndex sargs) + 1)) in Hd by lia.
    split; [|right; rewrite stored_persist; by destruct (_ <? _)].
    split; [..|apply saved_persist]; destruct (_ <? _); cbn; (done || lia).
Qed.
End changes.

(** ** The leader's side, compaction and restart *)

Section sources.
Context {C : Type} `{GobLaws C}.
Implicit Types (G : record_of C) (rf : Raft C).

Lemma getLast_chain G rf :
  node_log G rf ->
  getLastLogIndexAndTerm rf = (lastIndex rf, end_term (snapshotTerm rf) (log rf)).
Proof.
  intros Hnl. pose proof (lastIndex_spec rf (node_log_ok _ _ Hnl)) as Hl.
  unfold lastIndex. rewrite <- Hl. unfold getLastLogIndexAndTerm, end_term. by destruct (last (log rf)).
Qed.

(** [Start] extends the record, at a place where it has nothing. *)
Definition appended G rf (command : C) : record_of C :=
  <[(lastIndex rf + 1, currentTerm rf) := (command, end_term (snapshotTerm rf) (log rf))]> G.

Lemma Start_log G rf command rf' r :
  node_log G rf -> role rf = Leader -> G !! (lastIndex rf + 1, currentTerm rf) = None ->
  Start rf command = Done (rf', r) ->
  G ⊆ appended G rf command /\ node_log (appended G rf command) rf'
  /\ lastIndex rf' = lastIndex rf + 1 /\ stored rf' = (currentTerm rf, votedFor rf).
Proof.
  intros Hnl Hlead Hnone Hst. pose proof (getLast_chain G rf Hnl) as Hlast.
  assert (G ⊆ appended G rf command) as Hsub by by apply insert_subseteq.
  unfold Start in Hst. rewrite Hlead in Hst. change (Leader =? Leader) with true in Hst. cbn iota in Hst.
  assert (match last (log rf) with Some e => le_Index e + 1 | None => snapshotIndex rf + 1 end
          = lastIndex rf + 1) as Hix.
  { unfold getLastLogIndexAndTerm in Hlast. by destruct (last (log rf)); injection Hlast as <-. }
  rewrite Hix in Hst. apply go_bind_Done in Hst as (mi & _ & Hst).
  apply go_bind_Done in Hst as (ni & _ & Hst). injection Hst as <- _.
  split; [done |]. pose proof (node_log_mono G _ rf Hsub Hnl) as [Hc Hlow Hn _].
  split; [|split; [unfold lastIndex; cbn; rewrite length_app; cbn; lia | by rewrite stored_persist]].
  split; [|done..|apply saved_persist].
  apply chain_snoc; [done | done |]. apply lookup_insert_eq.
Qed.

Lemma Start_follower rf command rf' r :
  role rf <> Leader -> Start rf command = Done (rf', r) -> rf' = rf.
Proof.
  intros Hne. unfold Start. destruct (Z.eqb_spec (role rf) Leader); [done |]. by intros [= <- _].
Qed.

Lemma Snapshot_log G rf index snap rf' :
  node_log G rf -> Snapshot rf index snap = Done rf' ->
  node_log G rf' /\ lastIndex rf' = lastIndex rf.
Proof.
  intros Hnl. pose proof Hnl as [Hc Hlow Hn _]. unfold Snapshot, installCurRfSnapShot.
  set (p := findIndex rf (index - 1)). intros Hs. destruct (p =? -1).
  { injection Hs as <-. split; [|done]. by apply (node_log_keeps _ rf), Hnl; apply keeps_persist. }
  apply go_bind_Done in Hs as (e & He & Hs). apply go_bind_Done in Hs as (l & Hl & Hs).
  apply go_bind_Done in Hs as (rest & _ & Hs). injection Hs as <-.
  apply go_index_Done in He as [Hpos He]. pose proof (lookup_lt_Some _ _ _ He).
  destruct (chain_lookup _ _ _ _ _ _ Hc He) as [Hi _].
  rewrite slice_from_Done in Hl by lia. injection Hl as <-.
  pose proof (chain_drop_after _ _ _ _ _ _ Hc He) as Hd.
  replace (S (Z.to_nat p)) with (Z.to_nat (p + 1)) in Hd by lia.
  split; [|unfold lastIndex; cbn; rewrite length_drop; lia].
  split; [done | cbn; lia | cbn; lia | apply saved_persist].
Qed.

(** What a peer sends is of its term, and on the record. *)
Definition outgoing_ok G rf (o : outgoing C) : Prop :=
  match o with
  | OutAppend args => aea_Term args = currentTerm rf /\ request_chain G args
  | OutInstall args => isa_Term args = currentTerm rf
  end.

Lemma buildRequest_log G rf j o :
  node_log G rf -> buildRequest rf j = Done o -> outgoing_ok G rf o.
Proof.
  intros Hnl. pose proof Hnl as [Hc Hlow Hn _]. pose proof (node_log_ok _ _ Hnl) as Hok.
  unfold buildRequest. intros (next & _ & Hb)%go_bind_Done.
  destruct (Z.ltb_spec (next - 1) (snapshotIndex rf)) as [|Hge]; [by injection Hb as <- |].
  destruct (Z.eqb_spec (next - 1) (snapshotIndex rf)) as [Heq|Hne].
  { cbn in Hb. injection Hb as <-. cbn. rewrite <- Heq in *. split; [done |]. by split. }
  destruct (decide (next - 1 <= snapshotIndex rf + len (log rf))) as [Hin|Hout].
  2: { pose proof (scanIndex_absent _ (log rf) 0 (next - 1) Hok ltac:(lia)) as Hf.
       destruct (scanIndex 0 (log rf) (next - 1)) as [i found]. cbn in Hf. by subst found. }
  rewrite (scanIndex_found _ _ _ _ Hok) in Hb by lia. cbn [negb] in Hb.
  set (k := next - 1 - (snapshotIndex rf + 1)) in *.
  replace (0 + k + 1 - 1) with k in Hb by lia. replace (0 + k + 1) with (k + 1) in Hb by lia.
  destruct (go_index_total (log rf) k) as (e & He & Hl); [lia |].
  rewrite He, slice_from_Done in Hb by lia. cbn in Hb. injection Hb as <-.
  destruct (chain_lookup _ _ _ _ _ _ Hc Hl) as [Hi _].
  pose proof (chain_drop_after _ _ _ _ _ _ Hc Hl) as Hd.
  replace (S (Z.to_nat k)) with (Z.to_nat (k + 1)) in Hd by lia.
  cbn. split; [done |]. replace (le_Index e) with (next - 1) in Hd by lia.
  split; cbn; [done | lia | lia].
Qed.

Lemma buildRequests_log G rf l reqs :
  node_log G rf -> buildRequests rf l = Done reqs ->
  forall j o, (j, o) ∈ reqs -> j ∈ l /\ outgoing_ok G rf o.
Proof.
  intros Hnl. revert reqs; induction l as [|i l IH]; intros reqs; cbn [buildRequests].
  { intros [= <-] j o Hin. by apply elem_of_nil in Hin. }
  intros (r & Hr & (rs & Hrs & Hd)%go_bind_Done)%go_bind_Done. injection Hd as <-.
  intros j o [[= -> ->]|Hin]%elem_of_cons.
  - split; [by left | by eapply buildRequest_log].
  - destruct (IH rs Hrs j o Hin). split; [by right | done].
Qed.

Lemma readPersist_part d rf1 rf2 :
  log_part rf1 = log_part rf2 -> log_part (readPersist d rf1) = log_part (readPersist d rf2).
Proof.
  intros Hp. unfold readPersist. destruct d as [|b d]; [done |].
  destruct (gob_decode _ _) as [[|[?|?] [|[?|?] [|[?|?] [|[?|?] [|[?|?] [|? ?]]]]]]|]; done.
Qed.

Lemma putBeforeReader_part rf msgs rf' :
  putBeforeReader rf msgs = Done rf' -> log_part rf' = log_part rf /\ persister rf' = persister rf.
Proof. unfold putBeforeReader. destruct (applyChBuffer rf); [|done]. by intros [= <-]. Qed.

Lemma replayLoop_part l rf rf' :
  replayLoop l rf = Done rf' -> log_part rf' = log_part rf /\ persister rf' = persister rf.
Proof.
  revert rf; induction l as [|e l IH]; intros rf; cbn [replayLoop]; [by intros [= <-] |].
  destruct (_ <? _); [by intros [= <-] |].
  intros (rf1 & [Hp Hps]%putBeforeReader_part & Hr)%go_bind_Done. apply IH in Hr as [-> ->]. done.
Qed.

(** A restart finds the log that was saved. *)
Lemma Make_log G m i rf now rnd rf' :
  node_log G rf -> Make m i (persister rf) now rnd = Done rf' -> keeps_log rf rf'.
Proof.
  intros [_ _ _ Hs]. unfold Make. set (rf0 := initial m i (persister rf) now rnd).
  assert (log_part (readPersist (ReadRaftState (persister rf)) rf0) = log_part rf) as Hp1.
  { rewrite <- Hs. apply readPersist_part. done. }
  destruct (readPersist_frame (ReadRaftState (persister rf)) rf0) as (_ & _ & _ & Hps1).
  set (rf1 := readPersist _ rf0) in *. change (persister rf0) with (persister rf) in Hps1.
  clearbody rf1 rf0.
  set (rf2 := (readPersistSnapshot _ rf1) <| commitIndex := _ |> <| lastApplied := _ |>).
  assert (log_part rf2 = log_part rf /\ persister rf2 = persister rf) as [Hp2 Hps2] by done.
  clearbody rf2. intros (rf3 & H3 & [Hp Hps]%replayLoop_part)%go_bind_Done.
  assert (log_part rf3 = log_part rf2 /\ persister rf3 = persister rf2) as [E1 E2].
  { destruct (negb _); [by eapply putBeforeReader_part | by injection H3 as <-]. }
  split; [congruence |]. left. congruence.
Qed.
End sources.
