(* ===== verification/RaftLogMatching.v ===== *)
(** Log matching in the cluster of [RaftCluster]: every log, on every peer and in every
    AppendEntries request in flight, follows one record of what the leaders appended. *)
From S2P Require Import Prelude Persister RaftTypes RaftTools RaftPersist RaftLog RaftLogFacts.
From S2P Require Import RaftReplication RaftElection RaftAppend RaftSnapshot RaftNode RaftCluster.
From S2P Require Import RaftSafety RaftElectionSafety RaftChains.

Section matching.
Context {C : Type} `{GobLaws C} (n : nat).
Implicit Types (G : record_of C) (rf : Raft C) (s : Cluster C) (c : call C).

(** ** The invariant *)

(** A request in flight was sent by the leader of its term, to another peer. *)
Definition call_log G s c : Prop :=
  match c_rpc c with
  | CallRV _ _ => True
  | CallAE args _ => request_chain G args /\ (aea_Term args, c_src c) ∈ elected s /\ c_src c <> c_dst c
  | CallIS args _ => (isa_Term args, c_src c) ∈ elected s /\ c_src c <> c_dst c
  end.

(** What is on record for a term was appended by the leader of that term, whose log
    reaches that far as long as it has not saved a later term. *)
Record linv G s : Prop := {
  li_node : forall i rf, nodes s !! i = Some rf -> node_log G rf;
  li_call : forall c, c ∈ calls s -> call_log G s c;
  li_record : forall k t x, G !! (k, t) = Some x -> exists q, (t, q) ∈ elected s
    /\ forall rf, nodes s !! q = Some rf -> (stored rf).1 = t -> k <= lastIndex rf }.

Lemma call_log_mono G G' s s' c :
  G ⊆ G' -> elected s ⊆ elected s' -> call_log G s c -> call_log G' s' c.
Proof.
  intros HG He. unfold call_log. destruct (c_rpc c) as [| args r|]; [done | |].
  - intros (? & ? & ?). split; [by eapply request_chain_mono |]. split; [by apply He | done].
  - intros (? & ?). split; [by apply He | done].
Qed.

Lemma elected_unique s t i j : inv n s -> (t, i) ∈ elected s -> (t, j) ∈ elected s -> i = j.
Proof.
  intros I Hi Hj. eapply (quorum_unique n); [apply I | by apply (inv_elected n s I)..].
Qed.

(** ** Steps of one peer *)

(** The peer does not go back to an earlier term on disk, and shortens its log only if
    it saves a term of which it is not the leader. *)
Definition advances s (i : nat) rf rf' : Prop :=
  (stored rf).1 <= (stored rf').1
  /\ forall t, (t, i) ∈ elected s -> (stored rf').1 = t -> lastIndex rf <= lastIndex rf'.

Lemma linv_node G G' s s' i rf rf' :
  inv n s -> linv G s -> nodes s !! i = Some rf ->
  nodes s' = <[i := rf']> (nodes s) -> elected s ⊆ elected s' -> G ⊆ G' ->
  (forall k t x, G' !! (k, t) = Some x ->
     G !! (k, t) = Some x \/ ((t, i) ∈ elected s /\ k <= lastIndex rf')) ->
  node_log G' rf' -> advances s i rf rf' ->
  (forall c, c ∈ calls s' -> c ∈ calls s \/ call_log G' s' c) ->
  linv G' s'.
Proof.
  intros I L Hi Hn He HG Hnew Hnl [Hst Hlen] Hc. split.
  - intros j rj. rewrite Hn. intros [(<- & <- & _)|[Hne Hj]]%list_lookup_insert_Some; [done |].
    eapply node_log_mono; [done | by apply (li_node G s L j)].
  - intros c [Hin|?]%Hc; [|done]. by apply (call_log_mono G G' s), (li_call G s L).
  - intros k t x [Hold|[Hel Hk]]%Hnew.
    + destruct (li_record G s L k t x Hold) as (q & Hq & Hlast). exists q. split; [by apply He |].
      intros rq. rewrite Hn. intros [(<- & <- & _)|[_ Hj]]%list_lookup_insert_Some Ht; [|by apply Hlast].
      pose proof (ok_elected n s i rf (inv_node n s I i rf Hi) t Hq).
      specialize (Hlast rf Hi ltac:(lia)). specialize (Hlen t Hq Ht). lia.
    + exists i. split; [by apply He |].
      intros rq. rewrite Hn, list_lookup_insert_eq by (by eapply lookup_lt_Some). by intros [= <-].
Qed.

Lemma keeps_lastIndex rf rf' : keeps_log rf rf' -> lastIndex rf' = lastIndex rf.
Proof. unfold lastIndex. intros [[= -> -> _] _]. done. Qed.

Lemma stored_persister rf rf' : persister rf' = persister rf -> stored rf' = stored rf.
Proof. intros Hp. unfold stored. by rewrite Hp. Qed.

Lemma evolves_stored s i rf rf' : node_ok n s i rf -> evolves rf rf' -> (stored rf).1 <= (stored rf').1.
Proof.
  intros Hok [_ _ Ht _ _ Hd]. pose proof (ok_behind n s i rf Hok).
  destruct Hd as [Hd|Hd]; [rewrite (stored_persister _ _ Hd); lia | rewrite Hd; cbn [fst]; lia].
Qed.

(** A step that keeps the peer's log and calls no one it should not. *)
Lemma linv_keeps G s s' i rf rf' :
  inv n s -> linv G s -> nodes s !! i = Some rf ->
  nodes s' = <[i := rf']> (nodes s) -> elected s ⊆ elected s' ->
  keeps_log rf rf' -> (stored rf).1 <= (stored rf').1 ->
  (forall c, c ∈ calls s' -> c ∈ calls s \/ call_log G s' c) -> linv G s'.
Proof.
  intros I L Hi Hn He Hk Hst Hc. eapply (linv_node G G); try done.
  - by left.
  - eapply node_log_keeps; [done | by apply (li_node G s L i)].
  - split; [done |]. intros. rewrite (keeps_lastIndex _ _ Hk). lia.
Qed.

(** ** Orderly runs *)

(** A careful step in which, moreover, a peer sends log entries or its snapshot only
    while it is leader, and a request it accepts does not contradict its snapshot. *)
Definition orderly s (a : action C) s' : Prop :=
  careful s a s'
  /\ (forall k now rnd i th rf, a = ARun k now rnd -> threads s !! k = Some (i, th) ->
       th = ThLeaderSend \/ th = ThStartSend -> nodes s !! i = Some rf -> role rf = Leader)
  /\ (forall k now c args r rf, a = ADeliver k now -> calls s !! k = Some c ->
       c_rpc c = CallAE args r -> nodes s !! c_dst c = Some rf ->
       currentTerm rf <= aea_Term args -> agrees args rf).

Inductive orderly_reachable : Cluster C -> Prop :=
| orderly_boot : orderly_reachable (boot n)
| orderly_step s a s' :
    orderly_reachable s -> cstep a s = Some s' -> orderly s a s' -> orderly_reachable s'.

Lemma orderly_careful s : orderly_reachable s -> carefully_reachable n s.
Proof.
  induction 1 as [|s a s' _ IH Hs [Hc _]]; [apply careful_boot | by eapply careful_step].
Qed.

(** ** Each step keeps the invariant *)

Lemma call_src_dst G s c r :
  call_log G s c -> match c_rpc c, r with
    | CallRV _ _, CallRV _ _ => True
    | CallAE args _, CallAE args' _ => args' = args
    | CallIS args _, CallIS args' _ => args' = args
    | _, _ => False end ->
  call_log G s (mkCall (c_src c) (c_dst c) r).
Proof. unfold call_log. destruct (c_rpc c), r; cbn; try done; by intros ? ->. Qed.

(** A handler that either keeps the log or takes the term of another peer's leader. *)
Lemma advances_by_call s i j t rf rf' :
  inv n s -> nodes s !! i = Some rf -> evolves rf rf' ->
  (t, j) ∈ elected s -> j <> i -> keeps_log rf rf' \/ (stored rf').1 = t -> advances s i rf rf'.
Proof.
  intros I Hi Hev Hj Hne Hcase. split; [by eapply evolves_stored; [apply I|] |].
  intros t' Ht' Hst. destruct Hcase as [Hk|Hk]; [rewrite (keeps_lastIndex _ _ Hk); lia |].
  subst t t'. destruct Hne. by eapply elected_unique.
Qed.

Lemma deliver_linv G s k now s' :
  inv n s -> linv G s -> cstep (ADeliver k now) s = Some s' -> orderly s (ADeliver k now) s' -> linv G s'.
Proof.
  intros I L Hs (_ & _ & Hag). cbn in Hs.
  destruct (calls s !! k) as [c|] eqn:Hk; [|done]. cbn in Hs.
  destruct (executed (c_rpc c)); [done |].
  destruct (nodes s !! c_dst c) as [rf|] eqn:Hd; [|done]. cbn in Hs.
  assert (c ∈ calls s) as Hc by (apply list_elem_of_lookup; eauto).
  pose proof (li_call G s L c Hc) as Hcl. pose proof (li_node G s L _ _ Hd) as Hnl.
  destruct (serve now rf (c_rpc c)) as [[rf' r]| |] eqn:Hserve; [|done..]. injection Hs as <-.
  assert (call_log G s (mkCall (c_src c) (c_dst c) r) -> node_log G rf' -> advances s (c_dst c) rf rf' ->
    linv G ((set_node (c_dst c) rf' s) <| calls := <[k := mkCall (c_src c) (c_dst c) r]> (calls s) |>
      <| granted := vote_of (c_dst c) r ++ granted s |>)) as Hdone.
  { intros Hcr Hnl' Hadv. eapply (linv_node G G s _ (c_dst c) rf rf'); try done; [by left |].
    intros x (j & [(_ & <- & _)|[_ Hj]]%list_lookup_insert_Some)%list_elem_of_lookup; [by right |].
    left. apply list_elem_of_lookup. eauto. }
  specialize (call_src_dst G s c r Hcl) as Hcr. unfold call_log in Hcl.
  destruct (c_rpc c) as [args o|args o|args o] eqn:Hr; cbn [serve] in Hserve.
  - pose proof (RequestVoteRequest_keeps now rf args zero_RequestVoteReply) as Hkeep.
    destruct (RequestVoteRequestHandler _ _ _ _) as [rf1 reply] eqn:Hh. injection Hserve as <- <-.
    cbn [fst] in *. apply Hdone; [by apply Hcr | by eapply node_log_keeps |].
    split; [|intros; rewrite (keeps_lastIndex _ _ Hkeep); lia].
    destruct (requestVote_granted now rf args rf1 reply Hh) as (_ & _ & Hg).
    destruct (rvr_VoteGranted reply); [|by eapply evolves_stored; [apply I|]].
    destruct Hg as (_ & _ & Hle & _ & _ & _ & -> & _).
    pose proof (ok_behind n s _ rf (inv_node n s I _ _ Hd)). cbn [fst]. lia.
  - destruct Hcl as (Hrc & Hel & Hne).
    apply go_bind_Done in Hserve as ([rf1 reply] & Hh & Hserve). injection Hserve as <- <-.
    pose proof (AppendEntriesRequestHandler_evolves _ _ _ _ _ _ Hh) as Hev.
    apply (AppendEntriesRequest_log G) in Hh as [Hnl' Hcase]; [|done|done|by eapply Hag].
    apply Hdone; [by apply Hcr | done | by eapply advances_by_call].
  - destruct Hcl as (Hel & Hne).
    apply go_bind_Done in Hserve as ([rf1 reply] & Hh & Hserve). injection Hserve as <- <-.
    pose proof (InstallSnapshotRequestHandler_evolves _ _ _ _ _ _ Hh) as Hev.
    apply (InstallSnapshotRequest_log G) in Hh as [Hnl' Hcase]; [|done].
    apply Hdone; [by apply Hcr | done | by eapply advances_by_call].
Qed.

Lemma return_linv G s k ok s' :
  inv n s -> linv G s -> cstep (AReturn k ok) s = Some s' -> linv G s'.
Proof.
  intros I L Hs. cbn in Hs.
  destruct (calls s !! k) as [c|] eqn:Hk; [|done]. cbn in Hs.
  destruct (ok && negb (executed (c_rpc c))); [done |].
  destruct (nodes s !! c_src c) as [rf|] eqn:Hd; [|done]. cbn in Hs.
  destruct (respond ok rf (c_rpc c)) as [[rf' ths]| |] eqn:Hres; [|done..]. injection Hs as <-.
  assert (keeps_log rf rf' /\ (stored rf).1 <= (stored rf').1) as [Hkeep Hst].
  { pose proof (evolves_stored s _ rf rf' (inv_node n s I _ _ Hd)) as Hev.
    destruct (c_rpc c) as [args o|args o|args o]; cbn [respond] in Hres.
    - injection Hres as <- <-. split; [apply RequestVoteResponse_keeps |].
      by rewrite (stored_persister _ _ (RequestVoteResponse_persister rf _ _)).
    - apply go_bind_Done in Hres as (rf1 & Hh & Hres). injection Hres as <- <-.
      split; [by eapply AppendEntriesResponse_keeps |].
      by eapply Hev, AppendEntriesResponseHandler_evolves.
    - apply go_bind_Done in Hres as (rf1 & Hh & Hres). injection Hres as <- <-.
      split; [by eapply InstallSnapshotResponse_keeps |].
      by eapply Hev, InstallSnapshotResponseHandler_evolves. }
  eapply (linv_keeps G s _ (c_src c)); try done.
  intros x Hx%list_elem_of_delete_inv. by left.
Qed.

(** A leader's next entry is not on record yet. *)
Lemma next_unrecorded G s i rf :
  inv n s -> linv G s -> nodes s !! i = Some rf -> role rf = Leader ->
  (currentTerm rf, i) ∈ elected s /\ G !! (lastIndex rf + 1, currentTerm rf) = None.
Proof.
  intros I L Hi Hr. pose proof (inv_node n s I i rf Hi) as Hok.
  pose proof (ok_leader n s i rf Hok Hr) as Hel. split; [done |].
  destruct (G !! _) as [x|] eqn:E; [|done]. exfalso.
  destruct (li_record G s L _ _ _ E) as (q & Hq & Hlast).
  assert (q = i) as -> by by eapply elected_unique.
  pose proof (ok_elected n s i rf Hok _ Hel). pose proof (ok_behind n s i rf Hok).
  specialize (Hlast rf Hi ltac:(lia)). lia.
Qed.

(** The record after a step: a leader's [Start] adds to it. *)
Definition next_record (a : action C) s G : record_of C :=
  match a with
  | AStart i command =>
    match nodes s !! i with
    | Some rf => if decide (role rf = Leader) then appended G rf command else G
    | None => G
    end
  | _ => G
  end.

Lemma start_linv G s i command s' :
  inv n s -> linv G s -> cstep (AStart i command) s = Some s' ->
  linv (next_record (AStart i command) s G) s'.
Proof.
  intros I L Hs. cbn in Hs. cbn [next_record]. destruct (nodes s !! i) as [rf|] eqn:Hi; [|done]. cbn in Hs.
  destruct (Start rf command) as [[rf' [[? ?] l]]| |] eqn:Hst; cbn in Hs; [|done..]. injection Hs as <-.
  destruct (decide (role rf = Leader)) as [Hr|Hr].
  2: { apply Start_follower in Hst as ->; [|done].
       eapply (linv_keeps G s _ i); try done; [apply keeps_refl | by left]. }
  destruct (next_unrecorded G s i rf I L Hi Hr) as [Hel Hnone].
  pose proof (Start_evolves _ _ _ _ Hst) as Hev.
  destruct (Start_log G rf command rf' _ (li_node G s L i rf Hi) Hr Hnone Hst) as (Hsub & Hnl & Hlast & _).
  eapply (linv_node G _ s _ i rf rf'); try done.
  - intros k t x. unfold appended. destruct (decide ((lastIndex rf + 1, currentTerm rf) = (k, t))) as [[= <- <-]|].
    + intros _. right. split; [done | lia].
    + rewrite lookup_insert_ne by done. by left.
  - split; [by eapply evolves_stored; [apply I|] | intros; lia].
  - by left.
Qed.

Lemma snapshot_linv G s i index snap s' :
  inv n s -> linv G s -> cstep (ASnapshot i index snap) s = Some s' -> linv G s'.
Proof.
  intros I L Hs. cbn in Hs. destruct (nodes s !! i) as [rf|] eqn:Hi; [|done]. cbn in Hs.
  destruct (Snapshot rf index snap) as [rf'| |] eqn:Hsn; cbn in Hs; [|done..]. injection Hs as <-.
  pose proof (Snapshot_evolves _ _ _ _ Hsn) as Hev.
  destruct (Snapshot_log G _ _ _ _ (li_node G s L i rf Hi) Hsn) as [Hnl Hlast].
  eapply (linv_node G G s _ i rf rf'); try done; [by left | | by left].
  split; [by eapply evolves_stored; [apply I|] | intros; lia].
Qed.

Lemma crash_linv G s i now rnd s' :
  inv n s -> linv G s -> cstep (ACrash i now rnd) s = Some s' -> linv G s'.
Proof.
  intros I L Hs. cbn in Hs. destruct (nodes s !! i) as [rf|] eqn:Hi; [|done]. cbn in Hs.
  destruct (Make _ _ _ _ _) as [rf'| |] eqn:Hm; cbn in Hs; [|done..]. injection Hs as <-.
  pose proof (Make_ballot _ _ _ _ _ _ Hm) as (_ & _ & _ & Hst & _).
  apply (Make_log G) in Hm; [|by apply (li_node G s L i)].
  eapply (linv_keeps G s _ i rf rf'); try done; [by rewrite Hst |].
  intros c [_ Hc]%list_elem_of_filter. by left.
Qed.

(** The calls a leader makes are of its term, on the record, and to other peers. *)
Lemma sends_log G s i rf reqs c :
  inv n s -> linv G s -> nodes s !! i = Some rf -> role rf = Leader ->
  leaderSendAppendEntriesRPC rf = Done reqs ->
  c ∈ ((fun '(j, r) => mkCall i (Z.to_nat j) r) <$> sends reqs) -> call_log G s c.
Proof.
  intros I L Hi Hr Hl. pose proof (inv_node n s I i rf Hi) as Hok.
  pose proof (ok_leader n s i rf Hok Hr) as Hel.
  unfold sends. rewrite <- list_fmap_compose. intros ([j o] & -> & Hin)%list_elem_of_fmap.
  destruct (buildRequests_log G rf _ _ (li_node G s L i rf Hi) Hl j o Hin) as [Hj Ho].
  apply (others_spec i) in Hj as (d & -> & Hd & _); [|by apply (ok_me n s i rf)].
  unfold call_log. cbn. rewrite Nat2Z.id. destruct o as [args|args]; cbn in *.
  - destruct Ho as [-> Hrc]. done.
  - by rewrite Ho.
Qed.

Lemma run_linv G s k now rnd s' :
  inv n s -> linv G s -> cstep (ARun k now rnd) s = Some s' -> orderly s (ARun k now rnd) s' -> linv G s'.
Proof.
  intros I L Hs (_ & Hlead & _). cbn in Hs.
  destruct (threads s !! k) as [[i th]|] eqn:Hk; [|done]. cbn in Hs.
  destruct (nodes s !! i) as [rf|] eqn:Hi; [|done]. cbn in Hs.
  destruct (run_thread th now rnd rf) as [[[rf' ths] reqs]|?|?] eqn:Hrun; cbn in Hs; [|done..].
  injection Hs as <-. pose proof (inv_node n s I i rf Hi) as Hok.
  assert (keeps_log rf rf' -> (stored rf).1 <= (stored rf').1 ->
    (forall c, c ∈ ((fun '(j, r) => mkCall i (Z.to_nat j) r) <$> reqs) -> call_log G s c) ->
    linv G (mkCluster (<[i := rf']> (nodes s)) (delete k (threads s) ++ ((fun th => (i, th)) <$> ths))
      (calls s ++ ((fun '(j, r) => mkCall i (Z.to_nat j) r) <$> reqs))
      (self_vote i th rf' ++ granted s) (election_of i th rf' ++ elected s))) as Hdone.
  { intros Hkeep Hst Hc.
    assert (elected s ⊆ election_of i th rf' ++ elected s) as Hsub by set_solver.
    eapply (linv_keeps G s _ i rf rf'); try done.
    intros c [Hin|Hin]%elem_of_app; [by left | right]. eapply call_log_mono; [done | exact Hsub |]. by apply Hc. }
  assert (forall c, c ∈ ((fun '(j, r) => mkCall i (Z.to_nat j) r) <$> ([] : list (Z * rpc C))) -> call_log G s c)
    as Hnone by (by intros c Hc%elem_of_nil).
  destruct th; cbn [run_thread] in Hrun.
  - destruct (ticker now rf); injection Hrun as <- <- <-; apply Hdone; (apply keeps_refl || done).
  - pose proof (toCandidate_keeps now rnd rf) as Hkeep.
    destruct (toCandidate now rnd rf) as [rf1 reqs1] eqn:Hcd. injection Hrun as <- <- <-. cbn [fst snd] in *.
    destruct (toCandidate_spec now rnd rf rf1 reqs1 Hcd) as (li & lt & _ & _ & _ & _ & _ & _ & Hst & ->).
    apply Hdone; [done | rewrite Hst; cbn [fst]; pose proof (ok_behind n s i rf Hok); lia |].
    intros c (_ & Hr)%requests_elem. unfold call_log. by rewrite Hr.
  - apply go_bind_Done in Hrun as (rf1 & Hl & Hrun). injection Hrun as <- <- <-.
    apply Hdone; [by apply toLeader_keeps | | done].
    unfold toLeader in Hl. apply go_bind_Done in Hl as (mi & _ & Hl). injection Hl as <-.
    rewrite stored_persist. exact (ok_behind n s i rf Hok).
  - destruct (leaderTicker rf); injection Hrun as <- <- <-; apply Hdone; (apply keeps_refl || done).
  - apply go_bind_Done in Hrun as (rf1 & Hl & Hrun). injection Hrun as <- <- <-.
    apply Hdone; [by apply leaderUpdate_keeps | | done].
    by eapply evolves_stored, leaderUpdateCommitIndex_evolves.
  - apply go_bind_Done in Hrun as (l & Hl & Hrun). injection Hrun as <- <- <-.
    apply Hdone; [apply keeps_refl | done |]. intros c. apply (sends_log G s i rf l c); try done.
    by eapply Hlead; [| |left|].
  - apply go_bind_Done in Hrun as (l & Hl & Hrun). injection Hrun as <- <- <-.
    apply Hdone; [apply keeps_refl | done |]. intros c. apply (sends_log G s i rf l c); try done.
    by eapply Hlead; [| |right|].
Qed.

Lemma cstep_linv G s a s' :
  inv n s -> linv G s -> cstep a s = Some s' -> orderly s a s' -> linv (next_record a s G) s'.
Proof.
  intros I L Hs Ho. destruct a; cbn [next_record].
  - by eapply run_linv.
  - by eapply deliver_linv.
  - by eapply return_linv.
  - by eapply start_linv.
  - by eapply snapshot_linv.
  - by eapply crash_linv.
  - cbn in Hs. destruct (nodes s !! i) as [rf|] eqn:Hi; [|done]. injection Hs as <-.
    eapply (linv_keeps G s _ i rf (Kill rf)); try done; [by split; [|left] | by left].
Qed.

Lemma boot_linv : linv ∅ (boot n).
Proof.
  split.
  - intros i rf Hi. apply list_lookup_fmap_Some in Hi as (j & -> & _). by split.
  - by intros c ?%elem_of_nil.
  - intros k t x. by rewrite lookup_empty.
Qed.

Lemma orderly_linv s : orderly_reachable s -> inv n s /\ exists G, linv G s.
Proof.
  induction 1 as [|s a s' Hreach IH Hs Ho]; [split; [apply boot_inv | exists ∅; apply boot_linv] |].
  destruct IH as (I & G & L). split; [|eexists; by eapply cstep_linv].
  eapply cstep_inv; [done | done |]. apply Ho.
Qed.

(** ** What it gives *)

(** C6: log matching.  In every state that is reached by orderly steps, crashes and
    compactions included: if the logs of two peers have entries with the same index and
    the same term, then the two logs have the same entries at that index and at every
    earlier index that both still hold. *)
Theorem log_matching s i j ri rj a b x y :
  orderly_reachable s -> nodes s !! i = Some ri -> nodes s !! j = Some rj ->
  a ∈ log ri -> b ∈ log rj -> le_Index a = le_Index b -> le_Term a = le_Term b ->
  x ∈ log ri -> y ∈ log rj -> le_Index x = le_Index y -> le_Index x <= le_Index a -> x = y.
Proof.
  intros (_ & G & L)%orderly_linv Hi Hj.
  apply (chains_match G _ _ _ _ _ _ a b x y (nl_chain _ _ (li_node G s L i ri Hi))
    (nl_chain _ _ (li_node G s L j rj Hj))).
Qed.

(** No request in flight makes [followerHandleLog] fail.  In every state reached
    by orderly steps, whatever AppendEntries call is delivered next, if it does not
    contradict the receiver's snapshot: the receiver's log is well-formed and on disk,
    and the handler's log step returns the answer and the log of the receiver rules. *)
Theorem deliveries_refine s c args r rf reply :
  orderly_reachable s -> c ∈ calls s -> c_rpc c = CallAE args r ->
  nodes s !! c_dst c = Some rf -> agrees args rf ->
  log_ok rf /\ saved rf /\ c_src c <> c_dst c /\ (aea_Term args, c_src c) ∈ elected s
  /\ exists reply',
    followerHandleLog rf args reply = Done (rf <| log := snd (receiver_rules rf args) |>, reply')
    /\ aer_Success reply' = fst (receiver_rules rf args).
Proof.
  intros (_ & G & L)%orderly_linv Hc Hr Hd Hag. pose proof (li_node G s L _ _ Hd) as Hnl.
  pose proof (li_call G s L c Hc) as Hcl. unfold call_log in Hcl. rewrite Hr in Hcl.
  destruct Hcl as (Hrc & Hel & Hne). pose proof (node_log_ok _ _ Hnl) as Hok.
  destruct (follower_refines rf args reply Hok (request_on_record G rf args Hnl Hrc Hag))
    as (reply' & ? & ? & _ & _).
  split; [done |]. split; [apply Hnl |]. split; [done |]. split; [done |]. by exists reply'.
Qed.
End matching.
