(* ===== verification/RaftLogRuns.v ===== *)
(** Runs of the cluster that concern logs, evaluated: an orderly run that replicates an
    entry, and what happens when a peer that is no longer leader sends its log. *)
From S2P Require Import Prelude Persister RaftTypes RaftTools RaftPersist RaftLog RaftLogFacts.
From S2P Require Import RaftReplication RaftElection RaftAppend RaftSnapshot RaftNode RaftCluster.
From S2P Require Import RaftSafety RaftElectionSafety RaftRuns RaftChains RaftLogMatching.

(** ** Checking that a run is orderly *)

Section orderly_run.
Context {C : Type} `{GobLaws C}.

Definition sends_as_leader (s : Cluster C) (a : action C) : bool :=
  match a with
  | ARun k _ _ =>
    match threads s !! k with
    | Some (i, ThLeaderSend) | Some (i, ThStartSend) =>
      match nodes s !! i with Some rf => role rf =? Leader | None => true end
    | _ => true
    end
  | _ => true
  end.

Definition agreesb (args : AppendEntriesArgs C) (rf : Raft C) : bool :=
  (snapshotIndex rf <? 0)
  || ((0 <=? aea_PrevLogIndex args)
      && ((snapshotIndex rf <? aea_PrevLogIndex args)
          || match term_at args (snapshotIndex rf) with
             | Some t => t =? snapshotTerm rf
             | None => true
             end)).

Definition accepts_agreeing (s : Cluster C) (a : action C) : bool :=
  match a with
  | ADeliver k _ =>
    match calls s !! k with
    | Some c =>
      match c_rpc c, nodes s !! c_dst c with
      | CallAE args _, Some rf => (aea_Term args <? currentTerm rf) || agreesb args rf
      | _, _ => true
      end
    | None => true
    end
  | _ => true
  end.

Definition orderlyb (s : Cluster C) (a : action C) (s' : Cluster C) : bool :=
  (careful_votes s s' && careful_lead s a) && (sends_as_leader s a && accepts_agreeing s a).

Fixpoint orderly_run (l : list (action C)) (s : Cluster C) : option (Cluster C) :=
  match l with
  | [] => Some s
  | a :: l =>
    s' ← cstep a s;
    if orderlyb s a s' then orderly_run l s' else None
  end.

Lemma agreesb_spec args rf : agreesb args rf = true -> agrees args rf.
Proof.
  unfold agreesb, agrees. intros [?%Z.ltb_lt|[?%Z.leb_le [?%Z.ltb_lt|Ht]%orb_true_iff]%andb_true_iff]%orb_true_iff Hs;
    [lia | split; lia |].
  split; [done |]. intros _ t Hat. rewrite Hat in Ht. by apply Z.eqb_eq.
Qed.

Lemma orderly_check s a s' : orderlyb s a s' = true -> orderly s a s'.
Proof.
  intros [Hc [Hl Ha]%andb_true_iff]%andb_true_iff. split; [by apply careful_check |]. split.
  - intros k now rnd i th rf -> Hk Hth Hi. cbn in Hl. rewrite Hk in Hl.
    destruct Hth as [-> | ->]; rewrite Hi in Hl; by apply Z.eqb_eq.
  - intros k now c args r rf -> Hk Hr Hd Ht. cbn in Ha. rewrite Hk, Hr, Hd in Ha.
    apply orb_true_iff in Ha as [?%Z.ltb_lt|?]; [lia | by apply agreesb_spec].
Qed.

Lemma orderly_run_reaches n l s s' :
  orderly_reachable n s -> orderly_run l s = Some s' -> orderly_reachable n s'.
Proof.
  revert s; induction l as [|a l IH]; intros s Hs; cbn; [by intros [= <-] |].
  destruct (cstep a s) as [s1|] eqn:E; [|done]. cbn.
  destruct (orderlyb s a s1) eqn:Hc; [|done].
  apply IH. by eapply orderly_step; [| | apply orderly_check].
Qed.
End orderly_run.

(** ** Three peers *)

Module LogRuns.
Import ZCodec Runs.

(** Peer 0 leads, accepts two commands and sends its log to peer 1. *)
Definition replicate_two : list (action Z) :=
  [AStart 0 7; AStart 0 8; ARun 4 1000 0; ADeliver 0 1000].

Lemma replicated : exists s, orderly_run (elect_0 ++ replicate_two) (boot 3) = Some s
  /\ exists r0 r1, nodes s !! 0%nat = Some r0 /\ nodes s !! 1%nat = Some r1
    /\ log r0 = [mkLogEntry 1 0 7; mkLogEntry 1 1 8] /\ log r1 = log r0.
Proof. eexists. split; [vm_compute; reflexivity |]. eexists _, _. vm_compute. repeat split; reflexivity. Qed.

Lemma log_matching_witness :
  exists s r0 r1, orderly_reachable (C := Z) 3 s
    /\ nodes s !! 0%nat = Some r0 /\ nodes s !! 1%nat = Some r1
    /\ mkLogEntry 1 1 8 ∈ log r0 /\ mkLogEntry 1 1 8 ∈ log r1
    /\ mkLogEntry 1 0 7 ∈ log r0 /\ mkLogEntry 1 0 7 ∈ log r1
    /\ mkLogEntry 1 0 7 = mkLogEntry 1 0 7.
Proof.
  destruct replicated as (s & Hrun & r0 & r1 & H0 & H1 & L0 & L1).
  assert (orderly_reachable (C := Z) 3 s) as Hreach.
  { eapply orderly_run_reaches; [apply orderly_boot | exact Hrun]. }
  clear Hrun.
  assert (forall e, e ∈ log r0 -> e ∈ log r1) as H01 by (intros e; by rewrite L1).
  assert (mkLogEntry 1 1 8 ∈ log r0) as Ha by (rewrite L0; right; left).
  assert (mkLogEntry 1 0 7 ∈ log r0) as Hx by (rewrite L0; left).
  exists s, r0, r1. split; [done |]. split; [done |]. split; [done |].
  split; [done |]. split; [by apply H01 |]. split; [done |]. split; [by apply H01 |].
  assert (0 <= 1) as Hle by lia.
  exact (log_matching 3 s 0 1 r0 r1 _ _ _ _ Hreach H0 H1 Ha (H01 _ Ha) eq_refl eq_refl
    Hx (H01 _ Hx) eq_refl Hle).
Defined.

(** The second request of the same run, still in flight. *)
Lemma deliveries_refine_witness :
  exists s c args rf, orderly_reachable (C := Z) 3 s /\ c ∈ calls s /\ c_rpc c = CallAE args None
    /\ nodes s !! c_dst c = Some rf
    /\ (log_ok rf /\ saved rf /\ c_src c <> c_dst c /\ (aea_Term args, c_src c) ∈ elected s
       /\ exists reply', followerHandleLog rf args zero_AppendEntriesReply
             = Done (rf <| log := snd (receiver_rules rf args) |>, reply')
           /\ aer_Success reply' = fst (receiver_rules rf args)).
Proof.
  assert (exists s, orderly_run (elect_0 ++ replicate_two) (boot 3) = Some s
    /\ exists c args rf, calls s !! 1%nat = Some c /\ c_rpc c = CallAE args None
      /\ nodes s !! c_dst c = Some rf /\ snapshotIndex rf = -1)
    as (s & Hrun & c & args & rf & Hc & Hr & Hd & Hs).
  { eexists. split; [vm_compute; reflexivity |]. eexists _, _, _. vm_compute. repeat split; reflexivity. }
  assert (orderly_reachable (C := Z) 3 s) as Hreach.
  { eapply orderly_run_reaches; [apply orderly_boot | exact Hrun]. }
  clear Hrun.
  assert (c ∈ calls s) as Hin by (apply list_elem_of_lookup; eauto).
  exists s, c, args, rf. split; [done |]. split; [done |]. split; [done |]. split; [done |].
  apply (deliveries_refine 3 s c args None rf); try done. intros Hlow. lia.
Defined.

(** Peer 0, leader of term 1, accepts a command and has yet to send it; peer 1 becomes
    leader of term 2 with the vote of peer 2, and peer 0 follows term 2. *)
Definition depose_0 : list (action Z) :=
  [AStart 0 7; ARun 0 2000 0; ARun 4 2000 0; ADeliver 0 2000; ADeliver 1 2000; AReturn 1 true;
   ARun 5 2000 0].
(** Peer 1 commits a command with peer 2. *)
Definition commit_1 : list (action Z) :=
  [AStart 1 8; AReturn 0 true; ARun 6 2000 0; ADeliver 1 2000; AReturn 1 true; ARun 5 2000 0;
   ARun 5 2000 0].
(** Peer 0 now sends, under its new term; peer 2 becomes leader of term 3 and commits. *)
Definition stale_send : list (action Z) :=
  [ARun 3 2000 0; ADeliver 1 2000; ADeliver 2 2000].
Definition commit_2 : list (action Z) :=
  [ARun 0 3000 0; ARun 4 3000 0; ADeliver 3 3000; ADeliver 4 3000; AReturn 3 true; ARun 5 3000 0;
   AStart 2 9; ARun 6 3000 0; ADeliver 4 3000; AReturn 4 true; ARun 5 3000 0; ARun 5 3000 0].

(** A deposed leader's late send breaks state machine safety.  In a run in which
    no peer votes twice in a term and every term has one leader, [Start] of a leader
    that was deposed before its [leaderSendAppendEntriesRPC] ran sends its log under
    the term it has learned of; the followers of that term, and its real leader, accept
    it and lose a committed entry, after which two peers hand their services different
    commands as entry 1. *)
Theorem stale_sender_diverges : exists s, carefully_reachable (C := Z) 3 s /\
  exists r1 r2, nodes s !! 1%nat = Some r1 /\ nodes s !! 2%nat = Some r2
    /\ pendingPuts r1 = [[mkApplyMsg true (Some 8) 1 false [] 0 0]]
    /\ pendingPuts r2 = [[mkApplyMsg true (Some 7) 1 false [] 0 0;
                          mkApplyMsg true (Some 9) 2 false [] 0 0]].
Proof.
  assert (exists s, careful_run (elect_0 ++ depose_0 ++ commit_1 ++ stale_send ++ commit_2) (boot 3) = Some s
    /\ exists r1 r2, nodes s !! 1%nat = Some r1 /\ nodes s !! 2%nat = Some r2
      /\ pendingPuts r1 = [[mkApplyMsg true (Some 8) 1 false [] 0 0]]
      /\ pendingPuts r2 = [[mkApplyMsg true (Some 7) 1 false [] 0 0;
                            mkApplyMsg true (Some 9) 2 false [] 0 0]]) as (s & Hrun & Hs).
  { eexists. split; [vm_compute; reflexivity |]. eexists _, _. vm_compute. repeat split; reflexivity. }
  exists s. split; [|exact Hs]. eapply careful_run_reaches; [apply careful_boot | exact Hrun].
Qed.
End LogRuns.
