(* ===== verification/RaftTree.v ===== *)
(** The record of [RaftChains] as a tree: a position is an index and a term, its parent
    is the position its entry was appended after, and a log is the path to its last
    position.  What the receiver rules do to that path. *)
From S2P Require Import Prelude Persister RaftTypes RaftTools RaftPersist RaftLog RaftLogFacts.
From S2P Require Import RaftReplication RaftElection RaftAppend RaftSnapshot RaftNode RaftCluster RaftSafety RaftElectionSafety RaftChains.

(** ** Positions and paths *)

(** The position before the first entry. *)
Definition root : Z * Z := (-1, 0).

Section tree.
Context {C : Type}.
Implicit Types (G : record_of C) (x y z p : Z * Z) (l old new : list (LogEntry C)).

(** [anc G x y]: [x] is on the path to [y]. *)
Inductive anc G : Z * Z -> Z * Z -> Prop :=
| anc_refl x : anc G x x
| anc_up x i t c pt : G !! (i, t) = Some (c, pt) -> anc G x (i - 1, pt) -> anc G x (i, t).

Definition valid G x : Prop := x = root \/ is_Some (G !! x).

Record tree G : Prop := {
  tr_index : forall i t c pt, G !! (i, t) = Some (c, pt) -> 0 <= i;
  tr_parent : forall i t c pt, G !! (i, t) = Some (c, pt) -> valid G (i - 1, pt);
  tr_terms : forall i t c pt, G !! (i, t) = Some (c, pt) -> pt <= t /\ 0 < t }.

Lemma anc_mono G G' x y : G ⊆ G' -> anc G x y -> anc G' x y.
Proof.
  intros Hs. induction 1 as [x|x i t c pt Hg _ IH]; [apply anc_refl |].
  eapply anc_up; [by eapply lookup_weaken | done].
Qed.

Lemma valid_mono G G' x : G ⊆ G' -> valid G x -> valid G' x.
Proof. intros Hs [->|[v Hv]]; [by left | right]. exists v. by eapply lookup_weaken. Qed.

Lemma anc_trans G x y z : anc G x y -> anc G y z -> anc G x z.
Proof.
  intros Hxy. induction 1 as [y|y i t c pt Hg _ IH]; [done |].
  eapply anc_up; [done | by apply IH].
Qed.

Lemma anc_index G x y : anc G x y -> x.1 <= y.1.
Proof. induction 1 as [|x i t c pt _ _ IH]; cbn in *; lia. Qed.

Lemma anc_eq G x y : anc G x y -> x.1 = y.1 -> x = y.
Proof. destruct 1 as [|x i t c pt _ Ha]; [done |]. apply anc_index in Ha. cbn in *. lia. Qed.

(** Two positions on one path are on the path of one another. *)
Lemma anc_both G x y z : anc G x z -> anc G y z -> x.1 <= y.1 -> anc G x y.
Proof.
  intros Hx Hy Hle. revert Hx. induction Hy as [y|y i t c pt Hg Hy IH]; [done |].
  intros Hx. inversion Hx as [|? ? ? c' pt' Hg' Hx']; subst.
  - apply anc_index in Hy. cbn in *. lia.
  - rewrite Hg in Hg'. injection Hg' as <- <-. by apply IH.
Qed.

Definition comparable G x y : Prop := anc G x y \/ anc G y x.

Lemma comparable_sym G x y : comparable G x y -> comparable G y x.
Proof. unfold comparable. tauto. Qed.

Lemma comparable_both G x y z : anc G x z -> anc G y z -> comparable G x y.
Proof.
  intros Hx Hy. destruct (Z.le_ge_cases x.1 y.1).
  - left. by eapply anc_both.
  - right. by eapply anc_both.
Qed.

Lemma comparable_below G x p y : anc G x p -> comparable G p y -> comparable G x y.
Proof.
  intros Hx [Hp|Hy]; [left; by eapply anc_trans | by eapply comparable_both].
Qed.

Lemma comparable_le G x y : comparable G x y -> x.1 <= y.1 -> anc G x y.
Proof.
  intros [Hx|Hy] Hle; [done |]. pose proof (anc_index _ _ _ Hy).
  rewrite (anc_eq _ _ _ Hy) by lia. apply anc_refl.
Qed.

Lemma comparable_mono G G' x y : G ⊆ G' -> comparable G x y -> comparable G' x y.
Proof. intros Hs [?|?]; [left|right]; by eapply anc_mono. Qed.

Lemma anc_valid G x y : tree G -> valid G y -> anc G x y -> valid G x.
Proof.
  intros T Hy. induction 1 as [x|x i t c pt Hg _ IH]; [done |].
  apply IH. by eapply (tr_parent _ T).
Qed.

Lemma anc_term G x y : tree G -> anc G x y -> x.2 <= y.2.
Proof.
  intros T. induction 1 as [x|x i t c pt Hg _ IH]; [lia |].
  apply (tr_terms _ T) in Hg. cbn in *. lia.
Qed.

Lemma valid_low G x : tree G -> valid G x -> -1 <= x.1 /\ 0 <= x.2.
Proof.
  intros T [->|[[c pt] Hv]]; [done |]. destruct x as [i t].
  pose proof (tr_index _ T _ _ _ _ Hv). pose proof (tr_terms _ T _ _ _ _ Hv). cbn. lia.
Qed.

Lemma valid_root G x : tree G -> valid G x -> x.1 = -1 -> x = root.
Proof.
  intros T [->|[[c pt] Hv]] Hi; [done |]. destruct x as [i t].
  pose proof (tr_index _ T _ _ _ _ Hv). cbn in *. lia.
Qed.

(** The path to a position has a position at every index up to its own. *)
Lemma anc_at G y k : tree G -> valid G y -> -1 <= k <= y.1 -> exists t, anc G (k, t) y.
Proof.
  intros T Hy Hk. pose proof (valid_low G y T Hy).
  remember (Z.to_nat (y.1 - k)) as d eqn:Hd. revert y Hy Hk H Hd.
  induction d as [|d IH]; intros [i t] Hy Hk Hlow Hd; cbn in *.
  - exists t. replace k with i by lia. apply anc_refl.
  - destruct Hy as [[= -> ->]|[[c pt] Hg]]; [lia |].
    pose proof (tr_parent _ T _ _ _ _ Hg) as Hp. pose proof (valid_low _ _ T Hp) as Hpl.
    destruct (IH (i - 1, pt) Hp ltac:(cbn; lia) Hpl ltac:(cbn; lia)) as [t' Ht'].
    exists t'. by eapply anc_up.
Qed.

Lemma anc_root G y : tree G -> valid G y -> anc G root y.
Proof.
  intros T Hy. pose proof (valid_low _ _ T Hy).
  destruct (anc_at G y (-1) T Hy ltac:(lia)) as [t Ht].
  pose proof (anc_valid _ _ _ T Hy Ht) as Hv. by rewrite <- (valid_root _ _ T Hv).
Qed.

(** ** Chains as paths *)

Definition chain_end (i t : Z) l : Z * Z := (i + len l, end_term t l).
Definition pos_of (e : LogEntry C) : Z * Z := (le_Index e, le_Term e).

Lemma chain_end_cons i t e l : chain_end i t (e :: l) = chain_end (i + 1) (le_Term e) l.
Proof. unfold chain_end. rewrite end_term_cons. f_equal. cbn. lia. Qed.

Lemma chain_end_nil i t : chain_end i t [] = (i, t).
Proof. unfold chain_end, end_term. cbn. f_equal. lia. Qed.

Lemma chain_path G i t l : chain G i t l -> anc G (i, t) (chain_end i t l).
Proof.
  revert i t; induction l as [|e l IH]; intros i t; [rewrite chain_end_nil; intros _; apply anc_refl |].
  intros (Hi & Hg & Hc). rewrite chain_end_cons. eapply anc_trans; [|by apply IH].
  eapply anc_up; [exact Hg |]. replace (i + 1 - 1) with i by lia. apply anc_refl.
Qed.

Lemma chain_end_app i t l1 l2 :
  chain_end i t (l1 ++ l2) = chain_end (i + len l1) (end_term t l1) l2.
Proof.
  revert i t; induction l1 as [|e l1 IH]; intros i t; cbn [app].
  - unfold end_term. cbn. f_equal. lia.
  - rewrite chain_end_cons, IH, end_term_cons. f_equal. cbn. lia.
Qed.

(** The position of an entry is on the path. *)
Lemma chain_pos G i t l k e :
  chain G i t l -> l !! k = Some e ->
  chain_end i t (take (S k) l) = pos_of e /\ anc G (pos_of e) (chain_end i t l).
Proof.
  intros Hc Hk. destruct (chain_lookup _ _ _ _ _ _ Hc Hk) as [Hi _].
  pose proof (lookup_lt_Some _ _ _ Hk).
  assert (chain_end i t (take (S k) l) = pos_of e) as Hpos.
  { unfold chain_end, pos_of. rewrite (end_term_take _ _ _ _ Hk), length_take, Nat.min_l by lia.
    f_equal. lia. }
  split; [done |]. rewrite <- Hpos. rewrite <- (take_drop (S k) l) at 2.
  rewrite chain_end_app. rewrite <- (take_drop (S k) l) in Hc. apply chain_app in Hc as [_ Hc].
  by apply chain_path in Hc.
Qed.

(** Cutting a chain after an entry does not move its end. *)
Lemma chain_end_drop G i t l k e :
  chain G i t l -> l !! k = Some e ->
  chain_end (le_Index e) (le_Term e) (drop (S k) l) = chain_end i t l.
Proof.
  intros Hc Hk. destruct (chain_pos _ _ _ _ _ _ Hc Hk) as [Hp _].
  rewrite <- (take_drop (S k) l) at 2. rewrite chain_end_app.
  unfold chain_end at 1, pos_of in Hp. by injection Hp as -> ->.
Qed.

Lemma chain_end_take G i t l k : chain G i t l -> anc G (chain_end i t (take k l)) (chain_end i t l).
Proof.
  intros Hc. rewrite <- (take_drop k l) in Hc |- * at 2. apply chain_app in Hc as [_ Hc].
  rewrite (take_drop k l). rewrite <- (take_drop k l) at 2. rewrite chain_end_app. by apply chain_path.
Qed.

(** Reconciliation ends at or after the new entries, and keeps every position of the
    old path that does not branch off the new one. *)
Lemma reconcile_path G i t old new :
  chain G i t old -> chain G i t new ->
  anc G (chain_end i t new) (chain_end i t (reconcile old new))
  /\ (forall p, anc G p (chain_end i t old) -> comparable G p (chain_end i t new) ->
        anc G p (chain_end i t (reconcile old new)))
  /\ (chain_end i t (reconcile old new) = chain_end i t old
      \/ chain_end i t (reconcile old new) = chain_end i t new).
Proof.
  revert i t new; induction old as [|a old IH]; intros i t [|b new] Ho Hn; cbn [reconcile].
  - split; [apply anc_refl | split; [done | by left]].
  - split; [apply anc_refl |]. split; [|by right]. intros p Hp _. rewrite chain_end_nil in Hp.
    eapply anc_trans; [exact Hp |]. by apply chain_path.
  - rewrite chain_end_nil. split; [by apply chain_path | split; [done | by left]].
  - destruct (Z.eqb_spec (le_Term a) (le_Term b)) as [Hab|Hne].
    + destruct Ho as (_ & _ & Ho), Hn as (_ & _ & Hn). rewrite !chain_end_cons, <- Hab in *. by apply IH.
    + split; [apply anc_refl |]. split; [|by right]. intros p Hp [Hc|Hc]; [done |]. destruct Hne.
      destruct (chain_pos _ _ _ _ 0 _ Ho eq_refl) as [_ Ha].
      destruct (chain_pos _ _ _ _ 0 _ Hn eq_refl) as [_ Hb].
      pose proof (anc_trans _ _ _ _ (anc_trans _ _ _ _ Hb Hc) Hp) as Hb'.
      assert (pos_of a = pos_of b) as Heq.
      { eapply anc_eq; [eapply anc_both; [exact Ha | exact Hb' |] |]; cbn;
          destruct Ho as (-> & _), Hn as (-> & _); lia. }
      by injection Heq.
Qed.
End tree.

(** ** Peers and requests *)

Section tips.
Context {C : Type} `{GobLaws C}.
Implicit Types (G : record_of C) (rf : Raft C) (args : AppendEntriesArgs C) (p : Z * Z).

Definition tip rf : Z * Z := chain_end (snapshotIndex rf) (snapshotTerm rf) (log rf).
Definition base rf : Z * Z := (snapshotIndex rf, snapshotTerm rf).
Definition end_of args : Z * Z :=
  chain_end (aea_PrevLogIndex args) (aea_PrevLogTerm args) (aea_Entries args).

Lemma tip_last G rf : node_log G rf -> getLastLogIndexAndTerm rf = tip rf.
Proof. exact (getLast_chain G rf). Qed.

Lemma tip_part rf rf' : log_part rf' = log_part rf -> tip rf' = tip rf /\ base rf' = base rf.
Proof. unfold tip, base. by intros [= -> -> ->]. Qed.

Lemma base_tip G rf : node_log G rf -> anc G (base rf) (tip rf).
Proof. intros Hnl. apply chain_path, Hnl. Qed.

Lemma start_end G args :
  request_chain G args -> anc G (aea_PrevLogIndex args, aea_PrevLogTerm args) (end_of args).
Proof. intros Hrc. apply chain_path, Hrc. Qed.

(** The positions of a request are on its path. *)
Lemma term_at_path G args i t :
  request_chain G args -> aea_PrevLogIndex args <= i -> term_at args i = Some t -> anc G (i, t) (end_of args).
Proof.
  intros [Hc _ _] Hle. unfold term_at. destruct (Z.eqb_spec i (aea_PrevLogIndex args)) as [->|Hne].
  { intros [= <-]. by apply chain_path. }
  destruct (aea_Entries args !! _) as [e|] eqn:He; [|done]. intros [= <-].
  destruct (chain_lookup _ _ _ _ _ _ Hc He) as [Hi _].
  replace i with (le_Index e) by lia. by eapply chain_pos.
Qed.

(** A request on the path of a committed entry agrees with a snapshot on it. *)
Lemma agrees_on_path G rf args :
  node_log G rf -> request_chain G args ->
  (0 <= snapshotIndex rf -> 0 <= aea_PrevLogIndex args) ->
  comparable G (base rf) (end_of args) -> agrees args rf.
Proof.
  intros Hnl Hrc Hpos Hcomp Hs. split; [by apply Hpos |]. intros Hle t Hat.
  pose proof (term_at_path G args _ t Hrc Hle Hat) as Ht.
  pose proof (anc_index _ _ _ Ht) as Hi. cbn in Hi.
  pose proof (comparable_le _ _ _ Hcomp Hi) as Hb.
  assert ((snapshotIndex rf, t) = base rf) as Heq.
  { eapply anc_eq; [eapply anc_both; [exact Ht | exact Hb | done] | done]. }
  by injection Heq.
Qed.

(** What the receiver rules do to the path: they keep every position that does not
    branch off the request's path, and after success the path goes through the end of
    the request, unless the snapshot already covers it. *)
Lemma receiver_path G rf args :
  node_log G rf -> request_chain G args -> agrees args rf ->
  let r := receiver_rules rf args in
  let tip' := chain_end (snapshotIndex rf) (snapshotTerm rf) r.2 in
  (forall p, anc G p (tip rf) -> comparable G p (end_of args) -> anc G p tip')
  /\ (anc G tip' (tip rf) \/ tip' = end_of args)
  /\ (r.1 = true -> snapshotIndex rf <= (end_of args).1 -> anc G (end_of args) tip').
Proof.
  intros Hnl Hrc Hag. pose proof Hnl as [Hc _ _ _]. pose proof Hrc as [Hr _ _].
  unfold receiver_rules, tip.
  destruct (Z.ltb_spec (snapshotIndex rf + len (log rf)) (aea_PrevLogIndex args)).
  { split; [done |]. split; [left; apply anc_refl | done]. }
  destruct (Z.leb_spec (aea_PrevLogIndex args) (snapshotIndex rf)) as [Hle|Hgt].
  { cbn [fst snd]. pose proof (covered_chain G rf args Hnl Hrc Hag Hle) as Hnew.
    pose proof (covered_term G rf args Hnl Hrc Hag Hle) as Hterm.
    set (k := Z.to_nat (snapshotIndex rf - aea_PrevLogIndex args)) in *.
    destruct (decide (k <= length (aea_Entries args))%nat) as [Hk|Hk].
    - assert (chain_end (snapshotIndex rf) (snapshotTerm rf) (drop k (aea_Entries args)) = end_of args) as Heq.
      { unfold end_of. rewrite <- (take_drop k (aea_Entries args)) at 2. rewrite chain_end_app, Hterm by done.
        f_equal. rewrite length_take. lia. }
      destruct (reconcile_path _ _ _ _ _ Hc Hnew) as (Hend & Hkeep & Hor). rewrite Heq in *.
      split; [done |]. split; [|done]. destruct Hor as [->|]; [left; apply anc_refl | by right].
    - rewrite drop_ge, reconcile_nil_r by lia. split; [done |].
      split; [left; apply anc_refl | unfold end_of; cbn; lia]. }
  destruct (log rf !! _) as [e|] eqn:He.
  2: { split; [done |]. split; [left; apply anc_refl | done]. }
  destruct (chain_lookup _ _ _ _ _ _ Hc He) as [Hi _]. pose proof (lookup_lt_Some _ _ _ He).
  destruct (chain_pos _ _ _ _ _ _ Hc He) as [Hpe Hpa].
  set (k := Z.to_nat (aea_PrevLogIndex args - snapshotIndex rf - 1)) in *.
  assert (le_Index e = aea_PrevLogIndex args) as Hie by lia.
  destruct (Z.eqb_spec (le_Term e) (aea_PrevLogTerm args)) as [Ht|Ht]; cbn [fst snd].
  - replace (Z.to_nat (aea_PrevLogIndex args - snapshotIndex rf)) with (S k) by lia.
    pose proof (chain_drop_after _ _ _ _ _ _ Hc He) as Hd. rewrite Ht, Hie in Hd.
    assert (forall l', chain_end (snapshotIndex rf) (snapshotTerm rf) (take (S k) (log rf) ++ l')
      = chain_end (aea_PrevLogIndex args) (aea_PrevLogTerm args) l') as Happ.
    { intros l'. rewrite chain_end_app. f_equal.
      - rewrite length_take, Nat.min_l by lia. lia.
      - by rewrite (end_term_take _ _ _ _ He). }
    destruct (reconcile_path _ _ _ _ _ Hd Hr) as (Hend & Hkeep & Hor). rewrite Happ.
    assert (chain_end (snapshotIndex rf) (snapshotTerm rf) (log rf)
      = chain_end (aea_PrevLogIndex args) (aea_PrevLogTerm args) (drop (S k) (log rf))) as Htip.
    { by rewrite <- Happ, take_drop. }
    rewrite Htip. split; [done |]. split; [|done].
    destruct Hor as [->|]; [left; apply anc_refl | by right].
  - split; [|split; [left; by apply chain_end_take | done]]. intros p Hp Hcomp.
    assert (p.1 < aea_PrevLogIndex args) as Hlt.
    { destruct (Z.lt_ge_cases p.1 (aea_PrevLogIndex args)) as [|Hge]; [done |]. destruct Ht.
      assert (anc G (pos_of e) p) as Hep by (eapply anc_both; [exact Hpa | exact Hp |]; cbn; lia).
      pose proof (start_end G args Hrc) as Hse.
      assert (comparable G (pos_of e) (end_of args)) as Hce by (by eapply comparable_below).
      assert (anc G (pos_of e) (end_of args)) as Hes.
      { apply comparable_le; [done |]. apply anc_index in Hse. cbn in *. lia. }
      assert (pos_of e = (aea_PrevLogIndex args, aea_PrevLogTerm args)) as Heq.
      { eapply anc_eq; [eapply anc_both; [exact Hes | exact Hse |] |]; cbn; lia. }
      by injection Heq. }
    eapply anc_both; [exact Hp | by apply chain_end_take |].
    unfold chain_end. cbn. rewrite length_take. lia.
Qed.
End tips.
