(* ===== verification/RaftCommit.v ===== *)
(** What is committed in the cluster of [RaftCluster], as an invariant over the tree of
    [RaftTree]: who acknowledged what in which term, which positions a majority has
    acknowledged, and why no later leader can be without them. *)
From S2P Require Import Prelude Persister RaftTypes RaftTools RaftPersist RaftLog RaftLogFacts.
From S2P Require Import RaftReplication RaftElection RaftAppend RaftSnapshot RaftNode RaftCluster.
From S2P Require Import RaftSafety RaftElectionSafety RaftChains RaftLogMatching RaftTree.

(** The position at which a peer stood as a candidate of a term. *)
Abbreviation stands := (gmap (Z * nat) (Z * Z)).
(** Who has acknowledged the log of a term's leader, up to which index. *)
Abbreviation acks := (list (nat * Z * Z)).

Section commit.
Context {C : Type} `{GobLaws C} (n : nat).
Implicit Types (G : record_of C) (P : stands) (A : acks) (rf : Raft C) (s : Cluster C).
Implicit Types (x y p : Z * Z) (c : call C).

Definition known G p : Prop := is_Some (G !! p).

Definition majority (vs : list nat) : Prop :=
  NoDup vs /\ (n / 2 + 1 <= length vs)%nat /\ forall j, j ∈ vs -> (j < n)%nat.

Lemma majorities_meet v1 v2 : majority v1 -> majority v2 -> exists j, j ∈ v1 /\ j ∈ v2.
Proof.
  intros (N1 & L1 & B1) (N2 & L2 & B2).
  destruct (decide (Exists (fun j => j ∈ v2) v1)) as [(j & H1 & H2)%Exists_exists|Hdis]; [by exists j |].
  exfalso. assert (NoDup (v1 ++ v2)) as Hnd.
  { apply NoDup_app. split; [done |]. split; [|done]. intros j H1 H2. apply Hdis, Exists_exists. eauto. }
  assert (v1 ++ v2 ⊆ seq 0 n) as Hsub.
  { intros j [Hj|Hj]%elem_of_app; apply elem_of_seq; [apply B1 in Hj | apply B2 in Hj]; lia. }
  pose proof (submseteq_length _ _ (NoDup_submseteq _ _ Hnd Hsub)) as Hlen.
  rewrite length_app, length_seq in Hlen. div_lia.
Qed.

Lemma majority_nonempty vs : majority vs -> exists j, j ∈ vs.
Proof. intros (_ & Hl & _). destruct vs as [|j vs]; [cbn in Hl; lia | exists j; by left]. Qed.

(** ** Acknowledged, chosen, dead *)

(** Peer [j] has acknowledged the entry at [p], in the term it is of. *)
Definition covers A (j : nat) p : Prop := Exists (fun a => a.1 = (j, p.2) /\ p.1 <= a.2) A.

#[export] Instance covers_dec A j p : Decision (covers A j p).
Proof. unfold covers. apply _. Defined.

Lemma covers_spec A j p : covers A j p <-> exists k, (j, p.2, k) ∈ A /\ p.1 <= k.
Proof.
  unfold covers. rewrite Exists_exists. split.
  - intros ([a k] & Hin & Heq & Hle). cbn in *. subst a. eauto.
  - intros (k & Hin & Hle). exists (j, p.2, k). done.
Qed.

Lemma covers_mono A A' j p : A ⊆ A' -> covers A j p -> covers A' j p.
Proof. rewrite !covers_spec. intros Hs (k & Hin & ?). exists k. split; [by apply Hs | done]. Qed.

Definition chosen A p : Prop := exists vs, majority vs /\ forall j, j ∈ vs -> covers A j p.

(** Enough peers have saved a later term without having acknowledged the entry: it can
    not be chosen any more. *)
Definition dead A s p : Prop := exists vs, majority vs /\ forall j, j ∈ vs ->
  ~ covers A j p /\ forall rf, nodes s !! j = Some rf -> p.2 < (stored rf).1.

Lemma chosen_not_dead A s p : chosen A p -> dead A s p -> False.
Proof.
  intros (v1 & M1 & H1) (v2 & M2 & H2). destruct (majorities_meet v1 v2 M1 M2) as (j & J1 & J2).
  apply (H2 j J2). by apply H1.
Qed.

Lemma chosen_mono A A' p : A ⊆ A' -> chosen A p -> chosen A' p.
Proof. intros Hs (vs & ? & Hc). exists vs. split; [done |]. intros j Hj. eapply covers_mono; eauto. Qed.

(** A position below an entry that was chosen in a term up to [T]. *)
Definition committed G A x (T : Z) : Prop :=
  x = root \/ exists p, known G p /\ chosen A p /\ p.2 <= T /\ anc G x p.

Lemma known_mono G G' p : G ⊆ G' -> known G p -> known G' p.
Proof. intros Hs [v Hv]. exists v. by eapply lookup_weaken. Qed.

Lemma committed_mono G G' A A' x T T' :
  G ⊆ G' -> A ⊆ A' -> T <= T' -> committed G A x T -> committed G' A' x T'.
Proof.
  intros HG HA HT [->|(p & ? & ? & ? & ?)]; [by left | right]. exists p.
  split; [by eapply known_mono |]. split; [by eapply chosen_mono |]. split; [lia | by eapply anc_mono].
Qed.

Lemma committed_below G A x y T : tree G -> anc G x y -> committed G A y T -> valid G x -> committed G A x T.
Proof.
  intros Tr Hxy [->|(p & ? & ? & ? & ?)] Hv.
  - left. apply (valid_root G); [done | done |]. pose proof (anc_index _ _ _ Hxy).
    pose proof (valid_low _ _ Tr Hv). cbn in *. lia.
  - right. exists p. repeat (split; [done |]). by eapply anc_trans.
Qed.

(** ** The invariant *)

(** Where the leader [q] of term [t] may stand: where it stood as a candidate, or at an
    entry of its term. *)
Definition branch G P (t : Z) (q : nat) x : Prop :=
  exists b, P !! (t, q) = Some b /\ (x = b \/ (x.2 = t /\ known G x)).

(** A command that is handed to the service was chosen at its index. *)
Definition msg_ok G A (T : Z) (m : ApplyMsg C) : Prop :=
  CommandValid m = true -> exists t cmd pt,
    am_Command m = Some cmd /\ G !! (CommandIndex m - 1, t) = Some (cmd, pt)
    /\ committed G A (CommandIndex m - 1, t) T.

Definition messages rf : list (ApplyMsg C) := concat (pendingPuts rf) ++ applyChBuffer rf.

Record local G P A s (i : nat) rf : Prop := {
  lc_base : valid G (base rf);
  lc_term : (tip rf).2 <= (stored rf).1;
  lc_commit : snapshotIndex rf <= commitIndex rf;
  lc_committed : exists x, x.1 = commitIndex rf /\ anc G x (tip rf) /\ committed G A x (stored rf).1;
  lc_msgs : forall m, m ∈ messages rf -> msg_ok G A (stored rf).1 m;
  lc_leader : forall t, (t, i) ∈ elected s -> (stored rf).1 = t -> branch G P t i (tip rf);
  lc_cand : forall t b, P !! (t, i) = Some b -> t <= (stored rf).1
    /\ ((stored rf).1 = t -> tip rf = b \/ exists q, (t, q) ∈ elected s);
  lc_ack : forall t k, (i, t, k) ∈ A -> t <= (stored rf).1;
  lc_acked : forall p, covers A i p -> known G p -> anc G p (tip rf) \/ dead A s p;
  lc_vote : forall t cd b p, (i, t, Z.of_nat cd) ∈ granted s -> P !! (t, cd) = Some b ->
    covers A i p -> known G p -> p.2 < t -> anc G p b \/ dead A s p;
  lc_match : role rf = Leader -> length (matchIndex rf) = n
    /\ forall j k, matchIndex rf !! j = Some k -> k = -1 \/ (j, currentTerm rf, k) ∈ A }.

(** Calls in flight: who asks for a vote stood where it says; a request for the log is of
    the leader's branch and its commit index of a chosen entry; a success is an
    acknowledgement. *)
Definition safe_call G P A c : Prop :=
  match c_rpc c with
  | CallRV args _ => P !! (rva_Term args, c_src c) = Some (rva_LastLogIndex args, rva_LastLogTerm args)
  | CallAE args o =>
    branch G P (aea_Term args) (c_src c) (end_of args)
    /\ (exists y, y.1 = aea_LeaderCommit args /\ anc G y (end_of args)
          /\ committed G A y (aea_Term args))
    /\ forall r, o = Some r -> aer_Success r = true ->
         aer_Term r = aea_Term args /\ aer_ServerId r = Z.of_nat (c_dst c)
         /\ (c_dst c, aea_Term args, (end_of args).1) ∈ A
  | CallIS args o =>
    (exists y, branch G P (isa_Term args) (c_src c) y
       /\ anc G (isa_LastIncludedIndex args, isa_LastIncludedTerm args) y)
    /\ committed G A (isa_LastIncludedIndex args, isa_LastIncludedTerm args) (isa_Term args)
    /\ forall r, o = Some r -> isr_Term r = isa_Term args ->
         isr_ServerId r = Z.of_nat (c_dst c)
         /\ (c_dst c, isa_Term args, isa_LastIncludedIndex args) ∈ A
  end.

Record safe G P A s : Prop := {
  sf_tree : tree G;
  sf_origin : forall i t cmd pt, G !! (i, t) = Some (cmd, pt) -> exists q b,
    (t, q) ∈ elected s /\ P !! (t, q) = Some b /\ b.1 < i /\ ((i - 1, pt) = b \/ pt = t);
  sf_stand : forall t q b, P !! (t, q) = Some b -> valid G b /\ b.2 < t;
  sf_granted : forall j t q, (j, t, Z.of_nat q) ∈ granted s -> is_Some (P !! (t, q));
  sf_bound : forall j t k, (j, t, k) ∈ A -> exists q, (t, q) ∈ elected s
    /\ forall rf, nodes s !! q = Some rf -> (stored rf).1 = t -> k <= lastIndex rf;
  sf_local : forall i rf, nodes s !! i = Some rf -> local G P A s i rf;
  sf_call : forall c, c ∈ calls s -> safe_call G P A c }.

(** ** What the invariant says *)

Section facts.
Context G P A s (I : inv n s) (S : safe G P A s).

Lemma quorum_stand t q : quorum n s t q -> is_Some (P !! (t, q)).
Proof.
  intros (vs & Hnd & Hl & Hvs). destruct vs as [|j vs]; [cbn in Hl; lia |].
  destruct (Hvs j) as [_ Hg]; [by left |]. by eapply sf_granted.
Qed.

Lemma elected_stand t q : (t, q) ∈ elected s -> is_Some (P !! (t, q)).
Proof. intros Hel. by apply quorum_stand, (inv_elected n s I). Qed.

Lemma stand_pos t q b : P !! (t, q) = Some b -> 0 < t.
Proof.
  intros [Hv Hlt]%(sf_stand _ _ _ _ S). apply (valid_low _ _ (sf_tree _ _ _ _ S)) in Hv. lia.
Qed.

Lemma known_origin p : known G p -> exists q b pt cmd, G !! p = Some (cmd, pt)
  /\ (p.2, q) ∈ elected s /\ P !! (p.2, q) = Some b /\ b.1 < p.1 /\ ((p.1 - 1, pt) = b \/ pt = p.2).
Proof.
  intros [[cmd pt] Hg]. destruct p as [i t]. destruct (sf_origin _ _ _ _ S _ _ _ _ Hg) as (q & b & ?).
  by exists q, b, pt, cmd.
Qed.

(** The entries of a term form one path, from where its leader stood. *)
Lemma term_above t q b i :
  (t, q) ∈ elected s -> P !! (t, q) = Some b -> known G (i, t) -> b.1 < i /\ anc G b (i, t).
Proof.
  intros Hel Hb. remember (Z.to_nat (i - b.1)) as d eqn:Hd. revert i Hd.
  induction d as [|d IH]; intros i Hd Hk;
    destruct (known_origin _ Hk) as (q' & b' & pt & cmd & Hg & Hel' & Hb' & Hlt & Hcase); cbn in *;
    assert (q' = q) as -> by (by eapply (elected_unique n)); simplify_eq; [lia |].
  split; [done |]. eapply anc_up; [exact Hg |]. destruct Hcase as [<-| ->]; [apply anc_refl |].
  apply IH; [lia |]. pose proof (tr_parent _ (sf_tree _ _ _ _ S) _ _ _ _ Hg) as [[= ? Ht]|?]; [|done].
  apply stand_pos in Hb. lia.
Qed.

Lemma term_linear t i j : known G (i, t) -> known G (j, t) -> i <= j -> anc G (i, t) (j, t).
Proof.
  intros Hi. remember (Z.to_nat (j - i)) as d eqn:Hd. revert j Hd.
  induction d as [|d IH]; intros j Hd Hj Hle; [replace j with i by lia; apply anc_refl |].
  destruct (known_origin _ Hj) as (q & b & pt & cmd & Hg & Hel & Hb & Hlt & Hcase). cbn in *.
  destruct (term_above t q b i Hel Hb Hi) as [Hbi _].
  eapply anc_up; [exact Hg |]. destruct Hcase as [Hc| ->]; [subst b; cbn in *; lia |].
  apply IH; [lia | | lia].
  pose proof (tr_parent _ (sf_tree _ _ _ _ S) _ _ _ _ Hg) as [[= ? Ht]|?]; [|done].
  apply stand_pos in Hb. lia.
Qed.

Lemma branch_stand t q b x : (t, q) ∈ elected s -> P !! (t, q) = Some b -> branch G P t q x -> anc G b x.
Proof.
  intros Hel Hb (b' & Hb' & Hx). simplify_eq. destruct Hx as [->|[Ht Hk]]; [apply anc_refl |].
  destruct x as [i t']. cbn in *. subst t'. by eapply term_above.
Qed.

Lemma branch_term t q x i : (t, q) ∈ elected s -> branch G P t q x -> known G (i, t) -> comparable G (i, t) x.
Proof.
  intros Hel (b & Hb & [->|[Ht Hk]]) Hi; [right; by eapply term_above |].
  destruct x as [j t']. cbn in *. subst t'.
  destruct (Z.le_ge_cases i j); [left|right]; by apply term_linear.
Qed.

Lemma branch_valid t q x : branch G P t q x -> valid G x.
Proof. intros (b & Hb & [->|[_ Hk]]); [by eapply sf_stand | by right]. Qed.

Lemma branch_low t q x : branch G P t q x -> x.2 <= t.
Proof.
  intros (b & Hb & [->|[Ht _]]); [|lia]. apply (sf_stand _ _ _ _ S) in Hb as [_ Hb]. lia.
Qed.

(** Leader completeness: a later leader stands above an entry, or the entry is dead. *)
Lemma leader_above t q b p :
  (t, q) ∈ elected s -> P !! (t, q) = Some b -> known G p -> p.2 < t -> anc G p b \/ dead A s p.
Proof.
  intros Hel Hb Hp Hlt. destruct (inv_elected n s I t q Hel) as (vs & Hnd & Hl & Hvs).
  destruct (decide (Exists (fun j => covers A j p) vs)) as [(j & Hj & Hc)%Exists_exists|Hno].
  - destruct (Hvs j Hj) as [Hjn Hg]. rewrite <- (inv_length n s I) in Hjn.
    destruct (lookup_lt_is_Some_2 _ _ Hjn) as [rf Hrf].
    by eapply (lc_vote _ _ _ _ _ _ (sf_local _ _ _ _ S j rf Hrf)).
  - right. exists vs. split; [split; [done |]; split; [done |]; intros j Hj; by apply Hvs |].
    intros j Hj. split; [intros Hc; apply Hno, Exists_exists; eauto |].
    intros rf Hrf. destruct (Hvs j Hj) as [_ Hg].
    apply (ok_disk n s j rf (inv_node n s I j rf Hrf)) in Hg as [Hle _]. lia.
Qed.

Lemma acked_comparable t q x p :
  (t, q) ∈ elected s -> branch G P t q x -> known G p -> p.2 <= t -> comparable G p x \/ dead A s p.
Proof.
  intros Hel Hx Hp Hle. destruct (decide (p.2 = t)) as [Heq|].
  - left. destruct p as [i t']. cbn in *. subst t'. by eapply branch_term.
  - destruct (elected_stand t q Hel) as [b Hb].
    destruct (leader_above t q b p Hel Hb Hp ltac:(lia)) as [Ha|]; [|by right].
    left. left. eapply anc_trans; [exact Ha | by eapply branch_stand].
Qed.

Lemma chosen_comparable t q x p :
  (t, q) ∈ elected s -> branch G P t q x -> known G p -> chosen A p -> p.2 <= t -> comparable G p x.
Proof.
  intros Hel Hx Hp Hc Hle. destruct (acked_comparable t q x p Hel Hx Hp Hle) as [|Hd]; [done |].
  by destruct (chosen_not_dead A s p).
Qed.

Lemma known_branch p : known G p -> exists q, (p.2, q) ∈ elected s /\ branch G P p.2 q p.
Proof.
  intros Hp. destruct (known_origin p Hp) as (q & b & pt & cmd & _ & Hel & Hb & _).
  exists q. split; [done |]. exists b. split; [done |]. by right.
Qed.

Lemma two_chosen p p' : known G p -> known G p' -> chosen A p -> chosen A p' -> comparable G p p'.
Proof.
  intros Hp Hp' Hc Hc'. destruct (Z.le_ge_cases p.2 p'.2).
  - destruct (known_branch p' Hp') as (q & Hel & Hb). by eapply chosen_comparable.
  - destruct (known_branch p Hp) as (q & Hel & Hb). apply comparable_sym. by eapply chosen_comparable.
Qed.

Lemma root_comparable x : valid G x -> comparable G root x.
Proof. intros Hv. left. by apply anc_root, Hv; apply S. Qed.

Lemma committed_valid x T : committed G A x T -> valid G x.
Proof.
  intros [->|(p & Hp & _ & _ & Hx)]; [by left |].
  eapply anc_valid; [apply S | | exact Hx]. by right.
Qed.

(** What is committed lies on one path. *)
Lemma two_committed x y T T' : committed G A x T -> committed G A y T' -> comparable G x y.
Proof.
  intros Hx Hy. pose proof (committed_valid _ _ Hx) as Vx. pose proof (committed_valid _ _ Hy) as Vy.
  destruct Hx as [->|(p & Hp & Hcp & _ & Hxp)]; [by apply root_comparable |].
  destruct Hy as [->|(p' & Hp' & Hcp' & _ & Hyp)]; [by apply comparable_sym, root_comparable |].
  eapply comparable_below; [exact Hxp |]. apply comparable_sym.
  eapply comparable_below; [exact Hyp |]. by apply two_chosen.
Qed.

Lemma committed_comparable t q x y T :
  (t, q) ∈ elected s -> branch G P t q y -> committed G A x T -> T <= t -> comparable G x y.
Proof.
  intros Hel Hy [->|(p & Hp & Hc & Hle & Hx)] HT.
  - apply root_comparable. by eapply branch_valid.
  - eapply comparable_below; [exact Hx |]. eapply chosen_comparable; (done || lia).
Qed.
End facts.
End commit.
