(* ===== verification/RaftCommitSteps.v ===== *)
(** Every step of the cluster keeps the invariant of [RaftCommit]: what one peer changes,
    and that the rest of the cluster does not notice. *)
From S2P Require Import Prelude Persister RaftTypes RaftTools RaftPersist RaftLog RaftLogFacts.
From S2P Require Import RaftReplication RaftElection RaftAppend RaftSnapshot RaftNode RaftCluster.
From S2P Require Import RaftSafety RaftElectionSafety RaftChains RaftLogMatching RaftTree RaftCommit.

Section frame.
Context {C : Type} `{GobLaws C} (n : nat).
Implicit Types (G : record_of C) (P : stands) (A : acks) (rf : Raft C) (s : Cluster C).
Implicit Types (x y p : Z * Z) (c : call C).

(** What a step of peer [i] may add: to the record, one entry after its log, in a term
    it leads; a place where it stood; acknowledgements in the term it saves; votes of its
    own; its own election. *)
Record extends (i : nat) rf rf' G P A s G' P' A' s' : Prop := {
  ex_nodes : nodes s' = <[i := rf']> (nodes s);
  ex_G : G ⊆ G';
  ex_P : P ⊆ P';
  ex_A : A ⊆ A';
  ex_elected : elected s ⊆ elected s';
  ex_adv : advances s i rf rf';
  ex_newG : forall k t cmd pt, G' !! (k, t) = Some (cmd, pt) -> G !! (k, t) = Some (cmd, pt)
    \/ (t, i) ∈ elected s /\ (stored rf).1 = t /\ k = lastIndex rf + 1 /\ pt = (tip rf).2;
  ex_newP : forall t q b, P' !! (t, q) = Some b ->
    P !! (t, q) = Some b \/ q = i /\ valid G b /\ b.2 < t;
  ex_newA : forall j t k, (j, t, k) ∈ A' -> (j, t, k) ∈ A \/ j = i /\ t = (stored rf').1
    /\ exists q, (t, q) ∈ elected s' /\ forall rq, nodes s' !! q = Some rq ->
         (stored rq).1 = t -> k <= lastIndex rq;
  ex_newE : forall t q, (t, q) ∈ elected s' -> (t, q) ∈ elected s \/ q = i;
  ex_newV : forall j t v, (j, t, v) ∈ granted s' -> (j, t, v) ∈ granted s \/ j = i;
  ex_vote : forall j t q, (j, t, Z.of_nat q) ∈ granted s' -> is_Some (P' !! (t, q)) }.

Lemma branch_mono G P G' P' t q x : G ⊆ G' -> P ⊆ P' -> branch G P t q x -> branch G' P' t q x.
Proof.
  intros HG HP (b & Hb & Hx). exists b. split; [by eapply lookup_weaken |].
  destruct Hx as [?|[? ?]]; [by left | right]. split; [done | by eapply known_mono].
Qed.

Lemma msg_ok_mono G A T G' A' T' m :
  G ⊆ G' -> A ⊆ A' -> T <= T' -> msg_ok n G A T m -> msg_ok n G' A' T' m.
Proof.
  intros HG HA HT Hm Hv. destruct (Hm Hv) as (t & cmd & pt & ? & ? & ?). exists t, cmd, pt.
  split; [done |]. split; [by eapply lookup_weaken |]. by eapply committed_mono.
Qed.

Lemma safe_call_mono G P A G' P' A' c :
  G ⊆ G' -> P ⊆ P' -> A ⊆ A' -> safe_call n G P A c -> safe_call n G' P' A' c.
Proof.
  intros HG HP HA. unfold safe_call. destruct (c_rpc c) as [args o|args o|args o].
  - intros ?. by eapply lookup_weaken.
  - intros (Hb & (y & ? & ? & ?) & Hr). split; [by eapply branch_mono |]. split.
    + exists y. split; [done |]. split; [by eapply anc_mono | by eapply committed_mono; [| |reflexivity|]].
    + intros r Ho Hs. destruct (Hr r Ho Hs) as (? & ? & ?). split; [done |]. split; [done | by apply HA].
  - intros ((y & ? & ?) & Hc & Hr). split; [exists y; split; [by eapply branch_mono | by eapply anc_mono] |].
    split; [by eapply committed_mono; [| |reflexivity|] |].
    intros r Ho Hs. destruct (Hr r Ho Hs). split; [done | by apply HA].
Qed.

Section step.
Context (i : nat) rf rf' G P A s G' P' A' s'.
Context (I : inv n s) (L : linv G s) (S : safe n G P A s) (Hi : nodes s !! i = Some rf)
  (X : extends i rf rf' G P A s G' P' A' s').
#[local] Abbreviation ext f := (f _ _ _ _ _ _ _ _ _ _ _ X).

Lemma dead_step p : dead n A s p -> dead n A' s' p.
Proof.
  intros (vs & M & Hv). exists vs. split; [done |]. intros j Hj. destruct (Hv j Hj) as [Hn Hlt].
  pose proof (ext ex_adv) as [Hst _]. split.
  - intros (k & Hin & Hle)%covers_spec. apply (ext ex_newA) in Hin as [Hin|(-> & Ht & _)].
    + apply Hn, covers_spec. eauto.
    + specialize (Hlt rf Hi). lia.
  - intros rj. rewrite (ext ex_nodes). intros [(<- & <- & _)|[_ Hrj]]%list_lookup_insert_Some; [|by apply Hlt].
    specialize (Hlt rf Hi). lia.
Qed.

(** An acknowledged entry was on record when it was acknowledged. *)
Lemma old_known j p : covers A j p -> known G' p -> known G p.
Proof.
  intros (k & Hin & Hle)%covers_spec [[cmd pt] Hp]. destruct p as [m t]. cbn in *.
  apply (ext ex_newG) in Hp as [Hp|(Hel & Ht & -> & _)]; [by exists (cmd, pt) |]. exfalso.
  destruct (sf_bound n _ _ _ _ S _ _ _ Hin) as (q & Hq & Hb).
  assert (q = i) as -> by by eapply (elected_unique n). specialize (Hb rf Hi Ht). lia.
Qed.

Lemma old_stand j t q b : (j, t, Z.of_nat q) ∈ granted s -> P' !! (t, q) = Some b -> P !! (t, q) = Some b.
Proof.
  intros Hg Hb. destruct (sf_granted n _ _ _ _ S _ _ _ Hg) as [b' Hb'].
  pose proof (lookup_weaken _ _ _ _ Hb' (ext ex_P)). congruence.
Qed.

Lemma local_other j rj : j <> i -> nodes s !! j = Some rj -> local n G' P' A' s' j rj.
Proof.
  intros Hne Hj. pose proof (sf_local n _ _ _ _ S j rj Hj) as Lc.
  pose proof (ext ex_G) as HG. pose proof (ext ex_P) as HP. pose proof (ext ex_A) as HA.
  assert (forall p, covers A' j p -> covers A j p) as Hcov.
  { intros p (k & Hin & Hle)%covers_spec. apply (ext ex_newA) in Hin as [Hin|[? _]]; [|done].
    apply covers_spec. eauto. }
  split.
  - eapply valid_mono; [done | apply Lc].
  - apply Lc.
  - apply Lc.
  - destruct (lc_committed n _ _ _ _ _ _ Lc) as (x & ? & ? & ?). exists x. split; [done |].
    split; [by eapply anc_mono | by eapply committed_mono; [| |reflexivity|]].
  - intros m Hm. eapply msg_ok_mono; [done | done | reflexivity | by apply (lc_msgs n _ _ _ _ _ _ Lc)].
  - intros t Hel Ht. apply (ext ex_newE) in Hel as [Hel|?]; [|done].
    eapply branch_mono; [done | done | by apply (lc_leader n _ _ _ _ _ _ Lc)].
  - intros t b Hb. apply (ext ex_newP) in Hb as [Hb|[? _]]; [|done].
    destruct (lc_cand n _ _ _ _ _ _ Lc t b Hb) as [? Ht]. split; [done |]. intros Heq.
    destruct (Ht Heq) as [?|[q Hq]]; [by left | right]. exists q. by apply (ext ex_elected).
  - intros t k Hin. apply (ext ex_newA) in Hin as [Hin|[? _]]; [|done]. by apply (lc_ack n _ _ _ _ _ _ Lc t k).
  - intros p Hc%Hcov Hp. pose proof (old_known j p Hc Hp) as Hp0.
    destruct (lc_acked n _ _ _ _ _ _ Lc p Hc Hp0) as [?|?]; [left; by eapply anc_mono | right; by apply dead_step].
  - intros t cd b p Hg Hb Hc%Hcov Hp Hlt. apply (ext ex_newV) in Hg as [Hg|?]; [|done].
    pose proof (old_stand _ _ _ _ Hg Hb) as Hb0. pose proof (old_known j p Hc Hp) as Hp0.
    destruct (lc_vote n _ _ _ _ _ _ Lc t cd b p Hg Hb0 Hc Hp0 Hlt) as [?|?];
      [left; by eapply anc_mono | right; by apply dead_step].
  - intros Hr. destruct (lc_match n _ _ _ _ _ _ Lc Hr) as [Hl Hm]. split; [done |].
    intros j' k Hk. destruct (Hm j' k Hk) as [?|?]; [by left | right; by apply HA].
Qed.

Lemma new_entry_parent k t pt :
  (t, i) ∈ elected s -> (stored rf).1 = t -> k = lastIndex rf + 1 -> pt = (tip rf).2 ->
  (k - 1, pt) = tip rf /\ branch G P t i (tip rf).
Proof.
  intros Hel Ht -> ->. split; [unfold tip, chain_end, lastIndex; cbn; f_equal; lia |].
  by apply (lc_leader n _ _ _ _ _ _ (sf_local n _ _ _ _ S i rf Hi)).
Qed.

Lemma tree_step : tree G'.
Proof.
  pose proof (sf_tree n _ _ _ _ S) as T.
  pose proof (sf_local n _ _ _ _ S i rf Hi) as Lc.
  assert (forall k t cmd pt, G' !! (k, t) = Some (cmd, pt) ->
    0 <= k /\ valid G' (k - 1, pt) /\ pt <= t /\ 0 < t) as Hall.
  { intros k t cmd pt Hp. apply (ext ex_newG) in Hp as [Hp|(Hel & Ht & Hk & Hpt)].
    - split; [by eapply tr_index |]. split; [eapply valid_mono; [apply (ext ex_G) | by eapply tr_parent] |].
      by eapply tr_terms.
    - destruct (new_entry_parent k t pt Hel Ht Hk Hpt) as [-> Hb].
      pose proof (branch_valid n _ _ _ _ S _ _ _ Hb) as Hv. pose proof (valid_low _ _ T Hv) as [Hlow _].
      assert ((tip rf).1 = lastIndex rf) as Htip by done.
      split; [lia |]. split; [eapply valid_mono; [apply (ext ex_G) | done] |].
      split; [subst pt t; apply Lc |].
      destruct (elected_stand n _ _ _ _ I S t i Hel) as [b0 Hb0]. by eapply (stand_pos n). }
  split; intros k t cmd pt Hp; destruct (Hall _ _ _ _ Hp) as (? & ? & ?); done.
Qed.

Lemma safe_step :
  local n G' P' A' s' i rf' ->
  (forall c, c ∈ calls s' -> c ∈ calls s \/ safe_call n G' P' A' c) ->
  safe n G' P' A' s'.
Proof.
  intros Hloc Hcall. split.
  - apply tree_step.
  - intros k t cmd pt Hp. apply (ext ex_newG) in Hp as [Hp|(Hel & Ht & Hk & Hpt)].
    + destruct (sf_origin n _ _ _ _ S _ _ _ _ Hp) as (q & b & ? & ? & ?). exists q, b.
      split; [by apply (ext ex_elected) |]. split; [by eapply lookup_weaken; [|apply (ext ex_P)] | done].
    + destruct (new_entry_parent k t pt Hel Ht Hk Hpt) as [Heq Hbr].
      assert ((tip rf).1 = lastIndex rf) as Htip by done.
      pose proof Hbr as (b & Hb & Hcase). exists i, b. split; [by apply (ext ex_elected) |].
      split; [by eapply lookup_weaken; [|apply (ext ex_P)] |].
      destruct Hcase as [Hc|[Ht2 Hkn]].
      * split; [rewrite <- Hc; lia | left; congruence].
      * destruct (tip rf) as [k' t'] eqn:E. cbn [fst snd] in *. rewrite Ht2 in Hkn.
        destruct (term_above n _ _ _ _ I S t i b k' Hel Hb Hkn). split; [lia | right; congruence].
  - intros t q b Hb. apply (ext ex_newP) in Hb as [Hb|(_ & ? & ?)].
    + apply (sf_stand n _ _ _ _ S) in Hb as [? ?]. split; [|done]. by eapply valid_mono; [apply (ext ex_G)|].
    + split; [|done]. by eapply valid_mono; [apply (ext ex_G)|].
  - apply (ext ex_vote).
  - intros j t k Hin. apply (ext ex_newA) in Hin as [Hin|(_ & _ & ?)]; [|done].
    destruct (sf_bound n _ _ _ _ S _ _ _ Hin) as (q & Hq & Hb). exists q. split; [by apply (ext ex_elected) |].
    intros rq. rewrite (ext ex_nodes). intros [(<- & <- & _)|[_ Hrq]]%list_lookup_insert_Some Ht; [|by apply Hb].
    pose proof (ext ex_adv) as [Hst Hlen].
    pose proof (ok_elected n s i rf (inv_node n s I i rf Hi) t Hq).
    specialize (Hlen t Hq Ht). specialize (Hb rf Hi ltac:(lia)). lia.
  - intros j rj. rewrite (ext ex_nodes). intros [(<- & <- & _)|[Hne Hj]]%list_lookup_insert_Some; [done |].
    by apply local_other.
  - intros c [Hc|?]%Hcall; [|done]. eapply safe_call_mono; [apply X.. | by apply (sf_call n _ _ _ _ S)].
Qed.
End step.
End frame.

(** ** Steps that keep the log *)

Section quiet.
Context {C : Type} `{GobLaws C} (n : nat).
Implicit Types (G : record_of C) (P : stands) (A : acks) (rf : Raft C) (s : Cluster C).

(** The commit index and the messages of a peer are of entries chosen up to term [T]. *)
Record commits G A (T : Z) rf : Prop := {
  cm_low : snapshotIndex rf <= commitIndex rf;
  cm_committed : exists x, x.1 = commitIndex rf /\ anc G x (tip rf) /\ committed n G A x T;
  cm_msgs : forall m, m ∈ messages rf -> msg_ok n G A T m }.

Definition match_ok A rf : Prop :=
  role rf = Leader -> length (matchIndex rf) = n
  /\ forall j k, matchIndex rf !! j = Some k -> k = -1 \/ (j, currentTerm rf, k) ∈ A.

Lemma local_commits G P A s i rf : local n G P A s i rf -> commits G A (stored rf).1 rf.
Proof. intros []. by split. Qed.

Lemma commits_keeps G A T T' rf rf' :
  commits G A T rf -> log_part rf' = log_part rf -> T <= T' ->
  commitIndex rf' = commitIndex rf -> messages rf' ⊆ messages rf -> commits G A T' rf'.
Proof.
  intros [Hl (x & Hx & Ha & Hc) Hm] Hp Hst Hci Hms. destruct (tip_part _ _ Hp) as [Htip _].
  injection Hp as _ Hsi _. split.
  - by rewrite Hsi, Hci.
  - exists x. rewrite Hci, Htip. split; [done |]. split; [done |]. by eapply committed_mono.
  - intros m Hin. eapply msg_ok_mono; [done | done | done |]. by apply Hm, Hms.
Qed.

Lemma match_ok_keeps A rf rf' :
  match_ok A rf -> (role rf' = Leader -> role rf = Leader /\ currentTerm rf' = currentTerm rf
    /\ matchIndex rf' = matchIndex rf) -> match_ok A rf'.
Proof. intros Hm Hr Hl. destruct (Hr Hl) as (? & -> & ->). by apply Hm. Qed.

(** A peer that keeps its log: the facts about its path carry over. *)
Lemma local_keeps i rf rf' G P A s s' :
  inv n s -> safe n G P A s -> nodes s !! i = Some rf ->
  extends i rf rf' G P A s G P A s' -> elected s' = elected s ->
  (forall t cd b p, (i, t, Z.of_nat cd) ∈ granted s' -> P !! (t, cd) = Some b -> covers A i p ->
     known G p -> p.2 < t -> (i, t, Z.of_nat cd) ∈ granted s \/ anc G p b \/ dead n A s p) ->
  tip rf' = tip rf -> valid G (base rf') -> commits G A (stored rf').1 rf' -> match_ok A rf' ->
  local n G P A s' i rf'.
Proof.
  intros I S Hi X He Hgr Htip Hbase Hcm Hma. pose proof (sf_local n _ _ _ _ S i rf Hi) as Lc.
  destruct (ex_adv _ _ _ _ _ _ _ _ _ _ _ X) as [Hst _].
  destruct Hcm as [? (x & ? & Hx & ?) ?]. rewrite Htip in Hx. split; rewrite ?Htip; try done.
  - pose proof (lc_term n _ _ _ _ _ _ Lc). lia.
  - by exists x.
  - intros t Hel Ht. rewrite He in Hel. apply (lc_leader n _ _ _ _ _ _ Lc); [done |].
    pose proof (ok_elected n s i rf (inv_node n s I i rf Hi) t Hel). lia.
  - intros t b Hb. rewrite He. destruct (lc_cand n _ _ _ _ _ _ Lc t b Hb) as [Hle Hcase].
    split; [lia |]. intros Ht. apply Hcase. lia.
  - intros t k Hin. pose proof (lc_ack n _ _ _ _ _ _ Lc t k Hin). lia.
  - intros p Hc Hk. destruct (lc_acked n _ _ _ _ _ _ Lc p Hc Hk) as [?|?]; [by left | right].
    by eapply dead_step.
  - intros t cd b p Hg Hb Hc Hk Hlt.
    assert (anc G p b \/ dead n A s p) as [?|?]; [|by left | right; by eapply dead_step].
    destruct (Hgr t cd b p Hg Hb Hc Hk Hlt) as [Hg'|?]; [|done].
    exact (lc_vote n _ _ _ _ _ _ Lc t cd b p Hg' Hb Hc Hk Hlt).
Qed.

Lemma extends_same i rf rf' G P A s s' :
  safe n G P A s -> nodes s' = <[i := rf']> (nodes s) -> elected s' = elected s ->
  granted s' = granted s -> advances s i rf rf' -> extends i rf rf' G P A s G P A s'.
Proof.
  intros S Hn He Hg Ha. split; rewrite ?He, ?Hg; try done; try by left.
  apply (sf_granted n _ _ _ _ S).
Qed.

Lemma advances_keeps s i rf rf' :
  tip rf' = tip rf -> (stored rf).1 <= (stored rf').1 -> advances s i rf rf'.
Proof. intros Hp Hst. split; [done |]. intros _ _ _. injection Hp as E1 _. unfold lastIndex. lia. Qed.

(** A step that only moves the commit index, the messages or the match table. *)
Lemma safe_keeps i rf rf' G P A s s' :
  inv n s -> linv G s -> safe n G P A s -> nodes s !! i = Some rf ->
  nodes s' = <[i := rf']> (nodes s) -> elected s' = elected s -> granted s' = granted s ->
  tip rf' = tip rf -> valid G (base rf') -> (stored rf).1 <= (stored rf').1 ->
  commits G A (stored rf').1 rf' -> match_ok A rf' ->
  (forall c, c ∈ calls s' -> c ∈ calls s \/ safe_call n G P A c) -> safe n G P A s'.
Proof.
  intros I L S Hi Hn He Hg Hp Hb Hst Hcm Hma Hc.
  assert (extends i rf rf' G P A s G P A s') as X.
  { apply extends_same; try done. by apply advances_keeps. }
  eapply safe_step; try done. eapply local_keeps; try done. rewrite Hg. by left.
Qed.

(** A step that touches none of them. *)
Record still rf rf' : Prop := {
  st_log : log_part rf' = log_part rf;
  st_stored : (stored rf).1 <= (stored rf').1;
  st_commit : commitIndex rf' = commitIndex rf;
  st_msgs : messages rf' ⊆ messages rf;
  st_match : role rf' = Leader -> role rf = Leader /\ currentTerm rf' = currentTerm rf
    /\ matchIndex rf' = matchIndex rf }.

Lemma still_refl rf : still rf rf.
Proof. split; (done || lia). Qed.

Lemma safe_still i rf rf' G P A s s' :
  inv n s -> linv G s -> safe n G P A s -> nodes s !! i = Some rf -> still rf rf' ->
  nodes s' = <[i := rf']> (nodes s) -> elected s' = elected s -> granted s' = granted s ->
  (forall c, c ∈ calls s' -> c ∈ calls s \/ safe_call n G P A c) -> safe n G P A s'.
Proof.
  intros I L S Hi [Hp Hst Hci Hms Hma] Hn He Hg Hc.
  pose proof (sf_local n _ _ _ _ S i rf Hi) as Lc. destruct (tip_part _ _ Hp) as [Htip Hbase].
  eapply safe_keeps; try done.
  - rewrite Hbase. apply Lc.
  - eapply commits_keeps; [by eapply local_commits | done..].
  - eapply match_ok_keeps; [|done]. exact (lc_match n _ _ _ _ _ _ Lc).
Qed.

(** ** Following a leader *)

Lemma branch_bound G P A s t q x rf :
  inv n s -> linv G s -> safe n G P A s -> (t, q) ∈ elected s -> branch G P t q x ->
  nodes s !! q = Some rf -> (stored rf).1 = t -> x.1 <= lastIndex rf.
Proof.
  intros I L S Hel Hx Hq Ht. destruct (elected_stand n _ _ _ _ I S t q Hel) as [b Hb].
  pose proof (lc_leader n _ _ _ _ _ _ (sf_local n _ _ _ _ S q rf Hq) t Hel Ht) as Htip.
  pose proof (anc_index _ _ _ (branch_stand n _ _ _ _ I S t q b _ Hel Hb Htip)) as Hbt.
  change ((tip rf).1) with (lastIndex rf) in Hbt.
  destruct Hx as (b' & Hb' & [->|[Hxt [v Hk]]]); simplify_eq; [done |].
  destruct x as [k t']. cbn [fst snd] in *. subst t'.
  destruct (li_record G s L k _ v Hk) as (q' & Hel' & Hlast).
  assert (q' = q) as -> by by eapply (elected_unique n). by apply Hlast.
Qed.

(** A peer that accepts what the leader of term [t] sent, and saves that term: its new
    path keeps what is not dead of the old one, and it acknowledges up to [k]. *)
Lemma safe_follow i rf rf' G P A A' s s' t src k :
  inv n s -> linv G s -> safe n G P A s -> nodes s !! i = Some rf ->
  nodes s' = <[i := rf']> (nodes s) -> elected s' = elected s -> granted s' = granted s ->
  (t, src) ∈ elected s -> src <> i -> (stored rf).1 <= t -> (stored rf').1 = t ->
  A ⊆ A' -> (forall a, a ∈ A' -> a ∈ A \/ a = (i, t, k)) ->
  (exists y, branch G P t src y /\ k <= y.1) ->
  valid G (base rf') -> (tip rf').2 <= t -> commits G A' (stored rf').1 rf' -> match_ok A' rf' ->
  (forall p, anc G p (tip rf) -> known G p -> p.2 <= t -> anc G p (tip rf') \/ dead n A s p) ->
  ((i, t, k) ∈ A' -> forall p, known G p -> p.2 = t -> p.1 <= k -> anc G p (tip rf')) ->
  (forall c, c ∈ calls s' -> c ∈ calls s \/ safe_call n G P A' c) -> safe n G P A' s'.
Proof.
  intros I L S Hi Hn He Hg Hsrc Hne Hle Hst HA HnewA (y & Hy & Hky) Hbase Hterm Hcm Hma Hkeep Hack Hc.
  pose proof (sf_local n _ _ _ _ S i rf Hi) as Lc.
  assert (forall t', (t', i) ∈ elected s -> t' <> t) as Hnot.
  { intros t' Hel ->. by apply Hne, (elected_unique n s t). }
  assert (extends i rf rf' G P A s G P A' s') as X.
  { split; rewrite ?He, ?Hg; try done; try by left.
    - split; [lia |]. intros t' Hel Ht. destruct (Hnot t' Hel). congruence.
    - intros j t' k' Hin. destruct (HnewA _ Hin) as [?|[= -> -> ->]]; [by left | right].
      split; [done |]. split; [done |]. exists src. split; [done |].
      intros rq. rewrite Hn, list_lookup_insert_ne by done. intros Hq Ht.
      pose proof (branch_bound _ _ _ _ _ _ _ _ I L S Hsrc Hy Hq Ht). lia.
    - apply (sf_granted n _ _ _ _ S). }
  assert (forall p, covers A' i p -> covers A i p \/ (i, t, k) ∈ A' /\ p.2 = t /\ p.1 <= k) as Hcov.
  { intros p (k' & Hin & Hpk)%covers_spec. destruct (HnewA _ Hin) as [?|[= Ht ->]].
    - left. apply covers_spec. eauto.
    - right. rewrite Ht in Hin. done. }
  eapply safe_step; try done. destruct Hcm as [? ? ?]. split; try done; rewrite ?He, ?Hg.
  - lia.
  - intros t' Hel Ht. destruct (Hnot t' Hel). congruence.
  - intros t' b Hb. destruct (lc_cand n _ _ _ _ _ _ Lc t' b Hb) as [? _]. split; [lia |].
    intros Ht. right. exists src. by rewrite <- Ht, Hst.
  - intros t' k' Hin. destruct (HnewA _ Hin) as [Hin'|[= -> _]]; [|lia].
    pose proof (lc_ack n _ _ _ _ _ _ Lc t' k' Hin'). lia.
  - intros p [Hcv|(Hin & Hpt & Hpk)]%Hcov Hk; [|left; by apply Hack].
    pose proof (dead_step n i rf rf' G P A s G P A' s' Hi X p) as Hds.
    destruct (lc_acked n _ _ _ _ _ _ Lc p Hcv Hk) as [Ha|?]; [|right; by apply Hds].
    pose proof (anc_term _ _ _ (sf_tree n _ _ _ _ S) Ha). pose proof (lc_term n _ _ _ _ _ _ Lc).
    destruct (Hkeep p Ha Hk ltac:(lia)) as [?|?]; [by left | right; by apply Hds].
  - intros t' cd b p Hgr Hb [Hcv|(_ & Hpt & _)]%Hcov Hk Hlt.
    + destruct (lc_vote n _ _ _ _ _ _ Lc t' cd b p Hgr Hb Hcv Hk Hlt) as [?|?]; [by left | right].
      by eapply dead_step.
    + apply (ok_disk n s i rf (inv_node n s I i rf Hi)) in Hgr as [Hgl _]. lia.
Qed.
End quiet.
