(* ===== verification/RaftCommitOps.v ===== *)
(** What the operations of one peer do to the commit index, to the messages for the
    service and to the match table, for [RaftCommitSteps]. *)
From S2P Require Import Prelude Persister RaftTypes RaftTools RaftPersist RaftLog RaftLogFacts.
From S2P Require Import RaftReplication RaftElection RaftAppend RaftSnapshot RaftNode RaftCluster.
From S2P Require Import RaftSafety RaftElectionSafety RaftChains RaftLogMatching RaftTree RaftCommit RaftCommitSteps.

Section ops.
Context {C : Type} `{GobLaws C} (n : nat).
Implicit Types (G : record_of C) (P : stands) (A : acks) (rf : Raft C) (s : Cluster C).
Implicit Types (m : ApplyMsg C) (e : LogEntry C).

(** The fields that replication and commitment read. *)
Definition core rf := (commitIndex rf, pendingPuts rf, applyChBuffer rf).

Lemma core_msgs rf rf' : core rf' = core rf -> commitIndex rf' = commitIndex rf /\ messages rf' = messages rf.
Proof. unfold core, messages. by intros [= -> -> ->]. Qed.

Lemma toFollower_core term rf : core (toFollower term rf) = core rf /\ matchIndex (toFollower term rf) = matchIndex rf.
Proof. unfold toFollower. by destruct (_ <? _). Qed.

(** Saving a peer that is as before except for its term, role and vote. *)
Lemma still_persist rf rf' :
  log_part rf' = log_part rf -> core rf' = core rf -> (stored rf).1 <= currentTerm rf' ->
  (role rf' = Leader -> role rf = Leader /\ currentTerm rf' = currentTerm rf /\ matchIndex rf' = matchIndex rf) ->
  still rf (persist rf').
Proof.
  intros Hp [Hci Hm]%core_msgs Hst Hr. split; try done.
  - rewrite stored_persist. done.
  - change (messages (persist rf')) with (messages rf'). by rewrite Hm.
Qed.

Lemma still_same rf rf' :
  log_part rf' = log_part rf -> core rf' = core rf -> persister rf' = persister rf ->
  (role rf' = Leader -> role rf = Leader /\ currentTerm rf' = currentTerm rf /\ matchIndex rf' = matchIndex rf) ->
  still rf rf'.
Proof.
  intros Hp [Hci Hm]%core_msgs Hps Hr. split; try done.
  - rewrite (stored_persister _ _ Hps). done.
  - by rewrite Hm.
Qed.

Lemma still_follower term rf : still rf (toFollower term rf).
Proof.
  apply still_same; [apply toFollower_part | apply toFollower_core | apply toFollower_frame |].
  rewrite toFollower_role. done.
Qed.

Lemma RequestVoteRequest_still now rf args reply :
  (stored rf).1 <= currentTerm rf -> still rf (RequestVoteRequestHandler now rf args reply).1.
Proof.
  intros Hst. destruct (requestVote_eval now rf args reply) as (r & -> & _). cbn [fst].
  set (rf1 := if currentTerm rf <? rva_Term args then _ else rf).
  assert (log_part rf1 = log_part rf /\ core rf1 = core rf /\ currentTerm rf <= currentTerm rf1
    /\ (role rf1 = Leader -> role rf = Leader /\ currentTerm rf1 = currentTerm rf
        /\ matchIndex rf1 = matchIndex rf)) as (Hp & Hc & Ht & Hr).
  { subst rf1. destruct (Z.ltb_spec (currentTerm rf) (rva_Term args)); [|repeat split; (done || lia)].
    split; [apply toFollower_part |]. split; [apply toFollower_core |].
    split; [rewrite toFollower_term; lia |]. by rewrite toFollower_role. }
  clearbody rf1. apply still_persist; destruct (rvr_VoteGranted r); first [done | exact (Z.le_trans _ _ _ Hst Ht)].
Qed.

Lemma RequestVoteResponse_still rf args reply : still rf (RequestVoteResponseHandler rf args reply).1.
Proof.
  unfold RequestVoteResponseHandler. destruct (Z.eqb_spec (role rf) Candidate) as [Hc|]; cbn [negb];
    [|apply still_refl].
  repeat case_match; cbn [fst]; try apply still_refl; try apply still_follower;
    (apply still_same; [done..|]; cbn; by rewrite Hc).
Qed.

(** Only the answer of a success, and only to the leader, enters the match table. *)
Lemma leaderHandleLog_core rf args reply rf' :
  leaderHandleLog rf args reply = Done rf' ->
  core rf' = core rf /\ role rf' = role rf /\ currentTerm rf' = currentTerm rf
  /\ (matchIndex rf' = matchIndex rf
      \/ aer_Success reply = true
         /\ matchIndex rf' = <[Z.to_nat (aer_ServerId reply) := (end_of args).1]> (matchIndex rf)).
Proof.
  unfold leaderHandleLog. intros (next & _ & Hl)%go_bind_Done.
  destruct (negb (_ =? _)); [injection Hl as <-; repeat split; by left |].
  destruct (aer_Success reply) eqn:Hs; cbn [negb andb] in Hl.
  2: { go_inv; repeat split; by left. }
  apply go_bind_Done in Hl as (ni & _ & Hl). apply go_bind_Done in Hl as (mi & [_ ->]%go_update_inv & Hl).
  injection Hl as <-. repeat split. right. split; [done |]. cbn. f_equal. lia.
Qed.

Lemma match_insert A (l : list Z) (k : nat) t v :
  (forall j x, l !! j = Some x -> x = -1 \/ (j, t, x) ∈ A) -> (k, t, v) ∈ A ->
  forall j x, <[k := v]> l !! j = Some x -> x = -1 \/ (j, t, x) ∈ A.
Proof.
  intros Hl Hk j x [(<- & <- & _)|[_ Hj]]%list_lookup_insert_Some; [by right | by apply Hl].
Qed.

(** The answer to a request for the log: a success of the leader's own term is counted. *)
Lemma AppendEntriesResponse_match A rf args reply rf' (d : nat) :
  match_ok n A rf -> (stored rf).1 <= currentTerm rf ->
  (aer_Success reply = true -> aer_Term reply = aea_Term args /\ aer_ServerId reply = Z.of_nat d
     /\ (d, aea_Term args, (end_of args).1) ∈ A) ->
  AppendEntriesResponseHandler rf args reply = Done rf' ->
  core rf' = core rf /\ (stored rf).1 <= (stored rf').1 /\ match_ok n A rf'.
Proof.
  intros Hm Hst Hack. unfold AppendEntriesResponseHandler. intros Hr.
  destruct (Z.ltb_spec (aer_Term reply) (currentTerm rf)) as [|H1]; cbn [orb] in Hr.
  { injection Hr as <-. rewrite stored_persist. done. }
  destruct (Z.ltb_spec (aea_Term args) (currentTerm rf)) as [|H2].
  { injection Hr as <-. rewrite stored_persist. done. }
  destruct (Z.ltb_spec (currentTerm rf) (aer_Term reply)) as [|H3].
  { injection Hr as <-. rewrite stored_persist. split; [apply toFollower_core |].
    split; [cbn [fst]; rewrite toFollower_term; lia |]. intros Hl. cbn in Hl. by rewrite toFollower_role in Hl. }
  apply go_bind_Done in Hr as (rf1 & (Hc & Hro & Ht & Hma)%leaderHandleLog_core & Hr). injection Hr as <-.
  rewrite stored_persist. split; [done |]. split; [rewrite Ht; done |].
  unfold match_ok. change (role (persist rf1)) with (role rf1).
  change (matchIndex (persist rf1)) with (matchIndex rf1). change (currentTerm (persist rf1)) with (currentTerm rf1).
  rewrite Hro, Ht. intros Hl. destruct (Hm Hl) as [Hlen Hall]. destruct Hma as [->|[Hs ->]]; [done |].
  destruct (Hack Hs) as (Hterm & -> & Hin).
  replace (aea_Term args) with (currentTerm rf) in Hin by lia.
  split; [by rewrite length_insert |]. rewrite Nat2Z.id. by apply match_insert.
Qed.

Lemma InstallSnapshotResponse_match A rf args reply rf' (d : nat) :
  match_ok n A rf -> (stored rf).1 <= currentTerm rf ->
  (isr_Term reply = isa_Term args -> isr_ServerId reply = Z.of_nat d
     /\ (d, isa_Term args, isa_LastIncludedIndex args) ∈ A) ->
  InstallSnapshotResponseHandler rf args reply = Done rf' ->
  core rf' = core rf /\ (stored rf).1 <= (stored rf').1 /\ match_ok n A rf'.
Proof.
  intros Hm Hst Hack. unfold InstallSnapshotResponseHandler. intros Hr.
  destruct (Z.eqb_spec (currentTerm rf) (isa_Term args)) as [Ht|]; cbn [negb orb] in Hr.
  2: { injection Hr as <-. rewrite stored_persist. done. }
  destruct (Z.ltb_spec (isr_Term reply) (currentTerm rf)) as [|H1].
  { injection Hr as <-. rewrite stored_persist. done. }
  destruct (Z.ltb_spec (currentTerm rf) (isr_Term reply)) as [|H3].
  { injection Hr as <-. rewrite stored_persist. split; [apply toFollower_core |].
    split; [cbn [fst]; rewrite toFollower_term; lia |]. intros Hl. cbn in Hl. by rewrite toFollower_role in Hl. }
  apply go_bind_Done in Hr as (v & _ & Hr). destruct (_ <=? v).
  { injection Hr as <-. rewrite stored_persist. done. }
  apply go_bind_Done in Hr as (ni & _ & Hr). apply go_bind_Done in Hr as (mi & [_ ->]%go_update_inv & Hr).
  injection Hr as <-. rewrite stored_persist. split; [done |]. split; [done |].
  intros Hl. destruct (Hm Hl) as [Hlen Hall]. destruct (Hack ltac:(lia)) as [Hid Hin].
  change (currentTerm (persist _)) with (currentTerm rf).
  change (matchIndex (persist _)) with (<[Z.to_nat (isr_ServerId reply) := isa_LastIncludedIndex args]> (matchIndex rf)).
  rewrite <- Ht in Hin. split; [by rewrite length_insert |]. rewrite Hid, Nat2Z.id. by apply match_insert.
Qed.

(** ** Messages of entries up to a committed position *)

Definition on_record G rf : Prop := chain G (snapshotIndex rf) (snapshotTerm rf) (log rf).

Lemma on_record_ok G rf : on_record G rf -> log_ok rf.
Proof. apply chain_consecutive. Qed.

Lemma committed_entry G A T rf e x :
  tree G -> on_record G rf -> valid G (base rf) -> e ∈ log rf -> le_Index e <= x.1 -> anc G x (tip rf) ->
  committed n G A x T ->
  committed n G A (pos_of e) T /\ exists pt, G !! pos_of e = Some (le_Command e, pt).
Proof.
  intros Tr Hnl Hb (k & Hk)%list_elem_of_lookup Hle Hx Hc.
  destruct (chain_pos _ _ _ _ _ _ Hnl Hk) as [_ Ha]. fold (tip rf) in Ha.
  destruct (chain_lookup _ _ _ _ _ _ Hnl Hk) as [_ Hg].
  split; [|by eexists]. eapply committed_below; [done | | exact Hc |].
  - eapply anc_both; [exact Ha | exact Hx | done].
  - right. by eexists.
Qed.

Lemma entries_between_elem rf lo hi e :
  log_ok rf -> snapshotIndex rf <= lo -> e ∈ entries_between rf lo hi -> e ∈ log rf /\ le_Index e <= hi.
Proof.
  intros Hok Hlo He. unfold entries_between in He. apply list_elem_of_lookup in He as [k Hk].
  apply lookup_take_Some in Hk as [Hk Hlt]. rewrite lookup_drop in Hk. split.
  - apply list_elem_of_lookup. eauto.
  - rewrite (Hok _ _ Hk). lia.
Qed.

Lemma entry_msg_ok G A T rf e x m :
  tree G -> on_record G rf -> valid G (base rf) -> e ∈ log rf -> le_Index e <= x.1 -> anc G x (tip rf) ->
  committed n G A x T -> m = commandMsg e \/ m = remainingMsg e -> msg_ok n G A T m.
Proof.
  intros Tr Hnl Hb He Hle Hx Hc Hm _.
  destruct (committed_entry G A T rf e x Tr Hnl Hb He Hle Hx Hc) as (Hce & pt & Hg).
  exists (le_Term e), (le_Command e), pt.
  assert (am_Command m = Some (le_Command e) /\ CommandIndex m - 1 = le_Index e) as [-> ->].
  { destruct Hm as [-> | ->]; cbn; split; (done || lia). }
  done.
Qed.

Lemma messages_spawn rf msgs m : m ∈ messages (spawnPut rf msgs) <-> m ∈ messages rf \/ m ∈ msgs.
Proof.
  unfold messages. cbn. rewrite concat_app, !elem_of_app. cbn. rewrite app_nil_r. tauto.
Qed.

(** A peer that commits up to [y] and hands over the entries in between. *)
Lemma commits_advance G A T rf y :
  tree G -> on_record G rf -> valid G (base rf) -> commits n G A T rf ->
  snapshotIndex rf <= commitIndex rf <= y.1 -> anc G y (tip rf) -> committed n G A y T ->
  commits n G A T (spawnPut (rf <| commitIndex := y.1 |> <| lastApplied := y.1 |>)
    (commandMsg <$> entries_between rf (commitIndex rf) y.1)).
Proof.
  intros Tr Hnl Hb [_ _ Hm] Hle Hy Hc. split.
  - cbn. lia.
  - exists y. done.
  - intros m [Hin|(e & -> & He)%list_elem_of_fmap]%messages_spawn.
    + by apply Hm.
    + apply entries_between_elem in He as [He Hle2]; [|by eapply on_record_ok | lia].
      eapply entry_msg_ok; [done | done | done | exact He | exact Hle2 | done | done | by left].
Qed.

(** ** The leader commits *)

Lemma filter_fmap_length {X Y} (f : X -> Y) (Q : Y -> Prop) `{!forall y, Decision (Q y)} (l : list X) :
  length (filter Q (f <$> l)) = length (filter (fun x => Q (f x)) l).
Proof.
  induction l as [|x l IH]; [done |]. cbn [fmap list_fmap]. rewrite !filter_cons.
  destruct (decide (Q (f x))); cbn; by rewrite IH.
Qed.

Lemma match_majority (l : list Z) v :
  length l = n -> (n / 2 + 1 <= matched_by l v)%nat ->
  exists vs, majority n vs /\ forall j, j ∈ vs -> exists k, l !! j = Some k /\ v <= k.
Proof.
  intros Hl Hm. set (f := fun j => default (v - 1) (l !! j)).
  assert (l = f <$> seq 0 n) as Hlf.
  { apply list_eq. intros j. rewrite list_lookup_fmap. subst f. cbn.
    destruct (decide (j < n)%nat) as [Hj|Hj].
    - rewrite lookup_seq_lt by done. cbn. destruct (lookup_lt_is_Some_2 l j) as [x Hx]; [lia |].
      by rewrite Hx.
    - rewrite lookup_seq_ge, lookup_ge_None_2 by lia. done. }
  exists (filter (fun j => v <= f j) (seq 0 n)). split.
  - split; [apply NoDup_filter, NoDup_seq |]. split.
    + rewrite Hlf in Hm. unfold matched_by in Hm. rewrite filter_fmap_length in Hm. exact Hm.
    + intros j [_ Hj%elem_of_seq]%list_elem_of_filter. lia.
  - intros j [Hv Hj%elem_of_seq]%list_elem_of_filter.
    destruct (lookup_lt_is_Some_2 l j) as [x Hx]; [lia |]. subst f. cbn in Hv. rewrite Hx in Hv. eauto.
Qed.

Lemma commits_persist G A T rf : commits n G A T rf -> commits n G A T (persist rf).
Proof. intros [? ? ?]. by split. Qed.

(** The majority rule: what the leader commits was chosen. *)
Lemma leaderUpdate_commits G A rf rf' :
  tree G -> node_log G rf -> valid G (base rf) -> commits n G A (currentTerm rf) rf -> commit_ok rf ->
  match_ok n A rf -> role rf = Leader -> peers rf = n -> (0 < n)%nat ->
  (forall j k, (j, currentTerm rf, k) ∈ A -> k <= lastIndex rf) ->
  leaderUpdateCommitIndex rf = Done rf' ->
  commits n G A (currentTerm rf) rf' /\ match_ok n A rf'.
Proof.
  intros Tr Hnl Hb Hcm Hok Hma Hr Hp Hn Hbound Hu. pose proof (node_log_ok _ _ Hnl) as Hlog.
  destruct (Hma Hr) as [Hlen Hall]. pose proof Hok as [Hok1 Hok2].
  destruct (majorityMatch_spec rf ltac:(congruence) ltac:(lia)) as (m & Hm & Hin & Hmaj & _).
  assert (m <= lastIndex rf) as Hle.
  { apply list_elem_of_lookup in Hin as [j Hj]. destruct (Hall j m Hj) as [->|Ha]; [lia | by eapply Hbound]. }
  rewrite (leaderUpdate_eval rf m) in Hu by done. injection Hu as <-.
  destruct (advance_cases rf m Hlog Hok Hle) as [[-> _]|(Hlt & (e & He & Hie & Hte) & ->)].
  { split; [by apply commits_persist | exact Hma]. }
  split; [|exact Hma]. apply commits_persist. rewrite <- Hie in *.
  pose proof He as (k & Hk)%list_elem_of_lookup.
  destruct (chain_pos _ _ _ _ _ _ (nl_chain _ _ Hnl) Hk) as [_ Ha].
  destruct (chain_lookup _ _ _ _ _ _ (nl_chain _ _ Hnl) Hk) as [_ Hg].
  apply (commits_advance G A (currentTerm rf) rf (pos_of e)); try done; [apply Hnl | cbn; lia |].
  right. exists (pos_of e). split; [by eexists |]. split; [|split; [cbn; lia | apply anc_refl]].
  destruct (match_majority (matchIndex rf) (le_Index e)) as (vs & Hvs & Hcov); [done | by rewrite <- Hp |].
  exists vs. split; [done |]. intros j Hj. destruct (Hcov j Hj) as (v & Hv & Hev).
  destruct (Hall j v Hv) as [->|Hack]; [lia |]. apply covers_spec. exists v. cbn. by rewrite Hte.
Qed.

(** ** The follower commits *)

Lemma reconciled_fields now rf args :
  log (reconciled now rf args) = snd (receiver_rules rf args)
  /\ snapshotIndex (reconciled now rf args) = snapshotIndex rf
  /\ snapshotTerm (reconciled now rf args) = snapshotTerm rf
  /\ core (reconciled now rf args) = core rf /\ role (reconciled now rf args) = Follower
  /\ currentTerm (reconciled now rf args) = Z.max (currentTerm rf) (aea_Term args).
Proof.
  unfold reconciled, core. cbn. rewrite toFollower_role, toFollower_term.
  pose proof (toFollower_frame (aea_Term args) rf) as (_ & -> & -> & -> & _ & _ & _ & -> & _).
  pose proof (toFollower_core (aea_Term args) rf) as [Hc _]. injection Hc as _ _ ->. done.
Qed.

(** A request of the leader's path, accepted: the peer commits what the leader had
    committed when it sent. *)
Lemma AppendEntriesRequest_commits G A T now rf args reply rf' reply' :
  tree G -> node_log G rf -> valid G (base rf) -> commits n G A T rf -> T <= aea_Term args ->
  request_chain G args -> agrees args rf -> currentTerm rf <= aea_Term args ->
  (forall x, committed n G A x T -> comparable G x (end_of args)) ->
  (exists y, y.1 = aea_LeaderCommit args /\ anc G y (end_of args) /\ committed n G A y (aea_Term args)) ->
  AppendEntriesRequestHandler now rf args reply = Done (rf', reply') ->
  log_part rf' = (snd (receiver_rules rf args), snapshotIndex rf, snapshotTerm rf)
  /\ (stored rf').1 = aea_Term args /\ commits n G A (aea_Term args) rf' /\ role rf' = Follower
  /\ aer_Success reply' = fst (receiver_rules rf args) /\ aer_Term reply' = aea_Term args
  /\ aer_ServerId reply' = me rf.
Proof.
  intros Tr Hnl Hb Hcm HT Hrc Hag Hnew Hcomp (y & Hy & Hya & Hyc) Hh.
  pose proof (request_on_record G rf args Hnl Hrc Hag) as Hreq.
  destruct (appendEntries_log now rf args reply (node_log_ok _ _ Hnl) Hnew Hreq) as (r & Hs & Ht & Hid & He).
  rewrite He in Hh. clear He.
  destruct (receiver_path G rf args Hnl Hrc Hag) as (Hkeep & _ & Hend).
  pose proof (receiver_chain G rf args Hnl Hrc Hag) as Hch.
  destruct (reconciled_fields now rf args) as (El & Ei & Et & Ec & Er & Eterm).
  set (rf1 := reconciled now rf args) in *. rewrite Z.max_r in Eterm by done.
  assert (tip rf1 = chain_end (snapshotIndex rf) (snapshotTerm rf) (snd (receiver_rules rf args))) as Htip.
  { unfold tip. by rewrite El, Ei, Et. }
  rewrite <- Htip in *. clearbody rf1.
  destruct Hcm as [Hlow (x & Hx & Hxa & Hxc) Hms]. apply core_msgs in Ec as [Eci Emsg].
  assert (anc G x (tip rf1)) as Hx1 by (apply Hkeep; [done | by apply Hcomp]).
  assert (commits n G A (aea_Term args) rf1) as Hcm1.
  { split; [lia | |].
    - exists x. rewrite Eci. split; [done |]. split; [done |].
      exact (committed_mono n G G A A x _ _ (reflexivity _) (reflexivity _) HT Hxc).
    - intros m. rewrite Emsg. intros Hm%Hms. eapply msg_ok_mono; [done | done | exact HT | done]. }
  assert (on_record G rf1) as Hor by (unfold on_record; by rewrite El, Ei, Et).
  assert (valid G (base rf1)) as Hb1 by (unfold base; rewrite Ei, Et; exact Hb).
  assert (forall rf2, log_part rf2 = log_part rf1 -> currentTerm rf2 = currentTerm rf1 -> role rf2 = role rf1 ->
    commits n G A (aea_Term args) rf2 -> (rf', reply') = (persist rf2, r) ->
    log_part rf' = (snd (receiver_rules rf args), snapshotIndex rf, snapshotTerm rf)
    /\ (stored rf').1 = aea_Term args /\ commits n G A (aea_Term args) rf' /\ role rf' = Follower
    /\ aer_Success reply' = fst (receiver_rules rf args) /\ aer_Term reply' = aea_Term args
    /\ aer_ServerId reply' = me rf) as Hdone.
  { intros rf2 Hlp Hct Hro Hc2 [= -> ->]. rewrite stored_persist. cbn [fst].
    split; [change (log_part (persist rf2)) with (log_part rf2); rewrite Hlp; unfold log_part; by rewrite El, Ei, Et |].
    split; [congruence |]. split; [by apply commits_persist |]. split; [|done]. cbn. congruence. }
  destruct (fst (receiver_rules rf args)) eqn:Hok; [|injection Hh as <- <-; by apply (Hdone rf1)].
  pose proof (anc_index _ _ _ Hx1) as Hxi. change ((tip rf1).1) with (lastIndex rf1) in Hxi.
  pose proof (nl_low _ _ Hnl) as Hlow0.
  rewrite followerUpdate_spec in Hh; [|by eapply on_record_ok | split; lia].
  go_simpl. injection Hh as Hrf Hrep. symmetry in Hrf, Hrep.
  destruct (Z.leb_spec (aea_LeaderCommit args) (commitIndex rf1)) as [Hle|Hgt].
  { subst. by apply (Hdone rf1). }
  pose proof (anc_index _ _ _ Hya) as Hyi.
  assert (anc G y (tip rf1)) as Hy1.
  { eapply anc_trans; [exact Hya |]. apply Hend; [done | lia]. }
  pose proof (anc_index _ _ _ Hy1) as Hyl. change ((tip rf1).1) with (lastIndex rf1) in Hyl.
  replace (Z.max (commitIndex rf1) (Z.min (aea_LeaderCommit args) (lastIndex rf1))) with y.1 in Hrf by lia.
  subst rf' reply'. eapply Hdone; [| | | |reflexivity]; try done.
  apply commits_advance; try done. lia.
Qed.

(** ** Snapshots *)

Lemma snapshot_msg_ok G A T rf : msg_ok n G A T (snapshotMsg rf).
Proof. by intros [=]. Qed.

(** The position a snapshot request names. *)
Definition included (args : InstallSnapshotArgs) : Z * Z :=
  (isa_LastIncludedIndex args, isa_LastIncludedTerm args).

(** What accepting a snapshot does: the peer's path stays, if it goes through the
    snapshot's position, or is cut to it. *)
Record accepts G A rf (args : InstallSnapshotArgs) rf' : Prop := {
  ac_term : currentTerm rf <= isa_Term args;
  ac_stored : (stored rf').1 = isa_Term args;
  ac_base : base rf' = included args;
  ac_tip : tip rf' = tip rf /\ anc G (included args) (tip rf)
           \/ tip rf' = included args /\ (tip rf).1 < isa_LastIncludedIndex args;
  ac_commits : commits n G A (isa_Term args) rf';
  ac_role : role rf' = Leader -> role rf = Leader /\ currentTerm rf' = currentTerm rf
    /\ matchIndex rf' = matchIndex rf }.

Lemma commits_spawn G A T rf msgs :
  commits n G A T rf -> (forall m, m ∈ msgs -> msg_ok n G A T m) -> commits n G A T (spawnPut rf msgs).
Proof. intros [? ? Hm] Hms. split; [done | done |]. intros m [?|?]%messages_spawn; [by apply Hm | by apply Hms]. Qed.

Lemma InstallSnapshotRequest_cases G A T now rf args reply rf' reply' :
  tree G -> node_log G rf -> commits n G A T rf -> T <= currentTerm rf -> (stored rf).1 <= currentTerm rf ->
  committed n G A (included args) (isa_Term args) ->
  InstallSnapshotRequestHandler now rf args reply = Done (rf', reply') ->
  isr_ServerId reply' = me rf /\
  (still rf rf' /\ (stored rf').1 = currentTerm rf /\ isr_Term reply' = currentTerm rf
     /\ (currentTerm rf <= isa_Term args -> isa_LastIncludedIndex args <= snapshotIndex rf)
   \/ isr_Term reply' = isa_Term args /\ accepts G A rf args rf').
Proof.
  intros Tr Hnl Hcm HT Hst HL Hh. pose proof (nl_chain _ _ Hnl) as Hc. pose proof (node_log_ok _ _ Hnl) as Hok.
  unfold InstallSnapshotRequestHandler in Hh. destruct (_ && _); [done |].
  assert (forall r, log_part r = log_part rf -> core r = core rf -> currentTerm r = currentTerm rf ->
    role r = role rf -> matchIndex r = matchIndex rf -> still rf (persist r)) as Hstill.
  { intros r Hp Hcr Ht Hro Hmi. apply still_persist; try done; [lia |]. by rewrite Hro. }
  destruct (Z.ltb_spec (isa_Term args) (currentTerm rf)) as [|Hnew].
  { injection Hh as <- <-. split; [done | left]. split; [by apply Hstill |]. rewrite stored_persist.
    split; [done |]. split; [done | lia]. }
  set (rf0 := rf <| lastHeartbeatTime := now |>) in Hh.
  destruct (Z.leb_spec (isa_LastIncludedIndex args) (snapshotIndex rf0)) as [Hle|Hgt].
  { injection Hh as <- <-. split; [done | left]. split; [by apply Hstill |]. rewrite stored_persist. done. }
  change (snapshotIndex rf0) with (snapshotIndex rf) in Hgt.
  set (rf1 := if currentTerm rf0 <? isa_Term args then _ else _) in Hh.
  assert (log_part rf1 = log_part rf /\ core rf1 = core rf /\ currentTerm rf1 = isa_Term args
    /\ (role rf1 = Leader -> role rf = Leader /\ currentTerm rf1 = currentTerm rf
        /\ matchIndex rf1 = matchIndex rf)) as (Hp1 & Hc1 & Ht1 & Hr1).
  { subst rf1. change (currentTerm rf0) with (currentTerm rf).
    destruct (Z.ltb_spec (currentTerm rf) (isa_Term args)).
    - split; [by rewrite toFollower_part |]. split; [exact (proj1 (toFollower_core (isa_Term args) rf0)) |].
      split; [rewrite toFollower_term; cbn; lia |]. by rewrite toFollower_role.
    - repeat split; try done. cbn. lia. }
  clearbody rf1. pose proof Hp1 as Hp1'. injection Hp1' as El Ei Et.
  apply core_msgs in Hc1 as [Eci Ems]. clear rf0 Hstill.
  destruct Hcm as [Hlow (x & Hx & Hxa & Hxc) Hms].
  assert (committed n G A x (isa_Term args)) as Hxc'.
  { eapply committed_mono; [done | done | | exact Hxc]. lia. }
  assert (forall m, m ∈ messages rf1 -> msg_ok n G A (isa_Term args) m) as Hms'.
  { intros m. rewrite Ems. intros Hm%Hms. eapply msg_ok_mono; [done | done | | done]. lia. }
  assert (findIndex rf1 (isa_LastIncludedIndex args) = findIndex rf (isa_LastIncludedIndex args)) as Hf.
  { unfold findIndex. by rewrite El. }
  rewrite Hf, findIndex_spec in Hh by done. fold (lastIndex rf) in Hh.
  destruct (Z.ltb_spec (snapshotIndex rf) (isa_LastIncludedIndex args)); [cbn [andb] in Hh|lia].
  destruct (Z.leb_spec (isa_LastIncludedIndex args) (lastIndex rf)) as [Hin|Hout]; cbn [andb] in Hh.
  - destruct (Z.eqb_spec (isa_LastIncludedIndex args - snapshotIndex rf - 1) (-1)); [lia |].
    apply go_bind_Done in Hh as (e & He & Hh). destruct (Z.eqb_spec (le_Term e) (isa_LastIncludedTerm args)) as [Hte|];
      [cbn [negb] in Hh | done].
    apply go_bind_Done in Hh as (l & Hl & Hh). injection Hh as <- <-.
    apply go_index_Done in He as [Hpos He]. rewrite El in He, Hl. pose proof (lookup_lt_Some _ _ _ He).
    rewrite slice_from_Done in Hl by lia. injection Hl as <-.
    set (k := Z.to_nat (isa_LastIncludedIndex args - snapshotIndex rf - 1)) in *.
    replace (Z.to_nat (isa_LastIncludedIndex args - snapshotIndex rf - 1 + 1)) with (S k) by lia.
    destruct (chain_lookup _ _ _ _ _ _ Hc He) as [Hie _].
    destruct (chain_pos _ _ _ _ _ _ Hc He) as [_ Hea]. fold (tip rf) in Hea.
    pose proof (chain_end_drop _ _ _ _ _ _ Hc He) as Htip. fold (tip rf) in Htip.
    assert (pos_of e = included args) as Hpe.
    { unfold pos_of, included. rewrite Hte. f_equal. lia. }
    rewrite Hpe in Hea. split; [by destruct (_ <? _) |]. right.
    split; [by destruct (_ <? _) |]. split; try done.
    + rewrite stored_persist. by destruct (_ <? _).
    + destruct (_ <? _); exact Hpe.
    + left. split; [|done]. by destruct (_ <? _).
    + apply commits_persist, commits_spawn; [|intros m ->%list_elem_of_singleton; apply snapshot_msg_ok].
      set (rf2 := rf1 <| snapshot := _ |> <| snapshotIndex := _ |> <| snapshotTerm := _ |> <| log := _ |>).
      assert (tip rf2 = tip rf /\ snapshotIndex rf2 = isa_LastIncludedIndex args /\ messages rf2 = messages rf1
        /\ commitIndex rf2 = commitIndex rf) as (Et2 & Ei2 & Em2 & Ec2).
      { split; [exact Htip |]. split; [cbn; lia |]. done. }
      change (commitIndex rf1) with (commitIndex rf2). clearbody rf2.
      rewrite Ec2. destruct (Z.ltb_spec (commitIndex rf) (isa_LastIncludedIndex args)).
      * split; [cbn; lia | |by change (messages _) with (messages rf2); rewrite Em2].
        exists (included args). split; [done |]. split; [|done]. change (tip _) with (tip rf2). by rewrite Et2.
      * split; [lia | |by rewrite Em2]. exists x. rewrite Et2, Ec2. done.
    + by destruct (_ <? _).
  - change (-1 =? -1) with true in Hh. cbn iota in Hh.
    match type of Hh with (if ?b then _ else _) = _ => destruct b eqn:Hlt end; [done |].
    injection Hh as <- <-. split; [done |]. right. split; [done |].
    assert (forall r : Raft C, snapshotIndex r = isa_LastIncludedIndex args ->
      snapshotTerm r = isa_LastIncludedTerm args -> log r = [] -> tip r = included args) as Htip.
    { intros r E1 E2 E3. unfold tip. by rewrite E1, E2, E3, chain_end_nil. }
    split; try done.
    + by rewrite stored_persist.
    + right. split; [by apply Htip |]. exact Hout.
    + apply commits_persist, commits_spawn; [|intros m ->%list_elem_of_singleton; apply snapshot_msg_ok].
      split; [done | |exact Hms']. exists (included args). split; [done |]. split; [|done].
      rewrite Htip by done. apply anc_refl.
Qed.

(** The service compacts what it has applied. *)
Lemma Snapshot_commits G A T rf index snap rf' :
  tree G -> node_log G rf -> valid G (base rf) -> commits n G A T rf -> commit_ok rf ->
  index - 1 <= commitIndex rf -> Snapshot rf index snap = Done rf' ->
  tip rf' = tip rf /\ valid G (base rf') /\ commits n G A T rf' /\ (stored rf').1 = currentTerm rf
  /\ role rf' = role rf /\ currentTerm rf' = currentTerm rf /\ matchIndex rf' = matchIndex rf.
Proof.
  intros Tr Hnl Hb Hcm Hok Hle Hs. pose proof (node_log_ok _ _ Hnl) as Hlog. unfold Snapshot in Hs.
  destruct (decide (snapshotIndex rf < index - 1 <= lastIndex rf)) as [Hin|Hout].
  2: { unfold installCurRfSnapShot in Hs. rewrite findIndex_absent in Hs by (done || unfold lastIndex in *; lia).
       change (-1 =? -1) with true in Hs. injection Hs as <-. rewrite stored_persist.
       repeat (split; [done |]). split; [by apply commits_persist | done]. }
  destruct (installCur_eval rf (index - 1) snap Hlog Hok Hin) as (e & Hel & Hi & He).
  rewrite He in Hs. clear He. injection Hs as <-. rewrite stored_persist.
  pose proof Hel as (k & Hk)%list_elem_of_lookup. pose proof (Hlog _ _ Hk) as Hik.
  destruct (chain_pos _ _ _ _ _ _ (nl_chain _ _ Hnl) Hk) as [_ Ha]. fold (tip rf) in Ha.
  set (rf1 := compacted rf (le_Index e) (le_Term e) snap) in *.
  assert (tip rf1 = tip rf) as Htip.
  { unfold tip. cbn. replace (Z.to_nat (le_Index e - snapshotIndex rf)) with (S k) by lia.
    exact (chain_end_drop _ _ _ _ _ _ (nl_chain _ _ Hnl) Hk). }
  assert (valid G (tip rf)) as Hvt.
  { destruct (chain_lookup _ _ _ _ _ _ (nl_chain _ _ Hnl) Hk) as [_ _].
    destruct (last (log rf)) as [z|] eqn:Hz.
    - rewrite last_lookup in Hz. destruct (chain_pos _ _ _ _ _ _ (nl_chain _ _ Hnl) Hz) as [Hpz _].
      destruct (chain_lookup _ _ _ _ _ _ (nl_chain _ _ Hnl) Hz) as [_ Hgz].
      apply lookup_lt_Some in Hz. rewrite take_ge in Hpz by lia. unfold tip. rewrite Hpz. right. by eexists.
    - apply last_None in Hz. unfold tip. by rewrite Hz, chain_end_nil. }
  split; [exact Htip |]. split; [by eapply anc_valid |]. split; [|done].
  apply commits_persist. destruct Hcm as [Hlow (x & Hx & Hxa & Hxc) Hms]. apply commits_spawn.
  - split; [cbn; lia | |exact Hms]. exists x. rewrite Htip. done.
  - intros m [->|(z & -> & Hz)%list_elem_of_fmap]%elem_of_cons; [apply snapshot_msg_ok |].
    apply entries_between_elem in Hz as [Hz Hzi]; [|done | lia].
    eapply entry_msg_ok; [done | apply Hnl | done | exact Hz | | exact Hxa | exact Hxc | by right]. lia.
Qed.

(** A restart commits its snapshot and hands over nothing else. *)
Lemma Make_commits G A T np i rf now rnd rf' :
  tree G -> node_log G rf -> valid G (base rf) -> commits n G A T rf ->
  Make np i (persister rf) now rnd = Done rf' -> commits n G A T rf'.
Proof.
  intros Tr Hnl Hb [Hlow (x & Hx & Hxa & Hxc) _] Hm.
  destruct (Make_log G _ _ _ _ _ _ Hnl Hm) as [Hp _]. destruct (tip_part _ _ Hp) as [Htip Hbase].
  assert (commitIndex rf' = snapshotIndex rf' /\ (forall c, c ∈ messages rf' -> CommandValid c = false))
    as [Hci Hms].
  { unfold Make in Hm. set (rf0 := readPersistSnapshot _ _) in Hm.
    set (rf1 := rf0 <| commitIndex := _ |> <| lastApplied := _ |>) in Hm.
    assert (commitIndex rf1 = snapshotIndex rf1 /\ pendingPuts rf1 = [] /\ applyChBuffer rf1 = []) as (E1 & E2 & E3).
    { split; [done |]. subst rf1 rf0. unfold readPersist.
      destruct (ReadRaftState (persister rf)); [done |].
      destruct (gob_decode _ _) as [[|[?|?] [|[?|?] [|[?|?] [|[?|?] [|[?|?] [|? ?]]]]]]|]; done. }
    clearbody rf1. apply go_bind_Done in Hm as (rf2 & H2 & Hm).
    assert (log_part rf2 = log_part rf1 /\ commitIndex rf2 = commitIndex rf1
      /\ forall c, c ∈ messages rf2 -> CommandValid c = false) as (F1 & F2 & F3).
    { destruct (negb _).
      - unfold putBeforeReader in H2. rewrite E3 in H2. injection H2 as <-. split; [done |]. split; [done |].
        unfold messages. cbn. rewrite E2. by intros c ->%list_elem_of_singleton.
      - injection H2 as <-. split; [done |]. split; [done |]. unfold messages. rewrite E2, E3.
        by intros c ?%elem_of_nil. }
    assert (replayLoop (log rf2) rf2 = Done rf2) as Hr.
    { injection F1 as G1 G2 G3. apply replayLoop_part in Hm as [Hp2 _].
      assert (log_part rf2 = log_part rf) as Hp3 by congruence. injection Hp3 as J1 J2 J3. rewrite J1.
      apply replayLoop_ok; [by apply (node_log_ok G) | congruence]. }
    rewrite Hr in Hm. injection Hm as <-. injection F1 as _ G2 _. split; [congruence | done]. }
  split.
  - lia.
  - exists (base rf). injection Hp as _ Hsi _. rewrite Hci, Hsi, Htip. split; [done |].
    assert (anc G (base rf) (tip rf)) as Hbt by by apply base_tip.
    split; [done |]. eapply committed_below; [done | | exact Hxc | done].
    eapply anc_both; [exact Hbt | exact Hxa |]. cbn. lia.
  - intros c Hc Hv. by rewrite (Hms c Hc) in Hv.
Qed.

(** ** What a leader sends *)

(** A request for the log carries the whole rest of it and the commit index; a snapshot
    is the peer's own. *)
Inductive sent rf : outgoing C -> Prop :=
| sent_append args : aea_Term args = currentTerm rf /\ end_of args = tip rf
    /\ aea_LeaderCommit args = commitIndex rf -> sent rf (OutAppend args)
| sent_install args : isa_Term args = currentTerm rf /\ isa_LastIncludedIndex args = snapshotIndex rf
    /\ isa_LastIncludedTerm args = snapshotTerm rf -> sent rf (OutInstall args).

Lemma buildRequest_sent G rf j o : node_log G rf -> buildRequest rf j = Done o -> sent rf o.
Proof.
  intros Hnl. pose proof (node_log_ok _ _ Hnl) as Hok.
  unfold buildRequest. intros (next & _ & Hb)%go_bind_Done.
  destruct (Z.ltb_spec (next - 1) (snapshotIndex rf)) as [|Hge]; [injection Hb as <-; by apply sent_install |].
  destruct (Z.eqb_spec (next - 1) (snapshotIndex rf)) as [Heq|Hne].
  { cbn in Hb. injection Hb as <-. apply sent_append. cbn. unfold end_of. cbn. by rewrite Heq. }
  destruct (decide (next - 1 <= snapshotIndex rf + len (log rf))) as [Hin|Hout].
  2: { pose proof (scanIndex_absent _ (log rf) 0 (next - 1) Hok ltac:(lia)) as Hf.
       destruct (scanIndex 0 (log rf) (next - 1)) as [i found]. cbn in Hf. by subst found. }
  rewrite (scanIndex_found _ _ _ _ Hok) in Hb by lia. cbn [negb] in Hb.
  set (k := next - 1 - (snapshotIndex rf + 1)) in *.
  replace (0 + k + 1 - 1) with k in Hb by lia. replace (0 + k + 1) with (k + 1) in Hb by lia.
  destruct (go_index_total (log rf) k) as (e & He & Hl); [lia |].
  rewrite He, slice_from_Done in Hb by lia. cbn in Hb. injection Hb as <-.
  pose proof (Hok _ _ Hl) as Hi.
  pose proof (chain_end_drop _ _ _ _ _ _ (nl_chain _ _ Hnl) Hl) as Hd.
  apply sent_append. split; [done |]. split; [|done]. unfold end_of. cbn.
  replace (Z.to_nat (k + 1)) with (S (Z.to_nat k)) by lia. replace (next - 1) with (le_Index e) by lia. exact Hd.
Qed.

Lemma buildRequests_sent G rf l reqs :
  node_log G rf -> buildRequests rf l = Done reqs -> forall j o, (j, o) ∈ reqs -> sent rf o.
Proof.
  intros Hnl. revert reqs; induction l as [|i l IH]; intros reqs; cbn [buildRequests].
  { intros [= <-] j o Hin. by apply elem_of_nil in Hin. }
  intros (r & Hr & (rs & Hrs & Hd)%go_bind_Done)%go_bind_Done. injection Hd as <-.
  intros j o [[= -> ->]|Hin]%elem_of_cons; [by eapply buildRequest_sent | by eapply IH].
Qed.

(** A candidate asks with the position of its last entry. *)
Lemma toCandidate_asks G now rnd rf rf' reqs :
  node_log G rf -> toCandidate now rnd rf = (rf', reqs) ->
  log_part rf' = log_part rf /\ core rf' = core rf
  /\ reqs = (fun j => (j, mkRequestVoteArgs (currentTerm rf + 1) (me rf) (tip rf).1 (tip rf).2)) <$> others rf'.
Proof.
  intros Hnl. unfold toCandidate. set (rf1 := rf <| role := _ |> <| currentTerm := _ |> <| votedFor := _ |>
    <| voteCnt := _ |> <| electionTimeout := _ |> <| lastHeartbeatTime := _ |>).
  assert (getLastLogIndexAndTerm rf1 = tip rf) as Hlast by (rewrite <- (tip_last G rf Hnl); reflexivity).
  rewrite Hlast. assert (log_part rf1 = log_part rf /\ core rf1 = core rf /\ currentTerm rf1 = currentTerm rf + 1
    /\ me rf1 = me rf) as (Hp & Hc & Ht & Hm) by (split; [|split; [|split]]; reflexivity).
  clearbody rf1. destruct (tip rf) as [li lt]. intros [= <- <-]. rewrite Ht, Hm.
  split; [exact Hp |]. split; [exact Hc |]. reflexivity.
Qed.
End ops.
