(* ===== verification/RaftStateSafety.v ===== *)
(** State machine safety of the cluster of [RaftCluster]: the steps that keep the
    invariant of [RaftCommit], and what follows for the services. *)
From S2P Require Import Prelude Persister RaftTypes RaftTools RaftPersist RaftLog RaftLogFacts.
From S2P Require Import RaftReplication RaftElection RaftAppend RaftSnapshot RaftNode RaftCluster.
From S2P Require Import RaftSafety RaftElectionSafety RaftChains RaftLogMatching RaftTree.
From S2P Require Import RaftCommit RaftCommitSteps RaftCommitOps.

Section steps.
Context {C : Type} `{GobLaws C} (n : nat).
Implicit Types (G : record_of C) (P : stands) (A : acks) (rf : Raft C) (s : Cluster C).
Implicit Types (x y p : Z * Z) (c : call C).

(** ** Sound runs *)

(** A careful step in which, moreover, a peer commits and sends only while it is leader,
    a request from the very beginning of the log is not accepted by a peer that has a
    snapshot, and a service compacts only what was applied to it. *)
Definition sound s (a : action C) s' : Prop :=
  careful s a s'
  /\ (forall k now rnd i th rf, a = ARun k now rnd -> threads s !! k = Some (i, th) ->
       th = ThLeaderUpdate \/ th = ThLeaderSend \/ th = ThStartSend ->
       nodes s !! i = Some rf -> role rf = Leader)
  /\ (forall k now c args r rf, a = ADeliver k now -> calls s !! k = Some c ->
       c_rpc c = CallAE args r -> nodes s !! c_dst c = Some rf ->
       currentTerm rf <= aea_Term args -> 0 <= snapshotIndex rf -> 0 <= aea_PrevLogIndex args)
  /\ (forall i index snap rf, a = ASnapshot i index snap -> nodes s !! i = Some rf ->
       index - 1 <= commitIndex rf).

Inductive soundly_reachable : Cluster C -> Prop :=
| sound_boot : soundly_reachable (boot n)
| sound_step s a s' :
    soundly_reachable s -> cstep a s = Some s' -> sound s a s' -> soundly_reachable s'.

(** ** What the invariant gives for one step *)

Section facts.
Context G P A s (I : inv n s) (L : linv G s) (S : safe n G P A s).

Lemma local_at i rf : nodes s !! i = Some rf -> local n G P A s i rf.
Proof. apply (sf_local n _ _ _ _ S). Qed.

Lemma stored_current i rf : nodes s !! i = Some rf -> (stored rf).1 <= currentTerm rf.
Proof. intros Hi. exact (ok_behind n s i rf (inv_node n s I i rf Hi)). Qed.

Lemma base_committed i rf : nodes s !! i = Some rf -> committed n G A (base rf) (stored rf).1.
Proof.
  intros Hi. pose proof (local_at i rf Hi) as Lc.
  destruct (lc_committed n _ _ _ _ _ _ Lc) as (x & Hx & Ha & Hc).
  eapply committed_below; [apply S | | exact Hc | apply Lc].
  eapply anc_both; [by apply base_tip, (li_node G s L i) | exact Ha |].
  rewrite Hx. exact (lc_commit n _ _ _ _ _ _ Lc).
Qed.

Lemma local_commit_ok i rf : nodes s !! i = Some rf -> commit_ok rf.
Proof.
  intros Hi. pose proof (local_at i rf Hi) as Lc. pose proof (nl_low _ _ (li_node G s L i rf Hi)).
  pose proof (lc_commit n _ _ _ _ _ _ Lc).
  destruct (lc_committed n _ _ _ _ _ _ Lc) as (x & Hx & Ha & _). apply anc_index in Ha.
  change ((tip rf).1) with (lastIndex rf) in Ha. split; lia.
Qed.

Lemma tip_valid i rf : nodes s !! i = Some rf -> valid G (tip rf).
Proof.
  intros Hi. pose proof (li_node G s L i rf Hi) as Hnl. unfold tip.
  destruct (last (log rf)) as [z|] eqn:Hz.
  - rewrite last_lookup in Hz. destruct (chain_pos _ _ _ _ _ _ (nl_chain _ _ Hnl) Hz) as [Hpz _].
    destruct (chain_lookup _ _ _ _ _ _ (nl_chain _ _ Hnl) Hz) as [_ Hgz].
    apply lookup_lt_Some in Hz. rewrite take_ge in Hpz by lia. rewrite Hpz. right. by eexists.
  - apply last_None in Hz. rewrite Hz, chain_end_nil. apply (local_at i rf Hi).
Qed.

(** A request of a later or the same term agrees with the peer's snapshot. *)
Lemma request_agrees c args r i rf :
  c ∈ calls s -> c_rpc c = CallAE args r -> nodes s !! i = Some rf -> currentTerm rf <= aea_Term args ->
  (0 <= snapshotIndex rf -> 0 <= aea_PrevLogIndex args) -> agrees args rf.
Proof.
  intros Hc Hr Hi Ht Hpos. pose proof (li_call G s L c Hc) as Hcl. pose proof (sf_call n _ _ _ _ S c Hc) as Hsc.
  unfold call_log, safe_call in *. rewrite Hr in Hcl, Hsc. destruct Hcl as (Hrc & Hel & _). destruct Hsc as (Hb & _).
  eapply agrees_on_path; [by apply (li_node G s L i) | done | done |].
  eapply committed_comparable; [exact I | exact S | exact Hel | exact Hb | by eapply base_committed |].
  pose proof (stored_current i rf Hi). lia.
Qed.

(** A peer's vote carries what it has acknowledged: the candidate's log is at least as
    up to date as the voter's, so it has the entry, or the entry is dead. *)
Lemma up_to_date_above p x b :
  known G p -> anc G p x -> valid G x -> valid G b ->
  x.2 < b.2 \/ x.2 = b.2 /\ x.1 <= b.1 -> anc G p b \/ dead n A s p.
Proof.
  intros Hp Hpx Hx Hb Hle. pose proof (sf_tree n _ _ _ _ S) as Tr.
  pose proof (anc_term _ _ _ Tr Hpx) as Hpt. pose proof (valid_low _ _ Tr Hx) as [_ Hx0].
  destruct p as [m t]. pose proof Hp as [[cmd pt] Hg]. pose proof (tr_terms _ Tr _ _ _ _ Hg) as [_ Ht0].
  cbn [fst snd] in *. destruct Hx as [->|Hkx]; [cbn in *; lia |].
  destruct Hb as [->|Hkb]; [cbn in *; lia |]. destruct x as [xi xt], b as [bi bt]. cbn [fst snd] in *.
  destruct Hle as [Hlt|[-> Hle]].
  - destruct (known_origin n _ _ _ _ S _ Hkb) as (q & b0 & ? & ? & _ & Hel & Hb0 & _). cbn [fst snd] in *.
    destruct (leader_above n _ _ _ _ I S bt q b0 (m, t) Hel Hb0 Hp ltac:(cbn; lia)) as [Ha|]; [left|by right].
    eapply anc_trans; [exact Ha |]. by eapply (term_above n _ _ _ _ I S bt q b0 bi).
  - left. eapply anc_trans; [exact Hpx |]. by eapply (term_linear n _ _ _ _ I S).
Qed.
End facts.

Lemma sound_orderly G P A s a s' :
  inv n s -> linv G s -> safe n G P A s -> sound s a s' -> orderly s a s'.
Proof.
  intros I L S (Hc & Hl & Ha & _). split; [done |]. split.
  - intros k now rnd i th rf Hk Hth Hcase. eapply Hl; [exact Hk | exact Hth |]. tauto.
  - intros k now c args r rf -> Hk Hr Hd Ht. eapply request_agrees; try done.
    + apply list_elem_of_lookup. eauto.
    + by eapply Ha.
Qed.

Lemma updated_call s k c c' d :
  calls s !! k = Some c -> d ∈ <[k := c']> (calls s) -> d ∈ calls s \/ d = c'.
Proof.
  intros Hk (j & [(_ & <- & _)|[_ Hj]]%list_lookup_insert_Some)%list_elem_of_lookup; [by right | left].
  apply list_elem_of_lookup. eauto.
Qed.

(** ** Delivering a call *)

Lemma vote_safe G P A s k now c args r rf rf' reply :
  inv n s -> linv G s -> safe n G P A s -> calls s !! k = Some c -> c_rpc c = CallRV args r ->
  nodes s !! c_dst c = Some rf -> RequestVoteRequestHandler now rf args zero_RequestVoteReply = (rf', reply) ->
  safe n G P A ((set_node (c_dst c) rf' s)
    <| calls := <[k := mkCall (c_src c) (c_dst c) (CallRV args (Some reply))]> (calls s) |>
    <| granted := vote_of (C := C) (c_dst c) (CallRV args (Some reply)) ++ granted s |>).
Proof.
  intros I L S Hk Hr Hd Hh. assert (c ∈ calls s) as Hc by (apply list_elem_of_lookup; eauto).
  pose proof (sf_call n _ _ _ _ S c Hc) as Hsc. pose proof (inv_call n s I c Hc) as Hcok.
  unfold safe_call in Hsc. unfold call_ok in Hcok. rewrite Hr in Hsc, Hcok. destruct Hcok as (Hcid & _ & _).
  pose proof (RequestVoteRequest_still now rf args zero_RequestVoteReply (stored_current s I _ rf Hd)) as Hst.
  rewrite Hh in Hst. cbn [fst] in Hst. destruct Hst as [Hp Hs Hci Hms Hma].
  destruct (tip_part _ _ Hp) as [Htip Hbase].
  pose proof (local_at G P A s S _ rf Hd) as Lc.
  set (s' := (set_node _ _ _) <| calls := _ |> <| granted := _ |>).
  assert (forall j t v, (j, t, v) ∈ granted s' -> (j, t, v) ∈ granted s
    \/ j = c_dst c /\ t = rva_Term args /\ v = Z.of_nat (c_src c) /\ up_to_date rf args) as Hgr.
  { intros j t v. unfold s'. cbn. destruct (rvr_VoteGranted reply) eqn:Hg; cbn; [|by left].
    intros [[= -> -> ->]|?]%elem_of_cons; [right | by left].
    destruct (requestVote_eval now rf args zero_RequestVoteReply) as (r' & Hr' & Hterm & Hyes).
    rewrite Hh in Hr'. injection Hr' as _ ->. destruct Hyes as [Hyes _]. destruct (Hyes Hg) as (Hle & _ & Hup).
    rewrite Hterm, Hcid. split; [done |]. destruct (Z.ltb_spec (currentTerm rf) (rva_Term args)) as [Hlt|].
    - rewrite toFollower_term. split; [lia |]. split; [done |].
      pose proof (toFollower_frame (rva_Term args) rf) as (F1 & F2 & F3 & _).
      by eapply (up_to_date_log rf) in Hup.
    - split; [lia | done]. }
  assert (extends (c_dst c) rf rf' G P A s G P A s') as X.
  { split; try done; try by left.
    - by apply advances_keeps.
    - intros j t v [?|(-> & _)]%Hgr; [by left | by right].
    - intros j t q [?|(-> & -> & Hq & _)]%Hgr; [by eapply (sf_granted n _ _ _ _ S) |].
      apply Nat2Z.inj in Hq as ->. by rewrite Hsc. }
  eapply safe_step; try done.
  - eapply local_keeps; try done.
    + intros t cd b p [?|(_ & -> & Hq & Hup)]%Hgr Hb Hcov Hkn Hlt; [by left | right].
      apply Nat2Z.inj in Hq as ->. rewrite Hsc in Hb. injection Hb as <-.
      destruct (lc_acked n _ _ _ _ _ _ Lc p Hcov Hkn) as [Ha|]; [|by right].
      eapply up_to_date_above; try done; [by eapply tip_valid | by eapply (sf_stand n _ _ _ _ S) |].
      unfold up_to_date in Hup. rewrite (tip_last G) in Hup by by apply (li_node G s L (c_dst c)).
      by destruct (tip rf).
    + rewrite Hbase. apply Lc.
    + eapply commits_keeps; [by eapply local_commits | done..].
    + eapply match_ok_keeps; [exact (lc_match n _ _ _ _ _ _ Lc) | done].
  - intros x [?| ->]%(updated_call s k c _ _ Hk); [by left | right]. exact Hsc.
Qed.

Lemma known_low G P A s p : safe n G P A s -> known G p -> 0 <= p.1.
Proof.
  intros S [[cmd pt] Hg]. destruct p as [i t]. exact (tr_index _ (sf_tree n _ _ _ _ S) _ _ _ _ Hg).
Qed.

Lemma elected_distinct s t i j : inv n s -> (t, i) ∈ elected s -> i <> j -> (t, j) ∉ elected s.
Proof. intros I Hi Hne Hj. apply Hne. by eapply (elected_unique n). Qed.

Lemma commits_acks G A A' T rf : A ⊆ A' -> commits n G A T rf -> commits n G A' T rf.
Proof.
  intros HA [? (x & ? & ? & ?) Hms]. split; [done | |].
  - exists x. split; [done |]. split; [done |]. by eapply committed_mono; [| |reflexivity|].
  - intros m Hm. eapply msg_ok_mono; [done | done | reflexivity | by apply Hms].
Qed.

Lemma match_ok_acks A A' rf : A ⊆ A' -> match_ok n A rf -> match_ok n A' rf.
Proof.
  intros HA Hm Hl. destruct (Hm Hl) as [? Hall]. split; [done |].
  intros j v Hj. destruct (Hall j v Hj) as [?|?]; [by left | right; by apply HA].
Qed.

(** An AppendEntries request is delivered. *)
Section append.
Context G P A s (k : nat) (now : Z) c (args : AppendEntriesArgs C) (r : option AppendEntriesReply) rf rf' (reply : AppendEntriesReply).
Context (I : inv n s) (L : linv G s) (S : safe n G P A s) (Hk : calls s !! k = Some c) (Hr : c_rpc c = CallAE args r).
Context (Hd : nodes s !! c_dst c = Some rf).
Context (Hh : AppendEntriesRequestHandler now rf args zero_AppendEntriesReply = Done (rf', reply)).

Abbreviation s' := ((set_node (c_dst c) rf' s)
  <| calls := <[k := mkCall (c_src c) (c_dst c) (CallAE args (Some reply))]> (calls s) |>).

Lemma append_call : request_chain G args /\ (aea_Term args, c_src c) ∈ elected s /\ c_src c <> c_dst c
  /\ branch G P (aea_Term args) (c_src c) (end_of args)
  /\ exists y, y.1 = aea_LeaderCommit args /\ anc G y (end_of args) /\ committed n G A y (aea_Term args).
Proof.
  assert (c ∈ calls s) as Hc by (apply list_elem_of_lookup; eauto).
  pose proof (sf_call n _ _ _ _ S c Hc) as Hsc. pose proof (li_call G s L c Hc) as Hcl.
  unfold safe_call in Hsc. unfold call_log in Hcl. rewrite Hr in Hsc, Hcl.
  destruct Hcl as (? & ? & ?), Hsc as (? & ? & _). done.
Qed.

(** A request of an old term changes nothing. *)
Lemma append_old : aea_Term args < currentTerm rf -> safe n G P A s'.
Proof.
  intros Hold. destruct append_call as (_ & _ & _ & Hbr & Hy). unfold AppendEntriesRequestHandler in Hh.
  destruct (Z.ltb_spec (aea_Term args) (currentTerm rf)); [|lia]. injection Hh as <- <-.
  eapply (safe_still n (c_dst c) rf (persist rf) G P A s); try done.
  - pose proof (stored_current s I _ rf Hd). by apply still_persist.
  - intros d [?| ->]%(updated_call s k c _ _ Hk); [by left | right]. split; [done |]. split; [done |]. by intros ? [= <-].
Qed.

Context (Hnew : currentTerm rf <= aea_Term args) (Hag : agrees args rf).

(** What the receiver has afterwards. *)
Lemma append_result : tip rf' = chain_end (snapshotIndex rf) (snapshotTerm rf) (snd (receiver_rules rf args))
  /\ base rf' = base rf /\ (stored rf').1 = aea_Term args /\ commits n G A (aea_Term args) rf' /\ role rf' = Follower
  /\ aer_Success reply = fst (receiver_rules rf args) /\ aer_Term reply = aea_Term args
  /\ aer_ServerId reply = Z.of_nat (c_dst c).
Proof.
  destruct append_call as (Hrc & Hel & _ & Hbr & Hy). pose proof (stored_current s I _ rf Hd) as Hst.
  destruct (AppendEntriesRequest_commits n G A (stored rf).1 now rf args zero_AppendEntriesReply rf' reply)
    as (Hlp & Hst' & Hcm & Hro & Hsu & Hte & Hid); try done.
  { apply S. }
  { by apply (li_node G s L _ rf Hd). }
  { apply (local_at G P A s S _ rf Hd). }
  { by eapply local_commits, (local_at G P A s S _ rf Hd). }
  { lia. }
  { intros x Hx. eapply (committed_comparable n); try done. lia. }
  split; [unfold tip; by injection Hlp as -> -> -> |]. split; [unfold base; by injection Hlp as _ -> -> |].
  rewrite Hid. repeat (split; [done |]). by apply (ok_me n s (c_dst c) rf), I.
Qed.

Lemma append_tip_term : (tip rf').2 <= aea_Term args.
Proof.
  destruct append_call as (Hrc & _ & _ & Hbr & _). destruct append_result as (-> & _).
  destruct (receiver_path G rf args (li_node G s L _ rf Hd) Hrc Hag) as (_ & [Ha| ->] & _); [|by eapply (branch_low n)].
  apply anc_term in Ha; [|apply S]. pose proof (stored_current s I _ rf Hd). pose proof (lc_term n _ _ _ _ _ _ (local_at G P A s S _ rf Hd)). lia.
Qed.

(** The step with a new acknowledgement up to the index [k']. *)
Lemma append_done A' k' : A ⊆ A' -> (forall a, a ∈ A' -> a ∈ A \/ a = (c_dst c, aea_Term args, k')) ->
  k' <= (end_of args).1 ->
  ((c_dst c, aea_Term args, k') ∈ A' -> forall p, known G p -> p.2 = aea_Term args -> p.1 <= k' -> anc G p (tip rf')) ->
  (aer_Success reply = true -> (c_dst c, aea_Term args, (end_of args).1) ∈ A') -> safe n G P A' s'.
Proof.
  intros HA HnA Hk' Hack Hin. destruct append_call as (Hrc & Hel & Hne & Hbr & y & Hy1 & Hy2 & Hy3).
  destruct append_result as (Htip & Hbase & Hst' & Hcm & Hro & _ & Hte & Hid). pose proof append_tip_term.
  destruct (receiver_path G rf args (li_node G s L _ rf Hd) Hrc Hag) as (Hkeep & _). rewrite <- Htip in Hkeep.
  pose proof (stored_current s I _ rf Hd).
  eapply (safe_follow n (c_dst c) rf rf' G P A A' s _ (aea_Term args) (c_src c) k'); try done; try lia.
  - by exists (end_of args).
  - rewrite Hbase. apply (local_at G P A s S _ rf Hd).
  - rewrite Hst'. by eapply commits_acks.
  - intros Hl. by rewrite Hro in Hl.
  - intros p Hp Hkn Hle. destruct (acked_comparable n _ _ _ _ I S _ _ _ p Hel Hbr Hkn Hle) as [?|?]; [left | by right].
    by apply Hkeep.
  - intros d [?| ->]%(updated_call s k c _ _ Hk); [by left | right]. split; [done |]. split.
    + exists y. split; [done |]. split; [done |]. by eapply committed_mono; [| |reflexivity|].
    + intros r0 [= <-] Hs. cbn. split; [done |]. split; [done | by apply Hin].
Qed.

(** A receiver that accepts has everything of the request's term up to its end. *)
Lemma append_covers p : fst (receiver_rules rf args) = true ->
  known G p -> p.2 = aea_Term args -> p.1 <= (end_of args).1 -> anc G p (tip rf').
Proof.
  intros Hok Hkn Hpt Hle. destruct append_call as (Hrc & Hel & _ & Hbr & _). destruct append_result as (Htip & Hbase & _).
  pose proof (li_node G s L _ rf Hd) as Hnl. destruct p as [m t]. cbn [fst snd] in *. subst t.
  assert (anc G (m, aea_Term args) (end_of args)) as Hpe.
  { apply comparable_le; [|done]. by eapply (branch_term n _ _ _ _ I S). }
  eapply anc_trans; [exact Hpe |]. destruct (Z.le_gt_cases (snapshotIndex rf) (end_of args).1) as [Hle2|Hgt].
  { rewrite Htip. by apply (receiver_path G rf args Hnl Hrc Hag). }
  assert (comparable G (end_of args) (base rf)) as Hcomp.
  { pose proof (stored_current s I _ rf Hd).
    apply comparable_sym. eapply (committed_comparable n _ _ _ _ I S); [exact Hel | done | by eapply base_committed | lia]. }
  eapply anc_trans; [apply comparable_le; [exact Hcomp | cbn [base fst]; lia] |]. rewrite <- Hbase. eapply chain_path.
  destruct (AppendEntriesRequest_log G now rf args _ _ _ Hnl Hrc (fun _ => Hag) Hh) as [[Hc' _ _ _] _]. exact Hc'.
Qed.
End append.

Lemma append_safe G P A s k now c args r rf rf' reply :
  inv n s -> linv G s -> safe n G P A s -> calls s !! k = Some c -> c_rpc c = CallAE args r ->
  nodes s !! c_dst c = Some rf ->
  (currentTerm rf <= aea_Term args -> 0 <= snapshotIndex rf -> 0 <= aea_PrevLogIndex args) ->
  AppendEntriesRequestHandler now rf args zero_AppendEntriesReply = Done (rf', reply) ->
  exists A', A ⊆ A' /\ safe n G P A' ((set_node (c_dst c) rf' s)
    <| calls := <[k := mkCall (c_src c) (c_dst c) (CallAE args (Some reply))]> (calls s) |>).
Proof.
  intros I L S Hk Hr Hd Hpos Hh. destruct (Z.ltb_spec (aea_Term args) (currentTerm rf)) as [Hold|Hnew].
  { exists A. split; [done |]. by eapply append_old. }
  assert (agrees args rf) as Hag.
  { eapply request_agrees; try done; [apply list_elem_of_lookup; eauto | by apply Hpos]. }
  destruct (append_result G P A s k now c args r rf rf' reply I L S Hk Hr Hd Hh Hnew Hag) as (_ & _ & _ & _ & _ & Hsu & _).
  destruct (fst (receiver_rules rf args)) eqn:Hok.
  - exists ((c_dst c, aea_Term args, (end_of args).1) :: A). split; [by apply list_subseteq_cons |].
    eapply (append_done G P A s k now c args r rf rf' reply I L S Hk Hr Hd Hh Hnew Hag _ (end_of args).1); try done.
    + by apply list_subseteq_cons.
    + intros a [->|?]%elem_of_cons; [by right | by left].
    + intros _ p. by eapply append_covers.
    + intros _. by left.
  - exists A. split; [done |]. eapply (append_done G P A s k now c args r rf rf' reply I L S Hk Hr Hd Hh Hnew Hag _ (-1)); try done.
    + by left.
    + destruct (append_call G P A s k c args r L S Hk Hr) as (_ & _ & _ & Hbr & _).
      pose proof (valid_low G _ (sf_tree n _ _ _ _ S) (branch_valid n _ _ _ _ S _ _ _ Hbr)). lia.
    + intros _ p Hkn _ Hle. pose proof (known_low _ _ _ _ _ S Hkn). lia.
    + intros Hs. by rewrite Hsu in Hs.
Qed.

Lemma install_safe G P A s k now c args r rf rf' reply :
  inv n s -> linv G s -> safe n G P A s -> calls s !! k = Some c -> c_rpc c = CallIS args r ->
  nodes s !! c_dst c = Some rf ->
  InstallSnapshotRequestHandler now rf args zero_InstallSnapshotReply = Done (rf', reply) ->
  exists A', A ⊆ A' /\ safe n G P A' ((set_node (c_dst c) rf' s)
    <| calls := <[k := mkCall (c_src c) (c_dst c) (CallIS args (Some reply))]> (calls s) |>).
Proof.
  intros I L S Hk Hr Hd Hh. assert (c ∈ calls s) as Hc by (apply list_elem_of_lookup; eauto).
  pose proof (sf_call n _ _ _ _ S c Hc) as Hsc. pose proof (li_call G s L c Hc) as Hcl.
  unfold safe_call in Hsc. unfold call_log in Hcl. rewrite Hr in Hsc, Hcl.
  destruct Hcl as (Hel & Hne). destruct Hsc as ((y & Hy & HLy) & HLc & _).
  pose proof (local_at G P A s S _ rf Hd) as Lc. pose proof (stored_current s I _ rf Hd) as Hst.
  pose proof (li_node G s L _ rf Hd) as Hnl. pose proof (sf_tree n _ _ _ _ S) as Tr.
  pose proof (local_commits n _ _ _ _ _ _ Lc) as Hcm0.
  destruct (InstallSnapshotRequest_cases n G A (stored rf).1 now rf args zero_InstallSnapshotReply rf' reply)
    as (Hid & Hcase); try done.
  assert (isr_ServerId reply = Z.of_nat (c_dst c)) as Hid'.
  { rewrite Hid. by apply (ok_me n s (c_dst c) rf), I. }
  pose proof (branch_valid n _ _ _ _ S _ _ _ Hy) as Hvy.
  pose proof (anc_valid _ _ _ Tr Hvy HLy) as HvL.
  assert (forall p, known G p -> p.2 = isa_Term args -> p.1 <= isa_LastIncludedIndex args -> anc G p (included args))
    as Hack.
  { intros p Hkn Hpt Hle. destruct p as [m t]. cbn [fst snd] in *. subst t.
    apply comparable_le; [|done]. apply comparable_sym. eapply comparable_below; [exact HLy |].
    apply comparable_sym. by eapply (branch_term n _ _ _ _ I S). }
  set (A' := (c_dst c, isa_Term args, isa_LastIncludedIndex args) :: A).
  assert (A ⊆ A') as HA by by apply list_subseteq_cons.
  assert ((stored rf').1 = isa_Term args -> (stored rf).1 <= isa_Term args -> valid G (base rf') ->
    (tip rf').2 <= isa_Term args -> commits n G A (isa_Term args) rf' -> match_ok n A rf' ->
    (forall p, anc G p (tip rf) -> known G p -> comparable G p y -> anc G p (tip rf')) ->
    anc G (included args) (tip rf') ->
    safe n G P A' ((set_node (c_dst c) rf' s)
      <| calls := <[k := mkCall (c_src c) (c_dst c) (CallIS args (Some reply))]> (calls s) |>)) as Hdone.
  { intros E1 E2 E3 E4 E5 E6 E7 E8.
    eapply (safe_follow n (c_dst c) rf rf' G P A A' s _ (isa_Term args) (c_src c) (isa_LastIncludedIndex args));
      try done.
    - intros a [->|?]%elem_of_cons; [by right | by left].
    - exists y. split; [done |]. by apply anc_index in HLy.
    - rewrite E1. by eapply commits_acks.
    - by eapply match_ok_acks.
    - intros p Hp Hkn Hle. destruct (acked_comparable n _ _ _ _ I S _ _ _ p Hel Hy Hkn Hle) as [?|?]; [left | by right].
      by apply E7.
    - intros _ p Hkn Hpt Hle. eapply anc_trans; [by apply Hack | done].
    - intros d [?| ->]%(updated_call s k c _ _ Hk); [by left | right].
      split; [by exists y |]. split; [by eapply committed_mono; [| |reflexivity|] |].
      intros r0 [= <-] _. split; [done |]. by left. }
  destruct Hcase as [(Hstill & Hs' & Hit & Hcov)|(Hit & Hacc)].
  - destruct (decide (currentTerm rf = isa_Term args)) as [Heq|Hneq].
    2: { exists A. split; [done |]. eapply (safe_still n (c_dst c) rf rf' G P A s); try done.
         intros d [?| ->]%(updated_call s k c _ _ Hk); [by left | right].
         split; [by exists y |]. split; [done |]. intros r0 [= <-] Hr0. congruence. }
    exists A'. split; [done |]. destruct (tip_part _ _ (st_log _ _ Hstill)) as [Htip Hbase].
    apply Hdone; rewrite ?Htip, ?Hbase.
    + congruence.
    + lia.
    + apply Lc.
    + pose proof (lc_term n _ _ _ _ _ _ Lc). lia.
    + eapply commits_keeps; [exact Hcm0 | apply Hstill | lia | apply Hstill..].
    + eapply match_ok_keeps; [exact (lc_match n _ _ _ _ _ _ Lc) | apply Hstill].
    + done.
    + eapply anc_trans; [|by apply base_tip]. apply comparable_le; [|cbn; apply Hcov; lia].
      eapply (two_committed n _ _ _ _ I S); [exact HLc | by eapply base_committed].
  - exists A'. split; [done |]. destruct Hacc as [Hle Hs' Hbase Htip Hcm Hro]. apply Hdone; rewrite ?Hbase; try done; try lia.
    + destruct Htip as [[-> _]|[-> _]].
      * pose proof (lc_term n _ _ _ _ _ _ Lc). lia.
      * apply anc_term in HLy; [|done]. pose proof (branch_low n _ _ _ _ S _ _ _ Hy).
        cbn [included snd] in *. lia.
    + eapply match_ok_keeps; [exact (lc_match n _ _ _ _ _ _ Lc) | done].
    + intros p Hp Hkn Hpy. destruct Htip as [[-> _]|[-> Hlt]]; [done |].
      apply comparable_le.
      * apply comparable_sym. eapply comparable_below; [exact HLy | by apply comparable_sym].
      * apply anc_index in Hp. cbn [included fst]. lia.
    + destruct Htip as [[-> ?]|[-> _]]; [done | apply anc_refl].
Qed.

Lemma deliver_safe G P A s k now s' :
  inv n s -> linv G s -> safe n G P A s -> cstep (ADeliver k now) s = Some s' ->
  sound s (ADeliver k now) s' -> exists A', A ⊆ A' /\ safe n G P A' s'.
Proof.
  intros I L S Hs (_ & _ & Hpos & _). cbn in Hs.
  destruct (calls s !! k) as [c|] eqn:Hk; [|done]. cbn in Hs.
  destruct (executed (c_rpc c)); [done |].
  destruct (nodes s !! c_dst c) as [rf|] eqn:Hd; [|done]. cbn in Hs.
  destruct (serve now rf (c_rpc c)) as [[rf' r]| |] eqn:Hserve; [|done..]. injection Hs as <-.
  destruct (c_rpc c) as [args o|args o|args o] eqn:Hr; cbn [serve] in Hserve.
  - destruct (RequestVoteRequestHandler _ _ _ _) as [rf1 reply] eqn:Hh. injection Hserve as <- <-.
    exists A. split; [done |]. by eapply vote_safe.
  - apply go_bind_Done in Hserve as ([rf1 reply] & Hh & Hserve). injection Hserve as <- <-.
    eapply append_safe; try done. intros Hle Hlow. by eapply Hpos.
  - apply go_bind_Done in Hserve as ([rf1 reply] & Hh & Hserve). injection Hserve as <- <-.
    by eapply install_safe.
Qed.

(** ** A call returns *)

Lemma return_safe G P A s k ok s' :
  inv n s -> linv G s -> safe n G P A s -> cstep (AReturn k ok) s = Some s' -> safe n G P A s'.
Proof.
  intros I L S Hs. cbn in Hs.
  destruct (calls s !! k) as [c|] eqn:Hk; [|done]. cbn in Hs.
  destruct (ok && negb (executed (c_rpc c))); [done |].
  destruct (nodes s !! c_src c) as [rf|] eqn:Hd; [|done]. cbn in Hs.
  destruct (respond ok rf (c_rpc c)) as [[rf' ths]| |] eqn:Hres; [|done..]. injection Hs as <-.
  assert (c ∈ calls s) as Hc by (apply list_elem_of_lookup; eauto).
  pose proof (sf_call n _ _ _ _ S c Hc) as Hsc. unfold safe_call in Hsc.
  pose proof (li_call G s L c Hc) as Hcl. unfold call_log in Hcl.
  pose proof (local_at G P A s S _ rf Hd) as Lc. pose proof (stored_current s I _ rf Hd) as Hst.
  pose proof (local_commits n _ _ _ _ _ _ Lc) as Hcm0.
  pose proof (lc_match n _ _ _ _ _ _ Lc : match_ok n A rf) as Hma0.
  set (s' := (set_node _ _ _) <| threads := _ |> <| calls := _ |>).
  assert (forall d, d ∈ calls s' -> d ∈ calls s \/ safe_call n G P A d) as Hcalls.
  { intros d Hin%list_elem_of_delete_inv. by left. }
  assert (keeps_log rf rf' -> core rf' = core rf -> (stored rf).1 <= (stored rf').1 -> match_ok n A rf' ->
    safe n G P A s') as Hdone.
  { intros [Hp _] [Hci Hms]%core_msgs Hs Hm. destruct (tip_part _ _ Hp) as [Htip Hbase].
    eapply (safe_keeps n (c_src c) rf rf' G P A s); try done; [rewrite Hbase; apply Lc |].
    eapply commits_keeps; [exact Hcm0 | done | done | done |]. by rewrite Hms. }
  destruct (c_rpc c) as [args o|args o|args o] eqn:Hr; cbn [respond] in Hres.
  - injection Hres as <- <-. 
    eapply (safe_still n (c_src c) rf _ G P A s);
      [done | done | done | done | apply RequestVoteResponse_still | reflexivity | done..].
  - apply go_bind_Done in Hres as (rf1 & Hh & Hres). injection Hres as <- <-.
    pose proof (AppendEntriesResponse_keeps _ _ _ _ Hh) as Hkeep.
    apply (AppendEntriesResponse_match n A _ _ _ _ (c_dst c)) in Hh as (? & ? & ?); [by apply Hdone | done | done |].
    destruct Hsc as (_ & _ & Hack). destruct ok; [|done]. destruct o as [r|]; [|done]. by apply Hack.
  - apply go_bind_Done in Hres as (rf1 & Hh & Hres). injection Hres as <- <-.
    pose proof (InstallSnapshotResponse_keeps _ _ _ _ Hh) as Hkeep.
    apply (InstallSnapshotResponse_match n A _ _ _ _ (c_dst c)) in Hh as (? & ? & ?); [by apply Hdone | done | done |].
    destruct Hcl as (Hel & _). destruct Hsc as (_ & _ & Hack).
    destruct (elected_stand n _ _ _ _ I S _ _ Hel) as [b Hb]. pose proof (stand_pos n _ _ _ _ S _ _ _ Hb).
    destruct ok; [destruct o as [r|]|]; cbn; [by apply Hack | lia | lia].
Qed.

(** ** The service calls *)

Lemma Start_fields G rf command rf' r :
  node_log G rf -> role rf = Leader -> Start rf command = Done (rf', r) ->
  core rf' = core rf /\ role rf' = role rf /\ currentTerm rf' = currentTerm rf /\ base rf' = base rf
  /\ matchIndex rf' = <[Z.to_nat (me rf) := lastIndex rf + 1]> (matchIndex rf)
  /\ tip rf' = (lastIndex rf + 1, currentTerm rf).
Proof.
  intros Hnl Hlead Hst. pose proof (getLast_chain G rf Hnl) as Hlast.
  unfold Start in Hst. rewrite Hlead in Hst. change (Leader =? Leader) with true in Hst. cbn iota in Hst.
  assert (match last (log rf) with Some e => le_Index e + 1 | None => snapshotIndex rf + 1 end
          = lastIndex rf + 1) as Hix.
  { unfold getLastLogIndexAndTerm in Hlast. by destruct (last (log rf)); injection Hlast as <-. }
  rewrite Hix in Hst. apply go_bind_Done in Hst as (mi & [_ ->]%go_update_inv & Hst).
  apply go_bind_Done in Hst as (ni & _ & Hst). injection Hst as <- _.
  repeat (split; [done |]). unfold tip. cbn. rewrite chain_end_app. unfold chain_end, end_term, lastIndex. cbn.
  f_equal; lia.
Qed.

Lemma start_safe G P A s i command s' :
  inv n s -> linv G s -> safe n G P A s -> cstep (AStart i command) s = Some s' ->
  exists A', A ⊆ A' /\ safe n (next_record (AStart i command) s G) P A' s'.
Proof.
  intros I L S Hs. cbn in Hs. cbn [next_record]. destruct (nodes s !! i) as [rf|] eqn:Hi; [|done]. cbn in Hs.
  destruct (Start rf command) as [[rf' [[? ?] l]]| |] eqn:Hst; cbn in Hs; [|done..]. injection Hs as <-.
  destruct (decide (role rf = Leader)) as [Hr|Hr].
  2: { exists A. split; [done |]. apply Start_follower in Hst as ->; [|done].
       eapply (safe_still n i rf rf G P A s); [done..| apply still_refl | done | done | done | by left]. }
  destruct (next_unrecorded n G s i rf I L Hi Hr) as [Hel Hnone].
  pose proof (li_node G s L i rf Hi) as Hnl. pose proof (local_at G P A s S i rf Hi) as Lc.
  pose proof (stored_current s I i rf Hi) as Hsc.
  pose proof (ok_elected n s i rf (inv_node n s I i rf Hi) _ Hel) as Hse.
  destruct (Start_log G rf command rf' _ Hnl Hr Hnone Hst) as (Hsub & Hnl' & Hlast & Hst').
  destruct (Start_fields G rf command rf' _ Hnl Hr Hst) as (Hco & Hro & Hct & Hbase & Hmi & Htip).
  set (G' := appended G rf command) in *. set (A' := (i, currentTerm rf, lastIndex rf + 1) :: A).
  set (s' := (set_node i rf' s) <| threads := _ |>). exists A'.
  split; [by apply list_subseteq_cons |].
  assert ((stored rf').1 = currentTerm rf) as Hst1 by (by rewrite Hst').
  assert (A ⊆ A') as HA by by apply list_subseteq_cons.
  assert (forall k t cmd pt, G' !! (k, t) = Some (cmd, pt) -> G !! (k, t) = Some (cmd, pt)
    \/ k = lastIndex rf + 1 /\ t = currentTerm rf /\ pt = (tip rf).2) as Hnew.
  { intros k t cmd pt. unfold G', appended.
    destruct (decide ((lastIndex rf + 1, currentTerm rf) = (k, t))) as [[= <- <-]|].
    - rewrite lookup_insert_eq. intros [= _ <-]. by right.
    - rewrite lookup_insert_ne by done. by left. }
  assert (extends i rf rf' G P A s G' P A' s') as X.
  { split; try done; try by left.
    - split; [lia | intros; lia].
    - intros k t cmd pt [?|(-> & -> & ->)]%Hnew; [by left | right]. split; [done |]. split; [lia | done].
    - intros j t k [[= -> -> ->]|?]%elem_of_cons; [right | by left]. split; [done |]. split; [done |].
      exists i. split; [done |]. intros rq. cbn. rewrite list_lookup_insert_eq by (by eapply lookup_lt_Some).
      intros [= <-] _. lia.
    - apply (sf_granted n _ _ _ _ S). }
  assert (G' !! tip rf' = Some (command, (tip rf).2)) as Hg'.
  { rewrite Htip. unfold G', appended. apply lookup_insert_eq. }
  assert (anc G' (tip rf) (tip rf')) as Hext.
  { rewrite Htip in *. eapply anc_up; [exact Hg' |].
    replace (lastIndex rf + 1 - 1, (tip rf).2) with (tip rf); [apply anc_refl |].
    unfold tip, chain_end, lastIndex. cbn. f_equal. lia. }
  assert (forall x, anc G x (tip rf) -> anc G' x (tip rf')) as Hup.
  { intros x Hx. eapply anc_trans; [by eapply anc_mono | done]. }
  assert (forall p, covers A' i p -> known G' p -> (covers A i p /\ known G p) \/ p.2 = currentTerm rf /\ anc G' p (tip rf'))
    as Hcov.
  { intros p (k & Hin & Hle)%covers_spec Hp. apply elem_of_cons in Hin as [[= Ht ->]|Hin].
    - right. split; [done |]. destruct p as [m t]. cbn [fst snd] in *. subst t.
      pose proof Hp as [[cmd pt] Hg]. apply Hnew in Hg as [Hg|(-> & _)]; [|rewrite Htip; apply anc_refl].
      apply Hup. destruct (li_record G s L _ _ _ Hg) as (q & Hq & Hb).
      assert (q = i) as -> by by eapply (elected_unique n). specialize (Hb rf Hi ltac:(lia)).
      apply comparable_le; [|exact Hb]. eapply (branch_term n _ _ _ _ I S); [exact Hel | | by eexists].
      apply (lc_leader n _ _ _ _ _ _ Lc); [done | lia].
    - left. assert (covers A i p) as Hc by (apply covers_spec; eauto). split; [done |].
      by eapply (old_known n i rf rf' G P A s G' P A' s' I S Hi X). }
  apply core_msgs in Hco as [Hci Hms]. destruct (local_commits n _ _ _ _ _ _ Lc) as [Hlow (x & Hx & Hxa & Hxc) Hmsg].
  eapply safe_step; try done; [|by left]. split.
  - rewrite Hbase. eapply valid_mono; [done | apply Lc].
  - rewrite Htip, Hst1. cbn. lia.
  - injection Hbase as -> _. lia.
  - exists x. rewrite Hci, Hst1. split; [done |]. split; [by apply Hup |]. by eapply committed_mono.
  - intros m. rewrite Hms, Hst1. intros Hm%Hmsg. by eapply msg_ok_mono.
  - intros t Hel' Ht. destruct (elected_stand n _ _ _ _ I S _ _ Hel') as [b Hb].
    exists b. split; [done |]. right. split; [rewrite Htip; cbn; lia | by eexists].
  - intros t b Hb. destruct (lc_cand n _ _ _ _ _ _ Lc t b Hb) as [? _]. split; [lia |].
    intros Ht. right. exists i. by rewrite <- Ht, Hst1.
  - intros t k [[= -> _]|Hin]%elem_of_cons; [lia |]. pose proof (lc_ack n _ _ _ _ _ _ Lc t k Hin). lia.
  - intros p Hc Hk. destruct (Hcov p Hc Hk) as [[Hc0 Hk0]|[_ ?]]; [|by left].
    destruct (lc_acked n _ _ _ _ _ _ Lc p Hc0 Hk0) as [?|?]; [left; by apply Hup | right].
    by eapply (dead_step n i rf rf' G P A s G' P A' s').
  - intros t cd b p Hgr Hb Hc Hk Hlt. destruct (Hcov p Hc Hk) as [[Hc0 Hk0]|[Hpt _]].
    + destruct (lc_vote n _ _ _ _ _ _ Lc t cd b p Hgr Hb Hc0 Hk0 Hlt) as [?|?]; [left; by eapply anc_mono | right].
      by eapply (dead_step n i rf rf' G P A s G' P A' s').
    + apply (ok_disk n s i rf (inv_node n s I i rf Hi)) in Hgr as [Hgl _]. lia.
  - intros _. destruct (lc_match n _ _ _ _ _ _ Lc Hr) as [Hlen Hall]. rewrite Hmi, Hct.
    split; [by rewrite length_insert |].
    rewrite (ok_me n s i rf (inv_node n s I i rf Hi)), Nat2Z.id. apply (match_insert A'); [|by left].
    intros j v Hj. destruct (Hall j v Hj) as [?|?]; [by left | right; by apply HA].
Qed.

Lemma snapshot_safe G P A s i index snap s' :
  inv n s -> linv G s -> safe n G P A s -> cstep (ASnapshot i index snap) s = Some s' ->
  sound s (ASnapshot i index snap) s' -> safe n G P A s'.
Proof.
  intros I L S Hs (_ & _ & _ & Hidx). cbn in Hs. destruct (nodes s !! i) as [rf|] eqn:Hi; [|done]. cbn in Hs.
  destruct (Snapshot rf index snap) as [rf'| |] eqn:Hsn; cbn in Hs; [|done..]. injection Hs as <-.
  pose proof (local_at G P A s S i rf Hi) as Lc. pose proof (stored_current s I i rf Hi) as Hsc.
  destruct (Snapshot_commits n G A (stored rf).1 rf index snap rf') as (Htip & Hb & Hcm & Hst & Hro & Hct & Hmi);
    try done.
  { apply S. }
  { by apply (li_node G s L i). }
  { apply Lc. }
  { by eapply local_commits. }
  { by eapply (local_commit_ok G P A s). }
  { by eapply Hidx. }
  eapply (safe_keeps n i rf rf' G P A s); try done; [lia | | | by left].
  - destruct Hcm as [? (x & ? & ? & Hxc) Hms]. split; [done | |].
    + exists x. split; [done |]. split; [done |]. eapply committed_mono; [done | done | | exact Hxc]. lia.
    + intros m Hm. eapply msg_ok_mono; [done | done | | by apply Hms]. lia.
  - eapply match_ok_keeps; [exact (lc_match n _ _ _ _ _ _ Lc) |]. rewrite Hro, Hct, Hmi. done.
Qed.

Lemma crash_safe G P A s i now rnd s' :
  inv n s -> linv G s -> safe n G P A s -> cstep (ACrash i now rnd) s = Some s' -> safe n G P A s'.
Proof.
  intros I L S Hs. cbn in Hs. destruct (nodes s !! i) as [rf|] eqn:Hi; [|done]. cbn in Hs.
  destruct (Make _ _ _ _ _) as [rf'| |] eqn:Hm; cbn in Hs; [|done..]. injection Hs as <-.
  pose proof (local_at G P A s S i rf Hi) as Lc. pose proof (li_node G s L i rf Hi) as Hnl.
  pose proof (Make_ballot _ _ _ _ _ _ Hm) as (_ & _ & Hr & Hst & _).
  pose proof (Make_commits n G A (stored rf).1 _ _ rf _ _ rf' (sf_tree n _ _ _ _ S) Hnl (lc_base n _ _ _ _ _ _ Lc)
    (local_commits n _ _ _ _ _ _ Lc) Hm) as Hcm.
  apply (Make_log G) in Hm as [Hp _]; [|done]. destruct (tip_part _ _ Hp) as [Htip Hbase].
  eapply (safe_keeps n i rf rf' G P A s); try done.
  - rewrite Hbase. apply Lc.
  - by rewrite Hst.
  - by rewrite Hst.
  - intros Hl. by rewrite Hr in Hl.
  - intros c [_ Hc]%list_elem_of_filter. by left.
Qed.

(** ** Goroutines *)

Lemma sends_safe G P A s i rf reqs c :
  inv n s -> linv G s -> safe n G P A s -> nodes s !! i = Some rf -> role rf = Leader ->
  leaderSendAppendEntriesRPC rf = Done reqs ->
  c ∈ ((fun '(j, r) => mkCall i (Z.to_nat j) r) <$> sends reqs) -> safe_call n G P A c.
Proof.
  intros I L S Hi Hr Hl. pose proof (inv_node n s I i rf Hi) as Hok. pose proof (local_at G P A s S i rf Hi) as Lc.
  pose proof (li_node G s L i rf Hi) as Hnl. pose proof (ok_leader n s i rf Hok Hr) as Hel.
  pose proof (ok_elected n s i rf Hok _ Hel). pose proof (stored_current s I i rf Hi).
  assert ((stored rf).1 = currentTerm rf) as Hst by lia.
  pose proof (lc_leader n _ _ _ _ _ _ Lc _ Hel Hst) as Hbr.
  unfold sends. rewrite <- list_fmap_compose. intros ([j o] & -> & Hin)%list_elem_of_fmap.
  destruct (buildRequests_sent G rf _ _ Hnl Hl j o Hin) as [args (Ht & He & Hc)|args (Ht & Hi1 & Hi2)]; cbn.
  - split; [by rewrite Ht, He |]. split; [|done].
    destruct (lc_committed n _ _ _ _ _ _ Lc) as (x & ? & ? & ?). exists x. rewrite Hc, He, Ht, <- Hst. done.
  - split; [exists (tip rf); rewrite Ht, Hi1, Hi2; split; [done | by apply base_tip] |].
    split; [|done]. rewrite Ht, Hi1, Hi2, <- Hst. by eapply base_committed.
Qed.

Lemma commits_later G A T T' rf : T <= T' -> commits n G A T rf -> commits n G A T' rf.
Proof. intros HT Hc. by eapply commits_keeps. Qed.

(** A candidate stands where its log ends, and votes for itself. *)
Lemma candidate_safe G P A s s' i now rnd rf rf' reqs :
  inv n s -> linv G s -> safe n G P A s -> nodes s !! i = Some rf -> toCandidate now rnd rf = (rf', reqs) ->
  nodes s' = <[i := rf']> (nodes s) -> elected s' = elected s ->
  granted s' = (i, currentTerm rf', votedFor rf') :: granted s ->
  calls s' = calls s ++ ((fun '(j, r) => mkCall i (Z.to_nat j) r) <$> asks reqs) ->
  exists P', safe n G P' A s'.
Proof.
  intros I L S Hi Hcd Hn He Hg Hcl. pose proof (local_at G P A s S i rf Hi) as Lc.
  pose proof (stored_current s I i rf Hi) as Hsc. pose proof (inv_node n s I i rf Hi) as Hok.
  pose proof (ok_me n s i rf Hok) as Hme. pose proof (li_node G s L i rf Hi) as Hnl.
  destruct (toCandidate_spec now rnd rf rf' reqs Hcd) as (_ & _ & Hct & Hvf & _ & _ & _ & Hro & Hst & _).
  destruct (toCandidate_asks G now rnd rf rf' reqs Hnl Hcd) as (Hp & Hco & Hreqs).
  destruct (tip_part _ _ Hp) as [Htip Hbase]. set (t := currentTerm rf + 1) in *.
  assert (P !! (t, i) = None) as Hnone.
  { destruct (P !! (t, i)) as [b|] eqn:E; [|done]. destruct (lc_cand n _ _ _ _ _ _ Lc t b E). lia. }
  exists (<[(t, i) := tip rf]> P). set (P' := <[(t, i) := tip rf]> P).
  assert (forall t' q b, P' !! (t', q) = Some b -> P !! (t', q) = Some b \/ t' = t /\ q = i /\ b = tip rf) as HP'.
  { intros t' q b. unfold P'. destruct (decide ((t, i) = (t', q))) as [[= <- <-]|].
    - rewrite lookup_insert_eq. intros [= <-]. by right.
    - rewrite lookup_insert_ne by done. by left. }
  assert (P' !! (t, i) = Some (tip rf)) as Hnew by apply lookup_insert_eq.
  assert (P ⊆ P') as HPP by by apply insert_subseteq.
  assert ((tip rf).2 < t) as Hlt by (pose proof (lc_term n _ _ _ _ _ _ Lc); lia).
  assert ((stored rf').1 = t) as Hst1 by by rewrite Hst.
  assert (forall j t' v, (j, t', v) ∈ granted s' -> (j, t', v) ∈ granted s \/ j = i /\ t' = t /\ v = Z.of_nat i) as Hgr.
  { intros j t' v. rewrite Hg. intros [[= -> -> ->]|?]%elem_of_cons; [right | by left].
    split; [done |]. split; [done | congruence]. }
  assert (extends i rf rf' G P A s G P' A s') as X.
  { split; rewrite ?He; try done; try by left.
    - apply advances_keeps; [done | lia].
    - intros t' q b [?|(-> & -> & ->)]%HP'; [by left | right]. split; [done |]. split; [by eapply tip_valid | done].
    - intros j t' v [?|(-> & _)]%Hgr; [by left | by right].
    - intros j t' q [Hin|(_ & -> & Hq)]%Hgr.
      + destruct (sf_granted n _ _ _ _ S _ _ _ Hin) as [b Hb]. exists b. by eapply lookup_weaken.
      + apply Nat2Z.inj in Hq as ->. by eexists. }
  apply core_msgs in Hco as [Hci Hms].
  destruct (local_commits n _ _ _ _ _ _ Lc) as [Hlow (x & Hx & Hxa & Hxc) Hmsg].
  eapply safe_step; try done.
  - split; rewrite ?Htip, ?Hbase, ?He; try done.
    + apply Lc.
    + lia.
    + rewrite Hci. by injection Hp as _ -> _.
    + exists x. rewrite Hci, Hst1. split; [done |]. split; [done |].
      eapply committed_mono; [done | done | | exact Hxc]. lia.
    + intros m. rewrite Hms, Hst1. intros Hm%Hmsg. eapply msg_ok_mono; [done | done | | done]. lia.
    + intros t' Hel Ht. pose proof (ok_elected n s i rf Hok t' Hel). lia.
    + intros t' b [Hb|(-> & _ & ->)]%HP'; [|split; [lia | by left]].
      destruct (lc_cand n _ _ _ _ _ _ Lc t' b Hb) as [? _]. split; [lia | intros; lia].
    + intros t' k Hin. pose proof (lc_ack n _ _ _ _ _ _ Lc t' k Hin). lia.
    + intros p Hc Hk. destruct (lc_acked n _ _ _ _ _ _ Lc p Hc Hk) as [?|?]; [by left | right].
      by eapply (dead_step n i rf rf').
    + intros t' cd b p Hin Hb Hc Hk Hlt'. assert (anc G p b \/ dead n A s p) as [?|?]; [|by left | right; by eapply (dead_step n i rf rf')].
      apply Hgr in Hin as [Hin|(_ & -> & Hq)].
      * eapply (old_stand n i rf rf' G P A s G P' A s') in Hb; [|done..].
        exact (lc_vote n _ _ _ _ _ _ Lc t' cd b p Hin Hb Hc Hk Hlt').
      * apply Nat2Z.inj in Hq as ->. rewrite Hnew in Hb. injection Hb as <-. by apply (lc_acked n _ _ _ _ _ _ Lc).
    + intros Hl. by rewrite Hro in Hl.
  - intros c. rewrite Hcl. intros [?|Hin]%elem_of_app; [by left | right].
    subst reqs. fold (requests (C := C) i (mkRequestVoteArgs t (me rf) (tip rf).1 (tip rf).2) (others rf')) in Hin.
    apply requests_elem in Hin as [Hsrc Hr]. unfold safe_call. rewrite Hr, Hsrc.
    cbn [rva_Term rva_LastLogIndex rva_LastLogTerm]. rewrite Hnew. by destruct (tip rf).
Qed.

(** A new leader acknowledges its own log. *)
Lemma leader_safe G P A s s' i t rf rf' :
  inv n s -> linv G s -> safe n G P A s -> nodes s !! i = Some rf -> quorum n s t i -> currentTerm rf = t ->
  toLeader rf = Done rf' ->
  nodes s' = <[i := rf']> (nodes s) -> elected s' = (currentTerm rf', i) :: elected s ->
  granted s' = granted s -> calls s' = calls s -> exists A', A ⊆ A' /\ safe n G P A' s'.
Proof.
  intros I L S Hi Hq Ht Hl Hn He Hg Hcl. pose proof (local_at G P A s S i rf Hi) as Lc.
  pose proof (stored_current s I i rf Hi) as Hsc. pose proof (inv_node n s I i rf Hi) as Hok.
  pose proof (li_node G s L i rf Hi) as Hnl.
  assert (forall q, (t, q) ∈ elected s -> q = i) as Huniq.
  { intros q Hel. eapply (quorum_unique n); [apply I | by apply (inv_elected n s I) | done]. }
  pose proof Hl as Hl'. unfold toLeader in Hl'. apply go_bind_Done in Hl' as (mi & [_ ->]%go_update_inv & Hl').
  change (fst (getLastLogIndexAndTerm (rf <| role := Leader |>))) with (fst (getLastLogIndexAndTerm rf)) in Hl'.
  rewrite (tip_last G rf Hnl) in Hl'. change ((tip rf).1) with (lastIndex rf) in Hl'.
  assert (log_part rf' = log_part rf /\ core rf' = core rf /\ (stored rf').1 = t /\ currentTerm rf' = t
    /\ matchIndex rf' = <[Z.to_nat (me rf) := lastIndex rf]> (replicate (peers rf) (-1)))
    as (Hp & Hco & Hst & Hct & Hmi).
  { injection Hl' as <-. rewrite stored_persist. done. }
  clear Hl Hl'. destruct (tip_part _ _ Hp) as [Htip Hbase]. rewrite Hct in He.
  set (A' := (i, t, lastIndex rf) :: A). exists A'. split; [by apply list_subseteq_cons |].
  assert (A ⊆ A') as HA by by apply list_subseteq_cons.
  assert (branch G P t i (tip rf)) as Hbr.
  { destruct (decide ((t, i) ∈ elected s)) as [Hel|Hnot].
    - pose proof (ok_elected n s i rf Hok t Hel). apply (lc_leader n _ _ _ _ _ _ Lc); [done | lia].
    - destruct (quorum_stand n _ _ _ _ S t i Hq) as [b Hb].
      destruct (lc_cand n _ _ _ _ _ _ Lc t b Hb) as [Hle Hcase].
      destruct (Hcase ltac:(lia)) as [Heq|[q Hel]]; [exists b; split; [done | by left] |].
      destruct Hnot. by rewrite <- (Huniq q Hel). }
  assert (extends i rf rf' G P A s G P A' s') as X.
  { split; rewrite ?Hg; try done; try by left.
    - rewrite He. by apply list_subseteq_cons.
    - apply advances_keeps; [done | lia].
    - intros j t' k [[= -> -> ->]|?]%elem_of_cons; [right | by left]. split; [done |]. split; [done |].
      exists i. split; [rewrite He; by left |]. intros rq. rewrite Hn, list_lookup_insert_eq by (by eapply lookup_lt_Some).
      intros [= <-] _. injection Htip as E _. unfold lastIndex. lia.
    - rewrite He. intros t' q [[= _ ->]|?]%elem_of_cons; [by right | by left].
    - apply (sf_granted n _ _ _ _ S). }
  assert (forall p, covers A' i p -> known G p -> covers A i p \/ p.2 = t /\ anc G p (tip rf)) as Hcov.
  { intros p (k & Hin & Hle)%covers_spec Hp'. apply elem_of_cons in Hin as [[= Hpt ->]|Hin].
    - right. split; [done |]. destruct (known_origin n _ _ _ _ S p Hp') as (q & b & ? & ? & _ & Hel & _).
      rewrite Hpt in Hel. rewrite (Huniq q Hel) in Hel. destruct p as [m t']. cbn [fst snd] in *. subst t'.
      apply comparable_le; [|done]. by eapply (branch_term n _ _ _ _ I S).
    - left. apply covers_spec. eauto. }
  apply core_msgs in Hco as [Hci Hms].
  assert (commits n G A' (stored rf').1 rf') as Hcm.
  { eapply commits_acks; [done |]. eapply commits_keeps; [by eapply local_commits | done | lia | done |]. by rewrite Hms. }
  destruct Hcm as [Hlow (x & Hx & Hxa & Hxc) Hmsg]. rewrite Htip in Hxa.
  eapply safe_step; try done; [|rewrite Hcl; by left]. split; rewrite ?Htip, ?Hbase; try done.
  - apply Lc.
  - pose proof (lc_term n _ _ _ _ _ _ Lc). lia.
  - by exists x.
  - intros t' _ Heq. rewrite <- Heq, Hst. done.
  - intros t' b Hb. destruct (lc_cand n _ _ _ _ _ _ Lc t' b Hb) as [? _]. split; [lia |].
    intros Heq. right. exists i. rewrite He, <- Heq, Hst. by left.
  - intros t' k [[= -> _]|Hin]%elem_of_cons; [lia |]. pose proof (lc_ack n _ _ _ _ _ _ Lc t' k Hin). lia.
  - intros p Hc Hk. destruct (Hcov p Hc Hk) as [Hc0|[_ ?]]; [|by left].
    destruct (lc_acked n _ _ _ _ _ _ Lc p Hc0 Hk) as [?|?]; [by left | right].
    by eapply (dead_step n i rf rf' G P A s G P A' s').
  - rewrite Hg. intros t' cd b p Hgr Hb Hc Hk Hlt. destruct (Hcov p Hc Hk) as [Hc0|[Hpt _]].
    + destruct (lc_vote n _ _ _ _ _ _ Lc t' cd b p Hgr Hb Hc0 Hk Hlt) as [?|?]; [by left | right].
      by eapply (dead_step n i rf rf' G P A s G P A' s').
    + apply (ok_disk n s i rf Hok) in Hgr as [Hgl _]. lia.
  - intros _. rewrite Hmi, Hct, (ok_peers n s i rf Hok), (ok_me n s i rf Hok), Nat2Z.id.
    split; [by rewrite length_insert, length_replicate |].
    apply (match_insert A'); [|by left]. intros j v [-> _]%lookup_replicate. by left.
Qed.

Lemma update_safe G P A s s' i rf rf' :
  inv n s -> linv G s -> safe n G P A s -> nodes s !! i = Some rf -> role rf = Leader ->
  leaderUpdateCommitIndex rf = Done rf' ->
  nodes s' = <[i := rf']> (nodes s) -> elected s' = elected s -> granted s' = granted s -> calls s' = calls s ->
  safe n G P A s'.
Proof.
  intros I L S Hi Hr Hl Hn He Hg Hcl. pose proof (local_at G P A s S i rf Hi) as Lc.
  pose proof (stored_current s I i rf Hi) as Hsc. pose proof (inv_node n s I i rf Hi) as Hok.
  pose proof (ok_leader n s i rf Hok Hr) as Hel. pose proof (ok_elected n s i rf Hok _ Hel).
  assert ((stored rf).1 = currentTerm rf) as Hst by lia.
  pose proof (evolves_stored n s i rf rf' Hok (leaderUpdateCommitIndex_evolves _ _ Hl)) as Hst'.
  destruct (leaderUpdate_keeps _ _ Hl) as [Hp _]. destruct (tip_part _ _ Hp) as [Htip Hbase].
  destruct (leaderUpdate_commits n G A rf rf') as [Hcm Hma]; try done.
  { apply S. }
  { by apply (li_node G s L i). }
  { apply Lc. }
  { rewrite <- Hst. by eapply local_commits. }
  { by eapply (local_commit_ok G P A s). }
  { exact (lc_match n _ _ _ _ _ _ Lc). }
  { exact (ok_peers n s i rf Hok). }
  { apply lookup_lt_Some in Hi. rewrite (inv_length n s I) in Hi. lia. }
  { intros j k Hin. destruct (sf_bound n _ _ _ _ S _ _ _ Hin) as (q & Hq & Hb).
    assert (q = i) as -> by by eapply (elected_unique n). by apply Hb. }
  eapply (safe_keeps n i rf rf' G P A s); try done.
  - rewrite Hbase. apply Lc.
  - eapply commits_later; [|exact Hcm]. lia.
  - rewrite Hcl. by left.
Qed.

Lemma run_safe G P A s k now rnd s' :
  inv n s -> linv G s -> safe n G P A s -> cstep (ARun k now rnd) s = Some s' ->
  sound s (ARun k now rnd) s' -> exists P' A', A ⊆ A' /\ safe n G P' A' s'.
Proof.
  intros I L S Hs ((_ & Hcare) & Hlead & _). cbn in Hs.
  destruct (threads s !! k) as [[i th]|] eqn:Hk; [|done]. cbn in Hs.
  destruct (nodes s !! i) as [rf|] eqn:Hi; [|done]. cbn in Hs.
  assert ((i, th) ∈ threads s) as Hth by (apply list_elem_of_lookup; eauto).
  destruct (run_thread th now rnd rf) as [[[rf' ths] reqs]|?|?] eqn:Hrun; cbn in Hs; [|done..].
  injection Hs as <-. set (s' := mkCluster _ _ _ _ _).
  assert (rf' = rf -> elected s' = elected s -> granted s' = granted s ->
    (forall c, c ∈ ((fun '(j, r) => mkCall i (Z.to_nat j) r) <$> reqs) -> safe_call n G P A c) ->
    exists P' A', A ⊆ A' /\ safe n G P' A' s') as Hsame.
  { intros -> He Hg Hc. exists P, A. split; [done |]. eapply (safe_still n i rf rf G P A s);
      [done.. | apply still_refl | done | done | done |].
    intros c [?|?]%elem_of_app; [by left | right; by apply Hc]. }
  destruct th; cbn [run_thread self_vote election_of] in *.
  - destruct (ticker now rf); injection Hrun as <- <- <-; apply Hsame; try done; by intros c ?%elem_of_nil.
  - destruct (toCandidate now rnd rf) as [rf1 reqs1] eqn:Hcd. injection Hrun as <- <- <-.
    destruct (candidate_safe G P A s s' i now rnd rf rf1 reqs1) as [P' HP']; try done. by exists P', A.
  - apply go_bind_Done in Hrun as (rf1 & Hl & Hrun). injection Hrun as <- <- <-.
    destruct (leader_safe G P A s s' i term rf rf1) as [A' HA']; try done; [by apply (inv_thread n s I) | by eapply Hcare | |].
    { cbn. by rewrite app_nil_r. }
    by exists P, A'.
  - destruct (leaderTicker rf); injection Hrun as <- <- <-; apply Hsame; try done; by intros c ?%elem_of_nil.
  - apply go_bind_Done in Hrun as (rf1 & Hl & Hrun). injection Hrun as <- <- <-. exists P, A. split; [done |].
    eapply (update_safe G P A s s' i rf rf1); try done; [eapply Hlead; try done; tauto |]. cbn. by rewrite app_nil_r.
  - apply go_bind_Done in Hrun as (l & Hl & Hrun). injection Hrun as <- <- <-. apply Hsame; try done.
    intros c. eapply sends_safe; try done. eapply Hlead; try done; tauto.
  - apply go_bind_Done in Hrun as (l & Hl & Hrun). injection Hrun as <- <- <-. apply Hsame; try done.
    intros c. eapply sends_safe; try done. eapply Hlead; try done; tauto.
Qed.

(** ** Every step *)

Lemma next_record_grows G s a : inv n s -> linv G s -> G ⊆ next_record a s G.
Proof.
  intros I L. destruct a; try done. cbn [next_record]. destruct (nodes s !! i) as [rf|] eqn:Hi; [|done].
  destruct (decide _) as [Hr|]; [|done]. unfold appended. apply insert_subseteq.
  by apply (next_unrecorded n G s i rf I L).
Qed.

Lemma cstep_safe G P A s a s' :
  inv n s -> linv G s -> safe n G P A s -> cstep a s = Some s' -> sound s a s' ->
  exists P' A', G ⊆ next_record a s G /\ A ⊆ A' /\ safe n (next_record a s G) P' A' s'.
Proof.
  intros I L S Hs Ho.
  assert ((exists P' A', A ⊆ A' /\ safe n (next_record a s G) P' A' s')
    -> exists P' A', G ⊆ next_record a s G /\ A ⊆ A' /\ safe n (next_record a s G) P' A' s') as Hdone.
  { intros (P' & A' & ?). exists P', A'. split; [by apply (next_record_grows G s a) | done]. }
  apply Hdone. destruct a; cbn [next_record].
  - by eapply run_safe.
  - exists P. by eapply deliver_safe.
  - exists P, A. split; [done |]. by eapply return_safe.
  - exists P. by eapply start_safe.
  - exists P, A. split; [done |]. by eapply snapshot_safe.
  - exists P, A. split; [done |]. by eapply crash_safe.
  - exists P, A. split; [done |]. cbn in Hs. destruct (nodes s !! i) as [rf|] eqn:Hi; [|done]. injection Hs as <-.
    eapply (safe_still n i rf (Kill rf) G P A s); [done..| by split | done | done | done | by left].
Qed.

Lemma boot_tree : tree (∅ : record_of C).
Proof. split; intros i t d pt; by rewrite lookup_empty. Qed.

Lemma boot_local i rf : nodes (boot (C := C) n) !! i = Some rf -> local n ∅ ∅ [] (boot n) i rf.
Proof.
  intros Hi. apply list_lookup_fmap_Some in Hi as (j & -> & _).
  split; try (by intros ? ?%elem_of_nil); try (by intros ? ? ?%elem_of_nil).
  - by left.
  - done.
  - done.
  - exists root. split; [done |]. split; [apply anc_refl | by left].
  - intros t b. by rewrite lookup_empty.
  - intros p (k & ?%elem_of_nil & _)%covers_spec. done.
  - intros t cd b p ?%elem_of_nil. done.
  - done.
Qed.

Lemma boot_safe : safe (C := C) n ∅ ∅ [] (boot n).
Proof.
  split.
  - apply boot_tree.
  - intros i t d pt. by rewrite lookup_empty.
  - intros t q b. by rewrite lookup_empty.
  - by intros j t q ?%elem_of_nil.
  - by intros j t k ?%elem_of_nil.
  - apply boot_local.
  - by intros c ?%elem_of_nil.
Qed.

Lemma soundly_safe s :
  soundly_reachable s -> inv n s /\ exists G P A, linv G s /\ safe n G P A s.
Proof.
  induction 1 as [|s a s' _ (I & G & P & A & L & S) Hs Ho].
  - split; [apply boot_inv |]. exists ∅, ∅, []. split; [apply boot_linv | apply boot_safe].
  - pose proof (sound_orderly G P A s a s' I L S Ho) as Hord.
    split; [eapply cstep_inv; [done | done |]; apply Ho |].
    destruct (cstep_safe G P A s a s' I L S Hs Ho) as (P' & A' & _ & _ & S').
    exists (next_record a s G), P', A'. split; [by eapply cstep_linv | done].
Qed.
End steps.
