(* ===== verification/RaftStateMachine.v ===== *)
(** State machine safety: what the invariant of [RaftCommit], kept by every sound step
    ([RaftStateSafety]), says about commit indexes, about the commands that the services
    are handed, and about new leaders. *)
From S2P Require Import Prelude Persister RaftTypes RaftTools RaftPersist RaftLog RaftLogFacts.
From S2P Require Import RaftReplication RaftElection RaftAppend RaftSnapshot RaftNode RaftCluster.
From S2P Require Import RaftSafety RaftElectionSafety RaftChains RaftLogMatching RaftTree.
From S2P Require Import RaftCommit RaftCommitSteps RaftCommitOps RaftStateSafety.

Section state_machine.
Context {C : Type} `{GobLaws C} (n : nat).
Implicit Types (G : record_of C) (P : stands) (A : acks) (rf : Raft C) (s : Cluster C).
Implicit Types (x y p : Z * Z) (l : list (LogEntry C)) (e a b : LogEntry C).

(** ** Entries and positions *)

(** A position on the path of a chain, after its start, is that of an entry. *)
Lemma entry_at G i t l p :
  chain G i t l -> anc G p (chain_end i t l) -> i < p.1 -> exists e, e ∈ l /\ pos_of e = p.
Proof.
  intros Hc Hp Hlow. pose proof (anc_index _ _ _ Hp) as Hle. cbn [chain_end fst] in Hle.
  destruct (lookup_lt_is_Some_2 l (Z.to_nat (p.1 - i - 1))) as [e He]; [lia |].
  destruct (chain_lookup _ _ _ _ _ _ Hc He) as [Hi _]. destruct (chain_pos _ _ _ _ _ _ Hc He) as [_ Ha].
  exists e. split; [apply list_elem_of_lookup; eauto |]. eapply anc_eq; [|cbn [pos_of fst]; lia].
  eapply anc_both; [exact Ha | exact Hp |]. cbn [pos_of fst]. lia.
Qed.

(** The record has one entry per position. *)
Lemma same_entry G i1 t1 l1 i2 t2 l2 a b :
  chain G i1 t1 l1 -> chain G i2 t2 l2 -> a ∈ l1 -> b ∈ l2 -> pos_of a = pos_of b -> a = b.
Proof. intros H1 H2 Ha Hb [= Hi Ht]. apply (chains_match G i1 t1 l1 i2 t2 l2 a b a b); done || lia. Qed.

(** An entry of a peer's log is on the peer's path. *)
Lemma log_path G rf a : node_log G rf -> a ∈ log rf -> anc G (pos_of a) (tip rf) /\ known G (pos_of a).
Proof.
  intros Hnl (k & Hk)%list_elem_of_lookup. pose proof (nl_chain _ _ Hnl) as Hc.
  destruct (chain_lookup _ _ _ _ _ _ Hc Hk) as [_ Hg]. destruct (chain_pos _ _ _ _ _ _ Hc Hk) as [_ Ha].
  split; [done | by eexists].
Qed.

Section facts.
Context G P A s (I : inv n s) (L : linv G s) (S : safe n G P A s).

(** An entry up to the commit index is committed. *)
Lemma entry_committed i rf a :
  nodes s !! i = Some rf -> a ∈ log rf -> le_Index a <= commitIndex rf -> committed n G A (pos_of a) (stored rf).1.
Proof.
  intros Hi Ha Hle. destruct (log_path G rf a (li_node G s L i rf Hi) Ha) as [Hpath Hk].
  destruct (lc_committed n _ _ _ _ _ _ (local_at n G P A s S i rf Hi)) as (x & Hx & Hxa & Hxc).
  eapply committed_below; [apply S | | exact Hxc | by right].
  eapply anc_both; [exact Hpath | exact Hxa |]. cbn [pos_of fst]. lia.
Qed.

(** What was committed in a term up to a leader's own is on the leader's path. *)
Lemma leader_has i rf x T :
  nodes s !! i = Some rf -> role rf = Leader -> committed n G A x T -> T <= currentTerm rf -> anc G x (tip rf).
Proof.
  intros Hi Hr Hx HT. pose proof (inv_node n s I i rf Hi) as Hok. pose proof (local_at n G P A s S i rf Hi) as Lc.
  pose proof (ok_leader n s i rf Hok Hr) as Hel. pose proof (ok_elected n s i rf Hok _ Hel).
  pose proof (ok_behind n s i rf Hok). assert ((stored rf).1 = currentTerm rf) as Hst by lia.
  pose proof (lc_leader n _ _ _ _ _ _ Lc _ Hel Hst) as Hbr.
  destruct Hx as [->|(p & Hp & Hc & Hpt & Hxp)].
  { apply anc_root; [apply S | by eapply (branch_valid n)]. }
  eapply anc_trans; [exact Hxp |]. destruct (decide (p.2 = currentTerm rf)) as [Heq|].
  - apply comparable_le; [eapply (chosen_comparable n); try done; lia |].
    destruct Hp as [v Hv], p as [m t]. cbn [fst snd] in *. destruct (li_record G s L _ _ _ Hv) as (q & Hq & Hlast).
    assert (q = i) as -> by (eapply (elected_unique n); [exact I | exact Hq | by rewrite Heq]).
    change ((tip rf).1) with (lastIndex rf). apply Hlast; [done | lia].
  - destruct (elected_stand n _ _ _ _ I S _ _ Hel) as [b Hb].
    destruct (leader_above n _ _ _ _ I S _ _ _ p Hel Hb Hp ltac:(lia)) as [Ha|Hd];
      [|by destruct (chosen_not_dead n A s p)].
    eapply anc_trans; [exact Ha |]. by eapply (branch_stand n).
Qed.
End facts.

(** ** What every peer commits *)

(** C3: state machine safety.  In every state that is reached by sound steps,
    crashes, compactions and lost or late messages included: if two peers hold entries
    with the same index, and each has committed that index, then it is the same entry. *)
Theorem state_machine_safety s i j ri rj a b :
  soundly_reachable n s -> nodes s !! i = Some ri -> nodes s !! j = Some rj ->
  a ∈ log ri -> b ∈ log rj -> le_Index a = le_Index b ->
  le_Index a <= commitIndex ri -> le_Index b <= commitIndex rj -> a = b.
Proof.
  intros (I & G & P & A & L & S)%soundly_safe Hi Hj Ha Hb Hab Hai Hbj.
  pose proof (entry_committed G P A s L S i ri a Hi Ha Hai) as Hca.
  pose proof (entry_committed G P A s L S j rj b Hj Hb Hbj) as Hcb.
  eapply (same_entry G); [apply (li_node G s L i ri Hi) | apply (li_node G s L j rj Hj) | done | done |].
  eapply anc_eq; [|exact Hab]. apply comparable_le; [|cbn [pos_of fst]; lia].
  by eapply (two_committed n _ _ _ _ I S).
Qed.

(** C5: leader completeness.  In every state that is reached by sound steps: an
    entry that some peer has committed, in a term it had saved not after a leader's
    term, is in that leader's log, unless the leader's snapshot already covers it. *)
Theorem leader_completeness s i j ri rj b :
  soundly_reachable n s -> nodes s !! i = Some ri -> nodes s !! j = Some rj -> role ri = Leader ->
  b ∈ log rj -> le_Index b <= commitIndex rj -> (stored rj).1 <= currentTerm ri ->
  snapshotIndex ri < le_Index b -> b ∈ log ri.
Proof.
  intros (I & G & P & A & L & S)%soundly_safe Hi Hj Hr Hb Hbj Ht Hlow.
  pose proof (entry_committed G P A s L S j rj b Hj Hb Hbj) as Hc.
  pose proof (leader_has G P A s I L S i ri _ _ Hi Hr Hc Ht) as Hp.
  pose proof (nl_chain _ _ (li_node G s L i ri Hi)) as Hci.
  destruct (entry_at G _ _ _ (pos_of b) Hci Hp Hlow) as (e & He & Hpos).
  by rewrite <- (same_entry G _ _ _ _ _ _ e b Hci (nl_chain _ _ (li_node G s L j rj Hj)) He Hb Hpos).
Qed.

(** ** What the services are handed, over time *)

Definition sound_next s s' : Prop := exists act, cstep act s = Some s' /\ sound s act s'.

Lemma later_safe G P A s s' :
  inv n s -> linv G s -> safe n G P A s -> rtc sound_next s s' ->
  inv n s' /\ exists G' P' A', G ⊆ G' /\ A ⊆ A' /\ linv G' s' /\ safe n G' P' A' s'.
Proof.
  intros I L S Hrun. revert G P A I L S.
  induction Hrun as [s|s s1 s2 (act & Hs & Ho) _ IH]; intros G P A I L S; [by split; [|exists G, P, A] |].
  pose proof (sound_orderly n G P A s act s1 I L S Ho) as Hord.
  destruct (cstep_safe n G P A s act s1 I L S Hs Ho) as (P' & A' & HG & HA & S').
  destruct (IH (next_record act s G) P' A') as (I2 & G2 & P2 & A2 & HG2 & HA2 & L2 & S2);
    [eapply cstep_inv; [done | done |]; apply Ho | by eapply cstep_linv | done |].
  split; [done |]. exists G2, P2, A2. split; [by etransitivity |]. split; [by etransitivity | done].
Qed.

(** C4: the services agree, at all times.  Let one peer hand its service a command
    as number [k] in a state that is reached by sound steps, and let any peer, the same
    one after a restart included, hand over a command as number [k] then or at any
    later time: it is the same command. *)
Theorem services_agree s s' i j ri rj m m' :
  soundly_reachable n s -> rtc sound_next s s' ->
  nodes s !! i = Some ri -> nodes s' !! j = Some rj -> m ∈ messages ri -> m' ∈ messages rj ->
  CommandValid m = true -> CommandValid m' = true -> CommandIndex m = CommandIndex m' ->
  am_Command m = am_Command m'.
Proof.
  intros (I & G & P & A & L & S)%soundly_safe Hrun Hi Hj Hm Hm' Hv Hv' Hix.
  destruct (later_safe G P A s s' I L S Hrun) as (I' & G' & P' & A' & HG & HA & L' & S').
  destruct (lc_msgs n _ _ _ _ _ _ (local_at n _ _ _ _ S i ri Hi) m Hm Hv) as (t & cmd & pt & Hc & Hg & Hcom).
  destruct (lc_msgs n _ _ _ _ _ _ (local_at n _ _ _ _ S' j rj Hj) m' Hm' Hv') as (t' & cmd' & pt' & Hc' & Hg' & Hcom').
  apply (lookup_weaken _ _ _ _ Hg) in HG as Hg1. rewrite Hix in *.
  eapply committed_mono in Hcom; [|exact HG | exact HA | reflexivity].
  pose proof (two_committed n _ _ _ _ I' S' _ _ _ _ Hcom Hcom') as Hcmp.
  apply comparable_le in Hcmp; [|done]. apply anc_eq in Hcmp; [|done]. injection Hcmp as <-. congruence.
Qed.

(** ** Deliveries *)

(** In a state that is reached by sound steps the handler of an AppendEntries call in
    flight returns, unless it is a whole log that meets a snapshot. *)
Lemma append_returns s c args r rf now :
  soundly_reachable n s -> c ∈ calls s -> c_rpc c = CallAE args r -> nodes s !! c_dst c = Some rf ->
  (currentTerm rf <= aea_Term args -> 0 <= snapshotIndex rf -> 0 <= aea_PrevLogIndex args) ->
  exists rf' reply,
    AppendEntriesRequestHandler now rf args zero_AppendEntriesReply = Done (rf', reply).
Proof.
  intros (I & G & P & A & L & S)%soundly_safe Hc Hr Hd Hpos.
  destruct (Z.ltb_spec (aea_Term args) (currentTerm rf)) as [Hold|Hnew].
  { unfold AppendEntriesRequestHandler. destruct (Z.ltb_spec (aea_Term args) (currentTerm rf)); [|lia].
    by eexists _, _. }
  pose proof (request_agrees n G P A s I L S c args r _ rf Hc Hr Hd Hnew (Hpos Hnew)) as Hag.
  pose proof (li_node G s L _ rf Hd) as Hnl. pose proof (li_call G s L c Hc) as Hcl.
  pose proof (sf_call n _ _ _ _ S c Hc) as Hsc. pose proof (local_at n _ _ _ _ S _ rf Hd) as Lc.
  unfold call_log, safe_call in *. rewrite Hr in Hcl, Hsc. destruct Hcl as (Hrc & Hel & _). destruct Hsc as (Hbr & _).
  pose proof (node_log_ok _ _ Hnl) as Hok. pose proof (request_on_record G rf args Hnl Hrc Hag) as Hreq.
  destruct (appendEntries_log now rf args zero_AppendEntriesReply Hok Hnew Hreq) as (reply & _ & _ & _ & ->).
  destruct (fst (receiver_rules rf args)); [|by eexists _, _].
  destruct (receiver_path G rf args Hnl Hrc Hag) as (Hkeep & _).
  destruct (lc_committed n _ _ _ _ _ _ Lc) as (x & Hx & Hxa & Hxc).
  pose proof (stored_current n s I _ rf Hd).
  assert (comparable G x (end_of args)) as Hcmp by (eapply (committed_comparable n); try done; lia).
  pose proof (anc_index _ _ _ (Hkeep x Hxa Hcmp)) as Hlen. cbn [chain_end fst] in Hlen.
  destruct (reconciled_ok now rf args Hok (local_commit_ok n G P A s L S _ rf Hd) Hreq) as [Hok' Hcm']; [lia |].
  rewrite followerUpdate_spec by done. by eexists _, _.
Qed.

(** What [InstallSnapshotRequestHandler] can do to a well-formed peer whose snapshot the
    request does not contradict. *)
Lemma InstallSnapshotRequest_returns now rf args reply :
  log_ok rf -> commit_ok rf ->
  (snapshotIndex rf = isa_LastIncludedIndex args -> snapshotTerm rf = isa_LastIncludedTerm args) ->
  (exists rf' reply', InstallSnapshotRequestHandler now rf args reply = Done (rf', reply'))
  \/ InstallSnapshotRequestHandler now rf args reply
       = Panic "InstallSnapshotRequestHandler ERROR: log inconsistent!"
     /\ exists e, e ∈ log rf /\ le_Index e = isa_LastIncludedIndex args
          /\ le_Term e <> isa_LastIncludedTerm args.
Proof.
  intros Hok [Hlow Hcl] Hsame. unfold InstallSnapshotRequestHandler.
  assert ((snapshotIndex rf =? isa_LastIncludedIndex args)
    && negb (snapshotTerm rf =? isa_LastIncludedTerm args) = false) as ->.
  { destruct (Z.eqb_spec (snapshotIndex rf) (isa_LastIncludedIndex args)) as [Heq|]; [|done].
    rewrite Hsame by done. by rewrite Z.eqb_refl. }
  destruct (_ <? _); [left; by eexists _, _ |].
  set (rf0 := rf <| lastHeartbeatTime := now |>).
  destruct (Z.leb_spec (isa_LastIncludedIndex args) (snapshotIndex rf0)) as [|Hgt]; [left; by eexists _, _ |].
  set (rf1 := if _ <? _ then _ else _).
  assert (log_part rf1 = log_part rf /\ commitIndex rf1 = commitIndex rf) as [Hp Hci].
  { subst rf1. destruct (_ <? _); [|done]. split; [by rewrite toFollower_part |].
    by destruct (toFollower_core (isa_Term args) rf0) as [[-> _]%core_msgs _]. }
  change (snapshotIndex rf0) with (snapshotIndex rf) in Hgt. clearbody rf1. injection Hp as El Ei _.
  assert (log_ok rf1) as Hok1 by (unfold log_ok; by rewrite El, Ei).
  rewrite findIndex_spec, El, Ei by done. fold (lastIndex rf).
  destruct (Z.ltb_spec (snapshotIndex rf) (isa_LastIncludedIndex args)); [cbn [andb]|lia].
  destruct (Z.leb_spec (isa_LastIncludedIndex args) (lastIndex rf)) as [Hin|Hout].
  - destruct (Z.eqb_spec (isa_LastIncludedIndex args - snapshotIndex rf - 1) (-1)); [lia |].
    destruct (go_index_total (log rf) (isa_LastIncludedIndex args - snapshotIndex rf - 1)) as (e & -> & He);
      [unfold lastIndex in *; lia |]. cbn [mbind go_bind].
    destruct (Z.eqb_spec (le_Term e) (isa_LastIncludedTerm args)) as [|Hne]; cbn [negb].
    + rewrite slice_from_Done by (apply lookup_lt_Some in He; lia). left. by eexists _, _.
    + right. split; [done |]. exists e. split; [apply list_elem_of_lookup; eauto |].
      rewrite (Hok _ _ He). split; [lia | done].
  - left. change (-1 =? -1) with true. cbn iota.
    destruct (Z.ltb_spec (isa_LastIncludedIndex args) (commitIndex rf1)) as [|Hle]; [lia |].
    apply Z.ltb_ge in Hle. cbn. rewrite Hle. by eexists _, _.
Qed.

(** That of an InstallSnapshot call returns, or an entry that the receiver has not
    committed conflicts with the snapshot. *)
Lemma install_returns s c args r rf now :
  soundly_reachable n s -> c ∈ calls s -> c_rpc c = CallIS args r -> nodes s !! c_dst c = Some rf ->
  (exists rf' reply,
     InstallSnapshotRequestHandler now rf args zero_InstallSnapshotReply = Done (rf', reply))
  \/ InstallSnapshotRequestHandler now rf args zero_InstallSnapshotReply
       = Panic "InstallSnapshotRequestHandler ERROR: log inconsistent!"
     /\ exists e, e ∈ log rf /\ le_Index e = isa_LastIncludedIndex args
          /\ le_Term e <> isa_LastIncludedTerm args /\ commitIndex rf < le_Index e.
Proof.
  intros (I & G & P & A & L & S)%soundly_safe Hc Hr Hd.
  pose proof (sf_call n _ _ _ _ S c Hc) as Hsc. unfold safe_call in Hsc. rewrite Hr in Hsc.
  destruct Hsc as (_ & Hcom & _). pose proof (node_log_ok _ _ (li_node G s L _ rf Hd)) as Hok.
  assert (forall x T, committed n G A x T -> x.1 = isa_LastIncludedIndex args -> x.2 = isa_LastIncludedTerm args)
    as Hone.
  { intros x T Hx Hi. pose proof (two_committed n _ _ _ _ I S _ _ _ _ Hx Hcom) as Hcmp.
    apply comparable_le in Hcmp; [|cbn; lia]. apply anc_eq in Hcmp; [by rewrite Hcmp | done]. }
  destruct (InstallSnapshotRequest_returns now rf args zero_InstallSnapshotReply Hok) as [?|(Hp & e & He & Hi & Ht)].
  - by eapply (local_commit_ok n G P A s).
  - apply (Hone (base rf) (stored rf).1). by eapply base_committed.
  - by left.
  - right. split; [done |]. exists e. repeat (split; [done |]).
    destruct (Z.lt_ge_cases (commitIndex rf) (le_Index e)) as [|Hge]; [done |]. destruct Ht.
    apply (Hone (pos_of e) (stored rf).1); [by eapply entry_committed | done].
Qed.
End state_machine.
