(* ===== verification/RaftRefinement.v ===== *)
(** What the cluster implements: a log of commands that only grows and from which every
    service is handed commands by their number.  The specification simulates the sound
    steps of [RaftStateSafety]. *)
From S2P Require Import Prelude Persister RaftTypes RaftTools RaftPersist RaftLog RaftLogFacts.
From S2P Require Import RaftReplication RaftElection RaftAppend RaftSnapshot RaftNode RaftCluster.
From S2P Require Import RaftSafety RaftElectionSafety RaftChains RaftLogMatching RaftTree.
From S2P Require Import RaftCommit RaftCommitSteps RaftCommitOps RaftStateSafety RaftStateMachine.

(** ** The specification *)

(** The commands that were submitted, and those that were agreed on, in their order. *)
Record Spec (C : Type) := mkSpec { submitted : list C; agreed : list C }.
Arguments mkSpec {C} _ _.
Arguments submitted {C} _.
Arguments agreed {C} _.

(** A command is submitted, or one that was submitted and not yet agreed on is put at the
    end of the log. *)
Inductive spec_step {C} : Spec C -> Spec C -> Prop :=
| spec_submit sp c : spec_step sp (mkSpec (submitted sp ++ [c]) (agreed sp))
| spec_agree sp c :
    agreed sp ++ [c] ⊆+ submitted sp -> spec_step sp (mkSpec (submitted sp) (agreed sp ++ [c])).

Lemma agree_all {C} (q l1 l2 : list C) :
  l1 ++ l2 ⊆+ q -> rtc spec_step (mkSpec q l1) (mkSpec q (l1 ++ l2)).
Proof.
  revert l1; induction l2 as [|c l2 IH]; intros l1 Hsub; [by rewrite app_nil_r |].
  rewrite (cons_middle c l1 l2), assoc in Hsub |- * by apply _. eapply rtc_l; [|by apply IH].
  apply (spec_agree (mkSpec q l1)). cbn. etransitivity; [|exact Hsub]. by apply submseteq_inserts_r.
Qed.

Section refinement.
Context {C : Type} `{GobLaws C} (n : nat).
Implicit Types (G : record_of C) (P : stands) (A : acks) (rf : Raft C) (s : Cluster C) (sp : Spec C).
Implicit Types (x y p : Z * Z) (l : list (LogEntry C)) (e : LogEntry C) (m : ApplyMsg C).

(** What a leader accepts by [Start] is submitted. *)
Definition submits (a : action C) s : list C :=
  match a with
  | AStart i command =>
    match nodes s !! i with
    | Some rf => if decide (role rf = Leader) then [command] else []
    | None => []
    end
  | _ => []
  end.

(** What every peer has committed and what it hands its service is as agreed. *)
Definition implements s sp : Prop :=
  forall i rf, nodes s !! i = Some rf ->
    commitIndex rf < len (agreed sp)
    /\ (forall e, e ∈ log rf -> le_Index e <= commitIndex rf ->
          agreed sp !! Z.to_nat (le_Index e) = Some (le_Command e))
    /\ (forall m, m ∈ messages rf -> CommandValid m = true ->
          0 < CommandIndex m /\ agreed sp !! Z.to_nat (CommandIndex m - 1) = am_Command m).

(** ** Paths as lists *)

(** The log that the path from one position to another is. *)
Lemma path_log G x y : anc G x y -> exists l, chain G x.1 x.2 l /\ chain_end x.1 x.2 l = y.
Proof.
  induction 1 as [x|x i t c pt Hg _ (l & Hc & He)]; [exists []; split; [done |]; rewrite chain_end_nil; by destruct x |].
  unfold chain_end in He. injection He as Hi Ht. exists (l ++ [mkLogEntry t i c]). split.
  - apply chain_snoc; [done | cbn; lia |]. cbn [le_Term le_Command]. rewrite Ht. by replace (x.1 + len l + 1) with i by lia.
  - rewrite chain_end_app. unfold chain_end, end_term. cbn. f_equal. lia.
Qed.

(** The commands of a log that starts at the root were recorded, one by one. *)
Definition recorded G : list C := (fun v => v.2.1) <$> map_to_list G.

Lemma chain_recorded G i t l : chain G i t l -> le_Command <$> l ⊆+ recorded G.
Proof.
  intros Hc. pose (f := fun k e => (pos_of e, (le_Command e, end_term t (take k l)))).
  assert (le_Command <$> l = (fun v : (Z * Z) * (C * Z) => v.2.1) <$> imap f l) as ->.
  { apply list_eq. intros k. rewrite !list_lookup_fmap, list_lookup_imap. by destruct (l !! k). }
  apply fmap_submseteq, NoDup_submseteq.
  - apply NoDup_alt. intros k1 k2 v. rewrite !list_lookup_imap.
    destruct (l !! k1) as [e1|] eqn:H1; [|done]. destruct (l !! k2) as [e2|] eqn:H2; [|done].
    cbn [fmap option_fmap option_map]. intros [= <-] [= Hi _ _ _].
    apply (chain_lookup _ _ _ _ _ _ Hc) in H1 as [? _], H2 as [? _]. lia.
  - intros v (k & e & -> & Hk)%elem_of_lookup_imap. apply elem_of_map_to_list.
    by apply (chain_lookup _ _ _ _ _ _ Hc) in Hk as [_ ?].
Qed.

(** ** The log of what is committed *)

Section facts.
Context G P A s (I : inv n s) (L : linv G s) (S : safe n G P A s).

(** Finitely many committed positions are below one, which can be after a given one. *)
Lemma committed_bound x0 T0 (ks : list Z) :
  committed n G A x0 T0 -> (forall k, k ∈ ks -> exists y T, y.1 = k /\ committed n G A y T) ->
  exists x T, committed n G A x T /\ anc G x0 x /\ forall k, k ∈ ks -> k <= x.1.
Proof.
  intros Hx0. induction ks as [|k ks IH]; intros Hks.
  { exists x0, T0. split; [done |]. split; [apply anc_refl | by intros k ?%elem_of_nil]. }
  destruct IH as (x & T & Hx & Ha & Hle); [intros; apply Hks; by right |].
  destruct (Hks k) as (y & T' & <- & Hy); [by left |].
  destruct (Z.le_ge_cases y.1 x.1) as [Hyx|Hxy].
  - exists x, T. split; [done |]. split; [done |]. intros k [->|Hk%Hle]%elem_of_cons; lia.
  - exists y, T'. split; [done |]. split.
    + eapply anc_trans; [exact Ha |]. apply comparable_le; [|done]. by eapply (two_committed n _ _ _ _ I S).
    + intros k [->|Hk%Hle]%elem_of_cons; lia.
Qed.

(** The positions up to which a peer has committed and handed over. *)
Definition reached rf : list Z :=
  commitIndex rf :: ((fun m => CommandIndex m - 1) <$> filter (fun m => CommandValid m = true) (messages rf)).

Lemma reached_committed i rf k :
  nodes s !! i = Some rf -> k ∈ reached rf -> exists y T, y.1 = k /\ committed n G A y T.
Proof.
  intros Hi. pose proof (local_at n G P A s S i rf Hi) as Lc.
  intros [->|(m & -> & [Hv Hm]%list_elem_of_filter)%list_elem_of_fmap]%elem_of_cons.
  - destruct (lc_committed n _ _ _ _ _ _ Lc) as (x & ? & _ & ?). by exists x, (stored rf).1.
  - destruct (lc_msgs n _ _ _ _ _ _ Lc m Hm Hv) as (t & cmd & pt & _ & _ & Hc). by exists (CommandIndex m - 1, t), (stored rf).1.
Qed.

(** A committed position up to the end of a committed log is that of its entry. *)
Lemma agreed_at l T y T' cmd pt :
  chain G (-1) 0 l -> committed n G A (chain_end (-1) 0 l) T -> committed n G A y T' ->
  G !! y = Some (cmd, pt) -> y.1 < len l -> (le_Command <$> l) !! Z.to_nat y.1 = Some cmd.
Proof.
  intros Hl Hc Hy Hg Hlt. pose proof (two_committed n _ _ _ _ I S _ _ _ _ Hy Hc) as Hcmp.
  apply comparable_le in Hcmp; [|cbn; lia]. destruct y as [i t].
  pose proof (tr_index _ (sf_tree n _ _ _ _ S) _ _ _ _ Hg) as Hi0. cbn [fst] in *.
  destruct (entry_at G _ _ _ (i, t) Hl Hcmp) as (e & (k & Hk)%list_elem_of_lookup & Hpos); [cbn; lia |].
  destruct (chain_lookup _ _ _ _ _ _ Hl Hk) as [Hi Hg']. injection Hpos as Hei Het.
  rewrite Hei, Het, Hg in Hg'. injection Hg' as -> _.
  rewrite list_lookup_fmap. replace (Z.to_nat i) with k by lia. by rewrite Hk.
Qed.
End facts.

(** ** The simulation *)

(** The agreed log is a committed path of the record that reaches as far as any peer
    has committed or handed over, and the record has what was submitted. *)
Definition simulates s sp : Prop :=
  inv n s /\ exists G P A l T, linv G s /\ safe n G P A s
    /\ chain G (-1) 0 l /\ committed n G A (chain_end (-1) 0 l) T
    /\ agreed sp = le_Command <$> l /\ recorded G ≡ₚ submitted sp
    /\ forall i rf k, nodes s !! i = Some rf -> k ∈ reached rf -> k < len l.

Lemma simulates_implements s sp : simulates s sp -> implements s sp.
Proof.
  intros (I & G & P & A & l & T & L & S & Hl & Hc & Hag & _ & Hle) i rf Hi.
  assert (forall k, k ∈ reached rf -> k < len l) as Hr by (intros; by eapply Hle).
  rewrite Hag. assert (commitIndex rf < len l) as Hci by (apply Hr; left).
  split; [by rewrite length_fmap |]. split.
  - intros e He Hei. pose proof (entry_committed n G P A s L S i rf e Hi He Hei) as Hec.
    pose proof He as (k & Hk)%list_elem_of_lookup.
    destruct (chain_lookup _ _ _ _ _ _ (nl_chain _ _ (li_node G s L i rf Hi)) Hk) as [_ Hg].
    eapply (agreed_at G P A s I S l T (pos_of e)); [done.. | cbn; lia].
  - intros m Hm Hv. destruct (lc_msgs n _ _ _ _ _ _ (local_at n _ _ _ _ S i rf Hi) m Hm Hv)
      as (t & cmd & pt & -> & Hg & Hmc).
    pose proof (tr_index _ (sf_tree n _ _ _ _ S) _ _ _ _ Hg). split; [lia |].
    eapply (agreed_at G P A s I S l T (CommandIndex m - 1, t)); [done.. | cbn [fst]; apply Hr].
    right. apply list_elem_of_fmap. exists m. split; [done |]. by apply list_elem_of_filter.
Qed.

Lemma boot_simulates : simulates (boot n) (mkSpec [] []).
Proof.
  split; [apply boot_inv |]. exists ∅, ∅, [], [], 0.
  split; [apply boot_linv |]. split; [apply boot_safe |]. split; [done |].
  split; [left; apply chain_end_nil |]. split; [done |]. split; [by unfold recorded; rewrite map_to_list_empty |].
  intros i rf k (j & -> & _)%list_lookup_fmap_Some [->|Hk]%elem_of_cons; [done | by apply elem_of_nil in Hk].
Qed.

(** The record grows by what is submitted. *)
Lemma next_recorded G s a :
  inv n s -> linv G s -> recorded (next_record a s G) ≡ₚ recorded G ++ submits a s.
Proof.
  intros I L. unfold recorded. destruct a; cbn [next_record submits]; rewrite ?app_nil_r; try done.
  destruct (nodes s !! i) as [rf|] eqn:Hi; [|by rewrite app_nil_r].
  destruct (decide (role rf = Leader)) as [Hr|]; [|by rewrite app_nil_r].
  destruct (next_unrecorded n G s i rf I L Hi Hr) as [_ Hnone]. unfold appended.
  rewrite map_to_list_insert by done. rewrite fmap_cons. cbn [snd fst]. apply Permutation_cons_append.
Qed.

Lemma simulates_step s sp a s' :
  simulates s sp -> cstep a s = Some s' -> sound s a s' ->
  exists cs, simulates s' (mkSpec (submitted sp ++ submits a s) (agreed sp ++ cs))
    /\ agreed sp ++ cs ⊆+ submitted sp ++ submits a s.
Proof.
  intros (I & G & P & A & l & T & L & S & Hl & Hc & Hag & Hrec & Hle) Hs Ho.
  pose proof (sound_orderly n G P A s a s' I L S Ho) as Hord.
  destruct (cstep_safe n G P A s a s' I L S Hs Ho) as (P' & A' & HG & HA & S').
  pose proof (next_recorded G s a I L) as Hrec'. rewrite Hrec in Hrec'.
  set (G' := next_record a s G) in *.
  assert (inv n s') as I' by (eapply cstep_inv; [done | done |]; apply Ho).
  assert (linv G' s') as L' by by eapply cstep_linv.
  pose proof (committed_mono n _ _ _ _ _ _ _ HG HA (Z.le_refl T) Hc) as Hc'.
  apply (chain_mono _ G') in Hl; [|done].
  destruct (committed_bound G' P' A' s' I' S' _ _ (mjoin (reached <$> nodes s')) Hc') as (x & T' & Hx & Ha & Hmax).
  { intros k (ks & Hk & (rf & -> & (i & Hi)%list_elem_of_lookup)%list_elem_of_fmap)%list_elem_of_join.
    by eapply reached_committed. }
  destruct (path_log _ _ _ Ha) as (l2 & Hl2 & He2). cbn [fst snd chain_end] in Hl2, He2.
  exists (le_Command <$> l2). rewrite Hag, <- fmap_app.
  assert (chain G' (-1) 0 (l ++ l2)) as Hll by by apply chain_app.
  assert (chain_end (-1) 0 (l ++ l2) = x) as Hend by by rewrite chain_end_app.
  split; [|rewrite <- Hrec'; by eapply chain_recorded].
  split; [done |]. exists G', P', A', (l ++ l2), T'. rewrite Hend.
  split; [done |]. split; [done |]. split; [done |]. split; [done |]. split; [done |]. split; [done |].
  intros i rf k Hi Hk. assert (k <= x.1) as Hkx.
  { apply Hmax, list_elem_of_join. exists (reached rf). split; [done |].
    apply list_elem_of_fmap. exists rf. split; [done |]. apply list_elem_of_lookup. eauto. }
  rewrite <- Hend in Hkx. cbn [chain_end fst] in Hkx. lia.
Qed.

(** C1: the cluster implements a log of commands that only grows.  There is a relation
    between states of the cluster and states of that specification which holds when the
    cluster is booted; which says that what any peer has committed, and what it hands its
    service, is the agreed command of that number; and under which every sound step, a
    crash included, is matched by steps of the specification that submit the command
    if it is a leader's [Start], and that agree on submitted commands, each once. *)
Theorem cluster_refines_log : exists R : Cluster C -> Spec C -> Prop,
  R (boot n) (mkSpec [] [])
  /\ (forall s sp, R s sp -> implements s sp)
  /\ (forall s sp a s', R s sp -> cstep a s = Some s' -> sound s a s' ->
        exists sp', rtc spec_step sp sp' /\ submitted sp' = submitted sp ++ submits a s /\ R s' sp').
Proof.
  exists simulates. split; [apply boot_simulates |]. split; [apply simulates_implements |].
  intros s [q l] a s' HR Hs Ho. destruct (simulates_step _ _ _ _ HR Hs Ho) as (cs & HR' & Hsub). cbn in *.
  eexists. split; [|split; [|exact HR']]; [|done].
  transitivity (mkSpec (q ++ submits a s) l); [|by apply agree_all].
  unfold submits. destruct a; rewrite ?app_nil_r; try done. destruct (nodes s !! i); rewrite ?app_nil_r; [|done].
  destruct (decide _); rewrite ?app_nil_r; [|done]. apply rtc_once, (spec_submit (mkSpec q l)).
Qed.
End refinement.
