(* ===== verification/RaftTables.v ===== *)
(** The tables of a leader, [nextIndex] and [matchIndex], in sound runs: they have an
    entry per peer, and no entry of [nextIndex] points past the end of the log.  What
    follows for the panics of the code. *)
From S2P Require Import Prelude Persister RaftTypes RaftTools RaftPersist RaftLog RaftLogFacts.
From S2P Require Import RaftReplication RaftElection RaftAppend RaftSnapshot RaftNode RaftCluster.
From S2P Require Import RaftSafety RaftElectionSafety RaftChains RaftLogMatching RaftTree.
From S2P Require Import RaftCommit RaftCommitSteps RaftCommitOps RaftStateSafety RaftStateMachine.

Section ops.
Context {C : Type} `{GobLaws C} (n : nat).
Implicit Types (rf : Raft C).

(** ** One peer *)

Definition sized rf : Prop := length (nextIndex rf) = n /\ length (matchIndex rf) = n.

Definition next_ok rf : Prop :=
  role rf = Leader -> sized rf /\ Forall (fun v => v <= lastIndex rf + 1) (nextIndex rf).

(** The operation leaves the tables alone, and the log of a leader grows only. *)
Record same_tables rf rf' : Prop := {
  sm_next : nextIndex rf' = nextIndex rf;
  sm_match : length (matchIndex rf') = length (matchIndex rf);
  sm_role : role rf' = Leader -> role rf = Leader /\ lastIndex rf <= lastIndex rf' }.

(** The operation keeps the lengths, and what is required of a leader. *)
Definition keeps_tables rf rf' : Prop := (sized rf -> sized rf') /\ (next_ok rf -> next_ok rf').

Lemma same_keeps rf rf' : same_tables rf rf' -> keeps_tables rf rf'.
Proof.
  intros [Hn Hm Hr]. assert (sized rf -> sized rf') as Hs by (unfold sized; by rewrite Hn, Hm).
  split; [done |]. intros Hok [Hl Hle]%Hr. destruct (Hok Hl) as [Hsz Hall]. split; [by apply Hs |].
  rewrite Hn. eapply Forall_impl; [exact Hall |]. cbn. lia.
Qed.

Lemma same_refl rf : same_tables rf rf.
Proof. split; try done. Qed.

Lemma follower_tables term rf : same_tables rf (toFollower term rf).
Proof.
  pose proof (toFollower_frame term rf) as (_ & _ & _ & _ & _ & _ & _ & _ & Hn & Hm & _).
  split; [done | by rewrite Hm | by rewrite toFollower_role].
Qed.

Lemma persist_tables rf rf' : same_tables rf rf' -> same_tables rf (persist rf').
Proof. by intros [? ? ?]. Qed.

Lemma RequestVoteRequest_tables now rf args reply :
  same_tables rf (RequestVoteRequestHandler now rf args reply).1.
Proof.
  destruct (requestVote_eval now rf args reply) as (r & -> & _). cbn [fst]. apply persist_tables.
  set (rf1 := if currentTerm rf <? rva_Term args then _ else rf).
  assert (same_tables rf rf1) as [Hn Hm Hr] by (subst rf1; destruct (_ <? _); [apply follower_tables | apply same_refl]).
  clearbody rf1. by destruct (rvr_VoteGranted r); split.
Qed.

Lemma RequestVoteResponse_tables rf args reply : same_tables rf (RequestVoteResponseHandler rf args reply).1.
Proof.
  unfold RequestVoteResponseHandler.
  repeat case_match; cbn [fst]; first [apply same_refl | apply follower_tables | by split].
Qed.

Lemma toCandidate_tables now rnd rf : same_tables rf (toCandidate now rnd rf).1.
Proof. unfold toCandidate. destruct (getLastLogIndexAndTerm _) as [i t]. by split. Qed.

Lemma sendCommitted_tables rf p c rf' : sendCommittedLogChannel rf p c = Done rf' -> same_tables rf rf'.
Proof. unfold sendCommittedLogChannel. intros Hr. go_inv; by split. Qed.

Lemma followerUpdate_tables rf lc rf' : followerUpdateCommitIndex rf lc = Done rf' -> same_tables rf rf'.
Proof.
  unfold followerUpdateCommitIndex. destruct (_ <=? _); [intros [= <-]; apply same_refl |].
  intros [Hn Hm Hr]%sendCommitted_tables. by split.
Qed.

Lemma followerHandleLog_frame rf args reply rf' reply' :
  followerHandleLog rf args reply = Done (rf', reply') ->
  nextIndex rf' = nextIndex rf /\ matchIndex rf' = matchIndex rf /\ role rf' = role rf.
Proof. unfold followerHandleLog. intros Hr. go_inv; done. Qed.

(** A request for the log makes its receiver a follower, or is refused. *)
Lemma AppendEntriesRequest_tables now rf args reply rf' reply' :
  AppendEntriesRequestHandler now rf args reply = Done (rf', reply') -> same_tables rf rf'.
Proof.
  unfold AppendEntriesRequestHandler. destruct (_ <? _); [intros [= <- <-]; by apply persist_tables, same_refl |].
  intros ([rf1 r1] & H1 & Hr)%go_bind_Done.
  apply followerHandleLog_frame in H1 as (Hn & Hm & Hro). cbn in Hn, Hm, Hro.
  pose proof (toFollower_frame (aea_Term args) rf) as (_ & _ & _ & _ & _ & _ & _ & _ & Hfn & Hfm & _).
  rewrite toFollower_role in Hro. rewrite Hfn in Hn. rewrite Hfm in Hm.
  assert (forall rf2, same_tables rf1 rf2 -> same_tables rf (persist rf2)) as Hdone.
  { intros rf2 [E1 E2 E3]. split; cbn; [by rewrite E1 | by rewrite E2, Hm |].
    intros [Hl _]%E3. by rewrite Hro in Hl. }
  destruct (negb _); [injection Hr as <- <-; by apply Hdone, same_refl |].
  apply go_bind_Done in Hr as (rf2 & H2%followerUpdate_tables & Hr). injection Hr as <- <-. by apply Hdone.
Qed.

(** What a refusal in the leader's own term says. *)
Lemma AppendEntriesRequest_hint G now rf args reply rf' reply' :
  node_log G rf -> request_chain G args -> (currentTerm rf <= aea_Term args -> agrees args rf) ->
  AppendEntriesRequestHandler now rf args reply = Done (rf', reply') -> aer_Term reply' = aea_Term args ->
  aer_ServerId reply' = me rf /\ (aer_Success reply' = false -> aer_XIndex reply' <= aea_PrevLogIndex args).
Proof.
  intros Hnl Hrc Hag. unfold AppendEntriesRequestHandler.
  destruct (Z.ltb_spec (aea_Term args) (currentTerm rf)) as [|Hge]; [intros [= <- <-]; cbn; lia |].
  pose proof (toFollower_frame (aea_Term args) rf) as (Hlog & Hsi & _ & _ & _ & Hme & _).
  set (rf0 := (toFollower (aea_Term args) rf) <| lastHeartbeatTime := now |>).
  assert (log rf0 = log rf) as Hlog0 by exact Hlog. assert (snapshotIndex rf0 = snapshotIndex rf) as Hsi0 by exact Hsi.
  pose proof (node_log_ok _ _ Hnl) as Hok. assert (log_ok rf0) as Hok0 by (unfold log_ok; by rewrite Hlog0, Hsi0).
  assert (request_ok rf0 args) as Hreq.
  { eapply request_ok_frame; [done | done |]. apply (request_on_record G); auto. }
  intros ([rf1 r1] & H1 & Hr)%go_bind_Done _.
  assert (r1 = reply') as ->.
  { destruct (negb _); [by injection Hr |]. apply go_bind_Done in Hr as (? & _ & Hr). by injection Hr. }
  destruct (follower_refines rf0 args (reply <| aer_Term := aea_Term args |> <| aer_Success := true |>
    <| aer_ServerId := me rf0 |>) Hok0 Hreq) as (r & Hf & _ & _ & Hid).
  pose proof H1 as H2. rewrite Hf in H2. injection H2 as _ ->. split; [by rewrite Hid |].
  intros Hfail. by apply (followerHandleLog_reject_hint rf0 args _ rf1 reply' Hok0 Hreq H1 Hfail).
Qed.

Lemma InstallSnapshotRequest_frame now rf args reply rf' reply' :
  InstallSnapshotRequestHandler now rf args reply = Done (rf', reply') ->
  nextIndex rf' = nextIndex rf /\ matchIndex rf' = matchIndex rf /\ (role rf' = Leader -> role rf = Leader)
  /\ (role rf' = Leader -> lastIndex rf' = lastIndex rf \/ currentTerm rf = isa_Term args).
Proof.
  unfold InstallSnapshotRequestHandler. destruct (_ && _); [done |].
  destruct (Z.ltb_spec (isa_Term args) (currentTerm rf)) as [|Hge].
  { intros [= <- <-]. repeat split; try done. by left. }
  destruct (_ <=? _); [intros [= <- <-]; repeat split; try done; by left |].
  set (rf1 := if _ <? _ then _ else _).
  assert (nextIndex rf1 = nextIndex rf /\ matchIndex rf1 = matchIndex rf
    /\ (role rf1 = Leader -> role rf = Leader /\ currentTerm rf = isa_Term args)) as (Hn & Hm & Hro).
  { subst rf1. cbn [currentTerm set_field]. change (currentTerm (rf <| lastHeartbeatTime := now |>)) with (currentTerm rf).
    destruct (Z.ltb_spec (currentTerm rf) (isa_Term args)).
    - pose proof (toFollower_frame (isa_Term args) (rf <| lastHeartbeatTime := now |>))
        as (_ & _ & _ & _ & _ & _ & _ & _ & -> & -> & _). by rewrite toFollower_role.
    - repeat split; (done || lia). }
  clearbody rf1. intros Hr.
  assert (nextIndex rf' = nextIndex rf1 /\ matchIndex rf' = matchIndex rf1 /\ role rf' = role rf1) as (-> & -> & ->).
  { destruct (_ =? _); [destruct (_ <? _); [done |]; by injection Hr as <- <- |].
    apply go_bind_Done in Hr as (e & _ & Hr). destruct (negb _); [done |].
    apply go_bind_Done in Hr as (l & _ & Hr). injection Hr as <- <-. by destruct (_ <? _). }
  split; [done |]. split; [done |]. split; [intros Hl; by apply Hro | intros Hl; right; by apply Hro].
Qed.

(** The log of a peer that stays leader is as long as before. *)
Lemma advances_tables s i rf rf' :
  inv n s -> nodes s !! i = Some rf -> advances s i rf rf' ->
  nextIndex rf' = nextIndex rf -> length (matchIndex rf') = length (matchIndex rf) ->
  (role rf' = Leader -> role rf = Leader /\ (stored rf').1 = (stored rf).1) -> same_tables rf rf'.
Proof.
  intros I Hi [_ Ha] Hn Hm Hr. split; [done | done |]. intros Hl. destruct (Hr Hl) as [Hl' Hst].
  split; [done |]. pose proof (inv_node n s I i rf Hi) as Hok. pose proof (ok_leader n s i rf Hok Hl') as Hel.
  pose proof (ok_elected n s i rf Hok _ Hel). pose proof (ok_behind n s i rf Hok).
  apply (Ha _ Hel). lia.
Qed.

Lemma leaderUpdate_tables rf rf' : leaderUpdateCommitIndex rf = Done rf' -> same_tables rf rf'.
Proof.
  intros Hu. pose proof (leaderUpdate_keeps _ _ Hu) as Hk. apply keeps_lastIndex in Hk.
  assert (nextIndex rf' = nextIndex rf /\ matchIndex rf' = matchIndex rf /\ role rf' = role rf) as (Hn & Hm & Hro).
  { unfold leaderUpdateCommitIndex in Hu. destruct (_ && _); [by injection Hu as <- |].
    apply go_bind_Done in Hu as (m & _ & Hu). destruct (m =? -1); [by injection Hu as <- |].
    destruct (negb _); [by injection Hu as <- |]. apply go_bind_Done in Hu as (e & _ & Hu).
    destruct (_ =? _); [|by injection Hu as <-]. apply go_bind_Done in Hu as (rf1 & H1 & Hu). injection Hu as <-.
    unfold sendCommittedLogChannel in H1. go_inv; done. }
  split; [done | by rewrite Hm | rewrite Hro; split; (done || lia)].
Qed.

Lemma Snapshot_tables G rf index snap rf' :
  node_log G rf -> Snapshot rf index snap = Done rf' -> same_tables rf rf'.
Proof.
  intros Hnl Hs. destruct (Snapshot_log G _ _ _ _ Hnl Hs) as [_ Hlast].
  assert (nextIndex rf' = nextIndex rf /\ matchIndex rf' = matchIndex rf /\ role rf' = role rf) as (Hn & Hm & Hro).
  { unfold Snapshot, installCurRfSnapShot in Hs. destruct (_ =? _); [by injection Hs as <- |].
    apply go_bind_Done in Hs as (e & _ & Hs). apply go_bind_Done in Hs as (l & _ & Hs).
    apply go_bind_Done in Hs as (ms & _ & Hs). by injection Hs as <-. }
  split; [done | by rewrite Hm | rewrite Hro; split; (done || lia)].
Qed.

Lemma Start_tables G rf command rf' r :
  node_log G rf -> Start rf command = Done (rf', r) -> keeps_tables rf rf'.
Proof.
  intros Hnl Hs. destruct (decide (role rf = Leader)) as [Hl|Hl].
  2: { destruct r as [[? ?] ?]. apply Start_follower in Hs as ->; [|done]. apply same_keeps, same_refl. }
  destruct (Start_fields G rf command rf' r Hnl Hl Hs) as (_ & Hro & _ & _ & Hmi & Htip).
  assert (lastIndex rf' = lastIndex rf + 1) as Hlast by (injection Htip as E _; exact E).
  assert (nextIndex rf' = <[Z.to_nat (me rf) := lastIndex rf + 2]> (nextIndex rf)) as Hni.
  { pose proof (getLast_chain G rf Hnl) as Hgl. unfold Start in Hs. rewrite Hl in Hs.
    change (Leader =? Leader) with true in Hs. cbn iota in Hs.
    assert (match last (log rf) with Some e => le_Index e + 1 | None => snapshotIndex rf + 1 end
            = lastIndex rf + 1) as Hix.
    { unfold getLastLogIndexAndTerm in Hgl. by destruct (last (log rf)); injection Hgl as <-. }
    rewrite Hix in Hs. apply go_bind_Done in Hs as (mi & _ & Hs).
    apply go_bind_Done in Hs as (ni & [_ ->]%go_update_inv & Hs). injection Hs as <- _. cbn. f_equal. lia. }
  unfold keeps_tables, next_ok, sized. rewrite Hro, Hni, Hmi, Hlast, !length_insert. split; [done |].
  intros Hok Hl'. destruct (Hok Hl') as [Hsz Hall]. split; [done |]. apply Forall_insert; [|lia].
  eapply Forall_impl; [exact Hall |]. cbn. lia.
Qed.

Lemma toLeader_tables G rf rf' :
  node_log G rf -> peers rf = n -> toLeader rf = Done rf' -> sized rf' /\ next_ok rf'.
Proof.
  intros Hnl Hp Hl. pose proof (keeps_lastIndex _ _ (toLeader_keeps _ _ Hl)) as Hlast.
  unfold toLeader in Hl. apply go_bind_Done in Hl as (mi & [_ ->]%go_update_inv & Hl).
  change (fst (getLastLogIndexAndTerm (rf <| role := Leader |>))) with (fst (getLastLogIndexAndTerm rf)) in Hl.
  rewrite (tip_last G rf Hnl) in Hl. change ((tip rf).1) with (lastIndex rf) in Hl.
  assert (nextIndex rf' = replicate n (lastIndex rf + 1) /\ length (matchIndex rf') = n) as [Hn Hm].
  { injection Hl as <-. cbn. by rewrite Hp, length_insert, length_replicate. }
  assert (sized rf') as Hsz by (unfold sized; by rewrite Hn, length_replicate). split; [done |].
  intros _. split; [done |]. rewrite Hn, Hlast. apply Forall_replicate. lia.
Qed.

(** ** Answers *)

Lemma leaderHandleLog_tables rf args reply rf' :
  log_ok rf -> (role rf = Leader -> (end_of args).1 <= lastIndex rf) ->
  (aer_Success reply = false -> aer_XIndex reply <= aea_PrevLogIndex args) ->
  leaderHandleLog rf args reply = Done rf' -> keeps_tables rf rf'.
Proof.
  intros Hok Hend Hx Hl. unfold leaderHandleLog in Hl.
  apply go_bind_Done in Hl as (next & [_ Hnext]%go_index_Done & Hl).
  destruct (Z.eqb_spec (aea_PrevLogIndex args) (next - 1)) as [Hprev|];
    [cbn [negb] in Hl | injection Hl as <-; apply same_keeps, same_refl].
  assert (forall v mi, length mi = length (matchIndex rf) ->
    (role rf = Leader -> next <= lastIndex rf + 1 -> v <= lastIndex rf + 1) ->
    keeps_tables rf (rf <| nextIndex := <[Z.to_nat (aer_ServerId reply) := v]> (nextIndex rf) |> <| matchIndex := mi |>))
    as Hdone.
  { intros v mi Hmi Hv. unfold keeps_tables, next_ok, sized. cbn. rewrite length_insert, Hmi. split; [done |].
    intros Hok' Hlead. destruct (Hok' Hlead) as [Hsz Hall]. split; [done |]. apply Forall_insert; [exact Hall |].
    apply Hv; [done |]. rewrite Forall_lookup in Hall. by eapply Hall. }
  destruct (aer_Success reply) eqn:Hs; cbn [negb andb] in Hl.
  - apply go_bind_Done in Hl as (ni & [_ ->]%go_update_inv & Hl).
    apply go_bind_Done in Hl as (mi & [_ ->]%go_update_inv & Hl). injection Hl as <-. apply Hdone.
    + by rewrite length_insert.
    + intros Hlead _. specialize (Hend Hlead). cbn in Hend. lia.
  - specialize (Hx eq_refl). destruct (_ =? _) in Hl.
    { apply go_bind_Done in Hl as (ni & [_ ->]%go_update_inv & Hl). injection Hl as <-.
      apply (Hdone _ (matchIndex rf)); [done | lia]. }
    apply go_bind_Done in Hl as (k & _ & Hl). destruct (negb _).
    + apply go_bind_Done in Hl as (e & [_ He]%go_index_Done & Hl).
      apply go_bind_Done in Hl as (ni & [_ ->]%go_update_inv & Hl). injection Hl as <-.
      apply (Hdone _ (matchIndex rf)); [done |]. intros _ _. pose proof (Hok _ _ He).
      apply lookup_lt_Some in He. unfold lastIndex. lia.
    + apply go_bind_Done in Hl as (ni & [_ ->]%go_update_inv & Hl). injection Hl as <-.
      apply (Hdone _ (matchIndex rf)); [done | lia].
Qed.

(** An answer enters the tables only if it is of the peer's own term. *)
Lemma AppendEntriesResponse_eval rf args reply :
  aea_Term args <= currentTerm rf ->
  AppendEntriesResponseHandler rf args reply = Done (persist rf)
  \/ AppendEntriesResponseHandler rf args reply = Done (persist (toFollower (aer_Term reply) rf))
  \/ aea_Term args = currentTerm rf /\ aer_Term reply = aea_Term args
     /\ AppendEntriesResponseHandler rf args reply = (rf' ← leaderHandleLog rf args reply; Done (persist rf')).
Proof.
  intros Hle. unfold AppendEntriesResponseHandler.
  destruct (Z.ltb_spec (aer_Term reply) (currentTerm rf)); cbn [orb]; [by left |].
  destruct (Z.ltb_spec (aea_Term args) (currentTerm rf)); [by left |].
  destruct (Z.ltb_spec (currentTerm rf) (aer_Term reply)); [right; by left |].
  right. right. split; [lia |]. split; [lia | done].
Qed.

Lemma AppendEntriesResponse_tables rf args reply rf' :
  log_ok rf -> aea_Term args <= currentTerm rf ->
  (role rf = Leader -> aea_Term args = currentTerm rf -> (end_of args).1 <= lastIndex rf) ->
  (aer_Term reply = aea_Term args -> aer_Success reply = false -> aer_XIndex reply <= aea_PrevLogIndex args) ->
  AppendEntriesResponseHandler rf args reply = Done rf' -> keeps_tables rf rf'.
Proof.
  intros Hok Hle Hend Hx Hr.
  destruct (AppendEntriesResponse_eval rf args reply Hle) as [He|[He|(Ht & Hrt & He)]]; rewrite He in Hr.
  - injection Hr as <-. apply same_keeps, persist_tables, same_refl.
  - injection Hr as <-. apply same_keeps, persist_tables, follower_tables.
  - apply go_bind_Done in Hr as (rf1 & Hl & Hr). injection Hr as <-.
    change (keeps_tables rf rf1). eapply leaderHandleLog_tables; [done | | | exact Hl]; auto.
Qed.

Lemma leaderHandleLog_total rf args reply :
  sized rf -> 0 <= aer_ServerId reply < Z.of_nat n -> exists rf', leaderHandleLog rf args reply = Done rf'.
Proof.
  intros [Hn Hm] Hid. unfold leaderHandleLog.
  destruct (go_index_total (nextIndex rf) (aer_ServerId reply)) as (next & -> & _); [lia |]. cbn [mbind go_bind].
  destruct (negb (_ =? _)); [by eexists |].
  destruct (negb (aer_Success reply) && _); [rewrite go_update_Done by lia; by eexists |].
  destruct (negb (aer_Success reply)); [|rewrite !go_update_Done by lia; by eexists].
  destruct (lastTermLoop_total (length (log rf)) (log rf) (aer_XTerm reply))
    as (r & -> & [[-> _]|(k & x & -> & Hk & Hxk & _)]); [done | |]; cbn [mbind go_bind].
  - change (-1 =? -1) with true. cbn [negb]. rewrite go_update_Done by lia. by eexists.
  - destruct (Z.eqb_spec (Z.of_nat k) (-1)); [lia |]. cbn [negb]. rewrite (go_index_nat _ _ _ Hxk).
    cbn [mbind go_bind]. rewrite go_update_Done by lia. by eexists.
Qed.

Lemma AppendEntriesResponse_total rf args reply (d : nat) :
  sized rf -> (d < n)%nat -> aea_Term args <= currentTerm rf ->
  (aer_Term reply = aea_Term args -> aer_ServerId reply = Z.of_nat d) ->
  exists rf', AppendEntriesResponseHandler rf args reply = Done rf'.
Proof.
  intros Hs Hd Hle Hid.
  destruct (AppendEntriesResponse_eval rf args reply Hle) as [->|[->|(Ht & Hrt & ->)]]; [by eexists.. |].
  destruct (leaderHandleLog_total rf args reply Hs) as [rf' ->]; [rewrite Hid by done; lia | by eexists].
Qed.

Lemma InstallSnapshotResponse_eval rf args reply :
  InstallSnapshotResponseHandler rf args reply = Done (persist rf)
  \/ InstallSnapshotResponseHandler rf args reply = Done (persist (toFollower (isr_Term reply) rf))
  \/ isa_Term args = currentTerm rf /\ isr_Term reply = isa_Term args
     /\ InstallSnapshotResponseHandler rf args reply =
          (m ← go_index (matchIndex rf) (isr_ServerId reply);
           if isa_LastIncludedIndex args <=? m then Done (persist rf)
           else
             ni ← go_update (nextIndex rf) (isr_ServerId reply) (isa_LastIncludedIndex args + 1);
             mi ← go_update (matchIndex rf) (isr_ServerId reply) (isa_LastIncludedIndex args);
             Done (persist (rf <| nextIndex := ni |> <| matchIndex := mi |>))).
Proof.
  unfold InstallSnapshotResponseHandler.
  destruct (Z.eqb_spec (currentTerm rf) (isa_Term args)); cbn [negb orb]; [|by left].
  destruct (Z.ltb_spec (isr_Term reply) (currentTerm rf)); [by left |].
  destruct (Z.ltb_spec (currentTerm rf) (isr_Term reply)); [right; by left |].
  right. right. split; [lia |]. split; [lia | done].
Qed.

Lemma InstallSnapshotResponse_tables rf args reply rf' :
  (role rf = Leader -> isa_Term args = currentTerm rf -> isa_LastIncludedIndex args <= lastIndex rf) ->
  InstallSnapshotResponseHandler rf args reply = Done rf' -> keeps_tables rf rf'.
Proof.
  intros Hend Hr. destruct (InstallSnapshotResponse_eval rf args reply) as [He|[He|(Ht & Hrt & He)]]; rewrite He in Hr.
  - injection Hr as <-. apply same_keeps, persist_tables, same_refl.
  - injection Hr as <-. apply same_keeps, persist_tables, follower_tables.
  - apply go_bind_Done in Hr as (m & _ & Hr). destruct (_ <=? m).
    { injection Hr as <-. apply same_keeps, persist_tables, same_refl. }
    apply go_bind_Done in Hr as (ni & [_ ->]%go_update_inv & Hr).
    apply go_bind_Done in Hr as (mi & [_ ->]%go_update_inv & Hr). injection Hr as <-.
    unfold keeps_tables, next_ok, sized. cbn. rewrite !length_insert. split; [done |].
    intros Hok Hl. destruct (Hok Hl) as [Hsz Hall]. split; [done |]. specialize (Hend Hl Ht).
    apply Forall_insert; [exact Hall |]. unfold lastIndex in *. cbn. lia.
Qed.

Lemma InstallSnapshotResponse_total rf args reply (d : nat) :
  sized rf -> (d < n)%nat -> (isr_Term reply = isa_Term args -> isr_ServerId reply = Z.of_nat d) ->
  exists rf', InstallSnapshotResponseHandler rf args reply = Done rf'.
Proof.
  intros [Hn Hm] Hd Hid.
  destruct (InstallSnapshotResponse_eval rf args reply) as [->|[->|(Ht & Hrt & ->)]]; [by eexists.. |].
  rewrite Hid by done. destruct (go_index_total (matchIndex rf) (Z.of_nat d)) as (m & -> & _); [lia |].
  cbn [mbind go_bind]. destruct (_ <=? m); [by eexists |]. rewrite !go_update_Done by lia. by eexists.
Qed.

(** ** The leader's own operations return *)

Lemma toLeader_total rf (i : nat) : me rf = Z.of_nat i -> (i < peers rf)%nat -> exists rf', toLeader rf = Done rf'.
Proof.
  intros Hme Hi. unfold toLeader. cbn [me set_field]. rewrite go_update_Done; [by eexists |].
  cbn. rewrite length_replicate, Hme. lia.
Qed.

Lemma Start_total rf (i : nat) command :
  me rf = Z.of_nat i -> (i < n)%nat -> (role rf = Leader -> sized rf) -> exists out, Start rf command = Done out.
Proof.
  intros Hme Hi Hs. unfold Start. destruct (Z.eqb_spec (role rf) Leader) as [Hr|]; [|by eexists].
  destruct (Hs Hr) as [Hn Hm]. cbn [matchIndex nextIndex me set_field].
  rewrite !go_update_Done by (cbn; rewrite Hme; lia). by eexists.
Qed.

Lemma Snapshot_total rf index snap : log_ok rf -> commit_ok rf -> exists rf', Snapshot rf index snap = Done rf'.
Proof.
  intros Hok Hc. unfold Snapshot. destruct (decide (snapshotIndex rf < index - 1 <= lastIndex rf)) as [Hin|Hout].
  - destruct (installCur_eval rf (index - 1) snap Hok Hc Hin) as (e & _ & _ & ->). by eexists.
  - unfold installCurRfSnapShot. rewrite findIndex_absent by (done || unfold lastIndex in *; lia). by eexists.
Qed.

Lemma buildRequests_total rf l :
  log_ok rf -> sized rf -> Forall (fun v => v <= lastIndex rf + 1) (nextIndex rf) ->
  (forall j, j ∈ l -> 0 <= j < Z.of_nat n) -> exists reqs, buildRequests rf l = Done reqs.
Proof.
  intros Hok [Hn _] Hall. induction l as [|j l IH]; intros Hl; cbn [buildRequests]; [by eexists |].
  destruct (go_index_total (nextIndex rf) j) as (next & Hnext & Hj); [specialize (Hl j ltac:(by left)); lia |].
  rewrite Forall_lookup in Hall. specialize (Hall _ _ Hj). cbn in Hall.
  destruct (buildRequest_returns rf j next Hok Hnext) as (_ & Hinst & Happ).
  assert (exists o, buildRequest rf j = Done o) as [o ->].
  { destruct (Z.le_gt_cases next (snapshotIndex rf)) as [Hle|Hgt]; [eexists; by apply Hinst |].
    destruct Happ as [args ->]; [lia | by eexists]. }
  destruct IH as [reqs ->]; [intros; apply Hl; by right | by eexists].
Qed.

Lemma Make_total G np i rf now rnd :
  node_log G rf -> exists rf', Make (C := C) np i (persister rf) now rnd = Done rf'.
Proof.
  intros Hnl. pose proof (nl_saved _ _ Hnl) as Hsaved. unfold saved, stored_log, log_part in Hsaved.
  unfold Make. set (rf0 := readPersist _ (initial np i (persister rf) now rnd)).
  assert (log rf0 = log rf /\ snapshotIndex rf0 = snapshotIndex rf /\ applyChBuffer rf0 = []) as (E1 & E2 & E3).
  { subst rf0. revert Hsaved. unfold readPersist. destruct (ReadRaftState (persister rf)); [intros [= Ha Hb _]; by rewrite <- Ha, <- Hb |].
    destruct (gob_decode _ _) as [[|[?|?] [|[?|?] [|[?|?] [|[?|?] [|[?|?] [|? ?]]]]]]|]; cbn; intros [= Ha Hb _]; by rewrite <- Ha, <- Hb. }
  clearbody rf0. set (rfs := readPersistSnapshot _ rf0).
  set (rf1 := rfs <| commitIndex := _ |> <| lastApplied := _ |>).
  assert (log rf1 = log rf /\ commitIndex rf1 = snapshotIndex rf /\ applyChBuffer rf1 = []) as (F1 & F2 & F3).
  { subst rf1 rfs. done. }
  clearbody rf1. assert (exists rf2, (if negb (snapshotIndex rf1 =? -1) then putBeforeReader rf1 [snapshotMsg rf1] else mret rf1)
    = Done rf2 /\ log rf2 = log rf /\ commitIndex rf2 = snapshotIndex rf) as (rf2 & -> & G1 & G2).
  { destruct (negb _); [|by eexists]. unfold putBeforeReader. rewrite F3. by eexists. }
  cbn [mbind go_bind]. rewrite G1. eexists. apply replayLoop_ok; [by apply (node_log_ok G) | done].
Qed.
End ops.

(** ** The cluster *)

Section cluster.
Context {C : Type} `{GobLaws C} (n : nat).
Implicit Types (G : record_of C) (P : stands) (A : acks) (rf : Raft C) (s : Cluster C) (c : call C).

(** Who has called with its log or snapshot has tables; a refusal in the leader's own
    term points into what was sent. *)
Definition call_tables s c : Prop :=
  match c_rpc c with
  | CallRV _ _ => True
  | CallAE args o =>
    (forall rf, nodes s !! c_src c = Some rf -> sized n rf) /\ (c_dst c < n)%nat
    /\ forall r, o = Some r -> aer_Term r = aea_Term args ->
         aer_ServerId r = Z.of_nat (c_dst c) /\ (aer_Success r = false -> aer_XIndex r <= aea_PrevLogIndex args)
  | CallIS args o => (forall rf, nodes s !! c_src c = Some rf -> sized n rf) /\ (c_dst c < n)%nat
  end.

Record tables_ok s : Prop := {
  tb_node : forall i rf, nodes s !! i = Some rf -> next_ok n rf;
  tb_call : forall c, c ∈ calls s -> call_tables s c }.

Lemma tables_step s s' i rf rf' :
  tables_ok s -> nodes s !! i = Some rf -> nodes s' = <[i := rf']> (nodes s) -> next_ok n rf' ->
  (sized n rf -> sized n rf') \/ (forall c, c ∈ calls s' -> c_src c <> i) ->
  (forall c, c ∈ calls s' -> c ∈ calls s \/ call_tables s' c) -> tables_ok s'.
Proof.
  intros [Tn Tc] Hi Hn Hok Hsz Hc. split.
  - intros j rj. rewrite Hn. intros [(_ & <- & _)|[_ Hj]]%list_lookup_insert_Some; [done | by eapply Tn].
  - intros c Hin. destruct (Hc c Hin) as [Hold|]; [|done]. specialize (Tc c Hold).
    assert ((forall rf0, nodes s !! c_src c = Some rf0 -> sized n rf0)
      -> forall rf0, nodes s' !! c_src c = Some rf0 -> sized n rf0) as Hsrc.
    { intros Hs rf0. rewrite Hn. intros [(Heq & <- & _)|[_ Hj]]%list_lookup_insert_Some; [|by apply Hs].
      destruct Hsz as [Hsz|Hno]; [apply Hsz, Hs; by rewrite <- Heq | by destruct (Hno c Hin)]. }
    unfold call_tables in *. destruct (c_rpc c); [done | |].
    + destruct Tc as (? & ? & ?). split; [by apply Hsrc | done].
    + destruct Tc as (? & ?). split; [by apply Hsrc | done].
Qed.

(** A step that keeps the tables of one peer. *)
Lemma tables_keeps s s' i rf rf' :
  tables_ok s -> nodes s !! i = Some rf -> nodes s' = <[i := rf']> (nodes s) -> keeps_tables n rf rf' ->
  (forall c, c ∈ calls s' -> c ∈ calls s \/ call_tables s' c) -> tables_ok s'.
Proof.
  intros T Hi Hn [Hs Hok] Hc. eapply tables_step; [done | done | done | | by left | done].
  apply Hok. by eapply tb_node.
Qed.

Section facts.
Context G P A s (I : inv n s) (L : linv G s) (S : safe n G P A s) (T : tables_ok s).

(** A call of the peer's own term, on which it leads, is bounded by its log. *)
Lemma own_bound i rf t x :
  nodes s !! i = Some rf -> role rf = Leader -> t = currentTerm rf -> (t, i) ∈ elected s ->
  branch G P t i x -> x.1 <= lastIndex rf.
Proof.
  intros Hi Hr -> Hel Hx. pose proof (inv_node n s I i rf Hi) as Hok.
  pose proof (ok_elected n s i rf Hok _ Hel). pose proof (ok_behind n s i rf Hok).
  eapply (branch_bound n G P A s); try done. lia.
Qed.

Lemma elected_current i rf t : nodes s !! i = Some rf -> (t, i) ∈ elected s -> 0 < t <= currentTerm rf.
Proof.
  intros Hi Hel. pose proof (inv_node n s I i rf Hi) as Hok.
  pose proof (ok_elected n s i rf Hok _ Hel). pose proof (ok_behind n s i rf Hok).
  destruct (elected_stand n _ _ _ _ I S _ _ Hel) as [b Hb]. pose proof (stand_pos n _ _ _ _ S _ _ _ Hb). lia.
Qed.

Lemma node_index i rf : nodes s !! i = Some rf -> (i < n)%nat.
Proof. intros Hi%lookup_lt_Some. by rewrite (inv_length n s I) in Hi. Qed.

Lemma deliver_tables k now s' :
  cstep (ADeliver k now) s = Some s' -> orderly s (ADeliver k now) s' -> tables_ok s'.
Proof.
  intros Hs (_ & _ & Hag). pose proof Hs as Hs0. cbn in Hs.
  destruct (calls s !! k) as [c|] eqn:Hk; [|done]. cbn in Hs.
  destruct (executed (c_rpc c)); [done |].
  destruct (nodes s !! c_dst c) as [rf|] eqn:Hd; [|done]. cbn in Hs.
  assert (c ∈ calls s) as Hc by (apply list_elem_of_lookup; eauto).
  pose proof (li_call G s L c Hc) as Hcl. pose proof (li_node G s L _ _ Hd) as Hnl. pose proof (tb_call s T c Hc) as Htc.
  destruct (serve now rf (c_rpc c)) as [[rf' r]| |] eqn:Hserve; [|done..]. injection Hs as <-.
  set (s' := (set_node _ _ _) <| calls := _ |> <| granted := _ |>).
  assert (keeps_tables n rf rf' -> call_tables s (mkCall (c_src c) (c_dst c) r) -> tables_ok s') as Hdone.
  { intros Hkeep Hr. assert (tables_ok (s' <| calls := mkCall (c_src c) (c_dst c) r :: calls s |>)) as [Tn Tc].
    { assert (tables_ok (s <| calls := mkCall (c_src c) (c_dst c) r :: calls s |>)) as T1.
      { split; [apply T |]. intros d [->|Hin]%elem_of_cons; [exact Hr | by apply (tb_call s T)]. }
      eapply (tables_keeps _ _ (c_dst c) rf rf'); [exact T1 | done | done | done | by left]. }
    split; [exact Tn |]. intros d [Hin| ->]%(updated_call s k c _ _ Hk); apply Tc; [by right | by left]. }
  unfold call_log in Hcl. unfold call_tables in Htc.
  destruct (c_rpc c) as [args o|args o|args o] eqn:Hr; cbn [serve] in Hserve.
  - pose proof (RequestVoteRequest_tables now rf args zero_RequestVoteReply) as Hkeep.
    destruct (RequestVoteRequestHandler _ _ _ _) as [rf1 reply] eqn:Hh. injection Hserve as <- <-.
    apply Hdone; [by apply same_keeps | done].
  - apply go_bind_Done in Hserve as ([rf1 reply] & Hh & Hserve). injection Hserve as <- <-.
    destruct Hcl as (Hrc & _ & _). destruct Htc as (Hsrc & Hdst & _).
    apply Hdone; [by eapply same_keeps, AppendEntriesRequest_tables |]. split; [done |]. split; [done |].
    intros r0 [= <-] Ht. cbn [c_dst].
    destruct (AppendEntriesRequest_hint G now rf args zero_AppendEntriesReply rf1 reply Hnl Hrc) as [Hid Hx]; try done.
    { intros Hle. by eapply Hag. }
    split; [|done]. rewrite Hid. apply (ok_me n s (c_dst c) rf), I. done.
  - apply go_bind_Done in Hserve as ([rf1 reply] & Hh & Hserve). injection Hserve as <- <-.
    apply Hdone; [|exact Htc]. apply same_keeps.
    destruct (InstallSnapshotRequest_frame _ _ _ _ _ _ Hh) as (Hn & Hm & Hro & Hlast).
    split; [done | by rewrite Hm |]. intros Hl. split; [by apply Hro |].
    destruct (Hlast Hl) as [->|Ht]; [done |]. destruct Hcl as (Hel & Hne). destruct Hne.
    eapply (elected_unique n); [exact I | exact Hel |]. rewrite <- Ht.
    apply (ok_leader n s _ rf (inv_node n s I _ rf Hd)). by apply Hro.
Qed.

Lemma return_tables k ok s' : cstep (AReturn k ok) s = Some s' -> tables_ok s'.
Proof.
  intros Hs. cbn in Hs. destruct (calls s !! k) as [c|] eqn:Hk; [|done]. cbn in Hs.
  destruct (ok && negb (executed (c_rpc c))); [done |].
  destruct (nodes s !! c_src c) as [rf|] eqn:Hd; [|done]. cbn in Hs.
  destruct (respond ok rf (c_rpc c)) as [[rf' ths]| |] eqn:Hres; [|done..]. injection Hs as <-.
  assert (c ∈ calls s) as Hc by (apply list_elem_of_lookup; eauto).
  pose proof (li_call G s L c Hc) as Hcl. pose proof (sf_call n _ _ _ _ S c Hc) as Hsc.
  pose proof (tb_call s T c Hc) as Htc. pose proof (node_log_ok _ _ (li_node G s L _ _ Hd)) as Hok.
  eapply (tables_keeps s _ (c_src c) rf rf'); [done | done | done | | intros d Hin%list_elem_of_delete_inv; by left].
  unfold call_log, safe_call, call_tables in *.
  destruct (c_rpc c) as [args o|args o|args o]; cbn [respond] in Hres.
  - injection Hres as <- <-. apply same_keeps, RequestVoteResponse_tables.
  - apply go_bind_Done in Hres as (rf1 & Hh & Hres). injection Hres as <- <-.
    destruct Hcl as (_ & Hel & _). destruct Hsc as (Hbr & _). destruct Htc as (_ & _ & Hrep).
    pose proof (elected_current _ _ _ Hd Hel). refine (AppendEntriesResponse_tables n rf args _ rf1 Hok _ _ _ Hh); [lia | |].
    + intros Hl Ht. by eapply own_bound.
    + destruct ok; [destruct o as [r|]|]; cbn [default]; [by intros ?; apply Hrep | intros E; cbn in E; lia..].
  - apply go_bind_Done in Hres as (rf1 & Hh & Hres). injection Hres as <- <-.
    destruct Hcl as (Hel & _). destruct Hsc as ((y & Hy & Ha) & _).
    refine (InstallSnapshotResponse_tables n rf args _ rf1 _ Hh). intros Hl Ht.
    pose proof (own_bound _ _ _ _ Hd Hl Ht Hel Hy) as Hle. apply anc_index in Ha. cbn [fst] in Ha. lia.
Qed.

(** A leader's calls go to peers, and it has tables. *)
Lemma sends_tables i rf reqs c :
  nodes s !! i = Some rf -> role rf = Leader -> leaderSendAppendEntriesRPC rf = Done reqs ->
  c ∈ ((fun '(j, r) => mkCall i (Z.to_nat j) r) <$> sends reqs) -> call_tables s c.
Proof.
  intros Hi Hr Hl. pose proof (inv_node n s I i rf Hi) as Hok. destruct (tb_node s T i rf Hi Hr) as [Hsz _].
  unfold sends. rewrite <- list_fmap_compose. intros ([j o] & -> & Hin)%list_elem_of_fmap.
  destruct (buildRequests_log G rf _ _ (li_node G s L i rf Hi) Hl j o Hin) as [Hj _].
  apply (others_spec i) in Hj as (d & -> & _ & Hd); [|by apply (ok_me n s i rf)].
  rewrite (ok_peers n s i rf Hok) in Hd.
  assert (forall rf0, nodes s !! i = Some rf0 -> sized n rf0) as Hsrc by (intros rf0; rewrite Hi; by intros [= <-]).
  unfold call_tables. cbn. rewrite Nat2Z.id. by destruct o.
Qed.

Lemma run_tables k now rnd s' :
  cstep (ARun k now rnd) s = Some s' -> sound s (ARun k now rnd) s' -> tables_ok s'.
Proof.
  intros Hs (_ & Hlead & _). cbn in Hs.
  destruct (threads s !! k) as [[i th]|] eqn:Hk; [|done]. cbn in Hs.
  destruct (nodes s !! i) as [rf|] eqn:Hi; [|done]. cbn in Hs.
  destruct (run_thread th now rnd rf) as [[[rf' ths] reqs]|?|?] eqn:Hrun; cbn in Hs; [|done..].
  injection Hs as <-. set (s' := mkCluster _ _ _ _ _). pose proof (inv_node n s I i rf Hi) as Hok.
  assert (keeps_tables n rf rf' ->
    (forall c, c ∈ ((fun '(j, r) => mkCall i (Z.to_nat j) r) <$> reqs) -> call_tables s' c) -> tables_ok s') as Hdone.
  { intros Hkeep Hc. eapply (tables_keeps s _ i rf rf'); [done | done | done | done |].
    intros c [?|?]%elem_of_app; [by left | right; by apply Hc]. }
  assert (forall c, c ∈ ((fun '(j, r) => mkCall i (Z.to_nat j) r) <$> ([] : list (Z * rpc C))) -> call_tables s' c)
    as Hnone by (by intros c Hc%elem_of_nil).
  assert (forall l, rf' = rf -> leaderSendAppendEntriesRPC rf = Done l -> role rf = Leader -> reqs = sends l -> tables_ok s')
    as Hsend.
  { intros l -> Hl Hr ->. apply Hdone; [apply same_keeps, same_refl |]. intros c Hc.
    pose proof (sends_tables i rf l c Hi Hr Hl Hc) as Hct. unfold call_tables in *.
    assert (nodes s' = nodes s) as Hn by (cbn; by apply list_insert_id). by rewrite Hn. }
  destruct th; cbn [run_thread] in Hrun.
  - destruct (ticker now rf); injection Hrun as <- <- <-; (apply Hdone; [apply same_keeps, same_refl | done]).
  - destruct (toCandidate now rnd rf) as [rf1 reqs1] eqn:Hcd. injection Hrun as <- <- <-.
    destruct (toCandidate_spec now rnd rf rf1 reqs1 Hcd) as (li & lt & _ & Hrest).
    apply Hdone.
    + apply same_keeps. pose proof (toCandidate_tables now rnd rf) as Ht. by rewrite Hcd in Ht.
    + destruct Hrest as (_ & _ & _ & _ & _ & _ & ->). intros c (_ & Hr)%requests_elem. unfold call_tables. by rewrite Hr.
  - apply go_bind_Done in Hrun as (rf1 & Hl & Hrun). injection Hrun as <- <- <-.
    destruct (toLeader_tables n G rf rf1 (li_node G s L i rf Hi) (ok_peers n s i rf Hok) Hl) as [Hsz Hnx].
    eapply (tables_step s _ i rf rf1); [done | done | done | done | by left |].
    cbn. rewrite app_nil_r. by left.
  - destruct (leaderTicker rf); injection Hrun as <- <- <-; (apply Hdone; [apply same_keeps, same_refl | done]).
  - apply go_bind_Done in Hrun as (rf1 & Hl & Hrun). injection Hrun as <- <- <-.
    apply Hdone; [by apply same_keeps, leaderUpdate_tables | done].
  - apply go_bind_Done in Hrun as (l & Hl & Hrun). injection Hrun as <- <- <-.
    eapply Hsend; [done | done | eapply Hlead; try done; tauto | done].
  - apply go_bind_Done in Hrun as (l & Hl & Hrun). injection Hrun as <- <- <-.
    eapply Hsend; [done | done | eapply Hlead; try done; tauto | done].
Qed.
End facts.

Lemma cstep_tables G P A s a s' :
  inv n s -> linv G s -> safe n G P A s -> tables_ok s -> cstep a s = Some s' -> sound s a s' -> tables_ok s'.
Proof.
  intros I L S T Hs Ho. destruct a.
  - by eapply run_tables.
  - eapply deliver_tables; [exact I | exact L | exact T | exact Hs | by eapply sound_orderly].
  - by eapply return_tables.
  - cbn in Hs. destruct (nodes s !! i) as [rf|] eqn:Hi; [|done]. cbn in Hs.
    destruct (Start rf command) as [[rf' [[? ?] ?]]| |] eqn:Hst; cbn in Hs; [|done..]. injection Hs as <-.
    eapply (tables_keeps s _ i rf rf'); [done | done | done | | by left].
    eapply Start_tables; [|exact Hst]. by apply (li_node G s L i).
  - cbn in Hs. destruct (nodes s !! i) as [rf|] eqn:Hi; [|done]. cbn in Hs.
    destruct (Snapshot rf index snap) as [rf'| |] eqn:Hsn; cbn in Hs; [|done..]. injection Hs as <-.
    eapply (tables_keeps s _ i rf rf'); [done | done | done | | by left].
    eapply same_keeps, Snapshot_tables; [|exact Hsn]. by apply (li_node G s L i).
  - cbn in Hs. destruct (nodes s !! i) as [rf|] eqn:Hi; [|done]. cbn in Hs.
    destruct (Make _ _ _ _ _) as [rf'| |] eqn:Hm; cbn in Hs; [|done..]. injection Hs as <-.
    pose proof (Make_ballot _ _ _ _ _ _ Hm) as (_ & _ & Hro & _).
    eapply (tables_step s _ i rf rf'); [done | done | done | | right | ].
    + intros Hl. rewrite Hro in Hl. done.
    + by intros c [? _]%list_elem_of_filter.
    + intros c [_ Hc]%list_elem_of_filter. by left.
  - cbn in Hs. destruct (nodes s !! i) as [rf|] eqn:Hi; [|done]. injection Hs as <-.
    eapply (tables_keeps s _ i rf (Kill rf)); [done | done | done | by apply same_keeps | by left].
Qed.

Lemma boot_tables : tables_ok (boot (C := C) n).
Proof.
  split; [|by intros c ?%elem_of_nil].
  intros i rf Hi. apply list_lookup_fmap_Some in Hi as (j & -> & _). done.
Qed.

Lemma soundly_tables s : soundly_reachable n s -> tables_ok s.
Proof.
  induction 1 as [|s a s' Hs IH Hstep Ho]; [apply boot_tables |].
  destruct (soundly_safe n s Hs) as (I & G & P & A & L & S). by eapply cstep_tables.
Qed.

(** ** Panics *)

Definition ran {X} (m : go X) : go unit := (_ ← m; mret tt).

(** What the code of a step does: [None] if the step is not possible in this state. *)
Definition attempt (a : action C) s : option (go unit) :=
  match a with
  | ARun k now rnd => '(i, th) ← threads s !! k; rf ← nodes s !! i; Some (ran (run_thread th now rnd rf))
  | ADeliver k now =>
    c ← calls s !! k;
    if executed (c_rpc c) then None else rf ← nodes s !! c_dst c; Some (ran (serve now rf (c_rpc c)))
  | AReturn k ok =>
    c ← calls s !! k;
    if ok && negb (executed (c_rpc c)) then None
    else rf ← nodes s !! c_src c; Some (ran (respond ok rf (c_rpc c)))
  | AStart i command => rf ← nodes s !! i; Some (ran (Start rf command))
  | ASnapshot i index snap => rf ← nodes s !! i; Some (ran (Snapshot rf index snap))
  | ACrash i now rnd =>
    rf ← nodes s !! i; Some (ran (Make (C := C) (length (nodes s)) (Z.of_nat i) (persister rf) now rnd))
  | AKill i => _ ← nodes s !! i; Some (Done tt)
  end.

Ltac no_step := split; [intros [? E]; discriminate E | intros E; discriminate E].

(** A step of the cluster is one whose code returns. *)
Lemma attempt_step a s : is_Some (cstep a s) <-> attempt a s = Some (Done tt).
Proof.
  assert (forall X Y (m : go X) (f : X -> Y), is_Some (x ← of_go m; Some (f x)) <-> Some (ran m) = Some (Done tt)) as Hran.
  { intros X Y m f. destruct m; cbn; first [no_step | by split]. }
  destruct a; cbn.
  - destruct (threads s !! k) as [[i th]|]; cbn; [|no_step]. destruct (nodes s !! i) as [rf|]; cbn; [|no_step].
    destruct (run_thread th now rnd rf) as [[[? ?] ?]| |]; cbn; first [no_step | by split].
  - destruct (calls s !! k) as [c|]; cbn; [|no_step]. destruct (executed _); [no_step |].
    destruct (nodes s !! c_dst c) as [rf|]; cbn; [|no_step].
    destruct (serve now rf (c_rpc c)) as [[? ?]| |]; cbn; first [no_step | by split].
  - destruct (calls s !! k) as [c|]; cbn; [|no_step]. destruct (_ && _); [no_step |].
    destruct (nodes s !! c_src c) as [rf|]; cbn; [|no_step].
    destruct (respond ok rf (c_rpc c)) as [[? ?]| |]; cbn; first [no_step | by split].
  - destruct (nodes s !! i) as [rf|]; cbn; [|no_step].
    destruct (Start rf command) as [[? [[? ?] ?]]| |]; cbn; first [no_step | by split].
  - destruct (nodes s !! i) as [rf|]; cbn; [|no_step]. apply Hran.
  - destruct (nodes s !! i) as [rf|]; cbn; [|no_step]. apply Hran.
  - destruct (nodes s !! i) as [rf|]; cbn; [|no_step]. split; [done | by eexists].
Qed.

(** The conditions of [sound] that concern what the code does next: who updates the
    commit index and who sends is leader, and a request from the very beginning of the
    log does not meet a snapshot. *)
Definition allowed s (a : action C) : Prop :=
  (forall k now rnd i th rf, a = ARun k now rnd -> threads s !! k = Some (i, th) ->
     th = ThLeaderUpdate \/ th = ThLeaderSend \/ th = ThStartSend -> nodes s !! i = Some rf -> role rf = Leader)
  /\ (forall k now c args r rf, a = ADeliver k now -> calls s !! k = Some c -> c_rpc c = CallAE args r ->
       nodes s !! c_dst c = Some rf -> currentTerm rf <= aea_Term args -> 0 <= snapshotIndex rf ->
       0 <= aea_PrevLogIndex args).

Lemma ran_Done {X} (m : go X) : (exists x, m = Done x) -> ran m = Done tt.
Proof. by intros [x ->]. Qed.

Lemma ran_bind {X Y} (m : go X) (f : X -> Y) : ran (x ← m; mret (f x)) = ran m.
Proof. by destruct m. Qed.

Section panics.
Context G P A s (I : inv n s) (L : linv G s) (S : safe n G P A s) (T : tables_ok s).

Lemma leaderUpdate_total i rf :
  nodes s !! i = Some rf -> role rf = Leader -> exists rf', leaderUpdateCommitIndex rf = Done rf'.
Proof.
  intros Hi Hr. pose proof (inv_node n s I i rf Hi) as Hok. pose proof (local_at n G P A s S i rf Hi) as Lc.
  pose proof (ok_leader n s i rf Hok Hr) as Hel. pose proof (ok_elected n s i rf Hok _ Hel). pose proof (ok_behind n s i rf Hok).
  destruct (lc_match n _ _ _ _ _ _ Lc Hr) as [Hlen Hall].
  pose proof (node_index s I i rf Hi) as Hn.
  destruct (majorityMatch_spec rf) as (m & Hm & Hin & _); [by rewrite Hlen, (ok_peers n s i rf Hok) | rewrite (ok_peers n s i rf Hok); lia |].
  eexists. apply (leaderUpdate_eval rf m); [|by eapply (local_commit_ok n G P A s) | done |].
  { by apply (node_log_ok G), (li_node G s L i). }
  apply list_elem_of_lookup in Hin as [j Hj]. pose proof (nl_low _ _ (li_node G s L i rf Hi)) as Hlow.
  destruct (Hall j m Hj) as [->|Hack]; [unfold lastIndex; lia |].
  destruct (sf_bound n _ _ _ _ S _ _ _ Hack) as (q & Hq & Hb).
  assert (q = i) as -> by by eapply (elected_unique n). apply Hb; [done | lia].
Qed.

Lemma sends_total i rf :
  nodes s !! i = Some rf -> role rf = Leader -> exists reqs, leaderSendAppendEntriesRPC rf = Done reqs.
Proof.
  intros Hi Hr. destruct (tb_node s T i rf Hi Hr) as [Hsz Hall]. apply (buildRequests_total n); try done.
  { by apply (node_log_ok G), (li_node G s L i). }
  pose proof (inv_node n s I i rf Hi) as Hok. intros j (d & -> & _ & Hd)%(others_spec i); [|apply Hok].
  rewrite (ok_peers n s i rf Hok) in Hd. lia.
Qed.

Lemma run_returns k now rnd i th rf :
  threads s !! k = Some (i, th) -> nodes s !! i = Some rf -> allowed s (ARun k now rnd) ->
  ran (run_thread th now rnd rf) = Done tt.
Proof.
  intros Hk Hi [Hlead _]. specialize (Hlead k now rnd i th rf eq_refl Hk).
  pose proof (inv_node n s I i rf Hi) as Hok. destruct th; cbn [run_thread].
  - by destruct (ticker now rf).
  - done.
  - destruct (toLeader_total rf i) as [rf' ->]; [apply Hok | | done].
    rewrite (ok_peers n s i rf Hok). by eapply node_index.
  - by destruct (leaderTicker rf).
  - destruct (leaderUpdate_total i rf Hi) as [rf' ->]; [by apply Hlead; [left|] | done].
  - destruct (sends_total i rf Hi) as [l ->]; [by apply Hlead; [right; left|] | done].
  - destruct (sends_total i rf Hi) as [l ->]; [by apply Hlead; [right; right|] | done].
Qed.

Lemma return_returns k c ok rf :
  calls s !! k = Some c -> nodes s !! c_src c = Some rf -> ran (respond ok rf (c_rpc c)) = Done tt.
Proof.
  intros Hk Hd. assert (c ∈ calls s) as Hc by (apply list_elem_of_lookup; eauto).
  pose proof (li_call G s L c Hc) as Hcl. pose proof (sf_call n _ _ _ _ S c Hc) as Hsc. pose proof (tb_call s T c Hc) as Htc.
  unfold call_log, safe_call, call_tables in *. destruct (c_rpc c) as [args o|args o|args o]; cbn [respond].
  - done.
  - destruct Hcl as (_ & Hel & _). destruct Htc as (Hsz & Hdst & Hrep).
    pose proof (elected_current G P A s I S _ _ _ Hd Hel).
    set (reply := if ok then default zero_AppendEntriesReply o else zero_AppendEntriesReply).
    destruct (AppendEntriesResponse_total n rf args reply (c_dst c)) as [rf' ->]; try done; [by apply Hsz | lia |].
    subst reply. destruct ok; [destruct o as [r|]|]; cbn [default]; [by intros ?; apply Hrep | intros E; cbn in E; lia..].
  - destruct Hcl as (Hel & _). destruct Htc as (Hsz & Hdst). destruct Hsc as (_ & _ & Hrep).
    pose proof (elected_current G P A s I S _ _ _ Hd Hel).
    set (reply := if ok then default zero_InstallSnapshotReply o else zero_InstallSnapshotReply).
    destruct (InstallSnapshotResponse_total n rf args reply (c_dst c)) as [rf' ->]; try done; [by apply Hsz |].
    subst reply. destruct ok; [destruct o as [r|]|]; cbn [default]; [by intros ?; apply Hrep | intros E; cbn in E; lia..].
Qed.
End panics.

(** C14: the one panic of a sound run.  In every state that is reached by sound steps,
    whatever happens next within the same conditions ([allowed]: a peer that sends log
    entries or updates its commit index as leader still is one, and no request from
    before the first entry, [PrevLogIndex] -1, meets a peer with a snapshot), be it a
    thread, a delivery, an answer or the lack of one, a call of the service or a crash
    and restart: the code runs to its end, or it is the delivery of a snapshot whose last
    entry conflicts with an entry that the receiver has not committed, which panics with
    "log inconsistent!".  The conditions exclude the panic "should found prevLogIndex" of
    a deposed peer that goes on to send ([RaftAppend.buildRequest_returns]). *)
Theorem sound_panics s a r :
  soundly_reachable n s -> allowed s a -> attempt a s = Some r ->
  r = Done tt
  \/ r = Panic "InstallSnapshotRequestHandler ERROR: log inconsistent!"
     /\ exists k now c args o rf e, a = ADeliver k now /\ calls s !! k = Some c /\ c_rpc c = CallIS args o
          /\ nodes s !! c_dst c = Some rf /\ e ∈ log rf /\ le_Index e = isa_LastIncludedIndex args
          /\ le_Term e <> isa_LastIncludedTerm args /\ commitIndex rf < le_Index e.
Proof.
  intros Hs Hal Hat. pose proof (soundly_tables s Hs) as T. destruct (soundly_safe n s Hs) as (I & G & P & A & L & S).
  destruct a; cbn [attempt] in Hat.
  - destruct (threads s !! k) as [[i th]|] eqn:Hk; [|done]. cbn in Hat.
    destruct (nodes s !! i) as [rf|] eqn:Hi; [|done]. injection Hat as <-. left. by eapply run_returns.
  - destruct (calls s !! k) as [c|] eqn:Hk; [|done]. cbn in Hat. destruct (executed (c_rpc c)); [done |].
    destruct (nodes s !! c_dst c) as [rf|] eqn:Hd; [|done]. injection Hat as <-.
    assert (c ∈ calls s) as Hc by (apply list_elem_of_lookup; eauto).
    destruct (c_rpc c) as [args o|args o|args o] eqn:Hr; cbn [serve].
    + by left.
    + left. destruct (append_returns n s c args o rf now Hs Hc Hr Hd) as (rf' & reply & ->); [|done].
      intros. by eapply Hal.
    + destruct (install_returns n s c args o rf now Hs Hc Hr Hd) as [(rf' & reply & ->)|(Hp & e & ?)]; [by left |].
      right. rewrite Hp. split; [done |]. by exists k, now, c, args, o, rf, e.
  - destruct (calls s !! k) as [c|] eqn:Hk; [|done]. cbn in Hat. destruct (ok && negb (executed (c_rpc c))); [done |].
    destruct (nodes s !! c_src c) as [rf|] eqn:Hd; [|done]. injection Hat as <-. left. by eapply return_returns.
  - destruct (nodes s !! i) as [rf|] eqn:Hi; [|done]. injection Hat as <-. left. apply ran_Done.
    eapply (Start_total n); [apply (inv_node n s I i rf Hi) | by eapply node_index |].
    intros Hl. by apply (tb_node s T i rf Hi).
  - destruct (nodes s !! i) as [rf|] eqn:Hi; [|done]. injection Hat as <-. left. apply ran_Done, Snapshot_total.
    + by apply (node_log_ok G), (li_node G s L i).
    + by eapply (local_commit_ok n G P A s).
  - destruct (nodes s !! i) as [rf|] eqn:Hi; [|done]. injection Hat as <-. left.
    apply ran_Done, (Make_total G). by apply (li_node G s L i).
  - destruct (nodes s !! i) as [rf|] eqn:Hi; [|done]. injection Hat as <-. by left.
Qed.
End cluster.
