(* ===== verification/RaftSafetyRuns.v ===== *)
(** Sound runs of three peers, evaluated: one in which an entry is committed by two of
    them and compacted, and one in which a snapshot meets a conflicting log. *)
From S2P Require Import Prelude Persister RaftTypes RaftTools RaftPersist RaftLog RaftLogFacts.
From S2P Require Import RaftReplication RaftElection RaftAppend RaftSnapshot RaftNode RaftCluster.
From S2P Require Import RaftSafety RaftElectionSafety RaftRuns RaftChains RaftLogMatching RaftLogRuns RaftTree.
From S2P Require Import RaftCommit RaftCommitSteps RaftCommitOps RaftStateSafety RaftStateMachine RaftRefinement RaftTables.

(** ** Checking that a run is sound *)

Section sound_run.
Context {C : Type} `{GobLaws C} (n : nat).

Definition acts_as_leader (s : Cluster C) (a : action C) : bool :=
  match a with
  | ARun k _ _ =>
    match threads s !! k with
    | Some (i, ThLeaderUpdate) | Some (i, ThLeaderSend) | Some (i, ThStartSend) =>
      match nodes s !! i with Some rf => role rf =? Leader | None => true end
    | _ => true
    end
  | _ => true
  end.

Definition accepts_after_snapshot (s : Cluster C) (a : action C) : bool :=
  match a with
  | ADeliver k _ =>
    match calls s !! k with
    | Some c =>
      match c_rpc c, nodes s !! c_dst c with
      | CallAE args _, Some rf =>
        (aea_Term args <? currentTerm rf) || (snapshotIndex rf <? 0) || (0 <=? aea_PrevLogIndex args)
      | _, _ => true
      end
    | None => true
    end
  | _ => true
  end.

Definition compacts_committed (s : Cluster C) (a : action C) : bool :=
  match a with
  | ASnapshot i index _ =>
    match nodes s !! i with Some rf => index - 1 <=? commitIndex rf | None => true end
  | _ => true
  end.

Definition soundb (s : Cluster C) (a : action C) (s' : Cluster C) : bool :=
  (careful_votes s s' && careful_lead s a)
  && (acts_as_leader s a && (accepts_after_snapshot s a && compacts_committed s a)).

Fixpoint sound_run (l : list (action C)) (s : Cluster C) : option (Cluster C) :=
  match l with
  | [] => Some s
  | a :: l =>
    s' ← cstep a s;
    if soundb s a s' then sound_run l s' else None
  end.

Lemma sound_check s a s' : soundb s a s' = true -> sound s a s'.
Proof.
  intros [Hc [Hl [Ha Hm]%andb_true_iff]%andb_true_iff]%andb_true_iff.
  split; [by apply careful_check |]. split; [|split].
  - intros k now rnd i th rf -> Hk Hth Hi. cbn in Hl. rewrite Hk in Hl.
    destruct Hth as [-> | [-> | ->]]; rewrite Hi in Hl; by apply Z.eqb_eq.
  - intros k now c args r rf -> Hk Hr Hd Ht Hs. cbn in Ha. rewrite Hk, Hr, Hd in Ha.
    apply orb_true_iff in Ha as [[?%Z.ltb_lt|?%Z.ltb_lt]%orb_true_iff|?%Z.leb_le]; lia.
  - intros i index snap rf -> Hi. cbn in Hm. rewrite Hi in Hm. by apply Z.leb_le.
Qed.

Lemma sound_run_steps l s s' : sound_run l s = Some s' -> rtc sound_next s s'.
Proof.
  revert s; induction l as [|a l IH]; intros s; cbn; [by intros [= <-] |].
  destruct (cstep a s) as [s1|] eqn:E; [|done]. cbn.
  destruct (soundb s a s1) eqn:Hc; [|done]. intros Hrun.
  eapply rtc_l; [|by apply IH]. exists a. split; [done | by apply sound_check].
Qed.

Lemma sound_steps_reach s s' : soundly_reachable n s -> rtc sound_next s s' -> soundly_reachable n s'.
Proof.
  intros Hs Hrun. induction Hrun as [s|s s1 s2 (act & Ha & Ho) _ IH]; [done |].
  apply IH. by eapply sound_step.
Qed.

Lemma sound_run_reaches l s : sound_run l (boot n) = Some s -> soundly_reachable n s.
Proof. intros Hrun%sound_run_steps. by eapply sound_steps_reach; [apply sound_boot |]. Qed.

(** A run is matched step by step under a simulation. *)
Lemma sound_run_simulated (R : Cluster C -> Spec C -> Prop) l s sp s' :
  (forall s sp a s', R s sp -> cstep a s = Some s' -> sound s a s' ->
     exists sp', rtc spec_step sp sp' /\ submitted sp' = submitted sp ++ submits a s /\ R s' sp') ->
  R s sp -> sound_run l s = Some s' -> exists sp', rtc spec_step sp sp' /\ R s' sp'.
Proof.
  intros Hsim HR Hrun%sound_run_steps. revert sp HR.
  induction Hrun as [s|s s1 s2 (a & Ha & Ho) _ IH]; intros sp HR; [by exists sp |].
  destruct (Hsim _ _ _ _ HR Ha Ho) as (sp1 & H1 & _ & HR1). destruct (IH sp1 HR1) as (sp2 & H2 & HR2).
  exists sp2. split; [by etransitivity | done].
Qed.
End sound_run.

(** ** Three peers *)

Module SafetyRuns.
Import ZCodec Runs LogRuns.

(** Peer 0 leads, replicates a command to peer 1 and commits it. *)
Definition commit_0 : list (action Z) :=
  [AStart 0 7; ARun 4 1000 0; ADeliver 0 1000; AReturn 0 true; ARun 3 1000 0; ARun 3 1000 0].
(** It sends again, and peer 1 commits too. *)
Definition commit_at_1 : list (action Z) := [ARun 3 1000 0; ADeliver 1 1000].
(** Peer 0 compacts its log and restarts. *)
Definition restart_0 : list (action Z) := [ASnapshot 0 1 [Byte.x01]; ACrash 0 1000 0].

Definition entry_7 : LogEntry Z := mkLogEntry 1 0 7.
Definition apply_7 : ApplyMsg Z := mkApplyMsg true (Some 7) 1 false [] 0 0.

Lemma both_commit : exists s, sound_run (elect_0 ++ commit_0 ++ commit_at_1) (boot 3) = Some s
  /\ exists r0 r1, nodes s !! 0%nat = Some r0 /\ nodes s !! 1%nat = Some r1
    /\ log r0 = [entry_7] /\ log r1 = [entry_7] /\ commitIndex r0 = 0 /\ commitIndex r1 = 0
    /\ role r0 = Leader /\ snapshotIndex r0 = -1 /\ (stored r1).1 = 1 /\ currentTerm r0 = 1.
Proof. eexists. split; [vm_compute; reflexivity |]. eexists _, _. vm_compute. repeat split; reflexivity. Qed.

(** After that run 7 is the first command of the specification's log. *)
Lemma cluster_refines_log_witness :
  exists s sp, soundly_reachable (C := Z) 3 s /\ rtc spec_step (mkSpec [] []) sp
    /\ implements s sp /\ agreed sp !! 0%nat = Some 7.
Proof.
  destruct both_commit as (s & Hrun & r0 & r1 & H0 & _ & L0 & _ & C0 & _).
  destruct (cluster_refines_log (C := Z) 3) as (R & Hb & Himp & Hsim).
  destruct (sound_run_simulated R _ _ _ s Hsim Hb Hrun) as (sp & Hsp & HR).
  apply (sound_run_reaches 3) in Hrun. exists s, sp.
  split; [done |]. split; [done |]. split; [by apply Himp |].
  destruct (Himp s sp HR 0%nat r0 H0) as (_ & Hlog & _). apply (Hlog entry_7); [rewrite L0; left | cbn; lia].
Defined.

Lemma state_machine_safety_witness :
  exists s r0 r1, soundly_reachable (C := Z) 3 s
    /\ nodes s !! 0%nat = Some r0 /\ nodes s !! 1%nat = Some r1
    /\ entry_7 ∈ log r0 /\ entry_7 ∈ log r1 /\ entry_7 = entry_7.
Proof.
  destruct both_commit as (s & Hrun & r0 & r1 & H0 & H1 & L0 & L1 & C0 & C1 & _).
  apply (sound_run_reaches 3) in Hrun. exists s, r0, r1.
  assert (entry_7 ∈ log r0) as Ha by (rewrite L0; left).
  assert (entry_7 ∈ log r1) as Hb by (rewrite L1; left).
  split; [done |]. split; [done |]. split; [done |]. split; [done |]. split; [done |].
  apply (state_machine_safety 3 s 0 1 r0 r1 entry_7 entry_7); try done; cbn; lia.
Defined.

Lemma leader_completeness_witness :
  exists s r0 r1, soundly_reachable (C := Z) 3 s
    /\ nodes s !! 0%nat = Some r0 /\ nodes s !! 1%nat = Some r1
    /\ role r0 = Leader /\ entry_7 ∈ log r1 /\ entry_7 ∈ log r0.
Proof.
  destruct both_commit as (s & Hrun & r0 & r1 & H0 & H1 & L0 & L1 & C0 & C1 & R0 & S0 & T1 & T0).
  apply (sound_run_reaches 3) in Hrun. exists s, r0, r1.
  assert (entry_7 ∈ log r1) as Hb by (rewrite L1; left).
  split; [done |]. split; [done |]. split; [done |]. split; [done |]. split; [done |].
  apply (leader_completeness 3 s 0 1 r0 r1 entry_7); rewrite ?C1, ?T1, ?T0, ?S0; done.
Defined.

(** Peer 0 hands over the command, restarts, and later peer 1 hands it over. *)
Lemma services_agree_witness :
  exists s s' r0 r1, soundly_reachable (C := Z) 3 s /\ rtc sound_next s s'
    /\ nodes s !! 0%nat = Some r0 /\ nodes s' !! 1%nat = Some r1
    /\ apply_7 ∈ messages r0 /\ apply_7 ∈ messages r1 /\ am_Command apply_7 = am_Command apply_7.
Proof.
  assert (exists s, sound_run (elect_0 ++ commit_0) (boot 3) = Some s
    /\ exists s', sound_run (commit_at_1 ++ restart_0) s = Some s'
    /\ exists r0 r1, nodes s !! 0%nat = Some r0 /\ nodes s' !! 1%nat = Some r1
      /\ messages r0 = [apply_7] /\ messages r1 = [apply_7])
    as (s & Hrun & s' & Hrun' & r0 & r1 & H0 & H1 & M0 & M1).
  { eexists. split; [vm_compute; reflexivity |]. eexists. split; [vm_compute; reflexivity |].
    eexists _, _. vm_compute. repeat split; reflexivity. }
  apply (sound_run_reaches 3) in Hrun. apply sound_run_steps in Hrun'.
  assert (apply_7 ∈ messages r0) as Hm by (rewrite M0; left).
  assert (apply_7 ∈ messages r1) as Hm' by (rewrite M1; left).
  exists s, s', r0, r1. split; [done |]. split; [done |]. split; [done |]. split; [done |].
  split; [done |]. split; [done |].
  exact (services_agree 3 s s' 0 1 r0 r1 apply_7 apply_7 Hrun Hrun' H0 H1 Hm Hm' eq_refl eq_refl eq_refl).
Defined.

(** Peer 1, leader of term 2, compacts what it has committed and sends its log again;
    peer 0 still has the command it accepted as leader of term 1. *)
Definition snapshot_1 : list (action Z) := [ASnapshot 1 1 [Byte.x01]; ARun 5 2000 0].

Lemma snapshot_meets_log :
  exists s, sound_run (elect_0 ++ depose_0 ++ commit_1 ++ snapshot_1) (boot 3) = Some s
  /\ exists c args rf, calls s !! 1%nat = Some c /\ c_rpc c = CallIS args None
    /\ nodes s !! c_dst c = Some rf /\ cstep (ADeliver 1 2000) s = None
    /\ InstallSnapshotRequestHandler 2000 rf args zero_InstallSnapshotReply
         = Panic "InstallSnapshotRequestHandler ERROR: log inconsistent!".
Proof. eexists. split; [vm_compute; reflexivity |]. eexists _, _, _. vm_compute. repeat split; reflexivity. Qed.

(** The next delivery of that run panics. *)
Lemma sound_panics_witness :
  exists s, soundly_reachable (C := Z) 3 s
    /\ allowed s (ADeliver 1 2000) /\ attempt (ADeliver 1 2000) s
         = Some (Panic "InstallSnapshotRequestHandler ERROR: log inconsistent!")
    /\ exists e c args rf, calls s !! 1%nat = Some c /\ c_rpc c = CallIS args None
         /\ nodes s !! c_dst c = Some rf /\ e ∈ log rf /\ le_Index e = isa_LastIncludedIndex args
         /\ le_Term e <> isa_LastIncludedTerm args /\ commitIndex rf < le_Index e.
Proof.
  destruct snapshot_meets_log as (s & Hrun & c & args & rf & Hc & Hr & Hd & _ & Hp).
  apply (sound_run_reaches 3) in Hrun. exists s.
  assert (allowed s (ADeliver 1 2000)) as Hal.
  { split; [by intros ? ? ? ? ? ? [=] |]. intros k now c0 args0 r0 rf0 [= <- <-] Hc0 Hr0. simplify_eq. congruence. }
  assert (attempt (ADeliver 1 2000) s = Some (Panic "InstallSnapshotRequestHandler ERROR: log inconsistent!")) as Hat.
  { cbn [attempt]. rewrite Hc. cbn. rewrite Hr. cbn. rewrite Hd. cbn. by rewrite Hp. }
  split; [done |]. split; [done |]. split; [done |].
  destruct (sound_panics 3 s (ADeliver 1 2000) _ Hrun Hal Hat) as [[=]|(_ & k & now & c' & args' & o & rf' & e & Ha & H1 & H2 & H3 & H4)].
  injection Ha as <- <-. rewrite Hc in H1. injection H1 as <-. rewrite Hr in H2. injection H2 as <- <-.
  exists e, c, args, rf'. done.
Defined.

(** C15: a snapshot that meets a conflicting uncommitted entry brings the server down.
    In a sound run, a peer that was deposed with an entry it had not replicated gets the
    snapshot of the next leader, whose last entry replaces that one: the handler panics,
    where the Raft paper has the receiver discard its log. *)
Theorem conflicting_log_panics : exists s, soundly_reachable (C := Z) 3 s /\
  exists c args rf, c ∈ calls s /\ c_rpc c = CallIS args None /\ nodes s !! c_dst c = Some rf
    /\ InstallSnapshotRequestHandler 2000 rf args zero_InstallSnapshotReply
         = Panic "InstallSnapshotRequestHandler ERROR: log inconsistent!".
Proof.
  destruct snapshot_meets_log as (s & Hrun & c & args & rf & Hc & Hr & Hd & _ & Hp).
  apply (sound_run_reaches 3) in Hrun. exists s. split; [done |].
  exists c, args, rf. split; [apply list_elem_of_lookup; eauto | done].
Qed.
End SafetyRuns.
