(* ===== verification/ApplyBuffer.v ===== *)
(** The hand-over buffer between a peer and its service: [putApplyChBuffer] and
    [getApplyChBuffer] of [src/raft/raft.go], with their mutex and condition variable.

    [RaftTypes.pendingPuts] lists the goroutines started with [go
    rf.putApplyChBuffer(msgs)]; here they run.  One step is what a goroutine does from
    taking [applyChMu] to giving it up or to [Wait].  The reader sends on [applyCh] while
    it holds the mutex, so a whole buffer is handed over in one step; the service is
    assumed to receive.  [Signal] wakes one waiting goroutine; which one is an argument
    of the step. *)
From S2P Require Import Prelude.

Section buffer.
Context {M : Type}.

(** A writer with its batch, or the reader: at the head of its loop, or in the inner
    loop after [Wait]. *)
Inductive worker := Writer (msgs : list M) | ReaderHead | ReaderInner.

(** [arrived]: the batches in the order in which the goroutines were started;
    [delivered]: what was sent on [applyCh].  Both are history. *)
Record Buffer := mkBuffer {
  ab_killed : bool;
  ab_buffer : list M;
  runnable : list worker;
  waiting : list worker;
  arrived : list (list M);
  delivered : list M }.

#[export] Instance eta_Buffer : Eta Buffer := fun b =>
  mkBuffer (ab_killed b) (ab_buffer b) (runnable b) (waiting b) (arrived b) (delivered b).

(** [applyChCond.Signal()], waking the [w]-th waiter; nothing if there is none. *)
Definition signal (w : nat) (b : Buffer) : option Buffer :=
  match waiting b with
  | [] => Some b
  | _ =>
    x ← waiting b !! w;
    Some (b <| waiting := delete w (waiting b) |> <| runnable := runnable b ++ [x] |>)
  end.

Definition wait (x : worker) (b : Buffer) : Buffer := b <| waiting := waiting b ++ [x] |>.

(** The body of [putApplyChBuffer] from the test of its loop. *)
Definition putApplyChBuffer (msgs : list M) (w : nat) (b : Buffer) : option Buffer :=
  match ab_buffer b with
  | _ :: _ => Some (wait (Writer msgs) b)
  | [] => signal w (b <| ab_buffer := ab_buffer b ++ msgs |>)
  end.

(** The body of [getApplyChBuffer] from the test of its inner loop; after it the reader
    is at the head of its outer loop again. *)
Definition getApplyChBuffer (w : nat) (b : Buffer) : option Buffer :=
  match ab_buffer b with
  | [] => Some (wait ReaderInner b)
  | msgs =>
    b ← signal w (b <| delivered := delivered b ++ msgs |> <| ab_buffer := [] |>);
    Some (b <| runnable := runnable b ++ [ReaderHead] |>)
  end.

Inductive baction :=
| BSpawn (msgs : list M)          (* [go rf.putApplyChBuffer(msgs)] *)
| BRun (k w : nat)                (* the [k]-th runnable goroutine takes the mutex *)
| BKill.

Definition bstep (a : baction) (b : Buffer) : option Buffer :=
  match a with
  | BSpawn msgs => Some (b <| runnable := runnable b ++ [Writer msgs] |>
                           <| arrived := arrived b ++ [msgs] |>)
  | BRun k w =>
    x ← runnable b !! k;
    let b := b <| runnable := delete k (runnable b) |> in
    match x with
    | Writer msgs => putApplyChBuffer msgs w b
    | ReaderHead => if ab_killed b then Some b else getApplyChBuffer w b
    | ReaderInner => getApplyChBuffer w b
    end
  | BKill => Some (b <| ab_killed := true |>)
  end.

(** [Make] leaves [start] in the buffer and starts the reader. *)
Definition opened (start : list M) : Buffer := mkBuffer false start [ReaderHead] [] [start] [].

Inductive breach (start : list M) : Buffer -> Prop :=
| breach_open : breach start (opened start)
| breach_step b a b' : breach start b -> bstep a b = Some b' -> breach start b'.

Fixpoint brun (l : list baction) (b : Buffer) : option Buffer :=
  match l with [] => Some b | a :: l => b' ← bstep a b; brun l b' end.

Lemma breach_run start b l b' : breach start b -> brun l b = Some b' -> breach start b'.
Proof.
  revert b; induction l as [|a l IH]; intros b Hb Hr; cbn in Hr; simplify_eq; [done |].
  destruct (bstep a b) as [b1|] eqn:E; [|done]. eapply IH; [|exact Hr]. by eapply breach_step.
Qed.
End buffer.
Arguments worker M : clear implicits.
Arguments Buffer M : clear implicits.
Arguments baction M : clear implicits.
#[export] Hint Constructors breach : core.

(** ** No loss and no duplication *)

Section conservation.
Context {M : Type}.
Implicit Types (b : Buffer M).

Definition batch_of (x : worker M) : option (list M) :=
  match x with Writer msgs => Some msgs | _ => None end.
Definition batches (l : list (worker M)) : list (list M) := omap batch_of l.

#[export] Instance batches_proper : Proper ((≡ₚ) ==> (≡ₚ)) batches.
Proof. intros l1 l2 Hl. unfold batches. by rewrite Hl. Qed.

Lemma batches_app l1 l2 : batches (l1 ++ l2) = batches l1 ++ batches l2.
Proof. apply omap_app. Qed.

(** The batches that are still with their goroutines. *)
Definition carried b : list (list M) := batches (runnable b ++ waiting b).

Lemma signal_workers w b b' :
  signal w b = Some b' -> runnable b' ++ waiting b' ≡ₚ runnable b ++ waiting b
    /\ ab_buffer b' = ab_buffer b /\ delivered b' = delivered b /\ arrived b' = arrived b
    /\ ab_killed b' = ab_killed b.
Proof.
  unfold signal. destruct (waiting b) as [|y l] eqn:E; [intros [= <-]; by rewrite E |].
  destruct ((y :: l) !! w) as [x|] eqn:Hx; [|done]. intros [= <-]. cbn [runnable waiting ab_buffer
    delivered arrived ab_killed set_field]. split; [|done]. cbn.
  apply delete_Permutation in Hx. rewrite <- app_assoc. apply Permutation_app_head. by symmetry.
Qed.

(** Every started batch is delivered, in the buffer, or with its goroutine; and the
    delivered messages are whole batches one after another. *)
Definition conserved b : Prop :=
  exists given held, delivered b = concat given /\ ab_buffer b = concat held
    /\ arrived b ≡ₚ given ++ held ++ carried b.

Lemma get_conserved w b b' given held :
  delivered b = concat given -> ab_buffer b = concat held ->
  arrived b ≡ₚ given ++ held ++ carried b -> getApplyChBuffer w b = Some b' -> conserved b'.
Proof.
  intros Hd Hb Ha Hg. unfold getApplyChBuffer in Hg. unfold carried in *.
  destruct (ab_buffer b) as [|m ms] eqn:Hbuf.
  - injection Hg as <-. exists given, held. cbn. rewrite Hbuf. split; [done |]. split; [done |].
    unfold carried. cbn. rewrite Ha, !batches_app. cbn. by rewrite app_nil_r.
  - destruct (signal w _) as [b3|] eqn:Hsig; [|done]. cbn in Hg. injection Hg as <-.
    apply signal_workers in Hsig as (Hp & Hb3 & Hd3 & Ha3 & _). cbn in Hp, Hb3, Hd3, Ha3.
    exists (given ++ held), []. unfold carried. cbn. rewrite Hd3, Hb3, Ha3.
    split; [by rewrite concat_app, Hd, Hb |]. split; [done |].
    rewrite Ha, <- Hp, !batches_app. cbn. rewrite app_nil_r. solve_Permutation.
Qed.

Lemma put_conserved msgs w b b' given held :
  delivered b = concat given -> ab_buffer b = concat held ->
  arrived b ≡ₚ given ++ held ++ msgs :: carried b -> putApplyChBuffer msgs w b = Some b' ->
  conserved b'.
Proof.
  intros Hd Hb Ha Hs. unfold putApplyChBuffer in Hs. unfold carried in *.
  destruct (ab_buffer b) as [|m ms] eqn:Hbuf.
  - apply signal_workers in Hs as (Hp & Hb3 & Hd3 & Ha3 & _). cbn in Hp, Hb3, Hd3, Ha3.
    exists (given ++ held), [msgs]. unfold carried. rewrite Hd3, Hb3, Ha3, Hp.
    split; [by rewrite concat_app, Hd, <- Hb, app_nil_r |]. split; [cbn; by rewrite app_nil_r |].
    rewrite Ha. solve_Permutation.
  - injection Hs as <-. exists given, held. unfold carried. cbn. rewrite Hbuf.
    split; [done |]. split; [done |]. rewrite Ha, !batches_app. cbn. solve_Permutation.
Qed.

Lemma bstep_conserved a b b' : conserved b -> bstep a b = Some b' -> conserved b'.
Proof.
  intros (given & held & Hd & Hb & Ha) Hs. destruct a as [msgs|k w|]; cbn in Hs.
  - injection Hs as <-. exists given, held. split; [done |]. split; [done |].
    unfold carried in *. cbn. rewrite Ha, !batches_app. cbn. solve_Permutation.
  - destruct (runnable b !! k) as [x|] eqn:Hk; [|done]. cbn in Hs.
    apply delete_Permutation in Hk. unfold carried in Ha. rewrite Hk in Ha.
    set (b1 := b <| runnable := delete k (runnable b) |>) in *.
    change (arrived b) with (arrived b1) in Ha.
    change ((x :: delete k (runnable b)) ++ waiting b) with (x :: runnable b1 ++ waiting b1) in Ha.
    destruct x as [msgs| |]; cbn [batches omap list_omap batch_of] in Ha.
    + by apply (put_conserved msgs w b1 b' given held).
    + change ((if ab_killed b1 then Some b1 else getApplyChBuffer w b1) = Some b') in Hs.
      destruct (ab_killed b1); [injection Hs as <-; by exists given, held | by apply (get_conserved w b1 b' given held)].
    + by apply (get_conserved w b1 b' given held).
  - injection Hs as <-. by exists given, held.
Qed.

Lemma breach_conserved start b : breach start b -> conserved b.
Proof.
  induction 1 as [|b a b' _ IH Hs]; [|by eapply bstep_conserved].
  exists [], [start]. split; [done |]. split; [cbn; by rewrite app_nil_r | done].
Qed.
End conservation.

(** ** The lost wake-up *)

Section stall.
Context {M : Type}.
Implicit Types (b : Buffer M).

(** The buffer is full and the reader sleeps: only writers are left to run. *)
Definition stalled b : Prop :=
  ab_buffer b <> [] /\ forall x, x ∈ runnable b -> exists msgs, x = Writer msgs.

Lemma stalled_step a b b' :
  stalled b -> bstep a b = Some b' -> stalled b' /\ delivered b' = delivered b.
Proof.
  intros [Hf Hw] Hs. destruct a as [msgs|k w|]; cbn in Hs.
  - injection Hs as <-. split; [|done]. split; [done |]. cbn.
    intros x [Hx|Hx%list_elem_of_singleton]%elem_of_app; [by apply Hw | by exists msgs].
  - destruct (runnable b !! k) as [x|] eqn:Hk; [|done]. cbn in Hs.
    destruct (Hw x) as [msgs ->]; [apply list_elem_of_lookup; eauto |].
    unfold putApplyChBuffer in Hs. cbn in Hs. destruct (ab_buffer b) as [|m ms] eqn:Hb; [done |].
    injection Hs as <-. split; [|done]. split; [cbn; by rewrite Hb |].
    intros x Hx%list_elem_of_delete_inv. by apply Hw.
  - injection Hs as <-. done.
Qed.

Lemma stalled_run l b b' : stalled b -> brun l b = Some b' -> delivered b' = delivered b.
Proof.
  revert b; induction l as [|a l IH]; intros b Hst Hr; cbn in Hr; simplify_eq; [done |].
  destruct (bstep a b) as [b1|] eqn:E; [|done]. destruct (stalled_step _ _ _ Hst E) as [Hst1 <-].
  by apply IH.
Qed.
End stall.

(** ** One batch at a time *)

Inductive reader {M} : worker M -> Prop :=
| reader_head : reader ReaderHead
| reader_inner : reader ReaderInner.

Ltac open_reader := repeat match goal with
  | H : reader _ |- _ => inversion H; subst; clear H
  end.

Section serial.
Context {M : Type}.
Implicit Types (b : Buffer M).

(** A batch is started only when the one before it has reached the buffer. *)
Definition serial b (a : baction M) : Prop :=
  match a with BSpawn _ => carried b = [] | BRun _ _ => True | BKill => False end.

Inductive serially (start : list M) : Buffer M -> Prop :=
| serially_open : serially start (opened start)
| serially_step b a b' :
    serially start b -> serial b a -> bstep a b = Some b' -> serially start b'.

(** The shapes of the two queues: buffer, runnable, waiting, and the batch on its way. *)
Inductive shape : list M -> list (worker M) -> list (worker M) -> list (list M) -> Prop :=
| sh_idle buf r : reader r -> shape buf [r] [] []
| sh_sleep : shape [] [] [ReaderInner] []
| sh_start buf r m : reader r -> shape buf [r; Writer m] [] [m]
| sh_start' buf r m : reader r -> shape buf [Writer m; r] [] [m]
| sh_alone m : shape [] [Writer m] [ReaderInner] [m]
| sh_wait x buf r m : reader r -> shape (x :: buf) [r] [Writer m] [m].

Definition serial_ok b : Prop :=
  ab_killed b = false /\ shape (ab_buffer b) (runnable b) (waiting b) (carried b)
  /\ concat (arrived b) = delivered b ++ ab_buffer b ++ concat (carried b).

Lemma serial_ok_step a b b' : serial_ok b -> serial b a -> bstep a b = Some b' -> serial_ok b'.
Proof.
  destruct b as [killed buf run wt arr del]. unfold serial_ok, carried. cbn.
  intros (-> & Hsh & Hc) Ha Hs. destruct a as [msgs|k w|]; [| |done]; cbn in *.
  - injection Hs as <-. cbn. rewrite concat_app, Hc. split; [done |].
    inversion Hsh; subst; open_reader; cbn in *; try done;
      (split; [by repeat constructor | by rewrite ?app_nil_r, <- ?app_assoc]).
  - inversion Hsh as [? r Hr| |? r m Hr|? r m Hr|m|x ? r m Hr]; subst; open_reader;
      cbn in Hc; destruct k as [|[|k]]; cbn in Hs; try done.
    all: try (unfold getApplyChBuffer, putApplyChBuffer, signal, wait in Hs; cbn in Hs;
      destruct buf as [|x0 buf0]; cbn in Hs).
    all: try (destruct w as [|w]; cbn in Hs).
    all: simplify_eq; cbn in *; rewrite ?app_nil_r, <- ?app_assoc in *; cbn in *.
    all: (split; [done |]; split; [by repeat constructor | done]).
Qed.
End serial.

(** ** The properties of the component *)

(** Complete a state by running the first runnable goroutine [n] times. *)
Ltac run_by H n :=
  eapply (H (replicate n (BRun 0 0))); [reflexivity
    | cbn; repeat first [apply Forall_nil_2 | apply Forall_cons_2; [by eexists _, _ |]]
    | cbn; by rewrite ?app_nil_r, <- ?app_assoc].

Section theorems.
Context {M : Type}.
Implicit Types (b : Buffer M).

(** C19: however the goroutines interleave, no message is lost, duplicated or split
    from its batch: what has been sent on [applyCh] is a sequence of whole batches,
    the buffer holds whole batches, and together with the batches still carried by
    goroutines they are exactly the batches that were started. *)
Theorem apply_batches_conserved (start : list M) b :
  breach start b -> exists given held,
    delivered b = concat given /\ ab_buffer b = concat held
    /\ arrived b ≡ₚ given ++ held ++ carried b.
Proof. apply breach_conserved. Qed.

(** C20: if a batch is started only when the previous one is in the buffer, and the peer
    is not killed, batches are delivered in the order in which they were started, and
    never get stuck: from every such state some further steps of the goroutines deliver
    everything. *)
Theorem serial_batches_delivered (start : list M) b :
  serially start b ->
  (exists rest, concat (arrived b) = delivered b ++ rest)
  /\ exists l b', brun l b = Some b' /\ (forall a, a ∈ l -> exists k w, a = BRun k w)
     /\ delivered b' = concat (arrived b).
Proof.
  intros Hser. assert (serial_ok b) as (Hk & Hsh & Hc).
  { induction Hser as [|b a b' _ IH Ha Hs]; [|by eapply serial_ok_step].
    split; [done |]. split; [by repeat constructor | cbn; by rewrite !app_nil_r]. }
  clear Hser. split; [eauto |]. destruct b as [killed buf run wt arr del].
  unfold carried in *. cbn in *. subst killed.
  assert (forall (l : list (baction M)) b',
    brun l (mkBuffer false buf run wt arr del) = Some b' ->
    Forall (fun a => exists k w, a = BRun k w) l -> delivered b' = concat arr ->
    exists l b', brun l (mkBuffer false buf run wt arr del) = Some b'
      /\ (forall a, a ∈ l -> exists k w, a = BRun k w) /\ delivered b' = concat arr) as Hrun.
  { intros l b' ? Hl ?. exists l, b'. split; [done |]. split; [by apply Forall_forall | done]. }
  rewrite Hc in *.
  inversion Hsh as [? r Hr| |? r m Hr|? r m Hr|m|x ? r m Hr]; subst; open_reader;
    cbn in *; rewrite ?app_nil_r in *.
  all: try (destruct buf as [|x buf]); try (destruct m as [|y m]); cbn in *; rewrite ?app_nil_r in *.
  all: first [run_by Hrun 0%nat | run_by Hrun 1%nat | run_by Hrun 2%nat | run_by Hrun 3%nat
    | run_by Hrun 4%nat].
Qed.

(** C21 (a lost wake-up): [Signal] on the one condition variable that writers and
    reader share may wake a writer instead of the reader.  With three batches in
    flight, and waking always the goroutine that has waited longest, the program
    reaches a state from which nothing is ever delivered again, whatever runs and
    whatever is committed later. *)
Theorem lost_wakeup (m1 m2 m3 : M) : exists b,
  breach [] b /\ arrived b = [[]; [m1]; [m2]; [m3]] /\ delivered b = [m1]
  /\ forall l b', brun l b = Some b' -> delivered b' = [m1].
Proof.
  pose (run := [BSpawn [m1]; BSpawn [m2]; BSpawn [m3]; BRun 1 0; BRun 1 0; BRun 1 0; BRun 0 0;
    BRun 1 0; BRun 0 0; BRun 0 0] : list (baction M)).
  pose (b := mkBuffer false [m2] [] [ReaderInner; Writer [m3]] [[]; [m1]; [m2]; [m3]] [m1]).
  exists b. split; [|split; [done |]; split; [done |]].
  - by apply (breach_run [] (opened []) run); [apply breach_open |].
  - intros l b' Hr. apply (stalled_run l b b'); [|done]. split; [done |]. by intros x ?%elem_of_nil.
Qed.

(** Goroutines started one after the other may reach the buffer in
    the other order, so the batch committed last can be delivered first. *)
Theorem batches_reordered (m1 m2 : M) : exists b,
  breach [] b /\ arrived b = [[]; [m1]; [m2]] /\ delivered b = [m2; m1].
Proof.
  eexists. split; [|split].
  - apply (breach_run [] (opened [])
      [BSpawn [m1]; BSpawn [m2]; BRun 2 0; BRun 0 0; BRun 0 0; BRun 0 0]); [apply breach_open | reflexivity].
  - reflexivity.
  - reflexivity.
Qed.
End theorems.

(** A run that meets the hypothesis: one batch, delivered, then a second one. *)
Lemma serial_batches_delivered_witness :
  exists b : Buffer nat, serially [] b
    /\ ((exists rest, concat (arrived b) = delivered b ++ rest)
        /\ exists l b', brun l b = Some b' /\ (forall a, a ∈ l -> exists k w, a = BRun k w)
             /\ delivered b' = concat (arrived b)).
Proof.
  assert (serially [] (mkBuffer false [] [ReaderHead; Writer [1%nat]] [] [[]; [1%nat]] [])) as H1.
  { apply (serially_step [] (opened []) (BSpawn [1%nat])); [apply serially_open | reflexivity | reflexivity]. }
  assert (serially [] (mkBuffer false [1%nat] [ReaderHead] [] [[]; [1%nat]] [])) as H2.
  { by apply (serially_step [] _ (BRun 1 0) _ H1). }
  set (b := mkBuffer false [1%nat] [ReaderHead; Writer [2%nat]] [] [[]; [1%nat]; [2%nat]] []).
  assert (serially [] b) as Hb by by apply (serially_step [] _ (BSpawn [2%nat]) _ H2).
  exists b. split; [exact Hb | exact (serial_batches_delivered [] b Hb)].
Defined.

Lemma apply_batches_conserved_witness :
  exists b : Buffer nat, breach [] b /\ exists given held,
    delivered b = concat given /\ ab_buffer b = concat held /\ arrived b ≡ₚ given ++ held ++ carried b.
Proof.
  assert (exists b : Buffer nat, breach [] b) as (b & Hb).
  { eexists. eapply (breach_run [] (opened []) [BSpawn [1%nat]; BSpawn [2%nat]; BRun 2 0]);
      [apply breach_open | reflexivity]. }
  exists b. split; [exact Hb | exact (apply_batches_conserved [] b Hb)].
Defined.
