(* ===== verification/RaftWitnesses.v ===== *)
(** Concrete peers on which the hypotheses of the single-peer theorems hold.  Commands
    are integers, the codec is that of [RaftPersist.ZCodec]. *)
From S2P Require Import Prelude Persister RaftTypes RaftTools RaftPersist RaftLog RaftLogFacts.
From S2P Require Import RaftReplication RaftElection RaftAppend RaftSnapshot RaftNode RaftCluster.
From S2P Require Import RaftSafety.
Import ZCodec.

(** ** Samples *)

Definition entry0 : LogEntry Z := mkLogEntry 1 0 7.
Definition entry1 : LogEntry Z := mkLogEntry 1 1 8.
Definition entry1' : LogEntry Z := mkLogEntry 2 1 9.

(** Peer 1 of three, in term 2, with the snapshot index [si] (term 1) and log [l]. *)
Definition peer (id r si ci : Z) (l : list (LogEntry Z)) (ni mi : list Z) : Raft Z :=
  persist (mkRaft 3 MakePersister id 0 2 (-1) l ci ci ni mi r 0 250 1 0 false [] []
    [x01] si 1).

Definition follower : Raft Z := peer 1 Follower (-1) (-1) [entry0; entry1] [] [].
Definition leader : Raft Z := peer 0 Leader (-1) 0 [entry0; entry1'] [2; 2; 1] [1; 1; -1].
Definition candidate : Raft Z := peer 0 Candidate (-1) 0 [entry0] [] [].
Definition compact : Raft Z := peer 1 Follower 0 1 [entry1] [] [].

Lemma log_ok_nil si (rf : Raft Z) : snapshotIndex rf = si -> log rf = [] -> log_ok rf.
Proof. intros Hs Hl. unfold log_ok. rewrite Hl. apply consecutive_nil. Qed.

Ltac sample_log :=
  match goal with |- log_ok _ => unfold log_ok | _ => idtac end;
  let i := fresh "i" in let e := fresh "e" in let H := fresh "H" in
  intros i e H; cbn in H; repeat (destruct i as [|i]; [injection H as <-; cbn; lia | cbn in H]); done.

Lemma follower_log : log_ok follower.
Proof. sample_log. Qed.
Lemma leader_log : log_ok leader.
Proof. sample_log. Qed.
Lemma candidate_log : log_ok candidate.
Proof. sample_log. Qed.
Lemma compact_log : log_ok compact.
Proof. sample_log. Qed.
Lemma follower_commit : commit_ok follower.
Proof. by split. Qed.
Lemma leader_commit : commit_ok leader.
Proof. by split. Qed.
Lemma compact_commit : commit_ok compact.
Proof. by split. Qed.

(** An AppendEntries request that replaces the follower's second entry. *)
Definition replace1 : AppendEntriesArgs Z := mkAppendEntriesArgs 2 0 0 1 [entry1'] 0.

Lemma replace1_ok : request_ok follower replace1.
Proof.
  split; [done |]. split; [done |]. split; [done |]. split; [sample_log |].
  intros a b Ha ->%list_elem_of_singleton. cbn in Ha. rewrite !elem_of_cons in Ha.
  destruct Ha as [->|[->|?%elem_of_nil]]; cbn; done.
Qed.

(** A request whose previous entry conflicts with the follower's. *)
Definition conflict1 : AppendEntriesArgs Z := mkAppendEntriesArgs 2 0 1 2 [] 0.

Lemma conflict1_ok : request_ok follower conflict1.
Proof.
  split; [done |]. split; [done |]. split; [done |]. split; [apply consecutive_nil |].
  by intros a b _ ?%elem_of_nil.
Qed.

(** ** Replication *)

Lemma followerHandleLog_refines_witness :
  log_ok follower /\ request_ok follower replace1 /\
  exists reply', followerHandleLog follower replace1 zero_AppendEntriesReply =
      Done (follower <| log := snd (receiver_rules follower replace1) |>, reply')
    /\ aer_Success reply' = fst (receiver_rules follower replace1)
    /\ aer_Term reply' = 0 /\ aer_ServerId reply' = 0.
Proof.
  split; [apply follower_log |]. split; [apply replace1_ok |].
  exact (followerHandleLog_refines follower replace1 zero_AppendEntriesReply follower_log replace1_ok).
Defined.

Lemma followerHandleLog_reject_hint_witness :
  exists rf' reply', followerHandleLog follower conflict1 zero_AppendEntriesReply = Done (rf', reply')
    /\ aer_Success reply' = false /\ snapshotIndex follower < aer_XIndex reply' <= aea_PrevLogIndex conflict1
    /\ (aer_XTerm reply' = -1 \/
        (aer_XTerm reply' <> aea_PrevLogTerm conflict1 /\
         exists e, e ∈ log follower /\ le_Index e = aer_XIndex reply' /\ le_Term e = aer_XTerm reply')).
Proof.
  eexists _, _. split; [reflexivity |]. split; [reflexivity |].
  eapply (followerHandleLog_reject_hint follower conflict1 zero_AppendEntriesReply);
    [apply follower_log | apply conflict1_ok | reflexivity | reflexivity].
Defined.

Definition accepted : AppendEntriesReply := mkAppendEntriesReply 2 true 2 (-1) (-1) 2.
Definition send1 : AppendEntriesArgs Z := mkAppendEntriesArgs 2 0 0 1 [entry1'] 0.

Lemma leaderHandleLog_success_witness :
  leaderHandleLog leader send1 accepted =
    Done (leader <| nextIndex := [2; 2; 2] |> <| matchIndex := [1; 1; 1] |>).
Proof. apply (leaderHandleLog_success leader send1 accepted); [cbn; lia | done | done | done]. Defined.

Definition rejected : AppendEntriesReply := mkAppendEntriesReply 2 false 1 1 0 2.

Lemma leader_terms : terms_sorted (log leader).
Proof.
  intros [|[|i]] [|[|j]] a b Hij Ha Hb; cbn in Ha, Hb; simplify_eq; cbn; lia.
Qed.

Lemma leaderHandleLog_backs_up_witness :
  exists next', next' <= 1 /\ leaderHandleLog leader (mkAppendEntriesArgs 2 0 1 2 [] 0) rejected =
    Done (leader <| nextIndex := <[1%nat := next']> (nextIndex leader) |>).
Proof.
  apply (leaderHandleLog_backs_up leader (mkAppendEntriesArgs 2 0 1 2 [] 0) rejected entry1');
    [apply leader_log | apply leader_terms | cbn; lia | done | done | done | right; by left | done | done].
Defined.

Lemma followerUpdateCommitIndex_spec_witness :
  exists rf', followerUpdateCommitIndex follower 5 = Done rf' /\ commitIndex rf' = 1 /\ commit_ok rf'.
Proof.
  destruct (followerUpdateCommitIndex_spec follower 5 follower_log follower_commit)
    as (rf' & Hr & Hc & Hok & _).
  exists rf'. split; [exact Hr |]. split; [exact Hc | exact Hok].
Defined.

Lemma leaderUpdateCommitIndex_spec_witness :
  exists rf', leaderUpdateCommitIndex leader = Done rf' /\ commit_ok rf' /\ commitIndex rf' = 1.
Proof.
  destruct (leaderUpdateCommitIndex_spec leader) as (rf' & Hr & Hok & _ & _ & _ & Hmax).
  - apply leader_log.
  - apply leader_commit.
  - done.
  - cbn. lia.
  - intros x. cbn. rewrite !elem_of_cons. intros [->|[->|[->|?%elem_of_nil]]]; done.
  - exists rf'. split; [exact Hr |]. split; [exact Hok |]. vm_compute in Hr. by injection Hr as <-.
Defined.

Lemma followerHandleLog_covered_witness :
  exists rf' reply', followerHandleLog (peer 1 Follower 0 0 [] [] [])
      (mkAppendEntriesArgs 2 0 (-1) 0 [entry0] 0) zero_AppendEntriesReply = Done (rf', reply')
    /\ aer_Success reply' = true /\ log rf' = [entry0] /\ snapshotIndex rf' = 0 /\ ~ log_ok rf'.
Proof.
  apply (followerHandleLog_covered (peer 1 Follower 0 0 [] [] [])
    (mkAppendEntriesArgs 2 0 (-1) 0 [entry0] 0) zero_AppendEntriesReply entry0 []);
    [done | by eapply log_ok_nil | done | done | done | done].
Defined.

(** ** AppendEntries *)

Lemma buildRequest_append_witness :
  exists args, buildRequest leader 2 = Done (OutAppend args) /\ aea_PrevLogIndex args = 0
    /\ aea_PrevLogIndex args + len (aea_Entries args) = lastIndex leader.
Proof.
  assert (exists args, buildRequest leader 2 = Done (OutAppend args)) as (args & Hb) by by eexists.
  destruct (buildRequest_append leader 2 args leader_log leader_commit Hb)
    as (_ & _ & Hprev & _ & Hlast & _).
  exists args. split; [exact Hb |]. split; [|exact Hlast]. cbn in Hprev. injection Hprev as Hprev. lia.
Defined.

Lemma buildRequest_returns_witness : exists args, buildRequest leader 1 = Done (OutAppend args).
Proof.
  destruct (buildRequest_returns leader 1 2 leader_log eq_refl) as (_ & _ & H). apply H. by split.
Defined.

Lemma AppendEntriesRequestHandler_spec_witness :
  exists rf' reply', AppendEntriesRequestHandler 900 follower replace1 zero_AppendEntriesReply = Done (rf', reply')
    /\ log_ok rf' /\ commit_ok rf' /\ persisted rf'.
Proof.
  destruct (AppendEntriesRequestHandler_spec 900 follower replace1 zero_AppendEntriesReply)
    as (rf' & r & Hr & Hok & Hc & Hp & _).
  - apply follower_log.
  - apply follower_commit.
  - apply replace1_ok.
  - vm_compute. done.
  - exists rf', r. repeat split; first [exact Hr | apply Hok | apply Hc | apply Hp].
Defined.

(** ** Elections *)

Definition ask2 : RequestVoteArgs := mkRequestVoteArgs 2 2 1 2.

Lemma leader_grants_vote_witness :
  exists rf1, toLeader candidate = Done rf1 /\
  exists rf2 reply', RequestVoteRequestHandler 900 rf1 ask2 zero_RequestVoteReply = (rf2, reply')
    /\ rvr_VoteGranted reply' = true /\ rvr_Term reply' = currentTerm rf1
    /\ role rf2 = Leader /\ currentTerm rf2 = currentTerm rf1.
Proof.
  eexists. split; [reflexivity |].
  eapply (leader_grants_vote 900 candidate); [reflexivity | reflexivity |]. left. done.
Defined.

Lemma RequestVoteResponseHandler_spec_witness :
  snd (RequestVoteResponseHandler candidate ask2 (mkRequestVoteReply 2 true)) = true.
Proof.
  apply (RequestVoteResponseHandler_spec candidate ask2 (mkRequestVoteReply 2 true)); [done |].
  repeat split; done.
Defined.

Lemma toLeader_spec_witness :
  exists rf', toLeader candidate = Done rf' /\ persisted rf' /\ role rf' = Leader.
Proof.
  destruct (toLeader_spec candidate) as (rf' & Hr & Hp & Hl & _); [by split |].
  exists rf'. split; [exact Hr |]. split; [exact Hp | exact Hl].
Defined.

Lemma failed_call_ignored_witness :
  0 < currentTerm candidate /\
  (respond false candidate (CallRV ask2 None) = Done (candidate, [])
   \/ respond false candidate (CallRV ask2 None) = Done (persist candidate, [])).
Proof. split; [done |]. apply (failed_call_ignored candidate (CallRV ask2 None)). done. Defined.

(** ** Snapshots *)

Lemma installCurRfSnapShot_spec_witness :
  exists rf', installCurRfSnapShot leader 0 [x02] = Done rf' /\ log_ok rf' /\ snapshotIndex rf' = 0.
Proof.
  destruct (installCurRfSnapShot_spec leader 0 [x02] leader_log leader_commit)
    as (rf' & Hr & _ & Hok & _ & _ & _ & _ & Hin).
  exists rf'. split; [exact Hr |]. split; [exact Hok |]. apply Hin. by split.
Defined.

Definition newer : InstallSnapshotArgs := mkInstallSnapshotArgs 3 2 5 2 [x02].

Lemma newer_consistent : consistent compact newer.
Proof. split; [done |]. intros e ->%list_elem_of_singleton. done. Qed.

Lemma InstallSnapshotRequestHandler_spec_witness :
  exists rf' reply', InstallSnapshotRequestHandler 900 compact newer zero_InstallSnapshotReply = Done (rf', reply')
    /\ log_ok rf' /\ snapshotIndex rf' = 5.
Proof.
  destruct (InstallSnapshotRequestHandler_spec 900 compact newer zero_InstallSnapshotReply
    compact_log compact_commit newer_consistent) as (rf' & r & Hr & Hok & _ & _ & _ & _ & _ & _ & _ & Hin).
  exists rf', r. split; [exact Hr |]. split; [exact Hok |]. by apply Hin.
Defined.

Definition late : InstallSnapshotArgs := mkInstallSnapshotArgs 2 0 0 1 [x02].
Definition ahead : Raft Z := peer 1 Follower (-1) 1 [entry0; entry1] [] [].

Lemma installSnapshot_no_resend_witness :
  exists rf' reply' m, InstallSnapshotRequestHandler 900 ahead late zero_InstallSnapshotReply = Done (rf', reply')
    /\ commitIndex rf' = 1 /\ pendingPuts rf' = [[m]] /\ SnapshotValid m = true
    /\ SnapshotIndex m = 1 /\ SnapshotIndex m <= 1.
Proof.
  apply (installSnapshot_no_resend 900 ahead late zero_InstallSnapshotReply).
  - sample_log.
  - by split.
  - split; [done |]. intros e He. cbn in He. rewrite !elem_of_cons in He.
    destruct He as [->|[->|?%elem_of_nil]]; cbn; done.
  - done.
  - by split.
Defined.

Lemma InstallSnapshotResponseHandler_spec_witness :
  exists rf', InstallSnapshotResponseHandler leader (mkInstallSnapshotArgs 2 0 0 1 [x02])
      (mkInstallSnapshotReply 2 2) = Done rf' /\ persisted rf' /\ log rf' = log leader.
Proof.
  assert (exists rf', InstallSnapshotResponseHandler leader (mkInstallSnapshotArgs 2 0 0 1 [x02])
      (mkInstallSnapshotReply 2 2) = Done rf') as (rf' & Hr) by by eexists.
  destruct (InstallSnapshotResponseHandler_spec _ _ _ _ Hr) as (_ & Hp & Hl & _).
  exists rf'. split; [exact Hr |]. split; [exact Hp | exact Hl].
Defined.

(** ** Start and Make *)

Lemma Start_spec_witness :
  exists rf' index term isLeader, Start leader 10 = Done (rf', (index, term, isLeader)).
Proof.
  destruct (Start_spec leader 10 leader_log) as (rf' & i & t & l & Hr & _); [by split | done |].
  exists rf', i, t, l. exact Hr.
Defined.

Lemma compact_persisted : persisted compact.
Proof. apply persist_persisted. Qed.

Lemma Make_restores_witness :
  exists rf, Make 3 1 (persister compact) 900 50 = Done rf /\ fresh_ok rf.
Proof.
  destruct (Make_restores 3 1 compact 900 50 compact_log compact_persisted) as (rf & Hr & Hf & _).
  exists rf. split; [exact Hr | exact Hf].
Defined.

Definition overlap : Raft Z := peer 1 Follower 0 0 [entry0] [] [].

Lemma Make_hangs_witness : Make 3 1 (persister overlap) 900 50 = Hang "putApplyChBuffer".
Proof.
  apply (Make_hangs 3 1 overlap 900 50 entry0 []); [apply persist_persisted | done | done | done].
Defined.

Lemma response_term_not_persisted_witness :
  exists rf' rf'', RequestVoteResponseHandler candidate ask2 (mkRequestVoteReply 5 false) = (rf', false)
    /\ currentTerm rf' = 5 /\ Make 3 0 (persister rf') 900 50 = Done rf''
    /\ currentTerm rf'' = 2 /\ currentTerm rf'' < currentTerm rf'.
Proof.
  apply (response_term_not_persisted candidate ask2 (mkRequestVoteReply 5 false) 900 50);
    [apply candidate_log | apply persist_persisted | done | done | done].
Defined.
