(* ===== verification/Bitset.v ===== *)
(** The bit set of the linearizability checker: [src/porcupine/bitset.go].

    A word of type uint64 is a [Z] between 0 and 2^64 - 1, a position of type uint a
    non-negative [Z]; the shift [1 << minor] never leaves the word because [minor < 64].
    Methods that write through the slice return the new slice. *)
From S2P Require Import Prelude.

Module Bitset.

Abbreviation bitset := (list Z).

Definition newBitset (bits : Z) : bitset :=
  let extra := if negb (bits mod 64 =? 0) then 1 else 0 in
  let chunks := bits / 64 + extra in
  replicate (Z.to_nat chunks) 0.

Definition clone (b : bitset) : bitset := b.

Definition bitsetIndex (pos : Z) : Z * Z := (pos / 64, pos mod 64).

Definition set (b : bitset) (pos : Z) : go bitset :=
  let '(major, minor) := bitsetIndex pos in
  v ← go_index b major;
  go_update b major (Z.lor v (Z.shiftl 1 minor)).

Definition clear (b : bitset) (pos : Z) : go bitset :=
  let '(major, minor) := bitsetIndex pos in
  v ← go_index b major;
  go_update b major (Z.ldiff v (Z.shiftl 1 minor)).

Definition get (b : bitset) (pos : Z) : go bool :=
  let '(major, minor) := bitsetIndex pos in
  v ← go_index b major;
  mret (negb (Z.land v (Z.shiftl 1 minor) =? 0)).

(** [bits.OnesCount64] *)
Definition OnesCount64 (v : Z) : Z := len (filter (fun i => Z.testbit v i = true) (seqZ 0 64)).

Definition popcnt (b : bitset) : Z := foldl (fun total v => total + OnesCount64 v) 0 b.

Definition hash (b : bitset) : Z := foldl Z.lxor (popcnt b) b.

Fixpoint equals_loop (b b2 : bitset) : bool :=
  match b, b2 with
  | v :: b, v2 :: b2 => if v =? v2 then equals_loop b b2 else false
  | _, _ => true
  end.

Definition equals (b b2 : bitset) : bool :=
  if negb (len b =? len b2) then false else equals_loop b b2.

(** ** The set a bit set stands for *)

Definition word_ok (v : Z) : Prop := 0 <= v < 2 ^ 64.
Definition wf (b : bitset) : Prop := Forall word_ok b.

Definition bit (b : bitset) (pos : Z) : bool :=
  match b !! Z.to_nat (pos / 64) with Some v => Z.testbit v (pos mod 64) | None => false end.

Lemma word_bits v : word_ok v <-> 0 <= v /\ forall i, 64 <= i -> Z.testbit v i = false.
Proof.
  split.
  - intros [Hn Hv]. split; [done |]. intros i Hi.
    destruct (decide (v = 0)) as [->|Hnz]; [apply Z.testbit_0_l |].
    apply Z.bits_above_log2; [done |]. assert (Z.log2 v < 64) by (apply Z.log2_lt_pow2; lia). lia.
  - intros [Hn Hb]. split; [done |]. destruct (decide (v = 0)) as [->|Hnz]; [done |].
    apply Z.log2_lt_pow2; [lia |]. destruct (decide (Z.log2 v < 64)) as [|Hge]; [done |].
    specialize (Hb (Z.log2 v) ltac:(lia)). rewrite Z.bit_log2 in Hb by lia. done.
Qed.

Lemma pos_split pos : 0 <= pos -> 0 <= pos / 64 /\ 0 <= pos mod 64 < 64 /\ pos = 64 * (pos / 64) + pos mod 64.
Proof.
  intros H. pose proof (Z.mod_pos_bound pos 64). pose proof (Z.div_mod pos 64).
  pose proof (Z.div_pos pos 64). lia.
Qed.

Lemma pos_major (b : bitset) pos :
  0 <= pos < 64 * len b -> exists v, b !! Z.to_nat (pos / 64) = Some v
    /\ go_index b (pos / 64) = Done v /\ 0 <= pos / 64 < len b.
Proof.
  intros H. destruct (pos_split pos) as (? & ? & ?); [lia |].
  destruct (go_index_total b (pos / 64)) as (v & Hg & Hv); [lia |]. exists v. split; [done |].
  split; [done | lia].
Qed.

(** Both writers change one word; [f] says what happens to its bits. *)
Lemma update_bit b pos v w :
  wf b -> 0 <= pos < 64 * len b -> b !! Z.to_nat (pos / 64) = Some v -> word_ok w ->
  let b' := <[Z.to_nat (pos / 64) := w]> b in
  wf b' /\ length b' = length b
  /\ forall q, 0 <= q -> bit b' q =
       if q / 64 =? pos / 64 then Z.testbit w (q mod 64) else bit b q.
Proof.
  intros Hwf Hpos Hv Hw b'. destruct (pos_major b pos Hpos) as (_ & _ & _ & Hm).
  split; [by apply Forall_insert |]. split; [apply length_insert |].
  intros q Hq. destruct (pos_split q) as (? & ? & ?); [lia |]. unfold bit, b'.
  destruct (Z.eqb_spec (q / 64) (pos / 64)) as [->|Hne].
  - by rewrite list_lookup_insert_eq by lia.
  - by rewrite list_lookup_insert_ne by lia.
Qed.

Lemma wf_lookup b (i : nat) v : wf b -> b !! i = Some v -> word_ok v.
Proof. intros Hwf Hv. by eapply Forall_lookup_1. Qed.

Lemma single_bit m i : 0 <= m < 64 -> 0 <= i -> Z.testbit (Z.shiftl 1 m) i = (i =? m).
Proof.
  intros Hm Hi. rewrite Z.shiftl_spec by done. destruct (Z.eqb_spec i m) as [->|Hne].
  - by rewrite Z.sub_diag.
  - destruct (decide (i < m)); [rewrite Z.testbit_neg_r by lia; done |].
    by rewrite Z.bits_above_log2 by (cbn; lia).
Qed.

Lemma pos_eqb q pos : 0 <= q -> 0 <= pos ->
  (q =? pos) = (q / 64 =? pos / 64) && (q mod 64 =? pos mod 64).
Proof.
  intros Hq Hp. destruct (pos_split q Hq) as (? & ? & ?). destruct (pos_split pos Hp) as (? & ? & ?).
  destruct (Z.eqb_spec q pos), (Z.eqb_spec (q / 64) (pos / 64)), (Z.eqb_spec (q mod 64) (pos mod 64));
    cbn; try done; congruence || lia.
Qed.

Lemma set_spec b pos :
  wf b -> 0 <= pos < 64 * len b ->
  exists b', set b pos = Done b' /\ wf b' /\ length b' = length b
    /\ forall q, 0 <= q -> bit b' q = (q =? pos) || bit b q.
Proof.
  intros Hwf Hpos. destruct (pos_major b pos Hpos) as (v & Hv & Hg & Hm).
  destruct (pos_split pos) as (_ & Hmin & _); [lia |].
  unfold set, bitsetIndex. rewrite Hg. cbn [mbind go_bind]. rewrite go_update_Done by done.
  pose proof (wf_lookup _ _ _ Hwf Hv) as Hvw. apply word_bits in Hvw as [Hv0 Hvb].
  destruct (update_bit b pos v (Z.lor v (Z.shiftl 1 (pos mod 64))) Hwf Hpos Hv) as (Hwf' & Hl & Hb).
  { apply word_bits. split; [apply Z.lor_nonneg; split; [done | apply Z.shiftl_nonneg; lia] |].
    intros i Hi. rewrite Z.lor_spec, Hvb, single_bit by lia. by destruct (Z.eqb_spec i (pos mod 64)); [lia |]. }
  eexists. split; [done |]. split; [done |]. split; [done |].
  intros q Hq. destruct (pos_split q Hq) as (_ & Hqm & _). rewrite Hb, (pos_eqb q pos) by lia.
  destruct (Z.eqb_spec (q / 64) (pos / 64)) as [Heq|]; [|done]. cbn.
  rewrite Z.lor_spec, single_bit by lia. unfold bit. rewrite Heq, Hv. apply orb_comm.
Qed.

Lemma clear_spec b pos :
  wf b -> 0 <= pos < 64 * len b ->
  exists b', clear b pos = Done b' /\ wf b' /\ length b' = length b
    /\ forall q, 0 <= q -> bit b' q = negb (q =? pos) && bit b q.
Proof.
  intros Hwf Hpos. destruct (pos_major b pos Hpos) as (v & Hv & Hg & Hm).
  destruct (pos_split pos) as (_ & Hmin & _); [lia |].
  unfold clear, bitsetIndex. rewrite Hg. cbn [mbind go_bind]. rewrite go_update_Done by done.
  pose proof (wf_lookup _ _ _ Hwf Hv) as Hvw. apply word_bits in Hvw as [Hv0 Hvb].
  destruct (update_bit b pos v (Z.ldiff v (Z.shiftl 1 (pos mod 64))) Hwf Hpos Hv) as (Hwf' & Hl & Hb).
  { apply word_bits. split; [apply Z.ldiff_nonneg; by left |].
    intros i Hi. by rewrite Z.ldiff_spec, Hvb by lia. }
  eexists. split; [done |]. split; [done |]. split; [done |].
  intros q Hq. destruct (pos_split q Hq) as (_ & Hqm & _). rewrite Hb, (pos_eqb q pos) by lia.
  destruct (Z.eqb_spec (q / 64) (pos / 64)) as [Heq|]; [|done]. cbn.
  rewrite Z.ldiff_spec, single_bit by lia. unfold bit. rewrite Heq, Hv. apply andb_comm.
Qed.

Lemma get_spec b pos : wf b -> 0 <= pos < 64 * len b -> get b pos = Done (bit b pos).
Proof.
  intros Hwf Hpos. destruct (pos_major b pos Hpos) as (v & Hv & Hg & Hm).
  destruct (pos_split pos) as (_ & Hmin & _); [lia |].
  unfold get, bitsetIndex. rewrite Hg. go_simpl. unfold bit. rewrite Hv. f_equal.
  destruct (Z.testbit v (pos mod 64)) eqn:E.
  - destruct (Z.eqb_spec (Z.land v (Z.shiftl 1 (pos mod 64))) 0) as [H0|]; [|done].
    assert (Z.testbit (Z.land v (Z.shiftl 1 (pos mod 64))) (pos mod 64) = true) as Hb.
    { by rewrite Z.land_spec, E, single_bit, Z.eqb_refl by lia. }
    by rewrite H0, Z.testbit_0_l in Hb.
  - destruct (Z.eqb_spec (Z.land v (Z.shiftl 1 (pos mod 64))) 0) as [|Hne]; [done |]. exfalso. apply Hne.
    apply Z.bits_inj'. intros i Hi. rewrite Z.land_spec, single_bit, Z.testbit_0_l by lia.
    destruct (Z.eqb_spec i (pos mod 64)) as [->|]; [by rewrite E | apply andb_false_r].
Qed.

Lemma equals_spec b b2 : equals b b2 = true <-> b = b2.
Proof.
  unfold equals. split.
  - destruct (Z.eqb_spec (len b) (len b2)) as [Hl|]; [|done]. cbn [negb].
    revert b2 Hl. induction b as [|v b IH]; intros [|v2 b2] Hl; cbn in *; try lia; [done |].
    destruct (Z.eqb_spec v v2) as [->|]; [|done]. intros He. f_equal. apply IH; [lia | done].
  - intros ->. rewrite Z.eqb_refl. cbn [negb]. induction b2 as [|v b IH]; cbn; [done |].
    by rewrite Z.eqb_refl.
Qed.

Lemma wf_ext b b2 :
  wf b -> wf b2 -> length b = length b2 -> (forall q, 0 <= q -> bit b q = bit b2 q) -> b = b2.
Proof.
  intros H1 H2 Hl Hb. apply list_eq. intros i.
  destruct (decide (i < length b)%nat) as [Hi|Hi].
  2: { rewrite !lookup_ge_None_2 by lia. done. }
  destruct (lookup_lt_is_Some_2 b i Hi) as [v Hv].
  destruct (lookup_lt_is_Some_2 b2 i) as [w Hw]; [lia |]. rewrite Hv, Hw. f_equal.
  pose proof (wf_lookup _ _ _ H1 Hv) as Hvo. pose proof (wf_lookup _ _ _ H2 Hw) as Hwo.
  apply word_bits in Hvo as [Hv0 Hvb]. apply word_bits in Hwo as [Hw0 Hwb].
  apply Z.bits_inj'. intros j Hj. destruct (decide (64 <= j)); [by rewrite Hvb, Hwb |].
  specialize (Hb (64 * Z.of_nat i + j) ltac:(lia)). unfold bit in Hb.
  assert ((64 * Z.of_nat i + j) / 64 = Z.of_nat i /\ (64 * Z.of_nat i + j) mod 64 = j) as [Hd Hm].
  { Z.to_euclidean_division_equations. lia. }
  by rewrite Hd, Hm, Nat2Z.id, Hv, Hw in Hb.
Qed.

Lemma newBitset_spec bits :
  0 <= bits -> wf (newBitset bits) /\ bits <= 64 * len (newBitset bits) < bits + 64
    /\ forall q, bit (newBitset bits) q = false.
Proof.
  intros Hb. unfold newBitset. split; [|split].
  - apply Forall_replicate. done.
  - rewrite length_replicate. destruct (pos_split bits Hb) as (? & ? & ?).
    destruct (Z.eqb_spec (bits mod 64) 0); cbn [negb]; lia.
  - intros q. unfold bit. destruct (replicate _ _ !! _) eqn:E; [|done].
    apply lookup_replicate in E as [-> _]. apply Z.testbit_0_l.
Qed.

(** ** Counting *)

Lemma popcnt_acc b a : foldl (fun total v => total + OnesCount64 v) a b = a + popcnt b.
Proof.
  unfold popcnt. revert a. induction b as [|v b IH]; intros a; cbn [foldl]; [lia |].
  rewrite IH, (IH (0 + OnesCount64 v)). lia.
Qed.

Lemma popcnt_cons v b : popcnt (v :: b) = OnesCount64 v + popcnt b.
Proof. unfold popcnt at 1. cbn [foldl]. rewrite popcnt_acc. lia. Qed.

Lemma popcnt_insert b (i : nat) v w :
  b !! i = Some v -> popcnt (<[i := w]> b) = popcnt b - OnesCount64 v + OnesCount64 w.
Proof.
  revert i. induction b as [|x b IH]; intros [|i] Hi; try done.
  - injection Hi as ->. change (<[0%nat := w]> (v :: b)) with (w :: b). rewrite !popcnt_cons. lia.
  - change (<[S i := w]> (x :: b)) with (x :: <[i := w]> b). rewrite !popcnt_cons, IH by done. lia.
Qed.

Lemma filter_same (P Q : Z -> bool) (l : list Z) :
  (forall i, i ∈ l -> P i = Q i) -> filter (fun i => Q i = true) l = filter (fun i => P i = true) l.
Proof.
  induction l as [|x l IH]; intros Hpq; [done |]. rewrite !filter_cons, IH by (intros; apply Hpq; by right).
  rewrite (Hpq x) by by left. done.
Qed.

(** Two predicates that differ at one element of a duplicate-free list. *)
Lemma count_differ (P Q : Z -> bool) (l : list Z) m :
  NoDup l -> m ∈ l -> (forall i, i ∈ l -> i <> m -> P i = Q i) ->
  len (filter (fun i => Q i = true) l) + (if P m then 1 else 0)
  = len (filter (fun i => P i = true) l) + (if Q m then 1 else 0).
Proof.
  induction l as [|x l IH]; intros Hnd Hm Hpq; [by apply elem_of_nil in Hm |].
  apply NoDup_cons in Hnd as [Hx Hnd]. rewrite !filter_cons.
  destruct (decide (x = m)) as [->|Hne].
  - assert (filter (fun i => Q i = true) l = filter (fun i => P i = true) l) as ->.
    { apply filter_same. intros i Hi. apply Hpq; [by right | congruence]. }
    destruct (P m), (Q m); repeat case_decide; cbn; (done || lia).
  - apply elem_of_cons in Hm as [->|Hm]; [done |].
    specialize (IH Hnd Hm ltac:(intros; apply Hpq; [by right | done])).
    rewrite (Hpq x) by (by left || done). destruct (Q x); repeat case_decide; cbn; (done || lia).
Qed.

Lemma OnesCount64_set v m :
  0 <= m < 64 -> OnesCount64 (Z.lor v (Z.shiftl 1 m)) = OnesCount64 v + (if Z.testbit v m then 0 else 1).
Proof.
  intros Hm. unfold OnesCount64.
  pose proof (count_differ (Z.testbit v) (Z.testbit (Z.lor v (Z.shiftl 1 m))) (seqZ 0 64) m) as Hc.
  rewrite Z.lor_spec, single_bit, Z.eqb_refl, orb_true_r in Hc by lia.
  specialize (Hc (NoDup_seqZ _ _) ltac:(apply elem_of_seqZ; lia)).
  assert (forall i, i ∈ seqZ 0 64 -> i <> m -> Z.testbit v i = Z.testbit (Z.lor v (Z.shiftl 1 m)) i) as Hd.
  { intros i Hi%elem_of_seqZ Hne. rewrite Z.lor_spec, single_bit by lia.
    destruct (Z.eqb_spec i m); [done | by rewrite orb_false_r]. }
  specialize (Hc Hd). destruct (Z.testbit v m); lia.
Qed.

(** C30: [set], [clear] and [get] on a position inside the bit set never fail, work as
    insertion, removal and membership of the set of positions, keep every word within
    64 bits, and [clear] after [set] of a new position restores the bit set; [popcnt]
    counts one more exactly when the position was new. *)
Theorem bitset_operations b pos :
  wf b -> 0 <= pos < 64 * len b ->
  exists bs bc, set b pos = Done bs /\ clear b pos = Done bc /\ get b pos = Done (bit b pos)
    /\ wf bs /\ wf bc
    /\ (forall q, 0 <= q -> bit bs q = (q =? pos) || bit b q)
    /\ (forall q, 0 <= q -> bit bc q = negb (q =? pos) && bit b q)
    /\ (bit b pos = false -> clear bs pos = Done b)
    /\ popcnt bs = popcnt b + (if bit b pos then 0 else 1).
Proof.
  intros Hwf Hpos. destruct (set_spec b pos Hwf Hpos) as (bs & Hs & Hws & Hls & Hbs).
  destruct (clear_spec b pos Hwf Hpos) as (bc & Hc & Hwc & _ & Hbc).
  exists bs, bc. split; [done |]. split; [done |]. split; [by apply get_spec |].
  split; [done |]. split; [done |]. split; [done |]. split; [done |]. split.
  - intros Hnew. destruct (clear_spec bs pos Hws) as (b' & Hb' & Hwb' & Hlb' & Hbb'); [by rewrite Hls |].
    rewrite Hb'. f_equal. apply wf_ext; [done | done | congruence |].
    intros q Hq. rewrite Hbb', Hbs by done. destruct (Z.eqb_spec q pos) as [->|]; [by rewrite Hnew | done].
  - destruct (pos_major b pos Hpos) as (v & Hv & Hg & Hm).
    unfold set, bitsetIndex in Hs. rewrite Hg in Hs. cbn [mbind go_bind] in Hs.
    apply go_update_inv in Hs as [_ ->]. rewrite (popcnt_insert _ _ v) by done.
    rewrite OnesCount64_set by (apply pos_split; lia). unfold bit. rewrite Hv. lia.
Qed.

Lemma bitset_operations_witness :
  wf (newBitset 70) /\ 0 <= 65 < 64 * len (newBitset 70) /\
  exists bs, set (newBitset 70) 65 = Done bs /\ popcnt bs = 1.
Proof.
  assert (wf (newBitset 70)) as Hw by by apply newBitset_spec.
  split; [exact Hw |]. split; [by split |].
  destruct (bitset_operations (newBitset 70) 65 Hw ltac:(by split)) as (bs & _ & Hs & _ & _ & _ & _ & _ & _ & _ & Hp).
  exists bs. split; [exact Hs | exact Hp].
Defined.

End Bitset.
