(* ===== verification/Checker.v ===== *)
(** The linearizability checker: [src/porcupine/model.go], [checker.go] and
    [porcupine.go].

    Inputs, outputs and states are type parameters; [interface{}] holding an input or an
    output is their sum.  Nodes of the linked list live in a heap, a pointer is an
    address or nil.  Timestamps are unbounded.  [sort.Sort] is an argument (its order of
    equal elements is not specified). *)
From S2P Require Import Prelude Bitset.

Definition nil_deref : string := "nil pointer dereference".

Section checker.
Context {Inp Out St : Type}.

(** ** Histories: [model.go] *)

Inductive value := VIn (i : Inp) | VOut (o : Out).

Record Operation := mkOperation {
  op_ClientId : Z; op_Input : Inp; op_Call : Z; op_Output : Out; op_Return : Z }.

(** [EventKind]: [CallEvent] is false, [ReturnEvent] is true. *)
Record Event := mkEvent { ev_ClientId : Z; ev_Kind : bool; ev_Value : value; ev_Id : Z }.

(** [None] is a nil function. *)
Record Model := mkModel {
  Partition : option (list Operation -> list (list Operation));
  PartitionEvent : option (list Event -> list (list Event));
  Init : St;
  Step : St -> Inp -> Out -> bool * St;
  Equal : option (St -> St -> bool) }.

Definition NoPartition (history : list Operation) : list (list Operation) := [history].
Definition NoPartitionEvent (history : list Event) : list (list Event) := [history].

Definition ShallowEqual `{!EqDecision St} (state1 state2 : St) : bool := bool_decide (state1 = state2).

(** [DescribeOperation] and [DescribeState] only serve the visualization. *)
Definition fillDefault `{!EqDecision St} (model : Model) : Model :=
  mkModel
    (Some (match Partition model with None => NoPartition | Some f => f end))
    (Some (match PartitionEvent model with None => NoPartitionEvent | Some f => f end))
    (Init model) (Step model)
    (Some (match Equal model with None => ShallowEqual | Some f => f end)).

Inductive CheckResult := Unknown | Ok | Illegal.

(** ** Entries *)

(** [entryKind]: [callEntry] is false, [returnEntry] is true. *)
Record entry := mkEntry { e_kind : bool; e_value : value; e_id : Z; e_time : Z; e_clientId : Z }.

(** [byTime.Less] *)
Definition Less (a b : entry) : bool :=
  if negb (e_time a =? e_time b) then e_time a <? e_time b
  else negb (e_kind a) && e_kind b.

Fixpoint makeEntries_loop (id : Z) (history : list Operation) : list entry :=
  match history with
  | [] => []
  | elem :: history =>
      mkEntry false (VIn (op_Input elem)) id (op_Call elem) (op_ClientId elem)
      :: mkEntry true (VOut (op_Output elem)) id (op_Return elem) (op_ClientId elem)
      :: makeEntries_loop (id + 1) history
  end.

Definition makeEntries (sort : list entry -> list entry) (history : list Operation) : list entry :=
  sort (makeEntries_loop 0 history).

Fixpoint renumber_loop (m : gmap Z Z) (id : Z) (events : list Event) : list Event :=
  match events with
  | [] => []
  | v :: events =>
    match m !! ev_Id v with
    | Some r => mkEvent (ev_ClientId v) (ev_Kind v) (ev_Value v) r :: renumber_loop m id events
    | None =>
        mkEvent (ev_ClientId v) (ev_Kind v) (ev_Value v) id
        :: renumber_loop (<[ev_Id v := id]> m) (id + 1) events
    end
  end.
Definition renumber (events : list Event) : list Event := renumber_loop ∅ 0 events.

Fixpoint convertEntries_loop (i : Z) (events : list Event) : list entry :=
  match events with
  | [] => []
  | elem :: events =>
      mkEntry (ev_Kind elem) (ev_Value elem) (ev_Id elem) i (ev_ClientId elem)
      :: convertEntries_loop (i + 1) events
  end.
Definition convertEntries (events : list Event) : list entry := convertEntries_loop 0 events.

(** ** The linked list *)

Record node := mkNode {
  n_value : option value; n_match : option nat; n_id : Z; n_next : option nat; n_prev : option nat }.
#[export] Instance eta_node : Eta node := fun n =>
  mkNode (n_value n) (n_match n) (n_id n) (n_next n) (n_prev n).

Abbreviation heap := (list node).

Definition deref (h : heap) (p : option nat) : go node :=
  match p with
  | Some a => match h !! a with Some nd => Done nd | None => Panic nil_deref end
  | None => Panic nil_deref
  end.

(** [p.next = v] and [p.prev = v] *)
Definition set_next (h : heap) (p v : option nat) : go heap :=
  nd ← deref h p;
  mret (match p with Some a => <[a := nd <| n_next := v |>]> h | None => h end).
Definition set_prev (h : heap) (p v : option nat) : go heap :=
  nd ← deref h p;
  mret (match p with Some a => <[a := nd <| n_prev := v |>]> h | None => h end).

Definition insertBefore (h : heap) (n : nat) (mark : option nat) : go heap :=
  match mark with
  | None => mret h
  | Some _ =>
    m ← deref h mark;
    let beforeMark := n_prev m in
    h ← set_prev h mark (Some n);
    h ← set_next h (Some n) mark;
    match beforeMark with
    | None => mret h
    | Some _ =>
      h ← set_prev h (Some n) beforeMark;
      set_next h beforeMark (Some n)
    end
  end.

(** [for n != nil { n = n.next; l++ }], with at most [fuel] turns. *)
Fixpoint length_loop (fuel : nat) (h : heap) (n : option nat) (l : Z) : go Z :=
  match n, fuel with
  | None, _ => mret l
  | Some _, O => Hang "length"
  | Some _, S fuel => nd ← deref h n; length_loop fuel h (n_next nd) (l + 1)
  end.
Definition length (h : heap) (n : option nat) : go Z := length_loop (base.length h) h n 0.

(** The loop from the last entry to the first: [rev] is the history reversed. *)
Fixpoint makeLinkedEntries_loop (rev : list entry) (h : heap) (m : gmap Z nat) (root : option nat)
    : go (heap * option nat) :=
  match rev with
  | [] => mret (h, root)
  | elem :: rev =>
    let p := base.length h in
    if e_kind elem then
      h ← insertBefore (h ++ [mkNode (Some (e_value elem)) None (e_id elem) None None]) p root;
      makeLinkedEntries_loop rev h (<[e_id elem := p]> m) (Some p)
    else
      h ← insertBefore (h ++ [mkNode (Some (e_value elem)) (m !! e_id elem) (e_id elem) None None]) p root;
      makeLinkedEntries_loop rev h m (Some p)
  end.
Definition makeLinkedEntries (entries : list entry) : go (heap * option nat) :=
  makeLinkedEntries_loop (reverse entries) [] ∅ None.

Definition lift (h : heap) (p : nat) : go heap :=
  e ← deref h (Some p);
  h ← set_next h (n_prev e) (n_next e);
  e ← deref h (Some p);
  h ← set_prev h (n_next e) (n_prev e);
  e ← deref h (Some p);
  m ← deref h (n_match e);
  h ← set_next h (n_prev m) (n_next m);
  m ← deref h (n_match e);
  match n_next m with
  | None => mret h
  | Some _ => set_prev h (n_next m) (n_prev m)
  end.

Definition unlift (h : heap) (p : nat) : go heap :=
  e ← deref h (Some p);
  m ← deref h (n_match e);
  h ← set_next h (n_prev m) (n_match e);
  m ← deref h (n_match e);
  h ← (match n_next m with
       | None => mret h
       | Some _ => set_prev h (n_next m) (n_match e)
       end);
  e ← deref h (Some p);
  h ← set_next h (n_prev e) (Some p);
  e ← deref h (Some p);
  set_prev h (n_next e) (Some p).

(** ** The search *)

Record cacheEntry := mkCacheEntry { linearized_of : list Z; state_of : St }.

Definition cacheContains (equal : St -> St -> bool) (cache : gmap Z (list cacheEntry)) (ce : cacheEntry) : bool :=
  existsb (fun elem => Bitset.equals (linearized_of ce) (linearized_of elem)
                       && equal (state_of ce) (state_of elem))
    (default [] (cache !! Bitset.hash (linearized_of ce))).

(** The variables of [checkSingle].  [seqs] holds the slices whose addresses are stored
    in [longest]. *)
Record search := mkSearch {
  s_heap : heap;
  s_entry : option nat;
  s_linearized : list Z;
  s_cache : gmap Z (list cacheEntry);
  s_calls : list (nat * St);
  s_state : St;
  s_seqs : list (list Z);
  s_longest : list (option nat) }.
#[export] Instance eta_search : Eta search := fun s =>
  mkSearch (s_heap s) (s_entry s) (s_linearized s) (s_cache s) (s_calls s) (s_state s)
    (s_seqs s) (s_longest s).

Definition step_values (model : Model) (state : St) (v1 v2 : option value) : go (bool * St) :=
  match v1, v2 with
  | Some (VIn i), Some (VOut o) => mret (Step model state i o)
  | _, _ => Panic "interface conversion"
  end.

Fixpoint call_ids (h : heap) (calls : list (nat * St)) : go (list Z) :=
  match calls with
  | [] => mret []
  | (p, _) :: calls => nd ← deref h (Some p); ids ← call_ids h calls; mret (n_id nd :: ids)
  end.

(** Lines 222-233: [seq] is the slice at address [ptr]. *)
Fixpoint mark_longest (callsLen : Z) (ids : list Z) (ptr : nat) (seqs : list (list Z))
    (longest : list (option nat)) : go (list (option nat)) :=
  match ids with
  | [] => mret longest
  | id :: ids =>
    cur ← go_index longest id;
    longest ← (if match cur with
                  | None => true
                  | Some q => len (default [] (seqs !! q)) <? callsLen
                  end
               then go_update longest id (Some ptr) else mret longest);
    mark_longest callsLen ids ptr seqs longest
  end.

(** One turn of the loop, on the code's branches: a call entry, or a return entry. *)
Definition try_call (model : Model) (equal : St -> St -> bool) (headp p : nat) (nd : node) (s : search) : go search :=
  matching ← deref (s_heap s) (n_match nd);
  '(ok, newState) ← step_values model (s_state s) (n_value nd) (n_value matching);
  if ok : bool then
    newLinearized ← Bitset.set (Bitset.clone (s_linearized s)) (n_id nd);
    let newCacheEntry := mkCacheEntry newLinearized newState in
    if negb (cacheContains equal (s_cache s) newCacheEntry) then
      let hash := Bitset.hash newLinearized in
      let cache := <[hash := default [] (s_cache s !! hash) ++ [newCacheEntry]]> (s_cache s) in
      let calls := s_calls s ++ [(p, s_state s)] in
      linearized ← Bitset.set (s_linearized s) (n_id nd);
      h ← lift (s_heap s) p;
      hd ← deref h (Some headp);
      mret (mkSearch h (n_next hd) linearized cache calls newState (s_seqs s) (s_longest s))
    else mret (s <| s_entry := n_next nd |>)
  else mret (s <| s_entry := n_next nd |>).

Definition backtrack (computePartial : bool) (s : search) (top : nat * St) (rest : list (nat * St)) : go search :=
  '(seqs, longest) ← (if computePartial then
      ids ← call_ids (s_heap s) (s_calls s);
      let seqs := s_seqs s ++ [ids] in
      longest ← mark_longest (len (s_calls s)) ids (base.length (s_seqs s)) seqs (s_longest s);
      mret (seqs, longest)
    else mret (s_seqs s, s_longest s));
  nd ← deref (s_heap s) (Some top.1);
  linearized ← Bitset.clear (s_linearized s) (n_id nd);
  h ← unlift (s_heap s) top.1;
  nd ← deref h (Some top.1);
  mret (mkSearch h (n_next nd) linearized (s_cache s) rest top.2 seqs longest).

(** Go on with new variables, or return. *)
Inductive turn := Again (s : search) | Finish (ok : bool) (s : search).

Definition turn_of (model : Model) (equal : St -> St -> bool) (computePartial : bool) (headp : nat) (s : search) : go turn :=
  nd ← deref (s_heap s) (s_entry s);
  match s_entry s, n_match nd with
  | Some p, Some _ => s ← try_call model equal headp p nd s; mret (Again s)
  | _, _ =>
    match last (s_calls s) with
    | None => mret (Finish false s)
    | Some top => s ← backtrack computePartial s top (removelast (s_calls s)); mret (Again s)
    end
  end.

(** The loop, with at most [fuel] turns; [kill i] is the flag as read in turn [i]. *)
Fixpoint checkLoop (model : Model) (equal : St -> St -> bool) (computePartial : bool) (kill : nat -> bool)
    (headp : nat) (fuel i : nat) (s : search) : go (bool * search) :=
  hd ← deref (s_heap s) (Some headp);
  match n_next hd with
  | None => mret (true, s)
  | Some _ =>
    if kill i then mret (false, s) else
    match fuel with
    | O => Hang "checkSingle"
    | S fuel =>
      t ← turn_of model equal computePartial headp s;
      match t with
      | Again s => checkLoop model equal computePartial kill headp fuel (S i) s
      | Finish ok s => mret (ok, s)
      end
    end
  end.

(** The slices that [longest] points to, after the return. *)
Definition longest_of (seqs : list (list Z)) (longest : list (option nat)) : list (option (nat * list Z)) :=
  (fun o => q ← o; s ← seqs !! q; Some (q, s)) <$> longest.

Definition checkSingle (model : Model) (equal : St -> St -> bool) (history : list entry) (computePartial : bool)
    (kill : nat -> bool) (fuel : nat) : go (bool * list (option (nat * list Z))) :=
  '(h, root) ← makeLinkedEntries history;
  l ← length h root;
  let n := Z.quot l 2 in
  let headp := base.length h in
  h ← insertBefore (h ++ [mkNode None None (-1) None None]) headp root;
  '(ok, s) ← checkLoop model equal computePartial kill headp fuel 0
    (mkSearch h root (Bitset.newBitset n) ∅ [] (Init model) [] (replicate (Z.to_nat n) None));
  if ok : bool then
    ids ← call_ids (s_heap s) (s_calls s);
    mret (true, longest_of (s_seqs s ++ [ids]) (replicate (Z.to_nat n) (Some (base.length (s_seqs s)))))
  else mret (false, longest_of (s_seqs s) (s_longest s)).

(** ** Partitions in parallel *)

(** What [select] receives: the result of a partition's goroutine, or the timeout. *)
Inductive arrival := AResult (i : nat) | ATimeout.

(** What the environment decides: when each goroutine sees the kill flag, in which order
    results and timeout arrive, and how many turns a goroutine is given. *)
Record schedule := mkSchedule {
  sch_kill : nat -> nat -> bool; sch_arrivals : list arrival; sch_fuel : nat }.

(** Lines 293-310: what is left of the arrivals, [count], [ok] and [timedOut]. *)
Fixpoint collect (total : Z) (computeInfo : bool) (results : list bool) (arrivals : list arrival)
    (count : Z) (ok : bool) : go (list arrival * Z * bool * bool) :=
  match arrivals with
  | [] => Hang "select"
  | AResult i :: arrivals =>
    let count := count + 1 in
    let ok := ok && default false (results !! i) in
    if negb ok && negb computeInfo then mret (arrivals, count, ok, false)
    else if total <=? count then mret (arrivals, count, ok, false)
    else collect total computeInfo results arrivals count ok
  | ATimeout :: arrivals => mret (arrivals, count, ok, true)
  end.

(** Lines 315-318. *)
Fixpoint drain (total : Z) (arrivals : list arrival) (count : Z) : go unit :=
  if total <=? count then mret tt
  else match arrivals with
       | [] => Hang "results"
       | AResult _ :: arrivals => drain total arrivals (count + 1)
       | ATimeout :: arrivals => drain total arrivals count
       end.

(** The distinct slices of [longest]; the order of a Go map is not specified. *)
Definition partials (longest : list (option (nat * list Z))) : list (list Z) :=
  snd <$> map_to_list (list_to_map (omap id longest) : gmap nat (list Z)).

Fixpoint runAll (model : Model) (equal : St -> St -> bool) (computeInfo : bool) (sch : schedule) (i : nat)
    (history : list (list entry)) : go (list (bool * list (option (nat * list Z)))) :=
  match history with
  | [] => mret []
  | subhistory :: history =>
    r ← checkSingle model equal subhistory computeInfo (sch_kill sch i) (sch_fuel sch);
    rs ← runAll model equal computeInfo sch (S i) history;
    mret (r :: rs)
  end.

Definition linearizationInfo : Type := list (list entry) * list (list (list Z)).

Definition checkParallel (model : Model) (equal : St -> St -> bool) (history : list (list entry))
    (computeInfo : bool) (sch : schedule) : go (CheckResult * linearizationInfo) :=
  runs ← runAll model equal computeInfo sch 0 history;
  '(arrivals, count, ok, timedOut) ←
    collect (len history) computeInfo (fst <$> runs) (sch_arrivals sch) 0 true;
  info ← (if computeInfo then
            _ ← drain (len history) arrivals count;
            mret (history, (fun r => partials r.2) <$> runs)
          else mret ([], []));
  mret (if negb ok then Illegal else if timedOut : bool then Unknown else Ok, info).

Definition equal_of `{!EqDecision St} (model : Model) : St -> St -> bool :=
  default ShallowEqual (Equal model).

Definition checkEvents `{!EqDecision St} (model : Model) (history : list Event) (verbose : bool)
    (sch : schedule) : go (CheckResult * linearizationInfo) :=
  let model := fillDefault model in
  let partitions := default NoPartitionEvent (PartitionEvent model) history in
  let l := (fun subhistory => convertEntries (renumber subhistory)) <$> partitions in
  checkParallel model (equal_of model) l verbose sch.

Definition checkOperations `{!EqDecision St} (sort : list entry -> list entry) (model : Model)
    (history : list Operation) (verbose : bool) (sch : schedule) : go (CheckResult * linearizationInfo) :=
  let model := fillDefault model in
  let partitions := default NoPartition (Partition model) history in
  let l := makeEntries sort <$> partitions in
  checkParallel model (equal_of model) l verbose sch.

(** The API of [porcupine.go]; a timeout of 0 is a schedule without [ATimeout]. *)
Definition CheckOperations `{!EqDecision St} sort model history sch : go bool :=
  '(res, _) ← checkOperations sort model history false sch;
  mret (match res with Ok => true | _ => false end).
Definition CheckOperationsTimeout `{!EqDecision St} sort model history sch : go CheckResult :=
  '(res, _) ← checkOperations sort model history false sch; mret res.
Definition CheckOperationsVerbose `{!EqDecision St} sort model history sch : go (CheckResult * linearizationInfo) :=
  checkOperations sort model history true sch.
Definition CheckEvents `{!EqDecision St} model history sch : go bool :=
  '(res, _) ← checkEvents model history false sch;
  mret (match res with Ok => true | _ => false end).
Definition CheckEventsTimeout `{!EqDecision St} model history sch : go CheckResult :=
  '(res, _) ← checkEvents model history false sch; mret res.
Definition CheckEventsVerbose `{!EqDecision St} model history sch : go (CheckResult * linearizationInfo) :=
  checkEvents model history true sch.

End checker.
Arguments value Inp Out : clear implicits.
Arguments Operation Inp Out : clear implicits.
Arguments Event Inp Out : clear implicits.
Arguments Model Inp Out St : clear implicits.
Arguments entry Inp Out : clear implicits.
Arguments node Inp Out : clear implicits.
Arguments cacheEntry St : clear implicits.
Arguments search Inp Out St : clear implicits.
Arguments turn Inp Out St : clear implicits.
Arguments linearizationInfo Inp Out : clear implicits.
Abbreviation heap Inp Out := (list (node Inp Out)).
