(* ===== verification/LinSpec.v ===== *)
(** What the checker decides, on lists: an event list [r] in which every call has its
    return behind it, [lin] (linearize some call that stands before the first return,
    drop its two events, go on), and the declarative reading of linearizability, with
    their equivalence. *)
From S2P Require Import Prelude.

(** [a] stands before [b] in [r]. *)
Definition before {A} (r : list A) (a b : A) : Prop := exists l1 l2 l3, r = l1 ++ a :: l2 ++ b :: l3.

Lemma before_filter {A} (P : A -> Prop) `{forall x, Decision (P x)} (r : list A) a b :
  P a -> P b -> before r a b -> before (filter P r) a b.
Proof.
  intros Ha Hb (l1 & l2 & l3 & ->). exists (filter P l1), (filter P l2), (filter P l3).
  by rewrite filter_app, filter_cons_True, filter_app, filter_cons_True by done.
Qed.

Lemma filter_split {A} (P : A -> Prop) `{forall x, Decision (P x)} (r : list A) l1 a l2 :
  filter P r = l1 ++ a :: l2 ->
  exists r1 r2, r = r1 ++ a :: r2 /\ filter P r1 = l1 /\ filter P r2 = l2.
Proof.
  revert l1. induction r as [|x r IH]; intros l1 Hf; [by destruct l1 |].
  destruct (decide (P x)) as [Hx|Hx].
  - rewrite filter_cons_True in Hf by done. destruct l1 as [|y l1]; injection Hf as -> Hf.
    + by exists [], r.
    + destruct (IH l1 Hf) as (r1 & r2 & -> & <- & <-). exists (y :: r1), r2.
      by rewrite filter_cons_True.
  - rewrite filter_cons_False in Hf by done.
    destruct (IH l1 Hf) as (r1 & r2 & -> & <- & <-). exists (x :: r1), r2.
    by rewrite filter_cons_False.
Qed.

Lemma before_of_filter {A} (P : A -> Prop) `{forall x, Decision (P x)} (r : list A) a b :
  before (filter P r) a b -> before r a b.
Proof.
  intros (l1 & l2 & l3 & Hf). apply filter_split in Hf as (r1 & r2 & -> & _ & Hf).
  apply filter_split in Hf as (r3 & r4 & -> & _ & _). by exists r1, r3, r4.
Qed.

Lemma before_elem {A} (r : list A) a b : before r a b -> a ∈ r /\ b ∈ r.
Proof.
  intros (l1 & l2 & l3 & ->). rewrite !elem_of_app, !elem_of_cons, !elem_of_app, !elem_of_cons. tauto.
Qed.

Lemma before_irrefl {A} (r : list A) a : NoDup r -> ~ before r a a.
Proof.
  intros Hnd (l1 & l2 & l3 & ->). apply NoDup_app in Hnd as (_ & _ & Hnd).
  apply NoDup_cons in Hnd as [Ha _]. apply Ha, elem_of_app. right. by left.
Qed.

Lemma before_asym {A} (r : list A) a b : NoDup r -> before r a b -> ~ before r b a.
Proof.
  intros Hnd (l1 & l2 & l3 & ->) (k1 & k2 & k3 & Hk).
  assert (forall (i j : nat) x, (l1 ++ a :: l2 ++ b :: l3) !! i = Some x ->
    (l1 ++ a :: l2 ++ b :: l3) !! j = Some x -> i = j) as Hu by by apply NoDup_alt.
  assert ((l1 ++ a :: l2 ++ b :: l3) !! length l1 = Some a) as Ha by by apply list_lookup_middle.
  assert ((l1 ++ a :: l2 ++ b :: l3) !! (length l1 + S (length l2))%nat = Some b) as Hb.
  { rewrite lookup_app_r by lia. replace (_ + _ - _)%nat with (S (length l2)) by lia.
    cbn. by apply list_lookup_middle. }
  assert ((l1 ++ a :: l2 ++ b :: l3) !! length k1 = Some b) as Hb' by (rewrite Hk; by apply list_lookup_middle).
  assert ((l1 ++ a :: l2 ++ b :: l3) !! (length k1 + S (length k2))%nat = Some a) as Ha'.
  { rewrite Hk, lookup_app_r by lia. replace (_ + _ - _)%nat with (S (length k2)) by lia.
    cbn. by apply list_lookup_middle. }
  pose proof (Hu _ _ _ Ha Ha'). pose proof (Hu _ _ _ Hb Hb'). lia.
Qed.

(** [lookup] gives the order. *)
Lemma before_lookup {A} (r : list A) a b :
  before r a b <-> exists i j, (i < j)%nat /\ r !! i = Some a /\ r !! j = Some b.
Proof.
  split.
  - intros (l1 & l2 & l3 & ->). exists (length l1), (length l1 + S (length l2))%nat.
    split; [lia |]. split; [by apply list_lookup_middle |].
    rewrite lookup_app_r by lia. replace (_ + _ - _)%nat with (S (length l2)) by lia.
    cbn. by apply list_lookup_middle.
  - intros (i & j & Hij & Ha & Hb). exists (take i r).
    assert (drop (S i) r !! (j - S i)%nat = Some b) as Hb'.
    { rewrite lookup_drop. by replace (S i + (j - S i))%nat with j by lia. }
    exists (take (j - S i) (drop (S i) r)), (drop (S (j - S i)) (drop (S i) r)).
    by rewrite take_drop_middle, take_drop_middle.
Qed.

Lemma filter_all {A} (P : A -> Prop) `{forall x, Decision (P x)} (r : list A) :
  (forall x, x ∈ r -> P x) -> filter P r = r.
Proof.
  induction r as [|x r IH]; intros Hr; [done |].
  rewrite filter_cons_True by (apply Hr; by left). f_equal. apply IH. intros y Hy. apply Hr. by right.
Qed.

Lemma filter_ext_in {A} (P Q : A -> Prop) `{forall x, Decision (P x)} `{forall x, Decision (Q x)} (r : list A) :
  (forall x, x ∈ r -> P x <-> Q x) -> filter P r = filter Q r.
Proof.
  induction r as [|x r IH]; intros Hr; [done |]. rewrite !filter_cons, IH by (intros; apply Hr; by right).
  destruct (Hr x) as [H1 H2]; [by left |]. by destruct (decide (P x)), (decide (Q x)); try tauto.
Qed.

(** An equality test of states that a model accepts: what it identifies with the first
    state can go on wherever the first one can. *)
Class Simulation {Inp Out St} (step : St -> Inp -> Out -> bool * St) (equal : St -> St -> bool) : Prop :=
  simulation : forall a b i o a', equal a b = true -> step a i o = (true, a') ->
    exists b', step b i o = (true, b') /\ equal a' b' = true.

Section lin.
Context {Ev Inp Out St : Type}.
Context (step : St -> Inp -> Out -> bool * St).
(** The operation an event belongs to; input and output if the event is a call. *)
Context (idof : Ev -> Z) (ops : Ev -> option (Inp * Out)).
Implicit Types (r : list Ev) (st : St) (ord : list Z).

Definition drop_id (x : Z) r : list Ev := filter (fun a => idof a <> x) r.

Inductive lin : list Ev -> St -> list Z -> Prop :=
| lin_nil st : lin [] st []
| lin_cons r1 p r2 st i o st' ord :
    Forall (fun a => is_Some (ops a)) r1 -> ops p = Some (i, o) -> step st i o = (true, st') ->
    lin (drop_id (idof p) (r1 ++ p :: r2)) st' ord ->
    lin (r1 ++ p :: r2) st (idof p :: ord).

Definition dead r st : Prop := forall ord, ~ lin r st ord.

(** Events are distinct, a call has its return behind it, a return its call, and an
    operation has one event of each kind. *)
Record events_ok r : Prop := {
  ev_nodup : NoDup r;
  ev_call : forall p, p ∈ r -> is_Some (ops p) ->
    exists m, before r p m /\ ops m = None /\ idof m = idof p;
  ev_ret : forall m, m ∈ r -> ops m = None -> exists p, p ∈ r /\ is_Some (ops p) /\ idof p = idof m;
  ev_pair : forall p q, p ∈ r -> q ∈ r -> idof p = idof q -> (ops p = None <-> ops q = None) -> p = q }.

Lemma drop_id_elem x r a : a ∈ drop_id x r <-> idof a <> x /\ a ∈ r.
Proof. unfold drop_id. by rewrite list_elem_of_filter. Qed.

Lemma drop_id_ok x r : events_ok r -> events_ok (drop_id x r).
Proof.
  intros [Hnd Hc Hr Hp]. split.
  - by apply NoDup_filter.
  - intros p [Hx Hin]%drop_id_elem Hop. destruct (Hc p Hin Hop) as (m & Hb & Hm & Hid).
    exists m. split; [|done]. apply before_filter; [done | by rewrite Hid | done].
  - intros m [Hx Hin]%drop_id_elem Hop. destruct (Hr m Hin Hop) as (p & Hpr & Hp' & Hid).
    exists p. split; [|done]. apply drop_id_elem. by rewrite Hid.
  - intros p q [_ Hp']%drop_id_elem [_ Hq]%drop_id_elem. by apply Hp.
Qed.

Lemma drop_id_length r p : p ∈ r -> (length (drop_id (idof p) r) < length r)%nat.
Proof.
  intros Hp. apply list_elem_of_split in Hp as (l1 & l2 & ->). unfold drop_id.
  rewrite filter_app, filter_cons_False by by intros []. rewrite !length_app. cbn.
  pose proof (length_filter (fun a => idof a <> idof p) l1).
  pose proof (length_filter (fun a => idof a <> idof p) l2). lia.
Qed.

(** What is dropped with a call is the call and its return. *)
Lemma drop_id_call l1 p l2 m l3 :
  events_ok (l1 ++ p :: l2 ++ m :: l3) -> is_Some (ops p) -> ops m = None -> idof m = idof p ->
  drop_id (idof p) (l1 ++ p :: l2 ++ m :: l3) = l1 ++ l2 ++ l3.
Proof.
  intros [Hnd _ _ Hpair] Hp Hm Hid.
  assert (l1 ++ p :: l2 ++ m :: l3 ≡ₚ p :: m :: l1 ++ l2 ++ l3) as Hperm by solve_Permutation.
  assert (forall q, q ∈ l1 ++ l2 ++ l3 -> idof q <> idof p) as Hne.
  { rewrite Hperm in Hnd. intros q Hq Heq. destruct Hp as [io Hp].
    apply NoDup_cons in Hnd as [Hpn [Hmn _]%NoDup_cons].
    assert (q <> p /\ q <> m) as [Hqp Hqm].
    { split; intros ->; [apply Hpn; by right | by apply Hmn]. }
    setoid_rewrite Hperm in Hpair. setoid_rewrite elem_of_cons in Hpair. setoid_rewrite elem_of_cons in Hpair.
    destruct (ops q) eqn:Eq.
    - apply Hqp, (Hpair q p); [auto.. | by rewrite Eq, Hp].
    - apply Hqm, (Hpair q m); [auto.. | congruence | by rewrite Eq, Hm]. }
  unfold drop_id. rewrite filter_app, filter_cons_False, filter_app, filter_cons_False by (intros Hn; by apply Hn).
  rewrite <- !filter_app. apply filter_all. exact Hne.
Qed.

(** A list that is not empty has a return event. *)
Lemma not_all_calls r : events_ok r -> r <> [] -> Forall (fun a => is_Some (ops a)) r -> False.
Proof.
  intros Hok Hne Hall. destruct r as [|p r]; [done |]. rewrite Forall_forall in Hall.
  destruct (ev_call _ Hok p) as (m & Hb & Hm & _); [by left | apply Hall; by left |].
  apply before_elem in Hb as [_ Hin]. apply Hall in Hin as [? ?]. congruence.
Qed.

(** If no call before the first return can be linearized first, nothing can. *)
Lemma scan_dead r1 q r2 st :
  ops q = None ->
  (forall p i o st', p ∈ r1 -> ops p = Some (i, o) -> step st i o = (true, st') ->
     dead (drop_id (idof p) (r1 ++ q :: r2)) st') ->
  dead (r1 ++ q :: r2) st.
Proof.
  intros Hq Hfail ord Hlin. inversion Hlin as [? Hnil | k1 p k2 ? i o st' ord' Hall Hp Hs Hl Heq]; subst.
  { by destruct r1. }
  rewrite Heq in Hl. refine (Hfail p i o st' _ Hp Hs ord' Hl).
  assert (length k1 < length r1)%nat as Hlt.
  { apply Nat.nle_gt. intros Hle. rewrite Forall_lookup in Hall.
    assert ((k1 ++ p :: k2) !! length r1 = Some q) as Hl1 by (rewrite Heq; by apply list_lookup_middle).
    apply lookup_app_Some in Hl1 as [Hl1|[_ Hl1]].
    - destruct (Hall _ _ Hl1) as [? ?]. congruence.
    - replace (length r1 - length k1)%nat with 0%nat in Hl1; [by injection Hl1 as ->; congruence |].
      apply Nat.le_antisymm; [lia |]. apply lookup_lt_Some in Hl1. lia. }
  assert ((r1 ++ q :: r2) !! length k1 = Some p) as Hl1 by (rewrite <- Heq; by apply list_lookup_middle).
  rewrite lookup_app_l in Hl1 by done. by apply list_elem_of_lookup_2 in Hl1.
Qed.

Lemma lin_simulation equal `{!Simulation step equal} r a b ord :
  equal a b = true -> lin r a ord -> lin r b ord.
Proof.
  intros Heq Hl. revert b Heq. induction Hl as [st | r1 p r2 st i o st' ord Hall Hp Hs Hl IH]; intros b Heq.
  - constructor.
  - destruct (simulation _ _ _ _ _ Heq Hs) as (b' & Hb & Heq'). econstructor; eauto.
Qed.

(** ** The declarative reading *)

(** The operations [ord], in this order, are what the model allows from [st]. *)
Fixpoint legal (f : Z -> option (Inp * Out)) st ord : Prop :=
  match ord with
  | [] => True
  | x :: ord =>
    match f x with
    | Some (i, o) => (step st i o).1 = true /\ legal f (step st i o).2 ord
    | None => False
    end
  end.

(** Each operation once, a legal run, and an operation that had returned when another
    was called stays before it. *)
Definition linearization (f : Z -> option (Inp * Out)) r st ord : Prop :=
  NoDup ord /\ (forall x, x ∈ ord <-> exists a, a ∈ r /\ idof a = x) /\ legal f st ord
  /\ forall m p, before r m p -> ops m = None -> is_Some (ops p) -> ~ before ord (idof p) (idof m).

Definition operations_of (f : Z -> option (Inp * Out)) r : Prop :=
  forall p io, p ∈ r -> ops p = Some io -> f (idof p) = Some io.

Lemma before_cons {A} (r : list A) x a b : before (x :: r) a b <-> (x = a /\ b ∈ r) \/ before r a b.
Proof.
  split.
  - intros ([|y l1] & l2 & l3 & [= -> ->]).
    + left. split; [done |]. apply elem_of_app. right. by left.
    + right. by exists l1, l2, l3.
  - intros [[-> (l1 & l2 & ->)%list_elem_of_split]|(l1 & l2 & l3 & ->)].
    + by exists [], l1, l2.
    + by exists (x :: l1), l2, l3.
Qed.

Lemma operations_of_drop f x r : operations_of f r -> operations_of f (drop_id x r).
Proof. intros Hf p io [_ Hp]%drop_id_elem. by apply Hf. Qed.

Lemma drop_id_ids r p x :
  (exists a, a ∈ drop_id (idof p) r /\ idof a = x) <-> x <> idof p /\ exists a, a ∈ r /\ idof a = x.
Proof.
  split.
  - intros (a & [Hne Ha]%drop_id_elem & <-). split; [done | by exists a].
  - intros (Hne & a & Ha & <-). exists a. split; [by apply drop_id_elem | done].
Qed.

Lemma lin_linearization f r st ord :
  events_ok r -> operations_of f r -> lin r st ord -> linearization f r st ord.
Proof.
  intros Hok Hf Hl. induction Hl as [st | r1 p r2 st i o st' ord Hall Hp Hs Hl IH].
  { split; [constructor |]. split; [|split; [done |]].
    - intros x. split; [by intros ?%elem_of_nil | by intros (a & ?%elem_of_nil & _)].
    - by intros m p [?%elem_of_nil _]%before_elem. }
  destruct IH as (Hnd & Hids & Hlegal & Hord); [by apply drop_id_ok | by apply operations_of_drop |].
  assert (p ∈ r1 ++ p :: r2) as Hpin by (apply elem_of_app; right; by left).
  assert (idof p ∉ ord) as Hnin by by (intros Hx; apply Hids, drop_id_ids in Hx as [? _]).
  split; [by constructor |]. split; [|split].
  - intros x. rewrite elem_of_cons, Hids, drop_id_ids. split.
    + intros [->|[_ ?]]; [by exists p | done].
    + intros ?. destruct (decide (x = idof p)); [by left | by right].
  - cbn. rewrite (Hf p (i, o)) by done. by rewrite Hs.
  - intros m p' Hb Hm Hp' [[Heq Hin]|Hbo]%before_cons.
    + destruct (before_elem _ _ _ Hb) as [_ Hp'in].
      assert (p' = p) as -> by (apply (ev_pair _ Hok); try done; destruct Hp'; split; congruence).
      apply (before_asym _ m p (ev_nodup _ Hok) Hb).
      assert (m ∈ r1 ++ p :: r2) as Hmin by by apply before_elem in Hb as [? _].
      apply elem_of_app in Hmin as [Hmin|[->|Hmin]%elem_of_cons].
      * rewrite Forall_forall in Hall. destruct (Hall _ Hmin). congruence.
      * congruence.
      * apply list_elem_of_split in Hmin as (k1 & k2 & ->). by exists r1, k1, k2.
    + destruct (before_elem _ _ _ Hbo) as [Hxp Hxm].
      apply (Hord m p'); try done. apply before_filter; [..|done]; intros Heq; congruence.
Qed.

Lemma linearization_lin f r st ord :
  events_ok r -> operations_of f r -> linearization f r st ord -> lin r st ord.
Proof.
  revert r st. induction ord as [|x ord IH]; intros r st Hok Hf (Hnd & Hids & Hlegal & Hord).
  { destruct r as [|a r]; [constructor |]. exfalso. apply (not_elem_of_nil (idof a)), Hids. exists a. by split; [left |]. }
  assert (exists p, p ∈ r /\ is_Some (ops p) /\ idof p = x) as (p & Hp & [[i o] Hop] & <-).
  { destruct (proj1 (Hids x)) as (a & Ha & <-); [by left |].
    destruct (ops a) eqn:Ea; [exists a; by rewrite Ea | by apply (ev_ret _ Hok)]. }
  apply NoDup_cons in Hnd as [Hnin Hnd]. cbn in Hlegal. rewrite (Hf _ _ Hp Hop) in Hlegal.
  destruct Hlegal as [Hstep Hlegal]. destruct (step st i o) as [ok st'] eqn:Es. cbn in Hstep, Hlegal. subst ok.
  destruct (list_elem_of_split _ _ Hp) as (r1 & r2 & ->).
  apply lin_cons with i o st'; try done.
  - apply Forall_forall. intros a Ha. destruct (ops a) eqn:Ea; [by eexists | exfalso].
    assert (before (r1 ++ p :: r2) a p) as Hb.
    { apply list_elem_of_split in Ha as (k1 & k2 & ->). exists k1, k2, r2. by rewrite <- app_assoc. }
    destruct (before_elem _ _ _ Hb) as [Hain _].
    apply (Hord a p Hb Ea); [by eexists |]. apply before_cons. left. split; [done |].
    assert (idof a ∈ idof p :: ord) as [Heq|]%elem_of_cons; [apply Hids; by exists a | exfalso | done].
    destruct (ev_call _ Hok p Hp) as (m & Hpm & Hm & Hid); [by eexists |].
    assert (a = m) as ->.
    { apply (ev_pair _ Hok); [done | by apply before_elem in Hpm as [_ ?] | congruence | by split]. }
    by apply (before_asym _ _ _ (ev_nodup _ Hok) Hb).
  - apply IH; [by apply drop_id_ok | by apply operations_of_drop |]. split; [done |].
    split; [|split; [done |]].
    + intros x. rewrite drop_id_ids, <- Hids, elem_of_cons. split; [|tauto].
      intros Hx. split; [by intros -> | by right].
    + intros m q Hb Hm Hq Hbo. apply (Hord m q); [by eapply before_of_filter | done..|].
      apply before_cons. by right.
Qed.

Lemma lin_iff f r st ord :
  events_ok r -> operations_of f r -> lin r st ord <-> linearization f r st ord.
Proof. split; [by apply lin_linearization | by apply linearization_lin]. Qed.
End lin.
