(* ===== verification/CheckerList.v ===== *)
(** The doubly linked list of the checker as a heap predicate: [seg] describes a chain of
    nodes, [lift] takes a call and its return out of it, [unlift] puts them back. *)
From S2P Require Import Prelude Bitset Checker.

Section lists.
Context {Inp Out : Type}.
Implicit Types (h : heap Inp Out) (l : list nat).

Definition hd_or (nx : option nat) l : option nat := match l with [] => nx | x :: _ => Some x end.
Definition last_or (pv : option nat) l : option nat := match last l with None => pv | o => o end.

(** The nodes at [l] are chained, from the predecessor [pv] to the successor [nx]. *)
Fixpoint seg h (pv : option nat) l (nx : option nat) : Prop :=
  match l with
  | [] => True
  | p :: l' => (exists nd, h !! p = Some nd /\ n_prev nd = pv /\ n_next nd = hd_or nx l')
               /\ seg h (Some p) l' nx
  end.

Lemma last_or_cons pv x l : last_or pv (x :: l) = last_or (Some x) l.
Proof. unfold last_or. rewrite last_cons. by destruct (last l). Qed.

Lemma last_or_snoc pv x l : last_or pv (l ++ [x]) = Some x.
Proof. unfold last_or. by rewrite last_snoc. Qed.

Lemma hd_or_app nx l1 l2 : hd_or nx (l1 ++ l2) = hd_or (hd_or nx l2) l1.
Proof. by destruct l1. Qed.

Lemma seg_app h pv l1 l2 nx :
  seg h pv (l1 ++ l2) nx <-> seg h pv l1 (hd_or nx l2) /\ seg h (last_or pv l1) l2 nx.
Proof.
  revert pv; induction l1 as [|x l1 IH]; intros pv; cbn [app seg].
  - unfold last_or. cbn. tauto.
  - rewrite IH, last_or_cons, hd_or_app. tauto.
Qed.

Lemma seg_frame h h' pv l nx :
  (forall p, p ∈ l -> h' !! p = h !! p) -> seg h pv l nx -> seg h' pv l nx.
Proof.
  revert pv; induction l as [|x l IH]; intros pv Hf; cbn; [done |].
  intros ((nd & Hx & Hp) & Hs). split.
  - exists nd. rewrite Hf by by left. done.
  - apply IH; [|done]. intros p Hp'. apply Hf. by right.
Qed.

Lemma seg_lookup h pv l nx p : seg h pv l nx -> p ∈ l -> is_Some (h !! p).
Proof.
  revert pv; induction l as [|x l IH]; intros pv; cbn; [by intros _ ?%elem_of_nil |].
  intros ((nd & Hx & _) & Hs) [->|Hp]%elem_of_cons; eauto.
Qed.

Lemma seg_prev h x l nx q nd : seg h (Some x) l nx -> q ∈ l -> h !! q = Some nd -> n_prev nd <> None.
Proof.
  revert x; induction l as [|y l IH]; intros x; cbn; [by intros _ ?%elem_of_nil |].
  intros ((nd' & Hx & Hp & _) & Hs) [->|Hq]%elem_of_cons Hnd; [congruence | eauto].
Qed.

(** Values, matches and identifiers never change. *)
Definition data (nd : node Inp Out) := (n_value nd, n_match nd, n_id nd).
Definition same_data h h' : Prop := forall p, data <$> h' !! p = data <$> h !! p.

Lemma same_data_trans h1 h2 h3 : same_data h1 h2 -> same_data h2 h3 -> same_data h1 h3.
Proof. intros H1 H2 p. by rewrite H2, H1. Qed.

Lemma set_next_Done h a nd v :
  h !! a = Some nd -> set_next h (Some a) v = Done (<[a := nd <| n_next := v |>]> h).
Proof. intros Ha. unfold set_next, deref. by rewrite Ha. Qed.
Lemma set_prev_Done h a nd v :
  h !! a = Some nd -> set_prev h (Some a) v = Done (<[a := nd <| n_prev := v |>]> h).
Proof. intros Ha. unfold set_prev, deref. by rewrite Ha. Qed.

Lemma same_data_insert h a nd nd' : h !! a = Some nd -> data nd' = data nd -> same_data h (<[a := nd']> h).
Proof.
  intros Ha Hd p. destruct (decide (p = a)) as [->|Hne].
  - rewrite Ha, list_lookup_insert_eq by by eapply lookup_lt_Some. cbn. by rewrite Hd.
  - by rewrite list_lookup_insert_ne.
Qed.

(** ** Taking one node out of the chain, and putting it back *)

Definition unlink h (p : nat) : go (heap Inp Out) :=
  nd ← deref h (Some p);
  h ← set_next h (n_prev nd) (n_next nd);
  nd ← deref h (Some p);
  match n_next nd with None => mret h | Some _ => set_prev h (n_next nd) (n_prev nd) end.

Definition relink h (p : nat) : go (heap Inp Out) :=
  nd ← deref h (Some p);
  h ← set_next h (n_prev nd) (Some p);
  nd ← deref h (Some p);
  match n_next nd with None => mret h | Some _ => set_prev h (n_next nd) (Some p) end.

Lemma deref_Some h p nd : h !! p = Some nd -> deref h (Some p) = Done nd.
Proof. intros Hp. unfold deref. by rewrite Hp. Qed.

Lemma insert_back h a nd nd' : h !! a = Some nd -> <[a := nd]> (<[a := nd']> h) = h.
Proof. intros Ha. by rewrite list_insert_insert_eq, list_insert_id. Qed.

Lemma unlink_spec h pv A a p C nx :
  NoDup (A ++ a :: p :: C) -> seg h pv (A ++ a :: p :: C) nx ->
  (forall c, nx = Some c -> C = [] -> False) ->
  exists h', unlink h p = Done h' /\ seg h' pv (A ++ a :: C) nx /\ same_data h h'
    /\ (forall q, q ∉ a :: C -> h' !! q = h !! q) /\ relink h' p = Done h.
Proof.
  intros Hnd Hseg Hend. apply seg_app in Hseg as [HA HaC].
  cbn [seg] in HaC. destruct HaC as ((na & Ha & Hap & Han) & (np & Hp & Hpp & Hpn) & HC).
  cbn in Han. apply NoDup_app in Hnd as (HndA & HAd & Hnd). apply NoDup_cons in Hnd as [Haf Hnd].
  apply NoDup_cons in Hnd as [Hpf HndC]. apply not_elem_of_cons in Haf as [Hnep Haf].
  assert ((a ∉ A) /\ forall q, q ∈ C -> q ∉ A) as [HaA HCA].
  { split; [|intros q Hq]; intros HqA; apply (HAd _ HqA); [by left | by right; right]. }
  unfold unlink. rewrite (deref_Some _ _ _ Hp). cbn [mbind go_bind].
  rewrite Hpp, (set_next_Done _ _ _ _ Ha). cbn [mbind go_bind].
  set (na' := na <| n_next := n_next np |>). set (h1 := <[a := na']> h).
  assert (h1 !! p = Some np) as Hp1 by by (unfold h1; rewrite list_lookup_insert_ne).
  assert (h1 !! a = Some na') as Ha1.
  { unfold h1. rewrite list_lookup_insert_eq; [done | by eapply lookup_lt_Some]. }
  assert (same_data h h1) as Hd1 by by apply (same_data_insert h a na).
  assert (seg h1 pv A (Some a) /\ (exists nd, h1 !! a = Some nd /\ n_prev nd = last_or pv A /\ n_next nd = hd_or nx C))
    as [HA1 Hna1].
  { split.
    - eapply seg_frame; [|exact HA]. intros q Hq. unfold h1. rewrite list_lookup_insert_ne; [done |].
      by intros ->.
    - exists na'. rewrite Ha1. by rewrite <- Hpn. }
  rewrite (deref_Some _ _ _ Hp1). cbn [mbind go_bind].
  destruct C as [|c C].
  { cbn in Hpn. destruct nx as [c|]; [by destruct (Hend c) |]. rewrite Hpn.
    exists h1. split; [done |]. split; [|split; [done | split]].
    - apply seg_app. split; [exact HA1 |]. split; [exact Hna1 | done].
    - intros q Hq. unfold h1. rewrite list_lookup_insert_ne; [done |]. intros ->. apply Hq. by left.
    - unfold relink. rewrite (deref_Some _ _ _ Hp1). cbn [mbind go_bind].
      rewrite Hpp, (set_next_Done _ _ _ _ Ha1). cbn [mbind go_bind].
      assert (<[a := na' <| n_next := Some p |>]> h1 = h) as ->.
      { unfold h1. rewrite list_insert_insert_eq. apply list_insert_id. rewrite Ha. f_equal.
        destruct na. cbn in *. by subst. }
      rewrite (deref_Some _ _ _ Hp). cbn [mbind go_bind]. by rewrite Hpn. }
  cbn [seg] in HC. destruct HC as ((nc & Hc & Hcp & Hcn) & HC). cbn in Hpn.
  apply not_elem_of_cons in Haf as [Hac HaC]. apply not_elem_of_cons in Hpf as [Hpc HpC].
  apply NoDup_cons in HndC as [HcC HndC].
  assert (h1 !! c = Some nc) as Hc1 by by (unfold h1; rewrite list_lookup_insert_ne).
  rewrite Hpn. rewrite (set_prev_Done _ _ _ _ Hc1).
  set (nc' := nc <| n_prev := n_prev np |>). set (h2 := <[c := nc']> h1).
  assert (forall q, q <> c -> h2 !! q = h1 !! q) as Hf2.
  { intros q Hq. unfold h2. by rewrite list_lookup_insert_ne. }
  assert (h2 !! c = Some nc') as Hc2.
  { unfold h2. rewrite list_lookup_insert_eq; [done | by eapply lookup_lt_Some]. }
  exists h2. split; [done |]. split; [|split; [|split]].
  - apply seg_app. split; [|split; [|split]].
    + eapply seg_frame; [|exact HA1]. intros q Hq. apply Hf2. intros ->. apply (HCA c); [by left | done].
    + destruct Hna1 as (nd & Hnd1 & ?). exists nd. rewrite Hf2 by done. done.
    + exists nc'. rewrite Hc2. split; [done |]. split; [by cbn | done].
    + eapply seg_frame; [|exact HC]. intros q Hq. rewrite Hf2 by (by intros ->).
      unfold h1. rewrite list_lookup_insert_ne; [done |]. by intros ->.
  - eapply same_data_trans; [exact Hd1 | by apply (same_data_insert h1 c nc)].
  - intros q [Hqa [Hqc _]%not_elem_of_cons]%not_elem_of_cons. rewrite Hf2 by done.
    unfold h1. by rewrite list_lookup_insert_ne.
  - assert (h2 !! p = Some np) as Hp2 by by rewrite Hf2. assert (h2 !! a = Some na') as Ha2 by by rewrite Hf2.
    unfold relink. rewrite (deref_Some _ _ _ Hp2). cbn [mbind go_bind].
    rewrite Hpp, (set_next_Done _ _ _ _ Ha2). cbn [mbind go_bind].
    set (h3 := <[a := na' <| n_next := Some p |>]> h2).
    assert (h3 !! p = Some np) as Hp3 by by (unfold h3; rewrite list_lookup_insert_ne).
    assert (h3 !! c = Some nc') as Hc3 by by (unfold h3; rewrite list_lookup_insert_ne).
    rewrite (deref_Some _ _ _ Hp3). cbn [mbind go_bind]. rewrite Hpn, (set_prev_Done _ _ _ _ Hc3).
    f_equal. unfold h3, h2, h1. rewrite (list_insert_insert_ne _ a c) by done.
    rewrite !list_insert_insert_eq.
    rewrite (list_insert_id h a).
    + apply list_insert_id. rewrite Hc. f_equal. destruct nc. cbn in *. by subst.
    + rewrite Ha. f_equal. destruct na. cbn in *. by subst.
Qed.

(** ** [lift] and [unlift] *)

(** A node whose successor is set keeps one when the successor of some node is set to a
    node. *)
Lemma next_kept h q v h' p nd nd' :
  set_next h q (Some v) = Done h' -> h !! p = Some nd -> n_next nd <> None -> h' !! p = Some nd' ->
  n_next nd' <> None.
Proof.
  unfold set_next. destruct (deref h q) as [nq| |] eqn:Eq; [|done..]. destruct q as [a|]; [|done].
  go_simpl. intros [= <-] Hp Hn Hp'. destruct (decide (p = a)) as [->|Hne].
  - rewrite list_lookup_insert_eq in Hp' by by eapply lookup_lt_Some. by injection Hp' as <-.
  - rewrite list_lookup_insert_ne in Hp' by done. congruence.
Qed.

Lemma deref_Done h p nd : deref h (Some p) = Done nd -> h !! p = Some nd.
Proof. unfold deref. destruct (h !! p); [by intros [= ->] | done]. Qed.

Lemma lift_unlink h p m nd c h1 nd1 :
  h !! p = Some nd -> n_next nd = Some c -> unlink h p = Done h1 ->
  h1 !! p = Some nd1 -> n_match nd1 = Some m -> lift h p = unlink h1 m.
Proof.
  intros Hp Hnx Hu Hp1 Hm. unfold lift, unlink in *.
  rewrite (deref_Some _ _ _ Hp) in *. cbn [mbind go_bind] in *.
  destruct (set_next h (n_prev nd) (n_next nd)) as [h2| |] eqn:E2; [|done..]. cbn [mbind go_bind] in *.
  destruct (deref h2 (Some p)) as [nd2| |] eqn:E3; [|done..]. cbn [mbind go_bind] in *.
  rewrite Hnx in E2. assert (n_next nd2 <> None) as Hn2.
  { eapply next_kept; [exact E2 | exact Hp | by rewrite Hnx | by apply deref_Done]. }
  destruct (n_next nd2) as [c2|]; [|done]. rewrite Hu. cbn [mbind go_bind].
  rewrite (deref_Some _ _ _ Hp1). cbn [mbind go_bind]. by rewrite Hm.
Qed.

Lemma unlift_relink h p m nd h1 h2 nd1 :
  h !! p = Some nd -> n_match nd = Some m -> relink h m = Done h1 ->
  h1 !! p = Some nd1 -> n_next nd1 <> None -> relink h1 p = Done h2 -> unlift h p = Done h2.
Proof.
  intros Hp Hm H1 Hp1 Hn1 H2. unfold unlift. rewrite (deref_Some _ _ _ Hp). cbn [mbind go_bind].
  rewrite Hm. unfold relink in H1.
  destruct (deref h (Some m)) as [nm| |]; [|done..]. cbn [mbind go_bind] in *.
  destruct (set_next h (n_prev nm) (Some m)) as [h3| |]; [|done..]. cbn [mbind go_bind] in *.
  destruct (deref h3 (Some m)) as [nm3| |]; [|done..]. cbn [mbind go_bind] in *.
  rewrite H1. cbn [mbind go_bind]. unfold relink in H2.
  rewrite (deref_Some _ _ _ Hp1) in *. cbn [mbind go_bind] in *.
  destruct (set_next h1 (n_prev nd1) (Some p)) as [h4| |] eqn:E4; [|done..]. cbn [mbind go_bind] in *.
  destruct (deref h4 (Some p)) as [nd4| |] eqn:E5; [|done..]. cbn [mbind go_bind] in *.
  assert (n_next nd4 <> None) as Hn4 by (eapply next_kept; [exact E4 | exact Hp1 | done | by apply deref_Done]).
  by destruct (n_next nd4).
Qed.

Lemma data_match h h' p nd nd' :
  same_data h h' -> h !! p = Some nd -> h' !! p = Some nd' ->
  n_match nd' = n_match nd /\ n_id nd' = n_id nd /\ n_value nd' = n_value nd.
Proof. intros Hd Hp Hp'. specialize (Hd p). rewrite Hp, Hp' in Hd. by injection Hd as ? ? ?. Qed.

Lemma same_data_lookup h h' p nd : same_data h h' -> h !! p = Some nd -> exists nd', h' !! p = Some nd'.
Proof. intros Hd Hp. specialize (Hd p). rewrite Hp in Hd. destruct (h' !! p); [by eexists | done]. Qed.

(** [lift] takes a call entry and its return entry out of the linked list, wherever
    they stand behind the head, and leaves everything else in order; [unlift] restores
    the list exactly as it was, pointer by pointer. *)
Theorem lift_unlift h A a p B m C nd :
  NoDup (A ++ a :: p :: B ++ m :: C) -> seg h None (A ++ a :: p :: B ++ m :: C) None ->
  h !! p = Some nd -> n_match nd = Some m ->
  exists h', lift h p = Done h' /\ seg h' None (A ++ a :: B ++ C) None /\ same_data h h'
    /\ unlift h' p = Done h.
Proof.
  intros Hnd Hseg Hp Hm.
  destruct (unlink_spec h None A a p (B ++ m :: C) None Hnd Hseg) as (h1 & Hu1 & Hs1 & Hd1 & Hf1 & Hr1);
    [by intros c ? | ].
  assert (NoDup (A ++ a :: B ++ m :: C)) as Hnd1.
  { assert (A ++ a :: B ++ m :: C ⊆+ A ++ a :: p :: B ++ m :: C) as Hsub.
    { apply submseteq_app; [done |]. apply submseteq_skip, submseteq_cons. done. }
    destruct (submseteq_Permutation _ _ Hsub) as [l Hl]. rewrite Hl in Hnd. by apply NoDup_app in Hnd as [? _]. }
  assert (exists A' a', A ++ a :: B = A' ++ [a'] /\ p <> a') as (A' & a' & HA' & Hpa').
  { destruct (exists_last (l := A ++ a :: B)) as (A' & a' & HA'); [by destruct A |].
    exists A', a'. split; [done |]. intros ->.
    assert (a' ∈ A ++ a :: B) as Hin by (rewrite HA'; apply elem_of_app; right; by left).
    clear -Hnd Hin. apply NoDup_app in Hnd as (_ & HA & Hnd). apply NoDup_cons in Hnd as [Ha Hnd].
    apply NoDup_cons in Hnd as [Hp _]. apply elem_of_app in Hin as [Hin|[->|Hin]%elem_of_cons].
    - apply (HA _ Hin). right. by left.
    - apply Ha. by left.
    - apply Hp, elem_of_app. by left. }
  assert (A ++ a :: B ++ m :: C = A' ++ a' :: m :: C) as Hsplit.
  { rewrite app_comm_cons, app_assoc, HA', <- app_assoc. done. }
  rewrite Hsplit in Hs1, Hnd1.
  destruct (unlink_spec h1 None A' a' m C None Hnd1 Hs1) as (h2 & Hu2 & Hs2 & Hd2 & Hf2 & Hr2);
    [by intros c ? |].
  destruct (same_data_lookup _ _ _ _ Hd1 Hp) as (nd1 & Hp1).
  destruct (data_match _ _ _ _ _ Hd1 Hp Hp1) as (Hm1 & _). rewrite Hm in Hm1.
  destruct (same_data_lookup _ _ _ _ Hd2 Hp1) as (nd2 & Hp2).
  destruct (data_match _ _ _ _ _ Hd2 Hp1 Hp2) as (Hm2 & _). rewrite Hm1 in Hm2.
  assert (exists c, n_next nd = Some c) as (c & Hc).
  { apply seg_app in Hseg as [_ Hseg]. cbn [seg] in Hseg. destruct Hseg as (_ & (nd' & Hp' & _ & Hn) & _).
    rewrite Hp in Hp'. injection Hp' as <-. rewrite Hn. destruct B; by eexists. }
  exists h2. split; [|split; [|split]].
  - rewrite <- Hu2. by eapply lift_unlink.
  - assert (A ++ a :: B ++ C = A' ++ a' :: C) as ->; [|done].
    rewrite app_comm_cons, app_assoc, HA', <- app_assoc. done.
  - by eapply same_data_trans.
  - assert (p ∉ a :: B ++ m :: C) as Hpn.
    { apply NoDup_app in Hnd as (_ & _ & Hnd). apply NoDup_cons in Hnd as [Ha Hnd].
      apply NoDup_cons in Hnd as [Hp0 _]. apply not_elem_of_cons. split; [|done].
      intros ->. apply Ha. by left. }
    eapply unlift_relink; [exact Hp2 | exact Hm2 | exact Hr2 | exact Hp1 | | exact Hr1].
    rewrite Hf1, Hp in Hp1 by done. injection Hp1 as <-. by rewrite Hc.
Qed.
(** ** Building the list *)

Lemma insertBefore_front h nd l :
  n_prev nd = None -> n_next nd = None -> seg h None l None ->
  exists h', insertBefore (h ++ [nd]) (base.length h) (hd_or None l) = Done h'
    /\ seg h' None (base.length h :: l) None /\ same_data (h ++ [nd]) h'.
Proof.
  intros Hpv Hnx Hseg. assert ((h ++ [nd]) !! base.length h = Some nd) as Hnew by by apply list_lookup_middle.
  assert (forall q x, h !! q = Some x -> (h ++ [nd]) !! q = Some x) as Hold by (intros; by apply lookup_app_l_Some).
  destruct l as [|m l].
  { exists (h ++ [nd]). cbn. split; [done |]. split; [|done]. split; [|done]. by exists nd. }
  cbn [seg] in Hseg. destruct Hseg as ((nm & Hm & Hmp & Hmn) & Hl). cbn [hd_or]. unfold insertBefore.
  rewrite (deref_Some _ _ _ (Hold _ _ Hm)). cbn [mbind go_bind].
  rewrite (set_prev_Done _ _ _ _ (Hold _ _ Hm)), Hmp. cbn [mbind go_bind].
  set (nm' := nm <| n_prev := Some (base.length h) |>). set (h1 := <[m := nm']> (h ++ [nd])).
  assert (m <> base.length h) as Hne by (apply lookup_lt_Some in Hm; lia).
  assert (h1 !! base.length h = Some nd) as Hnew1 by by (unfold h1; rewrite list_lookup_insert_ne).
  rewrite (set_next_Done _ _ _ _ Hnew1). cbn [mbind go_bind mret go_ret].
  set (h2 := <[base.length h := _]> h1). exists h2. split; [done |].
  assert (h1 !! m = Some nm') as Hm1.
  { unfold h1. rewrite list_lookup_insert_eq; [done |]. eapply lookup_lt_Some, Hold, Hm. }
  assert (h2 !! base.length h = Some (nd <| n_next := Some m |>)) as Hnew2.
  { unfold h2. rewrite list_lookup_insert_eq; [done |]. by eapply lookup_lt_Some. }
  split.
  - cbn [seg]. split; [by exists (nd <| n_next := Some m |>) |]. split.
    + exists nm'. unfold h2. rewrite list_lookup_insert_ne by done. rewrite Hm1. by cbn.
    + assert (m ∉ l) as Hml by by (intros Hml; apply (seg_prev _ _ _ _ _ _ Hl Hml Hm)).
      eapply seg_frame; [|exact Hl]. intros q Hq. destruct (seg_lookup _ _ _ _ _ Hl Hq) as [nq Hnq].
      unfold h2. rewrite list_lookup_insert_ne by (apply lookup_lt_Some in Hnq; lia).
      unfold h1. rewrite list_lookup_insert_ne by by intros ->. by rewrite Hnq, (Hold _ _ Hnq).
  - apply (same_data_trans _ h1); [by apply (same_data_insert _ m nm); [apply Hold |] |].
    by apply (same_data_insert h1 (base.length h) nd).
Qed.

(** Entry [pr !! a] is at address [a]: its value, its identifier and, for a call, the
    address of its return. *)
Definition ret_at (pr : list (entry Inp Out)) (x : Z) (q : nat) : Prop :=
  exists e, pr !! q = Some e /\ e_kind e = true /\ e_id e = x.
Definition node_of (pr : list (entry Inp Out)) (a : nat) (nd : node Inp Out) : Prop :=
  exists e, pr !! a = Some e /\ n_value nd = Some (e_value e) /\ n_id nd = e_id e
    /\ if e_kind e then n_match nd = None
       else forall q, n_match nd = Some q <-> (q < a)%nat /\ ret_at pr (e_id e) q.

Definition once (pr : list (entry Inp Out)) : Prop :=
  forall i j e1 e2, pr !! i = Some e1 -> pr !! j = Some e2 -> e_kind e1 = e_kind e2 ->
    e_id e1 = e_id e2 -> i = j.

Lemma ret_at_snoc pr e x q :
  ret_at (pr ++ [e]) x q <-> ret_at pr x q \/ (q = base.length pr /\ e_kind e = true /\ e_id e = x).
Proof.
  unfold ret_at. split.
  - intros (e' & He & Hk & Hx). apply lookup_app_Some in He as [He|[Hq He]]; [left; eauto |].
    apply list_lookup_singleton_Some in He as [Hq' <-]. right. split; [lia | done].
  - intros [(e' & He & Hk & Hx)|(-> & Hk & Hx)].
    + exists e'. split; [by apply lookup_app_l_Some | done].
    + exists e. split; [by apply list_lookup_middle | done].
Qed.

Lemma node_of_snoc pr e a nd : node_of pr a nd -> node_of (pr ++ [e]) a nd.
Proof.
  intros (e' & He & Hv & Hi & Hk). exists e'. split; [by apply lookup_app_l_Some |].
  split; [done |]. split; [done |]. destruct (e_kind e'); [done |]. intros q. rewrite Hk, ret_at_snoc.
  apply lookup_lt_Some in He. split; [tauto |]. intros [Hq [?|[-> _]]]; [done | lia].
Qed.

Lemma node_of_data pr a nd nd' : data nd' = data nd -> node_of pr a nd -> node_of pr a nd'.
Proof. intros [= Hv Hm Hi] (e & He & Hr). exists e. by rewrite Hv, Hm, Hi. Qed.

(** What the loop has built when it has processed the entries [pr], last entry first. *)
Definition built (pr : list (entry Inp Out)) (h : heap Inp Out) : Prop :=
  base.length h = base.length pr /\ seg h None (reverse (seq 0 (base.length pr))) None
  /\ forall a nd, h !! a = Some nd -> node_of pr a nd.

Lemma same_data_length h h' : same_data h h' -> base.length h' = base.length h.
Proof.
  intros Hd. apply Nat.le_antisymm; apply Nat.nlt_ge; intros Hlt;
    [specialize (Hd (base.length h)) | specialize (Hd (base.length h'))].
  - rewrite (lookup_ge_None_2 h) in Hd by lia. apply lookup_lt_is_Some in Hlt as [x Hx]. by rewrite Hx in Hd.
  - rewrite (lookup_ge_None_2 h') in Hd by lia. apply lookup_lt_is_Some in Hlt as [x Hx]. by rewrite Hx in Hd.
Qed.

Lemma built_snoc pr h e nd :
  built pr h -> n_prev nd = None -> n_next nd = None -> node_of (pr ++ [e]) (base.length pr) nd ->
  exists h', insertBefore (h ++ [nd]) (base.length h) (hd_or None (reverse (seq 0 (base.length pr)))) = Done h'
    /\ built (pr ++ [e]) h'.
Proof.
  intros (Hl & Hseg & Hn) Hpv Hnx Hnd.
  destruct (insertBefore_front h nd _ Hpv Hnx Hseg) as (h' & Hi & Hs' & Hd). exists h'. split; [done |].
  split; [|split].
  - rewrite (same_data_length _ _ Hd), !length_app. cbn. lia.
  - rewrite length_app. cbn [base.length]. rewrite Nat.add_1_r, seq_S, reverse_snoc, Nat.add_0_l, <- Hl.
    rewrite <- Hl in Hs'. exact Hs'.
  - intros a nd' Ha. specialize (Hd a). rewrite Ha in Hd. cbn in Hd.
    destruct ((h ++ [nd]) !! a) as [nd0|] eqn:E; [|done]. injection Hd as Hd.
    apply (node_of_data _ _ nd0); [unfold data; congruence |].
    apply lookup_app_Some in E as [E|[Hge E]]; [by apply node_of_snoc, Hn |].
    apply list_lookup_singleton_Some in E as [Ha0 <-]. by replace a with (base.length pr) by lia.
Qed.

Lemma makeLinkedEntries_loop_spec rev : forall pr h m,
  once (pr ++ rev) -> built pr h -> (forall x q, m !! x = Some q <-> ret_at pr x q) ->
  exists h', makeLinkedEntries_loop rev h m (hd_or None (reverse (seq 0 (base.length pr))))
      = Done (h', hd_or None (reverse (seq 0 (base.length (pr ++ rev))))) /\ built (pr ++ rev) h'.
Proof.
  induction rev as [|e rev IH]; intros pr h m Hon Hb Hm; cbn [makeLinkedEntries_loop].
  { rewrite app_nil_r. by exists h. }
  assert (pr ++ e :: rev = (pr ++ [e]) ++ rev) as Hsp by by rewrite <- app_assoc.
  assert (forall q, ret_at pr (e_id e) q -> (q < base.length pr)%nat) as Hlt.
  { intros q (e' & He & _). by apply lookup_lt_Some in He. }
  assert (hd_or None (reverse (seq 0 (base.length (pr ++ [e])))) = Some (base.length h)) as Hhd.
  { rewrite length_app, Nat.add_1_r, seq_S, reverse_snoc. cbn. destruct Hb as [-> _]. done. }
  destruct (e_kind e) eqn:Ek.
  - destruct (built_snoc pr h e (mkNode (Some (e_value e)) None (e_id e) None None)) as (h1 & -> & Hb1); try done.
    { exists e. rewrite Ek. split; [by apply list_lookup_middle | done]. }
    cbn [mbind go_bind]. rewrite <- Hhd, Hsp. apply IH; [by rewrite <- Hsp | done |].
    intros x q. rewrite ret_at_snoc, lookup_insert_Some, Hm. destruct Hb as [Hl _]. split.
    + intros [[<- <-]|[Hne Hr]]; [right; done | by left].
    + intros [Hr|(-> & _ & <-)]; [|left; done]. right. split; [|done].
      intros Hx. subst x. destruct Hr as (e' & He' & Hk' & Hx').
      assert (q = base.length pr); [|by apply lookup_lt_Some in He'; lia].
      eapply (Hon q (base.length pr) e' e); try congruence; [by apply lookup_app_l_Some | by apply list_lookup_middle].
  - destruct (built_snoc pr h e (mkNode (Some (e_value e)) (m !! e_id e) (e_id e) None None)) as (h1 & -> & Hb1); try done.
    { exists e. rewrite Ek. split; [by apply list_lookup_middle |]. split; [done |]. split; [done |].
      intros q. cbn. rewrite Hm, ret_at_snoc, Ek. split; [auto | by intros [_ [?|(_ & ? & _)]]]. }
    cbn [mbind go_bind]. rewrite <- Hhd, Hsp. apply IH; [by rewrite <- Hsp | done |].
    intros x q. rewrite ret_at_snoc, Hm, Ek. split; [by left | by intros [?|(_ & ? & _)]].
Qed.

Lemma makeLinkedEntries_spec (es : list (entry Inp Out)) :
  once (reverse es) ->
  exists h, makeLinkedEntries es = Done (h, hd_or None (reverse (seq 0 (base.length es)))) /\ built (reverse es) h.
Proof.
  intros Hon. destruct (makeLinkedEntries_loop_spec (reverse es) [] [] ∅) as (h & Hh & Hb); [done | | |].
  - split; [done |]. split; [done |]. by intros a nd ?%list_elem_of_lookup_2%elem_of_nil.
  - intros x q. rewrite lookup_empty. split; [done |]. by intros (e & ? & _).
  - cbn [app] in Hh, Hb. rewrite length_reverse in Hh. by exists h.
Qed.

Lemma length_loop_spec h l : forall fuel pv k,
  seg h pv l None -> (base.length l <= fuel)%nat -> length_loop fuel h (hd_or None l) k = Done (k + len l).
Proof.
  induction l as [|x l IH]; intros fuel pv k; cbn [seg hd_or base.length].
  - intros _ _. destruct fuel; cbn; f_equal; unfold len; cbn; lia.
  - intros ((nd & Hx & _ & Hnx) & Hs) Hf. cbn in Hf. destruct fuel as [|fuel]; [lia |]. cbn [length_loop].
    rewrite (deref_Some _ _ _ Hx). cbn [mbind go_bind]. rewrite Hnx, (IH fuel (Some x)); [|done | cbn in Hf; lia].
    f_equal. lia.
Qed.

Lemma length_spec pr h :
  built pr h -> length h (hd_or None (reverse (seq 0 (base.length pr)))) = Done (len pr).
Proof.
  intros (Hl & Hs & _). unfold length. rewrite (length_loop_spec h _ _ None).
  - f_equal. unfold len. rewrite length_reverse, length_seq. lia.
  - done.
  - rewrite length_reverse, length_seq. lia.
Qed.
End lists.
