(* ===== verification/CheckerSearch.v ===== *)
(** The search of [checkSingle] decides whether its list can be linearized: it explores,
    from every configuration it reaches, either to a linearization or back to where it
    was, with a bounded number of turns. *)
From S2P Require Import Prelude Bitset Checker LinSpec CheckerList.

#[export] Instance shallow_simulation {Inp Out St} `{!EqDecision St} (step : St -> Inp -> Out -> bool * St) :
  Simulation step ShallowEqual.
Proof.
  intros a b i o a' Heq Hs. apply bool_decide_eq_true in Heq as <-. exists a'. split; [done |].
  by apply bool_decide_eq_true.
Qed.

Section nodes.
Context {Inp Out : Type}.

(** What the heap says of the event at address [a]. *)
Definition idof (h : heap Inp Out) (a : nat) : Z :=
  match h !! a with Some nd => n_id nd | None => -1 end.
Definition ops (h : heap Inp Out) (a : nat) : option (Inp * Out) :=
  nd ← h !! a; m ← n_match nd; md ← h !! m;
  match n_value nd, n_value md with Some (VIn i), Some (VOut o) => Some (i, o) | _, _ => None end.

(** Each address is a call with its return in the list, or a return. *)
Definition node_ok (h : heap Inp Out) (L : list nat) (n : Z) (a : nat) : Prop :=
  exists nd, h !! a = Some nd /\ 0 <= n_id nd < n
    /\ match n_match nd with
       | None => True
       | Some m => m ∈ L /\ idof h m = n_id nd /\ ops h m = None /\ is_Some (ops h a)
       end.
End nodes.

(** [for n turns] *)
Fixpoint bound (c : nat) : nat := match c with O => O | S c => (S c * (2 + bound c))%nat end.

Section search.
Context {Inp Out St : Type} (model : Model Inp Out St) (equal : St -> St -> bool).
Context `{Hsim : !Simulation (Step model) equal}.
Context (cp : bool) (headp : nat) (h0 : heap Inp Out) (L : list nat) (n : Z) (words : nat).
Context (Hok : events_ok (idof h0) (ops h0) L) (Hnodes : forall a, a ∈ L -> node_ok h0 L n a).
Context (Hhead : headp ∉ L) (Hwords : n <= 64 * Z.of_nat words).

Implicit Types (s : search Inp Out St) (r : list nat).

Abbreviation lin := (lin (Step model) (idof h0) (ops h0)).
Abbreviation dead := (dead (Step model) (idof h0) (ops h0)).
Abbreviation drop_id := (drop_id (idof h0)).

(** The part of the list that is not in the set [b]. *)
Definition rem (b : list Z) : list nat := filter (fun a => Bitset.bit b (idof h0 a) = false) L.

Definition bits_ok (b : list Z) : Prop := Bitset.wf b /\ base.length b = words.

Definition in_cache (cache : gmap Z (list (cacheEntry St))) (ce : cacheEntry St) : Prop :=
  exists k l, cache !! k = Some l /\ ce ∈ l.
Definition dead_entry (ce : cacheEntry St) : Prop := dead (rem (linearized_of ce)) (state_of ce).

(** What the cache holds of configurations smaller than the current one is dead. *)
Definition cache_ok (d : nat) (cache : gmap Z (list (cacheEntry St))) : Prop :=
  forall ce, in_cache cache ce -> bits_ok (linearized_of ce)
    /\ ((base.length (rem (linearized_of ce)) < d)%nat -> dead_entry ce).

(** The cache has got dead entries only. *)
Definition grown (cache cache' : gmap Z (list (cacheEntry St))) : Prop :=
  forall ce, in_cache cache' ce -> in_cache cache ce \/ (bits_ok (linearized_of ce) /\ dead_entry ce).

Record config (s : search Inp Out St) (r : list nat) : Prop := {
  c_seg : seg (s_heap s) None (headp :: r) None;
  c_data : same_data h0 (s_heap s);
  c_bits : bits_ok (s_linearized s);
  c_rem : r = rem (s_linearized s);
  c_calls : Forall (fun c => c.1 ∈ L) (s_calls s);
  c_longest : len (s_longest s) = n;
  c_cache : cache_ok (base.length r) (s_cache s) }.

Lemma rem_sub b a : a ∈ rem b -> a ∈ L.
Proof. unfold rem. rewrite list_elem_of_filter. by intros [_ ?]. Qed.

Lemma rem_ok b : events_ok (idof h0) (ops h0) (rem b).
Proof.
  destruct Hok as [Hnd Hc Hr Hp]. unfold rem. split.
  - by apply NoDup_filter.
  - intros p [Hx Hin]%list_elem_of_filter Hop. destruct (Hc p Hin Hop) as (m & Hb & Hm & Hid).
    exists m. split; [|done]. apply before_filter; [done | by rewrite Hid | done].
  - intros m [Hx Hin]%list_elem_of_filter Hop. destruct (Hr m Hin Hop) as (p & Hpr & Hp' & Hid).
    exists p. split; [|done]. apply list_elem_of_filter. by rewrite Hid.
  - intros p q [_ Hp']%list_elem_of_filter [_ Hq]%list_elem_of_filter. by apply Hp.
Qed.

Lemma node_id a : a ∈ L -> 0 <= idof h0 a < n.
Proof. intros Ha. destruct (Hnodes a Ha) as (nd & Hnd & Hn & _). unfold idof. by rewrite Hnd. Qed.

Lemma set_bit b p :
  bits_ok b -> p ∈ L ->
  exists b', Bitset.set b (idof h0 p) = Done b' /\ bits_ok b' /\ rem b' = drop_id (idof h0 p) (rem b)
    /\ (p ∈ rem b -> Bitset.clear b' (idof h0 p) = Done b).
Proof.
  intros [Hwf Hlen] Hp. pose proof (node_id p Hp) as Hid.
  destruct (Bitset.set_spec b (idof h0 p)) as (b' & Hset & Hwf' & Hl' & Hbit); [done | lia |].
  exists b'. split; [done |]. split; [by split; [|congruence] |]. split.
  - unfold rem, LinSpec.drop_id. rewrite list_filter_filter. apply filter_ext_in.
    intros a Ha. rewrite Hbit by (apply node_id in Ha; lia). rewrite orb_false_iff, Z.eqb_neq. done.
  - intros [Hb _]%list_elem_of_filter.
    destruct (Bitset.clear_spec b' (idof h0 p)) as (b2 & Hclear & Hwf2 & Hl2 & Hbit2); [done | lia |].
    rewrite Hclear. f_equal. apply Bitset.wf_ext; [done..| lia |]. intros q Hq.
    rewrite Hbit2, Hbit by done. destruct (Z.eqb_spec q (idof h0 p)) as [->|]; [by rewrite Hb | done].
Qed.

(** The heap of a configuration has the values of the first one. *)
Lemma node_at h a : same_data h0 h -> a ∈ L ->
  exists nd, h !! a = Some nd /\ n_id nd = idof h0 a
    /\ match ops h0 a with
       | None => n_match nd = None
       | Some (i, o) => exists m md, n_match nd = Some m /\ h !! m = Some md /\ n_value nd = Some (VIn i)
           /\ n_value md = Some (VOut o) /\ m ∈ L /\ idof h0 m = idof h0 a /\ ops h0 m = None
       end.
Proof.
  intros Hd Ha. destruct (Hnodes a Ha) as (nd0 & Hnd0 & _ & Hm0).
  destruct (same_data_lookup _ _ _ _ Hd Hnd0) as (nd & Hnd).
  destruct (data_match _ _ _ _ _ Hd Hnd0 Hnd) as (Hma & Hi & Hv). exists nd. split; [done |].
  assert (idof h0 a = n_id nd0) as Hid by (unfold idof; by rewrite Hnd0).
  split; [congruence |]. destruct (n_match nd0) as [m|] eqn:Em.
  - destruct Hm0 as (HmL & Hmid & Hmo & [[i o] Hio]). rewrite Hio.
    destruct (Hnodes m HmL) as (md0 & Hmd0 & _ & _).
    destruct (same_data_lookup _ _ _ _ Hd Hmd0) as (md & Hmd).
    destruct (data_match _ _ _ _ _ Hd Hmd0 Hmd) as (_ & _ & Hmv).
    unfold ops in Hio. rewrite Hnd0 in Hio. cbn in Hio. rewrite Em in Hio. cbn in Hio.
    rewrite Hmd0 in Hio. cbn in Hio.
    destruct (n_value nd0) as [[i'|]|]; [|done..]. destruct (n_value md0) as [[|o']|]; [done| |done].
    injection Hio as -> ->. exists m, md. rewrite Hid. repeat split; congruence.
  - unfold ops. rewrite Hnd0. cbn. rewrite Em. cbn. congruence.
Qed.

(** ** Turns *)

Definition running (s : search Inp Out St) : Prop :=
  exists nd x, s_heap s !! headp = Some nd /\ n_next nd = Some x.
Definition next (s s' : search Inp Out St) : Prop :=
  running s /\ turn_of model equal cp headp s = Done (Again s').

Lemma head_next s r :
  seg (s_heap s) None (headp :: r) None ->
  exists nd, s_heap s !! headp = Some nd /\ n_next nd = hd_or None r.
Proof. intros [(nd & Hnd & _ & Hn) _]. by exists nd. Qed.

Lemma config_running s r : config s r -> r <> [] -> running s.
Proof.
  intros Hc Hne. destruct (head_next s r) as (nd & Hnd & Hn); [apply Hc |].
  destruct r as [|x r]; [done |]. by exists nd, x.
Qed.

Lemma in_L s r q : config s r -> q ∈ r -> q ∈ L.
Proof. intros Hc Hq. rewrite (c_rem _ _ Hc) in Hq. by apply rem_sub in Hq. Qed.

Lemma config_events s r : config s r -> events_ok (idof h0) (ops h0) r.
Proof. intros Hc. rewrite (c_rem _ _ Hc). apply rem_ok. Qed.

(** The successor of an entry of the list. *)
Lemma entry_next s r1 q r2 nd :
  config s (r1 ++ q :: r2) -> s_heap s !! q = Some nd -> n_next nd = hd_or None r2.
Proof.
  intros Hc Hq. pose proof (c_seg _ _ Hc) as Hs. rewrite app_comm_cons in Hs.
  apply seg_app in Hs as [_ [(nd' & Hq' & _ & Hn) _]]. congruence.
Qed.

Lemma lift_call s r1 q r2 i o :
  config s (r1 ++ q :: r2) -> ops h0 q = Some (i, o) ->
  exists h', lift (s_heap s) q = Done h'
    /\ seg h' None (headp :: drop_id (idof h0 q) (r1 ++ q :: r2)) None
    /\ same_data h0 h' /\ unlift h' q = Done (s_heap s).
Proof.
  intros Hc Hop. assert (q ∈ r1 ++ q :: r2) as Hqr by (apply elem_of_app; right; by left).
  pose proof (config_events _ _ Hc) as Hev. pose proof (in_L _ _ _ Hc Hqr) as HqL.
  destruct (node_at _ _ (c_data _ _ Hc) HqL) as (nd & Hnd & _ & Hma). rewrite Hop in Hma.
  destruct Hma as (m & _ & Hma & _ & _ & _ & HmL & Hmid & Hmo).
  destruct (ev_call _ _ _ Hev q Hqr) as (m' & (l1 & l2 & l3 & Hr) & Hmo' & Hmid'); [by rewrite Hop |].
  assert (m' = m) as ->.
  { apply (ev_pair _ _ _ Hok); [| done | congruence | by split].
    apply (in_L _ _ _ Hc). rewrite Hr, elem_of_app, elem_of_cons, elem_of_app, elem_of_cons. tauto. }
  rewrite Hr in *. pose proof (c_seg _ _ Hc) as Hs.
  destruct (exists_last (l := headp :: l1)) as (A & a & HA); [done |].
  assert (headp :: l1 ++ q :: l2 ++ m :: l3 = A ++ a :: q :: l2 ++ m :: l3) as Heq.
  { rewrite app_comm_cons, HA, <- app_assoc. done. }
  assert (NoDup (headp :: l1 ++ q :: l2 ++ m :: l3)) as Hnd'.
  { constructor; [|apply Hev]. intros Hin. by apply Hhead, (in_L _ _ _ Hc). }
  rewrite Heq in Hs, Hnd'.
  destruct (lift_unlift _ _ _ _ _ _ _ _ Hnd' Hs Hnd Hma) as (h' & Hl & Hs' & Hd' & Hu).
  exists h'. split; [done |]. split; [|split; [|done]].
  - rewrite (drop_id_call (idof h0) (ops h0)); [| done | by rewrite Hop | done..].
    rewrite app_comm_cons, HA, <- app_assoc. done.
  - eapply same_data_trans; [apply Hc | done].
Qed.

Lemma step_call s q i o nd m md :
  s_heap s !! q = Some nd -> n_match nd = Some m -> s_heap s !! m = Some md ->
  n_value nd = Some (VIn i) -> n_value md = Some (VOut o) ->
  (matching ← deref (s_heap s) (n_match nd);
   step_values model (s_state s) (n_value nd) (n_value matching)) = Done (Step model (s_state s) i o).
Proof. intros Hq Hm Hmd Hi Ho. rewrite Hm, (deref_Some _ _ _ Hmd). go_simpl. by rewrite Hi, Ho. Qed.

(** A call that is not taken: the model refuses it, or the cache has a configuration
    that covers it. *)
Definition refused (r : list nat) (st : St) (p : nat) : Prop :=
  forall i o st', ops h0 p = Some (i, o) -> Step model st i o = (true, st') ->
    dead (drop_id (idof h0 p) r) st'.

Lemma cached_dead d cache b st :
  cache_ok d cache -> (base.length (rem b) < d)%nat ->
  cacheContains equal cache (mkCacheEntry b st) = true -> dead (rem b) st.
Proof.
  intros Hc Hlt Hin. unfold cacheContains in Hin. apply existsb_exists in Hin as (ce & Hin & Heq).
  apply andb_true_iff in Heq as [Hb Heq]. apply Bitset.equals_spec in Hb. cbn [linearized_of state_of] in Hb, Heq, Hin.
  destruct (cache !! Bitset.hash b) as [l|] eqn:El; rewrite ?El in Hin; cbn in Hin; [|done].
  destruct (Hc ce) as [_ Hdead]; [exists (Bitset.hash b), l; split; [done | by apply list_elem_of_In] |].
  unfold dead_entry in Hdead. rewrite <- Hb in Hdead.
  intros ord Hl. apply (Hdead Hlt ord). by eapply lin_simulation.
Qed.

Lemma in_cache_insert cache k ce ce' :
  in_cache (<[k := default [] (cache !! k) ++ [ce]]> cache) ce' -> in_cache cache ce' \/ ce' = ce.
Proof.
  intros (k' & l & Hl & Hce). apply lookup_insert_Some in Hl as [[<- <-]|[Hne Hl]]; [|left; by exists k', l].
  apply elem_of_app in Hce as [Hce| ->%list_elem_of_singleton]; [|by right].
  destruct (cache !! k) as [l|] eqn:El; [left; by exists k, l | by apply elem_of_nil in Hce].
Qed.

Lemma cache_ok_insert d cache b st k :
  cache_ok d cache -> bits_ok b -> (base.length (rem b) <= d)%nat ->
  cache_ok (base.length (rem b)) (<[k := default [] (cache !! k) ++ [mkCacheEntry b st]]> cache).
Proof.
  intros Hc Hb Hle ce [Hce| ->]%in_cache_insert; [|split; [done | cbn; lia]].
  destruct (Hc ce Hce) as [Hbe Hd]. split; [done |]. intros ?. apply Hd. lia.
Qed.

Lemma cache_ok_grown d cache cache' : cache_ok d cache -> grown cache cache' -> cache_ok d cache'.
Proof. intros Hc Hg ce Hce. destruct (Hg ce Hce) as [Hin|[Hb Hd]]; [by apply Hc | done]. Qed.

Lemma grown_refl cache : grown cache cache.
Proof. intros ce Hce. by left. Qed.

Lemma grown_trans c1 c2 c3 : grown c1 c2 -> grown c2 c3 -> grown c1 c3.
Proof. intros H1 H2 ce Hce. destruct (H2 ce Hce) as [Hin|?]; [by apply H1 | by right]. Qed.

(** Two variable states that differ in the cache, the recorded slices and the entry. *)
Definition same_place (s s' : search Inp Out St) : Prop :=
  s_heap s' = s_heap s /\ s_linearized s' = s_linearized s /\ s_calls s' = s_calls s /\ s_state s' = s_state s.

Lemma same_place_trans s1 s2 s3 : same_place s1 s2 -> same_place s2 s3 -> same_place s1 s3.
Proof. unfold same_place. intuition congruence. Qed.

Lemma config_moved s s' r :
  config s r -> same_place s s' -> len (s_longest s') = n -> grown (s_cache s) (s_cache s') -> config s' r.
Proof.
  intros [] (Hh & Hl & Hc & Hs) Hlong Hca. split; [rewrite ?Hh, ?Hl, ?Hc; done.. |].
  by eapply cache_ok_grown.
Qed.

(** The call [q] of [r] is taken. *)
Record pushed s r q s1 : Prop := {
  p_next : next s s1;
  p_config : config s1 (drop_id (idof h0 q) r);
  p_entry : s_entry s1 = hd_or None (drop_id (idof h0 q) r);
  p_step : forall i o, ops h0 q = Some (i, o) -> Step model (s_state s) i o = (true, s_state s1);
  p_calls : s_calls s1 = s_calls s ++ [(q, s_state s)];
  p_unlift : unlift (s_heap s1) q = Done (s_heap s);
  p_clear : Bitset.clear (s_linearized s1) (idof h0 q) = Done (s_linearized s);
  p_cache : forall ce, in_cache (s_cache s1) ce -> in_cache (s_cache s) ce
    \/ (bits_ok (linearized_of ce) /\ rem (linearized_of ce) = drop_id (idof h0 q) r /\ state_of ce = s_state s1) }.

(** One turn at a call entry. *)
Lemma turn_call s r1 q r2 :
  config s (r1 ++ q :: r2) -> s_entry s = Some q -> is_Some (ops h0 q) ->
  (next s (s <| s_entry := hd_or None r2 |>) /\ refused (r1 ++ q :: r2) (s_state s) q)
  \/ exists s1, pushed s (r1 ++ q :: r2) q s1.
Proof.
  intros Hc He [[i o] Hop]. assert (q ∈ r1 ++ q :: r2) as Hqr by (apply elem_of_app; right; by left).
  assert (r1 ++ q :: r2 <> []) as Hne by by destruct r1.
  pose proof (in_L _ _ _ Hc Hqr) as HqL. pose proof (config_running _ _ Hc Hne) as Hrun.
  destruct (node_at _ _ (c_data _ _ Hc) HqL) as (nd & Hnd & Hid & Hma). rewrite Hop in Hma.
  destruct Hma as (m & md & Hma & Hmd & Hi & Ho & _).
  pose proof (entry_next _ _ _ _ _ Hc Hnd) as Hnx.
  assert (turn_of model equal cp headp s = (s ← try_call model equal headp q nd s; mret (Again s))) as Hturn.
  { unfold turn_of. rewrite He, (deref_Some _ _ _ Hnd). cbn [mbind go_bind]. by rewrite Hma. }
  unfold try_call in Hturn. rewrite Hma, (deref_Some _ _ _ Hmd) in Hturn. cbn [mbind go_bind] in Hturn.
  rewrite Hi, Ho in Hturn. go_simpl. cbn [step_values] in Hturn. unfold mret, go_ret in Hturn.
  cbn [mbind go_bind] in Hturn. rewrite Hnx in Hturn.
  destruct (Step model (s_state s) i o) as [ok st'] eqn:Es. destruct ok; last first.
  { left. split; [by split |]. intros i' o' st'' Hop'. rewrite Hop in Hop'. injection Hop' as <- <-. by rewrite Es. }
  rewrite Hid in Hturn.
  destruct (set_bit _ _ (c_bits _ _ Hc) HqL) as (b' & Hset & Hb' & Hrem & Hclear).
  unfold Bitset.clone in Hturn. rewrite Hset in Hturn. cbn [mbind go_bind] in Hturn.
  rewrite <- (c_rem _ _ Hc) in Hrem, Hclear.
  pose proof (drop_id_length (idof h0) _ _ Hqr) as Hlt.
  destruct (cacheContains equal (s_cache s) (mkCacheEntry b' st')) eqn:Eca; cbn [negb] in Hturn.
  { left. split; [by split |]. intros i' o' st'' Hop'. rewrite Hop in Hop'. injection Hop' as <- <-.
    rewrite Es. intros [= <-]. rewrite <- Hrem. eapply cached_dead; [apply (c_cache _ _ Hc) | by rewrite Hrem | done]. }
  right. destruct (lift_call _ _ _ _ _ _ Hc Hop) as (h' & Hlift & Hs' & Hd' & Hun).
  rewrite Hlift in Hturn. cbn [mbind go_bind] in Hturn. destruct Hs' as [(hd & Hhd & Hp & Hnh) Hs'].
  rewrite (deref_Some _ _ _ Hhd) in Hturn. cbn [mbind go_bind] in Hturn.
  eexists. split; cbn [s_heap s_state s_calls s_entry s_linearized s_cache].
  - split; [done | exact Hturn].
  - split; cbn [s_heap s_linearized s_calls s_longest s_cache]; try done.
    + split; [by exists hd | done].
    + apply Forall_app. split; [apply Hc | by constructor].
    + apply Hc.
    + rewrite <- Hrem. eapply cache_ok_insert; [apply (c_cache _ _ Hc) | done |]. rewrite Hrem. lia.
  - done.
  - intros i' o'. rewrite Hop. by intros [= <- <-].
  - done.
  - done.
  - by apply Hclear.
  - intros ce [Hin| ->]%in_cache_insert; [by left | right; done].
Qed.

(** ** Turning back *)

Definition ids_of (calls : list (nat * St)) : list Z := (fun c => idof h0 c.1) <$> calls.

Lemma call_ids_spec h calls :
  same_data h0 h -> Forall (fun c => c.1 ∈ L) calls -> call_ids h calls = Done (ids_of calls).
Proof.
  intros Hd Hall. induction calls as [|[p st] calls IH]; [done |]. apply Forall_cons in Hall as [Hp Hall].
  cbn [fst] in Hp. cbn [call_ids]. destruct (node_at _ _ Hd Hp) as (nd & Hnd & Hid & _).
  rewrite (deref_Some _ _ _ Hnd). cbn [mbind go_bind]. rewrite (IH Hall). go_simpl. by rewrite Hid.
Qed.

Lemma mark_longest_spec k ids ptr seqs longest :
  Forall (fun x => 0 <= x < len longest) ids ->
  exists longest', mark_longest k ids ptr seqs longest = Done longest' /\ base.length longest' = base.length longest.
Proof.
  revert longest. induction ids as [|x ids IH]; intros longest Hall; [by exists longest |].
  apply Forall_cons in Hall as [Hx Hall]. cbn [mark_longest].
  destruct (go_index_total longest x Hx) as (cur & -> & _). cbn [mbind go_bind].
  assert (exists l1, (if match cur with None => true | Some q => len (default [] (seqs !! q)) <? k end
            then go_update longest x (Some ptr) else mret longest) = Done l1
          /\ base.length l1 = base.length longest) as (l1 & -> & Hl1).
  { destruct (match cur with None => true | Some q => _ end); [|by exists longest].
    rewrite go_update_Done by done. eexists. split; [done |]. by rewrite length_insert. }
  cbn [mbind go_bind]. destruct (IH l1) as (l2 & -> & Hl2); [by rewrite Hl1 |].
  exists l2. split; [done | congruence].
Qed.

Lemma backtrack_spec s r1 q r2 s1 s1' :
  config s (r1 ++ q :: r2) -> s_calls s1 = s_calls s ++ [(q, s_state s)] ->
  same_place s1 s1' -> len (s_longest s1') = n -> same_data h0 (s_heap s1) ->
  Bitset.clear (s_linearized s1) (idof h0 q) = Done (s_linearized s) ->
  unlift (s_heap s1) q = Done (s_heap s) ->
  exists s2, backtrack cp s1' (q, s_state s) (s_calls s) = Done s2 /\ same_place s s2
    /\ s_entry s2 = hd_or None r2 /\ s_cache s2 = s_cache s1' /\ len (s_longest s2) = n.
Proof.
  intros Hc Hcalls (Hh & Hli & Hca & Hst) Hlong Hd Hclear Hun.
  assert (q ∈ r1 ++ q :: r2) as Hqr by (apply elem_of_app; right; by left).
  pose proof (in_L _ _ _ Hc Hqr) as HqL.
  assert (Forall (fun c => c.1 ∈ L) (s_calls s1')) as Hall.
  { rewrite Hca, Hcalls. apply Forall_app. split; [apply Hc | by constructor]. }
  unfold backtrack. cbn [fst snd].
  assert (exists seqs longest, (if cp then
      ids ← call_ids (s_heap s1') (s_calls s1');
      longest ← mark_longest (len (s_calls s1')) ids (base.length (s_seqs s1')) (s_seqs s1' ++ [ids]) (s_longest s1');
      mret (s_seqs s1' ++ [ids], longest)
    else mret (s_seqs s1', s_longest s1')) = Done (seqs, longest) /\ len longest = n) as (seqs & longest & -> & Hl).
  { destruct cp; [|by exists (s_seqs s1'), (s_longest s1')].
    rewrite call_ids_spec; [| by rewrite Hh | done]. cbn [mbind go_bind].
    destruct (mark_longest_spec (len (s_calls s1')) (ids_of (s_calls s1')) (base.length (s_seqs s1'))
      (s_seqs s1' ++ [ids_of (s_calls s1')]) (s_longest s1')) as (longest & -> & Hl).
    - rewrite Hlong. apply Forall_fmap. eapply Forall_impl; [exact Hall |]. intros c. apply node_id.
    - eexists _, _. split; [done |]. by rewrite Hl. }
  cbn [mbind go_bind]. destruct (node_at (s_heap s1') q) as (nd & Hnd & Hid & _); [by rewrite Hh | done |].
  rewrite (deref_Some _ _ _ Hnd). cbn [mbind go_bind]. rewrite Hid, Hli, Hclear. cbn [mbind go_bind].
  rewrite Hh, Hun. cbn [mbind go_bind].
  destruct (node_at (s_heap s) q (c_data _ _ Hc) HqL) as (nd2 & Hnd2 & _ & _).
  rewrite (deref_Some _ _ _ Hnd2). cbn [mbind go_bind]. go_simpl.
  eexists. split; [done |]. split; [done |]. split; [by eapply entry_next | done].
Qed.

(** ** Exploring *)

Definition at_end (s : search Inp Out St) : Prop :=
  exists hd, s_heap s !! headp = Some hd /\ n_next hd = None.

(** Within [k] turns the search either empties the list, having called a linearization
    of [r], or stands before a return with everything as it was, and [r] is dead. *)
Definition won s r (k : nat) : Prop :=
  exists j s' ord, (j <= k)%nat /\ nsteps next j s s' /\ at_end s' /\ lin r (s_state s) ord
    /\ same_data h0 (s_heap s') /\ Forall (fun c => c.1 ∈ L) (s_calls s')
    /\ ids_of (s_calls s') = ids_of (s_calls s) ++ ord.
Definition lost s r (k : nat) : Prop :=
  exists j s' q nd, (j <= k)%nat /\ nsteps next j s s' /\ same_place s s' /\ running s'
    /\ len (s_longest s') = n /\ grown (s_cache s) (s_cache s')
    /\ s_entry s' = Some q /\ s_heap s' !! q = Some nd /\ n_match nd = None
    /\ dead r (s_state s).
Definition outcome s r k : Prop := won s r k \/ lost s r k.

Lemma outcome_later s s1 r j k :
  nsteps next j s s1 -> same_place s s1 -> grown (s_cache s) (s_cache s1) -> outcome s1 r k ->
  outcome s r (j + k).
Proof.
  intros Hj (Hh & Hl & Hc & Hst) Hg [Hw|Hl'].
  - left. destruct Hw as (i & s' & ord & Hi & Hn & He & Hlin & Hd & Hall & Hids).
    exists (j + i)%nat, s', ord. rewrite Hst in Hlin. rewrite Hc in Hids.
    split; [lia |]. split; [by eapply nsteps_trans | done].
  - right. destruct Hl' as (i & s' & q & nd & Hi & Hn & (Hh' & Hl' & Hc' & Hst') & Hr & Hlong & Hg' & Hrest).
    exists (j + i)%nat, s', q, nd. split; [lia |]. split; [by eapply nsteps_trans |].
    split; [unfold same_place; repeat split; congruence |]. split; [done |]. split; [done |].
    split; [by eapply grown_trans |]. by rewrite Hst in Hrest.
Qed.

Lemma outcome_le s r k k' : (k <= k')%nat -> outcome s r k -> outcome s r k'.
Proof.
  intros Hle [(j & s' & ord & Hj & H)|(j & s' & q & nd & Hj & H)];
    [left; exists j, s', ord | right; exists j, s', q, nd]; (split; [lia | done]).
Qed.

(** A call was taken, and what is left of the list was explored. *)
Lemma outcome_call s r1 q r2 s1 k k2 :
  config s (r1 ++ q :: r2) -> is_Some (ops h0 q) -> Forall (fun a => is_Some (ops h0 a)) r1 ->
  pushed s (r1 ++ q :: r2) q s1 -> outcome s1 (drop_id (idof h0 q) (r1 ++ q :: r2)) k ->
  (forall s2, config s2 (r1 ++ q :: r2) -> s_entry s2 = hd_or None r2 -> same_place s s2 ->
     refused (r1 ++ q :: r2) (s_state s) q -> outcome s2 (r1 ++ q :: r2) k2) ->
  outcome s (r1 ++ q :: r2) (2 + k + k2).
Proof.
  intros Hc [[i o] Hop] Hall Hp [Hw|Hl] Hcont; pose proof (p_step _ _ _ _ Hp i o Hop) as Hs.
  - left. destruct Hw as (j & s' & ord & Hj & Hn & He & Hlin & Hd & Hall' & Hids).
    exists (S j), s', (idof h0 q :: ord). split; [lia |]. split; [econstructor; [apply Hp | done] |].
    split; [done |]. split; [by eapply lin_cons |]. split; [done |]. split; [done |].
    rewrite Hids, (p_calls _ _ _ _ Hp). unfold ids_of. rewrite fmap_app, <- app_assoc. done.
  - destruct Hl as (j & s1' & q' & nd & Hj & Hn & Hsame & Hrun & Hlong & Hg & He & Hq' & Hm & Hdead).
    destruct (backtrack_spec s r1 q r2 s1 s1') as (s2 & Hb & Hsame2 & He2 & Hca2 & Hlong2); try apply Hp; try done.
    assert (next s1' s2) as Hnext2.
    { split; [done |]. unfold turn_of. rewrite He, (deref_Some _ _ _ Hq'). cbn [mbind go_bind]. rewrite Hm.
      destruct Hsame as (_ & _ & -> & _). rewrite (p_calls _ _ _ _ Hp), last_snoc, removelast_last, Hb. done. }
    assert (refused (r1 ++ q :: r2) (s_state s) q) as Href.
    { intros i' o' st'. rewrite Hop. intros [= <- <-]. rewrite Hs. by intros [= <-]. }
    assert (grown (s_cache s) (s_cache s2)) as Hg2.
    { rewrite Hca2. intros ce Hce. destruct (Hg ce Hce) as [Hin|]; [|by right].
      destruct (p_cache _ _ _ _ Hp ce Hin) as [|(Hbits & Hrem & Hst)]; [by left | right].
      split; [done |]. unfold dead_entry. by rewrite Hrem, Hst. }
    apply (outcome_le _ _ (S (j + 1) + k2)); [lia |].
    apply (outcome_later s s2); [|done | done | apply Hcont; try done; by eapply config_moved].
    econstructor; [apply Hp |]. eapply nsteps_trans; [exact Hn |]. by apply nsteps_once.
Qed.

(** From an entry of the list on, when the calls before it were refused. *)
Lemma scan_outcome c r2 : forall s r1,
  (forall s r, (base.length r <= c)%nat -> config s r -> s_entry s = hd_or None r -> outcome s r (bound c)) ->
  config s (r1 ++ r2) -> (base.length (r1 ++ r2) <= S c)%nat -> r1 ++ r2 <> [] ->
  s_entry s = hd_or None r2 -> Forall (fun a => is_Some (ops h0 a)) r1 ->
  (forall p, p ∈ r1 -> refused (r1 ++ r2) (s_state s) p) ->
  outcome s (r1 ++ r2) (base.length r2 * (2 + bound c)).
Proof.
  induction r2 as [|q r2 IH]; intros s r1 Hexp Hc Hlen Hne He Hall Href.
  { rewrite app_nil_r in *. exfalso. eapply not_all_calls; [eapply config_events, Hc | done..]. }
  assert (q ∈ r1 ++ q :: r2) as Hqr by (apply elem_of_app; right; by left).
  assert (forall s2, config s2 (r1 ++ q :: r2) -> s_entry s2 = hd_or None r2 -> same_place s s2 ->
    refused (r1 ++ q :: r2) (s_state s) q -> is_Some (ops h0 q) ->
    outcome s2 (r1 ++ q :: r2) (base.length r2 * (2 + bound c))) as Hrest.
  { intros s2 Hc2 He2 (_ & _ & _ & Hst) Hrefq Hq.
    assert (r1 ++ q :: r2 = (r1 ++ [q]) ++ r2) as Heq by by rewrite <- app_assoc. rewrite Heq in *.
    apply IH; try done; [by apply Forall_app; auto |].
    intros p [Hp| ->%list_elem_of_singleton]%elem_of_app; rewrite Hst; [by apply Href | done]. }
  destruct (ops h0 q) eqn:Eop; last first.
  { right. destruct (node_at _ _ (c_data _ _ Hc) (in_L _ _ _ Hc Hqr)) as (nd & Hnd & _ & Hma).
    rewrite Eop in Hma. exists 0%nat, s, q, nd. split; [lia |]. split; [constructor |]. split; [done |].
    split; [by eapply config_running |]. split; [apply Hc |]. split; [apply grown_refl |]. split; [done |].
    split; [done |]. split; [done |]. apply scan_dead; [done |]. intros p i o st' Hp Hop Hst.
    by apply (Href p Hp i o). }
  destruct (turn_call s r1 q r2 Hc He) as [[Hn Hr]|(s1 & Hp)]; [by rewrite Eop | |].
  - apply (outcome_le _ _ (1 + base.length r2 * (2 + bound c))); [cbn; lia |].
    apply (outcome_later s (s <| s_entry := hd_or None r2 |>)); [by apply nsteps_once | done | apply grown_refl |].
    apply Hrest; try done. eapply config_moved; [exact Hc | done | apply Hc | apply grown_refl].
  - apply (outcome_le _ _ (2 + bound c + base.length r2 * (2 + bound c))); [cbn; lia |].
    eapply outcome_call; [exact Hc | by rewrite Eop | exact Hall | exact Hp | |].
    + apply Hexp; [|apply Hp..]. pose proof (drop_id_length (idof h0) _ _ Hqr). lia.
    + intros. by apply Hrest.
Qed.

Lemma explore c : forall s r,
  (base.length r <= c)%nat -> config s r -> s_entry s = hd_or None r -> outcome s r (bound c).
Proof.
  induction c as [|c IH]; intros s r Hlen Hc He.
  - left. destruct r as [|x r]; [|cbn in Hlen; lia]. exists 0%nat, s, [].
    destruct (head_next s []) as (hd & Hhd & Hn); [apply Hc |].
    split; [lia |]. split; [constructor |]. split; [by exists hd |]. split; [constructor |].
    split; [apply Hc |]. split; [apply Hc | by rewrite app_nil_r].
  - destruct r as [|x r]; [eapply outcome_le; [|apply IH; [cbn; lia | done..]]; cbn; lia |].
    apply (outcome_le _ _ (base.length (x :: r) * (2 + bound c))).
    { cbn [bound]. apply Nat.mul_le_mono_r. done. }
    apply (scan_outcome c (x :: r) s []); try done. by intros p ?%elem_of_nil.
Qed.

(** ** The loop *)

Definition nokill : nat -> bool := fun _ => false.

Lemma checkLoop_steps j s s' fuel i :
  nsteps next j s s' ->
  checkLoop model equal cp nokill headp (j + fuel) i s = checkLoop model equal cp nokill headp fuel (i + j) s'.
Proof.
  intros Hn. revert i. induction Hn as [s|j s s1 s' [(hd & x & Hhd & Hx) Hturn] Hn IH]; intros i.
  - by rewrite Nat.add_0_r.
  - cbn [Nat.add checkLoop]. rewrite (deref_Some _ _ _ Hhd). cbn [mbind go_bind]. rewrite Hx.
    cbn [nokill]. rewrite Hturn. cbn [mbind go_bind]. rewrite IH. by rewrite Nat.add_succ_r.
Qed.

(** The search from the whole list: it ends, and its verdict is right. *)
Lemma search_correct s fuel :
  config s L -> s_entry s = hd_or None L -> s_calls s = [] -> (bound (base.length L) < fuel)%nat ->
  exists ok s', checkLoop model equal cp nokill headp fuel 0 s = Done (ok, s')
    /\ if ok : bool then lin L (s_state s) (ids_of (s_calls s'))
         /\ call_ids (s_heap s') (s_calls s') = Done (ids_of (s_calls s'))
       else dead L (s_state s).
Proof.
  intros Hc He Hcalls Hfuel. destruct (explore (base.length L) s L) as [Hw|Hl]; [done.. | |].
  - destruct Hw as (j & s' & ord & Hj & Hn & (hd & Hhd & Hend) & Hlin & Hd & Hall & Hids).
    exists true, s'. replace fuel with (j + (fuel - j))%nat by lia. rewrite (checkLoop_steps _ _ _ _ _ Hn).
    split.
    + destruct (fuel - j)%nat; cbn [checkLoop]; rewrite (deref_Some _ _ _ Hhd); cbn [mbind go_bind]; by rewrite Hend.
    + rewrite Hcalls in Hids. cbn in Hids. rewrite Hids. split; [done |]. rewrite <- Hids. by apply call_ids_spec.
  - destruct Hl as (j & s' & q & nd & Hj & Hn & (_ & _ & Hca & _) & (hd & x & Hhd & Hx) & _ & _ & He' & Hq & Hm & Hdead).
    exists false, s'. split; [|done].
    replace fuel with (j + (S (fuel - j - 1)))%nat by lia. rewrite (checkLoop_steps _ _ _ _ _ Hn).
    cbn [checkLoop]. rewrite (deref_Some _ _ _ Hhd). cbn [mbind go_bind]. rewrite Hx. cbn [nokill].
    unfold turn_of. rewrite He', (deref_Some _ _ _ Hq). cbn [mbind go_bind]. rewrite Hm, Hca, Hcalls. done.
Qed.
End search.

(** A run that is told to stop returns false, or what the run to the end returns. *)
Lemma checkLoop_kill {Inp Out St} (model : Model Inp Out St) equal cp kill headp fuel i s ok s' :
  checkLoop model equal cp nokill headp fuel i s = Done (ok, s') ->
  exists ok' s'', checkLoop model equal cp kill headp fuel i s = Done (ok', s'')
    /\ ((ok', s'') = (ok, s') \/ (ok' = false /\ exists t, kill t = true)).
Proof.
  revert i s. induction fuel as [|fuel IH]; intros i s; cbn [checkLoop];
    (destruct (deref (s_heap s) (Some headp)) as [hd| |]; [|done..]); cbn [mbind go_bind];
    (destruct (n_next hd); [|intros [= <- <-]; by exists true, s; auto]); cbn [nokill]; [done |].
  intros H. destruct (kill i) eqn:Ek; [exists false, s; by eauto |].
  destruct (turn_of model equal cp headp s) as [t| |]; [|done..]. cbn [mbind go_bind] in *.
  destruct t as [s1|ok1 s1]; [by apply IH | injection H as <- <-; by exists ok1, s1; auto].
Qed.
