(* ===== verification/CheckerOrder.v ===== *)
(** The order of the calls that the search has on its stack: a call is taken before the
    return of any operation that is not below it on the stack.  So the partial
    linearizations that the verbose checks record, those of a search that failed or was
    killed too, respect the order of the history. *)
From S2P Require Import Prelude Bitset Checker LinSpec CheckerList CheckerSearch.

Section order.
Context {Inp Out St : Type} (model : Model Inp Out St) (equal : St -> St -> bool).
Context (cp : bool) (headp : nat) (h0 : heap Inp Out) (L : list nat) (n : Z) (words : nat).
Context (Hok : events_ok (idof h0) (ops h0) L) (Hnodes : forall a, a ∈ L -> node_ok h0 L n a).
Context (Hhead : headp ∉ L) (Hwords : n <= 64 * Z.of_nat words).

Implicit Types (s : search Inp Out St) (h : heap Inp Out) (r : list nat) (b : list Z) (calls : list (nat * St)).

Abbreviation drop_id := (drop_id (idof h0)).
Abbreviation rem := (rem h0 L).
Abbreviation ids_of := (ids_of (St := St) h0).
Abbreviation bits_ok := (bits_ok words).
Definition is_call (a : nat) : Prop := is_Some (ops h0 a).

(** The list [r] in the heap [h], with the bit set [b]. *)
Record held h b r : Prop := {
  hl_seg : seg h None (headp :: r) None;
  hl_data : same_data h0 h;
  hl_bits : bits_ok b;
  hl_rem : r = rem b }.

Lemma held_config h b r st : held h b r -> 0 <= n ->
  config model headp h0 L n words (mkSearch h None b ∅ [] st [] (replicate (Z.to_nat n) None)) r.
Proof.
  intros [] Hn. split; cbn [s_heap s_linearized s_calls s_longest s_cache]; try done.
  - rewrite length_replicate. lia.
  - intros ce (k & l & Hl & _). by rewrite lookup_empty in Hl.
Qed.

Lemma held_in h b r a : held h b r -> a ∈ r -> a ∈ L.
Proof. intros Hh Ha. rewrite (hl_rem _ _ _ Hh) in Ha. by apply rem_sub in Ha. Qed.

(** The stack, with the heap and the bit set below each call. *)
Inductive stack : list (nat * St) -> heap Inp Out -> list Z -> list nat -> Prop :=
| stack_nil h b : held h b L -> stack [] h b L
| stack_push calls h b r1 q r2 st h' b' :
    stack calls h b (r1 ++ q :: r2) -> Forall is_call r1 -> is_call q ->
    held h' b' (drop_id (idof h0 q) (r1 ++ q :: r2)) -> unlift h' q = Done h -> Bitset.clear b' (idof h0 q) = Done b ->
    stack (calls ++ [(q, st)]) h' b' (drop_id (idof h0 q) (r1 ++ q :: r2)).

Lemma stack_held calls h b r : stack calls h b r -> held h b r.
Proof. by destruct 1. Qed.

Lemma stack_rest calls h b r : stack calls h b r -> forall a, a ∈ r <-> a ∈ L /\ (idof h0 a ∉ ids_of calls).
Proof.
  induction 1 as [|calls h b r1 q r2 st h' b' _ IH _ _ _ _ _]; intros a.
  - split; [intros Ha; split; [done | apply not_elem_of_nil] | by intros [? _]].
  - rewrite drop_id_elem, IH. unfold CheckerSearch.ids_of. rewrite fmap_app, not_elem_of_app. cbn.
    rewrite not_elem_of_cons. pose proof (not_elem_of_nil (idof h0 a)). tauto.
Qed.

(** The calls [ids], in this order: each of its own operation, and before the return of
    every operation that is not before it. *)
Definition ordered (ids : list Z) : Prop :=
  forall k x, ids !! k = Some x -> exists p, p ∈ L /\ is_call p /\ idof h0 p = x /\ (x ∉ take k ids)
    /\ forall m, m ∈ L -> ops h0 m = None -> idof h0 m ∉ take k ids -> before L p m.

Lemma before_sublist (r1 : list nat) q r2 m b :
  r1 ++ q :: r2 = rem b -> Forall is_call r1 -> is_call q -> m ∈ r1 ++ q :: r2 -> ops h0 m = None -> before L q m.
Proof.
  intros Hr Hall [io Hq] Hm Hop. apply (before_of_filter (fun a => Bitset.bit b (idof h0 a) = false)).
  change (before (rem b) q m). rewrite <- Hr. apply elem_of_app in Hm as [Hm|[->|Hm]%elem_of_cons].
  - rewrite Forall_forall in Hall. apply Hall in Hm as [? ?]. congruence.
  - congruence.
  - apply list_elem_of_split in Hm as (l1 & l2 & ->). by exists r1, l1, l2.
Qed.

Lemma stack_ordered calls h b r : stack calls h b r -> ordered (ids_of calls).
Proof.
  induction 1 as [|calls h b r1 q r2 st h' b' Hs IH Hall Hq _ _ _]; intros k x Hk; [by destruct k |].
  unfold CheckerSearch.ids_of in *. rewrite fmap_app in *. apply lookup_app_Some in Hk as [Hk|[Hge Hk]].
  - pose proof (lookup_lt_Some _ _ _ Hk). rewrite take_app_le by lia. by apply IH.
  - apply list_lookup_singleton_Some in Hk as [Hk <-]. assert (k = base.length ((fun c => idof h0 c.1) <$> calls)) as -> by lia.
    rewrite take_app_length. pose proof (stack_rest _ _ _ _ Hs) as Hrest. pose proof (stack_held _ _ _ _ Hs) as Hh.
    assert (q ∈ r1 ++ q :: r2) as Hqr by (apply elem_of_app; right; left).
    pose proof (proj1 (Hrest q) Hqr) as [HqL Hnot]. exists q. split; [done |]. split; [done |]. split; [done |].
    split; [done |]. intros m HmL Hop Hm. eapply (before_sublist r1 q r2 m b); [apply Hh | done.. | | done].
    by apply Hrest.
Qed.

(** ** Turns *)

Record walk s r : Prop := {
  wk_stack : stack (s_calls s) (s_heap s) (s_linearized s) r;
  wk_entry : exists r1 r2, r = r1 ++ r2 /\ s_entry s = hd_or None r2 /\ Forall is_call r1;
  wk_seqs : Forall (fun ids => ids <> [] /\ ordered ids) (s_seqs s) }.

Context (Hn : 0 <= n).

Lemma entry_node h b r q nd : held h b r -> q ∈ r -> h !! q = Some nd ->
  n_id nd = idof h0 q /\ (is_Some (n_match nd) <-> is_call q).
Proof.
  intros Hh Hq Hnd. destruct (node_at h0 L n Hnodes h q (hl_data _ _ _ Hh) (held_in _ _ _ _ Hh Hq)) as (nd' & Hnd' & Hid & Hm).
  rewrite Hnd in Hnd'. injection Hnd' as <-. split; [done |]. unfold is_call. destruct (ops h0 q) as [[i o]|].
  - destruct Hm as (m & md & -> & _). by split; eexists.
  - rewrite Hm. by split; intros [? ?].
Qed.

Lemma entry_after h b r1 q r2 nd : held h b (r1 ++ q :: r2) -> h !! q = Some nd -> n_next nd = hd_or None r2.
Proof.
  intros Hh. apply (entry_next model headp h0 L n words _ r1 q r2 nd (held_config h b _ (Init model) Hh Hn)).
Qed.

Lemma try_call_walk s r1 q r2 nd s' :
  walk s (r1 ++ q :: r2) -> s_entry s = Some q -> Forall is_call r1 -> is_call q -> s_heap s !! q = Some nd ->
  try_call model equal headp q nd s = Done s' -> exists r', walk s' r'.
Proof.
  intros [Hst _ Hseqs] He Hall Hq Hnd H. pose proof (stack_held _ _ _ _ Hst) as Hh.
  assert (q ∈ r1 ++ q :: r2) as Hqr by (apply elem_of_app; right; left).
  destruct (entry_node _ _ _ _ _ Hh Hqr Hnd) as [Hid _].
  assert (walk (s <| s_entry := n_next nd |>) (r1 ++ q :: r2)) as Hskip.
  { split; [done | | done]. exists (r1 ++ [q]), r2. split; [by rewrite <- app_assoc |].
    split; [by apply (entry_after _ _ _ _ _ _ Hh Hnd) |]. apply Forall_app. split; [done | by constructor]. }
  unfold try_call in H. apply go_bind_Done in H as (md & _ & H). apply go_bind_Done in H as ([ok st] & _ & H).
  destruct ok; [|injection H as <-; eauto]. apply go_bind_Done in H as (bl & _ & H).
  destruct (negb _); [|injection H as <-; eauto]. apply go_bind_Done in H as (b2 & Hset & H).
  apply go_bind_Done in H as (h & Hlift & H). apply go_bind_Done in H as (hd & Hhd & [= <-]).
  pose proof (held_in _ _ _ _ Hh Hqr) as HqL. rewrite Hid in Hset.
  destruct (set_bit h0 L n words Hnodes Hwords _ q (hl_bits _ _ _ Hh) HqL) as (b' & Hset' & Hb' & Hrem & Hclear).
  rewrite Hset in Hset'. injection Hset' as <-. rewrite <- (hl_rem _ _ _ Hh) in Hrem, Hclear.
  pose proof Hq as [[i o] Hop].
  destruct (lift_call model headp h0 L n words Hok Hnodes Hhead _ r1 q r2 i o (held_config _ _ _ (Init model) Hh Hn) Hop)
    as (h' & Hlift' & Hseg & Hd & Hun). cbn [s_heap] in Hlift', Hun. rewrite Hlift in Hlift'. injection Hlift' as <-.
  exists (drop_id (idof h0 q) (r1 ++ q :: r2)). split; cbn [s_calls s_heap s_linearized s_entry s_seqs].
  - eapply stack_push; [exact Hst | done | done | by split | done | by apply Hclear].
  - exists [], (drop_id (idof h0 q) (r1 ++ q :: r2)). split; [done |]. split; [|done].
    destruct Hseg as [(hd' & Hhd' & _ & Hnx) _]. cbn in Hhd. rewrite Hhd' in Hhd. injection Hhd as ->. exact Hnx.
  - done.
Qed.

Lemma call_ids_stack calls h b r ids : stack calls h b r -> call_ids h calls = Done ids -> ids = ids_of calls.
Proof.
  intros Hst Hids. rewrite (call_ids_spec h0 L n Hnodes) in Hids; [by injection Hids | apply (stack_held _ _ _ _ Hst) |].
  pose proof (stack_ordered _ _ _ _ Hst) as Hord. clear Hids. induction Hst as [|calls h b r1 q r2 st h' b' Hst IH Hall Hq]; [done |].
  apply Forall_app. split; [by apply IH, (stack_ordered _ _ _ _ Hst) |]. constructor; [|done]. cbn.
  eapply held_in; [by eapply stack_held |]. apply elem_of_app. right. left.
Qed.

Lemma backtrack_walk s r top rest s' :
  walk s r -> s_calls s = rest ++ [top] -> backtrack cp s top rest = Done s' -> exists r', walk s' r'.
Proof.
  intros [Hst _ Hseqs] Htop H. unfold backtrack in H. apply go_bind_Done in H as ([seqs longest] & Hsq & H).
  apply go_bind_Done in H as (nd & Hnd & H). apply go_bind_Done in H as (b1 & Hclear & H).
  apply go_bind_Done in H as (h1 & Hun & H). apply go_bind_Done in H as (nd' & Hnd' & [= <-]).
  assert (Forall (fun ids => ids <> [] /\ ordered ids) seqs) as Hall.
  { destruct cp; [|by injection Hsq as <- _]. apply go_bind_Done in Hsq as (ids & Hids & Hsq).
    apply go_bind_Done in Hsq as (l & _ & [= <- _]). apply Forall_app. split; [done |]. constructor; [|done].
    apply (call_ids_stack _ _ _ _ _ Hst) in Hids as ->. split; [|by eapply stack_ordered].
    rewrite Htop. unfold CheckerSearch.ids_of. rewrite fmap_app. by destruct (_ <$> rest). }
  inversion Hst as [h b Hh Hc|calls h b r1 q r2 st h' b' Hst0 Hall1 Hq Hh' Hun0 Hclear0 Hc Hheap Hlin Hr].
  { rewrite Htop in Hc. by destruct rest. }
  rewrite Htop in Hc. apply app_inj_tail in Hc as [-> <-]. cbn [fst snd] in *.
  rewrite Hun0 in Hun. injection Hun as <-.
  pose proof (stack_held _ _ _ _ Hst0) as Hh. assert (q ∈ r1 ++ q :: r2) as Hqr by (apply elem_of_app; right; left).
  assert (q ∈ L) as HqL by by eapply held_in.
  destruct (node_at h0 L n Hnodes (s_heap s) q (hl_data _ _ _ Hh') HqL) as (nd2 & Hnd2 & Hid2 & _).
  cbn in Hnd. rewrite Hnd2 in Hnd. injection Hnd as <-. rewrite Hid2, Hclear0 in Hclear. injection Hclear as <-.
  exists (r1 ++ q :: r2). split; cbn [s_calls s_heap s_linearized s_entry s_seqs]; [done | | done].
  exists (r1 ++ [q]), r2. split; [by rewrite <- app_assoc |].
  cbn in Hnd'. destruct (h !! q) as [nd3|] eqn:E3; [|done]. injection Hnd' as <-.
  split; [by apply (entry_after _ _ _ _ _ _ Hh E3) |]. apply Forall_app. split; [done | by constructor].
Qed.

Lemma turn_walk s r t : walk s r -> turn_of model equal cp headp s = Done t ->
  match t with Again s' | Finish _ s' => exists r', walk s' r' end.
Proof.
  intros Hw H. unfold turn_of in H. apply go_bind_Done in H as (nd & Hnd & H).
  assert (match last (s_calls s) with
    | None => mret (Finish false s)
    | Some top => s ← backtrack cp s top (removelast (s_calls s)); mret (Again s)
    end = Done t -> match t with Again s' | Finish _ s' => exists r', walk s' r' end) as Hback.
  { destruct (last (s_calls s)) as [top|] eqn:El; [|intros [= <-]; by exists r].
    intros (s' & Hb & [= <-])%go_bind_Done. eapply backtrack_walk; [exact Hw | | exact Hb].
    apply last_Some in El as [l Hl]. by rewrite Hl, removelast_last. }
  destruct (s_entry s) as [p|] eqn:He; [|by apply Hback]. destruct (n_match nd) as [m|] eqn:Em; [|by apply Hback].
  apply go_bind_Done in H as (s' & Ht & [= <-]). pose proof (wk_entry _ _ Hw) as (r1 & r2 & -> & Hent & Hall).
  rewrite He in Hent. destruct r2 as [|q r2]; [done |]. injection Hent as <-.
  cbn in Hnd. destruct (s_heap s !! p) as [nd'|] eqn:Ep; [|done]. injection Hnd as ->.
  eapply try_call_walk; [exact Hw | done | done | | done | exact Ht].
  destruct (entry_node _ _ _ p nd (stack_held _ _ _ _ (wk_stack _ _ Hw)) ltac:(apply elem_of_app; right; left) Ep) as [_ <-].
  by rewrite Em.
Qed.

Lemma checkLoop_walk kill fuel : forall i s r ok s',
  walk s r -> checkLoop model equal cp kill headp fuel i s = Done (ok, s') ->
  exists r', walk s' r' /\ (ok = true -> r' = []).
Proof.
  induction fuel as [|fuel IH]; intros i s r ok s' Hw H; cbn [checkLoop] in H;
    apply go_bind_Done in H as (hd & Hhd & H).
  all: assert (n_next hd = None -> r = []) as Hempty.
  1,3: intros Hno; destruct (hl_seg _ _ _ (stack_held _ _ _ _ (wk_stack _ _ Hw))) as [(hd' & Hhd' & _ & Hnx) _];
    cbn in Hhd; rewrite Hhd' in Hhd; injection Hhd as ->; rewrite Hno in Hnx; by destruct r.
  - destruct (n_next hd); [|injection H as <- <-; exists r; split; [done | by intros _; apply Hempty]].
    destruct (kill i); [injection H as <- <-; by exists r | done].
  - destruct (n_next hd); [|injection H as <- <-; exists r; split; [done | by intros _; apply Hempty]].
    destruct (kill i); [injection H as <- <-; by exists r |].
    apply go_bind_Done in H as (t & Ht & H). pose proof (turn_walk s r t Hw Ht) as Hw'.
    destruct t as [s1|bo s1]; destruct Hw' as (r' & Hw'); [by eapply IH |].
    injection H as <- <-. exists r'. split; [done |]. intros ->.
    unfold turn_of in Ht. apply go_bind_Done in Ht as (nd & _ & Ht).
    destruct (s_entry s), (n_match nd), (last (s_calls s)); try (by injection Ht);
      apply go_bind_Done in Ht as (? & _ & [=]).
Qed.
End order.
