(* ===== verification/CheckerSound.v ===== *)
(** [checkSingle] on histories: it ends, with the verdict that linearizability has on the
    history, whatever the cache and the order of the search. *)
From S2P Require Import Prelude Bitset Checker LinSpec CheckerList CheckerSearch.

Section transfer.
Context {E1 E2 Inp Out St : Type} (step : St -> Inp -> Out -> bool * St).
Context (id1 : E1 -> Z) (ops1 : E1 -> option (Inp * Out)) (id2 : E2 -> Z) (ops2 : E2 -> option (Inp * Out)).
Context (R : E1 -> E2 -> Prop).
Hypothesis HR : forall a b, R a b -> id1 a = id2 b /\ ops1 a = ops2 b.

(** Two event lists that agree position by position have the same linearizations. *)
Lemma before_transfer l1 l2 a b :
  Forall2 R l1 l2 -> before l1 a b -> exists a' b', before l2 a' b' /\ R a a' /\ R b b'.
Proof.
  intros Hl (i & j & Hij & Ha & Hb)%before_lookup.
  destruct (Forall2_lookup_l _ _ _ _ _ Hl Ha) as (a' & Ha' & HRa).
  destruct (Forall2_lookup_l _ _ _ _ _ Hl Hb) as (b' & Hb' & HRb).
  exists a', b'. split; [apply before_lookup; by exists i, j | done].
Qed.

Lemma linearization_transfer f l1 l2 st ord :
  Forall2 R l1 l2 -> linearization step id2 ops2 f l2 st ord -> linearization step id1 ops1 f l1 st ord.
Proof.
  intros Hl (Hnd & Hids & Hleg & Hord). split; [done |]. split; [|split; [done |]].
  - intros x. rewrite Hids. split.
    + intros (b & [i Hb]%list_elem_of_lookup & <-). destruct (Forall2_lookup_r _ _ _ _ _ Hl Hb) as (a & Ha & Hab).
      exists a. split; [by eapply list_elem_of_lookup_2 | by apply HR].
    + intros (a & [i Ha]%list_elem_of_lookup & <-). destruct (Forall2_lookup_l _ _ _ _ _ Hl Ha) as (b & Hb & Hab).
      exists b. split; [by eapply list_elem_of_lookup_2 | by symmetry; apply HR].
  - intros m p Hb Hm Hp Hbo. destruct (before_transfer _ _ _ _ Hl Hb) as (m' & p' & Hb' & HRm & HRp).
    apply HR in HRm as [Hidm Hom], HRp as [Hidp Hop]. apply (Hord m' p' Hb'); congruence.
Qed.

Lemma events_transfer l1 l2 :
  NoDup l1 -> Forall2 R l1 l2 -> (forall a b b', R a b -> R a b' -> b = b') ->
  events_ok id2 ops2 l2 -> events_ok id1 ops1 l1.
Proof.
  intros Hnd Hl Hfun [Hnd2 Hc Hr Hp].
  assert (forall a, a ∈ l1 -> exists i b, l1 !! i = Some a /\ l2 !! i = Some b /\ b ∈ l2 /\ R a b) as Hto.
  { intros a [i Ha]%list_elem_of_lookup. destruct (Forall2_lookup_l _ _ _ _ _ Hl Ha) as (b & Hb & Hab).
    exists i, b. split; [done |]. split; [done |]. split; [by eapply list_elem_of_lookup_2 | done]. }
  assert (forall b, b ∈ l2 -> exists a, a ∈ l1 /\ R a b) as Hfrom.
  { intros b [i Hb]%list_elem_of_lookup. destruct (Forall2_lookup_r _ _ _ _ _ Hl Hb) as (a & Ha & Hab).
    exists a. split; [by eapply list_elem_of_lookup_2 | done]. }
  split; [done | | |].
  - intros p Hp1 Hop. destruct (Hto p Hp1) as (i & p' & Hpi & Hpi' & Hp2 & HRp). pose proof (HR _ _ HRp) as [Hid Ho].
    destruct (Hc p' Hp2) as (m' & Hb & Hm & Hmid); [by rewrite <- Ho |].
    apply before_lookup in Hb as (i' & j & Hij & Hpi2 & Hj).
    destruct (Forall2_lookup_r _ _ _ _ _ Hl Hj) as (m & Hm1 & HRm). pose proof (HR _ _ HRm) as [Hidm Hom].
    assert (i' = i) as -> by by eapply NoDup_lookup.
    exists m. split; [apply before_lookup; by exists i, j | split; congruence].
  - intros m Hm1 Hom. destruct (Hto m Hm1) as (i & m' & _ & _ & Hm2 & HRm). pose proof (HR _ _ HRm) as [Hid Ho].
    destruct (Hr m' Hm2) as (p' & Hp' & Hop' & Hid'); [congruence |]. destruct (Hfrom p' Hp') as (p & Hp1 & HRp).
    pose proof (HR _ _ HRp) as [Hidp Hop]. exists p. split; [done |]. rewrite Hop. split; [done | congruence].
  - intros p q Hp1 Hq1 Hid Hop. destruct (Hto p Hp1) as (i & p' & Hpi & Hpi' & Hp2 & HRp).
    destruct (Hto q Hq1) as (j & q' & Hqj & Hqj' & Hq2 & HRq).
    pose proof (HR _ _ HRp) as [Hidp Ho]. pose proof (HR _ _ HRq) as [Hidq Hoq].
    assert (p' = q') as <-. { apply Hp; [done | done | congruence | by rewrite <- Ho, <- Hoq]. }
    assert (i = j) as <- by by eapply NoDup_lookup. congruence.
Qed.
End transfer.

(** ** Histories *)

Section history.
Context {Inp Out St : Type}.
Implicit Types (es : list (entry Inp Out)) (e : entry Inp Out).

(** Input and output of operation [x]. *)
Definition event_of (kind : bool) (x : Z) es : option (entry Inp Out) :=
  snd <$> list_find (fun e => e_kind e = kind /\ e_id e = x) es.
Definition op_of es (x : Z) : option (Inp * Out) :=
  c ← event_of false x es; r ← event_of true x es;
  match e_value c, e_value r with VIn i, VOut o => Some (i, o) | _, _ => None end.
Definition call_of es e : option (Inp * Out) := if e_kind e then None else op_of es (e_id e).

(** [n] operations, numbered from 0, each with one call and, behind it, one return. *)
Record history_ok es (n : Z) : Prop := {
  h_events : events_ok e_id (call_of es) es;
  h_range : forall e, e ∈ es -> 0 <= e_id e < n;
  h_call : forall e, e ∈ es -> e_kind e = false -> is_Some (op_of es (e_id e));
  h_len : len es = 2 * n }.

(** [ord] linearizes the history from [st]: every operation once, in an order that the
    model allows, where an operation that had returned when another was called is not
    behind it. *)
Definition linearizes (step : St -> Inp -> Out -> bool * St) es st (ord : list Z) : Prop :=
  linearization step e_id (call_of es) (op_of es) es st ord.

Lemma event_of_Some kind x es e : event_of kind x es = Some e -> e ∈ es /\ e_kind e = kind /\ e_id e = x.
Proof.
  unfold event_of. destruct (list_find _ es) as [[i e']|] eqn:Ef; [|done]. intros [= <-].
  apply list_find_Some in Ef as (Hi & Hp & _). split; [by eapply list_elem_of_lookup_2 | done].
Qed.

Section one.
Context (es : list (entry Inp Out)) (n : Z) (Hh : history_ok es n).

Lemma call_of_None e : e ∈ es -> call_of es e = None <-> e_kind e = true.
Proof.
  intros He. unfold call_of. destruct (e_kind e) eqn:Ek; [done |].
  destruct (h_call _ _ Hh e He Ek) as [io ->]. done.
Qed.

Lemma same_event e1 e2 : e1 ∈ es -> e2 ∈ es -> e_kind e1 = e_kind e2 -> e_id e1 = e_id e2 -> e1 = e2.
Proof.
  intros H1 H2 Hk Hi. apply (ev_pair _ _ _ (h_events _ _ Hh)); [done.. |].
  by rewrite !call_of_None, Hk.
Qed.

Lemma history_once : once es.
Proof.
  intros i j e1 e2 H1 H2 Hk Hi.
  assert (e1 = e2) as <- by (apply same_event; try done; by eapply list_elem_of_lookup_2).
  eapply NoDup_lookup; [apply (ev_nodup _ _ _ (h_events _ _ Hh)) | done | done].
Qed.

Lemma once_reverse : once (reverse es).
Proof.
  intros i j e1 e2 H1 H2 Hk Hi.
  pose proof (lookup_lt_Some _ _ _ H1) as L1. pose proof (lookup_lt_Some _ _ _ H2) as L2.
  rewrite length_reverse in L1, L2. rewrite reverse_lookup in H1, H2 by done.
  pose proof (history_once _ _ _ _ H1 H2 Hk Hi). lia.
Qed.

Lemma operations_of_history : operations_of e_id (call_of es) (op_of es) es.
Proof. intros e io He. unfold call_of. by destruct (e_kind e). Qed.

(** ** From the heap back to the history *)

Context (h h0 : heap Inp Out) (hd : node Inp Out).
Context (Hb : built (reverse es) h) (Hd : same_data (h ++ [hd]) h0).

Definition entry_at (a : nat) e : Prop := reverse es !! a = Some e.

Lemma lookup_reverse i e :
  es !! i = Some e -> entry_at (base.length es - S i) e /\ (i < base.length es)%nat.
Proof.
  intros Hi. pose proof (lookup_lt_Some _ _ _ Hi) as Hlt. split; [|done]. unfold entry_at.
  rewrite reverse_lookup by lia. by replace (base.length es - S (base.length es - S i))%nat with i by lia.
Qed.

Lemma entry_elem a e : entry_at a e -> e ∈ es.
Proof. intros He%list_elem_of_lookup_2. by rewrite reverse_Permutation in He. Qed.

Lemma node_entry a e :
  entry_at a e -> exists nd, h0 !! a = Some nd /\ n_id nd = e_id e /\ n_value nd = Some (e_value e)
    /\ if e_kind e then n_match nd = None
       else exists q e', n_match nd = Some q /\ entry_at q e' /\ e_kind e' = true /\ e_id e' = e_id e.
Proof.
  intros He. destruct Hb as (Hl & _ & Hn). pose proof (lookup_lt_Some _ _ _ He) as Hlt.
  destruct (lookup_lt_is_Some_2 h a) as [nd0 Hnd0]; [lia |].
  destruct (same_data_lookup _ _ _ _ Hd (lookup_app_l_Some _ [hd] _ _ Hnd0)) as (nd & Hnd).
  destruct (data_match _ _ _ _ _ Hd (lookup_app_l_Some _ [hd] _ _ Hnd0) Hnd) as (Hma & Hid & Hv).
  destruct (Hn a nd0 Hnd0) as (e0 & He0 & Hv0 & Hi0 & Hm0). unfold entry_at in He.
  rewrite He in He0. injection He0 as <-. exists nd. split; [done |]. split; [congruence |]. split; [congruence |].
  destruct (e_kind e) eqn:Ek; [congruence |]. rewrite Hma. pose proof (entry_elem _ _ He) as Hin.
  destruct (ev_call _ _ _ (h_events _ _ Hh) e Hin) as (m & Hbm & Hmo & Hmid).
  { unfold call_of. rewrite Ek. by apply (h_call _ _ Hh). }
  destruct (before_elem _ _ _ Hbm) as [_ Hm]. apply call_of_None in Hmo; [|done].
  apply before_lookup in Hbm as (i & j & Hij & Hi & Hj).
  destruct (lookup_reverse _ _ Hi) as [Hie Hil]. destruct (lookup_reverse _ _ Hj) as [Hje Hjl].
  assert (a = base.length es - S i)%nat as ->.
  { exact (once_reverse a (base.length es - S i)%nat e e He Hie eq_refl eq_refl). }
  exists (base.length es - S j)%nat, m. split; [|done]. apply Hm0. split; [lia |]. by exists m.
Qed.

Lemma op_of_values e e' :
  e ∈ es -> e' ∈ es -> e_kind e = false -> e_kind e' = true -> e_id e' = e_id e ->
  exists i o, op_of es (e_id e) = Some (i, o) /\ e_value e = VIn i /\ e_value e' = VOut o.
Proof.
  intros He He' Hk Hk' Hid. destruct (h_call _ _ Hh e He Hk) as [[i o] Hio]. exists i, o. split; [done |].
  unfold op_of in Hio. destruct (event_of false (e_id e) es) as [c|] eqn:Ec; [|done]. cbn in Hio.
  destruct (event_of true (e_id e) es) as [r|] eqn:Er; [|done]. cbn in Hio.
  apply event_of_Some in Ec as (Hc & Hck & Hci), Er as (Hr & Hrk & Hri).
  assert (c = e) as -> by (apply same_event; congruence).
  assert (r = e') as -> by (apply same_event; congruence).
  destruct (e_value e); [|done]. destruct (e_value e'); [done |]. by injection Hio as -> ->.
Qed.

Lemma entry_ops a e : entry_at a e -> idof h0 a = e_id e /\ ops h0 a = call_of es e.
Proof.
  intros He. destruct (node_entry a e He) as (nd & Hnd & Hid & Hv & Hm).
  unfold idof, ops, call_of. rewrite Hnd. split; [done |]. cbn [mbind option_bind].
  destruct (e_kind e) eqn:Ek; [by rewrite Hm |]. destruct Hm as (q & e' & -> & Hq & Hk' & Hid').
  destruct (node_entry q e' Hq) as (nd' & Hnd' & _ & Hv' & _). cbn [mbind option_bind]. rewrite Hnd'.
  cbn [mbind option_bind]. rewrite Hv, Hv'.
  destruct (op_of_values e e') as (i & o & -> & -> & ->); try done; by eapply entry_elem.
Qed.

Abbreviation L := (reverse (seq 0 (base.length es))).

Lemma addresses : Forall2 entry_at L es.
Proof.
  apply Forall2_same_length_lookup. split; [by rewrite length_reverse, length_seq |].
  intros i a e Ha He. pose proof (lookup_lt_Some _ _ _ He) as Hlt.
  rewrite reverse_lookup, length_seq in Ha by by rewrite length_seq.
  apply lookup_seq in Ha as [-> _]. by destruct (lookup_reverse _ _ He).
Qed.

Lemma addresses_events : events_ok (idof h0) (ops h0) L.
Proof.
  apply (events_transfer (idof h0) (ops h0) e_id (call_of es) entry_at entry_ops L es).
  - rewrite reverse_Permutation. apply NoDup_seq.
  - exact addresses.
  - intros a b b' H1 H2. unfold entry_at in *. congruence.
  - apply Hh.
Qed.

Lemma address_entry a : a ∈ L -> exists e, entry_at a e.
Proof.
  intros [i Ha]%list_elem_of_lookup. destruct (Forall2_lookup_l _ _ _ _ _ addresses Ha) as (e & _ & He). by exists e.
Qed.

Lemma entry_address a e : entry_at a e -> a ∈ L.
Proof.
  intros He%lookup_lt_Some. rewrite length_reverse in He. rewrite reverse_Permutation. apply elem_of_seq. lia.
Qed.

Lemma addresses_nodes a : a ∈ L -> node_ok h0 L n a.
Proof.
  intros Ha. destruct (address_entry a Ha) as (e & He). destruct (node_entry a e He) as (nd & Hnd & Hid & _ & Hm).
  pose proof (entry_elem _ _ He) as Hin. exists nd. split; [done |]. split; [rewrite Hid; by apply (h_range _ _ Hh) |].
  destruct (e_kind e) eqn:Ek; [by rewrite Hm |]. destruct Hm as (q & e' & -> & Hq & Hk' & Hid').
  destruct (entry_ops q e' Hq) as [Hidq Hoq]. destruct (entry_ops a e He) as [_ Hoa].
  split; [by eapply entry_address |]. split; [congruence |]. rewrite Hoq, Hoa. unfold call_of. rewrite Hk', Ek.
  split; [done | by apply (h_call _ _ Hh)].
Qed.

(** No other address is a call. *)
Lemma heap_operations : n_match hd = None ->
  forall a io, ops h0 a = Some io -> op_of es (idof h0 a) = Some io.
Proof.
  intros Hhd a io Ho. destruct Hb as (Hl & _ & _).
  assert (is_Some (h0 !! a)) as [nd Ha] by (unfold ops in Ho; destruct (h0 !! a); [by eexists | done]).
  pose proof (lookup_lt_Some _ _ _ Ha) as Hlt. rewrite (same_data_length _ _ Hd), length_app, Hl in Hlt. cbn in Hlt.
  destruct (decide (a < base.length (reverse es))%nat) as [Hr|Hr].
  - destruct (lookup_lt_is_Some_2 _ _ Hr) as [e He]. destruct (entry_ops a e He) as [-> Hoe].
    apply operations_of_history; [by eapply entry_elem | congruence].
  - assert (a = base.length h) as -> by lia. assert ((h ++ [hd]) !! base.length h = Some hd) as Hh' by by apply list_lookup_middle.
    destruct (data_match _ _ _ _ _ Hd Hh' Ha) as (Hm & _). unfold ops in Ho. rewrite Ha in Ho. cbn in Ho.
    by rewrite Hm, Hhd in Ho.
Qed.

Lemma lin_addresses (step : St -> Inp -> Out -> bool * St) st ord :
  lin step (idof h0) (ops h0) L st ord <-> linearizes step es st ord.
Proof.
  assert (operations_of (idof h0) (ops h0) (op_of es) L) as Hof.
  { intros a io Ha Hio. destruct (address_entry a Ha) as (e & He). destruct (entry_ops a e He) as [-> Ho].
    apply (operations_of_history e io); [by eapply entry_elem | congruence]. }
  rewrite (lin_iff _ _ _ (op_of es)); [|exact addresses_events | exact Hof]. unfold linearizes. split.
  - apply (linearization_transfer step _ _ _ _ (fun e a => entry_at a e)).
    + intros e a He. destruct (entry_ops a e He) as [-> ->]. done.
    + apply Forall2_flip, addresses.
  - apply (linearization_transfer step _ _ _ _ entry_at); [exact entry_ops | exact addresses].
Qed.
End one.
End history.

(** ** [checkSingle] *)

Section single.
Context {Inp Out St : Type} (model : Model Inp Out St) (equal : St -> St -> bool).
Context `{Hsim : !Simulation (Step model) equal}.
Context (es : list (entry Inp Out)) (n : Z) (Hh : history_ok es n) (cp : bool).

Abbreviation L := (reverse (seq 0 (base.length es))).

(** The variables when the loop is reached. *)
Lemma checkSingle_start :
  exists h0, same_data h0 h0
    /\ (forall kill fuel, checkSingle model equal es cp kill fuel =
        ('(ok, s) ← checkLoop model equal cp kill (base.length es) fuel 0
           (mkSearch h0 (hd_or None L) (Bitset.newBitset n) ∅ [] (Init model) [] (replicate (Z.to_nat n) None));
         if ok : bool then
           ids ← call_ids (s_heap s) (s_calls s);
           mret (true, longest_of (s_seqs s ++ [ids]) (replicate (Z.to_nat n) (Some (base.length (s_seqs s)))))
         else mret (false, longest_of (s_seqs s) (s_longest s))))
    /\ seg h0 None (base.length es :: L) None
    /\ events_ok (idof h0) (ops h0) L /\ (forall a, a ∈ L -> node_ok h0 L n a)
    /\ (forall ord, lin (Step model) (idof h0) (ops h0) L (Init model) ord <-> linearizes (Step model) es (Init model) ord)
    /\ (forall a io, ops h0 a = Some io -> op_of es (idof h0 a) = Some io)
    /\ Forall2 (fun a e => idof h0 a = e_id e /\ ops h0 a = call_of es e) L es.
Proof.
  pose proof (once_reverse es n Hh) as Hon.
  destruct (makeLinkedEntries_spec es Hon) as (h & Hmake & Hb).
  pose proof (length_spec _ _ Hb) as Hlen. rewrite length_reverse in Hlen.
  assert (base.length h = base.length es) as Hlh by (destruct Hb as (-> & _); apply length_reverse).
  assert (seg h None L None) as Hseg by (destruct Hb as (_ & Hs & _); by rewrite length_reverse in Hs).
  destruct (insertBefore_front h (mkNode None None (-1) None None) L eq_refl eq_refl Hseg) as (h0 & Hins & Hs0 & Hd0).
  rewrite Hlh in Hins, Hs0.
  exists h0. split; [done |]. split; [|split; [done |]].
  - intros kill fuel. unfold checkSingle. rewrite Hmake. cbn [mbind go_bind]. rewrite Hlen. cbn [mbind go_bind].
    rewrite Hlh, Hins. cbn [mbind go_bind]. rewrite (h_len _ _ Hh).
    replace (Z.quot (2 * n) 2) with n by (rewrite Z.mul_comm; by rewrite Z.quot_mul). done.
  - split; [by eapply addresses_events |]. split; [intros a; by eapply addresses_nodes |].
    split; [intros ord; by eapply lin_addresses |]. split; [by eapply heap_operations |].
    eapply Forall2_impl; [by apply addresses | intros a e He; by eapply entry_ops].
Qed.

Lemma checkSingle_run kill fuel :
  (bound (base.length es) < fuel)%nat ->
  exists ok info, checkSingle model equal es cp kill fuel = Done (ok, info)
    /\ (ok = true -> exists q ord, linearizes (Step model) es (Init model) ord
          /\ info = replicate (Z.to_nat n) (Some (q, ord)))
    /\ ((forall t, kill t = false) -> ok = false -> forall ord, ~ linearizes (Step model) es (Init model) ord).
Proof.
  intros Hfuel. destruct checkSingle_start as (h0 & _ & Heq & Hseg & Hev & Hno & Hlin & _). rewrite Heq.
  set (s0 := mkSearch h0 _ _ _ _ _ _ _).
  assert (0 <= n) as Hn by (pose proof (h_len _ _ Hh); lia).
  destruct (Bitset.newBitset_spec n Hn) as (Hwf & Hlenb & Hbit).
  assert (base.length es ∉ L) as Hhead by (rewrite reverse_Permutation; intros ?%elem_of_seq; lia).
  assert (rem h0 L (Bitset.newBitset n) = L) as Hrem by (apply filter_all; intros; apply Hbit).
  destruct (search_correct model equal cp (base.length es) h0 L n (base.length (Bitset.newBitset n)) Hev Hno Hhead
    ltac:(lia) s0 fuel) as (ok & s' & Hrun & Hres).
  - split; unfold s0; cbn [s_heap s_linearized s_calls s_longest s_cache]; try done.
    + rewrite length_replicate. lia.
    + intros ce (k & l & Hl & _). by rewrite lookup_empty in Hl.
  - done.
  - done.
  - by rewrite length_reverse, length_seq.
  - destruct (checkLoop_kill model equal cp kill _ _ _ _ _ _ Hrun) as (ok' & s'' & Hkr & Hk). rewrite Hkr. cbn [mbind go_bind].
    destruct ok'; last first.
    { eexists false, _. split; [done |]. split; [done |]. intros Hnk _.
      destruct Hk as [[= <- ->]|[_ [t Ht]]]; [|by rewrite Hnk in Ht]. intros ord Hl. by apply (Hres ord), Hlin. }
    destruct Hk as [[= <- ->]|[? _]]; [|done]. destruct Hres as [Hl Hids]. rewrite Hids. cbn [mbind go_bind]. go_simpl.
    eexists true, _. split; [done |]. split; [|done]. intros _. eexists _, _. split; [by apply Hlin |].
    unfold longest_of. rewrite fmap_replicate. f_equal. cbn. by rewrite list_lookup_middle.
Qed.
End single.
