(* ===== verification/KvModel.v ===== *)
(** The key/value model that the tests check histories against: [src/models/kv.go].
    [fmt.Sprintf] is concatenation here. *)
From S2P Require Import Prelude Bitset Checker.

(** [Op] is a uint8: 0 get, 1 put, anything else append. *)
Record KvInput := mkKvInput { Op : Z; Key : string; kv_Value : string }.
Record KvOutput := mkKvOutput { out_Value : string }.

Definition KvOperation := Operation KvInput KvOutput.

(** [m[key] = append(m[key], v)] for every operation *)
Fixpoint group (m : gmap string (list KvOperation)) (history : list KvOperation)
    : gmap string (list KvOperation) :=
  match history with
  | [] => m
  | v :: history =>
    let key := Key (op_Input v) in
    group (<[key := default [] (m !! key) ++ [v]]> m) history
  end.

(** [sort.Strings]; bytewise order *)
Definition string_le (a b : string) : Prop := String.leb a b = true.
#[export] Instance string_le_dec : RelDecision string_le.
Proof. intros a b. unfold string_le. apply _. Defined.
Definition sortStrings (l : list string) : list string := merge_sort string_le l.

Definition KvPartition (history : list KvOperation) : list (list KvOperation) :=
  let m := group ∅ history in
  let keys := sortStrings (map_to_list m).*1 in
  (fun k => default [] (m !! k)) <$> keys.

Definition KvInit : string := "".

Definition KvStep (state : string) (inp : KvInput) (out : KvOutput) : bool * string :=
  if Op inp =? 0 then (bool_decide (out_Value out = state), state)
  else if Op inp =? 1 then (true, kv_Value inp)
  else (true, String.append state (kv_Value inp)).

Definition KvModel : Model KvInput KvOutput string :=
  mkModel (Some KvPartition) None KvInit KvStep None.

Definition DescribeOperation (inp : KvInput) (out : KvOutput) : string :=
  if Op inp =? 0 then "get('" +:+ Key inp +:+ "') -> '" +:+ out_Value out +:+ "'"
  else if Op inp =? 1 then "put('" +:+ Key inp +:+ "', '" +:+ kv_Value inp +:+ "')"
  else if Op inp =? 2 then "append('" +:+ Key inp +:+ "', '" +:+ kv_Value inp +:+ "')"
  else "<invalid>".
