(* ===== verification/CheckerVerdict.v ===== *)
(** From operations to the verdict of [CheckOperations]: what [makeEntries] makes of a
    list of operations, and what [checkParallel] answers on several partitions. *)
From S2P Require Import Prelude Bitset Checker LinSpec CheckerList CheckerSearch CheckerSound KvModel.

(** [sort.Sort(byTime(entries))]: a permutation without inversions. *)
Class GoSort {Inp Out} (sort : list (entry Inp Out) -> list (entry Inp Out)) : Prop := {
  sort_perm l : sort l ≡ₚ l;
  sort_sorted l i j a b : (i < j)%nat -> sort l !! i = Some a -> sort l !! j = Some b -> Less b a = false }.

Section operations.
Context {Inp Out St : Type}.
Implicit Types (hist : list (Operation Inp Out)) (op : Operation Inp Out) (e : entry Inp Out).

Definition call_entry (x : Z) op : entry Inp Out := mkEntry false (VIn (op_Input op)) x (op_Call op) (op_ClientId op).
Definition return_entry (x : Z) op : entry Inp Out := mkEntry true (VOut (op_Output op)) x (op_Return op) (op_ClientId op).

Lemma makeEntries_elem hist id e :
  e ∈ makeEntries_loop id hist <->
  exists (k : nat) op, hist !! k = Some op
    /\ (e = call_entry (id + Z.of_nat k) op \/ e = return_entry (id + Z.of_nat k) op).
Proof.
  revert id. induction hist as [|op hist IH]; intros id; cbn [makeEntries_loop].
  { split; [by intros ?%elem_of_nil | by intros (k & op & ? & _)]. }
  rewrite !elem_of_cons, IH. split.
  - intros [->|[->|(k & op' & Hk & He)]].
    + exists 0%nat, op. rewrite Z.add_0_r. by auto.
    + exists 0%nat, op. rewrite Z.add_0_r. by auto.
    + exists (S k), op'. split; [done |]. by replace (id + Z.of_nat (S k)) with (id + 1 + Z.of_nat k) by lia.
  - intros ([|k] & op' & Hk & He).
    + injection Hk as ->. rewrite Z.add_0_r in He. destruct He as [->| ->]; [by left | by right; left].
    + right; right. exists k, op'. split; [done |].
      by replace (id + 1 + Z.of_nat k) with (id + Z.of_nat (S k)) by lia.
Qed.

Lemma makeEntries_nodup hist id : NoDup (makeEntries_loop id hist).
Proof.
  revert id. induction hist as [|op hist IH]; intros id; cbn [makeEntries_loop]; [constructor |].
  assert (forall e, e ∈ makeEntries_loop (id + 1) hist -> e_id e <> id) as Hne.
  { intros e (k & op' & _ & [-> | ->])%makeEntries_elem; cbn; lia. }
  constructor; [|constructor; [|apply IH]].
  - intros [?|Hin]%elem_of_cons; [done | by apply Hne in Hin].
  - intros Hin. by apply Hne in Hin.
Qed.

Lemma makeEntries_length hist id : len (makeEntries_loop id hist) = 2 * len hist.
Proof. revert id. induction hist as [|op hist IH]; intros id; cbn; [done |]. specialize (IH (id + 1)). lia. Qed.

(** ** Linearizability of a list of operations *)

Definition operation_at hist (x : Z) : option (Inp * Out) :=
  if x <? 0 then None else (fun op => (op_Input op, op_Output op)) <$> hist !! Z.to_nat x.

(** [ord] holds every index of [hist] once, the model allows it, and where an operation
    ended before another began, it is not behind it. *)
Definition linearizes_ops (step : St -> Inp -> Out -> bool * St) hist st (ord : list Z) : Prop :=
  NoDup ord /\ (forall x, x ∈ ord <-> 0 <= x < len hist) /\ legal step (operation_at hist) st ord
  /\ forall (x y : nat) a b, hist !! x = Some a -> hist !! y = Some b -> op_Return a < op_Call b ->
       ~ before ord (Z.of_nat y) (Z.of_nat x).

Definition linearizable (model : Model Inp Out St) hist : Prop :=
  exists ord, linearizes_ops (Step model) hist (Init model) ord.

Definition times_ok hist : Prop := Forall (fun op => op_Call op <= op_Return op) hist.

Section made.
Context (sort : list (entry Inp Out) -> list (entry Inp Out)) `{Hsort : !GoSort sort}.
Context (hist : list (Operation Inp Out)) (Htimes : times_ok hist).

Abbreviation es := (makeEntries sort hist).

Lemma made_elem e :
  e ∈ es <-> exists (k : nat) op, hist !! k = Some op /\ (e = call_entry (Z.of_nat k) op \/ e = return_entry (Z.of_nat k) op).
Proof. unfold makeEntries. rewrite sort_perm. apply makeEntries_elem. Qed.

Lemma made_nodup : NoDup es.
Proof. unfold makeEntries. rewrite sort_perm. apply makeEntries_nodup. Qed.

Lemma made_length : len es = 2 * len hist.
Proof. unfold makeEntries. rewrite sort_perm. apply makeEntries_length. Qed.

Lemma made_event (k : nat) op : hist !! k = Some op ->
  event_of false (Z.of_nat k) es = Some (call_entry (Z.of_nat k) op)
  /\ event_of true (Z.of_nat k) es = Some (return_entry (Z.of_nat k) op).
Proof.
  intros Hk.
  assert (forall kind e0, e0 ∈ es -> e_kind e0 = kind -> e_id e0 = Z.of_nat k ->
    (forall e, e ∈ es -> e_kind e = kind -> e_id e = Z.of_nat k -> e = e0) ->
    event_of kind (Z.of_nat k) es = Some e0) as Hfind.
  { intros kind e0 Hin Hkd Hid Hu. unfold event_of.
    destruct (list_find_elem_of (fun e => e_kind e = kind /\ e_id e = Z.of_nat k) es e0) as [[i e] Hf]; [done.. |].
    rewrite Hf. cbn. apply list_find_Some in Hf as (Hi & [Hek Hei] & _). f_equal.
    apply Hu; [by eapply list_elem_of_lookup_2 | done..]. }
  split; apply Hfind; try done; try (apply made_elem; exists k, op; by auto).
  all: intros e (k' & op' & Hk' & [-> | ->])%made_elem Hkd Hid; cbn in *; try done.
  all: assert (k' = k) as -> by lia; congruence.
Qed.

Lemma made_op (x : Z) : op_of es x = operation_at hist x.
Proof.
  unfold operation_at. destruct (Z.ltb_spec x 0) as [Hx|Hx].
  - unfold op_of. destruct (event_of false x es) as [c|] eqn:Ec; [|done].
    apply event_of_Some in Ec as ((k & op & _ & [-> | ->])%made_elem & _ & Hid); cbn in Hid; lia.
  - destruct (hist !! Z.to_nat x) as [op|] eqn:Eo.
    + destruct (made_event _ _ Eo) as [Hc Hr]. rewrite Z2Nat.id in Hc, Hr by done.
      unfold op_of. by rewrite Hc, Hr.
    + unfold op_of. destruct (event_of false x es) as [c|] eqn:Ec; [|done].
      apply event_of_Some in Ec as ((k & op & Hk & [-> | ->])%made_elem & _ & Hid); cbn in Hid; subst x;
        rewrite Nat2Z.id in Eo; congruence.
Qed.

(** The order of the entries is the order of the times. *)
Lemma made_before (x y : nat) a b :
  hist !! x = Some a -> hist !! y = Some b ->
  before es (return_entry (Z.of_nat x) a) (call_entry (Z.of_nat y) b) <-> op_Return a < op_Call b.
Proof.
  intros Ha Hb. split.
  - intros (i & j & Hij & Hi & Hj)%before_lookup. pose proof (sort_sorted _ _ _ _ _ Hij Hi Hj) as Hl.
    unfold Less in Hl. cbn in Hl. destruct (Z.eqb_spec (op_Call b) (op_Return a)); [done |].
    apply Z.ltb_ge in Hl. lia.
  - intros Hlt. assert (return_entry (Z.of_nat x) a ∈ es) as Hin1 by (apply made_elem; exists x, a; by auto).
    assert (call_entry (Z.of_nat y) b ∈ es) as Hin2 by (apply made_elem; exists y, b; by auto).
    apply list_elem_of_lookup in Hin1 as [i Hi], Hin2 as [j Hj]. apply before_lookup. exists i, j.
    split; [|done]. apply Nat.nle_gt. intros Hle. apply Nat.le_lteq in Hle as [Hji| ->].
    + pose proof (sort_sorted _ _ _ _ _ Hji Hj Hi) as Hl. unfold Less in Hl. cbn in Hl.
      destruct (Z.eqb_spec (op_Return a) (op_Call b)); [lia |]. apply Z.ltb_ge in Hl. lia.
    + rewrite Hi in Hj. discriminate Hj.
Qed.

Lemma made_call_first (k : nat) op :
  hist !! k = Some op -> before es (call_entry (Z.of_nat k) op) (return_entry (Z.of_nat k) op).
Proof.
  intros Hk. assert (op_Call op <= op_Return op) as Ht by by eapply (Forall_lookup_1 _ _ _ _ Htimes Hk).
  assert (call_entry (Z.of_nat k) op ∈ es) as Hin1 by (apply made_elem; exists k, op; by auto).
  assert (return_entry (Z.of_nat k) op ∈ es) as Hin2 by (apply made_elem; exists k, op; by auto).
  apply list_elem_of_lookup in Hin1 as [i Hi], Hin2 as [j Hj]. apply before_lookup. exists i, j.
  split; [|done]. apply Nat.nle_gt. intros Hle. apply Nat.le_lteq in Hle as [Hji| ->].
  + pose proof (sort_sorted _ _ _ _ _ Hji Hj Hi) as Hl. unfold Less in Hl. cbn in Hl.
    destruct (Z.eqb_spec (op_Call op) (op_Return op)); [done |]. apply Z.ltb_ge in Hl. lia.
  + rewrite Hi in Hj. discriminate Hj.
Qed.

Lemma made_ok : history_ok es (len hist).
Proof.
  assert (forall (k : nat) op, hist !! k = Some op -> op_of es (Z.of_nat k) = Some (op_Input op, op_Output op)) as Hop.
  { intros k op Hk. destruct (made_event _ _ Hk) as [Hc Hr]. unfold op_of. by rewrite Hc, Hr. }
  split; [split | | |].
  - exact made_nodup.
  - intros e (k & op & Hk & [-> | ->])%made_elem; [|by intros []]. intros _.
    exists (return_entry (Z.of_nat k) op). split; [by apply made_call_first | done].
  - intros e (k & op & Hk & [-> | ->])%made_elem; unfold call_of; cbn [e_kind call_entry return_entry e_id].
    + by rewrite (Hop _ _ Hk).
    + intros _. exists (call_entry (Z.of_nat k) op). split; [apply made_elem; exists k, op; by auto |].
      cbn. by rewrite (Hop _ _ Hk).
  - intros e1 e2 (k1 & op1 & Hk1 & He1)%made_elem (k2 & op2 & Hk2 & He2)%made_elem Hid.
    assert (k1 = k2) as <- by (destruct He1 as [-> | ->], He2 as [-> | ->]; cbn in Hid; lia).
    assert (op1 = op2) as <- by congruence. unfold call_of.
    destruct He1 as [-> | ->], He2 as [-> | ->]; cbn [e_kind call_entry return_entry e_id];
      rewrite ?(Hop _ _ Hk1); try done; intros [H1 H2]; [by specialize (H2 eq_refl) | by specialize (H1 eq_refl)].
  - intros e (k & op & Hk%lookup_lt_Some & [-> | ->])%made_elem; cbn; lia.
  - intros e (k & op & Hk & [-> | ->])%made_elem; [|done]. intros _. cbn. by rewrite (Hop _ _ Hk).
  - exact made_length.
Qed.

Lemma made_linearizes (step : St -> Inp -> Out -> bool * St) st ord :
  linearizes step es st ord <-> linearizes_ops step hist st ord.
Proof.
  assert (forall ord st, legal step (op_of es) st ord <-> legal step (operation_at hist) st ord) as Hleg.
  { intros ord'. induction ord' as [|x ord' IH]; intros st'; [done |]. cbn [legal]. rewrite made_op.
    destruct (operation_at hist x) as [[i o]|]; [|done]. by rewrite IH. }
  assert (forall x, (exists e, e ∈ es /\ e_id e = x) <-> 0 <= x < len hist) as Hids.
  { intros x. split.
    - intros (e & (k & op & Hk%lookup_lt_Some & [-> | ->])%made_elem & <-); cbn; lia.
    - intros Hx. destruct (lookup_lt_is_Some_2 hist (Z.to_nat x)) as [op Hop]; [lia |].
      exists (call_entry x op). split; [|done]. apply made_elem. exists (Z.to_nat x), op. rewrite Z2Nat.id by lia. auto. }
  unfold linearizes, linearization, linearizes_ops. setoid_rewrite Hids. rewrite Hleg. split.
  - intros (Hnd & Hin & Hl & Hord). split; [done |]. split; [done |]. split; [done |].
    intros x y a b Ha Hb Hlt Hbo. apply (Hord (return_entry (Z.of_nat x) a) (call_entry (Z.of_nat y) b)); try done.
    + by apply made_before.
    + apply (h_call _ _ made_ok); [|done]. apply made_elem. exists y, b. auto.
  - intros (Hnd & Hin & Hl & Hord). split; [done |]. split; [done |]. split; [done |].
    intros m p Hb Hm Hp. destruct (before_elem _ _ _ Hb) as [Hmi Hpi].
    apply (call_of_None _ _ made_ok) in Hm; [|done]. 
    assert (e_kind p = false) as Hpk by (unfold call_of in Hp; destruct (e_kind p); [by destruct Hp | done]).
    apply made_elem in Hmi as (x & a & Hx & [-> | ->]); [done |].
    apply made_elem in Hpi as (y & b & Hy & [-> | ->]); [|done].
    apply (Hord x y a b Hx Hy). by apply (made_before x y a b Hx Hy).
Qed.
End made.
End operations.

(** ** Partitions *)

Definition result_of (a : arrival) : option nat := match a with AResult i => Some i | ATimeout => None end.
Definition result_at (results : list bool) (i : nat) : bool := default false (results !! i).

Lemma collect_spec total ci results arr : forall count ok,
  count < total <= count + len (omap result_of arr) ->
  exists pre rest (timedOut : bool), arr = pre ++ (if timedOut then [ATimeout] else []) ++ rest
    /\ (ATimeout ∉ pre)
    /\ collect total ci results arr count ok
       = Done (rest, count + len (omap result_of pre), ok && forallb (result_at results) (omap result_of pre), timedOut)
    /\ (timedOut = false -> (ok && forallb (result_at results) (omap result_of pre) = true) \/ ci = true ->
        total <= count + len (omap result_of pre)).
Proof.
  induction arr as [|[i|] arr IH]; intros count ok Hc; cbn [omap list_omap result_of] in *.
  - cbn in Hc. lia.
  - cbn [collect]. destruct (negb (ok && default false (results !! i)) && negb ci) eqn:Estop.
    { exists [AResult i], arr, false. split; [done |]. split; [by intros ?%list_elem_of_singleton|].
      cbn. unfold result_at. rewrite andb_true_r. split; [do 2 f_equal; lia |]. intros _ [Hok| ->].
      - rewrite Hok in Estop. done.
      - by rewrite andb_false_r in Estop. }
    destruct (Z.leb_spec total (count + 1)).
    { exists [AResult i], arr, false. split; [done |]. split; [by intros ?%list_elem_of_singleton|].
      cbn. unfold result_at. rewrite andb_true_r. split; [do 2 f_equal; lia |]. intros. lia. }
    destruct (IH (count + 1) (ok && default false (results !! i))) as (pre & rest & tmo & -> & Hnin & -> & Hend).
    { cbn in Hc. lia. }
    exists (AResult i :: pre), rest, tmo. split; [done |]. split; [by intros [|]%elem_of_cons|].
    assert (omap result_of (AResult i :: pre) = i :: omap result_of pre) as -> by done.
    rewrite length_cons, Nat2Z.inj_succ. cbn [forallb]. fold (result_at results i). rewrite andb_assoc.
    replace (count + Z.succ (len (omap result_of pre))) with (count + 1 + len (omap result_of pre)) by lia.
    by split.
  - exists [], arr, true. split; [done |]. split; [by apply not_elem_of_nil |]. cbn. rewrite Z.add_0_r, andb_true_r. done.
Qed.

Lemma drain_spec total arr : forall count,
  total <= count + len (omap result_of arr) -> drain total arr count = Done tt.
Proof.
  induction arr as [|[i|] arr IH]; intros count Hc; cbn [drain omap list_omap result_of] in *;
    (destruct (Z.leb_spec total count); [done |]); cbn in Hc; [lia | apply IH; lia | by apply IH].
Qed.

Section parallel.
Context {Inp Out St : Type} (model : Model Inp Out St) (equal : St -> St -> bool).
Context `{Hsim : !Simulation (Step model) equal}.
Context (ci : bool) (sch : schedule).

Definition good (es : list (entry Inp Out)) : Prop := exists ord, linearizes (Step model) es (Init model) ord.
Definition fit (es : list (entry Inp Out)) : Prop :=
  (exists n, history_ok es n) /\ (bound (base.length es) < sch_fuel sch)%nat.

Lemma runAll_spec parts : forall i,
  Forall fit parts ->
  exists runs, runAll model equal ci sch i parts = Done runs /\ base.length runs = base.length parts
    /\ forall (j : nat) es, parts !! j = Some es ->
         (result_at (fst <$> runs) j = true -> good es)
         /\ ((forall t, sch_kill sch (i + j) t = false) -> result_at (fst <$> runs) j = false -> ~ good es).
Proof.
  induction parts as [|es parts IH]; intros i Hfit; cbn [runAll]; [exists []; by split_and! |].
  apply Forall_cons in Hfit as [[[n Hok] Hb] Hfit].
  destruct (checkSingle_run model equal es n Hok ci (sch_kill sch i) (sch_fuel sch) Hb) as (ok & info & -> & Hy & Hn).
  cbn [mbind go_bind]. destruct (IH (S i) Hfit) as (runs & -> & Hl & Hr). cbn [mbind go_bind].
  exists ((ok, info) :: runs). split; [done |]. split; [cbn; congruence |].
  intros [|j] es' Hj.
  - injection Hj as <-. rewrite Nat.add_0_r. unfold result_at. cbn. split.
    + intros Ht. destruct (Hy Ht) as (q & ord & Hl' & _). by exists ord.
    + intros Hk Hf [ord Hl']. by apply (Hn Hk Hf ord).
  - destruct (Hr j es' Hj) as [H1 H2]. split; [exact H1 |]. intros Hk. apply H2. intros t. rewrite <- (Hk t). f_equal. lia.
Qed.

(** A goroutine sees the kill flag only after a timeout or the arrival of a failure. *)
Definition causal (results : list bool) : Prop :=
  forall pre i post, sch_arrivals sch = pre ++ AResult i :: post -> ATimeout ∉ pre ->
    (forall j, AResult j ∈ pre -> result_at results j = true) -> forall t, sch_kill sch i t = false.

Lemma results_elem i (arr : list arrival) : i ∈ omap result_of arr <-> AResult i ∈ arr.
Proof.
  rewrite list_elem_of_omap. split.
  - intros ([j|] & Hin & Heq); [by injection Heq as -> | done].
  - intros Hin. by exists (AResult i).
Qed.

(** The first failure that is received belongs to a partition that was searched to the
    end. *)
Lemma first_failure results pre post :
  sch_arrivals sch = pre ++ post -> ATimeout ∉ pre -> causal results ->
  forallb (result_at results) (omap result_of pre) = false ->
  exists i, i ∈ omap result_of pre /\ result_at results i = false /\ forall t, sch_kill sch i t = false.
Proof.
  revert post. induction pre as [|a pre IH] using rev_ind; intros post Harr Hnt Hcausal Hall; [done |].
  rewrite omap_app, forallb_app in Hall. rewrite <- app_assoc in Harr.
  rewrite not_elem_of_app in Hnt. destruct Hnt as [Hnt Ha].
  destruct (forallb (result_at results) (omap result_of pre)) eqn:Epre.
  - destruct a as [i|]; [|by destruct Ha; left]. cbn in Hall. rewrite andb_true_r in Hall.
    exists i. rewrite omap_app, elem_of_app. split; [right; by left |]. split; [done |].
    eapply Hcausal; [exact Harr | done |]. intros j Hj%results_elem.
    rewrite forallb_forall in Epre. by apply Epre, list_elem_of_In.
  - destruct (IH _ Harr Hnt Hcausal eq_refl) as (i & Hi & Hr). exists i.
    rewrite omap_app, elem_of_app. split; [by left | done].
Qed.

Lemma parallel_verdict parts :
  parts <> [] -> Forall fit parts -> omap result_of (sch_arrivals sch) ≡ₚ seq 0 (base.length parts) ->
  (forall runs, runAll model equal ci sch 0 parts = Done runs -> causal (fst <$> runs)) ->
  exists res info, checkParallel model equal parts ci sch = Done (res, info)
    /\ match res with
       | Ok => Forall good parts
       | Illegal => Exists (fun es => ~ good es) parts
       | Unknown => ATimeout ∈ sch_arrivals sch
       end.
Proof.
  intros Hne Hfit Harr Hcausal. destruct (runAll_spec parts 0 Hfit) as (runs & Hruns & Hl & Hres).
  specialize (Hcausal runs Hruns). unfold checkParallel. rewrite Hruns. cbn [mbind go_bind].
  assert (base.length (omap result_of (sch_arrivals sch)) = base.length parts) as Hlen.
  { rewrite Harr. apply length_seq. }
  assert (0 < base.length parts)%nat as Hpos by (destruct parts; [done | cbn; lia]).
  destruct (collect_spec (len parts) ci (fst <$> runs) (sch_arrivals sch) 0 true) as (pre & rest & tmo & Hsplit & Hnt & -> & Hend).
  { lia. }
  cbn [mbind go_bind andb]. rewrite Z.add_0_l in *.
  set (results := fst <$> runs) in *. set (ok := forallb (result_at results) (omap result_of pre)) in *.
  assert (exists info, (if ci then _ ← drain (len parts) rest (len (omap result_of pre));
            mret (parts, (fun r => partials r.2) <$> runs) else mret ([], [])) = Done info) as [info ->].
  { destruct ci; [|by eexists]. rewrite drain_spec; [by eexists |].
    rewrite Hsplit, !omap_app, !length_app in Hlen. destruct tmo; cbn in Hlen; lia. }
  cbn [mbind go_bind]. eexists _, _. split; [done |].
  destruct ok eqn:Eok; cbn [negb].
  - destruct tmo.
    { rewrite Hsplit. apply elem_of_app. right. by left. }
    assert (omap result_of pre ≡ₚ seq 0 (base.length parts)) as Hperm.
    { rewrite Hsplit, app_nil_l, omap_app in Harr. rewrite Hsplit, app_nil_l, omap_app, length_app in Hlen.
      specialize (Hend eq_refl (or_introl eq_refl)). 
      destruct (omap result_of rest); [by rewrite app_nil_r in Harr | cbn in Hlen; lia]. }
    apply Forall_lookup. intros j es Hj. apply (Hres j es Hj).
    unfold ok in Eok. rewrite forallb_forall in Eok. apply Eok, list_elem_of_In. rewrite Hperm.
    apply lookup_lt_Some in Hj. apply elem_of_seq. lia.
  - destruct (first_failure results pre _ Hsplit Hnt Hcausal Eok) as (i & Hi & Hri & Hk).
    assert (i ∈ seq 0 (base.length parts)) as Hin.
    { rewrite <- Harr, Hsplit, omap_app. apply elem_of_app. by left. }
    apply elem_of_seq in Hin. destruct (lookup_lt_is_Some_2 parts i) as [es Hes]; [lia |].
    apply Exists_exists. exists es. split; [by eapply list_elem_of_lookup_2 |]. by apply (Hres i es Hes).
Qed.
End parallel.

(** ** A sort, and the verdicts of the API *)

Section sort_entries.
Context {Inp Out : Type}.

Definition entry_le (a b : entry Inp Out) : Prop := Less b a = false.
#[export] Instance entry_le_dec : RelDecision entry_le.
Proof. intros a b. unfold entry_le. apply _. Defined.
Definition sortEntries (l : list (entry Inp Out)) : list (entry Inp Out) := merge_sort entry_le l.

Lemma entry_le_alt a b :
  entry_le a b <-> e_time a < e_time b \/ (e_time a = e_time b /\ (e_kind a = true -> e_kind b = true)).
Proof.
  unfold entry_le, Less. destruct (Z.eqb_spec (e_time b) (e_time a)) as [->|Hne]; cbn [negb].
  - destruct (e_kind a), (e_kind b); cbn; intuition (congruence || lia).
  - rewrite Z.ltb_ge. split; [left; lia | lia].
Qed.

Lemma sorted_lookup (R : relation (entry Inp Out)) l i j a b :
  StronglySorted R l -> (i < j)%nat -> l !! i = Some a -> l !! j = Some b -> R a b.
Proof.
  intros Hs. revert i j. induction Hs as [|x l Hs IH Hx]; intros i j Hij Ha Hb; [done |].
  destruct j as [|j]; [lia |]. destruct i as [|i].
  - injection Ha as ->. rewrite Forall_forall in Hx. apply Hx. by eapply list_elem_of_lookup_2.
  - apply (IH i j); [lia | done | done].
Qed.

#[export] Instance sortEntries_sort : GoSort sortEntries.
Proof.
  split.
  - intros l. apply merge_sort_Permutation.
  - intros l i j a b Hij Ha Hb.
    assert (StronglySorted entry_le (sortEntries l)) as Hs.
    { apply StronglySorted_merge_sort.
      - intros x y z. rewrite !entry_le_alt. intuition lia.
      - intros x y. rewrite !entry_le_alt. destruct (e_kind x), (e_kind y); intuition (congruence || lia). }
    exact (sorted_lookup _ _ _ _ _ _ Hs Hij Ha Hb).
Qed.
End sort_entries.

Section api.
Context {Inp Out St : Type} `{!EqDecision St} (model : Model Inp Out St).
Context (sort : list (entry Inp Out) -> list (entry Inp Out)) (history : list (Operation Inp Out)) (sch : schedule).

(** The partitions that [CheckOperations] checks. *)
Definition parts : list (list (Operation Inp Out)) := default NoPartition (Partition model) history.

(** Operations end after they began; every goroutine gets enough turns, its result
    arrives once, and it is not killed before a failure has arrived. *)
Record conditions (ci : bool) : Prop := {
  cd_parts : parts <> [];
  cd_times : Forall times_ok parts;
  cd_fuel : Forall (fun p => (bound (2 * base.length p) < sch_fuel sch)%nat) parts;
  cd_arrivals : omap result_of (sch_arrivals sch) ≡ₚ seq 0 (base.length parts);
  cd_causal : forall runs,
    runAll (fillDefault model) (equal_of (fillDefault model)) ci sch 0 (makeEntries sort <$> parts) = Done runs ->
    causal sch (fst <$> runs) }.

Lemma operations_verdict ci :
  GoSort sort -> Simulation (Step model) (equal_of (fillDefault model)) -> conditions ci ->
  exists res info, checkOperations sort model history ci sch = Done (res, info)
    /\ match res with
       | Ok => Forall (linearizable model) parts
       | Illegal => Exists (fun p => ~ linearizable model p) parts
       | Unknown => ATimeout ∈ sch_arrivals sch
       end.
Proof.
  intros Hsort Hsim [Hne Htimes Hfuel Harr Hcausal].
  pose proof (proj1 (Forall_forall _ _) Htimes) as Ht.
  assert (forall p, times_ok p -> good (fillDefault model) (makeEntries sort p) <-> linearizable model p) as Hgood.
  { intros p Hp. unfold good, linearizable. by setoid_rewrite made_linearizes. }
  destruct (parallel_verdict (fillDefault model) (equal_of (fillDefault model)) ci sch (makeEntries sort <$> parts))
    as (res & info & Hrun & Hv).
  - by destruct parts.
  - apply Forall_fmap, Forall_forall. intros p Hp. rewrite Forall_forall in Hfuel. split.
    + exists (len p). by apply made_ok, Ht.
    + pose proof (made_length sort p) as Hl. replace (base.length (makeEntries sort p)) with (2 * base.length p)%nat by lia.
      by apply Hfuel.
  - by rewrite length_fmap.
  - exact Hcausal.
  - exists res, info. split; [exact Hrun |]. destruct res; [done | |].
    + rewrite Forall_forall in Hv. apply Forall_forall. intros p Hp.
      apply Hgood; [by apply Ht |].
      apply Hv, list_elem_of_fmap. by exists p.
    + apply Exists_exists in Hv as (es & (p & -> & Hp)%list_elem_of_fmap & Hn). apply Exists_exists. exists p. split; [done |].
      intros Hl. apply Hn, Hgood; [by apply Ht | done].
Qed.
End api.
