(* ===== verification/CheckerTheorems.v ===== *)
(** The theorems on the linearizability checker, with runs on concrete histories. *)
From S2P Require Import Prelude Bitset Checker LinSpec CheckerList CheckerSearch CheckerSound KvModel CheckerVerdict.

(** ** Histories for the runs *)

Definition kv_op (client op : Z) (key v : string) (call : Z) (out : string) (ret : Z) : KvOperation :=
  mkOperation client (mkKvInput op key v) call (mkKvOutput out) ret.

(** A put that overlaps a get, and a get on another key. *)
Definition kv_good : list KvOperation :=
  [kv_op 0 1 "x" "a" 0 "" 10; kv_op 1 0 "x" "" 5 "a" 7; kv_op 2 0 "y" "" 1 "" 2].
(** The get has the old value after the put has returned. *)
Definition kv_bad : list KvOperation :=
  [kv_op 0 1 "x" "a" 0 "" 10; kv_op 1 0 "x" "" 11 "" 12].

Definition sch_all (fuel k : nat) : schedule := mkSchedule (fun _ _ => false) (AResult <$> seq 0 k) fuel.

Lemma sch_all_conditions (history : list KvOperation) ci fuel :
  parts KvModel history <> [] -> Forall times_ok (parts KvModel history) ->
  forallb (fun p => bound (2 * base.length p) <? fuel)%nat (parts KvModel history) = true ->
  conditions KvModel sortEntries history (sch_all fuel (base.length (parts KvModel history))) ci.
Proof.
  intros Hne Ht Hf. split; [done | done | | |].
  - apply Forall_forall. intros p Hp. rewrite forallb_forall in Hf. apply Nat.ltb_lt, Hf. by apply list_elem_of_In.
  - unfold sch_all. cbn [sch_arrivals]. generalize (seq 0 (base.length (parts KvModel history))). intros l.
    induction l as [|i l IH]; [done |]. cbn. by constructor.
  - by intros runs _ pre i post _ _ _ t.
Qed.

(** C10: Whenever there is at least one partition and operations return no earlier than
    they are called, [CheckOperations] and [CheckOperationsTimeout] return, for every
    model whose state equality is a simulation, whatever the sort of equal times, the
    schedule of the goroutines, each of which gets enough turns, and the order in which
    their results arrive.  Neither says [Ok] of a history with a partition that is not
    linearizable, nor [Illegal] of one whose partitions all are; a timeout, at whatever
    time, only leads to [Unknown]: there is no "false positive".  Without a timeout
    [CheckOperations] returns true exactly if every partition is linearizable: the cache,
    the undo of [lift] and the early stop at the first failure never change the verdict.
    (With no partition nothing returns, [CheckOperations_empty_hangs].) *)
Theorem CheckOperations_correct {Inp Out St} `{!EqDecision St} (model : Model Inp Out St) sort history sch :
  GoSort sort -> Simulation (Step model) (equal_of (fillDefault model)) ->
  conditions model sort history sch false ->
  exists res b, CheckOperationsTimeout sort model history sch = Done res
    /\ CheckOperations sort model history sch = Done b /\ (b = true <-> res = Ok)
    /\ (res = Ok -> Forall (linearizable model) (parts model history))
    /\ (res = Illegal -> Exists (fun p => ~ linearizable model p) (parts model history))
    /\ (res = Unknown -> ATimeout ∈ sch_arrivals sch)
    /\ (ATimeout ∉ sch_arrivals sch -> (b = true <-> Forall (linearizable model) (parts model history))).
Proof.
  intros Hsort Hsim Hcond. destruct (operations_verdict model sort history sch false Hsort Hsim Hcond) as (res & info & Hrun & Hv).
  unfold CheckOperationsTimeout, CheckOperations. rewrite Hrun. cbn [mbind go_bind].
  exists res, (match res with Ok => true | _ => false end). split; [done |]. split; [done |].
  split; [by destruct res |]. split; [by destruct res |]. split; [by destruct res |]. split; [by destruct res |].
  intros Hnt. destruct res; [done | done |]. split; [done |]. intros Hall. exfalso.
  apply Exists_exists in Hv as (p & Hp & Hn). rewrite Forall_forall in Hall. by apply Hn, Hall.
Qed.

(** One partition has answered when the timeout fires; the other sees the kill flag. *)
Definition sch_timeout : schedule :=
  mkSchedule (fun i t => (i =? 1)%nat) [AResult 0; ATimeout; AResult 1] 200.

(** A sound and a faulty history without a timeout, and a sound one whose check ends by
    the timeout. *)
Lemma CheckOperations_correct_witness :
  (exists res b, CheckOperationsTimeout sortEntries KvModel kv_good sch_timeout = Done res
    /\ CheckOperations sortEntries KvModel kv_good sch_timeout = Done b /\ (b = true <-> res = Ok)
    /\ (res = Unknown -> ATimeout ∈ sch_arrivals sch_timeout))
  /\ linearizable KvModel (take 2 kv_good)
  /\ CheckOperationsTimeout sortEntries KvModel kv_good sch_timeout = Done Unknown
  /\ CheckOperations sortEntries KvModel kv_bad (sch_all 200 1) = Done false.
Proof.
  split; [|split; [|split; vm_compute; reflexivity]].
  - destruct (CheckOperations_correct KvModel sortEntries kv_good sch_timeout) as (res & b & H1 & H2 & H3 & _ & _ & H4 & _).
    + apply _.
    + exact (shallow_simulation KvStep).
    + split.
      * discriminate.
      * repeat constructor; cbn; lia.
      * apply (bool_decide_unpack _). vm_compute. exact I.
      * apply (bool_decide_unpack _). vm_compute. exact I.
      * intros runs _ pre i post Hsplit Hnt _ t. cbn in Hsplit.
        destruct pre as [|a1 pre]; [by injection Hsplit as <- _ |].
        destruct pre as [|a2 pre]; [by injection Hsplit as <- ? |].
        injection Hsplit as <- <- _. destruct Hnt. right. by left.
    + exists res, b. exact (conj H1 (conj H2 (conj H3 H4))).
  - destruct (CheckOperations_correct KvModel sortEntries kv_good (sch_all 200 2)) as (res & b & _ & H2 & _ & _ & _ & _ & H4).
    + apply _.
    + exact (shallow_simulation KvStep).
    + apply (sch_all_conditions kv_good false 200); [discriminate | | vm_compute; reflexivity].
      repeat constructor; cbn; lia.
    + assert (b = true) as Hb by (vm_compute in H2; by injection H2 as <-).
      assert (Forall (linearizable KvModel) (parts KvModel kv_good)) as Hall.
      { apply H4; [|exact Hb]. cbn. rewrite !elem_of_cons, elem_of_nil. intuition discriminate. }
      change (parts KvModel kv_good) with [take 2 kv_good; drop 2 kv_good] in Hall. by inversion Hall.
Defined.

(** C22: on the entries of operations that return no earlier than they are called,
    [checkSingle] ends within the bound of its fuel if it is not killed, for every model
    and every state equality that is a simulation, whatever the sort of equal times: its
    verdict is "linearizable" exactly if the operations are, and then it has recorded for
    every operation one and the same sequence, which is a linearization. *)
Theorem checkSingle_linearization {Inp Out St} (model : Model Inp Out St) equal sort hist cp fuel :
  GoSort sort -> Simulation (Step model) equal -> times_ok hist -> (bound (2 * base.length hist) < fuel)%nat ->
  exists ok info, checkSingle model equal (makeEntries sort hist) cp nokill fuel = Done (ok, info)
    /\ (ok = true <-> linearizable model hist)
    /\ (ok = true -> exists q ord, linearizes_ops (Step model) hist (Init model) ord
          /\ info = replicate (base.length hist) (Some (q, ord))).
Proof.
  intros Hsort Hsim Ht Hf. pose proof (made_ok sort hist Ht) as Hok.
  assert (bound (base.length (makeEntries sort hist)) < fuel)%nat as Hf'.
  { pose proof (made_length sort hist). by replace (base.length (makeEntries sort hist)) with (2 * base.length hist)%nat by lia. }
  destruct (checkSingle_run model equal _ _ Hok cp nokill fuel Hf') as (ok & info & Hrun & Hy & Hn).
  exists ok, info. split; [done |].
  assert (forall ord, linearizes (Step model) (makeEntries sort hist) (Init model) ord
    <-> linearizes_ops (Step model) hist (Init model) ord) as Hiff by (intros; by apply made_linearizes).
  split; [split|].
  - intros Hok'. destruct (Hy Hok') as (q & ord & Hl & _). exists ord. by apply Hiff.
  - intros [ord Hl]. destruct ok; [done |]. exfalso. apply (Hn (fun _ => eq_refl) eq_refl ord). by apply Hiff.
  - intros Hok'. destruct (Hy Hok') as (q & ord & Hl & ->). exists q, ord. split; [by apply Hiff |]. by rewrite Nat2Z.id.
Qed.

Lemma checkSingle_linearization_witness :
  exists ok info, checkSingle KvModel ShallowEqual (makeEntries sortEntries (take 2 kv_good)) true nokill 200 = Done (ok, info)
    /\ ok = true /\ linearizable KvModel (take 2 kv_good).
Proof.
  destruct (checkSingle_linearization KvModel ShallowEqual sortEntries (take 2 kv_good) true 200) as (ok & info & Hrun & Hiff & _).
  - apply _.
  - exact (shallow_simulation KvStep).
  - repeat constructor; cbn; lia.
  - apply Nat.ltb_lt. vm_compute. reflexivity.
  - exists ok, info. split; [exact Hrun |]. vm_compute in Hrun. injection Hrun as <- _.
    split; [reflexivity | by apply Hiff].
Defined.

(** C29: [CheckOperations] never returns for the key/value model on an empty history:
    there is no partition, so nothing is ever sent to the channel that the loop receives
    from (and without a timeout nothing else wakes it up). *)
Theorem CheckOperations_empty_hangs {Inp Out St} `{!EqDecision St} (model : Model Inp Out St) sort history sch :
  parts model history = [] -> sch_arrivals sch = [] ->
  CheckOperations sort model history sch = Hang "select".
Proof.
  intros Hp Ha. unfold CheckOperations, checkOperations, checkParallel.
  change (default NoPartition (Partition (fillDefault model)) history) with (parts model history).
  rewrite Hp. cbn [fmap list_fmap runAll mbind go_bind mret go_ret]. by rewrite Ha.
Qed.

Lemma CheckOperations_empty_hangs_witness :
  parts KvModel [] = [] /\ CheckOperations sortEntries KvModel [] (sch_all 200 0) = Hang "select".
Proof. split; [reflexivity | apply CheckOperations_empty_hangs; reflexivity]. Defined.
