(* ===== verification/EventsVerdict.v ===== *)
(** Histories of events: [CheckEvents] of [src/porcupine/porcupine.go].  [renumber] and
    [convertEntries] name the operations anew and number the events; the verdict is that
    of the events under their own names. *)
From S2P Require Import Prelude Bitset Checker LinSpec CheckerList CheckerSearch CheckerSound KvModel CheckerVerdict.
From S2P Require Import CheckerTheorems.

(** ** Operations under other names *)

Section rename.
Context {Ev Inp Out St : Type} (step : St -> Inp -> Out -> bool * St).
Context (idof : Ev -> Z) (ops : Ev -> option (Inp * Out)) (rho : Z -> Z) (f g : Z -> option (Inp * Out)).
Context (r : list Ev) (Hinj : forall a b, a ∈ r -> b ∈ r -> rho (idof a) = rho (idof b) -> idof a = idof b).
Context (Hfg : forall a, a ∈ r -> f (rho (idof a)) = g (idof a)).

Definition named (x : Z) : Prop := exists a, a ∈ r /\ idof a = x.

Lemma legal_rename st ord : Forall named ord -> legal step f st (rho <$> ord) <-> legal step g st ord.
Proof.
  intros Hall. revert st; induction Hall as [|x ord (a & Ha & <-) Hall IH]; intros st; cbn; [done |].
  rewrite (Hfg a Ha). destruct (g (idof a)) as [[i o]|]; [|done]. by rewrite IH.
Qed.

Lemma before_rename ord x y : Forall named ord -> named x -> named y ->
  before (rho <$> ord) (rho x) (rho y) <-> before ord x y.
Proof.
  intros Hall Hx Hy. split.
  - intros (l1 & l2 & l3 & Heq). apply fmap_app_inv in Heq as (k1 & k2' & -> & H2 & ->).
    destruct k2' as [|a k2']; [done |]. injection H2 as Ha H2. symmetry in H2.
    apply fmap_app_inv in H2 as (k2 & k3' & -> & H3 & ->). destruct k3' as [|b k3]; [done |]. injection H3 as Hb ->.
    rewrite Forall_app, Forall_cons, Forall_app, Forall_cons in Hall. destruct Hall as (_ & Hna & _ & Hnb & _).
    assert (forall u v, named u -> named v -> rho u = rho v -> u = v) as Hi.
    { intros u v (p & Hp & <-) (q & Hq & <-). by apply Hinj. }
    apply Hi in Ha as ->; [|done..]. apply Hi in Hb as ->; [|done..]. by exists k1, k2, k3.
  - intros (l1 & l2 & l3 & ->). exists (rho <$> l1), (rho <$> l2), (rho <$> l3).
    by rewrite fmap_app, fmap_cons, fmap_app, fmap_cons.
Qed.

Lemma linearization_rename st ord : Forall named ord ->
  linearization step (fun a => rho (idof a)) ops f r st (rho <$> ord) <-> linearization step idof ops g r st ord.
Proof.
  intros Hall. pose proof (proj1 (Forall_forall _ _) Hall) as Hin. unfold linearization. rewrite legal_rename by done.
  assert (forall u v, named u -> named v -> rho u = rho v -> u = v) as Hi.
  { intros u v (p & Hp & <-) (q & Hq & <-). by apply Hinj. }
  assert (NoDup (rho <$> ord) <-> NoDup ord) as ->.
  { split; [apply NoDup_fmap_1 |]. intros Hnd. apply NoDup_fmap_2_strong; [|done]. intros; apply Hi; auto. }
  assert ((forall x, x ∈ rho <$> ord <-> exists a, a ∈ r /\ rho (idof a) = x) <-> (forall x, x ∈ ord <-> named x)) as ->.
  { split; intros He x.
    - split; [apply Hin |]. intros (a & Ha & <-). assert (rho (idof a) ∈ rho <$> ord) as (y & Hy & Hyo)%list_elem_of_fmap.
      { apply He. by exists a. }
      apply Hi in Hy as ->; [done | by exists a | by apply Hin].
    - rewrite list_elem_of_fmap. split.
      + intros (y & -> & (a & Ha & <-)%He). by exists a.
      + intros (a & Ha & <-). exists (idof a). split; [done |]. apply He. by exists a. }
  assert ((forall m p, before r m p -> ops m = None -> is_Some (ops p) -> ~ before (rho <$> ord) (rho (idof p)) (rho (idof m)))
    <-> (forall m p, before r m p -> ops m = None -> is_Some (ops p) -> ~ before ord (idof p) (idof m))) as ->; [|done].
  split; intros Hb m p Hmp Hm Hp; specialize (Hb m p Hmp Hm Hp); pose proof (before_elem _ _ _ Hmp) as [Hmr Hpr].
  - rewrite before_rename in Hb; [done | done | by exists p | by exists m].
  - rewrite before_rename; [done | done | by exists p | by exists m].
Qed.
End rename.

(** ** [renumber] *)

Section renumber.
Context {Inp Out : Type}.
Implicit Types (evs : list (Event Inp Out)) (e : Event Inp Out) (m : gmap Z Z).

Definition with_id (x : Z) e : Event Inp Out := mkEvent (ev_ClientId e) (ev_Kind e) (ev_Value e) x.

(** [m] numbers the names in it from 0 to [n] without a gap. *)
Record numbering m (n : Z) : Prop := {
  nu_inj x y v : m !! x = Some v -> m !! y = Some v -> x = y;
  nu_range v : (exists x, m !! x = Some v) <-> 0 <= v < n }.

Lemma numbering_empty : numbering ∅ 0.
Proof. split; [by intros x y v ?%lookup_empty_Some |]. intros v. split; [by intros (x & ?%lookup_empty_Some) | lia]. Qed.

Lemma numbering_insert m n x : numbering m n -> 0 <= n -> m !! x = None -> numbering (<[x := n]> m) (n + 1).
Proof.
  intros [Hi Hr] Hn Hx. assert (forall y v, m !! y = Some v -> 0 <= v < n) as Hlt by (intros y v Hy; apply Hr; by exists y).
  split.
  - intros y z v Hy Hz. rewrite lookup_insert_Some in Hy, Hz.
    destruct Hy as [[<- <-]|[Hny Hy]], Hz as [[<- Hv]|[Hnz Hz]].
    + done.
    + apply Hlt in Hz. lia.
    + subst. apply Hlt in Hy. lia.
    + by apply (Hi y z v).
  - intros v. split.
    + intros (y & [[<- <-]|[_ Hy%Hlt]]%lookup_insert_Some); lia.
    + intros Hv. destruct (decide (v = n)) as [->|Hne]; [exists x; by rewrite lookup_insert_eq |].
      destruct (proj2 (Hr v)) as [y Hy]; [lia |]. exists y. rewrite lookup_insert_ne; [done |]. by intros ->; rewrite Hx in Hy.
Qed.

Lemma renumber_loop_spec evs : forall m n, numbering m n -> 0 <= n ->
  exists m' n', renumber_loop m n evs = (fun e => with_id (default 0 (m' !! ev_Id e)) e) <$> evs
    /\ numbering m' n' /\ 0 <= n' /\ m ⊆ m'
    /\ forall x, is_Some (m' !! x) <-> is_Some (m !! x) \/ exists e, e ∈ evs /\ ev_Id e = x.
Proof.
  induction evs as [|e evs IH]; intros m n Hnu Hn; cbn [renumber_loop].
  { exists m, n. split; [done |]. split; [done |]. split; [done |]. split; [done |]. intros x. split; [by left |].
    intros [|(e & ?%elem_of_nil & _)]; done. }
  destruct (m !! ev_Id e) as [v|] eqn:Em.
  - destruct (IH m n Hnu Hn) as (m' & n' & -> & Hnu' & Hn' & Hsub & Hdom). exists m', n'.
    assert (m' !! ev_Id e = Some v) as Hv by by eapply lookup_weaken.
    split; [cbn; by rewrite Hv |]. split; [done |]. split; [done |]. split; [done |]. intros x. rewrite Hdom.
    setoid_rewrite elem_of_cons. split; [intros [|(e' & ? & ?)]; [by left | right; exists e'; auto] |].
    intros [|(e' & [->|He'] & <-)]; [by left | left; by rewrite Em | right; by exists e'].
  - destruct (IH (<[ev_Id e := n]> m) (n + 1)) as (m' & n' & -> & Hnu' & Hn' & Hsub & Hdom);
      [by apply numbering_insert | lia |]. exists m', n'.
    assert (m' !! ev_Id e = Some n) as Hv by (eapply lookup_weaken; [|exact Hsub]; by rewrite lookup_insert_eq).
    split; [cbn; by rewrite Hv |]. split; [done |]. split; [done |].
    split; [etrans; [by apply insert_subseteq | done] |]. intros x. rewrite Hdom. setoid_rewrite elem_of_cons.
    rewrite lookup_insert_is_Some. split.
    + intros [[<-|[_ Hx]]|(e' & ? & ?)]; [right; exists e; auto | by left | right; exists e'; auto].
    + intros [Hx|(e' & [->|He'] & <-)].
      * left. destruct (decide (ev_Id e = x)); [by left | by right].
      * left. by left.
      * right. by exists e'.
Qed.
End renumber.

(** ** Histories of events *)

Section events.
Context {Inp Out : Type}.
Implicit Types (evs : list (Event Inp Out)) (e c r : Event Inp Out).

Definition find_event (kind : bool) (x : Z) evs : option (Event Inp Out) :=
  snd <$> list_find (fun e => ev_Kind e = kind /\ ev_Id e = x) evs.
(** Input and output of operation [x]. *)
Definition event_op evs (x : Z) : option (Inp * Out) :=
  c ← find_event false x evs; r ← find_event true x evs;
  match ev_Value c, ev_Value r with VIn i, VOut o => Some (i, o) | _, _ => None end.
Definition event_call evs e : option (Inp * Out) := if ev_Kind e then None else event_op evs (ev_Id e).

(** Every operation has one call and, behind it, one return. *)
Record paired evs : Prop := {
  pa_once i j e1 e2 : evs !! i = Some e1 -> evs !! j = Some e2 -> ev_Kind e1 = ev_Kind e2 -> ev_Id e1 = ev_Id e2 -> i = j;
  pa_call i c : evs !! i = Some c -> ev_Kind c = false -> (exists a, ev_Value c = VIn a)
    /\ exists j r, (i < j)%nat /\ evs !! j = Some r /\ ev_Kind r = true /\ ev_Id r = ev_Id c;
  pa_return j r : evs !! j = Some r -> ev_Kind r = true -> (exists o, ev_Value r = VOut o)
    /\ exists i c, (i < j)%nat /\ evs !! i = Some c /\ ev_Kind c = false /\ ev_Id c = ev_Id r }.

(** [ord] linearizes the events from [st], by their own names. *)
Definition linearizes_events {St} (step : St -> Inp -> Out -> bool * St) evs st (ord : list Z) : Prop :=
  linearization step ev_Id (event_call evs) (event_op evs) evs st ord.

Section one.
Context evs (Hp : paired evs).

Lemma paired_same e1 e2 : e1 ∈ evs -> e2 ∈ evs -> ev_Kind e1 = ev_Kind e2 -> ev_Id e1 = ev_Id e2 -> e1 = e2.
Proof.
  intros [i H1]%list_elem_of_lookup [j H2]%list_elem_of_lookup Hk Hi.
  assert (i = j) as <- by by eapply pa_once. congruence.
Qed.

Lemma paired_nodup : NoDup evs.
Proof. apply NoDup_alt. intros i j e H1 H2. by eapply pa_once. Qed.

Lemma find_event_elem e : e ∈ evs -> find_event (ev_Kind e) (ev_Id e) evs = Some e.
Proof.
  intros He. unfold find_event.
  destruct (list_find_elem_of (fun e' => ev_Kind e' = ev_Kind e /\ ev_Id e' = ev_Id e) evs e) as [[i e'] Hf]; [done..|].
  rewrite Hf. cbn. f_equal. apply list_find_Some in Hf as (Hi & [Hk Hid] & _).
  apply paired_same; [by eapply list_elem_of_lookup_2 | done..].
Qed.

Lemma event_op_pair c r : c ∈ evs -> r ∈ evs -> ev_Kind c = false -> ev_Kind r = true -> ev_Id r = ev_Id c ->
  exists i o, ev_Value c = VIn i /\ ev_Value r = VOut o /\ event_op evs (ev_Id c) = Some (i, o).
Proof.
  intros Hc Hr Hkc Hkr Hid. pose proof (find_event_elem c Hc) as Fc. pose proof (find_event_elem r Hr) as Fr.
  rewrite Hkc in Fc. rewrite Hkr, Hid in Fr.
  apply list_elem_of_lookup in Hc as [i Hi], Hr as [j Hj].
  destruct (pa_call _ Hp i c Hi Hkc) as [[a Ha] _]. destruct (pa_return _ Hp j r Hj Hkr) as [[o Ho] _].
  exists a, o. split; [done |]. split; [done |]. unfold event_op. rewrite Fc, Fr. cbn. by rewrite Ha, Ho.
Qed.

Lemma event_call_Some c : c ∈ evs -> ev_Kind c = false -> is_Some (event_call evs c).
Proof.
  intros Hc Hk. unfold event_call. rewrite Hk. pose proof Hc as Hc'. apply list_elem_of_lookup in Hc' as [i Hi].
  destruct (pa_call _ Hp i c Hi Hk) as [_ (j & r & _ & Hj & Hkr & Hid)].
  destruct (event_op_pair c r) as (a & o & _ & _ & ->); try done. by eapply list_elem_of_lookup_2.
Qed.

Lemma event_call_None e : e ∈ evs -> event_call evs e = None <-> ev_Kind e = true.
Proof.
  intros He. destruct (ev_Kind e) eqn:Ek; [by unfold event_call; rewrite Ek |].
  destruct (event_call_Some e He Ek) as [io ->]. done.
Qed.

Lemma paired_events (rho : Z -> Z) :
  (forall a b, a ∈ evs -> b ∈ evs -> rho (ev_Id a) = rho (ev_Id b) -> ev_Id a = ev_Id b) ->
  events_ok (fun e => rho (ev_Id e)) (event_call evs) evs.
Proof.
  intros Hinj. split; [exact paired_nodup | | |].
  - intros c Hc Hop. assert (ev_Kind c = false) as Hk.
    { destruct (ev_Kind c) eqn:Ek; [|done]. apply (event_call_None c Hc) in Ek. rewrite Ek in Hop. by destruct Hop. }
    pose proof Hc as Hc'. apply list_elem_of_lookup in Hc' as [i Hi].
    destruct (pa_call _ Hp i c Hi Hk) as [_ (j & r & Hij & Hj & Hkr & Hid)].
    exists r. split; [apply before_lookup; by exists i, j |]. split; [|by rewrite Hid].
    apply event_call_None; [by eapply list_elem_of_lookup_2 | done].
  - intros r Hr Hop. apply event_call_None in Hop; [|done]. pose proof Hr as Hr'. apply list_elem_of_lookup in Hr' as [j Hj].
    destruct (pa_return _ Hp j r Hj Hop) as [_ (i & c & _ & Hi & Hkc & Hid)].
    assert (c ∈ evs) as Hc by by eapply list_elem_of_lookup_2.
    exists c. split; [done |]. split; [by apply event_call_Some | by rewrite Hid].
  - intros a b Ha Hb Hid Hop. rewrite !event_call_None in Hop by done.
    apply paired_same; [done | done | | by apply Hinj]. destruct (ev_Kind a) eqn:Ka, (ev_Kind b) eqn:Kb; intuition congruence.
Qed.
End one.
End events.

(** ** The entries that are made of events *)

Lemma find_transfer {A B} (R : A -> B -> Prop) (P : A -> Prop) (Q : B -> Prop)
    `{forall x, Decision (P x)} `{forall x, Decision (Q x)} l1 l2 :
  Forall2 R l1 l2 -> (forall a b, R a b -> P a <-> Q b) ->
  option_Forall2 R (snd <$> list_find P l1) (snd <$> list_find Q l2).
Proof.
  intros Hl HPQ. induction Hl as [|a b l1 l2 Hab Hl IH]; [constructor |]. cbn [list_find].
  destruct (decide (P a)) as [Ha|Ha]; [rewrite decide_True by by rewrite <- (HPQ a b Hab) |
    rewrite decide_False by by rewrite <- (HPQ a b Hab)]; [by constructor |].
  destruct (list_find P l1) as [[i x]|], (list_find Q l2) as [[j y]|]; cbn in IH |- *; inversion IH; by constructor.
Qed.

Lemma kinds_length {A} (kind : A -> bool) (l : list A) :
  base.length l = (base.length (filter (fun x => kind x = false) l) + base.length (filter (fun x => kind x = true) l))%nat.
Proof.
  induction l as [|x l IH]; [done |]. destruct (kind x) eqn:Ek.
  - rewrite filter_cons_False by congruence. rewrite filter_cons_True by done. cbn. lia.
  - rewrite filter_cons_True by done. rewrite filter_cons_False by congruence. cbn. lia.
Qed.

Section converted.
Context {Inp Out : Type} (evs : list (Event Inp Out)) (Hp : paired evs).

(** [renumber] gives the operations the numbers from 0 to [n], each its own. *)
Record renames (rho : Z -> Z) (n : Z) : Prop := {
  rn_renumber : renumber evs = (fun e => with_id (rho (ev_Id e)) e) <$> evs;
  rn_inj a b : a ∈ evs -> b ∈ evs -> rho (ev_Id a) = rho (ev_Id b) -> ev_Id a = ev_Id b;
  rn_range v : (exists e, e ∈ evs /\ rho (ev_Id e) = v) <-> 0 <= v < n;
  rn_n : 0 <= n }.

Lemma renumber_renames : exists rho n, renames rho n.
Proof.
  destruct (renumber_loop_spec evs ∅ 0 numbering_empty) as (m & n & Hr & [Hi Hra] & Hn & _ & Hdom); [lia |].
  assert (forall e, e ∈ evs -> exists v, m !! ev_Id e = Some v) as Hm.
  { intros e He. apply (Hdom (ev_Id e)). right. by exists e. }
  exists (fun x => default 0 (m !! x)), n. split; [exact Hr | | | done].
  - intros a b Ha Hb. destruct (Hm a Ha) as [v Hv], (Hm b Hb) as [w Hw]. rewrite Hv, Hw. cbn. intros ->. by eapply Hi.
  - intros v. rewrite <- Hra. split.
    + intros (e & He & <-). destruct (Hm e He) as [w Hw]. exists (ev_Id e). by rewrite Hw.
    + intros [x Hx]. destruct (proj1 (Hdom x)) as [[w Hw]|(e & He & <-)]; [by eexists | by rewrite lookup_empty in Hw |].
      exists e. by rewrite Hx.
Qed.

Context (rho : Z -> Z) (n : Z) (Hrn : renames rho n).

Abbreviation es := (convertEntries (renumber evs)).

Definition made_of (e : Event Inp Out) (en : entry Inp Out) : Prop :=
  e ∈ evs /\ e_kind en = ev_Kind e /\ e_value en = ev_Value e /\ e_id en = rho (ev_Id e).

Lemma converted : Forall2 made_of evs es.
Proof.
  rewrite (rn_renumber _ _ Hrn). unfold convertEntries, made_of.
  assert (forall l i, (forall e, e ∈ l -> e ∈ evs) -> Forall2 (fun e en => e ∈ evs /\ e_kind en = ev_Kind e
    /\ e_value en = ev_Value e /\ e_id en = rho (ev_Id e)) l
    (convertEntries_loop i ((fun e => with_id (rho (ev_Id e)) e) <$> l))) as Hl; [|by apply Hl].
  induction l as [|e l IH]; intros i Hin; cbn; constructor.
  - split; [apply Hin; by left | done].
  - apply IH. intros e' He'. apply Hin. by right.
Qed.

Lemma converted_find kind e : e ∈ evs ->
  option_Forall2 made_of (find_event kind (ev_Id e) evs) (event_of kind (rho (ev_Id e)) es).
Proof.
  intros He. apply find_transfer; [exact converted |]. intros a en (Ha & -> & _ & ->). split.
  - by intros [? ->].
  - intros [? Heq]. split; [done |]. by apply (rn_inj _ _ Hrn).
Qed.

Lemma converted_op e : e ∈ evs -> op_of es (rho (ev_Id e)) = event_op evs (ev_Id e).
Proof.
  intros He. unfold op_of, event_op. pose proof (converted_find false e He) as Hc. pose proof (converted_find true e He) as Hr.
  inversion Hc as [c c' (_ & _ & Hv & _)|]; cbn; [|done]. inversion Hr as [r r' (_ & _ & Hv' & _)|]; cbn; [|done].
  by rewrite Hv, Hv'.
Qed.

Lemma converted_call e en : made_of e en -> rho (ev_Id e) = e_id en /\ event_call evs e = call_of es en.
Proof.
  intros (He & Hk & _ & Hid). split; [done |]. unfold event_call, call_of. rewrite Hk, Hid. by rewrite converted_op.
Qed.

Lemma converted_fun e e' en : made_of e en -> made_of e' en -> e = e'.
Proof.
  intros (He & Hk & _ & Hi) (He' & Hk' & _ & Hi'). apply (paired_same evs Hp); [done | done | congruence |].
  apply (rn_inj _ _ Hrn); [done | done | congruence].
Qed.

(** As many events of a kind as operations. *)
Lemma kind_count kind : base.length (filter (fun e => ev_Kind e = kind) evs) = Z.to_nat n.
Proof.
  assert ((fun e => rho (ev_Id e)) <$> filter (fun e => ev_Kind e = kind) evs ≡ₚ seqZ 0 n) as Hperm.
  { apply NoDup_Permutation; [| apply NoDup_seqZ |].
    - apply NoDup_fmap_2_strong; [|apply NoDup_filter, (paired_nodup evs Hp)].
      intros a b [Hka Ha]%list_elem_of_filter [Hkb Hb]%list_elem_of_filter Heq.
      apply (paired_same evs Hp); [done | done | congruence | by apply (rn_inj _ _ Hrn)].
    - intros v. rewrite list_elem_of_fmap, elem_of_seqZ. rewrite Z.add_0_l, <- (rn_range _ _ Hrn v). split.
      + intros (e & -> & [_ He]%list_elem_of_filter). by exists e.
      + intros (e & He & <-). assert (exists e', e' ∈ evs /\ ev_Kind e' = kind /\ ev_Id e' = ev_Id e) as (e' & He' & Hk & Hid).
        { pose proof He as He'. apply list_elem_of_lookup in He as [i Hi]. destruct (ev_Kind e) eqn:Ek, kind; try by exists e.
          - destruct (pa_return _ Hp i e Hi Ek) as [_ (j & c & _ & Hj & Hk & Hid)]. exists c.
            split; [by eapply list_elem_of_lookup_2 | done].
          - destruct (pa_call _ Hp i e Hi Ek) as [_ (j & c & _ & Hj & Hk & Hid)]. exists c.
            split; [by eapply list_elem_of_lookup_2 | done]. }
        exists e'. rewrite Hid. split; [done |]. by apply list_elem_of_filter. }
  apply Permutation_length in Hperm. by rewrite length_fmap, length_seqZ in Hperm.
Qed.

Lemma converted_history : history_ok es n.
Proof.
  assert (forall en, en ∈ es -> exists e, made_of e en) as Hfrom.
  { intros en [i Hi]%list_elem_of_lookup. destruct (Forall2_lookup_r _ _ _ _ _ converted Hi) as (e & _ & He). by exists e. }
  assert (NoDup es) as Hnd.
  { apply NoDup_alt. intros i j en Hi Hj. destruct (Forall2_lookup_r _ _ _ _ _ converted Hi) as (e & Hei & He).
    destruct (Forall2_lookup_r _ _ _ _ _ converted Hj) as (e' & Hej & He'). rewrite (converted_fun e e' en He He') in Hei.
    by eapply NoDup_lookup; [apply (paired_nodup evs Hp) | |]. }
  split.
  - apply (events_transfer e_id (call_of es) (fun e => rho (ev_Id e)) (event_call evs) (fun en e => made_of e en)) with (l2 := evs).
    + intros en e Hm. destruct (converted_call e en Hm) as [-> ->]. done.
    + done.
    + apply Forall2_flip, converted.
    + intros en e e' H1 H2. by eapply converted_fun.
    + apply paired_events; [done | apply Hrn].
  - intros en (e & He & _ & _ & ->)%Hfrom. apply (rn_range _ _ Hrn). by exists e.
  - intros en Hen Hk. destruct (Hfrom en Hen) as (e & Hm). pose proof Hm as (He & Hke & _ & Hid).
    rewrite Hid, converted_op by done. rewrite Hk in Hke. symmetry in Hke.
    pose proof (event_call_Some evs Hp e He Hke) as Hs. unfold event_call in Hs. by rewrite Hke in Hs.
  - rewrite <- (Forall2_length _ _ _ converted), (kinds_length ev_Kind evs), !kind_count.
    pose proof (rn_n _ _ Hrn). lia.
Qed.

Lemma converted_linearizes {St} (step : St -> Inp -> Out -> bool * St) st :
  (exists ord, linearizes step es st ord) <-> exists ord, linearizes_events step evs st ord.
Proof.
  assert (forall ord, linearization step (fun e => rho (ev_Id e)) (event_call evs) (op_of es) evs st ord <-> linearizes step es st ord) as Ht.
  { intros ord. split; apply linearization_transfer with (R := made_of) || apply linearization_transfer with (R := fun en e => made_of e en).
    - intros en e Hm. destruct (converted_call e en Hm) as [-> ->]. done.
    - apply Forall2_flip, converted.
    - exact converted_call.
    - exact converted. }
  assert (forall ord, Forall (named ev_Id evs) ord ->
    linearization step (fun e => rho (ev_Id e)) (event_call evs) (op_of es) evs st (rho <$> ord)
    <-> linearizes_events step evs st ord) as Hr.
  { intros ord Hall. apply linearization_rename; [apply Hrn | exact converted_op | done]. }
  split.
  - intros [ord Hl%Ht]. assert (exists ord', ord = rho <$> ord' /\ Forall (named ev_Id evs) ord') as (ord' & -> & Hall).
    { destruct Hl as (_ & He & _). assert (Forall (fun x => exists a, a ∈ evs /\ rho (ev_Id a) = x) ord) as Hk
        by (apply Forall_forall; intros; by apply He).
      clear He. induction Hk as [|x ord (a & Ha & <-) Hk (ord' & -> & Hall)]; [by exists [] |].
      exists (ev_Id a :: ord'). split; [done | constructor; [by exists a | done]]. }
    exists ord'. by apply Hr.
  - intros [ord Hl]. assert (Forall (named ev_Id evs) ord) as Hall by (apply Forall_forall; intros x Hx; by apply Hl).
    exists (rho <$> ord). by apply Ht, Hr.
Qed.
End converted.

(** ** The verdict *)

Section verdict.
Context {Inp Out St : Type} `{!EqDecision St} (model : Model Inp Out St).
Context (history : list (Event Inp Out)) (sch : schedule).

(** The partitions that [CheckEvents] checks. *)
Definition event_parts : list (list (Event Inp Out)) := default NoPartitionEvent (PartitionEvent model) history.

Definition linearizable_events (evs : list (Event Inp Out)) : Prop :=
  exists ord, linearizes_events (Step model) evs (Init model) ord.

(** As [CheckerVerdict.conditions]: every operation of a partition has a call and a
    return, in this order. *)
Record event_conditions (ci : bool) : Prop := {
  ec_parts : event_parts <> [];
  ec_paired : Forall paired event_parts;
  ec_fuel : Forall (fun p => (bound (base.length p) < sch_fuel sch)%nat) event_parts;
  ec_arrivals : omap result_of (sch_arrivals sch) ≡ₚ seq 0 (base.length event_parts);
  ec_causal : forall runs,
    runAll (fillDefault model) (equal_of (fillDefault model)) ci sch 0
      ((fun p => convertEntries (renumber p)) <$> event_parts) = Done runs ->
    causal sch (fst <$> runs) }.

Lemma events_verdict ci :
  Simulation (Step model) (equal_of (fillDefault model)) -> event_conditions ci ->
  exists res info, checkEvents model history ci sch = Done (res, info)
    /\ match res with
       | Ok => Forall linearizable_events event_parts
       | Illegal => Exists (fun p => ~ linearizable_events p) event_parts
       | Unknown => ATimeout ∈ sch_arrivals sch
       end.
Proof.
  intros Hsim [Hne Hpaired Hfuel Harr Hcausal]. rewrite Forall_forall in Hpaired.
  assert (forall p, p ∈ event_parts -> good (fillDefault model) (convertEntries (renumber p)) <-> linearizable_events p) as Hgood.
  { intros p Hp. destruct (renumber_renames p) as (rho & n & Hrn).
    exact (converted_linearizes p rho n Hrn (Step model) (Init model)). }
  destruct (parallel_verdict (fillDefault model) (equal_of (fillDefault model)) ci sch
    ((fun p => convertEntries (renumber p)) <$> event_parts)) as (res & info & Hrun & Hv).
  - by destruct event_parts.
  - apply Forall_fmap, Forall_forall. intros p Hp. rewrite Forall_forall in Hfuel.
    destruct (renumber_renames p) as (rho & n & Hrn). split.
    + exists n. exact (converted_history p (Hpaired p Hp) rho n Hrn).
    + rewrite <- (Forall2_length _ _ _ (converted p rho n Hrn)). by apply Hfuel.
  - by rewrite length_fmap.
  - exact Hcausal.
  - exists res, info. split; [exact Hrun |]. destruct res; [done | |].
    + rewrite Forall_forall in Hv. apply Forall_forall. intros p Hp. apply Hgood; [done |].
      apply Hv, list_elem_of_fmap. by exists p.
    + apply Exists_exists in Hv as (es & (p & -> & Hp)%list_elem_of_fmap & Hn). apply Exists_exists. exists p. split; [done |].
      intros Hl. by apply Hn, Hgood.
Qed.
End verdict.

(** C23: on histories of events with at least one partition, in which every operation of
    a partition has one call and one return behind it under any names, for a model whose
    state equality is a simulation, and goroutines that get enough turns, [CheckEvents]
    and [CheckEventsTimeout] return with the right verdict: the events are linearizable
    under their own names exactly if they are after [renumber] and [convertEntries], and
    the search decides that.  A timeout only leads to [Unknown], never to an [Ok] for
    events that are not linearizable. *)
Theorem CheckEvents_correct {Inp Out St} `{!EqDecision St} (model : Model Inp Out St) history sch :
  Simulation (Step model) (equal_of (fillDefault model)) -> event_conditions model history sch false ->
  exists res b, CheckEventsTimeout model history sch = Done res /\ CheckEvents model history sch = Done b
    /\ (b = true <-> res = Ok)
    /\ (res = Ok -> Forall (linearizable_events model) (event_parts model history))
    /\ (res = Illegal -> Exists (fun p => ~ linearizable_events model p) (event_parts model history))
    /\ (res = Unknown -> ATimeout ∈ sch_arrivals sch)
    /\ (ATimeout ∉ sch_arrivals sch -> (b = true <-> Forall (linearizable_events model) (event_parts model history))).
Proof.
  intros Hsim Hcond. destruct (events_verdict model history sch false Hsim Hcond) as (res & info & Hrun & Hv).
  unfold CheckEventsTimeout, CheckEvents. rewrite Hrun. cbn [mbind go_bind].
  exists res, (match res with Ok => true | _ => false end). split; [done |]. split; [done |].
  split; [by destruct res |]. split; [by destruct res |]. split; [by destruct res |]. split; [by destruct res |].
  intros Hnt. destruct res; [done | done |]. split; [done |]. intros Hall. exfalso.
  apply Exists_exists in Hv as (p & Hp & Hn). rewrite Forall_forall in Hall. by apply Hn, Hall.
Qed.

(** A put named 7 that overlaps a get named 3. *)
Definition kv_events : list (Event KvInput KvOutput) :=
  [mkEvent 0 false (VIn (mkKvInput 1 "x" "a")) 7; mkEvent 1 false (VIn (mkKvInput 0 "x" "")) 3;
   mkEvent 1 true (VOut (mkKvOutput "a")) 3; mkEvent 0 true (VOut (mkKvOutput "")) 7].

Lemma kv_events_paired : paired kv_events.
Proof.
  split.
  - intros [|[|[|[|i]]]] [|[|[|[|j]]]] e1 e2 H1 H2 Hk Hi; simplify_eq/=; done.
  - intros [|[|[|[|i]]]] c Hc Hk; simplify_eq/=; (split; [by eexists |]).
    + exists 3%nat, (mkEvent 0 true (VOut (mkKvOutput "")) 7). split; [lia | done].
    + exists 2%nat, (mkEvent 1 true (VOut (mkKvOutput "a")) 3). split; [lia | done].
  - intros [|[|[|[|j]]]] r Hr Hk; simplify_eq/=; (split; [by eexists |]).
    + exists 1%nat, (mkEvent 1 false (VIn (mkKvInput 0 "x" "")) 3). split; [lia | done].
    + exists 0%nat, (mkEvent 0 false (VIn (mkKvInput 1 "x" "a")) 7). split; [lia | done].
Qed.

Lemma CheckEvents_correct_witness :
  linearizable_events KvModel kv_events /\ CheckEvents KvModel kv_events (sch_all 200 1) = Done true.
Proof.
  split; [|vm_compute; reflexivity].
  destruct (CheckEvents_correct KvModel kv_events (sch_all 200 1)) as (res & b & _ & Hb & _ & _ & _ & _ & Hiff).
  - exact (shallow_simulation KvStep).
  - split.
    + discriminate.
    + constructor; [exact kv_events_paired | constructor].
    + constructor; [apply Nat.ltb_lt; vm_compute; reflexivity | constructor].
    + reflexivity.
    + by intros runs _ pre i post _ _ _ t.
  - assert (b = true) as Hbt by (vm_compute in Hb; by injection Hb as <-).
    assert (Forall (linearizable_events KvModel) [kv_events]) as Hall.
    { apply Hiff; [|exact Hbt]. cbn. rewrite elem_of_cons, elem_of_nil. intuition discriminate. }
    by inversion Hall.
Defined.
