(* ===== verification/KvLocality.v ===== *)
(** The contract of [Partition] in [src/porcupine/model.go], for the partition by key
    of [src/models/kv.go]: a history of the whole key/value store is linearizable
    exactly if the history of each key is. *)
From S2P Require Import Prelude Bitset Checker LinSpec CheckerList CheckerSearch CheckerSound KvModel CheckerVerdict.
From S2P Require Import CheckerTheorems.

(** ** The store as one object *)

Abbreviation store := (gmap string string).

(** A get, put or append on the store: [KvStep] on the value of its key. *)
Definition StoreStep (m : store) (inp : KvInput) (out : KvOutput) : bool * store :=
  let '(ok, v) := KvStep (default KvInit (m !! Key inp)) inp out in (ok, <[Key inp := v]> m).
Definition StoreModel : Model KvInput KvOutput store := mkModel None None ∅ StoreStep None.

(** ** Places of the elements that a filter keeps *)

Lemma filter_places {A} (P : A -> Prop) `{forall x, Decision (P x)} (l : list A) :
  exists idx : list nat, NoDup idx /\ Forall2 (fun i v => l !! i = Some v) idx (filter P l)
    /\ forall i, i ∈ idx <-> exists v, l !! i = Some v /\ P v.
Proof.
  induction l as [|x l (idx & Hnd & Hf & Hin)]; [exists []; split; [constructor | split; [constructor |]]|].
  { intros i. rewrite elem_of_nil. split; [done | by intros (v & ? & _)]. }
  assert (forall i, i ∈ S <$> idx <-> exists j v, i = S j /\ l !! j = Some v /\ P v) as HS.
  { intros i. rewrite list_elem_of_fmap. split.
    - intros (j & -> & (v & Hv & Hp)%Hin). by exists j, v.
    - intros (j & v & -> & Hv & Hp). exists j. split; [done |]. apply Hin. by exists v. }
  assert (Forall2 (fun i v => (x :: l) !! i = Some v) (S <$> idx) (filter P l)) as Hf' by by apply Forall2_fmap_l.
  assert (NoDup (S <$> idx)) as Hnd' by by apply NoDup_fmap; [intros ? ? [= ->] |].
  destruct (decide (P x)) as [Hx|Hx].
  - exists (0%nat :: (S <$> idx)). rewrite filter_cons_True by done.
    split; [constructor; [|done]; by intros (j & v & ? & _)%HS |].
    split; [by constructor |]. intros i. rewrite elem_of_cons, HS. split.
    + intros [->|(j & v & -> & Hv & Hp)]; [by exists x | by exists v].
    + intros (v & Hv & Hp). destruct i as [|j]; [by left | right; by exists j, v].
  - exists (S <$> idx). rewrite filter_cons_False by done. split; [done |]. split; [done |].
    intros i. rewrite HS. split.
    + intros (j & v & -> & Hv & Hp). by exists v.
    + intros (v & Hv & Hp). destruct i as [|j]; [by injection Hv as -> | by exists j, v].
Qed.

Lemma before_fmap {A B} (f : A -> B) (l : list A) a b : before l a b -> before (f <$> l) (f a) (f b).
Proof. intros (l1 & l2 & l3 & ->). exists (f <$> l1), (f <$> l2), (f <$> l3). by rewrite !fmap_app, !fmap_cons, fmap_app. Qed.

Lemma before_of_fmap {A B} (f : A -> B) (l : list A) a' b' :
  before (f <$> l) a' b' -> exists a b, a' = f a /\ b' = f b /\ before l a b.
Proof.
  intros (l1 & l2 & l3 & (k1 & k2' & -> & H2 & ->)%fmap_app_inv).
  destruct k2' as [|a k2']; [done |]. injection H2 as -> H2. symmetry in H2.
  apply fmap_app_inv in H2 as (k2 & k3' & -> & H3 & ->). destruct k3' as [|b k3]; [done |]. injection H3 as -> ->.
  exists a, b. split; [done |]. split; [done |]. by exists k1, k2, k3.
Qed.

Lemma list_minimum {A} (f : A -> Z) (l : list A) : l <> [] -> exists m, m ∈ l /\ forall x, x ∈ l -> f m <= f x.
Proof.
  induction l as [|a l IH]; [done |]. intros _. destruct (decide (l = [])) as [->|Hne].
  { exists a. split; [by left |]. by intros x ->%list_elem_of_singleton. }
  destruct (IH Hne) as (m & Hm & Hmin). destruct (Z.le_gt_cases (f a) (f m)).
  - exists a. split; [by left |]. intros x [->|Hx]%elem_of_cons; [done |]. specialize (Hmin x Hx). lia.
  - exists m. split; [by right |]. intros x [->|Hx]%elem_of_cons; [lia | by apply Hmin].
Qed.

(** ** One key *)

Section history.
Context (H : list (Operation KvInput KvOutput)).

Definition key_at (x : Z) : option string := Key <$> (fst <$> operation_at H x).

(** No operation stands before one that had returned when it was called. *)
Definition timely (ord : list Z) : Prop := forall (x y : nat) a b,
  H !! x = Some a -> H !! y = Some b -> op_Return a < op_Call b -> ~ before ord (Z.of_nat y) (Z.of_nat x).

(** [ord] linearizes the operations on key [k], which are named by their places in the
    whole history. *)
Definition linearizes_key (k : string) (ord : list Z) : Prop :=
  NoDup ord /\ (forall x, x ∈ ord <-> key_at x = Some k) /\ legal KvStep (operation_at H) KvInit ord /\ timely ord.

Definition ops_of_key (k : string) : list (Operation KvInput KvOutput) := filter (fun v => Key (op_Input v) = k) H.

Section key.
Context (k : string) (idx : list nat) (Hnd : NoDup idx).
Context (Hops : Forall2 (fun i v => H !! i = Some v) idx (ops_of_key k)).
Context (Hidx : forall i, i ∈ idx <-> exists v, H !! i = Some v /\ Key (op_Input v) = k).

Abbreviation p := (ops_of_key k).
(** The place in the whole history of operation [j] of the key. *)
Definition place (j : Z) : Z := Z.of_nat (idx !!! Z.to_nat j).

Lemma place_spec j : 0 <= j < len p -> exists i op,
  place j = Z.of_nat i /\ idx !! Z.to_nat j = Some i /\ H !! i = Some op /\ p !! Z.to_nat j = Some op.
Proof.
  intros Hj. destruct (lookup_lt_is_Some_2 p (Z.to_nat j)) as [op Hop]; [lia |].
  destruct (Forall2_lookup_r _ _ _ _ _ Hops Hop) as (i & Hi & Ho). exists i, op. split; [|done].
  unfold place. by rewrite (list_lookup_total_correct _ _ _ Hi).
Qed.

Lemma operation_at_nat {Inp Out} (l : list (Operation Inp Out)) (i : nat) :
  operation_at l (Z.of_nat i) = (fun op => (op_Input op, op_Output op)) <$> l !! i.
Proof. unfold operation_at. destruct (Z.ltb_spec (Z.of_nat i) 0); [lia |]. by rewrite Nat2Z.id. Qed.

Lemma place_operation j : 0 <= j < len p -> operation_at H (place j) = operation_at p j.
Proof.
  intros Hj. destruct (place_spec j Hj) as (i & op & -> & _ & Hi & Hp).
  replace j with (Z.of_nat (Z.to_nat j)) by lia. rewrite !operation_at_nat, Hi. by rewrite Hp.
Qed.

Lemma place_inj j1 j2 : 0 <= j1 < len p -> 0 <= j2 < len p -> place j1 = place j2 -> j1 = j2.
Proof.
  intros H1 H2 Heq. destruct (place_spec j1 H1) as (i1 & _ & E1 & I1 & _). destruct (place_spec j2 H2) as (i2 & _ & E2 & I2 & _).
  assert (i1 = i2) as <- by lia. pose proof (NoDup_lookup _ _ _ _ Hnd I1 I2). lia.
Qed.

Lemma place_key x : key_at x = Some k <-> exists j, 0 <= j < len p /\ place j = x.
Proof.
  split.
  - intros Hx. unfold key_at, operation_at in Hx. destruct (Z.ltb_spec x 0); [done |].
    destruct (H !! Z.to_nat x) as [op|] eqn:Eo; [|done]. injection Hx as Hk.
    assert (Z.to_nat x ∈ idx) as [j Hj]%list_elem_of_lookup by (apply Hidx; by exists op).
    pose proof (Forall2_length _ _ _ Hops). pose proof (lookup_lt_Some _ _ _ Hj).
    exists (Z.of_nat j). split; [lia |]. unfold place. rewrite Nat2Z.id, (list_lookup_total_correct _ _ _ Hj). lia.
  - intros (j & Hj & <-). destruct (place_spec j Hj) as (i & op & -> & Hi & Ho & _).
    unfold key_at. rewrite operation_at_nat, Ho. cbn. f_equal.
    apply list_elem_of_lookup_2, Hidx in Hi as (v & Hv & <-). congruence.
Qed.

Lemma legal_places st ord : Forall (fun j => 0 <= j < len p) ord ->
  legal KvStep (operation_at H) st (place <$> ord) <-> legal KvStep (operation_at p) st ord.
Proof.
  intros Hall. revert st; induction Hall as [|j ord Hj Hall IH]; intros st; cbn; [done |].
  rewrite (place_operation j Hj). destruct (operation_at p j) as [[i o]|]; [|done]. by rewrite IH.
Qed.

Lemma timely_places ord : Forall (fun j => 0 <= j < len p) ord ->
  timely (place <$> ord) <-> forall (x y : nat) a b, p !! x = Some a -> p !! y = Some b ->
    op_Return a < op_Call b -> ~ before ord (Z.of_nat y) (Z.of_nat x).
Proof.
  intros Hall. rewrite Forall_forall in Hall. split.
  - intros Ht x y a b Ha Hb Hlt Hbe. pose proof (before_elem _ _ _ Hbe) as [Hy Hx].
    destruct (place_spec _ (Hall _ Hx)) as (i & op & Ei & _ & Hi & Hp). destruct (place_spec _ (Hall _ Hy)) as (j & op' & Ej & _ & Hj & Hp').
    rewrite Nat2Z.id in Hp, Hp'. simplify_eq. apply (Ht i j a b Hi Hj Hlt). rewrite <- Ei, <- Ej. by apply before_fmap.
  - intros Ht i j a b Ha Hb Hlt (y & x & Ey & Ex & Hbe)%before_of_fmap. pose proof (before_elem _ _ _ Hbe) as [Hy Hx].
    destruct (place_spec _ (Hall _ Hx)) as (i' & op & Ei & _ & Hi & Hp). destruct (place_spec _ (Hall _ Hy)) as (j' & op' & Ej & _ & Hj & Hp').
    assert (i = i') as <- by lia. assert (j = j') as <- by lia. simplify_eq.
    apply (Ht _ _ a b Hp Hp' Hlt). rewrite !Z2Nat.id by (apply Hall in Hx, Hy; lia). done.
Qed.

Lemma linearizes_places ord : Forall (fun j => 0 <= j < len p) ord ->
  linearizes_key k (place <$> ord) <-> linearizes_ops KvStep p KvInit ord.
Proof.
  intros Hall. pose proof (proj1 (Forall_forall _ _) Hall) as Hin. unfold linearizes_key, linearizes_ops.
  rewrite legal_places, timely_places by done.
  assert (NoDup (place <$> ord) <-> NoDup ord) as ->.
  { split; [apply NoDup_fmap_1 |]. intros Hord. apply NoDup_fmap_2_strong; [|done]. intros; apply place_inj; auto. }
  assert ((forall x, x ∈ place <$> ord <-> key_at x = Some k) <-> (forall x, x ∈ ord <-> 0 <= x < len p)) as ->; [|done].
  split; intros He x.
  - split; [apply Hin |]. intros Hx. assert (place x ∈ place <$> ord) as (y & Hy & Hyo)%list_elem_of_fmap.
    { apply He, place_key. by exists x. }
    apply place_inj in Hy as ->; auto.
  - rewrite place_key, list_elem_of_fmap. split; intros (j & H1 & H2); exists j.
    + split; [by apply Hin | done].
    + split; [done | by apply He].
Qed.
End key.

Lemma key_linearizable k : linearizable KvModel (ops_of_key k) <-> exists ord, linearizes_key k ord.
Proof.
  destruct (filter_places (fun v => Key (op_Input v) = k) H) as (idx & Hnd & Hops & Hidx). split.
  - intros [ord Hl]. exists (place idx <$> ord). apply linearizes_places; try done.
    apply Forall_forall. intros j Hj. by apply Hl.
  - intros [ord Hl]. assert (exists ord', ord = place idx <$> ord' /\ Forall (fun j => 0 <= j < len (ops_of_key k)) ord') as (ord' & -> & Hall).
    { destruct Hl as (_ & He & _). assert (Forall (fun x => key_at x = Some k) ord) as Hk by (apply Forall_forall; intros; by apply He).
      clear He. induction Hk as [|x ord (j & Hj & <-)%(place_key k idx Hops Hidx) Hk (ord' & -> & Hall)]; [by exists [] |].
      exists (j :: ord'). split; [done | by constructor]. }
    exists ord'. by apply (linearizes_places k idx).
Qed.
End history.

(** ** [KvPartition] *)

Lemma group_lookup (history : list KvOperation) : forall m k,
  group m history !! k = match m !! k, ops_of_key history k with
    | None, [] => None
    | o, l => Some (default [] o ++ l)
    end.
Proof.
  induction history as [|v history IH]; intros m k.
  { cbn. destruct (m !! k); [by rewrite app_nil_r | done]. }
  cbn [group]. rewrite IH. unfold ops_of_key. destruct (decide (Key (op_Input v) = k)) as [<-|Hne].
  - rewrite lookup_insert_eq, filter_cons_True by done. destruct (m !! Key (op_Input v)); cbn; [|done].
    by rewrite <- app_assoc.
  - rewrite lookup_insert_ne, filter_cons_False by done. done.
Qed.

Lemma KvPartition_elem (history : list KvOperation) l :
  l ∈ KvPartition history <-> exists k, l = ops_of_key history k /\ l <> [].
Proof.
  unfold KvPartition. rewrite list_elem_of_fmap.
  assert (forall k, k ∈ sortStrings (map_to_list (group ∅ history)).*1 <-> ops_of_key history k <> []) as Hkeys.
  { intros k. unfold sortStrings. rewrite merge_sort_Permutation, list_elem_of_fmap. split.
    - intros ([k' l'] & -> & Hin). apply elem_of_map_to_list in Hin. rewrite group_lookup, lookup_empty in Hin. cbn in *.
      by destruct (ops_of_key history k').
    - intros Hne. exists (k, ops_of_key history k). split; [done |]. apply elem_of_map_to_list.
      rewrite group_lookup, lookup_empty. by destruct (ops_of_key history k). }
  assert (forall k, default [] (group ∅ history !! k) = ops_of_key history k) as Hg.
  { intros k. rewrite group_lookup, lookup_empty. by destruct (ops_of_key history k). }
  setoid_rewrite Hg. setoid_rewrite Hkeys. split; intros (k & -> & Hk); by exists k.
Qed.

(** ** The whole store *)

Section store.
Context (H : list (Operation KvInput KvOutput)).

Hypothesis Htimes : times_ok H.

Abbreviation on k := (filter (fun x => key_at H x = Some k)).

Lemma operation_key x i o : operation_at H x = Some (i, o) -> key_at H x = Some (Key i).
Proof. intros Ho. unfold key_at. by rewrite Ho. Qed.

(** The store runs the keys side by side. *)
Lemma legal_store m ord : Forall (fun x => is_Some (key_at H x)) ord ->
  legal StoreStep (operation_at H) m ord
  <-> forall k, legal KvStep (operation_at H) (default KvInit (m !! k)) (on k ord).
Proof.
  intros Hall. revert m; induction Hall as [|x ord [k0 Hk] Hall IH]; intros m; [done |].
  destruct (operation_at H x) as [[i o]|] eqn:Eo; [|by unfold key_at in Hk; rewrite Eo in Hk].
  pose proof (operation_key x i o Eo) as Hk'. cbn [legal]. rewrite Eo, IH. unfold StoreStep.
  destruct (KvStep (default KvInit (m !! Key i)) i o) as [ok v] eqn:Es. cbn [fst snd]. split.
  - intros [-> Hrest] k. specialize (Hrest k). destruct (decide (k = Key i)) as [->|Hne].
    + rewrite filter_cons_True by done. cbn [legal]. rewrite Eo, Es. by rewrite lookup_insert_eq in Hrest.
    + rewrite filter_cons_False by congruence. by rewrite lookup_insert_ne in Hrest.
  - intros Hrest. pose proof (Hrest (Key i)) as Hi. rewrite filter_cons_True in Hi by done. cbn [legal] in Hi.
    rewrite Eo, Es in Hi. destruct Hi as [Hok Hi]. split; [done |]. intros k. destruct (decide (k = Key i)) as [->|Hne].
    + by rewrite lookup_insert_eq.
    + rewrite lookup_insert_ne by done. specialize (Hrest k). by rewrite filter_cons_False in Hrest by congruence.
Qed.

Definition call_at (x : Z) : Z := default 0 (op_Call <$> H !! Z.to_nat x).
Definition return_at (x : Z) : Z := default 0 (op_Return <$> H !! Z.to_nat x).

Lemma timely_alt ord : Forall (fun x => is_Some (key_at H x)) ord ->
  timely H ord <-> forall x y, return_at x < call_at y -> ~ before ord y x.
Proof.
  intros Hall. rewrite Forall_forall in Hall.
  assert (forall x, is_Some (key_at H x) -> exists op, 0 <= x /\ H !! Z.to_nat x = Some op) as Hat.
  { intros x [k Hx]. unfold key_at, operation_at in Hx. destruct (Z.ltb_spec x 0); [done |].
    destruct (H !! Z.to_nat x) as [op|]; [by exists op | done]. }
  split.
  - intros Ht x y Hlt Hb. pose proof (before_elem _ _ _ Hb) as [Hy Hx].
    destruct (Hat x (Hall x Hx)) as (a & Hx0 & Ha). destruct (Hat y (Hall y Hy)) as (b & Hy0 & Hb').
    unfold return_at, call_at in Hlt. rewrite Ha, Hb' in Hlt. apply (Ht _ _ a b Ha Hb' Hlt). by rewrite !Z2Nat.id.
  - intros Ht x y a b Ha Hb Hlt Hbe. apply (Ht _ _) in Hbe; [done |]. unfold return_at, call_at.
    by rewrite !Nat2Z.id, Ha, Hb.
Qed.

Lemma call_return x : is_Some (key_at H x) -> call_at x <= return_at x.
Proof.
  intros [k Hx]. unfold key_at, operation_at in Hx. destruct (Z.ltb_spec x 0); [done |]. unfold call_at, return_at.
  destruct (H !! Z.to_nat x) as [op|] eqn:Eo; [|done]. cbn. unfold times_ok in Htimes. rewrite Forall_lookup in Htimes. by eapply Htimes.
Qed.

(** Merging one order per key: the next operation is the first one left of the key whose
    operation returned first among all that are left. *)
Lemma merge_keys (n : nat) : forall (X : list Z) (G : string -> list Z),
  (base.length X <= n)%nat ->
  (forall k, NoDup (G k)) -> (forall k x, x ∈ G k <-> x ∈ X /\ key_at H x = Some k) -> (forall k, timely H (G k)) ->
  Forall (fun x => is_Some (key_at H x)) X ->
  exists ord, NoDup ord /\ (forall x, x ∈ ord <-> x ∈ X) /\ timely H ord /\ forall k, on k ord = G k.
Proof.
  induction n as [|n IH]; intros X G HX Hnd Hin Ht Hk.
  { assert (X = []) as -> by (destruct X; [done | cbn in HX; lia]). exists []. split; [constructor |]. split; [done |]. split.
    - intros x y a b _ _ _ Hb. by apply before_elem in Hb as [?%elem_of_nil _].
    - intros k. cbn. destruct (G k) as [|x l] eqn:Eg; [done |]. assert (x ∈ G k) as [?%elem_of_nil _]%Hin by (rewrite Eg; by left). done. }
  destruct (decide (X = [])) as [->|HXne]; [by apply (IH [] G); [cbn; lia | done..]|].
  destruct (list_minimum return_at X HXne) as (m & Hm & Hmin).
  assert (forall k, Forall (fun x => is_Some (key_at H x)) (G k)) as HkG.
  { intros k. apply Forall_forall. intros x Hx. rewrite Forall_forall in Hk. apply Hk. by apply Hin in Hx as [? _]. }
  pose proof (proj1 (Forall_forall _ _) Hk) as Hk'. destruct (Hk' m Hm) as [k0 Hk0].
  assert (m ∈ G k0) as HmG by by apply Hin. destruct (G k0) as [|h rest] eqn:Eg; [by apply elem_of_nil in HmG |].
  assert (h ∈ X /\ key_at H h = Some k0) as [Hh Hkh] by (apply Hin; rewrite Eg; by left).
  pose proof (Ht k0) as Ht0. rewrite timely_alt in Ht0 by done. rewrite Eg in Ht0.
  assert (forall x, x ∈ X -> call_at h <= return_at x) as Hcall.
  { intros x Hx. transitivity (return_at m); [|by apply Hmin]. apply elem_of_cons in HmG as [->|Hmr].
    - by apply call_return, Hk'.
    - apply Z.le_ngt. intros Hlt. apply (Ht0 m h Hlt). apply list_elem_of_split in Hmr as (l1 & l2 & ->). by exists [], l1, l2. }
  pose proof (Hnd k0) as Hnd0. rewrite Eg in Hnd0. apply NoDup_cons in Hnd0 as [Hhr Hndr].
  set (G' := fun k => if decide (k = k0) then rest else G k).
  destruct (IH (filter (fun x => x <> h) X) G') as (ord & Hno & Hmem & Htime & Hon).
  - enough (base.length (filter (fun x => x <> h) X) < base.length X)%nat by lia.
    apply list_elem_of_split in Hh as (l1 & l2 & ->). rewrite filter_app, filter_cons_False by tauto.
    rewrite !length_app. cbn. pose proof (length_filter (fun x => x <> h) l1). pose proof (length_filter (fun x => x <> h) l2). lia.
  - intros k. unfold G'. by case_decide.
  - intros k x. rewrite list_elem_of_filter. unfold G'. case_decide as Hd.
    + subst k. specialize (Hin k0 x). rewrite Eg, elem_of_cons in Hin. split.
      * intros Hx. split; [split; [by intros -> | by apply Hin; right] | by apply Hin; right].
      * intros [[Hne Hx] Hkx]. by destruct (proj2 Hin (conj Hx Hkx)).
    + rewrite Hin. split; [|tauto]. intros [Hx Hkx]. split; [split; [congruence | done] | done].
  - intros k. unfold G'. case_decide; [|done]. subst k. specialize (Ht k0). rewrite Eg in Ht.
    intros x y a b Ha Hb Hlt Hbe. apply (Ht x y a b Ha Hb Hlt). apply before_cons. by right.
  - apply Forall_forall. intros x [_ Hx]%list_elem_of_filter. by apply Hk'.
  - assert (forall x, x ∈ h :: ord <-> x ∈ X) as Hall.
    { intros x. rewrite elem_of_cons, Hmem, list_elem_of_filter. destruct (decide (x = h)) as [->|]; tauto. }
    exists (h :: ord). split; [|split; [exact Hall | split]].
    + constructor; [|done]. rewrite Hmem, list_elem_of_filter. tauto.
    + apply timely_alt; [apply Forall_forall; intros x Hx%Hall; by apply Hk' |].
      intros x y Hlt [[-> Hx]|Hb]%before_cons.
      * specialize (Hcall x). rewrite Hmem, list_elem_of_filter in Hx. destruct Hx as [_ Hx]. specialize (Hcall Hx). lia.
      * rewrite timely_alt in Htime; [by apply (Htime x y Hlt) |].
        apply Forall_forall. intros z Hz. apply Hk', Hall. by right.
    + intros k. specialize (Hon k). unfold G' in Hon. case_decide as Hd.
      * subst k. by rewrite filter_cons_True, Hon by done.
      * rewrite filter_cons_False by congruence. done.
Qed.

Lemma key_at_range x : is_Some (key_at H x) <-> 0 <= x < len H.
Proof.
  unfold key_at, operation_at. destruct (Z.ltb_spec x 0); [split; [by intros [? ?] | lia] |].
  destruct (H !! Z.to_nat x) as [op|] eqn:Eo; cbn.
  - apply lookup_lt_Some in Eo. split; [lia | by eexists].
  - apply lookup_ge_None in Eo. split; [by intros [? ?] | lia].
Qed.

Lemma linearizes_key_none k : ops_of_key H k = [] -> linearizes_key H k [].
Proof.
  intros Hnil. split; [constructor |]. split; [|split; [done |]].
  - intros x. rewrite elem_of_nil. split; [done |]. intros Hx. unfold key_at, operation_at in Hx.
    destruct (Z.ltb_spec x 0); [done |]. destruct (H !! Z.to_nat x) as [op|] eqn:Eo; [|done]. injection Hx as Hx.
    assert (op ∈ ops_of_key H k) as Hop by (apply list_elem_of_filter; split; [done | by eapply list_elem_of_lookup_2]).
    rewrite Hnil in Hop. by apply elem_of_nil in Hop.
  - intros x y a b _ _ _ Hb. by apply before_elem in Hb as [?%elem_of_nil _].
Qed.

(** The order of the store from one order per key. *)
Lemma store_of_keys : (forall k, exists ord, linearizes_key H k ord) -> linearizable StoreModel H.
Proof.
  intros Hall. set (ks := (fun v => Key (op_Input v)) <$> H).
  assert (forall l : list string, exists G, forall k, linearizes_key H k (G k) \/ ((k ∉ l) /\ G k = [])) as HG.
  { induction l as [|k l [G HG]]; [by exists (fun _ => []); right; split; [apply not_elem_of_nil |] |].
    destruct (Hall k) as [ord Hord]. exists (fun k' => if decide (k' = k) then ord else G k'). intros k'.
    case_decide as Hd; [left; congruence |]. destruct (HG k') as [|[Hn Hk']]; [by left | right]. by rewrite not_elem_of_cons. }
  destruct (HG ks) as [G HGk]. assert (forall k, linearizes_key H k (G k)) as HL.
  { intros k. destruct (HGk k) as [|[Hn ->]]; [done |]. apply linearizes_key_none.
    destruct (ops_of_key H k) as [|v l] eqn:El; [done |]. destruct Hn. apply list_elem_of_fmap.
    assert (v ∈ ops_of_key H k) as [Hv Hin]%list_elem_of_filter by (rewrite El; by left). by exists v. }
  destruct (merge_keys (base.length (seqZ 0 (len H))) (seqZ 0 (len H)) G) as (ord & Hnd & Hmem & Ht & Hon); [done | | | | |].
  - intros k. apply HL.
  - intros k x. destruct (HL k) as (_ & -> & _). rewrite elem_of_seqZ. split; [|tauto]. intros Hx. split; [|done].
    pose proof (proj1 (key_at_range x)) as Hr. rewrite Hx in Hr. specialize (Hr ltac:(by eexists)). lia.
  - intros k. apply HL.
  - apply Forall_forall. intros x Hx%elem_of_seqZ. apply key_at_range. lia.
  - exists ord. split; [done |]. split; [intros x; rewrite Hmem, elem_of_seqZ; lia |]. split; [|exact Ht].
    apply legal_store.
    + apply Forall_forall. intros x Hx. apply key_at_range. apply Hmem, elem_of_seqZ in Hx. lia.
    + intros k. rewrite Hon. apply (HL k).
Qed.

Lemma keys_of_store k : linearizable StoreModel H -> exists ord, linearizes_key H k ord.
Proof.
  intros (ord & Hnd & Hmem & Hleg & Ht). exists (on k ord). split; [by apply NoDup_filter |]. split.
  { intros x. rewrite list_elem_of_filter, Hmem. split; [tauto |]. intros Hx. split; [done |]. apply key_at_range. by eexists. }
  split.
  - cbn [Step Init StoreModel] in Hleg. rewrite legal_store in Hleg.
    + exact (Hleg k).
    + apply Forall_forall. intros x Hx. by apply key_at_range, Hmem.
  - intros x y a b Ha Hb Hlt Hbe. apply (Ht x y a b Ha Hb Hlt). by apply before_of_filter in Hbe.
Qed.

(** A history is linearizable exactly if each of its keys is. *)
Lemma KvPartition_local : linearizable StoreModel H <-> Forall (linearizable KvModel) (KvPartition H).
Proof.
  rewrite Forall_forall. split.
  - intros Hs l (k & -> & _)%KvPartition_elem. exact (proj2 (key_linearizable H k) (keys_of_store k Hs)).
  - intros Hall. apply store_of_keys. intros k. destruct (decide (ops_of_key H k = [])) as [He|Hne].
    + exists []. by apply linearizes_key_none.
    + apply key_linearizable, Hall, KvPartition_elem. by exists k.
Qed.
End store.

Lemma times_of_parts (history : list KvOperation) : Forall times_ok (KvPartition history) -> times_ok history.
Proof.
  intros Hall. apply Forall_forall. intros op Hin. rewrite Forall_forall in Hall.
  assert (op ∈ ops_of_key history (Key (op_Input op))) as Hop by by apply list_elem_of_filter.
  assert (times_ok (ops_of_key history (Key (op_Input op)))) as Ht.
  { apply Hall, KvPartition_elem. eexists. split; [done |]. intros Hnil. rewrite Hnil in Hop. by apply elem_of_nil in Hop. }
  unfold times_ok in Ht. rewrite Forall_forall in Ht. by apply Ht.
Qed.

(** C11: what the tests ask the checker.  For a non-empty history of gets, puts and
    appends on any keys that return no earlier than they are called, and goroutines that
    get enough turns, without a timeout, [CheckOperations] with [KvModel] returns, and it
    returns true exactly if the whole history is linearizable as operations on one store
    that maps keys to strings: checking each key on its own, as [Partition] does, decides
    the same.  (On the empty history there is no partition, and it hangs.) *)
Theorem kv_verdict sort (history : list KvOperation) sch :
  GoSort sort -> conditions KvModel sort history sch false -> ATimeout ∉ sch_arrivals sch ->
  exists b, CheckOperations sort KvModel history sch = Done b
    /\ (b = true <-> linearizable StoreModel history)
    /\ (linearizable StoreModel history <-> Forall (linearizable KvModel) (KvPartition history)).
Proof.
  intros Hsort Hcond Hnt. pose proof (cd_times _ _ _ _ _ Hcond) as Ht.
  pose proof (KvPartition_local history (times_of_parts history Ht)) as Hloc.
  destruct (operations_verdict KvModel sort history sch false Hsort (shallow_simulation KvStep) Hcond) as (res & info & Hrun & Hv).
  unfold CheckOperations. rewrite Hrun. cbn [mbind go_bind]. eexists. split; [done |]. split; [|exact Hloc].
  rewrite Hloc. destruct res; [done | done |]. split; [done |]. intros Hall. exfalso.
  apply Exists_exists in Hv as (p & Hp & Hn). rewrite Forall_forall in Hall. by apply Hn, Hall.
Qed.

(** Two keys: each key's order is fine, and so is the store's. *)
Lemma kv_verdict_witness :
  linearizable StoreModel kv_good /\ ~ linearizable StoreModel kv_bad
  /\ CheckOperations sortEntries KvModel kv_bad (sch_all 200 1) = Done false.
Proof.
  assert (forall history k, parts KvModel history <> [] -> Forall times_ok (parts KvModel history) ->
    forallb (fun p => bound (2 * base.length p) <? 200)%nat (parts KvModel history) = true ->
    base.length (parts KvModel history) = k ->
    exists b, CheckOperations sortEntries KvModel history (sch_all 200 k) = Done b
      /\ (b = true <-> linearizable StoreModel history)) as Hv.
  { intros history k Hne Ht Hf <-. destruct (kv_verdict sortEntries history (sch_all 200 (base.length (parts KvModel history)))) as (b & Hb & Hiff & _).
    - apply _.
    - by apply sch_all_conditions.
    - intros (i & ? & _)%list_elem_of_fmap. done.
    - by exists b. }
  split; [|split].
  - destruct (Hv kv_good 2%nat) as (b & Hrun & Hiff); [discriminate | repeat constructor; cbn; lia | vm_compute; reflexivity | reflexivity |].
    apply Hiff. vm_compute in Hrun. by injection Hrun.
  - destruct (Hv kv_bad 1%nat) as (b & Hrun & Hiff); [discriminate | repeat constructor; cbn; lia | vm_compute; reflexivity | reflexivity |].
    rewrite <- Hiff. vm_compute in Hrun. by injection Hrun as <-.
  - vm_compute. reflexivity.
Defined.
