(* ===== verification/Visualization.v ===== *)
(** What the checker hands to its visualization: [computeVisualizationData] of
    [src/porcupine/visualization.go].  It turns the information that the verbose checks
    return into one record per partition, replaying the model along every partial
    linearization.  The page it is shown in and the encoding are left out. *)
From S2P Require Import Prelude Bitset Checker LinSpec CheckerSound.

Record historyElement := mkHistoryElement {
  he_ClientId : Z; he_Start : Z; he_End : Z; he_Description : string }.
#[export] Instance eta_historyElement : Eta historyElement := fun h =>
  mkHistoryElement (he_ClientId h) (he_Start h) (he_End h) (he_Description h).

Record linearizationStep := mkLinearizationStep { ls_Index : Z; ls_StateDescription : string }.
Definition partialLinearization := list linearizationStep.

Record partitionVisualizationData := mkPartitionData {
  pv_History : list historyElement;
  pv_PartialLinearizations : list partialLinearization;
  pv_Largest : gmap Z Z }.

Section visualization.
Context {Inp Out St : Type}.

(** The fields of [Model] that only serve the visualization; [None] is a nil function.
    An [interface{}] is nil, an input or an output. *)
Record Describe := mkDescribe {
  DescribeOperation : option (option (value Inp Out) -> option (value Inp Out) -> go string);
  DescribeState : option (St -> string) }.

(** [fmt.Sprintf("%v", _)] of an [interface{}] *)
Context (show : option (value Inp Out) -> string) (showState : St -> string).

Definition DefaultDescribeOperation (input output : option (value Inp Out)) : go string :=
  mret (show input +:+ " -> " +:+ show output).
Definition DefaultDescribeState (state : St) : string := showState state.

(** The last two defaults of [fillDefault]. *)
Definition fillDescribe (d : Describe) : Describe :=
  mkDescribe (Some (match DescribeOperation d with None => DefaultDescribeOperation | Some f => f end))
    (Some (match DescribeState d with None => DefaultDescribeState | Some f => f end)).

Definition describe_operation (d : Describe) := default DefaultDescribeOperation (DescribeOperation (fillDescribe d)).
Definition describe_state (d : Describe) := default DefaultDescribeState (DescribeState (fillDescribe d)).

(** [history], [callValue] and [returnValue] *)
Record shown := mkShown {
  sh_history : list historyElement; callValue : gmap Z (value Inp Out); returnValue : gmap Z (value Inp Out) }.

(** The body of the loop over the entries of a partition. *)
Definition show_entry (d : Describe) (elem : entry Inp Out) (s : shown) : go shown :=
  let id := e_id elem in
  he ← go_index (sh_history s) id;
  if e_kind elem then
    description ← describe_operation d (callValue s !! id) (Some (e_value elem));
    history ← go_update (sh_history s) id (he <| he_End := e_time elem |> <| he_Description := description |>);
    mret (mkShown history (callValue s) (<[id := e_value elem]> (returnValue s)))
  else
    history ← go_update (sh_history s) id (he <| he_ClientId := e_clientId elem |> <| he_Start := e_time elem |>);
    mret (mkShown history (<[id := e_value elem]> (callValue s)) (returnValue s)).

Fixpoint show_entries (d : Describe) (elems : list (entry Inp Out)) (s : shown) : go shown :=
  match elems with
  | [] => mret s
  | elem :: elems => s ← show_entry d elem s; show_entries d elems s
  end.

Definition show_history (d : Describe) (subhistory : list (entry Inp Out)) : go shown :=
  let n := Z.quot (len subhistory) 2 in
  show_entries d subhistory (mkShown (replicate (Z.to_nat n) (mkHistoryElement 0 0 0 "")) ∅ ∅).

Definition bad_replay : string := "valid partial linearization returned non-ok result from model step".

(** The loop over one partial linearization, the [i]-th, of [n] operations: the steps,
    [largestIndex] and [largestSize]. *)
Fixpoint replay (model : Model Inp Out St) (d : Describe) (s : shown) (i n : Z) (partial : list Z) (state : St)
    (largestIndex largestSize : gmap Z Z) : go (partialLinearization * gmap Z Z * gmap Z Z) :=
  match partial with
  | [] => mret ([], largestIndex, largestSize)
  | histId :: partial =>
    '(ok, state) ← step_values model state (callValue s !! histId) (returnValue s !! histId);
    if negb ok then Panic bad_replay else
    let stateDesc := describe_state d state in
    let larger := default 0 (largestSize !! histId) <? n in
    let largestSize := if larger then <[histId := n]> largestSize else largestSize in
    let largestIndex := if larger then <[histId := i]> largestIndex else largestIndex in
    '(steps, largestIndex, largestSize) ← replay model d s i n partial state largestIndex largestSize;
    mret (mkLinearizationStep histId stateDesc :: steps, largestIndex, largestSize)
  end.

Fixpoint replay_all (model : Model Inp Out St) (d : Describe) (s : shown) (i : Z) (partials : list (list Z))
    (largestIndex largestSize : gmap Z Z) : go (list partialLinearization * gmap Z Z) :=
  match partials with
  | [] => mret ([], largestIndex)
  | partial :: partials =>
    '(linearization, largestIndex, largestSize) ←
      replay model d s i (len partial) partial (Init model) largestIndex largestSize;
    '(linearizations, largestIndex) ← replay_all model d s (i + 1) partials largestIndex largestSize;
    mret (linearization :: linearizations, largestIndex)
  end.

(** [sort.Slice] with "is longer" sorts the slice of the partition in place, so that
    the information of the caller changes too: it is returned with the data. *)
Fixpoint show_partitions (model : Model Inp Out St) (d : Describe) (sortSlice : list (list Z) -> list (list Z))
    (partition : Z) (history : list (list (entry Inp Out))) (partialLinearizations : list (list (list Z)))
    : go (list partitionVisualizationData * list (list (list Z))) :=
  match history with
  | [] => mret ([], partialLinearizations)
  | subhistory :: history =>
    s ← show_history d subhistory;
    partials ← go_index partialLinearizations partition;
    let partials := sortSlice partials in
    partialLinearizations ← go_update partialLinearizations partition partials;
    '(linearizations, largestIndex) ← replay_all model d s 0 partials ∅ ∅;
    '(data, partialLinearizations) ←
      show_partitions model d sortSlice (partition + 1) history partialLinearizations;
    mret (mkPartitionData (sh_history s) linearizations largestIndex :: data, partialLinearizations)
  end.

Definition computeVisualizationData `{!EqDecision St} (model : Model Inp Out St) (d : Describe)
    (sortSlice : list (list Z) -> list (list Z)) (info : linearizationInfo Inp Out)
    : go (list partitionVisualizationData * linearizationInfo Inp Out) :=
  let model := fillDefault model in
  '(data, partialLinearizations) ← show_partitions model d sortSlice 0 info.1 info.2;
  mret (data, (info.1, partialLinearizations)).
End visualization.
Arguments Describe Inp Out St : clear implicits.
Arguments shown Inp Out : clear implicits.

(** ** The history *)

Section history_facts.
Context {Inp Out St : Type}.
Implicit Types (es pre suf : list (entry Inp Out)) (e : entry Inp Out).

Lemma event_of_snoc kind x pre e :
  event_of kind x (pre ++ [e]) =
  match event_of kind x pre with
  | Some c => Some c
  | None => if decide (e_kind e = kind /\ e_id e = x) then Some e else None
  end.
Proof.
  unfold event_of. destruct (list_find _ pre) as [[i c]|] eqn:Ef.
  - by rewrite (list_find_app_l _ _ _ _ _ Ef).
  - rewrite (list_find_app_r _ _ _ Ef). cbn. by case_decide.
Qed.

Section prefix.
Context es (n : Z) (Hh : history_ok es n).
Context pre e suf (Hes : es = pre ++ e :: suf).

Lemma in_prefix c : c ∈ pre -> c ∈ es.
Proof. rewrite Hes, elem_of_app. by left. Qed.
Lemma next_elem : e ∈ es.
Proof. rewrite Hes, elem_of_app. right. by left. Qed.

(** No second event of the same kind and operation. *)
Lemma prefix_new : event_of (e_kind e) (e_id e) pre = None.
Proof.
  destruct (event_of _ _ pre) as [c|] eqn:Ec; [|done]. apply event_of_Some in Ec as (Hc & Hk & Hi).
  assert (c = e) as -> by (eapply same_event; [exact Hh | by apply in_prefix | exact next_elem | done..]).
  pose proof (ev_nodup _ _ _ (h_events _ _ Hh)) as Hnd. rewrite Hes in Hnd.
  apply NoDup_app in Hnd as (_ & Hdisj & _). destruct (Hdisj e Hc). by left.
Qed.

(** A return comes behind its call. *)
Lemma prefix_call : e_kind e = true ->
  exists c, event_of false (e_id e) pre = Some c /\ c ∈ es /\ e_kind c = false /\ e_id c = e_id e.
Proof.
  intros Hk. pose proof (h_events _ _ Hh) as Hev. pose proof (call_of_None es n Hh) as Hcall.
  destruct (ev_ret _ _ _ Hev e next_elem) as (p & Hp & Hop & Hid); [by apply Hcall, Hk; apply next_elem |].
  destruct (ev_call _ _ _ Hev p Hp Hop) as (m & Hb & Hm & Hmid).
  pose proof (before_elem _ _ _ Hb) as [_ Hmin]. apply Hcall in Hm; [|done].
  assert (m = e) as -> by (eapply same_event; [exact Hh | done | exact next_elem | congruence..]).
  assert (e_kind p = false) as Hkp.
  { destruct (e_kind p) eqn:Ekp; [|done]. apply (Hcall p Hp) in Ekp. rewrite Ekp in Hop. by destruct Hop. }
  assert (p ∈ pre) as Hpre.
  { rewrite Hes in Hp. apply elem_of_app in Hp as [|Hp]; [done |].
    pose proof (ev_nodup _ _ _ Hev) as Hnd. destruct (before_asym es p e Hnd Hb).
    apply elem_of_cons in Hp as [->|Hp]; [congruence |].
    apply list_elem_of_split in Hp as (l1 & l2 & ->). exists pre, l1, l2. exact Hes. }
  unfold event_of. destruct (list_find_elem_of (fun c => e_kind c = false /\ e_id c = e_id e) pre p) as [[i c] Hf]; [done..|].
  rewrite Hf. exists c. split; [done |]. apply list_find_Some in Hf as (Hi & [? ?] & _).
  split; [by eapply in_prefix, list_elem_of_lookup_2 | done].
Qed.
(** The return has not been met before the call. *)
Lemma prefix_no_return : e_kind e = false -> event_of true (e_id e) pre = None.
Proof.
  intros Ek. destruct (event_of true (e_id e) pre) as [r|] eqn:Er; [|done]. exfalso.
  apply event_of_Some in Er as (Hr & Hkr & Hir).
  destruct (h_events _ _ Hh) as [Hnd Hcall _ _]. pose proof next_elem as He.
  destruct (Hcall e He) as (m & Hb & Hm & Hmid).
  { unfold call_of. rewrite Ek. by apply (h_call _ _ Hh). }
  pose proof (before_elem _ _ _ Hb) as [_ Hmin]. apply (call_of_None es n Hh) in Hm; [|done].
  assert (m = r) as -> by (eapply same_event; [exact Hh | done | by apply in_prefix | congruence..]).
  apply list_elem_of_split in Hr as (l1 & l2 & Hpre). apply (before_asym es e r Hnd Hb).
  exists l1, l2, suf. rewrite Hes, Hpre, <- app_assoc. done.
Qed.
End prefix.

Context (show : option (value Inp Out) -> string) (showState : St -> string) (d : Describe Inp Out St).
Context (describe : Inp -> Out -> string).
Hypothesis Hdescribe : forall i o, describe_operation show showState d (Some (VIn i)) (Some (VOut o)) = Done (describe i o).

(** What the loop has put at index [x] after the entries [pre]. *)
Definition element_of pre (x : Z) : historyElement :=
  let call := event_of false x pre in let return_ := event_of true x pre in
  mkHistoryElement (default 0 (e_clientId <$> call)) (default 0 (e_time <$> call)) (default 0 (e_time <$> return_))
    (match op_of pre x with Some (i, o) => describe i o | None => "" end).

Record shown_ok (n : Z) pre (s : shown Inp Out) : Prop := {
  so_history : sh_history s = element_of pre <$> seqZ 0 n;
  so_call x : callValue s !! x = e_value <$> event_of false x pre;
  so_return x : returnValue s !! x = e_value <$> event_of true x pre }.

Lemma element_of_other pre e x : x <> e_id e -> element_of (pre ++ [e]) x = element_of pre x.
Proof.
  intros Hx. unfold element_of, op_of. rewrite !event_of_snoc.
  rewrite !(decide_False (P := _ /\ e_id e = x)) by naive_solver.
  by destruct (event_of false x pre), (event_of true x pre).
Qed.

Lemma fmap_seqZ_update (f g : Z -> historyElement) n x :
  0 <= x < n -> (forall y, y <> x -> g y = f y) ->
  go_index (f <$> seqZ 0 n) x = Done (f x) /\ go_update (f <$> seqZ 0 n) x (g x) = Done (g <$> seqZ 0 n).
Proof.
  intros Hx Hother. assert (seqZ 0 n !! Z.to_nat x = Some x) as Hl.
  { apply lookup_seqZ. split; lia. }
  split; [apply go_index_lookup; [lia |]; by rewrite list_lookup_fmap, Hl |].
  rewrite go_update_Done by (rewrite length_fmap, length_seqZ; lia). f_equal.
  apply list_eq. intros i. destruct (decide (i = Z.to_nat x)) as [->|Hne].
  - rewrite list_lookup_insert_eq, list_lookup_fmap, Hl; [done |]. rewrite length_fmap, length_seqZ. lia.
  - rewrite list_lookup_insert_ne, !list_lookup_fmap by done.
    destruct (seqZ 0 n !! i) as [y|] eqn:Ey; [|done]. apply lookup_seqZ in Ey as [-> _]. cbn. f_equal. symmetry. apply Hother. lia.
Qed.

Lemma show_entry_ok es n pre e suf s :
  history_ok es n -> es = pre ++ e :: suf -> shown_ok n pre s ->
  exists s', show_entry show showState d e s = Done s' /\ shown_ok n (pre ++ [e]) s'.
Proof.
  intros Hh Hes [Hhist Hcall Hret]. pose proof (next_elem es pre e suf Hes) as Hin.
  pose proof (h_range _ _ Hh e Hin) as Hid. pose proof (prefix_new es n Hh pre e suf Hes) as Hnew.
  destruct (fmap_seqZ_update (element_of pre) (element_of (pre ++ [e])) n (e_id e) Hid) as [Hix Hup].
  { intros y Hy. by apply element_of_other. }
  unfold show_entry. rewrite Hhist, Hix. cbn [mbind go_bind]. destruct (e_kind e) eqn:Ek.
  - destruct (prefix_call es n Hh pre e suf Hes Ek) as (c & Hc & Hces & Hck & Hcid).
    destruct (op_of_values es n Hh c e Hces Hin Hck Ek) as (i & o & _ & Hvi & Hvo); [congruence |].
    rewrite Hcall, Hc. cbn [fmap option_fmap option_map]. rewrite Hvi, Hvo, Hdescribe. cbn [mbind go_bind].
    assert (element_of (pre ++ [e]) (e_id e) = (element_of pre (e_id e)) <| he_End := e_time e |>
      <| he_Description := describe i o |>) as Hel.
    { unfold element_of, op_of. rewrite !event_of_snoc, Hc, Hnew.
      rewrite (decide_True (P := e_kind e = true /\ _)) by done. cbn. by rewrite Hvi, Hvo. }
    rewrite <- Hel, Hup. eexists. split; [done |]. split; cbn [sh_history callValue returnValue]; [done | |].
    + intros x. rewrite event_of_snoc, Hcall. destruct (event_of false x pre); [done |].
      rewrite decide_False; [done | rewrite Ek; naive_solver].
    + intros x. rewrite event_of_snoc. destruct (decide (x = e_id e)) as [->|Hx].
      * rewrite lookup_insert_eq, Hnew, decide_True by done. cbn. by rewrite Hvo.
      * rewrite lookup_insert_ne, Hret by done. destruct (event_of true x pre); [done |].
        rewrite decide_False; [done | naive_solver].
  - assert (element_of (pre ++ [e]) (e_id e) = (element_of pre (e_id e)) <| he_ClientId := e_clientId e |>
      <| he_Start := e_time e |>) as Hel.
    { unfold element_of, op_of. rewrite !event_of_snoc, Hnew.
      rewrite (decide_True (P := e_kind e = false /\ _)) by done.
      rewrite (decide_False (P := e_kind e = true /\ _)) by (rewrite Ek; naive_solver).
      by rewrite (prefix_no_return es n Hh pre e suf Hes Ek). }
    rewrite <- Hel, Hup. eexists. split; [done |]. split; cbn [sh_history callValue returnValue]; [done | |].
    + intros x. rewrite event_of_snoc. destruct (decide (x = e_id e)) as [->|Hx].
      * by rewrite lookup_insert_eq, Hnew, decide_True.
      * rewrite lookup_insert_ne, Hcall by done. destruct (event_of false x pre); [done |].
        rewrite decide_False; [done | naive_solver].
    + intros x. rewrite event_of_snoc, Hret. destruct (event_of true x pre); [done |].
      rewrite decide_False; [done | rewrite Ek; naive_solver].
Qed.

Lemma show_entries_ok es n suf : forall pre s,
  history_ok es n -> es = pre ++ suf -> shown_ok n pre s ->
  exists s', show_entries show showState d suf s = Done s' /\ shown_ok n es s'.
Proof.
  induction suf as [|e suf IH]; intros pre s Hh Hes Hs; cbn [show_entries].
  - rewrite app_nil_r in Hes. subst. by exists s.
  - destruct (show_entry_ok es n pre e suf s Hh Hes Hs) as (s1 & -> & Hs1). cbn [mbind go_bind].
    apply (IH (pre ++ [e])); [done | by rewrite <- app_assoc | done].
Qed.

(** The history part of a partition. *)
Lemma show_history_ok es n : history_ok es n ->
  exists s, show_history show showState d es = Done s /\ shown_ok n es s.
Proof.
  intros Hh. unfold show_history. apply (show_entries_ok es n es []); [done.. |].
  rewrite (h_len _ _ Hh). replace (Z.quot (2 * n) 2) with n by (rewrite Z.mul_comm; by rewrite Z.quot_mul).
  split; cbn [sh_history callValue returnValue]; [| by intros x; rewrite lookup_empty..].
  apply list_eq. intros i. rewrite list_lookup_fmap. destruct (decide (i < Z.to_nat n)%nat) as [Hi|Hi].
  - rewrite (proj2 (lookup_seqZ 0 n i (Z.of_nat i))) by lia. by apply lookup_replicate_2.
  - rewrite !(proj2 (lookup_ge_None _ _)); [done | rewrite length_seqZ; lia | rewrite length_replicate; lia].
Qed.
End history_facts.

(** ** The partial linearizations *)

Section replay_facts.
Context {Inp Out St : Type}.
Context (show : option (value Inp Out) -> string) (showState : St -> string).
Context (model : Model Inp Out St) (d : Describe Inp Out St) (s : shown Inp Out) (f : Z -> option (Inp * Out)).
Hypothesis Hf : forall x i o, f x = Some (i, o) -> callValue s !! x = Some (VIn i) /\ returnValue s !! x = Some (VOut o).

(** The states that the model goes through when it runs the operations [ord] from [st]. *)
Fixpoint states (st : St) (ord : list Z) : list St :=
  match ord with
  | [] => []
  | x :: ord =>
    match f x with
    | Some (i, o) => let st' := (Step model st i o).2 in st' :: states st' ord
    | None => []
    end
  end.

Definition replayed (ord : list Z) : partialLinearization :=
  zip_with mkLinearizationStep ord (describe_state show showState d <$> states (Init model) ord).

Lemma replay_ok i n ord : forall st li ls,
  legal (Step model) f st ord ->
  exists li' ls', replay show showState model d s i n ord st li ls
      = Done (zip_with mkLinearizationStep ord (describe_state show showState d <$> states st ord), li', ls')
    /\ forall x, if decide (x ∈ ord /\ default 0 (ls !! x) < n)
         then li' !! x = Some i /\ ls' !! x = Some n else li' !! x = li !! x /\ ls' !! x = ls !! x.
Proof.
  induction ord as [|x ord IH]; intros st li ls Hl; cbn [replay legal] in *.
  { eexists li, ls. split; [done |]. intros x. rewrite decide_False; [done |]. by intros [?%elem_of_nil _]. }
  destruct (f x) as [[a o]|] eqn:Ex; [|done]. destruct Hl as [Hs Hl]. destruct (Hf x a o Ex) as [-> ->].
  cbn [step_values states]. rewrite Ex. destruct (Step model st a o) as [ok st'] eqn:Est. cbn in Hs. subst ok.
  go_simpl. cbn [negb]. cbn [snd] in Hl |- *.
  set (larger := default 0 (ls !! x) <? n). set (ls1 := if larger then <[x := n]> ls else ls).
  set (li1 := if larger then <[x := i]> li else li).
  destruct (IH st' li1 ls1 Hl) as (li' & ls' & -> & Hx). cbn [mbind go_bind]. go_simpl.
  eexists li', ls'. split; [done |]. intros y. specialize (Hx y). unfold li1, ls1, larger in Hx.
  destruct (Z.ltb_spec (default 0 (ls !! x)) n) as [Hlt|Hge]; destruct (decide (y = x)) as [->|Hne].
  - rewrite !lookup_insert_eq in Hx. rewrite decide_False in Hx by (cbn; intros [_ ?]; lia).
    rewrite decide_True; [done |]. split; [by left | done].
  - rewrite !lookup_insert_ne in Hx by done. erewrite (decide_ext (y ∈ x :: ord /\ _)); [exact Hx |].
    rewrite elem_of_cons. tauto.
  - rewrite decide_False in Hx by lia. rewrite decide_False by lia. done.
  - erewrite (decide_ext (y ∈ x :: ord /\ _)); [exact Hx |]. rewrite elem_of_cons. tauto.
Qed.

(** [li] and [ls] hold, for the operations of the slices [seen], index and length of the
    first longest one. *)
Definition largest_ok (seen : list (list Z)) (li ls : gmap Z Z) : Prop := forall x,
  match li !! x with
  | None => ls !! x = None /\ forall l, l ∈ seen -> x ∉ l
  | Some k => exists (i : nat) l, k = Z.of_nat i /\ ls !! x = Some (len l) /\ seen !! i = Some l /\ x ∈ l
      /\ forall (j : nat) l', seen !! j = Some l' -> x ∈ l' -> len l' <= len l /\ ((j < i)%nat -> len l' < len l)
  end.

Lemma largest_next seen ord li ls li' ls' :
  largest_ok seen li ls ->
  (forall x, if decide (x ∈ ord /\ default 0 (ls !! x) < len ord)
     then li' !! x = Some (len seen) /\ ls' !! x = Some (len ord) else li' !! x = li !! x /\ ls' !! x = ls !! x) ->
  largest_ok (seen ++ [ord]) li' ls'.
Proof.
  intros Hok Hx x. specialize (Hok x). specialize (Hx x). case_decide as Hd; destruct Hx as [-> Hls].
  - destruct Hd as [Hin Hlt]. exists (base.length seen), ord. split; [done |]. split; [done |].
    split; [by rewrite list_lookup_middle |]. split; [done |].
    intros j l' [Hl'|[Hge Hl']]%lookup_app_Some Hxl.
    + assert (len l' < len ord) as Hlen; [|lia].
      destruct (li !! x) as [k|]; [|destruct Hok as [_ Hno]; by destruct (Hno l'); [eapply list_elem_of_lookup_2 |]].
      destruct Hok as (i & l & _ & Hl & _ & _ & Hmax). rewrite Hl in Hlt. cbn in Hlt.
      destruct (Hmax j l' Hl' Hxl). lia.
    + apply list_lookup_singleton_Some in Hl' as [? <-]. lia.
  - destruct (li !! x) as [k|] eqn:Ek.
    + destruct Hok as (i & l & -> & Hl & Hi & Hxl & Hmax). exists i, l. split; [done |].
      split; [congruence |]. split; [by apply lookup_app_l_Some |]. split; [done |].
      intros j l' [Hl'|[Hge Hl']]%lookup_app_Some Hxl'; [by apply (Hmax j) |].
      apply list_lookup_singleton_Some in Hl' as [? <-]. pose proof (lookup_lt_Some _ _ _ Hi). split; [|lia].
      rewrite Hl in Hd. cbn in Hd. destruct (Z.le_gt_cases (len ord) (len l)); [done |]. destruct Hd. split; [done | lia].
    + destruct Hok as [Hl Hno]. split; [congruence |].
      intros l' [Hl'|Heq%list_elem_of_singleton]%elem_of_app Hxl'; [by apply (Hno l') |]. subst l'.
      apply Hd. split; [done |]. rewrite Hl. cbn. destruct ord; [by apply elem_of_nil in Hxl' | cbn; lia].
Qed.

Lemma replay_all_ok partials : forall seen li ls,
  Forall (legal (Step model) f (Init model)) partials -> largest_ok seen li ls ->
  exists li' ls', replay_all show showState model d s (len seen) partials li ls = Done (replayed <$> partials, li')
    /\ largest_ok (seen ++ partials) li' ls'.
Proof.
  induction partials as [|ord partials IH]; intros seen li ls Hl Hok; cbn [replay_all].
  { exists li, ls. by rewrite app_nil_r. }
  apply Forall_cons in Hl as [Hord Hl].
  destruct (replay_ok (len seen) (len ord) ord (Init model) li ls Hord) as (li1 & ls1 & -> & Hx). cbn [mbind go_bind].
  pose proof (largest_next _ _ _ _ _ _ Hok Hx) as Hok1.
  destruct (IH (seen ++ [ord]) li1 ls1 Hl Hok1) as (li' & ls' & Hrun & Hfin).
  rewrite length_app in Hrun. cbn [base.length] in Hrun. replace (len seen + 1) with (Z.of_nat (base.length seen + 1)) by lia.
  rewrite Hrun. cbn [mbind go_bind]. go_simpl. eexists li', ls'. rewrite <- app_assoc in Hfin. done.
Qed.
End replay_facts.
