(* ===== verification/VisualizationTheorems.v ===== *)
(** Every partial linearization that the search records is a run of the model, so that
    the replay of [computeVisualizationData] never panics. *)
From S2P Require Import Prelude Bitset Checker LinSpec CheckerList CheckerSearch CheckerSound KvModel CheckerVerdict.
From S2P Require Import CheckerTheorems.
From S2P Require Import Visualization.

(** ** The data of the list never changes *)

Section frames.
Context {Inp Out St : Type}.
Implicit Types (h : heap Inp Out).

Lemma set_next_data h p v h' : set_next h p v = Done h' -> same_data h h'.
Proof.
  destruct p as [a|]; cbn; [|done]. destruct (h !! a) as [nd|] eqn:Ea; [|done]. intros [= <-].
  by apply (same_data_insert h a nd).
Qed.
Lemma set_prev_data h p v h' : set_prev h p v = Done h' -> same_data h h'.
Proof.
  destruct p as [a|]; cbn; [|done]. destruct (h !! a) as [nd|] eqn:Ea; [|done]. intros [= <-].
  by apply (same_data_insert h a nd).
Qed.

(** Splits a run into its writes, each of which keeps the data. *)
Ltac writes H :=
  repeat match type of H with
  | mbind _ _ = Done _ => apply go_bind_Done in H as (? & ? & H)
  end.
Ltac same_writes :=
  repeat match goal with
  | H : set_next ?h _ _ = Done _ |- _ => apply set_next_data in H
  | H : set_prev ?h _ _ = Done _ |- _ => apply set_prev_data in H
  | H : same_data ?h _ |- same_data ?h _ => first [exact H | apply (same_data_trans _ _ _ H); clear H]
  end.

Lemma lift_data h p h' : lift h p = Done h' -> same_data h h'.
Proof.
  unfold lift. intros H. writes H.
  match type of H with match ?x with _ => _ end = _ => destruct x end; [|injection H as <-]; by same_writes.
Qed.

Lemma unlift_data h p h' : unlift h p = Done h' -> same_data h h'.
Proof.
  unfold unlift. intros H. writes H.
  match goal with H : match ?x with Some _ => _ | None => _ end = Done _ |- _ => destruct x; [|injection H as <-] end; by same_writes.
Qed.

Lemma ops_same h h' a : same_data h h' -> ops h' a = ops h a.
Proof.
  intros Hd. unfold ops. pose proof (Hd a) as Ha. destruct (h !! a) as [nd|], (h' !! a) as [nd'|]; try done.
  injection Ha as Hv Hm _. cbn. rewrite Hm. destruct (n_match nd) as [m|]; [|done]. cbn.
  pose proof (Hd m) as Hmd. destruct (h !! m) as [md|], (h' !! m) as [md'|]; try done.
  injection Hmd as Hv' _ _. cbn. by rewrite Hv, Hv'.
Qed.

Lemma call_ids_data (h0 h : heap Inp Out) (calls : list (nat * St)) : forall ids,
  same_data h0 h -> call_ids h calls = Done ids -> ids = (fun c => idof h0 c.1) <$> calls.
Proof.
  induction calls as [|[p st] calls IH]; intros ids Hd H; cbn [call_ids] in H; [by injection H as <- |].
  apply go_bind_Done in H as (nd & Hnd & H). apply go_bind_Done in H as (ids' & Hids & H). injection H as <-.
  cbn. f_equal; [|by apply IH]. cbn in Hnd. destruct (h !! p) as [nd'|] eqn:Ep; [|done]. injection Hnd as ->.
  unfold idof. specialize (Hd p). rewrite Ep in Hd. destruct (h0 !! p); [|done]. by injection Hd.
Qed.
End frames.

(** ** The recorded slices are runs of the model *)

Section recorded.
Context {Inp Out St : Type} (model : Model Inp Out St) (equal : St -> St -> bool) (cp : bool) (headp : nat).
Context (h0 : heap Inp Out) (f : Z -> option (Inp * Out)).
Hypothesis Hf : forall a io, ops h0 a = Some io -> f (idof h0 a) = Some io.

(** The stack of calls leads from [st0] to [st], with the states on the way. *)
Fixpoint path (st0 : St) (calls : list (nat * St)) (st : St) : Prop :=
  match calls with
  | [] => st = st0
  | (p, s) :: calls => s = st0 /\ exists i o st1, ops h0 p = Some (i, o) /\ Step model st0 i o = (true, st1)
      /\ path st1 calls st
  end.

Lemma path_snoc st0 calls p s st :
  path st0 (calls ++ [(p, s)]) st <->
  path st0 calls s /\ exists i o, ops h0 p = Some (i, o) /\ Step model s i o = (true, st).
Proof.
  revert st0; induction calls as [|[q s'] calls IH]; intros st0; cbn.
  - split; [intros (-> & i & o & st1 & Ho & Hs & ->) | intros (-> & i & o & Ho & Hs)]; split; eauto 6.
  - setoid_rewrite IH. split.
    + intros (-> & i & o & st1 & Ho & Hs & Hp & Hlast). split; [|done]. by eauto 8.
    + intros ((-> & i & o & st1 & Ho & Hs & Hp) & Hlast). by eauto 10.
Qed.

Lemma path_legal st0 calls st : path st0 calls st -> legal (Step model) f st0 ((fun c => idof h0 c.1) <$> calls).
Proof.
  revert st0; induction calls as [|[p s] calls IH]; intros st0; cbn; [done |].
  intros (-> & i & o & st1 & Ho & Hs & Hp). rewrite (Hf p _ Ho), Hs. by split; [|apply IH].
Qed.

Record runs_ok (s : search Inp Out St) : Prop := {
  ro_data : same_data h0 (s_heap s);
  ro_path : path (Init model) (s_calls s) (s_state s);
  ro_seqs : Forall (legal (Step model) f (Init model)) (s_seqs s) }.

Lemma call_ids_legal s ids : runs_ok s -> call_ids (s_heap s) (s_calls s) = Done ids ->
  legal (Step model) f (Init model) ids.
Proof. intros Hs ->%(call_ids_data h0); [|apply Hs]. eapply path_legal, Hs. Qed.

Lemma try_call_runs p nd s s' :
  runs_ok s -> s_heap s !! p = Some nd -> try_call model equal headp p nd s = Done s' -> runs_ok s'.
Proof.
  intros Hok Hnd H. unfold try_call in H.
  apply go_bind_Done in H as (md & Hmd & H). apply go_bind_Done in H as ([ok st] & Hst & H).
  assert (exists i o, ops h0 p = Some (i, o) /\ Step model (s_state s) i o = (ok, st)) as (i & o & Hop & Hs).
  { rewrite <- (ops_same _ _ p (ro_data _ Hok)). unfold ops. rewrite Hnd. cbn.
    destruct (n_match nd) as [m|]; [|done]. cbn in Hmd |- *. destruct (s_heap s !! m) as [md'|]; [|done].
    injection Hmd as ->. cbn. unfold step_values in Hst.
    destruct (n_value nd) as [[i|]|]; [|done..]. destruct (n_value md) as [[|o]|]; [done | | done].
    exists i, o. by injection Hst. }
  destruct ok; [|injection H as <-; by destruct Hok].
  apply go_bind_Done in H as (b & _ & H). destruct (negb _); [|injection H as <-; by destruct Hok].
  apply go_bind_Done in H as (b2 & _ & H). apply go_bind_Done in H as (h & Hlift & H).
  apply go_bind_Done in H as (hd & _ & [= <-]). destruct Hok as [Hd Hp Hseq].
  split; cbn [s_heap s_calls s_state s_seqs]; [| apply path_snoc; by eauto | done].
  eapply same_data_trans; [exact Hd | by eapply lift_data].
Qed.

Lemma backtrack_runs s top rest s' :
  runs_ok s -> s_calls s = rest ++ [top] -> backtrack cp s top rest = Done s' -> runs_ok s'.
Proof.
  intros Hok Htop H. unfold backtrack in H. apply go_bind_Done in H as ([seqs longest] & Hseqs & H).
  apply go_bind_Done in H as (nd & _ & H). apply go_bind_Done in H as (b & _ & H).
  apply go_bind_Done in H as (h & Hun & H). apply go_bind_Done in H as (nd' & _ & [= <-]).
  assert (Forall (legal (Step model) f (Init model)) seqs) as Hall.
  { destruct cp; [|injection Hseqs as <- _; apply Hok].
    apply go_bind_Done in Hseqs as (ids & Hids & Hseqs). apply go_bind_Done in Hseqs as (l & _ & [= <- _]).
    apply Forall_app. split; [apply Hok |]. constructor; [by eapply call_ids_legal | done]. }
  destruct Hok as [Hd Hp _]. rewrite Htop in Hp. destruct top as [p s0]. apply path_snoc in Hp as [Hp _].
  split; cbn [s_heap s_calls s_state s_seqs]; [|done..].
  eapply same_data_trans; [exact Hd | by eapply unlift_data].
Qed.

Lemma turn_runs s t : runs_ok s -> turn_of model equal cp headp s = Done t ->
  match t with Again s' | Finish _ s' => runs_ok s' end.
Proof.
  intros Hok H. unfold turn_of in H. apply go_bind_Done in H as (nd & Hnd & H).
  assert (match last (s_calls s) with
    | None => mret (Finish false s)
    | Some top => s ← backtrack cp s top (removelast (s_calls s)); mret (Again s)
    end = Done t -> match t with Again s' | Finish _ s' => runs_ok s' end) as Hback.
  { destruct (last (s_calls s)) as [top|] eqn:El; [|by intros [= <-]].
    intros (s' & Hb & [= <-])%go_bind_Done. eapply backtrack_runs; [exact Hok | | exact Hb].
    apply last_Some in El as [l Hl]. by rewrite Hl, removelast_last. }
  destruct (s_entry s) as [p|]; [|by apply Hback]. destruct (n_match nd); [|by apply Hback].
  apply go_bind_Done in H as (s' & Ht & [= <-]). eapply try_call_runs; [exact Hok | | exact Ht].
  cbn in Hnd. destruct (s_heap s !! p); [congruence | done].
Qed.

Lemma checkLoop_runs kill fuel : forall i s ok s',
  runs_ok s -> checkLoop model equal cp kill headp fuel i s = Done (ok, s') -> runs_ok s'.
Proof.
  induction fuel as [|fuel IH]; intros i s ok s' Hok H; cbn [checkLoop] in H;
    apply go_bind_Done in H as (hd & _ & H); (destruct (n_next hd); [|by injection H as _ <-]);
    (destruct (kill i); [by injection H as _ <-|]); [done |].
  apply go_bind_Done in H as (t & Ht & H). pose proof (turn_runs s t Hok Ht) as Hok'.
  destruct t as [s1|b s1]; [by eapply IH | by injection H as _ <-].
Qed.

End recorded.

(** ** From [checkSingle] to the information of the verbose checks *)

Section info.
Context {Inp Out St : Type} (model : Model Inp Out St) (equal : St -> St -> bool).

(** The operations [ord] of the history [es] are a run of the model. *)
Definition run_of (es : list (entry Inp Out)) (ord : list Z) : Prop :=
  legal (Step model) (op_of es) (Init model) ord.

Lemma longest_of_elem seqs longest q (l : list Z) : Some (q, l) ∈ longest_of seqs longest -> l ∈ seqs.
Proof.
  unfold longest_of. intros ([p|] & Heq & _)%list_elem_of_fmap; [|done]. cbn in Heq.
  destruct (seqs !! p) as [l'|] eqn:El; [|done]. cbn in Heq. injection Heq as -> ->. by eapply list_elem_of_lookup_2.
Qed.

Lemma checkSingle_runs es n cp kill fuel ok info q l :
  history_ok es n -> checkSingle model equal es cp kill fuel = Done (ok, info) -> Some (q, l) ∈ info -> run_of es l.
Proof.
  intros Hh H Hin. destruct (checkSingle_start model equal es n Hh cp) as (h0 & _ & Heq & _ & _ & _ & _ & Hops & _).
  rewrite Heq in H. apply go_bind_Done in H as ([ok' s] & Hloop & H).
  apply (checkLoop_runs model equal cp _ h0 (op_of es) Hops) in Hloop; [|by split].
  destruct ok'.
  - apply go_bind_Done in H as (ids & Hids & [= <- <-]). apply longest_of_elem in Hin.
    apply elem_of_app in Hin as [Hin| ->%list_elem_of_singleton]; [|by eapply call_ids_legal].
    pose proof (ro_seqs _ _ _ _ Hloop) as Hall. rewrite Forall_forall in Hall. by apply Hall.
  - injection H as <- <-. apply longest_of_elem in Hin.
    pose proof (ro_seqs _ _ _ _ Hloop) as Hall. rewrite Forall_forall in Hall. by apply Hall.
Qed.

Lemma partials_elem longest l : l ∈ partials longest -> exists q, Some (q, l) ∈ longest.
Proof.
  unfold partials. intros ([q l'] & -> & Hin)%list_elem_of_fmap. apply elem_of_map_to_list in Hin.
  apply elem_of_list_to_map_2 in Hin. apply list_elem_of_omap in Hin as (o & Ho & Heq). exists q. by destruct o; simplify_eq/=.
Qed.

(** What holds of everything that [checkSingle] records holds of the partial
    linearizations of the information. *)
Lemma checkParallel_recorded (P : list (entry Inp Out) -> list Z -> Prop) parts sch res info :
  (forall es kill fuel ok longest q l, es ∈ parts ->
     checkSingle model equal es true kill fuel = Done (ok, longest) -> Some (q, l) ∈ longest -> P es l) ->
  checkParallel model equal parts true sch = Done (res, info) ->
  info.1 = parts /\ Forall2 (fun es pls => Forall (P es) pls) parts info.2.
Proof.
  intros Hok H. unfold checkParallel in H. apply go_bind_Done in H as (runs & Hruns & H).
  apply go_bind_Done in H as ([[[arr count] ok] tmo] & _ & H). apply go_bind_Done in H as (info' & Hinfo & [= _ <-]).
  apply go_bind_Done in Hinfo as (? & _ & [= <-]). split; [done |]. cbn [snd].
  revert runs Hruns Hok. generalize 0%nat. induction parts as [|es parts IH]; intros i runs Hruns Hok.
  - cbn in Hruns. injection Hruns as <-. constructor.
  - cbn [runAll] in Hruns. apply go_bind_Done in Hruns as ([b longest] & Hrun & Hruns).
    apply go_bind_Done in Hruns as (rs & Hrs & [= <-]).
    cbn. constructor.
    + apply Forall_forall. intros l (q & Hq)%partials_elem. eapply Hok; [left | exact Hrun | exact Hq].
    + eapply IH; [exact Hrs |]. intros es' kill fuel ok' l' q l Hin. eapply Hok. by right.
Qed.

(** All partial linearizations of the information are runs of the model. *)
Lemma checkParallel_runs parts sch res info :
  Forall (fun es => exists n, history_ok es n) parts ->
  checkParallel model equal parts true sch = Done (res, info) ->
  info.1 = parts /\ Forall2 (fun es pls => Forall (run_of es) pls) parts info.2.
Proof.
  rewrite Forall_forall. intros Hok. apply checkParallel_recorded. intros es kill fuel ok longest q l Hin.
  destruct (Hok es Hin) as [n Hn]. by apply checkSingle_runs with n.
Qed.
End info.

(** ** The data of the visualization *)

Section data.
Context {Inp Out St : Type} `{!EqDecision St} (model : Model Inp Out St).
Context (show : option (value Inp Out) -> string) (showState : St -> string) (d : Describe Inp Out St).
Context (describe : Inp -> Out -> string).
Hypothesis Hdescribe : forall i o,
  describe_operation show showState d (Some (VIn i)) (Some (VOut o)) = Done (describe i o).
Context (sort : list (entry Inp Out) -> list (entry Inp Out)) `{Hsort : !GoSort sort}.
Context (sortSlice : list (list Z) -> list (list Z)) (Hslice : forall l, sortSlice l ≡ₚ l).

Implicit Types (p : list (Operation Inp Out)) (pls : list (list Z)).

Lemma states_ext (f g : Z -> option (Inp * Out)) st ord :
  (forall x, f x = g x) -> states model f st ord = states model g st ord.
Proof.
  intros Hfg. revert st; induction ord as [|x ord IH]; intros st; cbn; [done |].
  rewrite Hfg. destruct (g x) as [[i o]|]; [|done]. by rewrite IH.
Qed.

Lemma legal_ext (f g : Z -> option (Inp * Out)) st ord :
  (forall x, f x = g x) -> legal (Step model) f st ord -> legal (Step model) g st ord.
Proof.
  intros Hfg. revert st; induction ord as [|x ord IH]; intros st; cbn; [done |].
  rewrite Hfg. destruct (g x) as [[i o]|]; [|done]. intros [? ?]. by split; [|apply IH].
Qed.

(** What is shown for the operations [p] of a partition with the partial
    linearizations [pls]: the operations; the runs of the model with the state after
    each step; for an operation, the first of the longest runs that contain it. *)
Definition shows p pls (pv : partitionVisualizationData) : Prop :=
  pv_History pv = (fun op => mkHistoryElement (op_ClientId op) (op_Call op) (op_Return op)
      (describe (op_Input op) (op_Output op))) <$> p
  /\ Forall (legal (Step model) (operation_at p) (Init model)) pls
  /\ pv_PartialLinearizations pv = replayed show showState model d (operation_at p) <$> pls
  /\ forall x, match pv_Largest pv !! x with
       | None => forall l, l ∈ pls -> x ∉ l
       | Some k => exists (i : nat) l, k = Z.of_nat i /\ pls !! i = Some l /\ x ∈ l
           /\ forall (j : nat) l', pls !! j = Some l' -> x ∈ l' -> len l' <= len l /\ ((j < i)%nat -> len l' < len l)
       end.

Lemma shown_operations p : times_ok p ->
  element_of describe (makeEntries sort p) <$> seqZ 0 (len p)
  = (fun op => mkHistoryElement (op_ClientId op) (op_Call op) (op_Return op) (describe (op_Input op) (op_Output op))) <$> p.
Proof.
  intros Ht. apply list_eq. intros i. rewrite !list_lookup_fmap. destruct (p !! i) as [op|] eqn:Ei.
  - pose proof (lookup_lt_Some _ _ _ Ei). rewrite (proj2 (lookup_seqZ 0 (len p) i (Z.of_nat i))) by lia. cbn.
    destruct (made_event sort p i op Ei) as [Hc Hr]. unfold element_of.
    rewrite Hc, Hr, (made_op sort p). unfold operation_at.
    destruct (Z.ltb_spec (Z.of_nat i) 0); [lia |]. by rewrite Nat2Z.id, Ei.
  - apply lookup_ge_None in Ei. rewrite (proj2 (lookup_ge_None _ _)); [done |]. rewrite length_seqZ. lia.
Qed.

Lemma show_partitions_ok ps : forall done_ todo,
  Forall times_ok ps -> Forall2 (fun p pls => Forall (run_of model (makeEntries sort p)) pls) ps todo ->
  exists data, show_partitions show showState model d sortSlice (len done_) (makeEntries sort <$> ps) (done_ ++ todo)
      = Done (data, done_ ++ (sortSlice <$> todo))
    /\ Forall3 shows ps (sortSlice <$> todo) data.
Proof.
  induction ps as [|p ps IH]; intros done_ todo Hts Hf2; inversion Hf2 as [|p' pls ps' todo' Hp Hrest]; subst.
  { exists []. split; [done | constructor]. }
  apply Forall_cons in Hts as [Ht Hts]. cbn [fmap list_fmap show_partitions].
  destruct (show_history_ok show showState d describe Hdescribe _ _ (made_ok sort p Ht)) as (s & -> & Hso).
  cbn [mbind go_bind]. rewrite (go_index_nat _ _ pls) by by apply list_lookup_middle. cbn [mbind go_bind].
  rewrite go_update_Done by (rewrite length_app; cbn; lia). cbn [mbind go_bind].
  rewrite Nat2Z.id, insert_app_r_alt, Nat.sub_diag by lia. cbn [list_insert insert].
  assert (forall x i o, op_of (makeEntries sort p) x = Some (i, o) ->
    callValue s !! x = Some (VIn i) /\ returnValue s !! x = Some (VOut o)) as Hvals.
  { intros x i o Ho. rewrite (so_call _ _ _ _ Hso), (so_return _ _ _ _ Hso). unfold op_of in Ho.
    destruct (event_of false x _) as [c|]; [|done]. destruct (event_of true x _) as [r|]; [|done]. cbn in Ho |- *.
    destruct (e_value c); [|done]. destruct (e_value r); [done |]. by injection Ho as -> ->. }
  destruct (replay_all_ok show showState model d s _ Hvals (sortSlice pls) [] ∅ ∅) as (li & ls & Hrep & Hla).
  { unfold run_of in Hp. by rewrite Hslice. }
  { intros x. rewrite !lookup_empty. split; [done |]. by intros l ?%elem_of_nil. }
  change (len []) with 0 in Hrep. rewrite Hrep. cbn [mbind go_bind].
  destruct (IH (done_ ++ [sortSlice pls]) todo' Hts Hrest) as (data & Hrun & Hall).
  rewrite length_app in Hrun. cbn [base.length] in Hrun.
  replace (len done_ + 1) with (Z.of_nat (base.length done_ + 1)) by lia.
  replace (done_ ++ [sortSlice pls]) with (done_ ++ [sortSlice pls] ++ []) in Hrun by done.
  rewrite <- !app_assoc in Hrun. cbn [app] in Hrun. rewrite Hrun. cbn [mbind go_bind]. go_simpl.
  eexists. split; [done |]. constructor; [|done]. split; cbn [pv_History pv_PartialLinearizations pv_Largest].
  - rewrite (so_history _ _ _ _ Hso). by apply shown_operations.
  - split; [|split].
    + rewrite Hslice. eapply Forall_impl; [exact Hp |]. intros l. apply legal_ext. intros x. by apply made_op.
    + apply list_fmap_ext. intros _ l _. unfold replayed. do 2 f_equal. apply states_ext. intros x. by apply made_op.
    + intros x. specialize (Hla x). destruct (li !! x) as [k|].
      * destruct Hla as (i & l & -> & _ & Hi & Hin & Hmax). by exists i, l.
      * by apply Hla.
Qed.
End data.

(** What is shown of the answer of a verbose check. *)
Lemma shown_info {Inp Out St} `{!EqDecision St} (model : Model Inp Out St) show showState d describe
    sort sortSlice history sch res info :
  (forall i o, describe_operation show showState d (Some (VIn i)) (Some (VOut o)) = Done (describe i o)) ->
  GoSort sort -> (forall l, sortSlice l ≡ₚ l) -> Forall times_ok (parts model history) ->
  CheckOperationsVerbose sort model history sch = Done (res, info) ->
  exists data, computeVisualizationData show showState model d sortSlice info = Done (data, (info.1, sortSlice <$> info.2))
    /\ Forall3 (shows model show showState d describe) (parts model history) (sortSlice <$> info.2) data.
Proof.
  intros Hdesc Hsort Hslice Htimes Hpar. unfold CheckOperationsVerbose, checkOperations in Hpar.
  change (default NoPartition (Partition (fillDefault model)) history) with (parts model history) in Hpar.
  apply checkParallel_runs in Hpar as [Hhist Hall].
  2: { apply Forall_fmap. eapply Forall_impl; [exact Htimes |]. intros p Hp. exists (len p). by apply made_ok. }
  rewrite Forall2_fmap_l in Hall.
  destruct (show_partitions_ok (fillDefault model) show showState d describe Hdesc sort sortSlice Hslice
    (parts model history) [] info.2 Htimes Hall) as (data & Hdata & Hshows).
  exists data. split; [|exact Hshows]. unfold computeVisualizationData. rewrite Hhist.
  change (len []) with 0 in Hdata. cbn [app] in Hdata. by rewrite Hdata.
Qed.

(** C24: the visualization of a verbose check.  Let there be at least one partition, let
    operations return no earlier than they are called, let the model's state equality be
    a simulation and its [DescribeOperation] not panic.  Then [CheckOperationsVerbose]
    returns a verdict that is right ([Unknown] only after a timeout), and information in
    which every partial linearization, those of a search that failed or was killed too,
    is a run of the model from its initial state; [computeVisualizationData] does not
    panic on it (it replays every run without its "non-ok result"), sorts the slices of
    the caller in place, and shows every operation with its times, every run with the
    states on the way, and for every operation the first of the longest runs that
    contain it. *)
Theorem visualization_shows {Inp Out St} `{!EqDecision St} (model : Model Inp Out St) show showState d describe
    sort sortSlice history sch :
  (forall i o, describe_operation show showState d (Some (VIn i)) (Some (VOut o)) = Done (describe i o)) ->
  GoSort sort -> (forall l, sortSlice l ≡ₚ l) ->
  Simulation (Step model) (equal_of (fillDefault model)) -> conditions model sort history sch true ->
  exists res info data, CheckOperationsVerbose sort model history sch = Done (res, info)
    /\ match res with
       | Ok => Forall (linearizable model) (parts model history)
       | Illegal => Exists (fun p => ~ linearizable model p) (parts model history)
       | Unknown => ATimeout ∈ sch_arrivals sch
       end
    /\ computeVisualizationData show showState model d sortSlice info = Done (data, (info.1, sortSlice <$> info.2))
    /\ Forall3 (shows model show showState d describe) (parts model history) (sortSlice <$> info.2) data.
Proof.
  intros Hdesc Hsort Hslice Hsim Hcond. destruct (operations_verdict model sort history sch true Hsort Hsim Hcond) as (res & info & Hrun & Hv).
  destruct (shown_info model show showState d describe sort sortSlice history sch res info Hdesc Hsort Hslice
    (cd_times _ _ _ _ _ Hcond) Hrun) as (data & Hdata & Hshows). by exists res, info, data.
Qed.

(** ** A history of the key/value model *)

(** [DescribeOperation] of [KvModel], which asserts the types of its arguments; the
    model has no [DescribeState]. *)
Definition kv_describe : Describe KvInput KvOutput string :=
  mkDescribe (Some (fun input output => match input, output with
    | Some (VIn i), Some (VOut o) => mret (KvModel.DescribeOperation i o)
    | _, _ => Panic "interface conversion"
    end)) None.

Definition longer (a b : list Z) : Prop := (base.length b <= base.length a)%nat.
#[export] Instance longer_dec : RelDecision longer.
Proof. intros a b. unfold longer. apply _. Defined.

(** Descriptions, runs and states that are shown. *)
Definition summary (pv : partitionVisualizationData) : list string * list (list (Z * string)) :=
  (map he_Description (pv_History pv),
   map (map (fun st => (ls_Index st, ls_StateDescription st))) (pv_PartialLinearizations pv)).
Definition kv_shown (history : list KvOperation) (sch : schedule) : go (CheckResult * list (list string * list (list (Z * string)))) :=
  '(res, info) ← CheckOperationsVerbose sortEntries KvModel history sch;
  '(data, _) ← computeVisualizationData (fun _ => "") id KvModel kv_describe (merge_sort longer) info;
  mret (res, map summary data).

Lemma visualization_shows_witness :
  (exists res info data, CheckOperationsVerbose sortEntries KvModel kv_bad (sch_all 200 1) = Done (res, info)
    /\ computeVisualizationData (fun _ => "") id KvModel kv_describe (merge_sort longer) info
       = Done (data, (info.1, merge_sort longer <$> info.2))
    /\ Forall3 (shows KvModel (fun _ => "") id kv_describe KvModel.DescribeOperation) (parts KvModel kv_bad)
         (merge_sort longer <$> info.2) data)
  /\ kv_shown kv_bad (sch_all 200 1) = Done (Illegal, [(["put('x', 'a')"; "get('x') -> ''"], [[(0, "a")]])]).
Proof.
  split; [|vm_compute; reflexivity].
  destruct (visualization_shows KvModel (fun _ => "") id kv_describe KvModel.DescribeOperation sortEntries
    (merge_sort longer) kv_bad (sch_all 200 1)) as (res & info & data & Hrun & _ & Hdata & Hshows).
  - reflexivity.
  - apply _.
  - intros l. apply merge_sort_Permutation.
  - exact (shallow_simulation KvStep).
  - apply (sch_all_conditions kv_bad true 200); [discriminate | | vm_compute; reflexivity].
    repeat constructor; cbn; lia.
  - exists res, info, data. split; [exact Hrun | split; [exact Hdata | exact Hshows]].
Defined.
