(* ===== verification/Render.v ===== *)
(** The page that shows a history: [render], the script in the page of
    [src/porcupine/visualization.go].  It warps time so that the boxes of the operations
    have room for their texts and their linearization points, and draws boxes, points and
    the next steps that would have been possible.

    A time of the data is counted in halves of its unit, since the script puts the end of
    an operation in the middle between two times.  A length on the page is counted in
    fractions of a pixel, [px] of them to one. *)
From S2P Require Import Prelude Checker Visualization.

(** ** Numbers *)

(** A position; [None] is NaN, and [undefined], which becomes NaN in a computation. *)
Abbreviation number := (option Z).
Definition jadd (a b : number) : number := x ← a; y ← b; Some (x + y).
Definition jsub (a b : number) : number := x ← a; y ← b; Some (x - y).
Definition jmax (a b : number) : number := x ← a; y ← b; Some (x `max` y).
(** [Math.min] with [Infinity], which is [None] here. *)
Definition jmin_inf (m : option Z) (t : Z) : option Z := match m with None => Some t | Some m => Some (m `min` t) end.
Definition before_inf (t : Z) (m : option Z) : bool := match m with None => true | Some m => t <? m end.

Definition type_error : string := "TypeError".

(** ** The events *)

(** An element of a history, with what the script adds to it. *)
Record el := mkEl {
  el_ClientId : Z; el_Start : Z; el_End : Z; el_OriginalEnd : option Z; el_Description : string; el_Gid : Z }.
#[export] Instance eta_el : Eta el := fun e =>
  mkEl (el_ClientId e) (el_Start e) (el_End e) (el_OriginalEnd e) (el_Description e) (el_Gid e).

Record part := mkPart {
  pt_History : list el; pt_PartialLinearizations : list partialLinearization; pt_Largest : gmap Z Z }.

(** A time of the data, in halves. *)
Definition halves (t : Z) : Z := 2 * t.

(** The loop that gives the elements their GIDs. *)
Fixpoint label_history (gid : Z) (history : list historyElement) : list el :=
  match history with
  | [] => []
  | h :: history =>
    mkEl (he_ClientId h) (halves (he_Start h)) (halves (he_End h)) None (he_Description h) gid
      :: label_history (gid + 1) history
  end.
Fixpoint label (gid : Z) (data : list partitionVisualizationData) : list part :=
  match data with
  | [] => []
  | partition :: data =>
    mkPart (label_history gid (pv_History partition)) (pv_PartialLinearizations partition) (pv_Largest partition)
      :: label (gid + len (pv_History partition)) data
  end.

Definition all_els (data : list part) : list el := data ≫= pt_History.

Definition maxClient (data : list part) : Z := foldl (fun m e => m `max` el_ClientId e) (-1) (all_els data).
Definition nClient (data : list part) : Z := maxClient data + 1.

Definition allTimestamps (data : list part) : gset Z :=
  list_to_set (all_els data ≫= fun e => [el_Start e; el_End e]).
Definition startTimestamps (data : list part) : gset Z := list_to_set (el_Start <$> all_els data).
Definition sort_times (ts : gset Z) : list Z := merge_sort Z.le (elements ts).

Fixpoint nextTs (sorted : list Z) : gmap Z Z :=
  match sorted with
  | a :: (b :: _) as sorted => <[a := b]> (nextTs sorted)
  | _ => ∅
  end.

(** The end of an operation at which another one starts is moved towards the next time. *)
Definition tweaked (starts : gset Z) (next : gmap Z Z) (end_ : Z) : option Z :=
  if decide (end_ ∈ starts) then (fun n => (end_ + n) `div` 2) <$> (next !! end_) else None.
Definition tweak_el (starts : gset Z) (next : gmap Z Z) (e : el) : el :=
  let e := e <| el_OriginalEnd := Some (el_End e) |> in
  match tweaked starts next (el_End e) with Some t => e <| el_End := t |> | None => e end.
Definition tweak_part (starts : gset Z) (next : gmap Z Z) (p : part) : part :=
  mkPart (tweak_el starts next <$> (pt_History p)) (pt_PartialLinearizations p) (pt_Largest p).

(** The data with tweaked ends, and the updated [sortedTimestamps]. *)
Definition prepare (json : list partitionVisualizationData) : list part * list Z :=
  let data := label 0 json in
  let all := allTimestamps data in
  let starts := startTimestamps data in
  let next := nextTs (sort_times all) in
  let added := list_to_set (omap (fun e => tweaked starts next (el_End e)) (all_els data)) in
  (tweak_part starts next <$> data, sort_times (all ∪ added)).

Definition byGid (data : list part) (gid : Z) : go el :=
  match list_find (fun e => el_Gid e = gid) (all_els data) with
  | Some (_, e) => mret e
  | None => Panic type_error
  end.

(** ** Linearization points and possible next steps *)

Definition indexed (history : list el) : list (Z * el) := imap (fun i e => (Z.of_nat i, e)) history.

(** The elements that are not in [lin] and that no other such element must come before. *)
Definition minEnd (history : list el) (lin : partialLinearization) : option Z :=
  foldl (fun m ie => if decide (ie.1 ∈ (ls_Index <$> lin)) then m else jmin_inf m (el_End ie.2)) None (indexed history).
Definition illegal_next (history : list el) (lin : partialLinearization) : list (Z * el) :=
  filter (fun ie => (ie.1 ∉ (ls_Index <$> lin)) /\ before_inf (el_Start ie.2) (minEnd history lin) = true) (indexed history).

(** [eventToLinearizations], [eventIllegalLast] and [allLinearizations], whose length is
    [lgid]. *)
Record links := mkLinks {
  eventToLinearizations : list (list (Z * Z)); eventIllegalLast : list (list Z); allLinearizations : list (list Z) }.

Definition push {A} (l : list (list A)) (i : Z) (x : A) : go (list (list A)) :=
  row ← go_index l i; go_update l i (row ++ [x]).

(** The loop over the steps of one linearization: its GIDs. *)
Fixpoint globalize (history : list el) (lgid position : Z) (lin : partialLinearization) (to : list (list (Z * Z)))
    : go (list Z * list (list (Z * Z))) :=
  match lin with
  | [] => mret ([], to)
  | id :: lin =>
    e ← go_index history (ls_Index id);
    to ← push to (el_Gid e) (lgid, position);
    '(globalized, to) ← globalize history lgid (position + 1) lin to;
    mret (el_Gid e :: globalized, to)
  end.

Fixpoint push_illegal (lgid : Z) (els : list (Z * el)) (il : list (list Z)) : go (list (list Z)) :=
  match els with
  | [] => mret il
  | ie :: els => il ← push il (el_Gid ie.2) lgid; push_illegal lgid els il
  end.

Definition link_lin (history : list el) (lin : partialLinearization) (k : links) : go links :=
  let lgid := len (allLinearizations k) in
  '(globalized, to) ← globalize history lgid 0 lin (eventToLinearizations k);
  il ← push_illegal lgid (illegal_next history lin) (eventIllegalLast k);
  mret (mkLinks to il (allLinearizations k ++ [globalized])).

Fixpoint link_lins (history : list el) (lins : list partialLinearization) (k : links) : go links :=
  match lins with
  | [] => mret k
  | lin :: lins => k ← link_lin history lin k; link_lins history lins k
  end.

Fixpoint link_all (data : list part) (k : links) : go links :=
  match data with
  | [] => mret k
  | p :: data => k ← link_lins (pt_History p) (pt_PartialLinearizations p) k; link_all data k
  end.

Section layout.
(** [px] is the length of a pixel, [textWidth] what [getBBox] says of a text. *)
Context (px : Z) (textWidth : string -> Z).

Definition PADDING : Z := 10 * px.
Definition BOX_HEIGHT : Z := 30 * px.
Definition BOX_SPACE : Z := 15 * px.
Definition XOFF : Z := 20 * px.
Definition EPSILON : Z := 20 * px.
Definition LINE_BLEED : Z := 5 * px.
Definition BOX_GAP : Z := 20 * px.
Definition BOX_TEXT_PADDING : Z := 10 * px.

(** ** The left-to-right scan *)

(** An entry of [byEnd]. *)
Record box := mkBox { b_start : Z; b_end : Z; b_width : Z; b_gid : Z }.
Definition box_of (e : el) : box :=
  mkBox (el_Start e) (el_End e) (textWidth (el_Description e) + 2 * BOX_TEXT_PADDING) (el_Gid e).
Definition ends_before (a b : box) : Prop := b_end a <= b_end b.
#[export] Instance ends_before_dec : RelDecision ends_before.
Proof. intros a b. unfold ends_before. apply _. Defined.
Definition byEnd (data : list part) : list box := merge_sort ends_before (box_of <$> all_els data).

(** [xPos] and [linearizationPositions] *)
Record scan := mkScan { xPos : gmap Z number; linearizationPositions : list (list number) }.

Definition x_at (x : gmap Z number) (t : Z) : number := match x !! t with Some z => z | None => None end.
(** [l[i]] for an array of numbers *)
Definition at_ (l : list number) (i : Z) : number := if i <? 0 then None else match l !! Z.to_nat i with Some z => z | None => None end.

Context (data : list part) (k : links).

(** The inner loop over [i]: [n] more positions of a linearization. *)
Fixpoint fill (n : nat) (lin : list Z) (x : gmap Z number) (l : list number) : go (list number) :=
  match n with
  | O => mret l
  | S n =>
    nextGid ← go_index lin (len l);
    e ← byGid data nextGid;
    let start := x_at x (el_Start e) in
    let nextPos := match last l with None => start | Some prev => jmax start (jadd prev (Some EPSILON)) end in
    fill n lin x (l ++ [nextPos])
  end.

(** The first [forEach] for a box: the points up to its own. *)
Fixpoint place_points (lis : list (Z * Z)) (x : gmap Z number) (lps : list (list number)) (pos : number)
    : go (list (list number) * number) :=
  match lis with
  | [] => mret (lps, pos)
  | (index, position) :: lis =>
    l ← go_index lps index;
    lin ← go_index (allLinearizations k) index;
    l ← fill (Z.to_nat (position + 1 - len l)) lin x l;
    lps ← go_update lps index l;
    place_points lis x lps (jmax pos (at_ l position))
  end.

(** The second one: room for the illegal next step behind a linearization. *)
Fixpoint place_illegal (lis : list Z) (lps : list (list number)) (pos : number) : go number :=
  match lis with
  | [] => mret pos
  | li :: lis =>
    lin ← go_index lps li;
    place_illegal lis lps (jmax pos (jadd (at_ lin (len lin - 1)) (Some EPSILON)))
  end.

Fixpoint last_positions (indexes : list Z) : go (list (Z * Z)) :=
  match indexes with
  | [] => mret []
  | index :: indexes =>
    lin ← go_index (allLinearizations k) index;
    l ← last_positions indexes;
    mret ((index, len lin - 1) :: l)
  end.

(** The body of the [while] loop for the box [b]. *)
Definition place_box (b : box) (x : gmap Z number) (lps : list (list number)) (pos : number)
    : go (list (list number) * number) :=
  let textEndPos := jadd (x_at x (b_start b)) (Some (b_width b)) in
  let pos := jmax pos textEndPos in
  points ← go_index (eventToLinearizations k) (b_gid b);
  illegal ← go_index (eventIllegalLast k) (b_gid b);
  lasts ← last_positions illegal;
  '(lps, pos) ← place_points (points ++ lasts) x lps pos;
  pos ← place_illegal illegal lps pos;
  mret (lps, pos).

(** The [while] loop at the time [ts]; [rest] are the boxes from [eventIndex] on. *)
Fixpoint place_boxes (rest : list box) (ts : Z) (x : gmap Z number) (lps : list (list number)) (pos : number)
    : go (list box * list (list number) * number) :=
  match rest with
  | [] => mret ([], lps, pos)
  | b :: rest' =>
    if b_end b <=? ts then
      '(lps, pos) ← place_box b x lps pos;
      place_boxes rest' ts x lps pos
    else mret (rest, lps, pos)
  end.

(** The [for] loop behind the time [prev]. *)
Fixpoint scan_times (prev : Z) (times : list Z) (rest : list box) (s : scan) : go scan :=
  match times with
  | [] => mret s
  | ts :: times =>
    let pos := jadd (x_at (xPos s) prev) (Some BOX_GAP) in
    '(rest, lps, pos) ← place_boxes rest ts (xPos s) (linearizationPositions s) pos;
    scan_times ts times rest (mkScan (<[ts := pos]> (xPos s)) lps)
  end.
End layout.

Definition layout (px : Z) (textWidth : string -> Z) (data : list part) (sortedTimestamps : list Z)
    : go (links * scan) :=
  let gid := base.length (all_els data) in
  k ← link_all data (mkLinks (replicate gid []) (replicate gid []) []);
  let start lps := mkScan (match sortedTimestamps with [] => ∅ | t0 :: _ => {[t0 := Some 0]} end) lps in
  s ← match sortedTimestamps with
      | [] => mret (start (replicate (base.length (allLinearizations k)) []))
      | t0 :: times => scan_times px data k t0 times (byEnd px textWidth data)
                         (start (replicate (base.length (allLinearizations k)) []))
      end;
  mret (k, s).

(** ** Drawing *)

Record rect := mkRect { r_x : number; r_y : Z; r_width : number; r_text : string }.
(** A line of a linearization: from the point before, or the point itself. *)
Record line := mkLine { l_x1 : number; l_x2 : number; l_y1 : Z; l_y2 : Z; l_invalid : bool; l_point : bool }.
Record errorPoint := mkErrorPoint { ep_x : number; ep_partition : Z; ep_index : Z; ep_lin : Z }.

Section drawing.
Context (px : Z) (x : gmap Z number).
Abbreviation PADDING := (PADDING px).
Abbreviation BOX_HEIGHT := (BOX_HEIGHT px).
Abbreviation BOX_SPACE := (BOX_SPACE px).
Abbreviation XOFF := (XOFF px).
Abbreviation LINE_BLEED := (LINE_BLEED px).

(** The box of an element: the rectangle, which the mouse target has too, and the text,
    in its middle. *)
Definition draw_el (e : el) : rect :=
  let rx := x_at x (el_Start e) in
  let width := jsub (x_at x (el_End e)) rx in
  mkRect (jadd (jadd rx (Some XOFF)) (Some PADDING)) (PADDING + el_ClientId e * (BOX_HEIGHT + BOX_SPACE)) width
    (el_Description e).

(** [prevX], [prevY] and [prevEl], which are set together. *)
Definition prev := option (number * Z * el).

Definition point_x (p : prev) (e : el) : number :=
  let hereX := jadd (Some (PADDING + XOFF)) (x_at x (el_Start e)) in
  match p with Some (prevX, _, _) => jmax hereX (jadd prevX (Some (EPSILON px))) | None => hereX end.
Definition point_y (e : el) : Z := PADDING + el_ClientId e * (BOX_HEIGHT + BOX_SPACE) - LINE_BLEED.

Definition line_from (prevX : number) (prevY : Z) (prevEl : el) (x' : number) (y : Z) (e : el) (invalid : bool) : line :=
  mkLine prevX x'
    (if el_ClientId e <=? el_ClientId prevEl then prevY else prevY + BOX_HEIGHT + 2 * LINE_BLEED)
    (if el_ClientId prevEl <=? el_ClientId e then y else y + BOX_HEIGHT + 2 * LINE_BLEED) invalid false.
Definition line_at (x' : number) (y : Z) (invalid : bool) : line :=
  mkLine x' x' y (y + BOX_HEIGHT + 2 * LINE_BLEED) invalid true.

(** The lines of one linearization. *)
Fixpoint draw_lin (history : list el) (lin : partialLinearization) (p : prev) : go (list line * prev) :=
  match lin with
  | [] => mret ([], p)
  | id :: lin =>
    e ← go_index history (ls_Index id);
    let x' := point_x p e in
    let y := point_y e in
    let from := match p with
                | Some (prevX, prevY, prevEl) => [line_from prevX prevY prevEl x' y e false]
                | None => [] end in
    '(lines, p) ← draw_lin history lin (Some (x', y, e));
    mret (from ++ line_at x' y false :: lines, p)
  end.

(** The possible but illegal next steps: [prevEl['ClientId']] throws on [null]. *)
Fixpoint draw_illegal (els : list (Z * el)) (p : prev) : go (list line * list number) :=
  match els with
  | [] => mret ([], [])
  | (_, e) :: els =>
    let x' := point_x p e in
    let y := point_y e in
    match p with
    | None => Panic type_error
    | Some (prevX, prevY, prevEl) =>
      '(lines, xs) ← draw_illegal els p;
      mret (line_from prevX prevY prevEl x' y e true :: line_at x' y true :: lines, x' :: xs)
    end
  end.
End drawing.

(** What the drawing leaves for the interaction, for one partition: the group of lines
    of each linearization, the error points, [illegalLast], and [largestIllegal] with
    [largestIllegalLength]. *)
Record drawn := mkDrawn {
  d_lines : list (list line); d_errors : list errorPoint; d_illegalLast : list (gset Z);
  d_largestIllegal : gmap Z Z; d_largestLength : gmap Z Z }.

Definition note_illegal (linIndex length : Z) (d : gmap Z Z * gmap Z Z) (index : Z) : gmap Z Z * gmap Z Z :=
  if match d.2 !! index with None => true | Some l => l <? length end
  then (<[index := linIndex]> d.1, <[index := length]> d.2) else d.

Definition draw_one (px : Z) (x : gmap Z number) (partition : Z) (history : list el) (lin : partialLinearization)
    (d : drawn) : go drawn :=
  let linIndex := len (d_lines d) in
  '(lines, p) ← draw_lin px x history lin None;
  let next := illegal_next history lin in
  '(lines', xs) ← draw_illegal px x next p;
  let last_index := default 0 (ls_Index <$> last lin) in
  let '(largest, lengths) :=
    foldl (note_illegal linIndex (len lin)) (d_largestIllegal d, d_largestLength d) (next.*1) in
  mret (mkDrawn (d_lines d ++ [lines ++ lines'])
    (d_errors d ++ ((fun x' => mkErrorPoint x' partition last_index linIndex) <$> xs))
    (d_illegalLast d ++ [list_to_set (next.*1)]) largest lengths).

Fixpoint draw_lins (px : Z) (x : gmap Z number) (partition : Z) (history : list el)
    (lins : list partialLinearization) (d : drawn) : go drawn :=
  match lins with
  | [] => mret d
  | lin :: lins => d ← draw_one px x partition history lin d; draw_lins px x partition history lins d
  end.

Fixpoint draw_parts (px : Z) (x : gmap Z number) (partition : Z) (data : list part) : go (list drawn) :=
  match data with
  | [] => mret []
  | p :: data =>
    d ← draw_lins px x partition (pt_History p) (pt_PartialLinearizations p) (mkDrawn [] [] [] ∅ ∅);
    ds ← draw_parts px x (partition + 1) data;
    mret (d :: ds)
  end.

Record page := mkPage {
  p_data : list part; p_width : number; p_height : Z; p_rects : list (list rect); p_drawn : list drawn;
  p_errorPoints : list errorPoint }.

Definition errors_before (a b : errorPoint) : Prop :=
  match ep_x a, ep_x b with Some x, Some y => x <= y | _, _ => True end.
#[export] Instance errors_before_dec : RelDecision errors_before.
Proof. intros a b. unfold errors_before. destruct (ep_x a), (ep_x b); apply _. Defined.

(** [render] up to the interaction.  Without any time the script sets and reads
    [xPos[undefined]]. *)
Definition render (px : Z) (textWidth : string -> Z) (json : list partitionVisualizationData) : go page :=
  let '(data, sortedTimestamps) := prepare json in
  '(_, s) ← layout px textWidth data sortedTimestamps;
  let x := xPos s in
  let height := 2 * PADDING px + BOX_HEIGHT px * nClient data + BOX_SPACE px * (nClient data - 1) in
  let end_ := match last sortedTimestamps with Some t => x_at x t | None => Some 0 end in
  let width := jadd (Some (2 * PADDING px + XOFF px)) end_ in
  drawn ← draw_parts px x 0 data;
  mret (mkPage data width height ((fun p => draw_el px x <$> (pt_History p)) <$> data) drawn
    (merge_sort errors_before (drawn ≫= d_errors))).
