(* ===== verification/RenderLayout.v ===== *)
(** The layout of the page: what [prepare] makes of the data of a history, and that the
    left-to-right scan of [render] solves its constraints with the least positions. *)
From S2P Require Import Prelude Checker Visualization Render.

(** ** Times *)

Lemma sort_times_elem (ts : gset Z) t : t ∈ sort_times ts <-> t ∈ ts.
Proof. unfold sort_times. by rewrite merge_sort_Permutation, elem_of_elements. Qed.

Lemma sorted_strict l : StronglySorted Z.le l -> NoDup l -> StronglySorted Z.lt l.
Proof.
  induction 1 as [|t l _ IH Ht]; intros Hnd; [constructor |]. apply NoDup_cons in Hnd as [Hn Hnd].
  constructor; [by apply IH |]. rewrite Forall_forall in Ht |- *. intros t' Ht'.
  pose proof (Ht t' Ht'). assert (t <> t') by (intros ->; done). lia.
Qed.

Lemma sort_times_sorted (ts : gset Z) : StronglySorted Z.lt (sort_times ts).
Proof.
  apply sorted_strict; [apply (StronglySorted_merge_sort Z.le) |].
  unfold sort_times. rewrite merge_sort_Permutation. apply NoDup_elements.
Qed.

(** The time after a time. *)
Lemma nextTs_spec l a c :
  StronglySorted Z.lt l -> a ∈ l -> c ∈ l -> a < c -> exists b, nextTs l !! a = Some b /\ a < b /\ b ∈ l.
Proof.
  induction 1 as [|t l Hs IH Ht]; [by intros ?%elem_of_nil |]. intros Ha Hc Hlt. rewrite Forall_forall in Ht.
  destruct l as [|b l].
  { apply list_elem_of_singleton in Ha, Hc. lia. }
  change (nextTs (t :: b :: l)) with (<[t := b]> (nextTs (b :: l))).
  destruct (decide (t = a)) as [->|Hne].
  - exists b. rewrite lookup_insert_eq. split; [done |]. split; [apply Ht; left | right; left].
  - rewrite lookup_insert_ne by done. apply elem_of_cons in Ha as [?|Ha]; [done |].
    apply elem_of_cons in Hc as [->|Hc]; [apply Ht in Ha; lia |].
    destruct (IH Ha Hc Hlt) as (b' & ? & ? & ?). exists b'. split; [done |]. split; [done | by right].
Qed.

(** ** What [prepare] makes of the data *)

Section prepare.
Context (json : list partitionVisualizationData).

Definition elements_of : list historyElement := json ≫= pv_History.

(** A history as the checker shows it: operations that take time; linearizations that
    are not empty, have every operation at most once, and in which the operation at
    place [k] was called before anything that is not before it had returned. *)
Definition lin_ok (history : list historyElement) (lin : partialLinearization) : Prop :=
  lin <> [] /\ NoDup (ls_Index <$> lin)
  /\ forall k id, lin !! k = Some id -> 0 <= ls_Index id /\ exists h, history !! Z.to_nat (ls_Index id) = Some h
     /\ forall j h', history !! j = Some h' -> Z.of_nat j ∉ ls_Index <$> take k lin -> he_Start h <= he_End h'.
Definition data_ok : Prop :=
  (forall h, h ∈ elements_of -> he_Start h < he_End h)
  /\ forall p lin, p ∈ json -> lin ∈ pv_PartialLinearizations p -> lin_ok (pv_History p) lin.

Definition labelled : list el := all_els (label 0 json).
Definition stamps : gset Z := allTimestamps (label 0 json).
Definition starts : gset Z := startTimestamps (label 0 json).
Definition next_stamp : gmap Z Z := nextTs (sort_times stamps).

Lemma label_history_lookup g history j :
  label_history g history !! j = (fun h => mkEl (he_ClientId h) (halves (he_Start h)) (halves (he_End h)) None
     (he_Description h) (g + Z.of_nat j)) <$> (history !! j).
Proof.
  revert g j; induction history as [|h history IH]; intros g [|j]; cbn [label_history lookup list_lookup]; try done.
  - cbn. by rewrite Z.add_0_r.
  - rewrite IH. destruct (history !! j); [|done]. cbn. do 2 f_equal. lia.
Qed.

Lemma label_history_app g l1 l2 : label_history g (l1 ++ l2) = label_history g l1 ++ label_history (g + len l1) l2.
Proof.
  revert g; induction l1 as [|h l1 IH]; intros g; cbn [app label_history base.length]; [by rewrite Z.add_0_r |].
  rewrite IH. do 3 f_equal. lia.
Qed.

Lemma label_els g data : all_els (label g data) = label_history g (data ≫= pv_History).
Proof.
  unfold all_els. revert g; induction data as [|p data IH]; intros g; [done |].
  cbn [label mbind list_bind]. by rewrite label_history_app, IH.
Qed.

Lemma labelled_elem e :
  e ∈ labelled -> exists h, h ∈ elements_of /\ el_Start e = halves (he_Start h) /\ el_End e = halves (he_End h).
Proof.
  unfold labelled. rewrite label_els. intros (j & Hj)%list_elem_of_lookup. rewrite label_history_lookup in Hj.
  apply fmap_Some in Hj as (h & Hh & ->). exists h. split; [by eapply list_elem_of_lookup_2 | done].
Qed.

Lemma elem_labelled h :
  h ∈ elements_of -> exists e, e ∈ labelled /\ el_Start e = halves (he_Start h) /\ el_End e = halves (he_End h).
Proof.
  intros (j & Hj)%list_elem_of_lookup. eexists. split; [|split].
  - unfold labelled. rewrite label_els. apply list_elem_of_lookup. exists j. rewrite label_history_lookup.
    unfold elements_of in Hj. by rewrite Hj.
  - done.
  - done.
Qed.

Lemma stamps_elem t : t ∈ stamps <-> exists e, e ∈ labelled /\ (t = el_Start e \/ t = el_End e).
Proof.
  unfold stamps, allTimestamps. rewrite elem_of_list_to_set, list_elem_of_bind. fold labelled. split.
  - intros (e & Ht & He). exists e. split; [done |]. by apply elem_of_cons in Ht as [?| ?%list_elem_of_singleton]; [left | right].
  - intros (e & He & Ht). exists e. split; [|done]. destruct Ht as [->| ->]; [left | right; left].
Qed.

Lemma starts_elem t : t ∈ starts <-> exists e, e ∈ labelled /\ t = el_Start e.
Proof. unfold starts, startTimestamps. rewrite elem_of_list_to_set, list_elem_of_fmap. fold labelled. split; intros (e & ? & ?); eauto. Qed.

Lemma stamps_even t : t ∈ stamps -> exists u, t = halves u.
Proof.
  intros (e & He & Ht)%stamps_elem. apply labelled_elem in He as (h & _ & Hs & He).
  destruct Ht as [->| ->]; eauto.
Qed.

Definition tweak : el -> el := tweak_el starts next_stamp.

Lemma tweak_start e : el_Start (tweak e) = el_Start e.
Proof. unfold tweak, tweak_el. by destruct (tweaked _ _ _). Qed.
Lemma tweak_gid e : el_Gid (tweak e) = el_Gid e.
Proof. unfold tweak, tweak_el. by destruct (tweaked _ _ _). Qed.
Lemma tweak_end e : el_End (tweak e) = default (el_End e) (tweaked starts next_stamp (el_End e)).
Proof. unfold tweak, tweak_el. by destruct (tweaked _ _ _). Qed.

(** What starts when an operation ends, or before, starts before its tweaked end. *)
Lemma tweak_after e1 e2 :
  data_ok -> e1 ∈ labelled -> e2 ∈ labelled -> el_Start e1 <= el_End e2 -> el_Start e1 < el_End (tweak e2).
Proof.
  intros [Hdur _] H1 H2 Hle. rewrite tweak_end. unfold tweaked. case_decide as Hd.
  - pose proof Hd as (e3 & H3 & Heq)%starts_elem. pose proof H3 as (h & Hh & Hs & He)%labelled_elem.
    apply Hdur in Hh. unfold halves in *.
    assert (el_End e2 ∈ stamps) as Ha by (apply stamps_elem; eauto).
    assert (el_End e3 ∈ stamps) as Hc by (apply stamps_elem; eauto).
    destruct (nextTs_spec (sort_times stamps) (el_End e2) (el_End e3)) as (b & Hb & Hlt & Hin);
      [apply sort_times_sorted | by apply sort_times_elem.. | lia |].
    apply sort_times_elem, stamps_even in Hin as (u & Hu). apply stamps_even in Ha as (v & Hv).
    unfold next_stamp. rewrite Hb. cbn [fmap option_fmap option_map default from_option]. unfold halves, id in *.
    Z.to_euclidean_division_equations; lia.
  - cbn. assert (el_Start e1 <> el_End e2); [|unfold id; lia].
    intros Heq. apply Hd. rewrite <- Heq. apply starts_elem. eauto.
Qed.
End prepare.

(** ** Data that is ready for the layout *)

(** The linearizations, each with the history of its partition. *)
Definition runs (data : list part) : list (list el * partialLinearization) :=
  data ≫= fun p => (fun lin => (pt_History p, lin)) <$> (pt_PartialLinearizations p).

Definition run_ok (history : list el) (lin : partialLinearization) : Prop :=
  lin <> [] /\ NoDup (ls_Index <$> lin)
  /\ forall k id, lin !! k = Some id -> 0 <= ls_Index id /\ exists e, history !! Z.to_nat (ls_Index id) = Some e
     /\ forall j e', history !! j = Some e' -> Z.of_nat j ∉ ls_Index <$> take k lin -> el_Start e < el_End e'.

Record ready (data : list part) (times : list Z) : Prop := {
  rd_gid : forall g e, all_els data !! g = Some e -> el_Gid e = Z.of_nat g;
  rd_times : StronglySorted Z.lt times;
  rd_in : forall e, e ∈ all_els data -> el_Start e ∈ times /\ el_End e ∈ times /\ el_Start e < el_End e;
  rd_runs : forall h lin, (h, lin) ∈ runs data -> run_ok h lin /\ forall e, e ∈ h -> e ∈ all_els data }.

Lemma all_els_tweak starts next data : all_els (tweak_part starts next <$> data) = tweak_el starts next <$> all_els data.
Proof.
  unfold all_els. induction data as [|p data IH]; [done |]. rewrite fmap_cons, !bind_cons, fmap_app, IH. done.
Qed.

Lemma label_part g json p :
  p ∈ label g json -> exists q g', q ∈ json /\ pt_History p = label_history g' (pv_History q)
    /\ pt_PartialLinearizations p = pv_PartialLinearizations q.
Proof.
  revert g; induction json as [|q json IH]; intros g; cbn [label]; [by intros ?%elem_of_nil |].
  intros [->|(q' & g' & ? & ?)%IH]%elem_of_cons; [exists q, g | exists q', g']; split; try done; [left | by right].
Qed.

Lemma prepare_ready json data times : data_ok json -> prepare json = (data, times) -> ready data times.
Proof.
  intros Hok Hp. unfold prepare in Hp. fold (stamps json) (starts json) in Hp. fold (next_stamp json) in Hp.
  injection Hp as <- <-. fold (labelled json).
  assert (all_els (tweak_part (starts json) (next_stamp json) <$> label 0 json) = tweak json <$> labelled json) as Hels
    by apply all_els_tweak.
  split.
  - rewrite Hels. intros g e. rewrite list_lookup_fmap. unfold labelled. rewrite label_els, label_history_lookup.
    destruct (_ !! g); [|done]. intros [= <-]. by rewrite tweak_gid.
  - apply sort_times_sorted.
  - rewrite Hels. intros e (e0 & -> & He0)%list_elem_of_fmap. rewrite tweak_start, !sort_times_elem.
    split; [|split].
    + apply elem_of_union_l, stamps_elem. eauto.
    + rewrite tweak_end. destruct (tweaked _ _ _) as [t|] eqn:Et; cbn.
      * apply elem_of_union_r, elem_of_list_to_set, list_elem_of_omap. exists e0. by split.
      * apply elem_of_union_l, stamps_elem. eauto.
    + apply tweak_after; [done..|]. apply labelled_elem in He0 as (h & Hh & -> & ->). apply (proj1 Hok) in Hh.
      unfold halves. lia.
  - intros h lin (p & (lin' & [= -> ->] & Hlin)%list_elem_of_fmap & (p0 & -> & Hp0)%list_elem_of_fmap)%list_elem_of_bind.
    cbn [tweak_part pt_History pt_PartialLinearizations] in *.
    assert (forall e, e ∈ pt_History p0 -> e ∈ labelled json) as Hin.
    { intros e He. unfold labelled, all_els. apply list_elem_of_bind. eauto. }
    apply label_part in Hp0 as (q & g & Hq & Hh & Hl). rewrite Hl in Hlin. fold (tweak json).
    split; [|intros e (e0 & -> & He0)%list_elem_of_fmap; rewrite Hels; apply list_elem_of_fmap; eauto].
    destruct (proj2 Hok q lin' Hq Hlin) as (Hne & Hnd & Hpre). split; [done |]. split; [done |].
    intros k id Hid. destruct (Hpre k id Hid) as (H0 & h & Hlook & Hbefore). split; [done |].
    pose proof (label_history_lookup g (pv_History q) (Z.to_nat (ls_Index id))) as Hll. rewrite Hlook, <- Hh in Hll. cbn in Hll.
    rewrite list_lookup_fmap, Hll. eexists. split; [done |]. intros j e' Hj Hnot. rewrite tweak_start.
    rewrite list_lookup_fmap in Hj. apply fmap_Some in Hj as (e0 & He0 & ->).
    apply list_elem_of_lookup_2 in Hll as Hin1. apply list_elem_of_lookup_2 in He0 as Hin2.
    apply tweak_after; [done | by apply Hin.. |]. rewrite Hh, label_history_lookup in He0.
    apply fmap_Some in He0 as (h' & Hh' & ->). apply (Hbefore j h' Hh') in Hnot. cbn. unfold halves. lia.
Qed.

(** ** The links between elements and linearizations *)

Section links.
Context (n : nat).
Implicit Types (h : list el) (lin : partialLinearization) (rs : list (list el * partialLinearization)).

Lemma push_Done {A} (l : list (list A)) (i : Z) (x : A) :
  0 <= i < len l -> exists l', push l i x = Done l' /\ base.length l' = base.length l
    /\ forall j, l' !! j = if decide (Z.of_nat j = i) then (fun row => row ++ [x]) <$> (l !! j) else l !! j.
Proof.
  intros Hi. unfold push. destruct (go_index_total l i Hi) as (row & -> & Hrow). cbn [mbind go_bind].
  rewrite go_update_Done by done. eexists. split; [done |]. split; [by rewrite length_insert |].
  intros j. destruct (decide _) as [<-|Hne].
  - rewrite Nat2Z.id in *. rewrite list_lookup_insert_eq by (eapply lookup_lt_Some; exact Hrow). by rewrite Hrow.
  - rewrite list_lookup_insert_ne by lia. done.
Qed.

(** The GID of the element at the place that a step names. *)
Definition gid_at h (id : linearizationStep) : Z := default 0 (el_Gid <$> (h !! Z.to_nat (ls_Index id))).
Definition gids h lin : list Z := gid_at h <$> lin.

(** The elements of [h] are in range of the links. *)
Definition in_range h : Prop := forall e, e ∈ h -> 0 <= el_Gid e < Z.of_nat n.

Lemma globalize_Done h lgid lin : in_range h -> forall position to,
  (forall id, id ∈ lin -> 0 <= ls_Index id /\ is_Some (h !! Z.to_nat (ls_Index id))) -> base.length to = n ->
  exists to', globalize h lgid position lin to = Done (gids h lin, to') /\ base.length to' = n
    /\ forall g row', to' !! g = Some row' -> exists row, to !! g = Some row
       /\ forall a, a ∈ row' <-> a ∈ row \/ exists p : nat, a = (lgid, position + Z.of_nat p) /\ gids h lin !! p = Some (Z.of_nat g).
Proof.
  intros Hr. induction lin as [|id lin IH]; intros position to Hin Hlen; cbn [globalize].
  { exists to. split; [done |]. split; [done |]. intros g row Hrow. exists row. split; [done |].
    intros a. split; [by left |]. intros [?|(p & _ & Hp)]; [done | by destruct p]. }
  destruct (Hin id) as (H0 & e & He); [left |]. rewrite (go_index_lookup _ _ _ H0 He). cbn [mbind go_bind].
  assert (0 <= el_Gid e < len to) as Hg by (rewrite Hlen; apply Hr; by eapply list_elem_of_lookup_2).
  destruct (push_Done to (el_Gid e) (lgid, position) Hg) as (to1 & -> & Hl1 & H1). cbn [mbind go_bind].
  destruct (IH (position + 1) to1) as (to' & -> & Hl & Hto); [intros; apply Hin; by right | lia |].
  cbn [mbind go_bind]. exists to'. assert (gid_at h id = el_Gid e) as Hid by (unfold gid_at; by rewrite He).
  split; [unfold gids; cbn; by rewrite Hid |]. split; [done |].
  intros g row' Hrow'. destruct (Hto g row' Hrow') as (row1 & Hrow1 & Ha). rewrite H1 in Hrow1.
  assert (forall a, (exists p : nat, a = (lgid, position + Z.of_nat p) /\ gids h (id :: lin) !! p = Some (Z.of_nat g))
    <-> (a = (lgid, position) /\ Z.of_nat g = el_Gid e)
        \/ exists p : nat, a = (lgid, position + 1 + Z.of_nat p) /\ gids h lin !! p = Some (Z.of_nat g)) as Hsplit.
  { intros a. split.
    - intros ([|p] & -> & Hp); cbn in Hp.
      + left. rewrite Hid in Hp. injection Hp as ->. split; [f_equal; lia | done].
      + right. exists p. split; [f_equal; lia | done].
    - intros [[-> Heq]|(p & -> & Hp)].
      + exists 0%nat. cbn. rewrite Hid, Heq. split; [f_equal; lia | done].
      + exists (S p). split; [f_equal; lia | done]. }
  setoid_rewrite Hsplit. destruct (decide (Z.of_nat g = el_Gid e)) as [Heq|Hne].
  - apply fmap_Some in Hrow1 as (row & Hrow & ->). exists row. split; [done |]. intros a.
    rewrite Ha, elem_of_app, list_elem_of_singleton. intuition.
  - exists row1. split; [done |]. intros a. rewrite Ha. intuition.
Qed.

Lemma push_illegal_Done lgid els : forall il,
  (forall ie, ie ∈ els -> 0 <= el_Gid ie.2 < Z.of_nat n) -> base.length il = n ->
  exists il', push_illegal lgid els il = Done il' /\ base.length il' = n
    /\ forall g row', il' !! g = Some row' -> exists row, il !! g = Some row
       /\ forall a, a ∈ row' <-> a ∈ row \/ a = lgid /\ exists ie, ie ∈ els /\ el_Gid ie.2 = Z.of_nat g.
Proof.
  induction els as [|ie els IH]; intros il Hr Hlen; cbn [push_illegal].
  { exists il. split; [done |]. split; [done |]. intros g row Hrow. exists row. split; [done |].
    intros a. split; [by left |]. intros [?|(_ & ie & ?%elem_of_nil & _)]; done. }
  assert (0 <= el_Gid ie.2 < len il) as Hg by (rewrite Hlen; apply Hr; left).
  destruct (push_Done il (el_Gid ie.2) lgid Hg) as (il1 & -> & Hl1 & H1). cbn [mbind go_bind].
  destruct (IH il1) as (il' & -> & Hl & Hil); [intros; apply Hr; by right | lia |].
  exists il'. split; [done |]. split; [done |]. intros g row' Hrow'.
  destruct (Hil g row' Hrow') as (row1 & Hrow1 & Ha). rewrite H1 in Hrow1.
  assert ((exists ie', ie' ∈ ie :: els /\ el_Gid ie'.2 = Z.of_nat g)
    <-> el_Gid ie.2 = Z.of_nat g \/ exists ie', ie' ∈ els /\ el_Gid ie'.2 = Z.of_nat g) as Hsplit.
  { split; [intros (ie' & [->|?]%elem_of_cons & ?); eauto |].
    intros [?|(ie' & ? & ?)]; [exists ie; split; [left | done] | exists ie'; split; [by right | done]]. }
  setoid_rewrite Hsplit. destruct (decide (Z.of_nat g = el_Gid ie.2)) as [Heq|Hne].
  - apply fmap_Some in Hrow1 as (row & Hrow & ->). exists row. split; [done |]. intros a.
    rewrite Ha, elem_of_app, list_elem_of_singleton. symmetry in Heq. tauto.
  - exists row1. split; [done |]. intros a. rewrite Ha.
    assert (el_Gid ie.2 <> Z.of_nat g) by congruence. tauto.
Qed.

(** What the links say after the linearizations [rs]. *)
Record links_ok rs (k : links) : Prop := {
  lk_all : allLinearizations k = (fun r => gids r.1 r.2) <$> rs;
  lk_to_len : base.length (eventToLinearizations k) = n;
  lk_ill_len : base.length (eventIllegalLast k) = n;
  lk_to : forall g row, eventToLinearizations k !! g = Some row -> forall i p, (i, p) ∈ row <->
    exists i' p' : nat, i = Z.of_nat i' /\ p = Z.of_nat p' /\ exists r, rs !! i' = Some r /\ gids r.1 r.2 !! p' = Some (Z.of_nat g);
  lk_ill : forall g row, eventIllegalLast k !! g = Some row -> forall i, i ∈ row <->
    exists i' : nat, i = Z.of_nat i' /\ exists r, rs !! i' = Some r
      /\ exists ie, ie ∈ illegal_next r.1 r.2 /\ el_Gid ie.2 = Z.of_nat g }.

Lemma links_start : links_ok [] (mkLinks (replicate n []) (replicate n []) []).
Proof.
  split; cbn [eventToLinearizations eventIllegalLast allLinearizations]; [done | by rewrite length_replicate.. | |].
  - intros g row [-> _]%lookup_replicate i p. rewrite elem_of_nil. split; [done |].
    intros (? & ? & _ & _ & r & Hr & _). by rewrite lookup_nil in Hr.
  - intros g row [-> _]%lookup_replicate i. rewrite elem_of_nil. split; [done |].
    intros (? & _ & r & Hr & _). by rewrite lookup_nil in Hr.
Qed.

Lemma illegal_in h lin ie : ie ∈ illegal_next h lin -> ie.2 ∈ h.
Proof.
  intros [_ (i & e & -> & Hi)%elem_of_lookup_imap]%list_elem_of_filter. by eapply list_elem_of_lookup_2.
Qed.

Lemma link_lin_Done rs k h lin : links_ok rs k -> run_ok h lin -> in_range h ->
  exists k', link_lin h lin k = Done k' /\ links_ok (rs ++ [(h, lin)]) k'.
Proof.
  intros [Hall Hl1 Hl2 Hto Hil] (_ & _ & Hlin) Hr. unfold link_lin.
  set (lgid := len (allLinearizations k)). assert (lgid = len rs) as Hlg by (subst lgid; by rewrite Hall, length_fmap).
  destruct (globalize_Done h lgid lin Hr 0 (eventToLinearizations k)) as (to & -> & Hl1' & Hto').
  { intros id (j & Hj)%list_elem_of_lookup. destruct (Hlin j id Hj) as (? & e & He & _). split; [done | by exists e]. }
  { done. }
  cbn [mbind go_bind]. destruct (push_illegal_Done lgid (illegal_next h lin) (eventIllegalLast k)) as (il & -> & Hl2' & Hil').
  { intros ie Hie. by apply Hr, (illegal_in h lin). }
  { done. }
  cbn [mbind go_bind]. eexists. split; [done |].
  assert (forall (i' : nat) r, (rs ++ [(h, lin)]) !! i' = Some r <-> rs !! i' = Some r \/ (Z.of_nat i' = lgid /\ r = (h, lin))) as Hsnoc.
  { intros i' r. rewrite lookup_app. rewrite Hlg. destruct (rs !! i') as [r'|] eqn:Er.
    - apply lookup_lt_Some in Er. split; [intros [= ->]; by left | intros [?|[? _]]; [done | lia]].
    - apply lookup_ge_None in Er. rewrite list_lookup_singleton_Some. split.
      + intros [? <-]. right. split; [lia | done].
      + intros [?|[? ->]]; [done |]. split; [lia | done]. }
  split; cbn [eventToLinearizations eventIllegalLast allLinearizations]; [by rewrite Hall, fmap_app | done | done | |].
  - intros g row' Hrow' i p. destruct (Hto' g row' Hrow') as (row & Hrow & Ha). rewrite Ha, (Hto g row Hrow). split.
    + intros [(i' & p' & -> & -> & r & Hr' & Hp)|(p' & [= -> ->] & Hp)].
      * exists i', p'. split; [done |]. split; [done |]. exists r. split; [|done]. apply Hsnoc. by left.
      * exists (Z.to_nat lgid), p'. split; [lia |]. split; [lia |]. exists (h, lin). split; [|done]. apply Hsnoc. right. split; [lia | done].
    + intros (i' & p' & -> & -> & r & [Hr'|[Hi ->]]%Hsnoc & Hp).
      * left. by exists i', p'; eauto.
      * right. exists p'. by rewrite Hi.
  - intros g row' Hrow' i. destruct (Hil' g row' Hrow') as (row & Hrow & Ha). rewrite Ha, (Hil g row Hrow). split.
    + intros [(i' & -> & r & Hr' & Hp)|(-> & Hp)].
      * exists i'. split; [done |]. exists r. split; [|done]. apply Hsnoc. by left.
      * exists (Z.to_nat lgid). split; [lia |]. exists (h, lin). split; [|done]. apply Hsnoc. right. split; [lia | done].
    + intros (i' & -> & r & [Hr'|[Hi ->]]%Hsnoc & Hp).
      * left. exists i'. split; [done |]. by exists r.
      * right. by split.
Qed.

Lemma link_lins_Done h lins : in_range h -> forall rs k,
  (forall lin, lin ∈ lins -> run_ok h lin) -> links_ok rs k ->
  exists k', link_lins h lins k = Done k' /\ links_ok (rs ++ ((fun lin => (h, lin)) <$> lins)) k'.
Proof.
  intros Hr. induction lins as [|lin lins IH]; intros rs k Hok Hk; cbn [link_lins].
  { exists k. cbn. by rewrite app_nil_r. }
  destruct (link_lin_Done rs k h lin Hk) as (k1 & -> & Hk1); [apply Hok; left | done |]. cbn [mbind go_bind].
  destruct (IH _ k1 ltac:(intros; apply Hok; by right) Hk1) as (k' & -> & Hk'). exists k'. split; [done |].
  by rewrite <- app_assoc in Hk'.
Qed.

Lemma link_all_Done data : forall rs k,
  (forall h lin, (h, lin) ∈ runs data -> run_ok h lin /\ in_range h) -> links_ok rs k ->
  exists k', link_all data k = Done k' /\ links_ok (rs ++ runs data) k'.
Proof.
  induction data as [|p data IH]; intros rs k Hok Hk; cbn [link_all].
  { exists k. by rewrite app_nil_r. }
  assert (exists k1, link_lins (pt_History p) (pt_PartialLinearizations p) k = Done k1
    /\ links_ok (rs ++ ((fun lin => (pt_History p, lin)) <$> pt_PartialLinearizations p)) k1) as (k1 & -> & Hk1).
  { destruct (pt_PartialLinearizations p) as [|lin lins] eqn:El; [exists k; by rewrite app_nil_r |].
    assert (forall l, l ∈ lin :: lins -> run_ok (pt_History p) l /\ in_range (pt_History p)) as Hp.
    { intros l Hl. apply Hok. unfold runs. apply list_elem_of_bind. exists p. rewrite El. split; [|left].
      apply list_elem_of_fmap. by exists l. }
    apply link_lins_Done; [apply (Hp lin); left | intros; by apply Hp | done]. }
  cbn [mbind go_bind]. edestruct (fun H => IH _ k1 H Hk1) as (k' & -> & Hk').
  - intros h lin Hin. apply Hok. unfold runs. rewrite bind_cons. apply elem_of_app. by right.
  - exists k'. split; [done |]. unfold runs in *. by rewrite bind_cons, app_assoc.
Qed.
End links.
