(* ===== verification/RenderScan.v ===== *)
(** The left-to-right scan of [render]: it ends without NaN, its positions satisfy the
    constraints of the layout, and no other solution is smaller anywhere. *)
From S2P Require Import Prelude Checker Visualization Render RenderLayout.

(** ** The constraints *)

Section constraints.
Context (px : Z) (textWidth : string -> Z) (data : list part) (times : list Z).

(** [els] are the elements that the steps of a linearization name. *)
Definition names (r : list el * partialLinearization) (els : list el) : Prop :=
  Forall2 (fun id e => 0 <= ls_Index id /\ r.1 !! Z.to_nat (ls_Index id) = Some e) r.2 els.

(** The points [p] of a linearization: each in the box of its operation and at some
    distance from the one before, with room for the illegal next steps. *)
Record points_fit (X : Z -> Z) (r : list el * partialLinearization) (p : list Z) : Prop := {
  pf_length : base.length p = base.length r.2;
  pf_box : forall els j e z, names r els -> els !! j = Some e -> p !! j = Some z -> X (el_Start e) <= z <= X (el_End e);
  pf_next : forall j z z', p !! j = Some z -> p !! S j = Some z' -> z + EPSILON px <= z';
  pf_illegal : forall ie z, ie ∈ illegal_next r.1 r.2 -> last p = Some z -> z + EPSILON px <= X (el_End ie.2) }.

(** A layout: the position of each time and of the points of each linearization. *)
Record layout_ok (X : Z -> Z) (ps : list (list Z)) : Prop := {
  lo_zero : forall t, t ∈ times -> 0 <= X t;
  lo_gap : forall t t', t ∈ times -> t' ∈ times -> t < t' -> X t + BOX_GAP px <= X t';
  lo_text : forall e, e ∈ all_els data ->
    X (el_Start e) + (textWidth (el_Description e) + 2 * BOX_TEXT_PADDING px) <= X (el_End e);
  lo_points : Forall2 (points_fit X) (runs data) ps }.
End constraints.

(** ** Points *)

Section points.
Context (px : Z).
Implicit Types (X : Z -> Z) (els : list el).

(** The points that the scan computes for the positions [X] of the times. *)
Fixpoint pts X (p : option Z) els : list Z :=
  match els with
  | [] => []
  | e :: els =>
    let z := match p with None => X (el_Start e) | Some q => X (el_Start e) `max` (q + EPSILON px) end in
    z :: pts X (Some z) els
  end.

Lemma pts_length X p els : base.length (pts X p els) = base.length els.
Proof. revert p; induction els as [|e els IH]; intros p; cbn; [done | by rewrite IH]. Qed.

Lemma pts_step X p els m e : els !! m = Some e ->
  pts X p els !! m = Some (match (match last (take m (pts X p els)) with None => p | s => s end) with
                           | None => X (el_Start e) | Some q => X (el_Start e) `max` (q + EPSILON px) end).
Proof.
  revert p m; induction els as [|a els IH]; intros p [|m] He; cbn in He; [done..| |]; [by injection He as -> |].
  cbn [pts lookup list_lookup take]. rewrite (IH _ _ He), last_cons. by destruct (last (take m _)).
Qed.

(** The first point is at the start of its operation; the others are as far left as
    the start and the point before allow. *)
Lemma pts_first X els e : els !! 0%nat = Some e -> pts X None els !! 0%nat = Some (X (el_Start e)).
Proof. intros He. by rewrite (pts_step _ _ _ _ _ He). Qed.

Lemma pts_next X els m e z : els !! S m = Some e -> pts X None els !! m = Some z ->
  pts X None els !! S m = Some (X (el_Start e) `max` (z + EPSILON px)).
Proof. intros He Hz. by rewrite (pts_step _ _ _ _ _ He), (take_S_r _ _ _ Hz), last_snoc. Qed.

Lemma pts_ext X X' p els m :
  (forall j e, (j < m)%nat -> els !! j = Some e -> X (el_Start e) = X' (el_Start e)) ->
  take m (pts X p els) = take m (pts X' p els).
Proof.
  revert p m; induction els as [|e els IH]; intros p [|m] He; [done..|]. cbn.
  rewrite (He 0%nat e); [|lia | done]. f_equal. apply IH. intros j e' Hj. apply (He (S j)). lia.
Qed.

Lemma pts_lookup_ext X X' p els m :
  (forall j e, (j <= m)%nat -> els !! j = Some e -> X (el_Start e) = X' (el_Start e)) ->
  pts X p els !! m = pts X' p els !! m.
Proof.
  intros He. pose proof (pts_ext X X' p els (S m)) as Hext.
  rewrite <- (lookup_take_lt (pts X p els) (S m) m), <- (lookup_take_lt (pts X' p els) (S m) m) by lia.
  rewrite Hext; [done |]. intros j e Hj. apply He. lia.
Qed.

(** No points that keep the distances are further left. *)
Lemma pts_least X X' els p m z z' :
  (forall j e, (j <= m)%nat -> els !! j = Some e -> X (el_Start e) <= X' (el_Start e)) ->
  (forall j e v, els !! j = Some e -> p !! j = Some v -> X' (el_Start e) <= v) ->
  (forall j v v', p !! j = Some v -> p !! S j = Some v' -> v + EPSILON px <= v') ->
  (m < base.length els)%nat -> base.length p = base.length els ->
  pts X None els !! m = Some z -> p !! m = Some z' -> z <= z'.
Proof.
  intros HX Hs Hn. revert z z'; induction m as [|m IH]; intros z z' Hm Hl Hz Hz'.
  - destruct (lookup_lt_is_Some_2 els 0) as [e He]; [lia |]. rewrite (pts_first _ _ _ He) in Hz. injection Hz as <-.
    etransitivity; [by apply (HX 0%nat) | by eapply Hs].
  - destruct (lookup_lt_is_Some_2 els (S m)) as [e He]; [lia |].
    destruct (lookup_lt_is_Some_2 p m) as [v Hv]; [lia |].
    destruct (lookup_lt_is_Some_2 (pts X None els) m) as [w Hw]; [rewrite pts_length; lia |].
    rewrite (pts_next _ _ _ _ _ He Hw) in Hz. injection Hz as <-.
    assert (w <= v) by (apply IH; [intros; by apply (HX j); [lia|] | lia | done..]).
    pose proof (Hn _ _ _ Hv Hz'). pose proof (HX _ _ (Nat.le_refl _) He). pose proof (Hs _ _ _ He Hz'). lia.
Qed.

(** The computed points are where they have to be with respect to the starts. *)
Lemma pts_starts X els j e z : els !! j = Some e -> pts X None els !! j = Some z -> X (el_Start e) <= z.
Proof. intros He. rewrite (pts_step _ _ _ _ _ He). intros [= <-]. destruct (last _); lia. Qed.

Lemma pts_spaced X els j z z' : pts X None els !! j = Some z -> pts X None els !! S j = Some z' -> z + EPSILON px <= z'.
Proof.
  intros Hz Hz'. pose proof (lookup_lt_Some _ _ _ Hz') as Hl. rewrite pts_length in Hl.
  destruct (lookup_lt_is_Some_2 els (S j)) as [e He]; [lia |].
  rewrite (pts_next _ _ _ _ _ He Hz) in Hz'. injection Hz' as <-. lia.
Qed.
End points.

(** ** The scan *)

Section scan.
Context (px : Z) (textWidth : string -> Z) (data : list part) (times : list Z) (k : links).
Hypothesis (Hpx : 0 <= px).
Context (R : ready data times) (K : links_ok (base.length (all_els data)) (runs data) k).
(** The elements of the linearizations. *)
Context (E : list (list el)) (HE : Forall2 names (runs data) E).
Implicit Types (x : gmap Z number) (lps : list (list number)) (els : list el) (e : el) (i p j m : nat).

Definition X x (t : Z) : Z := default 0 (x_at x t).
Definition placed x (t : Z) : Prop := x_at x t = Some (X x t).
Definition width e : Z := textWidth (el_Description e) + 2 * BOX_TEXT_PADDING px.
Abbreviation points x els := (pts px (X x) None els).

Lemma els_run i els : E !! i = Some els -> exists r, runs data !! i = Some r /\ names r els /\ run_ok r.1 r.2
  /\ forall e, e ∈ r.1 -> e ∈ all_els data.
Proof.
  intros Hi. destruct (Forall2_lookup_r _ _ _ _ _ HE Hi) as ([h lin] & Hr & Hn). exists (h, lin).
  split; [done |]. split; [done |]. by apply (rd_runs _ _ R), list_elem_of_lookup_2 with i.
Qed.

Lemma run_els i r : runs data !! i = Some r -> exists els, E !! i = Some els /\ names r els.
Proof. intros Hr. destruct (Forall2_lookup_l _ _ _ _ _ HE Hr) as (els & ? & ?). by exists els. Qed.

Lemma names_gids r els : names r els -> gids r.1 r.2 = el_Gid <$> els.
Proof.
  unfold names, gids. induction 1 as [|id e lin els [_ He] _ IH]; [done |]. cbn. f_equal; [|done].
  unfold gid_at. by rewrite He.
Qed.

Lemma names_elem r els e : names r els -> e ∈ els -> e ∈ r.1.
Proof.
  intros Hn (j & Hj)%list_elem_of_lookup. destruct (Forall2_lookup_r _ _ _ _ _ Hn Hj) as (id & _ & _ & He).
  by eapply list_elem_of_lookup_2.
Qed.

Lemma els_all i els e : E !! i = Some els -> e ∈ els -> e ∈ all_els data.
Proof. intros (r & _ & Hn & _ & Hall)%els_run He. by apply Hall, (names_elem r els). Qed.

Lemma gid_inj e e' : e ∈ all_els data -> e' ∈ all_els data -> el_Gid e = el_Gid e' -> e = e'.
Proof.
  intros (g & Hg)%list_elem_of_lookup (g' & Hg')%list_elem_of_lookup Heq.
  pose proof (rd_gid _ _ R _ _ Hg). pose proof (rd_gid _ _ R _ _ Hg'). assert (g = g') as -> by lia. congruence.
Qed.

Lemma byGid_Done e : e ∈ all_els data -> byGid data (el_Gid e) = Done e.
Proof.
  intros He. unfold byGid.
  destruct (list_find_elem_of (fun e' => el_Gid e' = el_Gid e) (all_els data) e) as [[g e'] Hf]; [done..|].
  rewrite Hf. apply list_find_Some in Hf as (Hg & Heq & _).
  rewrite (gid_inj e' e); [done | by eapply list_elem_of_lookup_2 | done..].
Qed.

(** A point is placed before its operation, a later one of the linearization, or one
    that could have come next ends. *)
Lemma point_before i els p q e e' :
  E !! i = Some els -> els !! p = Some e -> els !! q = Some e' -> (p <= q)%nat -> el_Start e < el_End e'.
Proof.
  intros (r & _ & Hn & (_ & Hnd & Hrun) & _)%els_run Hp Hq Hle.
  destruct (Forall2_lookup_r _ _ _ _ _ Hn Hp) as (id & Hid & _ & He).
  destruct (Forall2_lookup_r _ _ _ _ _ Hn Hq) as (id' & Hid' & Hpos & He').
  destruct (Hrun p id Hid) as (_ & e0 & He0 & Hbefore). rewrite He in He0. injection He0 as <-.
  apply (Hbefore _ _ He'). rewrite Z2Nat.id by done. intros Hin.
  rewrite fmap_take in Hin. apply list_elem_of_lookup in Hin as (j & Hj).
  apply lookup_take_Some in Hj as [Hj Hlt]. assert (j = q); [|lia].
  eapply NoDup_lookup; [exact Hnd | exact Hj | by rewrite list_lookup_fmap, Hid'].
Qed.

Lemma illegal_before i r els p e ie :
  runs data !! i = Some r -> E !! i = Some els -> els !! p = Some e -> ie ∈ illegal_next r.1 r.2 ->
  el_Start e < el_End ie.2.
Proof.
  intros Hr (r' & Hr' & Hn & (_ & _ & Hrun) & _)%els_run Hp Hie. rewrite Hr in Hr'. injection Hr' as <-.
  destruct (Forall2_lookup_r _ _ _ _ _ Hn Hp) as (id & Hid & _ & He).
  destruct (Hrun p id Hid) as (_ & e0 & He0 & Hbefore). rewrite He in He0. injection He0 as <-.
  apply list_elem_of_filter in Hie as [[Hnot _] (j & e' & -> & Hj)%elem_of_lookup_imap].
  apply (Hbefore j e' Hj). intros Hin. apply Hnot. rewrite fmap_take in Hin. cbn.
  rewrite <- (take_drop p (ls_Index <$> r.2)). apply elem_of_app. by left.
Qed.

(** ** Rows of points *)

(** A row holds the first points of its linearization. *)
Definition row_ok x els (l : list number) : Prop :=
  exists m, (m <= base.length els)%nat /\ l = Some <$> take m (points x els)
    /\ forall j e, (j < m)%nat -> els !! j = Some e -> placed x (el_Start e).
Definition rows_ok x lps : Prop := Forall2 (row_ok x) E lps.
Definition rows_le lps lps' : Prop := Forall2 (fun l l' : list number => (base.length l <= base.length l')%nat) lps lps'.

Lemma rows_le_refl lps : rows_le lps lps.
Proof. unfold rows_le. induction lps; by constructor. Qed.
Lemma rows_le_trans l1 l2 l3 : rows_le l1 l2 -> rows_le l2 l3 -> rows_le l1 l3.
Proof.
  intros H12. revert l3; induction H12 as [|a b l1 l2 Hab _ IH]; intros l3 H23; inversion H23; subst; constructor; [lia |].
  by apply IH.
Qed.

Lemma row_point x els l p z :
  row_ok x els l -> (p < base.length l)%nat -> points x els !! p = Some z -> l !! p = Some (Some z).
Proof.
  intros (m & _ & -> & _) Hp Hz. rewrite length_fmap, length_take in Hp. rewrite list_lookup_fmap, lookup_take_lt by lia.
  by rewrite Hz.
Qed.

(** [fill] adds points whose starts are placed. *)
Lemma fill_Done x els n : forall l,
  (forall e, e ∈ els -> e ∈ all_els data) -> row_ok x els l -> (base.length l + n <= base.length els)%nat ->
  (forall j e, (j < base.length l + n)%nat -> els !! j = Some e -> placed x (el_Start e)) ->
  exists l', fill px data n (el_Gid <$> els) x l = Done l' /\ row_ok x els l' /\ base.length l' = (base.length l + n)%nat.
Proof.
  induction n as [|n IH]; intros l Hin Hrow Hlen Hpl; cbn [fill].
  { exists l. split; [done |]. split; [done | lia]. }
  destruct Hrow as (m & Hm & Hl & Hj).
  assert (base.length l = m) as Hlm by (rewrite Hl, length_fmap, length_take, pts_length; lia).
  rewrite Hlm in *. destruct (lookup_lt_is_Some_2 els m) as [e He]; [lia |].
  rewrite (go_index_nat _ m (el_Gid e)) by by rewrite list_lookup_fmap, He. cbn [mbind go_bind].
  rewrite byGid_Done by by eapply Hin, list_elem_of_lookup_2. cbn [mbind go_bind].
  rewrite (Hpl m e ltac:(lia) He : x_at x (el_Start e) = _).
  set (nextPos := match last l with None => _ | Some _ => _ end).
  assert (row_ok x els (l ++ [nextPos])) as Hrow.
  { exists (S m). split; [lia |]. split.
    - rewrite (take_S_r _ _ _ (pts_step px (X x) None els m e He)), fmap_app, <- Hl. f_equal. cbn. f_equal.
      subst nextPos. rewrite Hl, fmap_last. by destruct (last (take m _)).
    - intros j e' Hlt He'. apply (Hpl j e'); [lia | done]. }
  destruct (IH (l ++ [nextPos]) Hin Hrow) as (l' & -> & Hr' & Hl'); rewrite ?length_app, ?Hlm in *; cbn in *; [lia | | ].
  - intros j e' Hlt. apply Hpl. lia.
  - exists l'. split; [done |]. split; [done | lia].
Qed.

(** A point that the scan may ask for: all up to it are placed. *)
Definition askable x (li : Z * Z) : Prop :=
  exists i p els, li = (Z.of_nat i, Z.of_nat p) /\ E !! i = Some els /\ (p < base.length els)%nat
    /\ forall j e, (j <= p)%nat -> els !! j = Some e -> placed x (el_Start e).

(** The points of [lis] are up to [z]. *)
Definition points_le x (lis : list (Z * Z)) (z : Z) : Prop :=
  forall i p els v, (Z.of_nat i, Z.of_nat p) ∈ lis -> E !! i = Some els -> points x els !! p = Some v -> v <= z.

Lemma links_row i els : E !! i = Some els -> allLinearizations k !! i = Some (el_Gid <$> els).
Proof.
  intros (r & Hr & Hn & _)%els_run. rewrite (lk_all _ _ _ K), list_lookup_fmap, Hr. cbn. by rewrite (names_gids _ _ Hn).
Qed.

Lemma place_points_Done x lis : forall lps z,
  rows_ok x lps -> (forall li, li ∈ lis -> askable x li) ->
  exists lps' z', place_points px data k lis x lps (Some z) = Done (lps', Some z')
    /\ rows_ok x lps' /\ rows_le lps lps' /\ z <= z' /\ points_le x lis z'
    /\ (forall i p l, (Z.of_nat i, Z.of_nat p) ∈ lis -> lps' !! i = Some l -> (p < base.length l)%nat)
    /\ forall B, z <= B -> points_le x lis B -> z' <= B.
Proof.
  induction lis as [|li lis IH]; intros lps z Hrows Hask; cbn [place_points].
  { exists lps, z. split; [done |]. split; [done |]. split; [apply rows_le_refl |]. split; [done |].
    split; [by intros ? ? ? ? ?%elem_of_nil |]. split; [by intros ? ? ? ?%elem_of_nil | done]. }
  destruct (Hask li) as (i & p & els & -> & Hi & Hp & Hpl); [left |].
  destruct (Forall2_lookup_l _ _ _ _ _ Hrows Hi) as (l & Hl & Hrow).
  rewrite (go_index_nat _ _ _ Hl). cbn [mbind go_bind]. rewrite (go_index_nat _ _ _ (links_row i els Hi)). cbn [mbind go_bind].
  set (n := Z.to_nat (Z.of_nat p + 1 - len l)).
  assert (base.length l <= base.length els)%nat as Hll.
  { destruct Hrow as (m & Hm & -> & _). rewrite length_fmap, length_take, pts_length. lia. }
  destruct (fill_Done x els n l) as (l' & -> & Hrow' & Hl'); [intros e He; by eapply els_all | done | lia | |].
  { intros j e Hj He. destruct (decide (j <= p)%nat) as [|Hgt]; [by eapply Hpl |].
    destruct Hrow as (m & Hm & Hleq & Hjp). apply (Hjp j e); [|done].
    assert (base.length l = m) by (rewrite Hleq, length_fmap, length_take, pts_length; lia). lia. }
  cbn [mbind go_bind]. assert (i < base.length lps)%nat as Hilt by (by eapply lookup_lt_Some).
  rewrite go_update_Done by lia. cbn [mbind go_bind]. rewrite Nat2Z.id.
  set (lps1 := <[i := l']> lps).
  assert (rows_ok x lps1) as Hrows1.
  { unfold rows_ok, lps1. rewrite <- (list_insert_id E i els Hi). by apply Forall2_insert. }
  assert (rows_le lps lps1) as Hle1.
  { unfold rows_le, lps1. rewrite <- (list_insert_id lps i l Hl) at 1. apply Forall2_insert; [apply rows_le_refl | lia]. }
  destruct (lookup_lt_is_Some_2 (points x els) p) as [v Hv]; [by rewrite pts_length |].
  assert (at_ l' (Z.of_nat p) = Some v) as ->.
  { unfold at_. destruct (Z.ltb_spec (Z.of_nat p) 0); [lia |]. rewrite Nat2Z.id.
    rewrite (row_point x els l' p v Hrow'); [done | lia | done]. }
  change (jmax (Some z) (Some v)) with (Some (z `max` v)).
  destruct (IH lps1 (z `max` v) Hrows1) as (lps' & z' & -> & Hrows' & Hle' & Hz & Hpts & Hcov & Hleast).
  { intros li Hli. apply Hask. by right. }
  exists lps', z'. split; [done |]. split; [done |]. split; [by eapply rows_le_trans |]. split; [lia |]. split; [|split].
  - intros i' p' els' v' [[= Hi' Hp']|Hin]%elem_of_cons Hi2 Hv'; [|by eapply Hpts].
    apply Nat2Z.inj in Hi', Hp'. subst i' p'. rewrite Hi in Hi2. injection Hi2 as <-. rewrite Hv in Hv'. injection Hv' as <-. lia.
  - intros i' p' l2 [[= Hi' Hp']|Hin]%elem_of_cons Hl2; [|by eapply Hcov].
    apply Nat2Z.inj in Hi', Hp'. subst i' p'.
    assert (lps1 !! i = Some l') as Hl1 by by apply list_lookup_insert_eq.
    destruct (Forall2_lookup_l _ _ _ _ _ Hle' Hl1) as (l3 & Hl3 & Hlen). rewrite Hl2 in Hl3. injection Hl3 as <-. lia.
  - intros B HB Hall. apply Hleast.
    + pose proof (Hall i p els v ltac:(left) Hi Hv). lia.
    + intros i' p' els' v' Hin. apply Hall. by right.
Qed.

(** Linearizations with all their points, for [place_illegal]. *)
Definition lasts_le x (lis : list Z) (z : Z) : Prop :=
  forall i els v, Z.of_nat i ∈ lis -> E !! i = Some els -> last (points x els) = Some v -> v + EPSILON px <= z.

Definition complete x lps (i : nat) : Prop := exists els l, E !! i = Some els /\ lps !! i = Some l /\ base.length l = base.length els.

Lemma complete_row x lps i : rows_ok x lps -> complete x lps i ->
  exists els, E !! i = Some els /\ lps !! i = Some (Some <$> points x els).
Proof.
  intros Hrows (els & l & Hi & Hl & Hlen). exists els. split; [done |].
  destruct (Forall2_lookup_l _ _ _ _ _ Hrows Hi) as (l' & Hl' & m & Hm & -> & _).
  rewrite Hl in Hl'. injection Hl' as ->. rewrite length_fmap, length_take, pts_length in Hlen.
  rewrite take_ge in Hl by (rewrite pts_length; lia). done.
Qed.

Lemma els_not_nil i els : E !! i = Some els -> els <> [].
Proof. intros (r & _ & Hn & (Hne & _) & _)%els_run ->. by inversion Hn. Qed.

Lemma at_last x els v : last (points x els) = Some v -> at_ (Some <$> points x els) (len (Some <$> points x els) - 1) = Some v.
Proof.
  intros Hv. unfold at_. apply last_Some in Hv as (l & Hl). rewrite Hl, fmap_app, length_app. cbn [base.length].
  change (base.length (Some <$> [v])) with 1%nat. generalize (Some <$> l). intros l'.
  destruct (Z.ltb_spec (Z.of_nat (base.length l' + 1) - 1) 0); [lia |].
  rewrite (list_lookup_middle l' [] (Some v)); [done | lia].
Qed.

Lemma place_illegal_Done x lps lis : forall z,
  rows_ok x lps -> (forall li, li ∈ lis -> exists i, li = Z.of_nat i /\ complete x lps i) ->
  exists z', place_illegal px lis lps (Some z) = Done (Some z') /\ z <= z' /\ lasts_le x lis z'
    /\ forall B, z <= B -> lasts_le x lis B -> z' <= B.
Proof.
  induction lis as [|li lis IH]; intros z Hrows Hall; cbn [place_illegal].
  { exists z. split; [done |]. split; [done |]. split; [by intros ? ? ? ?%elem_of_nil | done]. }
  destruct (Hall li) as (i & -> & Hc); [left |]. destruct (complete_row _ _ _ Hrows Hc) as (els & Hi & Hl).
  rewrite (go_index_nat (A := list number) _ _ _ Hl). cbn [mbind go_bind].
  destruct (last (points x els)) as [v|] eqn:Ev.
  2: { apply last_None in Ev. destruct (els_not_nil i els Hi). destruct els; [done |]. by cbn in Ev. }
  pose proof (at_last _ _ _ Ev) as Hat. rewrite Hat. change (jmax (Some z) (jadd (Some v) (Some (EPSILON px)))) with (Some (z `max` (v + EPSILON px))).
  destruct (IH (z `max` (v + EPSILON px)) Hrows) as (z' & -> & Hz & Hle & Hleast); [intros; apply Hall; by right |].
  exists z'. split; [done |]. split; [lia |]. split.
  - intros i' els' v' [Hi'|Hin]%elem_of_cons Hi2 Hv'; [|by eapply Hle].
    apply Nat2Z.inj in Hi'. subst i'. rewrite Hi in Hi2. injection Hi2 as <-. rewrite Ev in Hv'. injection Hv' as <-. lia.
  - intros B HB HlB. apply Hleast; [|intros i' els' v' Hin; apply HlB; by right].
    pose proof (HlB i els v ltac:(left) Hi Ev). lia.
Qed.

Lemma last_positions_Done lis : (forall li, li ∈ lis -> exists i els, li = Z.of_nat i /\ E !! i = Some els) ->
  exists l, last_positions k lis = Done l /\ forall (i p : Z), (i, p) ∈ l <->
    exists i' els, i = Z.of_nat i' /\ i ∈ lis /\ E !! i' = Some els /\ p = len els - 1.
Proof.
  induction lis as [|li lis IH]; intros Hall; cbn [last_positions].
  { exists []. split; [done |]. intros i p. rewrite elem_of_nil. split; [done |]. by intros (? & ? & _ & ?%elem_of_nil & _). }
  destruct (Hall li) as (i & els & -> & Hi); [left |]. rewrite (go_index_nat _ _ _ (links_row i els Hi)). cbn [mbind go_bind].
  destruct IH as (l & -> & Hl); [intros; apply Hall; by right |]. cbn [mbind go_bind]. eexists. split; [done |].
  intros i' p. rewrite elem_of_cons, Hl, length_fmap. split.
  - intros [[= -> ->]|(j & els' & -> & Hin & ? & ?)].
    + exists i, els. split; [done |]. split; [left | done].
    + exists j, els'. split; [done |]. split; [by right | done].
  - intros (j & els' & -> & [Heq|Hin]%elem_of_cons & Hj & ->).
    + apply Nat2Z.inj in Heq as ->. rewrite Hi in Hj. injection Hj as ->. by left.
    + right. exists j, els'. done.
Qed.

(** ** One box *)

(** [B] is far enough right for the end of [e]. *)
Record need x e (B : Z) : Prop := {
  nd_text : X x (el_Start e) + width e <= B;
  nd_points : forall i els p v, E !! i = Some els -> els !! p = Some e -> points x els !! p = Some v -> v <= B;
  nd_illegal : forall i r els ie v, runs data !! i = Some r -> E !! i = Some els -> ie ∈ illegal_next r.1 r.2 ->
    ie.2 = e -> last (points x els) = Some v -> v + EPSILON px <= B }.

(** The rows reach the points that [e] has to do with. *)
Record covered lps e : Prop := {
  cv_points : forall i els p l, E !! i = Some els -> els !! p = Some e -> lps !! i = Some l -> (p < base.length l)%nat;
  cv_illegal : forall i r els ie l, runs data !! i = Some r -> E !! i = Some els -> ie ∈ illegal_next r.1 r.2 ->
    ie.2 = e -> lps !! i = Some l -> base.length l = base.length els }.

Lemma rows_le_lookup lps lps' i l' : rows_le lps lps' -> lps' !! i = Some l' ->
  exists l, lps !! i = Some l /\ (base.length l <= base.length l')%nat.
Proof. intros Hle Hl'. destruct (Forall2_lookup_r _ _ _ _ _ Hle Hl') as (l & ? & ?). by exists l. Qed.

Lemma row_short x lps i els l : rows_ok x lps -> E !! i = Some els -> lps !! i = Some l -> (base.length l <= base.length els)%nat.
Proof.
  intros Hrows Hi Hl. destruct (Forall2_lookup_l _ _ _ _ _ Hrows Hi) as (l' & Hl' & m & Hm & -> & _).
  rewrite Hl in Hl'. injection Hl' as ->. rewrite length_fmap, length_take, pts_length. lia.
Qed.

Lemma covered_grows x lps lps' e : rows_ok x lps' -> rows_le lps lps' -> covered lps e -> covered lps' e.
Proof.
  intros Hrows Hle [Hp Hil]. split.
  - intros i els p l Hi He Hl. destruct (rows_le_lookup _ _ _ _ Hle Hl) as (l0 & Hl0 & Hlen).
    pose proof (Hp _ _ _ _ Hi He Hl0). lia.
  - intros i r els ie l Hr Hi Hie Heq Hl. destruct (rows_le_lookup _ _ _ _ Hle Hl) as (l0 & Hl0 & Hlen).
    pose proof (Hil _ _ _ _ _ Hr Hi Hie Heq Hl0). pose proof (row_short _ _ _ _ _ Hrows Hi Hl). lia.
Qed.

(** What the links say of [e]. *)
Lemma links_of e : e ∈ all_els data -> exists pl il,
  go_index (eventToLinearizations k) (el_Gid e) = Done pl /\ go_index (eventIllegalLast k) (el_Gid e) = Done il
  /\ (forall (i p : Z), (i, p) ∈ pl <-> exists i' p' els, i = Z.of_nat i' /\ p = Z.of_nat p' /\ E !! i' = Some els /\ els !! p' = Some e)
  /\ (forall i : Z, i ∈ il <-> exists i' r ie, i = Z.of_nat i' /\ runs data !! i' = Some r
        /\ ie ∈ illegal_next r.1 r.2 /\ ie.2 = e).
Proof.
  intros He. pose proof He as (g & Hg)%list_elem_of_lookup. pose proof (rd_gid _ _ R _ _ Hg) as Hgid.
  pose proof (lookup_lt_Some _ _ _ Hg) as Hlt.
  destruct (lookup_lt_is_Some_2 (eventToLinearizations k) g) as [pl Hpl]; [by rewrite (lk_to_len _ _ _ K) |].
  destruct (lookup_lt_is_Some_2 (eventIllegalLast k) g) as [il Hil]; [by rewrite (lk_ill_len _ _ _ K) |].
  exists pl, il. rewrite Hgid. rewrite (go_index_nat _ _ _ Hpl), (go_index_nat _ _ _ Hil).
  split; [done |]. split; [done |]. split.
  - intros i p. rewrite (lk_to _ _ _ K _ _ Hpl). split.
    + intros (i' & p' & -> & -> & r & Hr & Hp). destruct (run_els _ _ Hr) as (els & Hi & Hn).
      exists i', p', els. split; [done |]. split; [done |]. split; [done |].
      rewrite (names_gids _ _ Hn), list_lookup_fmap in Hp. apply fmap_Some in Hp as (e' & He' & Heq).
      rewrite (gid_inj e e'); [done | done | by eapply els_all, list_elem_of_lookup_2 | congruence].
    + intros (i' & p' & els & -> & -> & Hi & Hp). destruct (els_run _ _ Hi) as (r & Hr & Hn & _).
      exists i', p'. split; [done |]. split; [done |]. exists r. split; [done |].
      by rewrite (names_gids _ _ Hn), list_lookup_fmap, Hp, <- Hgid.
  - intros i. rewrite (lk_ill _ _ _ K _ _ Hil). split.
    + intros (i' & -> & r & Hr & ie & Hie & Heq). exists i', r, ie. split; [done |]. split; [done |]. split; [done |].
      apply gid_inj; [|done | congruence]. apply list_elem_of_lookup_2 in Hr. destruct r as [h lin].
      apply (rd_runs _ _ R) in Hr as [_ Hall]. by apply Hall, (illegal_in h lin).
    + intros (i' & r & ie & -> & Hr & Hie & <-). exists i'. split; [done |]. exists r. split; [done |]. by exists ie.
Qed.

Lemma place_box_Done x lps z e :
  e ∈ all_els data -> (forall t, t ∈ times -> t < el_End e -> placed x t) -> rows_ok x lps ->
  exists lps' z', place_box px data k (box_of px textWidth e) x lps (Some z) = Done (lps', Some z')
    /\ rows_ok x lps' /\ rows_le lps lps' /\ z <= z' /\ need x e z' /\ covered lps' e
    /\ forall B, z <= B -> need x e B -> z' <= B.
Proof.
  intros He Hpl Hrows. destruct (rd_in _ _ R e He) as (Hst & _ & Hdur).
  destruct (links_of e He) as (pl & il & Hpl' & Hil' & Hp & Hi).
  unfold place_box. cbn [box_of b_start b_width b_gid]. fold (width e).
  rewrite (Hpl _ Hst Hdur : x_at x (el_Start e) = _).
  change (jmax (Some z) (jadd (Some (X x (el_Start e))) (Some (width e)))) with (Some (z `max` (X x (el_Start e) + width e))).
  set (z0 := z `max` _). rewrite Hpl'. cbn [mbind go_bind]. rewrite Hil'. cbn [mbind go_bind].
  assert (forall i' els p e', E !! i' = Some els -> els !! p = Some e' -> el_Start e' < el_End e -> placed x (el_Start e')) as Hstart.
  { intros i' els p e' Hi' Hp'. apply Hpl, (rd_in _ _ R e'). by eapply els_all, list_elem_of_lookup_2. }
  destruct (last_positions_Done il) as (lasts & -> & Hlast).
  { intros li (i' & r & ie & -> & Hr & _)%Hi. destruct (run_els _ _ Hr) as (els & ? & _). by exists i', els. }
  cbn [mbind go_bind].
  destruct (place_points_Done x (pl ++ lasts) lps z0 Hrows) as (lps1 & z1 & -> & Hrows1 & Hle1 & Hz1 & Hpts & Hcov & Hleast1).
  { intros [i' p'] [(i & p & els & -> & -> & Hi' & Hp')%Hp|(i & els & -> & Hin & Hi' & ->)%Hlast]%elem_of_app.
    - exists i, p, els. split; [done |]. split; [done |]. split; [by eapply lookup_lt_Some |].
      intros j e' Hj He'. eapply Hstart; [done..|]. by eapply point_before.
    - pose proof (els_not_nil i els Hi') as Hne. exists i, (base.length els - 1)%nat, els.
      assert (0 < base.length els)%nat by (destruct els; [done | cbn; lia]).
      split; [f_equal; lia |]. split; [done |]. split; [lia |]. intros j e' _ He'.
      apply Hi in Hin as (i2 & r & ie & Heq & Hr & Hie & <-). apply Nat2Z.inj in Heq as <-.
      eapply Hstart; [done..|]. by eapply illegal_before. }
  cbn [mbind go_bind].
  assert (forall i els l, Z.of_nat i ∈ il -> E !! i = Some els -> lps1 !! i = Some l -> base.length l = base.length els) as Hcomp.
  { intros i els l Hin Hi' Hl. pose proof (row_short _ _ _ _ _ Hrows1 Hi' Hl).
    assert (0 < base.length els)%nat by (pose proof (els_not_nil i els Hi'); destruct els; [done | cbn; lia]).
    assert (base.length els - 1 < base.length l)%nat; [|lia]. apply (Hcov i _ l); [|done].
    apply elem_of_app. right. apply Hlast. exists i, els. split; [done |]. split; [done |]. split; [done | lia]. }
  destruct (place_illegal_Done x lps1 il z1 Hrows1) as (z2 & -> & Hz2 & Hlasts & Hleast2).
  { intros li Hli. pose proof Hli as (i & r & ie & -> & Hr & _)%Hi. destruct (run_els _ _ Hr) as (els & Hi' & _).
    destruct (Forall2_lookup_l _ _ _ _ _ Hrows1 Hi') as (l & Hl & _). exists i. split; [done |]. exists els, l. eauto. }
  cbn [mbind go_bind]. exists lps1, z2. split; [done |]. split; [done |]. split; [done |]. split; [lia |]. split; [|split].
  - split; [lia | |].
    + intros i els p v Hi' Hp' Hv. assert (v <= z1); [|lia]. apply (Hpts i p els v); [|done..].
      apply elem_of_app. left. apply Hp. by exists i, p, els.
    + intros i r els ie v Hr Hi' Hie Heq Hv. eapply Hlasts; [|done..]. apply Hi. by exists i, r, ie.
  - split.
    + intros i els p l Hi' Hp' Hl. eapply (Hcov i p l); [|done]. apply elem_of_app. left. apply Hp. by exists i, p, els.
    + intros i r els ie l Hr Hi' Hie Heq Hl. eapply Hcomp; [|done..]. apply Hi. by exists i, r, ie.
  - intros B HB [Ht Hpo Hil]. assert (lasts_le x il B) as HlB.
    { intros i els v (i2 & r & ie & Heq & Hr & Hie & Hie')%Hi Hi' Hv. apply Nat2Z.inj in Heq as <-. by eapply Hil. }
    apply Hleast2; [|done]. apply Hleast1; [lia |].
    intros i p els v [(i2 & p2 & els2 & Heq1 & Heq2 & Hi' & Hp')%Hp|(i2 & els2 & Heq & Hin & Hi' & Hp')%Hlast]%elem_of_app Hi2 Hv.
    + apply Nat2Z.inj in Heq1, Heq2. subst. rewrite Hi' in Hi2. injection Hi2 as ->. by eapply Hpo.
    + apply Nat2Z.inj in Heq. subst. rewrite Hi' in Hi2. injection Hi2 as ->.
      assert (last (points x els) = Some v) as Hv2.
      { rewrite last_lookup, pts_length. replace (Nat.pred (base.length els)) with p by lia. done. }
      pose proof (HlB _ _ _ Hin Hi' Hv2). unfold EPSILON in *. lia.
Qed.

(** What [e] needs depends on the times before its end only. *)
Lemma need_ext x x' e B :
  e ∈ all_els data -> (forall t, t ∈ times -> t < el_End e -> X x t = X x' t) -> need x e B -> need x' e B.
Proof.
  intros He Hx [Ht Hp Hi]. destruct (rd_in _ _ R e He) as (Hst & _ & Hdur).
  assert (forall i els j e', E !! i = Some els -> els !! j = Some e' -> el_Start e' < el_End e ->
    X x (el_Start e') = X x' (el_Start e')) as Hstart.
  { intros i els j e' Hi' Hj Hlt. apply Hx; [|done]. apply (rd_in _ _ R e'). by eapply els_all, list_elem_of_lookup_2. }
  split.
  - rewrite <- Hx by done. exact Ht.
  - intros i els p v Hi' Hp' Hv. apply (Hp i els p v); [done..|]. rewrite <- Hv. apply pts_lookup_ext.
    intros j e' Hj He'. eapply Hstart; [done..|]. by eapply point_before.
  - intros i r els ie v Hr Hi' Hie <- Hv. apply (Hi i r els ie v); [done..|]. rewrite last_lookup, pts_length in Hv |- *.
    rewrite <- Hv. apply pts_lookup_ext. intros j e' _ He'. eapply Hstart; [done..|]. by eapply illegal_before.
Qed.

(** Every layout that is no less so far has room for [e]. *)
Lemma need_feasible X' ps x e :
  layout_ok px textWidth data times X' ps -> e ∈ all_els data ->
  (forall t, t ∈ times -> t < el_End e -> X x t <= X' t) -> need x e (X' (el_End e)).
Proof.
  intros [_ _ Htext Hps] He Hx. destruct (rd_in _ _ R e He) as (Hst & _ & Hdur).
  assert (forall i els (q : list Z) m z z', E !! i = Some els -> ps !! i = Some q -> (forall j e', (j <= m)%nat ->
    els !! j = Some e' -> el_Start e' < el_End e) -> points x els !! m = Some z -> q !! m = Some z' -> z <= z') as Hle.
  { intros i els q m z z' Hi Hp Hlt Hz Hz'. destruct (els_run i els Hi) as (r & Hr & Hn & _).
    destruct (Forall2_lookup_l _ _ _ _ _ Hps Hr) as (p' & Hp' & Hf). rewrite Hp in Hp'. injection Hp' as <-.
    pose proof (lookup_lt_Some _ _ _ Hz) as Hm. rewrite pts_length in Hm.
    eapply (pts_least px (X x) X' els q m z z'); [..|done|done].
    - intros j e' Hj He'. apply Hx; [|by eapply Hlt]. apply (rd_in _ _ R e'). by eapply els_all, list_elem_of_lookup_2.
    - intros j e' v He' Hv. by apply (pf_box _ _ _ _ Hf els j e' v).
    - apply (pf_next _ _ _ _ Hf).
    - done.
    - rewrite (pf_length _ _ _ _ Hf). by eapply Forall2_length. }
  split.
  - pose proof (Htext e He). pose proof (Hx _ Hst Hdur). unfold width. lia.
  - intros i els p v Hi Hp Hv. destruct (els_run i els Hi) as (r & Hr & Hn & _).
    destruct (Forall2_lookup_l _ _ _ _ _ Hps Hr) as (q & Hq & Hf). pose proof (pf_length _ _ _ _ Hf) as Hlen.
    pose proof (Forall2_length _ _ _ Hn) as Hn'. pose proof (lookup_lt_Some _ _ _ Hp).
    destruct (lookup_lt_is_Some_2 q p) as [v' Hv']; [lia |]. transitivity v'.
    + eapply Hle; [done | done | | done | done]. intros j e' Hj He'. by eapply point_before.
    + by apply (pf_box _ _ _ _ Hf els p e v').
  - intros i r els ie v Hr Hi Hie <- Hv. destruct (els_run i els Hi) as (r' & Hr' & Hn & _).
    rewrite Hr in Hr'. injection Hr' as <-. destruct (Forall2_lookup_l _ _ _ _ _ Hps Hr) as (q & Hq & Hf).
    pose proof (pf_length _ _ _ _ Hf) as Hlen. pose proof (Forall2_length _ _ _ Hn) as Hn'.
    rewrite last_lookup, pts_length in Hv. pose proof (lookup_lt_Some _ _ _ Hv) as Hlt. rewrite pts_length in Hlt.
    destruct (lookup_lt_is_Some_2 q (Nat.pred (base.length els))) as [v' Hv']; [lia |].
    assert (v <= v') by (eapply Hle; [done | done | | done | done]; intros j e' _ He'; by eapply illegal_before).
    assert (last q = Some v') as Hlast by (rewrite last_lookup; by replace (Nat.pred (base.length q)) with (Nat.pred (base.length els)) by lia).
    pose proof (pf_illegal _ _ _ _ Hf ie v' Hie Hlast). lia.
Qed.

(** ** All boxes that end at one time *)

Definition box_elem (b : box) e : Prop := e ∈ all_els data /\ b = box_of px textWidth e.

Lemma place_boxes_Done x ts rest : forall lps z,
  (forall t, t ∈ times -> t < ts -> placed x t) -> rows_ok x lps ->
  StronglySorted ends_before rest -> (forall b, b ∈ rest -> exists e, box_elem b e /\ ts <= el_End e) ->
  exists rest' lps' z', place_boxes px data k rest ts x lps (Some z) = Done (rest', lps', Some z')
    /\ (exists gone, rest = gone ++ rest' /\ forall b, b ∈ gone -> b_end b = ts) /\ (forall b, b ∈ rest' -> ts < b_end b)
    /\ rows_ok x lps' /\ rows_le lps lps' /\ z <= z'
    /\ (forall b e, b ∈ rest -> box_elem b e -> el_End e = ts -> need x e z' /\ covered lps' e)
    /\ forall B, z <= B -> (forall e, e ∈ all_els data -> el_End e = ts -> need x e B) -> z' <= B.
Proof.
  induction rest as [|b rest IH]; intros lps z Hpl Hrows Hs Hb; cbn [place_boxes].
  { exists [], lps, z. split; [done |]. split; [exists []; split; [done | by intros b ?%elem_of_nil] |].
    split; [by intros b ?%elem_of_nil |]. split; [done |]. split; [apply rows_le_refl |]. split; [done |].
    split; [by intros b e ?%elem_of_nil | by intros]. }
  destruct (Hb b) as (e & [He ->] & Hend); [left |]. inversion Hs as [|? ? Hs' Hall]; subst.
  assert (forall (m : Z) b', m < el_End e -> b' ∈ box_of px textWidth e :: rest -> m < b_end b') as Hafter.
  { intros m b' Hm [->|Hb']%elem_of_cons; [done |]. rewrite Forall_forall in Hall. pose proof (Hall b' Hb') as Ho.
    unfold ends_before in Ho. cbn in Ho. lia. }
  cbn [box_of b_end]. destruct (Z.leb_spec (el_End e) ts) as [Hle|Hgt].
  2: { eexists (_ :: _), lps, z. split; [done |]. split; [exists []; split; [done | by intros b ?%elem_of_nil] |].
       split; [intros b'; by apply Hafter |]. split; [done |]. split; [apply rows_le_refl |]. split; [done |].
       split; [|by intros]. intros b' e' Hb' [_ ->] Heq. pose proof (Hafter ts _ Hgt Hb') as Hlt. cbn in Hlt. lia. }
  assert (el_End e = ts) as Heq by lia.
  destruct (place_box_Done x lps z e He) as (lps1 & z1 & -> & Hrows1 & Hle1 & Hz1 & Hneed & Hcov & Hleast);
    [intros t; rewrite Heq; apply Hpl | done |].
  cbn [mbind go_bind]. destruct (IH lps1 z1 Hpl Hrows1 Hs') as
    (rest' & lps' & z' & -> & (gone & -> & Hgone) & Hrest & Hrows' & Hle' & Hz' & Hfit & Hleast').
  { intros b' Hb'. apply Hb. by right. }
  exists rest', lps', z'. split; [done |]. split; [|split; [done | split; [done |]]].
  { exists (box_of px textWidth e :: gone). split; [done |]. intros b' [->|Hb']%elem_of_cons; [done | by apply Hgone]. }
  split; [by eapply rows_le_trans |]. split; [lia |].
  assert (need x e z' /\ covered lps' e) as Hthis.
  { split; [|by eapply covered_grows]. destruct Hneed as [H1 H2 H3]. split; [lia | |].
    - intros i els p v Hi Hp Hv. pose proof (H2 i els p v Hi Hp Hv). lia.
    - intros i r els ie v Hr Hi Hie Hie' Hv. pose proof (H3 i r els ie v Hr Hi Hie Hie' Hv). lia. }
  split.
  - intros b' e' [->|Hb']%elem_of_cons Hel Hend'; [|by eapply Hfit]. destruct Hel as [He' Hbox].
    assert (e = e') as <-; [|done]. apply gid_inj; [done..|]. by injection Hbox.
  - intros B HB Hall'. apply Hleast'; [|done]. apply Hleast; [done | by apply Hall'].
Qed.

(** ** All times *)

(** The state of the scan when all times up to [cur] are placed. *)
Record scanned (cur : Z) x lps rest : Prop := {
  sc_x : forall t, t ∈ times -> t <= cur -> placed x t;
  sc_rows : rows_ok x lps;
  sc_zero : forall t, t ∈ times -> t <= cur -> 0 <= X x t;
  sc_gap : forall t t', t ∈ times -> t' ∈ times -> t < t' -> t' <= cur -> X x t + BOX_GAP px <= X x t';
  sc_fit : forall e, e ∈ all_els data -> el_End e <= cur -> need x e (X x (el_End e)) /\ covered lps e;
  sc_sorted : StronglySorted ends_before rest;
  sc_rest : forall b, b ∈ rest -> exists e, box_elem b e /\ cur < el_End e;
  sc_todo : forall e, e ∈ all_els data -> cur < el_End e -> box_of px textWidth e ∈ rest;
  sc_least : forall X' ps, layout_ok px textWidth data times X' ps -> forall t, t ∈ times -> t <= cur -> X x t <= X' t }.

Lemma rows_ext x x' lps : (forall t, placed x t -> placed x' t /\ X x t = X x' t) -> rows_ok x lps -> rows_ok x' lps.
Proof.
  intros Hx Hrows. eapply Forall2_impl; [exact Hrows |]. intros els l (m & Hm & -> & Hj). exists m. split; [done |]. split.
  - f_equal. apply pts_ext. intros j e Hlt He. by apply Hx, (Hj j).
  - intros j e Hlt He. by apply Hx, (Hj j).
Qed.

Lemma sorted_suffix {A} (P : relation A) l1 l2 : StronglySorted P (l1 ++ l2) -> StronglySorted P l2.
Proof. induction l1 as [|a l1 IH]; [done |]. intros Hs. inversion Hs; subst. by apply IH. Qed.

Lemma scan_step cur ts x lps rest :
  cur ∈ times -> ts ∈ times -> cur < ts -> (forall t, t ∈ times -> t < ts -> t <= cur) -> x !! ts = None ->
  scanned cur x lps rest ->
  exists rest' lps' z, place_boxes px data k rest ts x lps (jadd (x_at x cur) (Some (BOX_GAP px))) = Done (rest', lps', Some z)
    /\ scanned ts (<[ts := Some z]> x) lps' rest'.
Proof.
  intros Hcur Hts Hlt Hbetween Hnone [Sx Srows Szero Sgap Sfit Ssorted Srest Stodo Sleast].
  rewrite (Sx cur Hcur (Z.le_refl _) : x_at x cur = _).
  change (jadd (Some (X x cur)) (Some (BOX_GAP px))) with (Some (X x cur + BOX_GAP px)).
  destruct (place_boxes_Done x ts rest lps (X x cur + BOX_GAP px)) as
    (rest' & lps' & z & -> & (gone & -> & Hgone) & Hrest & Hrows' & Hle & Hz & Hfit & Hleast).
  { intros t Ht Htl. apply Sx; [done |]. by apply Hbetween. }
  { done. }
  { done. }
  { intros b Hb. destruct (Srest b Hb) as (e & He & Hend). exists e. split; [done |].
    destruct (Z.le_gt_cases ts (el_End e)); [done |]. destruct He as [He _]. apply (rd_in _ _ R) in He as (_ & Hin & _).
    pose proof (Hbetween _ Hin). lia. }
  exists rest', lps', z. split; [done |]. set (x' := <[ts := Some z]> x).
  assert (forall t, t <> ts -> x_at x' t = x_at x t) as Hother by (intros t Ht; unfold x_at, x'; by rewrite lookup_insert_ne).
  assert (x_at x' ts = Some z) as Hnew by (unfold x_at, x'; by rewrite lookup_insert_eq).
  assert (forall t, t <> ts -> X x' t = X x t) as HX by (intros t Ht; unfold X; by rewrite Hother).
  assert (X x' ts = z) as HXts by (unfold X; by rewrite Hnew).
  assert (forall t, placed x t -> placed x' t /\ X x t = X x' t) as Hkeep.
  { assert (x_at x ts = None) as Hno by (unfold x_at; by rewrite Hnone).
    intros t Ht. assert (t <> ts) as Hne by (intros ->; unfold placed in Ht; congruence).
    unfold placed. by rewrite Hother, HX. }
  assert (forall t, t ∈ times -> t <= ts -> t <> ts -> t <= cur) as Hold by (intros t Ht Htl Hne; apply Hbetween; [done | lia]).
  assert (forall e, e ∈ all_els data -> el_End e <= ts -> need x e (X x' (el_End e)) /\ covered lps' e) as Hall.
  { intros e He Hend. destruct (decide (el_End e = ts)) as [Heq|Hne].
    - rewrite Heq, HXts. apply (Hfit (box_of px textWidth e) e); [apply Stodo; [done | lia] | by split | done].
    - assert (el_End e <= cur) as Hc by (apply Hold; [by apply (rd_in _ _ R e) | done | done]).
      destruct (Sfit e He Hc) as [Hn Hcv]. rewrite HX by done. split; [done | by eapply covered_grows]. }
  split.
  - intros t Ht Htl. destruct (decide (t = ts)) as [->|Hne]; [unfold placed; by rewrite Hnew, HXts |].
    apply Hkeep, Sx; [done | by apply Hold].
  - by eapply rows_ext.
  - intros t Ht Htl. destruct (decide (t = ts)) as [->|Hne].
    + rewrite HXts. pose proof (Szero cur Hcur (Z.le_refl _)). unfold BOX_GAP in *. lia.
    + rewrite HX by done. by apply Szero, Hold.
  - intros t t' Ht Ht' Htt Htl. assert (t <> ts) by lia. rewrite (HX t) by done.
    destruct (decide (t' = ts)) as [->|Hne]; [|rewrite HX by done; by apply Sgap, Hold].
    rewrite HXts. destruct (decide (t = cur)) as [->|]; [done |]. pose proof (Hbetween t Ht Htt).
    pose proof (Sgap t cur Ht Hcur ltac:(lia) (Z.le_refl _)). unfold BOX_GAP in *. lia.
  - intros e He Hend. destruct (Hall e He Hend) as [Hn Hcv]. split; [|done].
    apply (need_ext x); [done | | done]. intros t Ht Htl. symmetry. apply HX. lia.
  - by eapply sorted_suffix.
  - intros b Hb. destruct (Srest b) as (e & [He ->] & _); [apply elem_of_app; by right |]. exists e. split; [done |].
    exact (Hrest _ Hb).
  - intros e He Hend. pose proof (Stodo e He ltac:(lia)) as [Hb|Hb]%elem_of_app; [|done].
    apply Hgone in Hb. cbn in Hb. lia.
  - intros X' ps Hlay t Ht Htl. destruct (decide (t = ts)) as [->|Hne]; [|rewrite HX by done; by eapply Sleast; [exact Hlay | | apply Hold]].
    rewrite HXts. apply Hleast.
    + pose proof (Sleast X' ps Hlay cur Hcur (Z.le_refl _)). pose proof (lo_gap _ _ _ _ _ _ Hlay cur ts Hcur Hts Hlt). lia.
    + intros e He <-. eapply need_feasible; [exact Hlay | done |]. intros t Ht' Htl'. by eapply Sleast; [exact Hlay | | apply Hbetween].
Qed.

Lemma scan_times_Done todo : forall cur x lps rest,
  StronglySorted Z.lt (cur :: todo) -> (forall t, t ∈ todo <-> t ∈ times /\ cur < t) -> cur ∈ times ->
  (forall t, cur < t -> x !! t = None) -> scanned cur x lps rest ->
  exists x' lps' cur', scan_times px data k cur todo rest (mkScan x lps) = Done (mkScan x' lps')
    /\ scanned cur' x' lps' [] /\ forall t, t ∈ times -> t <= cur'.
Proof.
  induction todo as [|ts todo IH]; intros cur x lps rest Hs Htodo Hcur Hnone Hsc; cbn [scan_times].
  - exists x, lps, cur. split; [done |]. assert (forall t, t ∈ times -> t <= cur) as Hlast.
    { intros t Ht. destruct (Z.le_gt_cases t cur); [done |]. assert (t ∈ []) as []%elem_of_nil by by apply Htodo. }
    split; [|done]. destruct rest as [|b rest]; [done |].
    destruct (sc_rest _ _ _ _ Hsc b) as (e & [He _] & Hlt); [left |].
    apply (rd_in _ _ R) in He as (_ & He & _). apply Hlast in He. lia.
  - inversion Hs as [|? ? Hs' Hall]; subst. inversion Hs' as [|? ? _ Hall']; subst. rewrite !Forall_forall in *.
    assert (cur < ts) as Hlt by (apply Hall; left).
    destruct (proj1 (Htodo ts)) as [Hts _]; [left |].
    destruct (scan_step cur ts x lps rest) as (rest' & lps' & z & Hrun & Hsc'); [done..| | by apply Hnone | done |].
    { intros t Ht Htl. destruct (Z.le_gt_cases t cur); [done |]. assert (t ∈ ts :: todo) as Hin by by apply Htodo.
      apply elem_of_cons in Hin as [->|Hin]; [lia |]. apply Hall' in Hin. lia. }
    cbn [xPos linearizationPositions]. rewrite Hrun. cbn [mbind go_bind].
    apply (IH ts); [done | | done | | done].
    + intros t. split.
      * intros Hin. split; [by apply Htodo; right | by apply Hall'].
      * intros [Ht Htl]. assert (t ∈ ts :: todo) as [->|]%elem_of_cons by (apply Htodo; split; [done | lia]); [lia | done].
    + intros t Htl. rewrite lookup_insert_ne by lia. apply Hnone. lia.
Qed.

(** ** What the scan has found *)

Lemma names_fun r els els' : names r els -> names r els' -> els = els'.
Proof.
  intros H1 H2. unfold names in *. eapply list_eq_Forall2. revert els' H2.
  induction H1 as [|id e lin els [_ He] _ IH]; intros els' H2; inversion H2 as [|? e' ? ? [_ He']]; subst; constructor; [congruence |].
  by apply IH.
Qed.

Lemma scanned_rows cur x lps rest :
  (forall t, t ∈ times -> t <= cur) -> scanned cur x lps rest -> lps = (fun els => Some <$> points x els) <$> E.
Proof.
  intros Hcur Hsc. apply list_eq_Forall2, Forall2_fmap_r, Forall2_flip.
  apply Forall2_same_length_lookup. pose proof (sc_rows _ _ _ _ Hsc) as Hrows. split; [by eapply Forall2_length |].
  intros i els l Hi Hl. destruct (complete_row x lps i Hrows) as (els' & Hi' & Hl').
  { exists els, l. split; [done |]. split; [done |]. pose proof (els_not_nil i els Hi) as Hne.
    destruct (last els) as [e|] eqn:El; [|by apply last_None in El]. rewrite last_lookup in El.
    assert (e ∈ all_els data) as He by by eapply els_all, list_elem_of_lookup_2.
    destruct (sc_fit _ _ _ _ Hsc e He) as [_ Hcv]; [by apply Hcur, (rd_in _ _ R e) |].
    pose proof (cv_points _ _ Hcv _ _ _ _ Hi El Hl). pose proof (row_short _ _ _ _ _ Hrows Hi Hl).
    destruct els; [done |]. cbn in *. lia. }
  rewrite Hi in Hi'. injection Hi' as <-. congruence.
Qed.

Lemma scanned_layout cur x lps rest :
  (forall t, t ∈ times -> t <= cur) -> scanned cur x lps rest ->
  layout_ok px textWidth data times (X x) ((fun els => points x els) <$> E).
Proof.
  intros Hcur [Sx Srows Szero Sgap Sfit _ _ _ _].
  assert (forall e, e ∈ all_els data -> need x e (X x (el_End e))) as Hfit.
  { intros e He. apply Sfit; [done |]. by apply Hcur, (rd_in _ _ R e). }
  split.
  - intros t Ht. by apply Szero, Hcur.
  - intros t t' Ht Ht' Hlt. by apply Sgap, Hcur.
  - intros e He. by apply Hfit.
  - apply Forall2_fmap_r, Forall2_same_length_lookup. split; [by eapply Forall2_length |].
    intros i r els Hr Hi. destruct (els_run i els Hi) as (r' & Hr' & Hn & _). rewrite Hr in Hr'. injection Hr' as <-.
    assert (forall e, e ∈ els -> e ∈ all_els data) as Hall by (intros e He; by eapply els_all).
    split.
    + rewrite pts_length. symmetry. by eapply Forall2_length.
    + intros els' j e z Hn' He Hz. rewrite (names_fun _ _ _ Hn' Hn) in He. split; [by eapply pts_starts |].
      apply (nd_points _ _ _ (Hfit e ltac:(by eapply Hall, list_elem_of_lookup_2)) i els j z); done.
    + intros j z z'. apply pts_spaced.
    + intros ie z Hie Hz. apply (nd_illegal x ie.2 _ ltac:(apply Hfit; destruct r as [h lin];
        apply list_elem_of_lookup_2 in Hr; apply (rd_runs _ _ R) in Hr as [_ Hin]; by apply Hin, (illegal_in h lin)) i r els ie z); done.
Qed.

Lemma scanned_least cur x lps rest X' ps :
  (forall t, t ∈ times -> t <= cur) -> scanned cur x lps rest -> layout_ok px textWidth data times X' ps ->
  (forall t, t ∈ times -> X x t <= X' t) /\ Forall2 (Forall2 Z.le) ((fun els => points x els) <$> E) ps.
Proof.
  intros Hcur Hsc Hlay. assert (forall t, t ∈ times -> X x t <= X' t) as Hle.
  { intros t Ht. eapply (sc_least _ _ _ _ Hsc); [exact Hlay | done | by apply Hcur]. }
  split; [done |]. pose proof (lo_points _ _ _ _ _ _ Hlay) as Hps.
  apply Forall2_fmap_l, Forall2_same_length_lookup.
  split; [rewrite <- (Forall2_length _ _ _ HE); by eapply Forall2_length |].
  intros i els q Hi Hq. destruct (els_run i els Hi) as (r & Hr & Hn & _).
  destruct (Forall2_lookup_l _ _ _ _ _ Hps Hr) as (q' & Hq' & Hf). rewrite Hq in Hq'. injection Hq' as <-.
  pose proof (pf_length _ _ _ _ Hf) as Hlen. pose proof (Forall2_length _ _ _ Hn) as Hn'.
  apply Forall2_same_length_lookup. rewrite pts_length. split; [lia |]. intros m z z' Hz Hz'.
  eapply (pts_least px (X x) X' els q m z z'); [..|done|done].
  - intros j e _ He. apply Hle. apply (rd_in _ _ R e). by eapply els_all, list_elem_of_lookup_2.
  - intros j e v He Hv. by apply (pf_box _ _ _ _ Hf els j e v).
  - apply (pf_next _ _ _ _ Hf).
  - apply lookup_lt_Some in Hz. by rewrite pts_length in Hz.
  - lia.
Qed.

(** The start: the first time at 0, and every box to do. *)
Lemma scan_start t0 todo :
  times = t0 :: todo ->
  scanned t0 {[t0 := Some 0]} (replicate (base.length (allLinearizations k)) []) (byEnd px textWidth data).
Proof.
  intros Htimes. pose proof (rd_times _ _ R) as Hs. rewrite Htimes in Hs. inversion Hs as [|? ? _ Hall]; subst.
  assert (forall t, t ∈ times -> t0 <= t) as Hmin.
  { intros t. rewrite Htimes. rewrite Forall_forall in Hall. intros [->|Ht%Hall]%elem_of_cons; lia. }
  assert (X {[t0 := Some 0]} t0 = 0) as HX0 by (unfold X, x_at; by rewrite lookup_singleton_eq).
  assert (forall t, t ∈ times -> t <= t0 -> t = t0) as Hone by (intros t Ht%Hmin; lia).
  assert (forall e, e ∈ all_els data -> t0 < el_End e) as Hend.
  { intros e (Hst%Hmin & _ & ?)%(rd_in _ _ R). lia. }
  split.
  - intros t Ht Htl. rewrite (Hone t Ht Htl). unfold placed. rewrite HX0. unfold x_at. by rewrite lookup_singleton_eq.
  - unfold rows_ok. rewrite (lk_all _ _ _ K), length_fmap, (Forall2_length _ _ _ HE).
    clear HE. induction E as [|els l IH]; constructor; [|done]. exists 0%nat. split; [lia |]. split; [done |]. intros; lia.
  - intros t Ht Htl. rewrite (Hone t Ht Htl), HX0. lia.
  - intros t t' Ht Ht' Hlt Htl. pose proof (Hmin t Ht). lia.
  - intros e He Hle. pose proof (Hend e He). lia.
  - apply StronglySorted_merge_sort.
    + intros a b c. unfold ends_before. lia.
    + intros a b. unfold ends_before. lia.
  - intros b Hb. unfold byEnd in Hb. rewrite merge_sort_Permutation in Hb. apply list_elem_of_fmap in Hb as (e & -> & He).
    exists e. split; [by split | by apply Hend].
  - intros e He _. unfold byEnd. rewrite merge_sort_Permutation. apply list_elem_of_fmap. eauto.
  - intros X' ps Hlay t Ht Htl. rewrite (Hone t Ht Htl), HX0. apply (lo_zero _ _ _ _ _ _ Hlay). rewrite Htimes. left.
Qed.
End scan.

Lemma choose_all {A B} (P : A -> B -> Prop) l : (forall a, a ∈ l -> exists b, P a b) -> exists l', Forall2 P l l'.
Proof.
  induction l as [|a l IH]; intros Hl; [by exists [] |].
  destruct (Hl a) as [b Hb]; [left |]. destruct IH as [l' Hl']; [intros; apply Hl; by right |].
  exists (b :: l'). by constructor.
Qed.

Lemma runs_named data times : ready data times -> exists E, Forall2 names (runs data) E.
Proof.
  intros R. apply choose_all. intros [h lin] Hr. apply (rd_runs _ _ R) in Hr as [(_ & _ & Hok) _].
  apply choose_all. intros id (j & Hj)%list_elem_of_lookup. destruct (Hok j id Hj) as (? & e & He & _). by exists e.
Qed.

(** The links of the data. *)
Lemma links_Done data times : ready data times ->
  exists k, link_all data (mkLinks (replicate (base.length (all_els data)) []) (replicate (base.length (all_els data)) []) []) = Done k
    /\ links_ok (base.length (all_els data)) (runs data) k.
Proof.
  intros R. edestruct (link_all_Done (base.length (all_els data)) data []) as (k & Hk & Hok);
    [|apply links_start | by exists k].
  intros h lin Hr. destruct (rd_runs _ _ R h lin Hr) as [Hrun Hall]. split; [done |].
  intros e He%Hall. apply list_elem_of_lookup in He as (g & Hg). rewrite (rd_gid _ _ R _ _ Hg).
  apply lookup_lt_Some in Hg. lia.
Qed.

(** The layout of data that is ready: it exists, it has room for everything, and it is
    the least such. *)
Lemma layout_Done px textWidth data times : 0 <= px -> ready data times ->
  exists k x E, layout px textWidth data times = Done (k, mkScan x ((fun els => Some <$> pts px (X x) None els) <$> E))
    /\ Forall2 names (runs data) E
    /\ (forall t, t ∈ times -> x_at x t = Some (X x t))
    /\ layout_ok px textWidth data times (X x) ((fun els => pts px (X x) None els) <$> E)
    /\ forall X' ps, layout_ok px textWidth data times X' ps ->
         (forall t, t ∈ times -> X x t <= X' t) /\ Forall2 (Forall2 Z.le) ((fun els => pts px (X x) None els) <$> E) ps.
Proof.
  intros Hpx R. destruct (runs_named _ _ R) as [E HE]. destruct (links_Done _ _ R) as (k & Hk & K).
  unfold layout. rewrite Hk. cbn [mbind go_bind]. exists k. destruct times as [|t0 todo] eqn:Et.
  - assert (all_els data = []) as Hno.
    { destruct (all_els data) as [|e l] eqn:Ea; [done |]. destruct (rd_in _ _ R e) as [?%elem_of_nil _]; [rewrite Ea; left | done]. }
    assert (E = []) as ->.
    { destruct E as [|els E]; [done |]. inversion HE as [|r ? rs ? Hn _ Hr]; subst. symmetry in Hr.
      destruct r as [h lin]. destruct (rd_runs _ _ R h lin) as [(Hne & _) Hall]; [rewrite Hr; left |].
      inversion Hn as [|id e ? els' [_ He] _ E1]; subst; cbn in *; [congruence |]. apply list_elem_of_lookup_2, Hall in He.
      rewrite Hno in He. by apply elem_of_nil in He. }
    inversion HE as [Hr|]. exists ∅, []. rewrite (lk_all _ _ _ K), <- Hr. cbn [fmap list_fmap base.length replicate].
    split; [done |]. split; [constructor |]. split; [by intros t ?%elem_of_nil |]. split.
    + split; [by intros t ?%elem_of_nil | by intros t t' ?%elem_of_nil | | rewrite <- Hr; constructor].
      rewrite Hno. by intros e ?%elem_of_nil.
    + intros X' ps [_ _ _ Hps]. split; [by intros t ?%elem_of_nil |]. rewrite <- Hr in Hps. inversion Hps. constructor.
  - destruct (scan_times_Done px textWidth data times k Hpx) with (E := E) (todo := todo) (cur := t0) (x := {[t0 := Some 0]} : gmap Z number)
      (lps := replicate (base.length (allLinearizations k)) ([] : list number)) (rest := byEnd px textWidth data)
      as (x & lps & cur & Hrun & Hsc & Hcur); rewrite ?Et; try done.
    + apply (rd_times _ _ R).
    + pose proof (rd_times _ _ R) as Hs. inversion Hs as [|? ? _ Hall]; subst. rewrite Forall_forall in Hall.
      intros t. rewrite elem_of_cons. split; [intros Ht; split; [by right | by apply Hall] | intros [[->|?] ?]; [lia | done]].
    + left.
    + intros t Ht. apply lookup_singleton_ne. lia.
    + rewrite <- Et in R |- *. by apply (scan_start px textWidth data times k R K E HE t0 todo).
    + rewrite Et in Hsc, Hcur. rewrite Hrun. cbn [mbind go_bind].
      pose proof (scanned_rows px textWidth data (t0 :: todo) R E HE _ _ _ _ Hcur Hsc) as ->. exists x, E.
      split; [done |]. split; [done |]. split; [intros t Ht; by apply (sc_x _ _ _ _ _ _ _ _ _ Hsc), Hcur |]. split.
      * by eapply scanned_layout.
      * intros X' ps Hlay. by eapply scanned_least.
Qed.
