(* ===== verification/RenderTheorems.v ===== *)
(** What the page shows: boxes with room for their texts, and linearization points, and
    the illegal next steps, inside the boxes of their operations. *)
From S2P Require Import Prelude Checker Visualization Render RenderLayout RenderScan.

(** C26: the layout is the least one.  For the data of any history in which operations
    take time and linearizations respect it, the script's left-to-right scan ends, no
    position is NaN, its positions satisfy all constraints (a gap between times, room for
    the text of each operation, every linearization point in the box of its operation and
    at a distance from the one before, room for the illegal next steps), and any other
    positions that satisfy them are nowhere further left: the comment's "we optimally
    solve the above". *)
Theorem layout_least px textWidth json data times :
  0 <= px -> data_ok json -> prepare json = (data, times) ->
  exists k x X ps, layout px textWidth data times = Done (k, mkScan x ((fun p : list Z => Some <$> p) <$> ps))
    /\ (forall t, t ∈ times -> x_at x t = Some (X t))
    /\ layout_ok px textWidth data times X ps
    /\ forall X' ps', layout_ok px textWidth data times X' ps' ->
         (forall t, t ∈ times -> X t <= X' t) /\ Forall2 (Forall2 Z.le) ps ps'.
Proof.
  intros Hpx Hok Hprep. destruct (layout_Done px textWidth data times Hpx (prepare_ready _ _ _ Hok Hprep))
    as (k & x & E & Hrun & _ & Hx & Hlay & Hleast).
  exists k, x, (X x), ((fun els => pts px (X x) None els) <$> E). rewrite <- list_fmap_compose. split; [exact Hrun | done].
Qed.

(** Two overlapping operations, and the linearization that takes them in their order. *)
Definition two_operations : list partitionVisualizationData :=
  [mkPartitionData [mkHistoryElement 0 0 5 "put"; mkHistoryElement 1 5 9 "get"]
     [[mkLinearizationStep 0 "a"; mkLinearizationStep 1 "a"]] ∅].
Definition three_wide (s : string) : Z := 3 * Z.of_nat (String.length s).

Lemma two_operations_ok : data_ok two_operations.
Proof.
  split.
  - intros h [->|[->|[]%elem_of_nil]%elem_of_cons]%elem_of_cons; cbn; lia.
  - intros p lin ->%list_elem_of_singleton ->%list_elem_of_singleton. split; [done |].
    split; [apply (bool_decide_unpack _); vm_compute; exact I |]. intros [|[|k]] id [= <-]; (split; [cbn; lia |]).
    all: eexists; (split; [reflexivity |]); intros [|[|j]] h' [= <-] _; cbn; lia.
Qed.

(** The first box ends where its text does; the second starts behind it and has room for
    its point, since the end of the first is moved behind the start of the second. *)
Lemma layout_least_witness :
  (exists k x X ps, layout 1 three_wide (prepare two_operations).1 (prepare two_operations).2
      = Done (k, mkScan x ((fun p : list Z => Some <$> p) <$> ps))
    /\ (forall t, t ∈ (prepare two_operations).2 -> x_at x t = Some (X t))
    /\ layout_ok 1 three_wide (prepare two_operations).1 (prepare two_operations).2 X ps
    /\ forall X' ps', layout_ok 1 three_wide (prepare two_operations).1 (prepare two_operations).2 X' ps' ->
         (forall t, t ∈ (prepare two_operations).2 -> X t <= X' t) /\ Forall2 (Forall2 Z.le) ps ps')
  /\ (prepare two_operations).2 = [0; 10; 14; 18]
  /\ (ks ← layout 1 three_wide (prepare two_operations).1 (prepare two_operations).2;
      mret ((fun t => x_at (xPos ks.2) t) <$> [0; 10; 14; 18], linearizationPositions ks.2))
     = Done ([Some 0; Some 20; Some 40; Some 60], [[Some 0; Some 20]]).
Proof.
  split; [|split; vm_compute; reflexivity].
  apply (layout_least 1 three_wide two_operations); [lia | exact two_operations_ok | reflexivity].
Defined.

(** ** Drawing *)

Section drawing.
Context (px : Z) (textWidth : string -> Z) (x : gmap Z number).
Implicit Types (e : el) (els h : list el) (lin : partialLinearization) (lines : list line).

Definition left_edge : Z := PADDING px + XOFF px.

Definition valid_points lines : list number :=
  l_x1 <$> filter (fun l => l_point l = true /\ l_invalid l = false) lines.
Definition invalid_points lines : list number :=
  l_x1 <$> filter (fun l => l_point l = true /\ l_invalid l = true) lines.

(** [prevX] is the point before. *)
Definition prev_at (p : prev) (q : option Z) : Prop :=
  match p, q with
  | None, None => True
  | Some (z, _, _), Some q => z = Some (left_edge + q)
  | _, _ => False
  end.

Definition next_x e (q : option Z) : Z :=
  match q with None => X x (el_Start e) | Some q => X x (el_Start e) `max` (q + EPSILON px) end.

Lemma point_x_at p q e : placed x (el_Start e) -> prev_at p q -> point_x px x p e = Some (left_edge + next_x e q).
Proof.
  intros Hpl Hp. unfold point_x. rewrite (Hpl : x_at x (el_Start e) = _). unfold left_edge, next_x.
  destruct p as [[[z y] e']|], q as [q|]; cbn in Hp; try done. subst z. cbn. f_equal. unfold left_edge, EPSILON. lia.
Qed.

Lemma draw_lin_Done h lin els : names (h, lin) els -> (forall e, e ∈ els -> placed x (el_Start e)) -> forall p q,
  prev_at p q -> exists lines p', draw_lin px x h lin p = Done (lines, p')
    /\ valid_points lines = (fun z => Some (left_edge + z)) <$> pts px (X x) q els /\ invalid_points lines = []
    /\ prev_at p' (match last (pts px (X x) q els) with None => q | Some z => Some z end).
Proof.
  unfold names. cbn. induction 1 as [|id e lin els [H0 He] _ IH]; intros Hpl p q Hp; cbn [draw_lin].
  { exists [], p. by destruct q. }
  rewrite (go_index_lookup _ _ _ H0 He). cbn [mbind go_bind].
  rewrite (point_x_at p q e); [|apply Hpl; left | done]. set (z := next_x e q).
  destruct (IH ltac:(intros; apply Hpl; by right) (Some (Some (left_edge + z), point_y px e, e)) (Some z) eq_refl)
    as (lines & p' & -> & Hv & Hi & Hp'). cbn [mbind go_bind]. eexists _, p'. split; [done |].
  set (from := match p with Some _ => _ | None => _ end).
  assert (valid_points from = [] /\ invalid_points from = []) as [Hfv Hfi] by (subst from; by destruct p as [[[? ?] ?]|]).
  cbn [pts]. fold (next_x e q). fold z. unfold valid_points, invalid_points in *.
  rewrite !filter_app, !fmap_app, Hfv, Hfi, !filter_cons. unfold line_at at 1 2. cbn [l_point l_invalid app].
  rewrite decide_True by done. rewrite decide_False by (by intros [_ ?]). cbn [fmap list_fmap]. rewrite Hv, Hi. split; [done |]. split; [done |].
  rewrite last_cons. by destruct (last (pts px (X x) (Some z) els)).
Qed.

Lemma draw_illegal_Done q prevY prevEl ies : (forall ie, ie ∈ ies -> placed x (el_Start ie.2)) ->
  exists lines, draw_illegal px x ies (Some (Some (left_edge + q), prevY, prevEl))
      = Done (lines, (fun ie => Some (left_edge + next_x ie.2 (Some q))) <$> ies)
    /\ invalid_points lines = (fun ie => Some (left_edge + next_x ie.2 (Some q))) <$> ies /\ valid_points lines = [].
Proof.
  induction ies as [|[i e] ies IH]; intros Hpl; cbn [draw_illegal]; [by exists [] |].
  destruct IH as (lines & -> & Hi & Hv); [intros; apply Hpl; by right |]. cbn [mbind go_bind].
  pose proof (Hpl (i, e) ltac:(left)) as He. cbn [snd] in He.
  rewrite (point_x_at _ (Some q) e) by done. eexists. split; [done |].
  unfold valid_points, invalid_points in *. rewrite !filter_cons. unfold line_from at 1 2, line_at at 1 2. cbn [l_point l_invalid].
  rewrite !(decide_False (P := false = true /\ _)) by (by intros [? _]).
  rewrite decide_True by done. rewrite decide_False by (by intros [_ ?]). cbn [fmap list_fmap]. by rewrite Hi, Hv.
Qed.

(** ** What is drawn for a layout *)

Definition in_box (z : number) (r : rect) : Prop :=
  exists a b w, z = Some a /\ r_x r = Some b /\ r_width r = Some w /\ b <= a <= b + w.

(** The lines of the linearization [lin]: a point per step, in the box of its operation
    and at a distance from the one before; a point per illegal next step, in the box of
    that operation and at a distance from the last one. *)
Record group_ok h (rects : list rect) lin lines : Prop := {
  gr_valid : Forall2 (fun id z => exists r, rects !! Z.to_nat (ls_Index id) = Some r /\ in_box z r) lin (valid_points lines);
  gr_spaced : forall m z z', valid_points lines !! m = Some (Some z) -> valid_points lines !! S m = Some (Some z') ->
    z + EPSILON px <= z';
  gr_invalid : Forall2 (fun ie z => exists r, rects !! Z.to_nat ie.1 = Some r /\ in_box z r
    /\ forall a b, last (valid_points lines) = Some (Some a) -> z = Some b -> a + EPSILON px <= b)
    (illegal_next h lin) (invalid_points lines) }.

(** The error points of the linearization [lin]: its points of illegal next steps, with
    its last operation. *)
Definition group_errors (partition k : Z) lin lines : list errorPoint :=
  (fun z => mkErrorPoint z partition (default 0 (ls_Index <$> last lin)) k) <$> invalid_points lines.
Fixpoint lins_errors (partition k : Z) (lins : list partialLinearization) (ls : list (list line)) : list errorPoint :=
  match lins, ls with
  | lin :: lins, lines :: ls => group_errors partition k lin lines ++ lins_errors partition (k + 1) lins ls
  | _, _ => []
  end.

Lemma elem_of_lins_errors partition lins ls : forall k0 ep, ep ∈ lins_errors partition k0 lins ls <->
  exists (k : nat) lin lines, lins !! k = Some lin /\ ls !! k = Some lines /\ ep ∈ group_errors partition (k0 + Z.of_nat k) lin lines.
Proof.
  revert ls; induction lins as [|lin lins IH]; intros [|lines ls] k0 ep; cbn [lins_errors]; try rewrite elem_of_nil.
  1-3: (split; [done | by intros ([|k] & ? & ? & ? & ? & _)]).
  rewrite elem_of_app, IH. split.
  - intros [Hep|(k & lin' & lines' & Hk & Hl & Hep)].
    + exists 0%nat, lin, lines. by rewrite Z.add_0_r.
    + exists (S k), lin', lines'. split; [done |]. split; [done |]. by replace (k0 + Z.of_nat (S k)) with (k0 + 1 + Z.of_nat k) by lia.
  - intros ([|k] & lin' & lines' & Hk & Hl & Hep).
    + injection Hk as <-. injection Hl as <-. left. by rewrite Z.add_0_r in Hep.
    + right. exists k, lin', lines'. split; [done |]. split; [done |]. by replace (k0 + 1 + Z.of_nat k) with (k0 + Z.of_nat (S k)) by lia.
Qed.

Lemma draw_el_at e : placed x (el_Start e) -> placed x (el_End e) ->
  r_x (draw_el px x e) = Some (left_edge + X x (el_Start e))
  /\ r_width (draw_el px x e) = Some (X x (el_End e) - X x (el_Start e)).
Proof.
  intros Hs He. unfold draw_el, placed in *. rewrite Hs, He. cbn. split; f_equal. unfold left_edge. lia.
Qed.

Lemma in_drawn_box e z : placed x (el_Start e) -> placed x (el_End e) -> X x (el_Start e) <= z <= X x (el_End e) ->
  in_box (Some (left_edge + z)) (draw_el px x e).
Proof.
  intros Hs He Hz. destruct (draw_el_at e Hs He) as [Hx Hw].
  exists (left_edge + z), (left_edge + X x (el_Start e)), (X x (el_End e) - X x (el_Start e)). split; [done |].
  split; [done |]. split; [done | lia].
Qed.

Lemma draw_one_Done partition h lin els d :
  names (h, lin) els -> lin <> [] ->
  (forall e, e ∈ h -> placed x (el_Start e) /\ placed x (el_End e) /\ X x (el_Start e) <= X x (el_End e)) ->
  points_fit px (X x) (h, lin) (pts px (X x) None els) ->
  exists d' lines, draw_one px x partition h lin d = Done d' /\ d_lines d' = d_lines d ++ [lines]
    /\ d_errors d' = d_errors d ++ group_errors partition (len (d_lines d)) lin lines
    /\ group_ok h (draw_el px x <$> h) lin lines.
Proof.
  intros Hn Hne Hpl Hfit. assert (forall e, e ∈ els -> e ∈ h) as Hin by (intros e He; by apply (names_elem (h, lin) els)).
  unfold draw_one. destruct (draw_lin_Done h lin els Hn (fun e He => proj1 (Hpl e (Hin e He))) None None I)
    as (lines & p' & -> & Hv & Hi & Hp'). cbn [mbind go_bind].
  destruct (last (pts px (X x) None els)) as [q|] eqn:Eq.
  2: { apply last_None in Eq. destruct els; [by inversion Hn; subst | done]. }
  destruct p' as [[[z prevY] prevEl]|]; [|done]. cbn in Hp'. subst z.
  destruct (draw_illegal_Done q prevY prevEl (illegal_next h lin)) as (lines' & -> & Hi' & Hv').
  { intros ie Hie. by apply Hpl, (illegal_in h lin). }
  cbn [mbind go_bind]. destruct (foldl _ _ _) as [largest lengths]. eexists _, (lines ++ lines').
  split; [done |]. split; [done |].
  assert (valid_points (lines ++ lines') = (fun z => Some (left_edge + z)) <$> pts px (X x) None els) as Hvv
    by (unfold valid_points in *; rewrite filter_app, fmap_app, Hv', app_nil_r; done).
  assert (invalid_points (lines ++ lines') = (fun ie => Some (left_edge + next_x ie.2 (Some q))) <$> illegal_next h lin) as Hii
    by (unfold invalid_points in *; rewrite filter_app, fmap_app, Hi; done).
  split; [unfold group_errors; by rewrite Hii |].
  split; rewrite ?Hvv, ?Hii.
  - apply Forall2_fmap_r, Forall2_same_length_lookup. split; [symmetry; exact (pf_length _ _ _ _ Hfit) |].
    intros m id z Hid Hz. destruct (Forall2_lookup_l _ _ _ _ _ Hn Hid) as (e & He & _ & Hhe). cbn in Hhe.
    exists (draw_el px x e). rewrite list_lookup_fmap, Hhe. split; [done |].
    destruct (Hpl e ltac:(by eapply list_elem_of_lookup_2)) as (? & ? & _).
    apply in_drawn_box; [done..|]. by apply (pf_box _ _ _ _ Hfit els m e z).
  - intros m z z' Hz Hz'. rewrite list_lookup_fmap in Hz, Hz'.
    apply fmap_Some in Hz as (a & Ha & [= ->]), Hz' as (b & Hb & [= ->]). pose proof (pf_next _ _ _ _ Hfit m a b Ha Hb). lia.
  - apply Forall2_fmap_r, Forall_Forall2_diag, Forall_forall. intros ie Hie.
    pose proof (pf_illegal _ _ _ _ Hfit ie q Hie Eq) as Hq. pose proof (illegal_in h lin ie Hie) as Hh.
    destruct (Hpl _ Hh) as (Hs & He & Hle).
    pose proof Hie as Hie'. apply list_elem_of_filter in Hie' as [_ (j & e & Hj & Hje)%elem_of_lookup_imap].
    exists (draw_el px x ie.2). split; [|split].
    + rewrite Hj. cbn. rewrite Nat2Z.id, list_lookup_fmap, Hje. done.
    + apply in_drawn_box; [done..|]. unfold next_x. lia.
    + intros a b Ha [= <-]. rewrite fmap_last, Eq in Ha. injection Ha as <-. unfold next_x. lia.
Qed.
End drawing.

(** ** The page *)

Section page.
Context (px : Z) (textWidth : string -> Z).

(** The box of an element: in the row of its client, wide enough for its text, and
    inside the page. *)
Record box_ok (pg : page) (e : el) (r : rect) : Prop := {
  bx_text : r_text r = el_Description e;
  bx_width : exists b w W, r_x r = Some b /\ r_width r = Some w /\ p_width pg = Some W
    /\ left_edge px <= b /\ textWidth (el_Description e) + 2 * BOX_TEXT_PADDING px <= w /\ b + w + PADDING px <= W;
  bx_row : r_y r = PADDING px + el_ClientId e * (BOX_HEIGHT px + BOX_SPACE px);
  bx_inside : 0 <= el_ClientId e -> PADDING px <= r_y r /\ r_y r + BOX_HEIGHT px + PADDING px <= p_height pg }.

(** A partition as it is drawn. *)
Definition part_ok (pg : page) (p : part) (rects : list rect) (d : drawn) : Prop :=
  Forall2 (box_ok pg) (pt_History p) rects
  /\ Forall2 (group_ok px (pt_History p) rects) (pt_PartialLinearizations p) (d_lines d).

Context (Hpx : 0 <= px).

Lemma draw_lins_Done x partition h lins :
  (forall lin, lin ∈ lins -> lin <> [] /\ exists els, names (h, lin) els /\ points_fit px (X x) (h, lin) (pts px (X x) None els)) ->
  (forall e, e ∈ h -> placed x (el_Start e) /\ placed x (el_End e) /\ X x (el_Start e) <= X x (el_End e)) ->
  forall d, exists d' ls, draw_lins px x partition h lins d = Done d' /\ d_lines d' = d_lines d ++ ls
    /\ d_errors d' = d_errors d ++ lins_errors partition (len (d_lines d)) lins ls
    /\ Forall2 (group_ok px h (draw_el px x <$> h)) lins ls.
Proof.
  intros Hl Hpl. induction lins as [|lin lins IH]; intros d; cbn [draw_lins].
  { exists d, []. by rewrite !app_nil_r. }
  destruct (Hl lin) as (Hne & els & Hn & Hfit); [left |].
  destruct (draw_one_Done px x partition h lin els d Hn Hne Hpl Hfit) as (d1 & lines & -> & Hd1 & He1 & Hg). cbn [mbind go_bind].
  destruct (IH ltac:(intros; apply Hl; by right) d1) as (d' & ls & -> & Hd' & He' & Hgs).
  exists d', (lines :: ls). split; [done |]. split; [by rewrite Hd', Hd1, <- app_assoc |]. split; [|by constructor].
  rewrite He', He1, Hd1, length_app, <- app_assoc. cbn [lins_errors base.length].
  by replace (Z.of_nat (base.length (d_lines d) + 1)) with (len (d_lines d) + 1) by lia.
Qed.

Lemma draw_parts_Done x data : (forall h lin, (h, lin) ∈ runs data ->
    lin <> [] /\ exists els, names (h, lin) els /\ points_fit px (X x) (h, lin) (pts px (X x) None els)) ->
  (forall e, e ∈ all_els data -> placed x (el_Start e) /\ placed x (el_End e) /\ X x (el_Start e) <= X x (el_End e)) ->
  forall partition, exists ds, draw_parts px x partition data = Done ds
    /\ Forall2 (fun p d => Forall2 (group_ok px (pt_History p) (draw_el px x <$> pt_History p)) (pt_PartialLinearizations p) (d_lines d)) data ds
    /\ forall i p d, data !! i = Some p -> ds !! i = Some d ->
         d_errors d = lins_errors (partition + Z.of_nat i) 0 (pt_PartialLinearizations p) (d_lines d).
Proof.
  induction data as [|p data IH]; intros Hr Hpl partition; cbn [draw_parts]; [by exists []; split; [|split] |].
  destruct (draw_lins_Done x partition (pt_History p) (pt_PartialLinearizations p)) with (d := mkDrawn [] [] [] ∅ ∅)
    as (d & ls & -> & Hd & He & Hg).
  - intros lin Hlin. apply Hr. unfold runs. rewrite bind_cons. apply elem_of_app. left. apply list_elem_of_fmap. eauto.
  - intros e He. apply Hpl. unfold all_els. rewrite bind_cons. apply elem_of_app. by left.
  - cbn [mbind go_bind]. destruct (IH ltac:(intros h lin Hin; apply Hr; unfold runs; rewrite bind_cons; apply elem_of_app; by right)
      ltac:(intros e Hin; apply Hpl; unfold all_els; rewrite bind_cons; apply elem_of_app; by right) (partition + 1)) as (ds & -> & Hds & Hes).
    cbn [mbind go_bind]. exists (d :: ds). split; [done |]. cbn in Hd, He. split; [constructor; [by rewrite Hd | done] |].
    intros [|i] p' d' Hp' Hd'.
    + injection Hp' as <-. injection Hd' as <-. by rewrite Z.add_0_r, Hd.
    + replace (partition + Z.of_nat (S i)) with (partition + 1 + Z.of_nat i) by lia. by apply Hes.
Qed.

Lemma maxClient_le data e : e ∈ all_els data -> el_ClientId e <= maxClient data.
Proof.
  unfold maxClient. generalize (-1). induction (all_els data) as [|a l IH]; intros m; [by intros ?%elem_of_nil |].
  cbn [foldl]. assert (forall l m, m <= foldl (fun m e => m `max` el_ClientId e) m l) as Hmono.
  { clear. induction l as [|a l IH]; intros m; cbn; [done |]. specialize (IH (m `max` el_ClientId a)). lia. }
  intros [->|He]%elem_of_cons; [|by apply IH]. specialize (Hmono l (m `max` el_ClientId a)). lia.
Qed.

Lemma last_max l t : StronglySorted Z.lt l -> t ∈ l -> exists t', last l = Some t' /\ t' ∈ l /\ t <= t'.
Proof.
  induction 1 as [|a l Hs IH Ha]; [by intros ?%elem_of_nil |]. rewrite last_cons. rewrite Forall_forall in Ha.
  destruct l as [|b l].
  - intros ->%list_elem_of_singleton. exists a. split; [done |]. split; [left | done].
  - intros [->|Ht]%elem_of_cons.
    + destruct (last (b :: l)) as [t'|] eqn:El; [|by apply last_None in El].
      assert (t' ∈ b :: l) as Hin by (rewrite last_lookup in El; by eapply list_elem_of_lookup_2).
      exists t'. split; [done |]. split; [by right |]. apply Ha in Hin. lia.
    + destruct (IH Ht) as (t' & -> & ? & ?). exists t'. split; [done |]. split; [by right | done].
Qed.

(** An error point of the page: a point at which an illegal next step of a
    linearization is drawn, with this linearization and its last operation. *)
Definition error_at (pg : page) (ep : errorPoint) : Prop :=
  exists (q k : nat) p d lin lines z id, p_data pg !! q = Some p /\ p_drawn pg !! q = Some d
    /\ pt_PartialLinearizations p !! k = Some lin /\ d_lines d !! k = Some lines
    /\ Some z ∈ invalid_points lines /\ last lin = Some id
    /\ ep = mkErrorPoint (Some z) (Z.of_nat q) (ls_Index id) (Z.of_nat k).

(** [a] has a position, and [b] has one that is not further left. *)
Definition left_of (a b : errorPoint) : Prop := exists x y, ep_x a = Some x /\ ep_x b = Some y /\ x <= y.

(** [errorPoints] are all of them, from left to right. *)
Record errors_ok (pg : page) : Prop := {
  eo_exact : forall ep, ep ∈ p_errorPoints pg <-> error_at pg ep;
  eo_sorted : StronglySorted left_of (p_errorPoints pg) }.

#[local] Instance errors_before_total : Total errors_before.
Proof. intros a b. unfold errors_before. destruct (ep_x a), (ep_x b); [lia | by left ..]. Qed.

Lemma errors_strongly_sorted l :
  Forall (fun ep => is_Some (ep_x ep)) l -> Sorted errors_before l -> StronglySorted left_of l.
Proof.
  intros Hall Hs. apply Sorted_StronglySorted.
  { intros a b c (x & y & Ha & Hb & H1) (y' & z & Hb' & Hc & H2). exists x, z. rewrite Hb in Hb'. injection Hb' as <-.
    split; [done |]. split; [done | lia]. }
  induction Hs as [|a l Hs IH Hd]; [constructor |]. apply Forall_cons in Hall as [[x Ha] Hall].
  constructor; [by apply IH |]. destruct Hd as [|b l Hab]; constructor.
  apply Forall_cons in Hall as [[y Hb] _]. unfold errors_before in Hab. rewrite Ha, Hb in Hab. by exists x, y.
Qed.

Lemma group_point x h lin lines z : group_ok px h (draw_el px x <$> h) lin lines -> z ∈ invalid_points lines -> exists a, z = Some a.
Proof.
  intros Hg [i Hi]%list_elem_of_lookup. destruct (Forall2_lookup_r _ _ _ _ _ (gr_invalid _ _ _ _ _ Hg) Hi)
    as (ie & _ & r & _ & (a & b & w & Hz & _) & _). by exists a.
Qed.

Lemma drawn_errors data ds x w hgt rects :
  Forall2 (fun p d => Forall2 (group_ok px (pt_History p) (draw_el px x <$> pt_History p)) (pt_PartialLinearizations p) (d_lines d)) data ds ->
  (forall p lin, p ∈ data -> lin ∈ pt_PartialLinearizations p -> lin <> []) ->
  (forall i p d, data !! i = Some p -> ds !! i = Some d -> d_errors d = lins_errors (Z.of_nat i) 0 (pt_PartialLinearizations p) (d_lines d)) ->
  errors_ok (mkPage data w hgt rects ds (merge_sort errors_before (ds ≫= d_errors))).
Proof.
  intros Hgr Hne Hes. set (pg := mkPage _ _ _ _ _ _).
  assert (forall ep, ep ∈ p_errorPoints pg <-> error_at pg ep) as Hexact.
  { intros ep. cbn [pg p_errorPoints]. rewrite merge_sort_Permutation, list_elem_of_bind. split.
    - intros (d & Hep & [q Hd]%list_elem_of_lookup). destruct (Forall2_lookup_r _ _ _ _ _ Hgr Hd) as (p & Hp & Hlins).
      rewrite (Hes q p d Hp Hd), elem_of_lins_errors in Hep. destruct Hep as (k & lin & lines & Hlin & Hlines & Hep).
      apply list_elem_of_fmap in Hep as (z & -> & Hz).
      destruct (group_point _ _ _ _ _ (Forall2_lookup_lr _ _ _ _ _ _ Hlins Hlin Hlines) Hz) as [a ->].
      destruct (last lin) as [id|] eqn:El.
      2: { apply last_None in El. by destruct (Hne p lin (list_elem_of_lookup_2 _ _ _ Hp) (list_elem_of_lookup_2 _ _ _ Hlin)). }
      exists q, k, p, d, lin, lines, a, id. cbn. by rewrite Z.add_0_l.
    - intros (q & k & p & d & lin & lines & z & id & Hp & Hd & Hlin & Hlines & Hz & El & ->). exists d.
      split; [|by eapply list_elem_of_lookup_2]. rewrite (Hes q p d Hp Hd). apply elem_of_lins_errors.
      exists k, lin, lines. split; [done |]. split; [done |]. unfold group_errors. rewrite El. cbn. rewrite Z.add_0_l.
      apply list_elem_of_fmap. by exists (Some z). }
  split; [exact Hexact |]. apply errors_strongly_sorted; [|apply Sorted_merge_sort; apply _].
  apply Forall_forall. intros ep (q & k & p & d & lin & lines & z & id & _ & _ & _ & _ & _ & _ & ->)%Hexact. by eexists.
Qed.

(** Everything is drawn in its place.  For the data of any history in which
    operations take time and linearizations respect it, [render] draws the page without
    an exception: every operation as a box in the row of its client that its text fits
    into and that lies within the page, every linearization as a point in the box of
    each of its operations, at least [EPSILON] to the right of the one before, and every
    possible next step that is illegal as a point in its box behind them; the error
    points are these last ones, by position. *)
Lemma render_shows json :
  data_ok json -> exists pg, render px textWidth json = Done pg /\ p_data pg = (prepare json).1
    /\ Forall3 (part_ok pg) (p_data pg) (p_rects pg) (p_drawn pg) /\ errors_ok pg.
Proof.
  intros Hok. unfold render. destruct (prepare json) as [data times] eqn:Hprep.
  pose proof (prepare_ready _ _ _ Hok Hprep) as R.
  destruct (layout_Done px textWidth data times Hpx R) as (k & x & E & -> & HE & Hx & Hlay & _). cbn [mbind go_bind xPos].
  assert (forall e, e ∈ all_els data -> placed x (el_Start e) /\ placed x (el_End e) /\ X x (el_Start e) <= X x (el_End e)) as Hpl.
  { intros e He. destruct (rd_in _ _ R e He) as (Hs & Hend & Hlt). split; [by apply Hx |]. split; [by apply Hx |].
    pose proof (lo_gap _ _ _ _ _ _ Hlay _ _ Hs Hend Hlt). unfold BOX_GAP in *. lia. }
  destruct (draw_parts_Done x data) with (partition := 0) as (ds & -> & Hds & Hes); [|done|].
  { intros h lin Hin. destruct (rd_runs _ _ R h lin Hin) as [(Hne & _) _]. split; [done |].
    apply list_elem_of_lookup in Hin as (i & Hi). destruct (Forall2_lookup_l _ _ _ _ _ HE Hi) as (els & Hels & Hn).
    exists els. split; [done |]. pose proof (lo_points _ _ _ _ _ _ Hlay) as Hps.
    destruct (Forall2_lookup_l _ _ _ _ _ Hps Hi) as (q & Hq & Hf). rewrite list_lookup_fmap, Hels in Hq. by injection Hq as <-. }
  cbn [mbind go_bind]. eexists. split; [done |]. split; [done |]. split; [|apply (drawn_errors _ _ x); [exact Hds | | exact Hes]].
  2: { intros p lin Hp Hlin. destruct (rd_runs _ _ R (pt_History p) lin) as [(Hne & _) _]; [|done].
       unfold runs. apply list_elem_of_bind. exists p. split; [|done]. apply list_elem_of_fmap. eauto. }
  cbn [p_data p_rects p_drawn].
  assert (forall p, p ∈ data -> forall e, e ∈ pt_History p -> e ∈ all_els data) as Hin.
  { intros p Hp e He. unfold all_els. apply list_elem_of_bind. eauto. }
  match goal with |- Forall3 (part_ok ?pg0) _ _ _ => set (pg := pg0) end.
  assert (forall e, e ∈ all_els data -> box_ok pg e (draw_el px x e)) as Hbox.
  { intros e He. destruct (Hpl e He) as (Hs & Hend & _). destruct (rd_in _ _ R e He) as (Hst & Hent & _).
    destruct (draw_el_at px x e Hs Hend) as [Hrx Hrw]. split; [done | | done |].
    - destruct (last_max times _ (rd_times _ _ R) Hent) as (t' & Hl & Ht' & Hle). cbn [p_width pg]. rewrite Hl, (Hx t' Ht').
      eexists _, _, _. split; [exact Hrx |]. split; [exact Hrw |]. split; [done |].
      pose proof (lo_zero _ _ _ _ _ _ Hlay _ Hst). pose proof (lo_text _ _ _ _ _ _ Hlay e He).
      assert (X x (el_End e) <= X x t').
      { destruct (decide (el_End e = t')) as [->|]; [done |].
        pose proof (lo_gap _ _ _ _ _ _ Hlay _ _ Hent Ht' ltac:(lia)). unfold BOX_GAP in *. lia. }
      unfold left_edge. repeat split; lia.
    - intros H0. pose proof (maxClient_le data e He). cbn [draw_el r_y p_height pg]. unfold nClient, BOX_HEIGHT, BOX_SPACE, PADDING in *. nia. }
  clearbody pg. clear -Hin Hds Hbox. induction Hds as [|p d data ds Hp _ IH]; constructor.
  - split; [|exact Hp]. apply Forall2_fmap_r, Forall_Forall2_diag, Forall_forall. intros e He. apply Hbox. by eapply Hin; [left |].
  - apply IH.
    + intros p' Hp' e He. unfold all_els. apply list_elem_of_bind. eauto.
    + intros e He. apply Hbox. unfold all_els in *. rewrite bind_cons. apply elem_of_app. by right.
Qed.
End page.
