(* ===== verification/RenderUI.v ===== *)
(** The interaction of the page that shows a history: what the handlers of the script in
    [src/porcupine/visualization.go] do with the mouse over an operation, a click on an
    operation, on the background or on the link to the first error. *)
From stdpp Require Import pretty.
From S2P Require Import Prelude Checker Visualization Render.

(** ** State *)

(** What a tooltip is for: partition and index of the element under the mouse,
    [selected], and [selectedIndex]. *)
Definition tooltip_key : Type := Z * Z * bool * Z * Z.
#[export] Instance tooltip_key_dec : EqDecision tooltip_key.
Proof. unfold tooltip_key. apply _. Defined.

(** The variables of the script and the part of the document that the handlers change: a
    layer has the class [hidden] or not, a rectangle of [historyRects] the class
    [selected] or not, the link the class [inactive] or not and the error point that its
    [onclick] goes to; the text of the tooltip, whether it is opaque, and [lastTooltip],
    where [None] is the array of nulls. *)
Record ui := mkUi {
  u_selected : bool; u_selectedIndex : Z * Z;
  u_historyLayers : list bool; u_partialLayers : list (list bool); u_historyRects : list (list bool);
  u_inactive : bool; u_target : option errorPoint;
  u_innerHTML : string; u_opaque : bool; u_lastTooltip : option tooltip_key }.
#[export] Instance eta_ui : Eta ui := fun s =>
  mkUi (u_selected s) (u_selectedIndex s) (u_historyLayers s) (u_partialLayers s) (u_historyRects s)
    (u_inactive s) (u_target s) (u_innerHTML s) (u_opaque s) (u_lastTooltip s).

Section ui.
Context (pg : page).

(** The document as [render] has drawn it. *)
Definition drawn_ui : ui :=
  mkUi false (-1, -1) ((fun _ => false) <$> p_rects pg)
    ((fun d => (fun _ => false) <$> d_lines d) <$> p_drawn pg) (map (map (fun _ => false)) (p_rects pg))
    false None "" false None.

(** ** Highlights *)

(** The linearization to show for an element; [None] is [null]. *)
Definition linearizationIndex (partition index : Z) : go (option Z) :=
  p ← go_index (p_data pg) partition;
  match pt_Largest p !! index with
  | Some k => mret (Some k)
  | None => d ← go_index (p_drawn pg) partition; mret (d_largestIllegal d !! index)
  end.

(** [errorPoints.find]: the first one whose group of lines is not hidden. *)
Fixpoint find_shown (layers : list (list bool)) (points : list errorPoint) : go (option errorPoint) :=
  match points with
  | [] => mret None
  | pt :: points =>
    row ← go_index layers (ep_partition pt);
    hidden ← go_index row (ep_lin pt);
    if negb hidden then mret (Some pt) else find_shown layers points
  end.

Definition updateJump (s : ui) : go ui :=
  point ← find_shown (u_partialLayers s) (p_errorPoints pg);
  mret match point with
       | Some pt => s <| u_inactive := false |> <| u_target := Some pt |>
       | None => s <| u_inactive := true |>
       end.

Definition highlight (partition index : Z) (s : ui) : go ui :=
  let layers := imap (fun i _ => negb (Z.of_nat i =? partition)) (u_historyLayers s) in
  let hidden := map (map (fun _ => true)) (u_partialLayers s) in
  maxIndex ← linearizationIndex partition index;
  hidden ← match maxIndex with
           | Some k => row ← go_index hidden partition; row ← go_update row k false; go_update hidden partition row
           | None => mret hidden
           end;
  updateJump (s <| u_historyLayers := layers |> <| u_partialLayers := hidden |>).

Definition resetHighlight (s : ui) : go ui :=
  updateJump (s <| u_historyLayers := (fun _ => false) <$> u_historyLayers s |>
                <| u_partialLayers := map (imap (fun i _ => negb (i =? 0)%nat)) (u_partialLayers s) |>).

(** ** Selection *)

(** Adds the class [selected] to a rectangle, or removes it. *)
Definition mark (b : bool) (partition index : Z) (s : ui) : go ui :=
  row ← go_index (u_historyRects s) partition;
  row ← go_update row index b;
  rects ← go_update (u_historyRects s) partition row;
  mret (s <| u_historyRects := rects |>).

Definition select (partition index : Z) (s : ui) : go ui :=
  let s := s <| u_selected := true |> <| u_selectedIndex := (partition, index) |> in
  s ← highlight partition index s;
  mark true partition index s.

Definition deselect (s : ui) : go ui :=
  if negb (u_selected s) then mret s
  else
    s ← resetHighlight (s <| u_selected := false |>);
    mark false (u_selectedIndex s).1 (u_selectedIndex s).2 s.

(** ** The tooltip *)

(** The loop over a linearization: the step of the element with the one before it. *)
Fixpoint find_step (index : Z) (prev : option linearizationStep) (lin : partialLinearization)
    : option (option linearizationStep * linearizationStep) :=
  match lin with
  | [] => None
  | curr :: lin => if ls_Index curr =? index then Some (prev, curr) else find_step index (Some curr) lin
  end.

(** A time as it is printed. *)
Definition print_time (t : Z) : string := pretty (t `div` 2).

Definition times_text (e : el) : string :=
  "<br><br>Call: " +:+ print_time (el_Start e) +:+ "<br><br>Return: " +:+ print_time (default 0 (el_OriginalEnd e)).

Definition tooltip_text (key : tooltip_key) : go string :=
  let '(partition, index, selected, sPartition, sIndex) := key in
  maxIndex ← (if negb selected then linearizationIndex partition index else linearizationIndex sPartition sIndex);
  if selected && negb (sPartition =? partition) then mret "Not part of selected partition."
  else match maxIndex with
  | None =>
    mret (if negb selected then "Not part of any partial linearization."
          else "Selected element is not part of any partial linearization.")
  | Some k =>
    p ← go_index (p_data pg) partition;
    lin ← go_index (pt_PartialLinearizations p) k;
    e ← go_index (pt_History p) index;
    match find_step index None lin with
    | Some (prev, curr) =>
      let msg := match prev with
                 | Some prev => "<strong>Previous state:</strong><br>" +:+ ls_StateDescription prev +:+ "<br><br>"
                 | None => "" end in
      mret (msg +:+ "<strong>New state:</strong><br>" +:+ ls_StateDescription curr +:+ times_text e)
    | None =>
      d ← go_index (p_drawn pg) partition;
      illegalLast ← go_index (d_illegalLast d) k;
      if decide (index ∈ illegalLast) then
        last ← go_index lin (len lin - 1);
        mret ("<strong>Previous state:</strong><br>" +:+ ls_StateDescription last +:+
              "<br><br><strong>New state:</strong><br>&langle;invalid op&rangle;" +:+ times_text e)
      else mret "Not part of selected element's partial linearization."
    end
  end.

(** ** Handlers *)

Definition handleMouseOver (partition index : Z) (s : ui) : go ui :=
  s ← (if negb (u_selected s) then highlight partition index s else mret s);
  mret (s <| u_opaque := true |>).

Definition handleMouseMove (partition index : Z) (s : ui) : go ui :=
  let '(sPartition, sIndex) := u_selectedIndex s in
  let thisTooltip := (partition, index, u_selected s, sPartition, sIndex) in
  if decide (u_lastTooltip s = Some thisTooltip) then mret s
  else
    msg ← tooltip_text thisTooltip;
    mret (s <| u_innerHTML := msg |> <| u_lastTooltip := Some thisTooltip |>).

Definition handleMouseOut (s : ui) : go ui :=
  s ← (if negb (u_selected s) then resetHighlight s else mret s);
  mret (s <| u_opaque := false |> <| u_lastTooltip := None |>).

Definition handleClick (partition index : Z) (s : ui) : go ui :=
  if u_selected s then
    let '(sPartition, sIndex) := u_selectedIndex s in
    if (partition =? sPartition) && (index =? sIndex) then deselect s
    else s ← mark false sPartition sIndex s; select partition index s
  else select partition index s.

Definition handleBgClick (s : ui) : go ui := deselect s.

(** The [onclick] of the link, without the scrolling. *)
Definition jump (s : ui) : go ui :=
  match u_target s with
  | Some point => if negb (u_selected s) then select (ep_partition point) (ep_index point) s else mret s
  | None => mret s
  end.

(** ** Events *)

Inductive event :=
| MouseOver (partition index : Z) | MouseMove (partition index : Z) | MouseOut
| Click (partition index : Z) | BgClick | JumpClick.

(** A link of the class [inactive] is not displayed, so that it cannot be clicked. *)
Definition dispatch (ev : event) (s : ui) : go ui :=
  match ev with
  | MouseOver p i => handleMouseOver p i s
  | MouseMove p i => handleMouseMove p i s
  | MouseOut => handleMouseOut s
  | Click p i => handleClick p i s
  | BgClick => handleBgClick s
  | JumpClick => if u_inactive s then mret s else jump s
  end.

Fixpoint dispatch_all (evs : list event) (s : ui) : go ui :=
  match evs with
  | [] => mret s
  | ev :: evs => s ← dispatch ev s; dispatch_all evs s
  end.

(** The page after the events [evs]. *)
Definition interact (evs : list event) : go ui := s ← handleMouseOut drawn_ui; dispatch_all evs s.
End ui.
