(* ===== verification/RenderUITheorems.v ===== *)
(** The interaction refines a two-variable machine: the selected element and the one that
    is highlighted determine everything that the page shows. *)
From S2P Require Import Prelude Checker Visualization Render RenderLayout RenderTheorems RenderUI.

(** ** Grids: what is shown for each item of a list of lists *)

Section grid.
Context {A : Type}.
Implicit Types (l : list (list A)) (f g : nat -> nat -> bool).

Definition grid f l : list (list bool) := imap (fun q row => imap (fun j _ => f q j) row) l.

Lemma grid_lookup f l q row : l !! q = Some row -> grid f l !! q = Some (imap (fun j _ => f q j) row).
Proof. intros Hq. unfold grid. by rewrite list_lookup_imap, Hq. Qed.

Lemma grid_ext f g l :
  (forall q j row a, l !! q = Some row -> row !! j = Some a -> f q j = g q j) -> grid f l = grid g l.
Proof.
  intros Hfg. apply list_eq. intros q. unfold grid. rewrite !list_lookup_imap.
  destruct (l !! q) as [row|] eqn:Eq; [|done]. cbn. f_equal. apply list_eq. intros j. rewrite !list_lookup_imap.
  destruct (row !! j) as [a|] eqn:Ej; [|done]. cbn. f_equal. by eapply Hfg.
Qed.

Lemma grid_map (h : nat -> bool -> bool) f l :
  map (imap h) (grid f l) = grid (fun q j => h j (f q j)) l.
Proof.
  apply list_eq. intros q. change (map (imap h)) with (fmap (M := list) (imap h)). unfold grid.
  rewrite list_lookup_fmap, !list_lookup_imap. destruct (l !! q) as [row|]; [|done]. cbn. f_equal.
  apply list_eq. intros j. rewrite !list_lookup_imap. by destruct (row !! j).
Qed.

Lemma imap_const {B} (b : bool) (row : list B) : map (fun _ => b) row = imap (fun _ _ => b) row.
Proof.
  apply list_eq. intros j. change (map (fun _ : B => b)) with (fmap (M := list) (fun _ : B => b)).
  rewrite list_lookup_imap, list_lookup_fmap. by destruct (row !! j).
Qed.

Lemma grid_const b l : map (map (fun _ => b)) l = grid (fun _ _ => b) l.
Proof.
  apply list_eq. intros q. change (map (map (fun _ : A => b))) with (fmap (M := list) (map (fun _ : A => b))).
  unfold grid. rewrite list_lookup_imap, list_lookup_fmap. destruct (l !! q) as [row|]; [|done]. cbn.
  by rewrite imap_const.
Qed.

Lemma grid_fill (b : bool) f l : map (map (fun _ => b)) (grid f l) = grid (fun _ _ => b) l.
Proof.
  rewrite <- (grid_map (fun _ _ => b) f l). apply map_ext. intros row. apply imap_const.
Qed.

(** An assignment to one item. *)
Lemma grid_update f l p i row b :
  0 <= p -> l !! Z.to_nat p = Some row -> 0 <= i < len row ->
  (row ← go_index (grid f l) p; row ← go_update row i b; go_update (grid f l) p row)
  = Done (grid (fun q j => if decide (Z.of_nat q = p /\ Z.of_nat j = i) then b else f q j) l).
Proof.
  intros Hp Hl Hi. rewrite (go_index_lookup _ _ _ Hp (grid_lookup f l _ _ Hl)). cbn [mbind go_bind].
  rewrite go_update_Done by (rewrite length_imap; done). cbn [mbind go_bind].
  pose proof (lookup_lt_Some _ _ _ Hl) as Hlt.
  rewrite go_update_Done by (unfold grid; rewrite length_imap; lia). f_equal.
  apply list_eq. intros q. destruct (decide (q = Z.to_nat p)) as [->|Hne].
  - rewrite list_lookup_insert_eq by (unfold grid; rewrite length_imap; lia). rewrite (grid_lookup _ _ _ _ Hl). f_equal.
    apply list_eq. intros j. destruct (decide (j = Z.to_nat i)) as [->|Hj].
    + rewrite list_lookup_insert_eq by (rewrite length_imap; lia). rewrite list_lookup_imap.
      destruct (lookup_lt_is_Some_2 row (Z.to_nat i)) as [a ->]; [lia |]. cbn. rewrite decide_True by lia. done.
    + rewrite list_lookup_insert_ne, !list_lookup_imap by done. destruct (row !! j); [|done]. cbn.
      rewrite decide_False by lia. done.
  - rewrite list_lookup_insert_ne by done. unfold grid. rewrite !list_lookup_imap. destruct (l !! q); [|done]. cbn. f_equal.
    apply list_eq. intros j. rewrite !list_lookup_imap. destruct (_ !! j); [|done]. cbn. rewrite decide_False by lia. done.
Qed.
End grid.

(** ** What the page shows *)

Section views.
Context (pg : page).
Implicit Types (s : ui) (ep : errorPoint).

(** An element: partition and index. *)
Definition element : Type := Z * Z.
(** The selected and the highlighted element. *)
Definition view : Type := option element * option element.
Implicit Types (v : view) (sel focus : option element).

Definition on_page (e : element) : Prop :=
  0 <= e.1 /\ exists row, p_rects pg !! Z.to_nat e.1 = Some row /\ 0 <= e.2 < len row.

(** The linearization that is shown for an element: the longest one with it, otherwise
    one that it is an illegal next step of. *)
Definition lin_shown (e : element) : option Z :=
  p ← p_data pg !! Z.to_nat e.1;
  match pt_Largest p !! e.2 with
  | Some k => Some k
  | None => d ← p_drawn pg !! Z.to_nat e.1; d_largestIllegal d !! e.2
  end.

(** Without a highlight all partitions are shown, each with its first linearization;
    with one only the element's partition, with the element's linearization. *)
Definition layer_hidden focus (q : nat) : bool :=
  match focus with None => false | Some e => negb (Z.of_nat q =? e.1) end.
Definition lin_visible focus (q k : Z) : Prop :=
  match focus with None => k = 0 | Some e => q = e.1 /\ lin_shown e = Some k end.
#[export] Instance lin_visible_dec focus q k : Decision (lin_visible focus q k).
Proof. unfold lin_visible. destruct focus; apply _. Defined.

Definition layers_for focus : list bool := imap (fun q _ => layer_hidden focus q) (p_rects pg).
Definition lins_for focus : list (list bool) :=
  grid (fun q k => negb (bool_decide (lin_visible focus (Z.of_nat q) (Z.of_nat k)))) (d_lines <$> p_drawn pg).
Definition rects_for sel : list (list bool) :=
  grid (fun q j => bool_decide (sel = Some (Z.of_nat q, Z.of_nat j))) (p_rects pg).

(** The first error point of a linearization that is shown. *)
Definition target_for focus : option errorPoint :=
  snd <$> list_find (fun ep => lin_visible focus (ep_partition ep) (ep_lin ep)) (p_errorPoints pg).
Definition jump_ok focus s : Prop :=
  match target_for focus with
  | Some ep => u_inactive s = false /\ u_target s = Some ep
  | None => u_inactive s = true
  end.

(** The text of the tooltip is the one of its key. *)
Definition tooltip_fresh s : Prop :=
  forall key, u_lastTooltip s = Some key -> tooltip_text pg key = Done (u_innerHTML s).

(** The page shows the view [v]. *)
Record looks v s : Prop := {
  lk_selected : match v.1 with Some e => u_selected s = true /\ u_selectedIndex s = e | None => u_selected s = false end;
  lk_layers : u_historyLayers s = layers_for v.2;
  lk_lins : u_partialLayers s = lins_for v.2;
  lk_rects : u_historyRects s = rects_for v.1;
  lk_jump : jump_ok v.2 s;
  lk_tooltip : tooltip_fresh s }.

(** The abstract machine. *)
Definition view_step v (ev : event) : view :=
  match ev, v.1 with
  | MouseOver p i, None => (None, Some (p, i))
  | MouseOut, None => (None, None)
  | Click p i, Some e => if decide (e = (p, i)) then (None, None) else (Some (p, i), Some (p, i))
  | Click p i, None => (Some (p, i), Some (p, i))
  | BgClick, Some _ => (None, None)
  | JumpClick, None =>
    match target_for v.2 with
    | Some ep => let e := (ep_partition ep, ep_index ep) in (Some e, Some e)
    | None => v
    end
  | _, _ => v
  end.
Definition view_of (evs : list event) : view := foldl view_step (None, None) evs.

(** The mouse is only over elements of the page. *)
Definition event_on_page (ev : event) : Prop :=
  match ev with MouseOver p i | MouseMove p i | Click p i => on_page (p, i) | _ => True end.

(** ** Pages *)

Record lins_ok (p : part) (d : drawn) : Prop := {
  ls_lines : base.length (d_lines d) = base.length (pt_PartialLinearizations p);
  ls_illegal : base.length (d_illegalLast d) = base.length (pt_PartialLinearizations p);
  ls_largest x k : pt_Largest p !! x = Some k -> 0 <= k < len (pt_PartialLinearizations p);
  ls_largestIllegal x k : d_largestIllegal d !! x = Some k -> 0 <= k < len (pt_PartialLinearizations p);
  ls_nonempty : Forall (fun lin => lin <> []) (pt_PartialLinearizations p) }.

Definition error_ok ep : Prop :=
  0 <= ep_partition ep /\ 0 <= ep_lin ep /\ exists p lin, p_data pg !! Z.to_nat (ep_partition ep) = Some p
    /\ pt_PartialLinearizations p !! Z.to_nat (ep_lin ep) = Some lin /\ ep_index ep ∈ ls_Index <$> lin
    /\ 0 <= ep_index ep < len (pt_History p).

Record page_ok : Prop := {
  po_rects : Forall2 (fun p rects => base.length rects = base.length (pt_History p)) (p_data pg) (p_rects pg);
  po_lins : Forall2 lins_ok (p_data pg) (p_drawn pg);
  po_errors : Forall error_ok (p_errorPoints pg) }.

Context (Hpg : page_ok).

Lemma page_element e : on_page e -> exists p d row, p_data pg !! Z.to_nat e.1 = Some p
  /\ p_drawn pg !! Z.to_nat e.1 = Some d /\ p_rects pg !! Z.to_nat e.1 = Some row /\ lins_ok p d
  /\ len row = len (pt_History p) /\ 0 <= e.2 < len (pt_History p).
Proof.
  intros (H0 & row & Hrow & Hi). destruct (Forall2_lookup_r _ _ _ _ _ (po_rects Hpg) Hrow) as (p & Hp & Hl).
  destruct (Forall2_lookup_l _ _ _ _ _ (po_lins Hpg) Hp) as (d & Hd & Hok). exists p, d, row. rewrite <- Hl. done.
Qed.

Lemma error_on_page ep : ep ∈ p_errorPoints pg -> on_page (ep_partition ep, ep_index ep).
Proof.
  intros Hep. pose proof (po_errors Hpg) as He. rewrite Forall_forall in He. destruct (He ep Hep) as (H1 & _ & p & lin & Hp & _ & _ & Hi).
  destruct (Forall2_lookup_l _ _ _ _ _ (po_rects Hpg) Hp) as (row & Hrow & Hl). split; [done |]. exists row. cbn. by rewrite Hl.
Qed.

Lemma linearizationIndex_ok e : on_page e -> linearizationIndex pg e.1 e.2 = Done (lin_shown e).
Proof.
  intros He. destruct (page_element e He) as (p & d & row & Hp & Hd & _). unfold linearizationIndex, lin_shown. destruct He as [H0 _].
  rewrite (go_index_lookup _ _ _ H0 Hp), Hp. cbn [mbind go_bind option_bind]. destruct (pt_Largest p !! e.2); [done |].
  rewrite (go_index_lookup _ _ _ H0 Hd), Hd. done.
Qed.

Lemma lin_shown_range e k : on_page e -> lin_shown e = Some k -> exists p d, p_data pg !! Z.to_nat e.1 = Some p
  /\ p_drawn pg !! Z.to_nat e.1 = Some d /\ 0 <= k < len (d_lines d) /\ lins_ok p d.
Proof.
  intros He. destruct (page_element e He) as (p & d & row & Hp & Hd & _ & Hok & _). unfold lin_shown. rewrite Hp, Hd.
  cbn [mbind option_bind]. intros Hk. exists p, d. rewrite (ls_lines _ _ Hok). split; [done |]. split; [done |]. split; [|done].
  destruct (pt_Largest p !! e.2) as [k'|] eqn:El; [injection Hk as <-; by eapply ls_largest | by eapply ls_largestIllegal].
Qed.

(** ** The handlers *)

(** What [highlight] and [resetHighlight] leave alone. *)
Definition rest s : bool * element * list (list bool) * string * option tooltip_key :=
  (u_selected s, u_selectedIndex s, u_historyRects s, u_innerHTML s, u_lastTooltip s).
(** The highlight [focus] is shown. *)
Definition focused focus s : Prop :=
  u_historyLayers s = layers_for focus /\ u_partialLayers s = lins_for focus.

Lemma find_shown_ok focus eps : Forall error_ok eps ->
  find_shown (lins_for focus) eps = Done (snd <$> list_find (fun ep => lin_visible focus (ep_partition ep) (ep_lin ep)) eps).
Proof.
  induction 1 as [|ep eps (H1 & H2 & p & lin & Hp & Hlin & _) _ IH]; [done |]. cbn [find_shown list_find].
  destruct (Forall2_lookup_l _ _ _ _ _ (po_lins Hpg) Hp) as (d & Hd & Hok).
  assert ((d_lines <$> p_drawn pg) !! Z.to_nat (ep_partition ep) = Some (d_lines d)) as Hrow by by rewrite list_lookup_fmap, Hd.
  rewrite (go_index_lookup (lins_for focus) _ _ H1 (grid_lookup _ _ _ _ Hrow)). cbn [mbind go_bind].
  destruct (lookup_lt_is_Some_2 (d_lines d) (Z.to_nat (ep_lin ep))) as [ls Hls].
  { rewrite (ls_lines _ _ Hok). by eapply lookup_lt_Some. }
  rewrite (go_index_lookup _ _ (negb (bool_decide (lin_visible focus (ep_partition ep) (ep_lin ep)))) H2).
  2: { rewrite list_lookup_imap, Hls. cbn. by rewrite !Z2Nat.id by done. }
  cbn [mbind go_bind]. rewrite negb_involutive. unfold decide. case_bool_decide as Hv.
  - by destruct (lin_visible_dec _ _ _).
  - destruct (lin_visible_dec _ _ _); [done |]. rewrite IH. by destruct (list_find _ eps) as [[]|].
Qed.

Lemma updateJump_ok focus s : focused focus s ->
  exists s', updateJump pg s = Done s' /\ rest s' = rest s /\ focused focus s' /\ jump_ok focus s'.
Proof.
  intros [Hl Hf]. unfold updateJump. rewrite Hf, find_shown_ok by apply (po_errors Hpg). cbn [mbind go_bind].
  eexists. split; [done |]. unfold jump_ok, target_for. by destruct (snd <$> _).
Qed.

Lemma highlight_ok f0 e s : on_page e -> focused f0 s ->
  exists s', highlight pg e.1 e.2 s = Done s' /\ rest s' = rest s /\ focused (Some e) s' /\ jump_ok (Some e) s'.
Proof.
  intros He [Hl Hf]. unfold highlight. rewrite (linearizationIndex_ok e He), Hl, Hf. cbn [mbind go_bind].
  unfold lins_for. rewrite grid_fill.
  assert (imap (fun i _ => negb (Z.of_nat i =? e.1)) (layers_for f0) = layers_for (Some e)) as ->.
  { apply list_eq. intros q. unfold layers_for. rewrite !list_lookup_imap. by destruct (_ !! q). }
  assert ((match lin_shown e with
           | Some k => row ← go_index (grid (fun _ _ => true) (d_lines <$> p_drawn pg)) e.1;
                       row ← go_update row k false;
                       go_update (grid (fun _ _ => true) (d_lines <$> p_drawn pg)) e.1 row
           | None => mret (grid (fun _ _ => true) (d_lines <$> p_drawn pg))
           end) = Done (lins_for (Some e))) as ->.
  { destruct (lin_shown e) as [k|] eqn:Ek.
    - destruct (lin_shown_range e k He Ek) as (p & d & _ & Hd & Hk & _). destruct He as [H0 _].
      rewrite (grid_update _ _ _ _ (d_lines d) false H0); [|by rewrite list_lookup_fmap, Hd | done]. f_equal.
      apply grid_ext. intros q j row a _ _.
      case_decide as Hd'; case_bool_decide as Hb; [done | | | done]; cbn in Hb; rewrite Ek in Hb.
      + destruct Hd' as [? ?]. destruct Hb. split; congruence.
      + destruct Hb as [? [= ?]]. destruct Hd'. split; congruence.
    - cbn. f_equal. apply grid_ext. intros q j row a _ _. case_bool_decide as Hb; [|done]. cbn in Hb. rewrite Ek in Hb.
      by destruct Hb. }
  cbn [mbind go_bind]. set (s1 := s <| u_historyLayers := _ |> <| u_partialLayers := _ |>).
  destruct (updateJump_ok (Some e) s1) as (s' & Hs & Hr & H); [done |]. by exists s'.
Qed.

(** Some highlight, or none as after the drawing. *)
Definition shaped s : Prop := exists h f,
  u_historyLayers s = imap (fun q _ => h q) (p_rects pg) /\ u_partialLayers s = grid f (d_lines <$> p_drawn pg).

Lemma focused_shaped focus s : focused focus s -> shaped s.
Proof. intros [Hl Hf]. by exists (layer_hidden focus), (fun q k => negb (bool_decide (lin_visible focus (Z.of_nat q) (Z.of_nat k)))). Qed.

Lemma drawn_shaped : shaped (drawn_ui pg).
Proof.
  exists (fun _ => false), (fun _ _ => false). split; cbn.
  - rewrite <- imap_const. done.
  - rewrite <- grid_const. change (map (map (fun _ : list line => false))) with (fmap (M := list) (map (fun _ : list line => false))).
    by rewrite <- list_fmap_compose.
Qed.

Lemma resetHighlight_ok s : shaped s ->
  exists s', resetHighlight pg s = Done s' /\ rest s' = rest s /\ focused None s' /\ jump_ok None s'.
Proof.
  intros (h & f & Hl & Hf). unfold resetHighlight. rewrite Hl, Hf, grid_map.
  set (s1 := s <| u_historyLayers := _ |> <| u_partialLayers := _ |>).
  destruct (updateJump_ok None s1) as (s' & Hs & Hr & H); [|by exists s'].
  split; cbn.
  - apply list_eq. intros q. unfold layers_for. rewrite list_lookup_fmap, !list_lookup_imap. by destruct (_ !! q).
  - apply grid_ext. intros q j row a _ _. cbn. f_equal. destruct (Nat.eqb_spec j 0), (bool_decide_reflect (Z.of_nat j = 0)); try done; lia.
Qed.

Lemma mark_ok b e sel sel' s : on_page e -> u_historyRects s = rects_for sel ->
  (forall q j, (if decide (q = e.1 /\ j = e.2) then b else bool_decide (sel = Some (q, j))) = bool_decide (sel' = Some (q, j))) ->
  mark b e.1 e.2 s = Done (s <| u_historyRects := rects_for sel' |>).
Proof.
  intros (H0 & row & Hrow & Hi) Hs Hsel. unfold mark. rewrite Hs.
  pose proof (grid_update (fun q j => bool_decide (sel = Some (Z.of_nat q, Z.of_nat j))) _ _ _ row b H0 Hrow Hi) as Hg.
  fold (rects_for sel) in Hg.
  apply go_bind_Done in Hg as (r1 & -> & Hg). cbn [mbind go_bind]. apply go_bind_Done in Hg as (r2 & -> & Hg).
  cbn [mbind go_bind]. rewrite Hg. cbn [mbind go_bind].
  rewrite (grid_ext _ (fun q j => bool_decide (sel' = Some (Z.of_nat q, Z.of_nat j)))); [done |].
  intros q j row' a _ _. apply Hsel.
Qed.

Lemma mark_add e s : on_page e -> u_historyRects s = rects_for None ->
  mark true e.1 e.2 s = Done (s <| u_historyRects := rects_for (Some e) |>).
Proof.
  intros He Hs. apply (mark_ok true e None); [done..|]. intros q j. destruct e as [p i]. cbn.
  rewrite (bool_decide_eq_false_2 (None = Some (q, j))) by done.
  case_decide as Hd; case_bool_decide as Hb; try done.
  - destruct Hd as [-> ->]. by destruct Hb.
  - injection Hb as -> ->. by destruct Hd.
Qed.

Lemma mark_remove e s : on_page e -> u_historyRects s = rects_for (Some e) ->
  mark false e.1 e.2 s = Done (s <| u_historyRects := rects_for None |>).
Proof.
  intros He Hs. apply (mark_ok false e (Some e)); [done..|]. intros q j. destruct e as [p i]. cbn.
  rewrite (bool_decide_eq_false_2 (None = Some (q, j))) by done.
  case_decide as Hd; [done |]. case_bool_decide as Hb; [|done]. injection Hb as -> ->. by destruct Hd.
Qed.

Lemma select_ok f0 e s : on_page e -> focused f0 s -> u_historyRects s = rects_for None -> tooltip_fresh s ->
  exists s', select pg e.1 e.2 s = Done s' /\ looks (Some e, Some e) s'.
Proof.
  intros He Hf0 Hr Ht. unfold select. set (s1 := s <| u_selected := true |> <| u_selectedIndex := _ |>).
  destruct (highlight_ok f0 e s1 He Hf0) as (s' & -> & Hrest & [Hl Hf] & Hj). cbn [mbind go_bind].
  unfold rest in Hrest. injection Hrest as Hsel Hix Hrects Hhtml Hlast. rewrite (mark_add e s' He) by (rewrite Hrects; exact Hr).
  eexists. split; [done |]. split; cbn; [by rewrite Hsel, Hix; destruct e | done.. |].
  intros key. cbn. rewrite Hlast, Hhtml. apply Ht.
Qed.

Lemma deselect_ok v e s : v.1 = Some e -> on_page e -> looks v s ->
  exists s', deselect pg s = Done s' /\ looks (None, None) s'.
Proof.
  intros Hve He Hv. pose proof (lk_selected _ _ Hv) as Hs. rewrite Hve in Hs. destruct Hs as [Hsel Hix].
  unfold deselect. rewrite Hsel. cbn [negb]. set (s1 := s <| u_selected := false |>).
  destruct (resetHighlight_ok s1) as (s' & -> & Hrest & [Hl Hf] & Hj); [by apply (focused_shaped v.2); split; apply Hv |]. cbn [mbind go_bind].
  unfold rest in Hrest. injection Hrest as Hsel' Hix' Hrects Hhtml Hlast. rewrite Hix'. cbn [u_selectedIndex s1]. change (u_selectedIndex s1) with (u_selectedIndex s).
  rewrite Hix, (mark_remove e s' He) by (rewrite Hrects; cbn; rewrite (lk_rects _ _ Hv), Hve; done).
  eexists. split; [done |]. split; cbn; [done.. |]. intros key. cbn. rewrite Hlast, Hhtml. apply Hv.
Qed.

(** Selected elements are elements of the page. *)
Definition view_ok v : Prop := match v.1 with Some e => on_page e | None => True end.

Lemma target_on_page focus ep : target_for focus = Some ep -> on_page (ep_partition ep, ep_index ep).
Proof.
  unfold target_for. destruct (list_find _ _) as [[i ep']|] eqn:Ef; [|done]. intros [= <-].
  apply list_find_Some in Ef as (Hi & _). by eapply error_on_page, list_elem_of_lookup_2.
Qed.

Lemma view_step_ok v ev : view_ok v -> event_on_page ev -> view_ok (view_step v ev).
Proof.
  unfold view_ok. destruct v as [sel focus], ev as [p i|p i| |p i| |]; cbn; intros Hv He; destruct sel as [e|]; try done.
  - by case_decide.
  - destruct (target_for focus) as [ep|] eqn:Et; [|done]. by eapply target_on_page.
Qed.

Lemma tooltip_total p i (selected : bool) (sel : element) : on_page (p, i) -> (selected = true -> on_page sel) ->
  exists msg, tooltip_text pg (p, i, selected, sel.1, sel.2) = Done msg.
Proof.
  intros He Hsel. unfold tooltip_text.
  assert (exists e : element, on_page e /\ (selected = true -> e = sel) /\ (selected = false -> e = (p, i))
    /\ (if negb selected then linearizationIndex pg p i else linearizationIndex pg sel.1 sel.2) = Done (lin_shown e))
    as (e & Hon & Hse & Hns & ->).
  { destruct selected; cbn [negb].
    - exists sel. split; [by apply Hsel |]. split; [done |]. split; [done |]. by apply linearizationIndex_ok, Hsel.
    - exists (p, i). split; [done |]. split; [done |]. split; [done |]. apply (linearizationIndex_ok _ He). }
  cbn [mbind go_bind]. destruct (selected && negb (sel.1 =? p)) eqn:Eother; [by eexists |].
  destruct (lin_shown e) as [k|] eqn:Ho; [|by eexists].
  destruct (lin_shown_range _ _ Hon Ho) as (pt & d & Hpt & Hd & Hk & Hok).
  assert (e.1 = p) as Hp.
  { destruct selected; [|by rewrite Hns]. rewrite Hse by done. cbn in Eother. by destruct (Z.eqb_spec sel.1 p). }
  rewrite Hp in Hpt, Hd. rewrite (ls_lines _ _ Hok) in Hk. destruct (page_element _ He) as (pt' & _ & _ & Hpt' & _ & _ & _ & _ & Hi).
  cbn [fst snd] in *. rewrite Hpt in Hpt'. injection Hpt' as <-. destruct He as [H0 _]. cbn [fst] in H0.
  rewrite (go_index_lookup _ _ _ H0 Hpt). cbn [mbind go_bind].
  destruct (go_index_total _ _ Hk) as (lin & -> & Hlin). cbn [mbind go_bind].
  destruct (go_index_total _ _ Hi) as (el & -> & _). cbn [mbind go_bind].
  destruct (find_step i None lin) as [[prev curr]|]; [by eexists |].
  rewrite (go_index_lookup _ _ _ H0 Hd). cbn [mbind go_bind]. rewrite <- (ls_illegal _ _ Hok) in Hk.
  destruct (go_index_total _ _ Hk) as (il & -> & _). cbn [mbind go_bind].
  case_decide; [|by eexists]. pose proof (ls_nonempty _ _ Hok) as Hne. rewrite Forall_forall in Hne.
  assert (lin <> []) as Hn by by eapply Hne, list_elem_of_lookup_2.
  destruct (go_index_total lin (len lin - 1)) as (last & -> & _); [destruct lin; [done | cbn [base.length]; lia] | by eexists].
Qed.

Lemma handleClick_ok v p i s : view_ok v -> on_page (p, i) -> looks v s ->
  exists s', handleClick pg p i s = Done s' /\ looks (view_step v (Click p i)) s'.
Proof.
  intros Hvo He Hv. unfold handleClick. destruct v as [sel focus]. unfold view_ok in Hvo. cbn [fst] in Hvo.
  pose proof (lk_selected _ _ Hv) as Hs. pose proof (lk_rects _ _ Hv) as Hr. cbn [fst] in Hs, Hr.
  destruct sel as [[sp si]|]; cbn [view_step fst].
  - destruct Hs as [-> ->]. destruct ((p =? sp) && (i =? si)) eqn:Eq.
    + apply andb_true_iff in Eq as [->%Z.eqb_eq ->%Z.eqb_eq]. rewrite decide_True by done.
      destruct (deselect_ok (Some (sp, si), focus) (sp, si) s eq_refl Hvo Hv) as (s' & Hd & Hl). by exists s'.
    + rewrite decide_False by (intros [= -> ->]; by rewrite !Z.eqb_refl in Eq).
      rewrite (mark_remove (sp, si) s Hvo Hr : mark false sp si s = _). cbn [mbind go_bind].
      set (s1 := s <| u_historyRects := _ |>).
      apply (select_ok focus (p, i) s1 He); [by split; apply Hv | done | apply Hv].
  - rewrite Hs. apply (select_ok focus (p, i) s He); [by split; apply Hv | done | apply Hv].
Qed.

Lemma dispatch_ok v ev s : view_ok v -> event_on_page ev -> looks v s ->
  exists s', dispatch pg ev s = Done s' /\ looks (view_step v ev) s'
    /\ forall p i, ev = MouseMove p i -> exists e : element, tooltip_text pg (p, i, bool_decide (is_Some v.1), e.1, e.2) = Done (u_innerHTML s')
         /\ (v.1 = Some e \/ v.1 = None).
Proof.
  intros Hvo He Hv. pose proof (lk_selected _ _ Hv) as Hs. destruct ev as [p i|p i| |p i| |]; cbn [dispatch event_on_page] in *.
  - unfold handleMouseOver. destruct v as [[e|] focus]; cbn [fst view_step] in *.
    + destruct Hs as [Hs Hi]. rewrite Hs. eexists. split; [done |]. split; [|done]. by destruct Hv; split.
    + rewrite Hs. cbn [negb]. destruct (highlight_ok focus (p, i) s He) as (s' & H' & Hrest & [Hl Hf] & Hj); [by split; apply Hv |].
      cbn [fst snd] in H'. rewrite H'. cbn [mbind go_bind]. unfold rest in Hrest. injection Hrest as Hsel Hix Hrects Hhtml Hlast.
      eexists. split; [done |]. split; [|done]. split; cbn; [by rewrite Hsel | done | done | rewrite Hrects; apply Hv | done |].
      intros key. cbn. rewrite Hlast, Hhtml. apply Hv.
  - assert (u_selected s = bool_decide (is_Some v.1) /\ (v.1 = Some (u_selectedIndex s) \/ v.1 = None)) as [Hsel Hix].
    { destruct (v.1) as [e|]; [destruct Hs as [-> ->]; by auto | rewrite Hs; by auto]. }
    assert (view_step v (MouseMove p i) = v) as -> by done. unfold handleMouseMove.
    rewrite (surjective_pairing (u_selectedIndex s)). rewrite Hsel. case_decide as Hlast.
    + exists s. split; [done |]. split; [done |]. intros p' i' [= <- <-]. exists (u_selectedIndex s).
      split; [by apply (lk_tooltip _ _ Hv) | exact Hix].
    + destruct (tooltip_total p i (bool_decide (is_Some v.1)) (u_selectedIndex s) He) as (msg & Hmsg).
      { intros [e Hve]%bool_decide_eq_true. unfold view_ok in Hvo. destruct Hix as [Hix|Hix]; rewrite Hix in *; done. }
      rewrite Hmsg. cbn [mbind go_bind]. eexists. split; [done |]. split.
      * destruct Hv; split; cbn; [done..|]. by intros key [= <-].
      * intros p' i' [= <- <-]. exists (u_selectedIndex s). split; [exact Hmsg | exact Hix].
  - unfold handleMouseOut. destruct v as [[e|] focus]; cbn [fst view_step] in *.
    + destruct Hs as [Hs Hi]. rewrite Hs. eexists. split; [done |]. split; [|done]. by destruct Hv; split.
    + rewrite Hs. cbn [negb]. destruct (resetHighlight_ok s) as (s' & H' & Hrest & [Hl Hf] & Hj); [by apply (focused_shaped focus); split; apply Hv |].
      rewrite H'. cbn [mbind go_bind]. unfold rest in Hrest. injection Hrest as Hsel Hix Hrects Hhtml Hlast.
      eexists. split; [done |]. split; [|done]. split; cbn; [by rewrite Hsel | done | done | rewrite Hrects; apply Hv | done | done].
  - destruct (handleClick_ok v p i s Hvo He Hv) as (s' & H' & Hl). by exists s'.
  - unfold handleBgClick. destruct v as [[e|] focus]; cbn [fst view_step] in *.
    + destruct (deselect_ok (Some e, focus) e s eq_refl Hvo Hv) as (s' & H' & Hl). by exists s'.
    + unfold deselect. rewrite Hs. by exists s.
  - pose proof (lk_jump _ _ Hv) as Hj. unfold jump_ok in Hj. destruct v as [[e|] focus]; cbn [fst snd view_step] in *.
    + exists s. split; [|done]. destruct (u_inactive s); [done |]. unfold jump. destruct Hs as [-> _]. by destruct (u_target s).
    + destruct (target_for focus) as [ep|] eqn:Et; [|rewrite Hj; by exists s]. destruct Hj as [-> Ht]. unfold jump. rewrite Ht, Hs. cbn [negb].
      destruct (select_ok focus _ s (target_on_page _ _ Et)) as (s' & H' & Hl); [by split; apply Hv | apply Hv.. |]. by exists s'.
Qed.

Lemma dispatch_all_ok evs : forall v s, view_ok v -> Forall event_on_page evs -> looks v s ->
  exists s', dispatch_all pg evs s = Done s' /\ looks (foldl view_step v evs) s' /\ view_ok (foldl view_step v evs).
Proof.
  induction evs as [|ev evs IH]; intros v s Hvo Hevs Hv; cbn [dispatch_all foldl]; [by exists s |].
  apply Forall_cons in Hevs as [Hev Hevs]. destruct (dispatch_ok v ev s Hvo Hev Hv) as (s1 & -> & Hl & _). cbn [mbind go_bind].
  apply IH; [by apply view_step_ok | done..].
Qed.

Lemma interact_ok evs : Forall event_on_page evs ->
  exists s, interact pg evs = Done s /\ looks (view_of evs) s /\ view_ok (view_of evs).
Proof.
  intros Hevs. unfold interact, handleMouseOut. cbn [drawn_ui u_selected negb].
  destruct (resetHighlight_ok (drawn_ui pg) drawn_shaped) as (s & -> & Hrest & [Hl Hf] & Hj). cbn [mbind go_bind].
  unfold rest in Hrest. injection Hrest as Hsel Hix Hrects Hhtml Hlast.
  apply dispatch_all_ok; [done | done |]. split; cbn; [done | done | done | | done | done]. rewrite Hrects. cbn. apply grid_const.
Qed.

Lemma dispatch_all_snoc evs ev s : dispatch_all pg (evs ++ [ev]) s = (s ← dispatch_all pg evs s; dispatch pg ev s).
Proof.
  revert s; induction evs as [|e evs IH]; intros s; cbn [dispatch_all app].
  - go_simpl. by destruct (dispatch pg ev s).
  - destruct (dispatch pg e s); cbn [mbind go_bind]; [apply IH | done..].
Qed.
End views.

(** ** The pages that [render] draws *)

(** What the checks put into [Largest]: for an operation the first of the longest
    linearizations with it. *)
Definition largest_first (pv : partitionVisualizationData) : Prop := forall x,
  match pv_Largest pv !! x with
  | None => forall lin, lin ∈ pv_PartialLinearizations pv -> x ∉ ls_Index <$> lin
  | Some k => exists (i : nat) lin, k = Z.of_nat i /\ pv_PartialLinearizations pv !! i = Some lin /\ x ∈ ls_Index <$> lin
      /\ forall (j : nat) lin', pv_PartialLinearizations pv !! j = Some lin' -> x ∈ ls_Index <$> lin' ->
           len lin' <= len lin /\ ((j < i)%nat -> len lin' < len lin)
  end.
(** The first linearization is a longest one. *)
Definition longest_first (pv : partitionVisualizationData) : Prop := forall j lin0 lin,
  pv_PartialLinearizations pv !! 0%nat = Some lin0 -> pv_PartialLinearizations pv !! j = Some lin -> len lin <= len lin0.

Definition same_lins (pv : partitionVisualizationData) (p : part) : Prop :=
  pt_PartialLinearizations p = pv_PartialLinearizations pv /\ pt_Largest p = pv_Largest pv
  /\ base.length (pt_History p) = base.length (pv_History pv).

Lemma label_same json : forall gid, Forall2 same_lins json (label gid json).
Proof.
  induction json as [|pv json IH]; intros gid; cbn [label]; [constructor |]. constructor; [|apply IH].
  split; [done |]. split; [done |]. cbn. generalize (pv_History pv). clear. intros h. revert gid.
  induction h as [|e h IH]; intros gid; cbn; [done |]. by rewrite IH.
Qed.

Lemma prepare_same json : Forall2 same_lins json (prepare json).1.
Proof.
  unfold prepare. cbn [fst]. apply Forall2_fmap_r. eapply Forall2_impl; [apply label_same |].
  intros pv p (H1 & H2 & H3). split; [done |]. split; [done |]. cbn. by rewrite length_fmap.
Qed.

(** What the drawing of one partition leaves behind. *)
Section drawn.
Context (px : Z) (x : gmap Z number) (partition : Z) (h : list el).

Definition lin_in (lin : partialLinearization) : Prop :=
  lin <> [] /\ forall id, id ∈ lin -> 0 <= ls_Index id < len h.

Record left_behind (lins : list partialLinearization) (d : drawn) : Prop := {
  lb_lines : base.length (d_lines d) = base.length lins;
  lb_illegal : base.length (d_illegalLast d) = base.length lins;
  lb_largest y k : d_largestIllegal d !! y = Some k -> 0 <= k < len lins;
  lb_errors ep : ep ∈ d_errors d -> ep_partition ep = partition /\ 0 <= ep_lin ep
    /\ exists lin, lins !! Z.to_nat (ep_lin ep) = Some lin /\ ep_index ep ∈ ls_Index <$> lin /\ 0 <= ep_index ep < len h }.

Lemma note_illegal_range linIndex length els (m : Z) : forall d : gmap Z Z * gmap Z Z,
  0 <= linIndex < m -> (forall y k, d.1 !! y = Some k -> 0 <= k < m) ->
  forall y k, (foldl (note_illegal linIndex length) d els).1 !! y = Some k -> 0 <= k < m.
Proof.
  induction els as [|i els IH]; intros d Hl Hd; cbn [foldl]; [exact Hd |]. apply IH; [done |].
  intros y k. unfold note_illegal. destruct (match d.2 !! i with None => true | Some l => l <? length end); [|apply Hd].
  cbn [fst]. destruct (decide (y = i)) as [->|]; [by rewrite lookup_insert_eq; intros [= <-] | rewrite lookup_insert_ne by done; apply Hd].
Qed.

Lemma draw_one_left lins lin d d' : left_behind lins d -> lin_in lin ->
  draw_one px x partition h lin d = Done d' -> left_behind (lins ++ [lin]) d'.
Proof.
  intros [Hl Hi Hg He] [Hne Hin] H. unfold draw_one in H. apply go_bind_Done in H as ([lines p] & _ & H).
  apply go_bind_Done in H as ([lines' xs] & _ & H). destruct (foldl _ _ _) as [largest lengths] eqn:Ef. injection H as <-.
  split; cbn [d_lines d_illegalLast d_largestIllegal d_errors]; rewrite ?length_app; cbn [base.length].
  - lia.
  - lia.
  - intros y k Hk. assert (largest = (largest, lengths).1) as Hlg by done. rewrite Hlg, <- Ef in Hk. revert Hk.
    apply note_illegal_range; [rewrite Hl; lia |]. cbn. intros y' k' Hk'. apply Hg in Hk'. lia.
  - intros ep [Hep|Hep]%elem_of_app.
    + destruct (He ep Hep) as (H1 & H2 & lin' & H3 & H4). split; [done |]. split; [done |]. exists lin'.
      split; [by apply lookup_app_l_Some | done].
    + apply list_elem_of_fmap in Hep as (x' & -> & _). cbn. split; [done |]. split; [lia |]. exists lin.
      split; [rewrite Hl, Nat2Z.id; by apply list_lookup_middle |].
      destruct (last lin) as [id|] eqn:Eid; [|by apply last_None in Eid]. cbn.
      assert (id ∈ lin) as Hid by (rewrite last_lookup in Eid; by eapply list_elem_of_lookup_2).
      split; [by apply list_elem_of_fmap_2 | by apply Hin].
Qed.

Lemma draw_lins_left todo : forall lins d d', left_behind lins d -> Forall lin_in todo ->
  draw_lins px x partition h todo d = Done d' -> left_behind (lins ++ todo) d'.
Proof.
  induction todo as [|lin todo IH]; intros lins d d' Hd Hall H; cbn [draw_lins] in H.
  - injection H as <-. by rewrite app_nil_r.
  - apply Forall_cons in Hall as [Hlin Hall]. apply go_bind_Done in H as (d1 & H1 & H).
    replace (lins ++ lin :: todo) with ((lins ++ [lin]) ++ todo) by by rewrite <- app_assoc.
    eapply IH; [by eapply draw_one_left | done..].
Qed.
End drawn.

Lemma draw_parts_left px x data : forall partition ds,
  Forall (fun p => Forall (lin_in (pt_History p)) (pt_PartialLinearizations p)) data ->
  draw_parts px x partition data = Done ds ->
  Forall2 (fun p d => exists q, left_behind q (pt_History p) (pt_PartialLinearizations p) d) data ds
  /\ forall i p d, data !! i = Some p -> ds !! i = Some d ->
       left_behind (partition + Z.of_nat i) (pt_History p) (pt_PartialLinearizations p) d.
Proof.
  induction data as [|p data IH]; intros partition ds Hall H; cbn [draw_parts] in H; [by injection H as <- |].
  apply Forall_cons in Hall as [Hp Hall]. apply go_bind_Done in H as (d & Hd & H). apply go_bind_Done in H as (ds' & Hds & [= <-]).
  apply (draw_lins_left px x partition (pt_History p) _ []) in Hd; [|split; cbn; [done | done | by intros ?? ?%lookup_empty_Some | by intros ? ?%elem_of_nil] | done].
  destruct (IH _ _ Hall Hds) as [Hf Hi]. split; [constructor; [by eexists | done] |].
  intros [|i] p' d' Hp' Hd'.
  - injection Hp' as <-. injection Hd' as <-. by rewrite Z.add_0_r.
  - replace (partition + Z.of_nat (S i)) with (partition + 1 + Z.of_nat i) by lia. by apply Hi.
Qed.

(** What [render] draws is a page for the handlers. *)
Lemma render_page_ok px textWidth json pg :
  data_ok json -> Forall largest_first json -> render px textWidth json = Done pg -> page_ok pg.
Proof.
  intros Hok Hlarge H. unfold render in H. pose proof (prepare_same json) as Hsame. destruct (prepare json) as [data times].
  cbn [fst] in Hsame. apply go_bind_Done in H as ([k s] & _ & H). apply go_bind_Done in H as (ds & Hds & [= <-]).
  assert (Forall (fun p => Forall (lin_in (pt_History p)) (pt_PartialLinearizations p)) data) as Hlins.
  { apply Forall_forall. intros p [i Hi]%list_elem_of_lookup. destruct (Forall2_lookup_r _ _ _ _ _ Hsame Hi) as (pv & Hpv & Hpl & _ & Hlen).
    apply list_elem_of_lookup_2 in Hpv. rewrite Hpl. apply Forall_forall. intros lin Hlin.
    destruct (proj2 Hok pv lin Hpv Hlin) as (Hne & _ & Hids). split; [done |]. intros id [m Hm]%list_elem_of_lookup.
    destruct (Hids m id Hm) as (H0 & e & He & _). apply lookup_lt_Some in He. rewrite Hlen. lia. }
  destruct (draw_parts_left px (xPos s) data 0 ds Hlins Hds) as [Hf Hi]. split; cbn [p_data p_rects p_drawn p_errorPoints].
  - apply Forall2_fmap_r, Forall_Forall2_diag, Forall_forall. intros p _. cbn. by rewrite length_fmap.
  - apply Forall2_same_length_lookup. split; [by eapply Forall2_length |]. intros i p d Hp Hd.
    pose proof (Hi i p d Hp Hd) as [H1 H2 H3 _]. destruct (Forall2_lookup_r _ _ _ _ _ Hsame Hp) as (pv & Hpv & Hpl & Hla & _).
    split; [done | done | | done |].
    + intros x k' Hx. rewrite Hla in Hx. rewrite Forall_forall in Hlarge. pose proof (Hlarge pv ltac:(by eapply list_elem_of_lookup_2) x) as Hx'.
      rewrite Hx in Hx'. destruct Hx' as (j & lin & -> & Hlin%lookup_lt_Some & _). rewrite Hpl.
      split; [lia |]. apply Nat2Z.inj_lt. exact Hlin.
    + eapply Forall_impl; [apply (Forall_lookup_1 _ _ _ _ Hlins Hp) |]. by intros lin [? _].
  - apply Forall_forall. intros ep Hep. rewrite merge_sort_Permutation in Hep. apply list_elem_of_bind in Hep as (d & Hep & Hd).
    apply list_elem_of_lookup in Hd as [i Hd]. destruct (Forall2_lookup_r _ _ _ _ _ Hf Hd) as (p & Hp & _).
    destruct (lb_errors _ _ _ _ (Hi i p d Hp Hd) ep Hep) as (Hpart & H0 & lin & Hlin & Hix & Hr).
    rewrite Z.add_0_l in Hpart. unfold error_ok. rewrite Hpart, Nat2Z.id. cbn [p_data]. split; [lia |]. split; [done |]. by exists p, lin.
Qed.

(** [render] draws the error points of the page, and groups with a point per illegal
    next step. *)
Lemma render_errors px textWidth json pg : 0 <= px -> data_ok json -> render px textWidth json = Done pg ->
  errors_ok pg /\ Forall3 (part_ok px textWidth pg) (p_data pg) (p_rects pg) (p_drawn pg).
Proof.
  intros Hpx Hok Hr. destruct (render_shows px textWidth Hpx json Hok) as (pg' & Hr' & _ & Hp & He).
  assert (pg' = pg) as -> by congruence. done.
Qed.

Lemma list_find_before {A} (R : relation A) P `{forall x, Decision (P x)} l i x :
  (forall a, a ∈ l -> R a a) -> StronglySorted R l -> list_find P l = Some (i, x) -> forall y, y ∈ l -> P y -> R x y.
Proof.
  intros Hrefl Hs. revert i Hrefl; induction Hs as [|a l Hs IH Ha]; intros i Hrefl Hf; [done |]. cbn in Hf.
  rewrite Forall_forall in Ha. destruct (decide (P a)) as [Hp|Hp].
  - injection Hf as <- <-. intros y [->|Hy]%elem_of_cons _; [apply Hrefl; left | by apply Ha].
  - apply fmap_Some in Hf as ([i' x'] & Hf & [= -> ->]). intros y [->|Hy]%elem_of_cons HPy; [done |].
    eapply IH; [intros b Hb; apply Hrefl; by right | done..].
Qed.

(** The target of the link is the leftmost error point that is shown. *)
Lemma target_leftmost pg focus ep : errors_ok pg -> target_for pg focus = Some ep ->
  forall ep', error_at pg ep' -> lin_visible pg focus (ep_partition ep') (ep_lin ep') -> left_of ep ep'.
Proof.
  intros [Hex Hs] Ht ep' Hep' Hv. unfold target_for in Ht. destruct (list_find _ _) as [[i ep0]|] eqn:Ef; [|done].
  injection Ht as ->. eapply (list_find_before left_of); [| exact Hs | exact Ef | by apply Hex | exact Hv].
  intros a (q & k & p & d & lin & lines & z & id & _ & _ & _ & _ & _ & _ & ->)%Hex. by exists z, z.
Qed.

(** A linearization has an error point exactly if it has an illegal next step. *)
Lemma error_of_group px textWidth pg (q k : nat) p lin :
  errors_ok pg -> Forall3 (part_ok px textWidth pg) (p_data pg) (p_rects pg) (p_drawn pg) ->
  p_data pg !! q = Some p -> pt_PartialLinearizations p !! k = Some lin -> lin <> [] ->
  illegal_next (pt_History p) lin <> [] <-> exists ep, error_at pg ep /\ ep_partition ep = Z.of_nat q /\ ep_lin ep = Z.of_nat k.
Proof.
  intros [Hex _] Hparts Hp Hlin Hne. destruct (Forall3_lookup_l _ _ _ _ _ _ Hparts Hp) as (rects & d & _ & Hd & _ & Hgr).
  destruct (Forall2_lookup_l _ _ _ _ _ Hgr Hlin) as (lines & Hlines & G). pose proof (gr_invalid _ _ _ _ _ G) as Hinv. split.
  - intros Hi. destruct (illegal_next (pt_History p) lin) as [|ie ies]; [done |].
    destruct (invalid_points lines) as [|z zs] eqn:E; [by inversion Hinv |].
    apply Forall2_cons in Hinv as [(r & _ & (a & b & w & -> & _) & _) _].
    destruct (last lin) as [id|] eqn:El; [|by apply last_None in El].
    exists (mkErrorPoint (Some a) (Z.of_nat q) (ls_Index id) (Z.of_nat k)). split; [|done].
    exists q, k, p, d, lin, lines, a, id. rewrite E. split_and!; try done. by left.
  - intros (ep & (q' & k' & p' & d' & lin' & lines' & z & id & Hp' & Hd' & Hlin' & Hlines' & Hz & _ & ->) & Hq & Hk) Hi.
    cbn in Hq, Hk. apply Nat2Z.inj in Hq as ->. apply Nat2Z.inj in Hk as ->. simplify_eq.
    rewrite Hi in Hinv. apply Forall2_nil_inv_l in Hinv. rewrite Hinv in Hz. by apply elem_of_nil in Hz.
Qed.

(** C27: the interaction refines a machine of two variables.  For the page of data in
    which every operation takes time, the linearizations name operations in an order
    that respects the times, and [Largest] is the first of the longest linearizations
    with an operation (what the checks record, [RenderChecker]); and whatever events on
    elements of the page arrive in whatever order: no handler throws, and what the page
    shows is determined by the selected and the highlighted element of [view_step].
    Only the selected rectangle is marked; with a highlight only its partition's layer
    and the one linearization chosen for it are not faded, without one all partitions
    with their first linearizations are; the link is there exactly if an error point is
    shown, and goes to the leftmost shown one ([errorPoints] are the points at which
    illegal next steps are drawn, sorted by position); and the tooltip under the mouse
    has, in spite of [lastTooltip], the text for the present selection. *)
Theorem interaction_refines px textWidth json pg evs :
  0 <= px -> data_ok json -> Forall largest_first json -> render px textWidth json = Done pg ->
  Forall (event_on_page pg) evs ->
  errors_ok pg
  /\ exists s, interact pg evs = Done s /\ looks pg (view_of pg evs) s
    /\ (forall ep, u_inactive s = false -> u_target s = Some ep -> forall ep', error_at pg ep' ->
          lin_visible pg (view_of pg evs).2 (ep_partition ep') (ep_lin ep') -> left_of ep ep')
    /\ forall p i, on_page pg (p, i) -> exists s' (e : element), interact pg (evs ++ [MouseMove p i]) = Done s'
         /\ tooltip_text pg (p, i, bool_decide (is_Some (view_of pg evs).1), e.1, e.2) = Done (u_innerHTML s')
         /\ ((view_of pg evs).1 = Some e \/ (view_of pg evs).1 = None).
Proof.
  intros Hpx Hok Hlarge Hr Hevs. pose proof (render_page_ok _ _ _ _ Hok Hlarge Hr) as Hpg.
  pose proof (render_errors _ _ _ _ Hpx Hok Hr) as [Herr _]. split; [exact Herr |].
  destruct (interact_ok pg Hpg evs Hevs) as (s & Hs & Hv & Hvo). exists s. split; [done |]. split; [done |]. split.
  { intros ep Hin Ht. pose proof (lk_jump _ _ _ Hv) as Hj. unfold jump_ok in Hj.
    destruct (target_for pg _) as [ep0|] eqn:Et; [|congruence]. destruct Hj as [_ Ht']. replace ep0 with ep in Et by congruence.
    intros ep' He'. by eapply target_leftmost. }
  intros p i Hpi. destruct (dispatch_ok pg Hpg _ (MouseMove p i) s Hvo Hpi Hv) as (s' & Hs' & _ & Ht).
  destruct (Ht p i eq_refl) as (e & Htext & He). exists s', e. split; [|done].
  unfold interact in *. apply go_bind_Done in Hs as (s0 & -> & Hs). cbn [mbind go_bind].
  by rewrite dispatch_all_snoc, Hs.
Qed.

(** The flag [hidden] of the lines of a linearization. *)
Definition lin_flag (s : ui) (q k : nat) : option bool := row ← u_partialLayers s !! q; row !! k.

Lemma lin_flag_shown pg v s q k : looks pg v s -> lin_flag s q k = Some false -> lin_visible pg v.2 (Z.of_nat q) (Z.of_nat k).
Proof.
  intros Hv. unfold lin_flag. rewrite (lk_lins _ _ _ Hv). unfold lins_for, grid. rewrite list_lookup_imap.
  destruct (_ !! q) as [row|]; [|done]. cbn. rewrite list_lookup_imap. destruct (row !! k); [|done]. cbn.
  intros [= Hd%negb_false_iff]. by apply bool_decide_eq_true in Hd.
Qed.

Lemma error_shown pg v s ep : page_ok pg -> looks pg v s -> ep ∈ p_errorPoints pg ->
  lin_visible pg v.2 (ep_partition ep) (ep_lin ep) -> lin_flag s (Z.to_nat (ep_partition ep)) (Z.to_nat (ep_lin ep)) = Some false.
Proof.
  intros Hpg Hv Hep Hvis. pose proof (po_errors _ Hpg) as He. rewrite Forall_forall in He.
  destruct (He ep Hep) as (H1 & H2 & p & lin & Hp & Hlin%lookup_lt_Some & _).
  destruct (Forall2_lookup_l _ _ _ _ _ (po_lins _ Hpg) Hp) as (d & Hd & Hok).
  assert (Z.to_nat (ep_lin ep) < base.length (d_lines d))%nat as Hlt by (rewrite (ls_lines _ _ Hok); exact Hlin).
  unfold lin_flag. rewrite (lk_lins _ _ _ Hv). unfold lins_for, grid. rewrite list_lookup_imap, list_lookup_fmap, Hd. cbn.
  rewrite list_lookup_imap. destruct (lookup_lt_is_Some_2 _ _ Hlt) as [l ->]. cbn. by rewrite !Z2Nat.id, bool_decide_eq_true_2.
Qed.

Lemma error_first_lin px textWidth json pg ep :
  data_ok json -> Forall largest_first json -> Forall longest_first json -> render px textWidth json = Done pg ->
  ep ∈ p_errorPoints pg -> ep_lin ep = 0 -> lin_shown pg (ep_partition ep, ep_index ep) = Some 0.
Proof.
  intros Hok Hlarge Hfirst Hr Hep H0. pose proof (render_page_ok _ _ _ _ Hok Hlarge Hr) as Hpg.
  pose proof (po_errors _ Hpg) as He. rewrite Forall_forall in He. rewrite Forall_forall in Hlarge. rewrite Forall_forall in Hfirst.
  destruct (He ep Hep) as (_ & _ & p & lin & Hp & Hlin & Hin & _).
  rewrite H0 in Hlin. unfold lin_shown. cbn [fst snd]. rewrite Hp. cbn [mbind option_bind].
  assert (p_data pg = (prepare json).1) as Hdata.
  { unfold render in Hr. destruct (prepare json) as [data times]. apply go_bind_Done in Hr as ([k s] & _ & Hr).
    by apply go_bind_Done in Hr as (ds & _ & [= <-]). }
  rewrite Hdata in Hp. destruct (Forall2_lookup_r _ _ _ _ _ (prepare_same json) Hp) as (pv & Hpv%list_elem_of_lookup_2 & Hpl & -> & _).
  rewrite Hpl in Hlin. pose proof (Hlarge pv Hpv (ep_index ep)) as Hx. destruct (pv_Largest pv !! ep_index ep) as [k|].
  - destruct Hx as (i & lin' & -> & Hi & _ & Hmax). destruct (Hmax _ _ Hlin Hin) as [_ Hlt].
    destruct (decide (i = 0%nat)) as [->|Hne]; [done |]. pose proof (Hfirst pv Hpv _ _ _ Hlin Hi). specialize (Hlt ltac:(lia)). lia.
  - by destruct (Hx lin (list_elem_of_lookup_2 _ _ _ Hlin)).
Qed.

(** The link of the page without a highlight: a first linearization has an illegal next
    step. *)
Lemma first_error_link px textWidth pg : page_ok pg -> errors_ok pg ->
  Forall3 (part_ok px textWidth pg) (p_data pg) (p_rects pg) (p_drawn pg) ->
  (exists p lin, p ∈ p_data pg /\ pt_PartialLinearizations p !! 0%nat = Some lin /\ illegal_next (pt_History p) lin <> [])
  <-> is_Some (target_for pg None).
Proof.
  intros Hpg Herr Hparts. assert (is_Some (target_for pg None) <-> exists ep, error_at pg ep /\ ep_lin ep = 0) as ->.
  { unfold target_for. destruct (list_find _ _) as [[i ep]|] eqn:Ef.
    - apply list_find_Some in Ef as (Hn%list_elem_of_lookup_2 & Hz & _). split; [|by eexists].
      intros _. exists ep. split; [by apply (eo_exact _ Herr) | exact Hz].
    - apply list_find_None in Ef. rewrite Forall_forall in Ef. split; [by intros [] |].
      intros (ep & Hep%(eo_exact _ Herr) & H0). by destruct (Ef ep Hep). }
  assert (forall (q : nat) p (k : nat) lin, p_data pg !! q = Some p -> pt_PartialLinearizations p !! k = Some lin -> lin <> []) as Hne.
  { intros q p k lin Hp Hlin. destruct (Forall2_lookup_l _ _ _ _ _ (po_lins _ Hpg) Hp) as (d & _ & Hok).
    by apply (Forall_lookup_1 _ _ _ _ (ls_nonempty _ _ Hok) Hlin). }
  split.
  - intros (p & lin & [q Hp]%list_elem_of_lookup & Hlin & Hi).
    apply (error_of_group _ _ _ _ _ _ _ Herr Hparts Hp Hlin (Hne _ _ _ _ Hp Hlin)) in Hi as (ep & Hep & _ & Hl). by exists ep.
  - intros (ep & Hep & Hl). pose proof Hep as (q & k & p & d & lin & lines & z & id & Hp & _ & Hlin & _ & _ & _ & ->).
    cbn in Hl. assert (k = 0%nat) as -> by lia. exists p, lin. split; [by eapply list_elem_of_lookup_2 |]. split; [done |].
    eapply (error_of_group _ _ _ _ _ _ _ Herr Hparts Hp Hlin (Hne _ _ _ _ Hp Hlin)). by eexists.
Qed.

(** C28: the link to the first error shows this error.  On the page, for data as in
    [interaction_refines] whose partitions have a longest linearization first, without a
    selection and a highlight, the link is there exactly if a first linearization has an
    illegal next step.  Its target is then a point at which such a step is drawn, of a
    first linearization, and no other one is further left.  A click selects the last
    operation of this linearization, and of all linearizations this one is then shown:
    the selection by this operation ("NOTE not index") cannot end at another
    linearization, since the first one is a longest one. *)
Theorem jump_shows_error px textWidth json pg evs :
  0 <= px -> data_ok json -> Forall largest_first json -> Forall longest_first json -> render px textWidth json = Done pg ->
  Forall (event_on_page pg) evs -> view_of pg evs = (None, None) ->
  exists s s', interact pg evs = Done s /\ interact pg (evs ++ [JumpClick]) = Done s'
    /\ (u_inactive s = false <-> exists p lin, p ∈ p_data pg /\ pt_PartialLinearizations p !! 0%nat = Some lin
                                  /\ illegal_next (pt_History p) lin <> [])
    /\ if u_inactive s then s' = s
       else exists ep, u_target s = Some ep /\ error_at pg ep /\ ep_lin ep = 0
         /\ (forall ep', error_at pg ep' -> ep_lin ep' = 0 -> left_of ep ep')
         /\ u_selected s' = true /\ u_selectedIndex s' = (ep_partition ep, ep_index ep)
         /\ forall q k, lin_flag s' q k = Some false <-> Z.of_nat q = ep_partition ep /\ Z.of_nat k = ep_lin ep.
Proof.
  intros Hpx Hok Hlarge Hfirst Hr Hevs Hview. pose proof (render_page_ok _ _ _ _ Hok Hlarge Hr) as Hpg.
  destruct (render_errors _ _ _ _ Hpx Hok Hr) as [Herr Hparts].
  destruct (interact_ok pg Hpg evs Hevs) as (s & Hs & Hv & Hvo). exists s.
  destruct (dispatch_ok pg Hpg _ JumpClick s Hvo I Hv) as (s' & Hs' & Hv' & _). exists s'. split; [done |].
  assert (interact pg (evs ++ [JumpClick]) = Done s') as Hi.
  { unfold interact in *. apply go_bind_Done in Hs as (s0 & -> & Hs). cbn [mbind go_bind]. by rewrite dispatch_all_snoc, Hs. }
  split; [exact Hi |]. rewrite Hview in Hv, Hv'. pose proof (lk_jump _ _ _ Hv) as Hj. unfold jump_ok in Hj.
  cbn [view_step fst snd] in Hj, Hv'. split.
  { rewrite (first_error_link _ _ _ Hpg Herr Hparts). by destruct (target_for pg None) as [ep|]; [destruct Hj as [-> _] | rewrite Hj]; split; try done; intros []. }
  destruct (target_for pg None) as [ep|] eqn:Et.
  - destruct Hj as [-> Ht]. exists ep. split; [done |]. pose proof (target_leftmost _ _ _ Herr Et) as Hmin.
    unfold target_for in Et. destruct (list_find _ _) as [[n ep']|] eqn:Ef; [|done]. injection Et as ->.
    apply list_find_Some in Ef as (Hn%list_elem_of_lookup_2 & Hz & _). cbn in Hz. split; [by apply (eo_exact _ Herr) |].
    split; [done |]. split; [intros ep' He' H0'; by apply Hmin |].
    destruct (lk_selected _ _ _ Hv') as [Hsel Hix]. split; [done |]. split; [done |].
    pose proof (error_first_lin _ _ _ _ _ Hok Hlarge Hfirst Hr Hn Hz) as Hlin. intros q k. split.
    + intros Hf. pose proof (lin_flag_shown _ _ _ _ _ Hv' Hf) as [Hq Hk]. split; [exact Hq |]. rewrite Hlin in Hk. injection Hk as <-. done.
    + intros [Hq Hk]. replace q with (Z.to_nat (ep_partition ep)) by lia. replace k with (Z.to_nat (ep_lin ep)) by lia.
      eapply error_shown; [exact Hpg | exact Hv' | done |]. cbn. by rewrite Hlin, Hz.
  - rewrite Hj. cbn [dispatch] in Hs'. rewrite Hj in Hs'. by injection Hs' as <-.
Qed.

(** ** A page with an error *)

(** A put, and a get that could only be an illegal next step. *)
Definition refused_get : list partitionVisualizationData :=
  [mkPartitionData [mkHistoryElement 0 0 5 "put"; mkHistoryElement 1 6 9 "get"]
     [[mkLinearizationStep 0 "a"]] {[0 := 0]}].
Definition blank : page := mkPage [] None 0 [] [] [].
Definition refused_page : page := match render 1 (fun _ => 10) refused_get with Done pg => pg | _ => blank end.

Lemma refused_get_ok : data_ok refused_get /\ Forall largest_first refused_get /\ Forall longest_first refused_get
  /\ render 1 (fun _ => 10) refused_get = Done refused_page.
Proof.
  split; [|split; [|split; [|reflexivity]]].
  - split.
    + intros h [->|[->|[]%elem_of_nil]%elem_of_cons]%elem_of_cons; cbn; lia.
    + intros p lin ->%list_elem_of_singleton ->%list_elem_of_singleton. split; [done |].
      split; [apply (bool_decide_unpack _); vm_compute; exact I |]. intros [|k] id [= <-]. split; [cbn; lia |].
      eexists. split; [reflexivity |]. intros [|[|j]] h' [= <-] _; cbn; lia.
  - constructor; [|constructor]. intros x. cbn [pv_Largest pv_PartialLinearizations].
    destruct (decide (x = 0)) as [->|Hne].
    + rewrite lookup_singleton_eq. exists 0%nat, [mkLinearizationStep 0 "a"]. split; [done |]. split; [done |].
      split; [left |]. intros [|j] lin' [= <-] _. lia.
    + rewrite lookup_singleton_ne by done. intros lin ->%list_elem_of_singleton ->%list_elem_of_singleton. by apply Hne.
  - constructor; [|constructor]. intros [|j] lin0 lin [= <-] [= <-]. lia.
Qed.

Lemma refused_element p i : p = 0 -> i = 0 \/ i = 1 -> on_page refused_page (p, i).
Proof. intros -> [-> | ->]; (split; [cbn; lia |]; eexists; split; [vm_compute; reflexivity | cbn; lia]). Qed.

(** The text of the tooltip, [inactive] of the link, and the marks of the rectangles. *)
Definition tooltip_after (evs : list event) : go (string * bool * list bool) :=
  s ← interact refused_page evs; mret (u_innerHTML s, u_inactive s, concat (u_historyRects s)).

Lemma interaction_refines_witness :
  (exists s, interact refused_page [MouseOver 0 1; Click 0 1; MouseOut] = Done s
    /\ looks refused_page (Some (0, 1), Some (0, 1)) s
    /\ forall p i, on_page refused_page (p, i) -> exists s' (e : element),
         interact refused_page ([MouseOver 0 1; Click 0 1; MouseOut] ++ [MouseMove p i]) = Done s'
         /\ tooltip_text refused_page (p, i, true, e.1, e.2) = Done (u_innerHTML s')
         /\ (Some (0, 1) = Some e \/ Some (0, 1) = @None element))
  /\ tooltip_after [MouseOver 0 1; MouseMove 0 1; Click 0 1; MouseOut; MouseOver 0 0; MouseMove 0 0] =
     Done ("<strong>New state:</strong><br>a<br><br>Call: 0<br><br>Return: 5", false, [false; true]).
Proof.
  destruct refused_get_ok as (Hok & Hl & _ & Hr). split; [|vm_compute; reflexivity].
  destruct (interaction_refines 1 (fun _ => 10) refused_get refused_page [MouseOver 0 1; Click 0 1; MouseOut])
    as (_ & s & Hs & Hv & _ & Ht); [lia | exact Hok | exact Hl | exact Hr | |].
  - repeat constructor; try (apply refused_element; auto).
  - exists s. split; [exact Hs |]. split; [exact Hv | exact Ht].
Defined.

(** The link at the start leads to the put, whose linearization the get cannot follow. *)
Lemma jump_shows_error_witness :
  (exists s s' ep, interact refused_page [MouseOver 0 1; MouseOut] = Done s
    /\ interact refused_page ([MouseOver 0 1; MouseOut] ++ [JumpClick]) = Done s'
    /\ u_inactive s = false /\ u_target s = Some ep /\ error_at refused_page ep /\ ep_lin ep = 0
    /\ u_selectedIndex s' = (ep_partition ep, ep_index ep))
  /\ (s ← interact refused_page [JumpClick]; mret (u_selectedIndex s)) = Done (0, 0).
Proof.
  destruct refused_get_ok as (Hok & Hl & Hf & Hr). split; [|vm_compute; reflexivity].
  destruct (jump_shows_error 1 (fun _ => 10) refused_get refused_page [MouseOver 0 1; MouseOut])
    as (s & s' & Hs & Hs' & Hin & Hj); [lia | exact Hok | exact Hl | exact Hf | exact Hr | | reflexivity |].
  - repeat constructor; try (apply refused_element; auto).
  - assert (u_inactive s = false) as Ha by (vm_compute in Hs; injection Hs as <-; reflexivity).
    rewrite Ha in Hj. destruct Hj as (ep & Ht & He & H0 & _ & _ & Hsel & _). exists s, s', ep.
    repeat (split; [assumption |]). exact Hsel.
Defined.
