(* ===== verification/RenderChecker.v ===== *)
(** The page of a check: what [CheckOperationsVerbose] records and
    [computeVisualizationData] shows is data that the script of the page can lay out. *)
From S2P Require Import Prelude Bitset Checker LinSpec CheckerList CheckerSearch CheckerOrder CheckerSound KvModel.
From S2P Require Import CheckerVerdict CheckerTheorems Visualization VisualizationTheorems.
From S2P Require Import Render RenderLayout RenderScan RenderTheorems RenderUI RenderUITheorems.

(** ** The recorded slices respect the order of the history *)

Section recorded.
Context {Inp Out St : Type} (model : Model Inp Out St) (equal : St -> St -> bool).

(** [l] is not empty and has every operation once; an operation of it was called before
    the return of every operation that is not before it in [l]. *)
Definition in_order (es : list (entry Inp Out)) (l : list Z) : Prop :=
  l <> [] /\ forall k x, l !! k = Some x -> (x ∉ take k l)
    /\ exists c, c ∈ es /\ e_kind c = false /\ e_id c = x
       /\ forall r, r ∈ es -> e_kind r = true -> e_id r ∉ take k l -> before es c r.

Section one.
Context (es : list (entry Inp Out)) (n : Z) (Hh : history_ok es n) (h0 : heap Inp Out) (L : list nat).
Context (Hops : Forall2 (fun a e => idof h0 a = e_id e /\ ops h0 a = call_of es e) L es).

Lemma ordered_in_order l : l <> [] -> ordered h0 L l -> in_order es l.
Proof.
  intros Hne Hl. split; [done |]. intros k x Hk. destruct (Hl k x Hk) as (p & HpL & Hp & Hid & Hnew & Hbef).
  split; [done |]. pose proof HpL as [i Hi]%list_elem_of_lookup.
  destruct (Forall2_lookup_l _ _ _ _ _ Hops Hi) as (c & Hc%list_elem_of_lookup_2 & Hidc & Hoc).
  assert (e_kind c = false) as Hkc.
  { destruct (e_kind c) eqn:Ek; [|done]. destruct Hp as [io Hio]. rewrite Hoc in Hio. unfold call_of in Hio. by rewrite Ek in Hio. }
  exists c. split; [done |]. split; [done |]. split; [congruence |]. intros r Hr Hkr Hnot.
  pose proof Hr as [j Hj]%list_elem_of_lookup.
  destruct (Forall2_lookup_r _ _ _ _ _ Hops Hj) as (m & Hm%list_elem_of_lookup_2 & Hidm & Hom).
  destruct (before_transfer _ _ _ _ _ Hops (Hbef m Hm ltac:(rewrite Hom; by apply (call_of_None es n Hh)) ltac:(congruence)))
    as (c' & r' & Hb & [Hidc' Hoc'] & [Hidr' Hor']).
  destruct (before_elem _ _ _ Hb) as [Hc' Hr'].
  assert (e_kind c' = false) as Hkc'.
  { destruct (e_kind c') eqn:Ek; [|done]. apply (call_of_None es n Hh c' Hc') in Ek. destruct Hp as [io Hp]. congruence. }
  assert (e_kind r' = true) as Hkr' by (apply (call_of_None es n Hh r' Hr'); rewrite <- Hor', Hom; by apply (call_of_None es n Hh)).
  assert (c' = c) as -> by (apply (same_event es n Hh); congruence).
  assert (r' = r) as -> by (apply (same_event es n Hh); congruence). done.
Qed.
End one.

Lemma checkSingle_in_order es n kill fuel ok info q l :
  history_ok es n -> checkSingle model equal es true kill fuel = Done (ok, info) -> Some (q, l) ∈ info -> in_order es l.
Proof.
  intros Hh H Hin. destruct (checkSingle_start model equal es n Hh true) as (h0 & Hd & Heq & Hseg & Hev & Hno & _ & _ & Hops).
  rewrite Heq in H. apply go_bind_Done in H as ([ok' s] & Hloop & H).
  set (L := reverse (seq 0 (base.length es))) in *.
  assert (0 <= n) as Hn by (pose proof (h_len _ _ Hh); lia).
  destruct (Bitset.newBitset_spec n Hn) as (Hwf & Hlenb & Hbit).
  assert (base.length es ∉ L) as Hhead by (unfold L; rewrite reverse_Permutation; intros ?%elem_of_seq; lia).
  assert (L = rem h0 L (Bitset.newBitset n)) as Hrem by (symmetry; apply filter_all; intros; apply Hbit).
  assert (n <= 64 * Z.of_nat (base.length (Bitset.newBitset n))) as Hw by lia.
  apply (checkLoop_walk model equal true (base.length es) h0 L n (base.length (Bitset.newBitset n)) Hev Hno Hhead Hw Hn
    kill fuel 0 _ L) in Hloop as (r & [Hst _ Hseqs] & Hfin); [|split; cbn [s_calls s_heap s_linearized s_entry s_seqs]].
  2: { constructor. by split. }
  2: { by exists [], L. }
  2: { constructor. }
  destruct ok'.
  - apply go_bind_Done in H as (ids & Hids & [= <- <-]).
    apply (call_ids_stack equal (base.length es) h0 L n _ Hno _ _ _ _ _ Hst) in Hids as ->.
    assert (0 < n) as Hpos.
    { destruct (decide (0 < n)); [done |]. replace (Z.to_nat n) with 0%nat in Hin by lia. by apply elem_of_nil in Hin. }
    apply longest_of_elem in Hin. apply elem_of_app in Hin as [Hin| ->%list_elem_of_singleton].
    + rewrite Forall_forall in Hseqs. destruct (Hseqs _ Hin). by eapply ordered_in_order.
    + eapply ordered_in_order; [done | exact Hops | | by eapply (stack_ordered equal)].
      pose proof (Hfin eq_refl) as ->. intros Hnil. pose proof (stack_rest equal _ _ _ _ _ _ _ _ Hst) as Hrest.
      assert (L <> []) as Hne.
      { intros HL%(f_equal base.length). unfold L in HL. rewrite length_reverse, length_seq in HL.
        pose proof (h_len _ _ Hh). cbn in HL. lia. }
      destruct L as [|a L']; [done |]. apply (not_elem_of_nil a), Hrest. split; [left |]. rewrite Hnil. apply not_elem_of_nil.
  - injection H as <- <-. apply longest_of_elem in Hin. rewrite Forall_forall in Hseqs.
    destruct (Hseqs _ Hin). by eapply ordered_in_order.
Qed.

Lemma checkParallel_in_order parts sch res info :
  Forall (fun es => exists n, history_ok es n) parts ->
  checkParallel model equal parts true sch = Done (res, info) ->
  Forall2 (fun es pls => Forall (in_order es) pls) parts info.2.
Proof.
  rewrite Forall_forall. intros Hok H. apply (checkParallel_recorded model equal in_order) in H as [_ H]; [done |].
  intros es kill fuel ok longest q l Hin. destruct (Hok es Hin) as [n Hn]. by apply checkSingle_in_order with n.
Qed.
End recorded.

(** ** The data of a check *)

Section data.
Context {Inp Out St : Type} `{!EqDecision St} (model : Model Inp Out St).
Context (show : option (value Inp Out) -> string) (showState : St -> string) (d : Describe Inp Out St).
Context (describe : Inp -> Out -> string).
Hypothesis Hdescribe : forall i o,
  describe_operation show showState d (Some (VIn i)) (Some (VOut o)) = Done (describe i o).
Context (sort : list (entry Inp Out) -> list (entry Inp Out)) `{Hsort : !GoSort sort}.
Context (sortSlice : list (list Z) -> list (list Z)) (Hslice : forall l, sortSlice l ≡ₚ l).

Implicit Types (p : list (Operation Inp Out)).

Lemma states_length f st ord : legal (Step model) f st ord -> base.length (states model f st ord) = base.length ord.
Proof.
  revert st; induction ord as [|x ord IH]; intros st; cbn; [done |].
  destruct (f x) as [[i o]|]; [|done]. intros [_ Hl]. cbn. by rewrite IH.
Qed.

Lemma replayed_index f ord : legal (Step model) f (Init model) ord -> ls_Index <$> replayed show showState model d f ord = ord.
Proof.
  intros Hl%states_length. unfold replayed. apply fmap_zip_with_l; [done |].
  by rewrite length_fmap, Hl.
Qed.

(** Calls that come before returns have the smaller times. *)
Lemma made_call_before p (x y : nat) a b :
  p !! x = Some a -> p !! y = Some b ->
  before (makeEntries sort p) (call_entry (Z.of_nat x) a) (return_entry (Z.of_nat y) b) -> op_Call a <= op_Return b.
Proof.
  intros Ha Hb (i & j & Hij & Hi & Hj)%before_lookup. pose proof (sort_sorted _ _ _ _ _ Hij Hi Hj) as Hl.
  unfold Less in Hl. cbn in Hl. destruct (Z.eqb_spec (op_Return b) (op_Call a)); [lia |]. apply Z.ltb_ge in Hl. lia.
Qed.

Lemma shown_lin_ok p pls pv l :
  shows model show showState d describe p pls pv -> l ∈ pls -> in_order (makeEntries sort p) l ->
  lin_ok (pv_History pv) (replayed show showState model d (operation_at p) l).
Proof.
  intros (-> & Hlegal & _) Hin [Hne Hord]. rewrite Forall_forall in Hlegal.
  pose proof (replayed_index _ _ (Hlegal l Hin)) as Hix. set (lin := replayed _ _ _ _ _ l) in *. clearbody lin.
  split; [by intros ->; cbn in Hix; congruence |]. split.
  - rewrite Hix. apply NoDup_alt. intros i j x Hi Hj.
    assert (forall i j, (i < j)%nat -> l !! i = Some x -> l !! j = Some x -> False) as Hlt.
    { intros i' j' Hij Hi' Hj'. destruct (Hord _ _ Hj') as [Hnot _]. apply Hnot.
      apply list_elem_of_lookup. exists i'. by rewrite lookup_take_lt. }
    destruct (Nat.lt_trichotomy i j) as [H|[H|H]]; [by destruct (Hlt i j) | done | by destruct (Hlt j i)].
  - intros k id Hk. assert (l !! k = Some (ls_Index id)) as Hl by (rewrite <- Hix, list_lookup_fmap; exact (f_equal (fmap ls_Index) Hk)).
    destruct (Hord _ _ Hl) as (_ & c & Hc & Hkc & Hidc & Hbef).
    apply (made_elem sort p) in Hc as (x & a & Ha & [-> | ->]); [|done]. cbn in Hidc. rewrite <- Hidc. split; [lia |].
    rewrite Nat2Z.id, list_lookup_fmap, Ha. eexists. split; [done |]. intros j h' Hj Hnot. cbn.
    rewrite list_lookup_fmap in Hj. destruct (p !! j) as [b|] eqn:Eb; [|done]. injection Hj as <-. cbn.
    apply (made_call_before p x j a b Ha Eb), Hbef; [apply (made_elem sort p); exists j, b; by auto | done |].
    cbn. by rewrite fmap_take, Hix in Hnot.
Qed.

(** The script can lay out what a check shows, if the operations take time. *)
Lemma checked_data_ok history sch res info data :
  Forall (Forall (fun op => op_Call op < op_Return op)) (parts model history) ->
  CheckOperationsVerbose sort model history sch = Done (res, info) ->
  Forall3 (shows model show showState d describe) (parts model history) (sortSlice <$> info.2) data ->
  data_ok data.
Proof.
  intros Htimes Hrun Hshows.
  unfold CheckOperationsVerbose, checkOperations in Hrun.
  change (default NoPartition (Partition (fillDefault model)) history) with (parts model history) in Hrun.
  apply checkParallel_in_order in Hrun.
  2: { apply Forall_fmap. eapply Forall_impl; [exact Htimes |]. intros p Hp. exists (len p). apply made_ok; [done |].
       eapply Forall_impl; [exact Hp |]. cbn. lia. }
  rewrite Forall2_fmap_l in Hrun. split.
  - clear Hrun. revert Hshows. generalize (sortSlice <$> info.2). intros todo Hshows.
    induction Hshows as [|p pls pv ps todo data Hs _ IH]; intros h Hh; [by apply elem_of_nil in Hh |].
    apply Forall_cons in Htimes as [Hp Htimes]. unfold elements_of in *. rewrite bind_cons in Hh.
    apply elem_of_app in Hh as [Hh|Hh]; [|by apply IH]. destruct Hs as (Hhist & _). rewrite Hhist in Hh.
    apply list_elem_of_fmap in Hh as (op & -> & Hop). rewrite Forall_forall in Hp. by apply Hp.
  - clear Htimes. revert data Hshows Hrun. generalize (info.2). generalize (parts model history).
    induction l as [|p ps IH]; intros todo data Hshows Hrun; inversion Hrun as [|p' pls ps' todo' Hp Hrest]; subst;
      cbn [fmap list_fmap] in Hshows; inversion Hshows as [|p' pls' pv ps' todo'' data' Hs Hss]; subst; intros pv' lin Hpv Hlin.
    { by apply elem_of_nil in Hpv. }
    apply elem_of_cons in Hpv as [->|Hpv]; [|by eapply IH].
    pose proof Hs as (_ & _ & Hl & _). rewrite Hl in Hlin. apply list_elem_of_fmap in Hlin as (l & -> & Hin).
    eapply shown_lin_ok; [exact Hs | done |]. rewrite Hslice in Hin. exact (proj1 (Forall_forall _ _) Hp l Hin).
Qed.

Lemma replayed_length f ord : legal (Step model) f (Init model) ord -> len (replayed show showState model d f ord) = len ord.
Proof. intros Hl%replayed_index%(f_equal base.length). rewrite length_fmap in Hl. by rewrite Hl. Qed.

Lemma shown_largest p pls pv : shows model show showState d describe p pls pv -> largest_first pv.
Proof.
  intros (_ & Hlegal & Hl & Hlar) x. specialize (Hlar x). rewrite Forall_forall in Hlegal. rewrite Hl.
  destruct (pv_Largest pv !! x) as [k|].
  - destruct Hlar as (i & l & -> & Hi & Hx & Hmax). pose proof (Hlegal l ltac:(by eapply list_elem_of_lookup_2)) as Hleg.
    exists i, (replayed show showState model d (operation_at p) l). split; [done |].
    split; [by rewrite list_lookup_fmap, Hi |]. split; [by rewrite replayed_index |].
    intros j lin' Hj Hx'. rewrite list_lookup_fmap in Hj. apply fmap_Some in Hj as (l' & Hj & ->).
    pose proof (Hlegal l' ltac:(by eapply list_elem_of_lookup_2)) as Hleg'. rewrite replayed_index in Hx' by done.
    rewrite !replayed_length by done. by apply (Hmax j).
  - intros lin (l & -> & Hin)%list_elem_of_fmap. rewrite replayed_index by by apply Hlegal. by apply Hlar.
Qed.

(** [sort.Slice] by length, the longest first. *)
Definition sorts_longest : Prop := forall pls j l0 l,
  sortSlice pls !! 0%nat = Some l0 -> sortSlice pls !! j = Some l -> len l <= len l0.

Lemma shown_longest p pls pv : sorts_longest ->
  shows model show showState d describe p (sortSlice pls) pv -> longest_first pv.
Proof.
  intros Hsorted (_ & Hlegal & Hl & _) j lin0 lin H0 Hj. rewrite Hl, list_lookup_fmap in H0, Hj. rewrite Forall_forall in Hlegal.
  apply fmap_Some in H0 as (l0 & H0 & ->), Hj as (l & Hj & ->).
  rewrite !replayed_length; [by eapply Hsorted | by eapply Hlegal, list_elem_of_lookup_2..].
Qed.

(** What the handlers need of the data. *)
Lemma checked_largest ps plss data : Forall3 (shows model show showState d describe) ps (sortSlice <$> plss) data ->
  Forall largest_first data /\ (sorts_longest -> Forall longest_first data).
Proof.
  revert plss data; induction ps as [|p ps IH]; intros plss data H; inversion H as [|p' pls pv ps' plss' data' Hs Hss Heq1 Heq2]; subst.
  { by split. }
  destruct plss as [|pls0 plss]; [done |]. injection Heq2 as -> ->. destruct (IH _ _ Hss) as [Hl Hf].
  split; [constructor; [by eapply shown_largest | done] |]. intros Hsorted.
  constructor; [by eapply shown_longest | by apply Hf].
Qed.
End data.

(** C25: a verbose check and its page, end to end.  Let there be at least one partition,
    let operations return after they are called, let the model's state equality be a
    simulation and its [DescribeOperation] not panic.  Then [CheckOperationsVerbose]
    returns, [computeVisualizationData] shows its information, and the script lays this
    out and draws it without an exception: every operation as a box in its client's row
    that its text fits into, within the width of the page, and within its height if its
    client is not negative; every partial linearization as points in the boxes of its
    operations, each at least [EPSILON] right of the one before, and the illegal next
    steps behind them in their boxes, which are the error points.  No handler throws on
    this page, and what it shows is the abstract view of its events. *)
Theorem checker_page {Inp Out St} `{!EqDecision St} (model : Model Inp Out St) show showState d describe
    sort sortSlice history sch px textWidth :
  (forall i o, describe_operation show showState d (Some (VIn i)) (Some (VOut o)) = Done (describe i o)) ->
  GoSort sort -> (forall l, sortSlice l ≡ₚ l) ->
  Simulation (Step model) (equal_of (fillDefault model)) -> conditions model sort history sch true ->
  Forall (Forall (fun op => op_Call op < op_Return op)) (parts model history) -> 0 <= px ->
  exists res info data pg, CheckOperationsVerbose sort model history sch = Done (res, info)
    /\ computeVisualizationData show showState model d sortSlice info = Done (data, (info.1, sortSlice <$> info.2))
    /\ render px textWidth data = Done pg /\ p_data pg = (prepare data).1
    /\ Forall3 (part_ok px textWidth pg) (p_data pg) (p_rects pg) (p_drawn pg) /\ errors_ok pg
    /\ forall evs, Forall (event_on_page pg) evs -> exists s, interact pg evs = Done s /\ looks pg (view_of pg evs) s.
Proof.
  intros Hdesc Hsort Hslice Hsim Hcond Htimes Hpx.
  destruct (operations_verdict model sort history sch true Hsort Hsim Hcond) as (res & info & Hrun & _).
  destruct (shown_info model show showState d describe sort sortSlice history sch res info Hdesc Hsort Hslice
    (cd_times _ _ _ _ _ Hcond) Hrun) as (data & Hdata & Hshows).
  pose proof (checked_data_ok model show showState d describe sort sortSlice Hslice history sch res info data Htimes Hrun Hshows) as Hok.
  destruct (checked_largest model show showState d describe sortSlice _ _ _ Hshows) as [Hlarge _].
  destruct (render_shows px textWidth Hpx data Hok) as (pg & Hr & Hd & Hp & He). exists res, info, data, pg.
  split; [done |]. split; [done |]. split; [done |]. split; [done |]. split; [done |]. split; [done |]. intros evs Hevs.
  destruct (interact_ok pg (render_page_ok _ _ _ _ Hok Hlarge Hr) evs Hevs) as (s & Hs & Hv & _). by exists s.
Qed.

(** ** Pages of histories of the key/value model *)

Definition kv_text (s : string) : Z := 7 * Z.of_nat (String.length s).

(** Boxes of the operations (left edge and width) and, for each linearization, the
    positions of its points and of the illegal next steps behind them. *)
Definition page_summary (pg : page) : number * list (list (number * number)) * list (list (list number * list number)) :=
  (p_width pg, map (map (fun r => (r_x r, r_width r))) (p_rects pg),
   map (fun d => map (fun lines => (valid_points lines, invalid_points lines)) (d_lines d)) (p_drawn pg)).
Definition kv_page (history : list KvOperation) (sch : schedule) : go (CheckResult * page) :=
  '(res, info) ← CheckOperationsVerbose sortEntries KvModel history sch;
  '(data, _) ← computeVisualizationData (fun _ => "") id KvModel kv_describe (merge_sort longer) info;
  pg ← render 1 kv_text data;
  mret (res, pg).
Definition kv_page_summary (history : list KvOperation) (sch : schedule) :=
  '(res, pg) ← kv_page history sch; mret (res, page_summary pg).

(** The history of a get with the old value after a put: the put's point, and the get as
    the illegal step. *)
Lemma checker_page_witness :
  (exists res info data pg, CheckOperationsVerbose sortEntries KvModel kv_bad (sch_all 200 1) = Done (res, info)
    /\ computeVisualizationData (fun _ => "") id KvModel kv_describe (merge_sort longer) info
       = Done (data, (info.1, merge_sort longer <$> info.2))
    /\ render 1 kv_text data = Done pg /\ p_data pg = (prepare data).1
    /\ Forall3 (part_ok 1 kv_text pg) (p_data pg) (p_rects pg) (p_drawn pg) /\ errors_ok pg
    /\ forall evs, Forall (event_on_page pg) evs -> exists s, interact pg evs = Done s /\ looks pg (view_of pg evs) s)
  /\ kv_page_summary kv_bad (sch_all 200 1) =
     Done (Illegal, (Some 289, [[(Some 30, Some 111); (Some 161, Some 118)]], [[([Some 30], [Some 161])]])).
Proof.
  split.
  - apply (checker_page KvModel (fun _ => "") id kv_describe KvModel.DescribeOperation sortEntries (merge_sort longer) kv_bad
      (sch_all 200 1) 1 kv_text).
    + reflexivity.
    + apply _.
    + intros l. apply merge_sort_Permutation.
    + exact (shallow_simulation KvStep).
    + apply (sch_all_conditions kv_bad true 200); [discriminate | | vm_compute; reflexivity].
      repeat constructor; cbn; lia.
    + repeat constructor; cbn; lia.
    + lia.
  - vm_compute. reflexivity.
Defined.

(** An operation without duration, at the last time: an instant behind which there is no
    time to put the end at.  The script reads the position of its start before it is set,
    so that the end of the page is NaN. *)
Definition kv_instant : list KvOperation := [kv_op 0 1 "x" "a" 0 "" 5; kv_op 1 0 "x" "" 5 "a" 5].

Lemma instant_page :
  kv_page_summary kv_instant (sch_all 200 1) =
  Done (Ok, (None, [[(Some 30, None); (None, None)]], [[([Some 30; None], [])]])).
Proof. vm_compute. reflexivity. Qed.
