(* ===== verification/Visualize.v ===== *)
(** [Visualize] and [VisualizePath] of [src/porcupine/visualization.go]: the page of a
    history as a file. *)
From S2P Require Import Prelude Checker Visualization.

Section visualize.
Context {Inp Out St : Type} `{!EqDecision St}.
Context (show : option (value Inp Out) -> string) (showState : St -> string).
Context (sortSlice : list (list Z) -> list (list Z)).

(** The environment: [json.Marshal]; files, with [os.Create], [fmt.Fprintf] of the page
    [html] around the data, and [Close]. *)
Context {Json Error File FS : Type} (marshal : list partitionVisualizationData -> Json + Error).
Context (create : string -> FS -> FS * (File + Error)) (fprintf : File -> Json -> FS -> FS * option Error).
Context (close : File -> FS -> FS).

(** The result is the error; the files, and the slices of [info], are changed. *)
Definition Visualize (model : Model Inp Out St) (d : Describe Inp Out St) (info : linearizationInfo Inp Out)
    (output : File) (fs : FS) : go (option Error * linearizationInfo Inp Out * FS) :=
  '(data, info) ← computeVisualizationData show showState model d sortSlice info;
  match marshal data with
  | inr err => mret (Some err, info, fs)
  | inl jsonData =>
    match fprintf output jsonData fs with
    | (fs, Some err) => mret (Some err, info, fs)
    | (fs, None) => mret (None, info, fs)
    end
  end.

Definition VisualizePath (model : Model Inp Out St) (d : Describe Inp Out St) (info : linearizationInfo Inp Out)
    (path : string) (fs : FS) : go (option Error * linearizationInfo Inp Out * FS) :=
  match create path fs with
  | (fs, inr err) => mret (Some err, info, fs)
  | (fs, inl f) =>
    '(err, info, fs) ← Visualize model d info f fs;
    mret (err, info, close f fs)
  end.

(** If the data can be computed, [VisualizePath] returns; without an error only if
    the file could be created, the data encoded, and the page written around it.  A
    file that was created is closed, and one that could
    not be leaves [info] as it is. *)
Lemma VisualizePath_spec model d info path fs data info' :
  computeVisualizationData show showState model d sortSlice info = Done (data, info') ->
  exists err info2 fs2, VisualizePath model d info path fs = Done (err, info2, fs2)
    /\ (err = None -> exists f fs1 json fs', create path fs = (fs1, inl f) /\ marshal data = inl json
          /\ fprintf f json fs1 = (fs', None) /\ fs2 = close f fs')
    /\ match (create path fs).2 with
       | inl f => info2 = info' /\ exists fs', fs2 = close f fs'
       | inr e => err = Some e /\ info2 = info /\ fs2 = (create path fs).1
       end.
Proof.
  intros Hd. unfold VisualizePath. destruct (create path fs) as [fs1 [f|e]] eqn:Ec; cbn [snd fst].
  - unfold Visualize. rewrite Hd. cbn [mbind go_bind]. destruct (marshal data) as [json|e] eqn:Em.
    + destruct (fprintf f json fs1) as [fs' [e|]] eqn:Ef; cbn [mbind go_bind]; go_simpl; eexists _, _, _; (split; [done |]).
      * split; [done |]. by split; [|eexists].
      * split; [intros _; by exists f, fs1, json, fs' |]. by split; [|eexists].
    + go_simpl. eexists _, _, _. split; [done |]. split; [done |]. by split; [|eexists].
  - eexists _, _, _. by split.
Qed.
End visualize.
