(* ===== verification/Labrpc.v ===== *)
(** The simulated network, [src/labrpc/labrpc.go]: ends, servers, services, and the
    goroutines that carry a call from [Call] to its reply.

    A pointer to a [Server] is an address of the heap [sy_servers]; nil is [None].  The
    gob codec and Go's reflection are parameters: a value has type [Value], a type is
    [Ty], [encode] also says whether it failed.  The handlers act on a world [W].
    Random numbers and the passing of time are arguments of the steps. *)
From Stdlib Require Import Ascii.
From S2P Require Import Prelude.
Local Open Scope string_scope.
Local Open Scope Z_scope.

Definition fatal : string := "log.Fatalf".

(** [strings.LastIndex(s, ".")] *)
Fixpoint LastIndexDot (s : string) : Z :=
  match s with
  | EmptyString => -1
  | String c s =>
    let k := LastIndexDot s in
    if 0 <=? k then k + 1 else if Ascii.eqb c "."%char then 0 else -1
  end.

(** [s[:i]] and [s[i:]] *)
Definition string_to (s : string) (i : Z) : go string :=
  if (0 <=? i) && (i <=? Z.of_nat (String.length s)) then Done (String.substring 0 (Z.to_nat i) s) else Panic oob.
Definition string_from (s : string) (i : Z) : go string :=
  if (0 <=? i) && (i <=? Z.of_nat (String.length s))
  then Done (String.substring (Z.to_nat i) (String.length s - Z.to_nat i) s) else Panic oob.

(** Gob and reflection, as the network uses them. *)
Class Codec (Ty Value : Type) := {
  zero_value : Ty -> Value;
  encode : Value -> list byte * bool;
  decode : list byte -> Value -> Value * bool }.

Section labrpc.
Context {End Srv Ty Value W : Type}.
Context `{Countable End, Countable Srv, !Codec Ty Value}.

(** ** Messages *)

(** The reply channel is the thread itself. *)
Record reqMsg := mkReqMsg {
  req_endname : End; req_svcMeth : string; req_argsType : Ty; req_args : list byte }.
Record replyMsg := mkReplyMsg { rep_ok : bool; rep_reply : list byte }.

Definition failed : replyMsg := mkReplyMsg false [].

(** ** Services and servers *)

(** What [MakeService] asks of a method. *)
Record Method := mkMethod {
  m_name : string; m_exported : bool; m_numIn : Z; m_replyPtr : bool; m_numOut : Z;
  m_replyType : Ty;
  m_func : W -> Value -> Value -> W * Value }.

Record Service := mkService { svc_name : string; svc_methods : gmap string Method }.

Fixpoint MakeService_loop (ms : list Method) (methods : gmap string Method) : gmap string Method :=
  match ms with
  | [] => methods
  | m :: ms =>
    if negb (m_exported m) || negb (m_numIn m =? 3) || negb (m_replyPtr m) || negb (m_numOut m =? 0)
    then MakeService_loop ms methods
    else MakeService_loop ms (<[m_name m := m]> methods)
  end.
Definition MakeService (typeName : string) (ms : list Method) : Service :=
  mkService typeName (MakeService_loop ms ∅).

(** A failed decoding leaves what it decoded so far, and the error is dropped. *)
Definition Service_dispatch (svc : Service) (methname : string) (req : reqMsg) (w : W) : go (W * replyMsg) :=
  match svc_methods svc !! methname with
  | Some method =>
    let args := (decode (req_args req) (zero_value (req_argsType req))).1 in
    let replyv := zero_value (m_replyType method) in
    let '(w, replyv) := m_func method w args replyv in
    mret (w, mkReplyMsg true (encode replyv).1)
  | None => Panic fatal
  end.

Record Server := mkServer { services : gmap string Service; srv_count : Z }.
#[export] Instance eta_Server : Eta Server := fun s => mkServer (services s) (srv_count s).

Definition MakeServer : Server := mkServer ∅ 0.
Definition AddService (rs : Server) (svc : Service) : Server :=
  rs <| services := <[svc_name svc := svc]> (services rs) |>.

Definition Server_GetCount (rs : Server) : Z := srv_count rs.

Definition Server_dispatch (rs : Server) (req : reqMsg) (w : W) : go (Server * W * replyMsg) :=
  let rs := rs <| srv_count := srv_count rs + 1 |> in
  let dot := LastIndexDot (req_svcMeth req) in
  serviceName ← string_to (req_svcMeth req) dot;
  methodName ← string_from (req_svcMeth req) (dot + 1);
  match services rs !! serviceName with
  | Some service => '(w, r) ← Service_dispatch service methodName req w; mret (rs, w, r)
  | None => Panic fatal
  end.

(** ** The network *)

(** [net_count] is an [int32], counted with [atomic.AddInt32]. *)
Record Network := mkNetwork {
  reliable : bool; longDelays : bool; longReordering : bool;
  ends : gset End; enabled : gmap End bool;
  servers : gmap Srv (option nat); connections : gmap End (option Srv);
  net_count : Z; net_bytes : Z; net_done : bool }.
#[export] Instance eta_Network : Eta Network := fun n =>
  mkNetwork (reliable n) (longDelays n) (longReordering n) (ends n) (enabled n) (servers n)
    (connections n) (net_count n) (net_bytes n) (net_done n).

Definition MakeNetwork : Network := mkNetwork true false false ∅ ∅ ∅ ∅ 0 0 false.
(** Closing a closed channel panics. *)
Definition Cleanup (rn : Network) : go Network :=
  if net_done rn then Panic "close of closed channel" else mret (rn <| net_done := true |>).
Definition Reliable (rn : Network) (yes : bool) : Network := rn <| reliable := yes |>.
Definition LongReordering (rn : Network) (yes : bool) : Network := rn <| longReordering := yes |>.
Definition LongDelays (rn : Network) (yes : bool) : Network := rn <| longDelays := yes |>.

Definition is_enabled (rn : Network) (endname : End) : bool := default false (enabled rn !! endname).
Definition server_at (rn : Network) (servername : Srv) : option nat := default None (servers rn !! servername).

Definition readEndnameInfo (rn : Network) (endname : End) : bool * option Srv * option nat * bool * bool :=
  let servername := default None (connections rn !! endname) in
  let server := match servername with Some sn => server_at rn sn | None => None end in
  (is_enabled rn endname, servername, server, reliable rn, longReordering rn).

Definition isServerDead (rn : Network) (endname : End) (servername : Srv) (server : nat) : bool :=
  negb (is_enabled rn endname) || negb (bool_decide (server_at rn servername = Some server)).

Definition MakeEnd (rn : Network) (endname : End) : go Network :=
  if bool_decide (endname ∈ ends rn) then Panic fatal
  else mret (rn <| ends := {[endname]} ∪ ends rn |> <| enabled := <[endname := false]> (enabled rn) |>
    <| connections := <[endname := None]> (connections rn) |>).
Definition AddServer (rn : Network) (servername : Srv) (rs : nat) : Network :=
  rn <| servers := <[servername := Some rs]> (servers rn) |>.
Definition DeleteServer (rn : Network) (servername : Srv) : Network :=
  rn <| servers := <[servername := None]> (servers rn) |>.
Definition Connect (rn : Network) (endname : End) (servername : Srv) : Network :=
  rn <| connections := <[endname := Some servername]> (connections rn) |>.
Definition Enable (rn : Network) (endname : End) (yes : bool) : Network :=
  rn <| enabled := <[endname := yes]> (enabled rn) |>.
Definition GetTotalCount (rn : Network) : Z := net_count rn.
Definition GetTotalBytes (rn : Network) : Z := net_bytes rn.

(** A deleted server is a nil pointer. *)
Definition GetCount (heap : list Server) (rn : Network) (servername : Srv) : go Z :=
  match server_at rn servername with
  | None => Panic "nil pointer dereference"
  | Some a => match heap !! a with Some s => mret (Server_GetCount s) | None => Panic "nil pointer dereference" end
  end.

(** ** [processReq] *)

(** Where the goroutine of a request is: not started; before it starts the handler, with
    what it read of the network; waiting for the handler; no longer waiting (with the
    reply, or told that the server is dead); a reply is on its way, with the bytes to
    count when it is sent; sent.  [rel] is the flag as it was read at first. *)
Inductive phase :=
| PNew
| PReady (servername : Srv) (server : nat) (rel : bool)
| PWait (servername : Srv) (server : nat) (rel : bool)
| PStopped (servername : Srv) (server : nat) (rel : bool) (reply : option replyMsg)
| PReply (r : replyMsg) (bytes : Z)
| PSent (r : replyMsg).

(** The goroutine that runs the handler: not started, started, done. *)
Inductive handler := HNone | HRunning (server : nat) | HDone (r : replyMsg).

Record thread := mkThread { th_req : reqMsg; th_phase : phase; th_handler : handler }.

(** Lines 219-221 and 292-307: read what the end is connected to. *)
Definition start (rn : Network) (t : thread) : thread :=
  match th_phase t with
  | PNew =>
    mkThread (th_req t)
      (match readEndnameInfo rn (req_endname (th_req t)) with
       | (true, Some servername, Some server, rel, _) => PReady servername server rel
       | _ => PReply failed 0
       end) (th_handler t)
  | _ => t
  end.

(** Lines 222-242: [rnd] is the random number. *)
Definition launch (rnd : Z) (t : thread) : thread :=
  match th_phase t with
  | PReady servername server rel =>
    if negb rel && (Z.rem rnd 1000 <? 100) then mkThread (th_req t) (PReply failed 0) (th_handler t)
    else mkThread (th_req t) (PWait servername server rel) (HRunning server)
  | _ => t
  end.

(** Lines 250-262: one turn of the wait, on the timer or on the handler's reply. *)
Definition wait_turn (timer : bool) (rn : Network) (t : thread) : thread :=
  match th_phase t with
  | PWait servername server rel =>
    if timer then
      if isServerDead rn (req_endname (th_req t)) servername server
      then mkThread (th_req t) (PStopped servername server rel None) (th_handler t) else t
    else match th_handler t with
         | HDone r => mkThread (th_req t) (PStopped servername server rel (Some r)) (th_handler t)
         | _ => t
         end
  | _ => t
  end.

(** Lines 270-291; a reordered reply only takes longer. *)
Definition finish (rnd : Z) (rn : Network) (t : thread) : thread :=
  match th_phase t with
  | PStopped servername server rel reply =>
    let serverDead := isServerDead rn (req_endname (th_req t)) servername server in
    mkThread (th_req t)
      (match reply with
       | None => PReply failed 0
       | Some r =>
         if serverDead then PReply failed 0
         else if negb rel && (Z.rem rnd 1000 <? 100) then PReply failed 0
         else PReply r (Z.of_nat (length (rep_reply r)))
       end) (th_handler t)
  | _ => t
  end.

(** The message is sent on the reply channel. *)
Definition send (t : thread) : thread :=
  match th_phase t with PReply r _ => mkThread (th_req t) (PSent r) (th_handler t) | _ => t end.
Definition sent_bytes (t : thread) : Z := match th_phase t with PReply _ n => n | _ => 0 end.

(** ** Calls *)

(** The request that [Call] sends; an encoding error panics. *)
Definition make_req (endname : End) (svcMeth : string) (argsType : Ty) (args : Value) : go reqMsg :=
  match encode args with
  | (bytes, true) => mret (mkReqMsg endname svcMeth argsType bytes)
  | (_, false) => Panic "encode"
  end.

(** What [Call] returns, and the caller's reply variable, when the message [rep] has
    arrived; [None]: the network is destroyed and the request was not sent. *)
Definition Call_return (rep : option replyMsg) (reply : Value) : go (bool * Value) :=
  match rep with
  | None => mret (false, reply)
  | Some rep =>
    if rep_ok rep then
      match decode (rep_reply rep) reply with
      | (reply, true) => mret (true, reply)
      | (_, false) => Panic fatal
      end
    else mret (false, reply)
  end.

(** ** The system: every goroutine step and every operation of the tester *)

Record system := mkSystem {
  sy_net : Network; sy_servers : list Server; sy_world : W; sy_threads : list thread }.

(** The operations of the tester. *)
Inductive operation :=
| OpReliable (b : bool) | OpLongDelays (b : bool) | OpLongReordering (b : bool)
| OpConnect (endname : End) (servername : Srv) | OpEnable (endname : End) (b : bool)
| OpMakeEnd (endname : End) | OpDeleteServer (servername : Srv).

Definition operate (op : operation) (rn : Network) : go Network :=
  match op with
  | OpReliable b => mret (Reliable rn b)
  | OpLongDelays b => mret (LongDelays rn b)
  | OpLongReordering b => mret (LongReordering rn b)
  | OpConnect e sn => mret (Connect rn e sn)
  | OpEnable e b => mret (Enable rn e b)
  | OpMakeEnd e => MakeEnd rn e
  | OpDeleteServer sn => mret (DeleteServer rn sn)
  end.

Inductive event :=
| EvCall (endname : End) (svcMeth : string) (argsType : Ty) (args : Value)
| EvStart (k : nat) | EvLaunch (k : nat) (rnd : Z) | EvExec (k : nat) | EvWait (k : nat) (timer : bool)
| EvFinish (k : nat) (rnd : Z) | EvSend (k : nat)
| EvOperate (op : operation) | EvAddServer (servername : Srv) (rs : Server).

Definition set_net (rn : Network) (s : system) : system :=
  mkSystem rn (sy_servers s) (sy_world s) (sy_threads s).
Definition on_thread (k : nat) (f : thread -> thread) (s : system) : system :=
  mkSystem (sy_net s) (sy_servers s) (sy_world s) (alter f k (sy_threads s)).

(** The handler of thread [k] runs. *)
Definition exec (k : nat) (s : system) : go system :=
  match sy_threads s !! k with
  | Some (mkThread req p (HRunning server)) =>
    match sy_servers s !! server with
    | Some rs =>
      '(rs, w, r) ← Server_dispatch rs req (sy_world s);
      mret (mkSystem (sy_net s) (<[server := rs]> (sy_servers s)) w
              (<[k := mkThread req p (HDone r)]> (sy_threads s)))
    | None => Panic "nil pointer dereference"
    end
  | _ => mret s
  end.

(** Threads are numbered from the first request on; an event that does not fit the
    state of its thread changes nothing. *)
Definition step (ev : event) (s : system) : go system :=
  match ev with
  | EvCall endname svcMeth argsType args =>
    req ← make_req endname svcMeth argsType args;
    let rn := sy_net s in
    if net_done rn then mret s else
    mret (mkSystem (rn <| net_count := wrap32 (net_count rn + 1) |>
                       <| net_bytes := net_bytes rn + Z.of_nat (length (req_args req)) |>)
            (sy_servers s) (sy_world s) (sy_threads s ++ [mkThread req PNew HNone]))
  | EvStart k => mret (on_thread k (start (sy_net s)) s)
  | EvLaunch k rnd => mret (on_thread k (launch rnd) s)
  | EvExec k => exec k s
  | EvWait k timer => mret (on_thread k (wait_turn timer (sy_net s)) s)
  | EvFinish k rnd => mret (on_thread k (finish rnd (sy_net s)) s)
  | EvSend k =>
    let n := match sy_threads s !! k with Some t => sent_bytes t | None => 0 end in
    mret (on_thread k send (set_net ((sy_net s) <| net_bytes := net_bytes (sy_net s) + n |>) s))
  | EvOperate op => rn ← operate op (sy_net s); mret (set_net rn s)
  | EvAddServer servername rs =>
    mret (mkSystem (AddServer (sy_net s) servername (length (sy_servers s))) (sy_servers s ++ [rs])
            (sy_world s) (sy_threads s))
  end.

Fixpoint run (evs : list event) (s : system) : go system :=
  match evs with [] => mret s | ev :: evs => s ← step ev s; run evs s end.

Definition init (w : W) : system := mkSystem MakeNetwork [] w [].
End labrpc.
