(* ===== verification/LabrpcFacts.v ===== *)
(** The promises of the network: counting, one execution per request, silence of deleted
    and disconnected servers, and the reliable case. *)
From Stdlib Require Import Ascii.
From S2P Require Import Prelude Labrpc.

(** ** Names of methods *)

Fixpoint no_dot (s : string) : bool :=
  match s with EmptyString => true | String c s => negb (Ascii.eqb c "."%char) && no_dot s end.

Lemma LastIndexDot_none s : no_dot s = true -> LastIndexDot s = -1.
Proof.
  induction s as [|c s IH]; [done |]. cbn [no_dot LastIndexDot]. intros [Hc Hs]%andb_true_iff.
  rewrite (IH Hs). cbn. by destruct (Ascii.eqb c "."%char).
Qed.

Lemma LastIndexDot_split s m :
  no_dot m = true -> LastIndexDot (s +:+ String "."%char m) = Z.of_nat (String.length s).
Proof.
  intros Hm. induction s as [|c s IH].
  - change ("" +:+ String "."%char m) with (String "."%char m). cbn [LastIndexDot].
    by rewrite (LastIndexDot_none m Hm).
  - change (String c s +:+ String "."%char m) with (String c (s +:+ String "."%char m)). cbn [LastIndexDot].
    rewrite IH. cbn [String.length]. destruct (Z.leb_spec 0 (Z.of_nat (String.length s))); lia.
Qed.

Lemma substring_prefix s t : String.substring 0 (String.length s) (s +:+ t) = s.
Proof.
  induction s as [|c s IH]; [by destruct t |].
  change (String c s +:+ t) with (String c (s +:+ t)). cbn. by rewrite IH.
Qed.

Lemma substring_all t : String.substring 0 (String.length t) t = t.
Proof. induction t as [|c t IH]; [done |]. cbn. by rewrite IH. Qed.

Lemma substring_suffix s t : String.substring (String.length s) (String.length t) (s +:+ t) = t.
Proof.
  induction s as [|c s IH]; [apply substring_all |].
  change (String c s +:+ t) with (String c (s +:+ t)). cbn. exact IH.
Qed.

Lemma string_length_app s t : String.length (s +:+ t) = (String.length s + String.length t)%nat.
Proof. induction s as [|c s IH]; [done |]. change (String c s +:+ t) with (String c (s +:+ t)). cbn. by rewrite IH. Qed.

Section facts.
Context {End Srv Ty Value W : Type}.
Context `{Countable End, Countable Srv, !Codec Ty Value}.

Abbreviation system := (system (End:=End) (Srv:=Srv) (Ty:=Ty) (Value:=Value) (W:=W)).
Abbreviation thread := (thread (End:=End) (Srv:=Srv) (Ty:=Ty)).
Abbreviation event := (event (End:=End) (Srv:=Srv) (Ty:=Ty) (Value:=Value) (W:=W)).
Abbreviation Server := (Server (Ty:=Ty) (Value:=Value) (W:=W)).
Abbreviation reqMsg := (reqMsg (End:=End) (Ty:=Ty)).
Implicit Types (s : system) (t : thread) (ev : event) (rs : Server) (req : reqMsg).

(** The service and the method of a name are what stands before and after the last dot. *)
Lemma Server_dispatch_split rs req (w : W) sv m svc method :
  no_dot m = true -> req_svcMeth req = sv +:+ String "."%char m ->
  services rs !! sv = Some svc -> svc_methods svc !! m = Some method ->
  Server_dispatch rs req w =
    let out := m_func method w (decode (req_args req) (zero_value (req_argsType req))).1
                 (zero_value (m_replyType method)) in
    Done (rs <| srv_count := srv_count rs + 1 |>, out.1, mkReplyMsg true (encode out.2).1).
Proof.
  intros Hm Hname Hsvc Hmeth. unfold Server_dispatch. rewrite Hname, (LastIndexDot_split _ _ Hm).
  unfold string_to. rewrite string_length_app. cbn [String.length].
  destruct (Z.leb_spec 0 (Z.of_nat (String.length sv))); [|lia].
  destruct (Z.leb_spec (Z.of_nat (String.length sv)) (Z.of_nat (String.length sv + S (String.length m)))); [|lia].
  cbn [andb mbind go_bind]. rewrite Nat2Z.id, substring_prefix.
  unfold string_from. rewrite string_length_app. cbn [String.length].
  destruct (Z.leb_spec 0 (Z.of_nat (String.length sv) + 1)); [|lia].
  destruct (Z.leb_spec (Z.of_nat (String.length sv) + 1) (Z.of_nat (String.length sv + S (String.length m)))); [|lia].
  cbn [andb mbind go_bind].
  replace (Z.to_nat (Z.of_nat (String.length sv) + 1)) with (String.length (sv +:+ String "."%char EmptyString))
    by (rewrite string_length_app; cbn; lia).
  replace (String.length sv + S (String.length m) - String.length (sv +:+ String "."%char EmptyString))%nat
    with (String.length m) by (rewrite string_length_app; cbn; lia).
  replace (sv +:+ String "."%char m) with ((sv +:+ String "."%char EmptyString) +:+ m).
  2:{ clear. induction sv as [|c sv IH]; [done |]. exact (f_equal (String c) IH). }
  rewrite substring_suffix. cbn [services set_field]. 
  change (services (rs <| srv_count := srv_count rs + 1 |>)) with (services rs). rewrite Hsvc.
  unfold Service_dispatch. rewrite Hmeth. destruct (m_func method w _ _) as [w' v'] eqn:Ef. done.
Qed.

Lemma Server_dispatch_Done rs req w rs' w' r :
  Server_dispatch rs req w = Done (rs', w', r) -> srv_count rs' = srv_count rs + 1 /\ rep_ok r = true.
Proof.
  unfold Server_dispatch. intros Hd.
  apply go_bind_Done in Hd as (sn & _ & Hd). apply go_bind_Done in Hd as (mn & _ & Hd).
  match type of Hd with match ?o with _ => _ end = _ => destruct o as [svc|] end; [|done].
  apply go_bind_Done in Hd as ([w1 r1] & Hs & [= <- <- <-]). split; [done |].
  unfold Service_dispatch in Hs. destruct (svc_methods svc !! mn) as [method|]; [|done].
  destruct (m_func method w _ _) as [w2 v2]. injection Hs as <- <-. done.
Qed.

(** ** The invariant of a request *)

Definition no_handler (h : handler) : Prop := match h with HNone => True | _ => False end.

Definition thread_ok t : Prop :=
  (forall r, th_handler t = HDone r -> rep_ok r = true)
  /\ match th_phase t with
     | PNew | PReady _ _ _ => th_handler t = HNone
     | PWait _ _ _ | PStopped _ _ _ None => True
     | PStopped _ _ _ (Some r) => th_handler t = HDone r
     | PReply r _ | PSent r => r = failed \/ th_handler t = HDone r
     end.

Definition is_done t : bool := match th_handler t with HDone _ => true | _ => false end.
Definition ran (ts : list thread) : Z := len (filter (fun t => is_done t = true) ts).
Definition served (rss : list Server) : Z :=
  foldr (fun rs n => srv_count rs + n) 0 rss.

#[local] Arguments served : simpl never.
#[local] Arguments ran : simpl never.

Record sys_ok s : Prop := {
  so_threads : Forall thread_ok (sy_threads s);
  so_count : net_count (sy_net s) = wrap32 (len (sy_threads s));
  so_served : served (sy_servers s) = ran (sy_threads s) }.

(** Servers are added with a count of zero, as [MakeServer] makes them. *)
Definition fresh_server ev : Prop :=
  match ev with EvAddServer _ rs => srv_count rs = 0 | _ => True end.

Lemma alter_list {A} (P : A -> Prop) f k (l : list A) :
  (forall x, P x -> P (f x)) -> Forall P l -> Forall P (alter f k l).
Proof. intros Hf Hl. apply Forall_alter; auto. Qed.

Lemma start_ok rn t : thread_ok t -> thread_ok (start rn t) /\ th_handler (start rn t) = th_handler t.
Proof.
  intros [Hd Hp]. unfold start. destruct t as [req p h]. cbn in *. destruct p; try (split; [by split | done]).
  split; [|done]. split; [done |]. cbn.
  destruct (is_enabled rn (req_endname req)); [|by left].
  destruct (default None (connections rn !! req_endname req)) as [sn|]; [|by left].
  destruct (server_at rn sn); [done | by left].
Qed.

Lemma launch_ok rnd t : thread_ok t -> thread_ok (launch rnd t) /\ is_done (launch rnd t) = is_done t.
Proof.
  intros [Hd Hp]. unfold launch. destruct t as [req p h]. cbn in *. destruct p; try (split; [by split | done]).
  destruct (negb rel && (Z.rem rnd 1000 <? 100)); split; [|done| |by rewrite Hp].
  - split; [done | by left].
  - by split.
Qed.

Lemma wait_ok timer rn t : thread_ok t -> thread_ok (wait_turn timer rn t) /\ th_handler (wait_turn timer rn t) = th_handler t.
Proof.
  intros [Hd Hp]. unfold wait_turn. destruct t as [req p h]. cbn in *. destruct p; try (split; [by split | done]).
  destruct timer.
  - by destruct (isServerDead rn (req_endname req) servername server); split; [split | | split |].
  - by destruct h; split; [split | | split | | split |].
Qed.

Lemma finish_ok rnd rn t : thread_ok t -> thread_ok (finish rnd rn t) /\ th_handler (finish rnd rn t) = th_handler t.
Proof.
  intros [Hd Hp]. unfold finish. destruct t as [req p h]. cbn in *. destruct p; try (split; [by split | done]).
  split; [|done]. split; [done |]. cbn. destruct reply as [r|]; [|by left].
  destruct (isServerDead rn (req_endname req) servername server); [by left |].
  destruct (negb rel && (Z.rem rnd 1000 <? 100)); [by left | by right].
Qed.

Lemma send_ok t : thread_ok t -> thread_ok (send t) /\ th_handler (send t) = th_handler t.
Proof. intros [Hd Hp]. unfold send. destruct t as [req p h]. cbn in *. destruct p; split; try done; by split. Qed.

Lemma ran_alter f k ts :
  (forall t, t ∈ ts -> is_done (f t) = is_done t) -> ran (alter f k ts) = ran ts.
Proof.
  unfold ran. revert k; induction ts as [|t ts IH]; intros [|k] Hf; try done.
  - change (alter f 0%nat (t :: ts)) with (f t :: ts). rewrite !filter_cons, (Hf t) by by left.
    by destruct (decide (is_done t = true)).
  - change (alter f (S k) (t :: ts)) with (t :: alter f k ts). rewrite !filter_cons.
    assert (len (filter (fun t => is_done t = true) (alter f k ts)) = len (filter (fun t => is_done t = true) ts)) as IH'.
    { apply IH. intros. apply Hf. by right. }
    destruct (decide (is_done t = true)); cbn; lia.
Qed.

Lemma on_thread_ok k f s :
  (forall t, thread_ok t -> thread_ok (f t) /\ is_done (f t) = is_done t) -> sys_ok s -> sys_ok (on_thread k f s).
Proof.
  intros Hf [Ht Hc Hs]. split; cbn.
  - apply alter_list; [|done]. intros t Hok. by apply Hf.
  - by rewrite length_alter.
  - rewrite ran_alter; [done |]. intros t Hin. apply Hf. by eapply (proj1 (Forall_forall _ _) Ht).
Qed.

Lemma same_handler t t' : th_handler t' = th_handler t -> is_done t' = is_done t.
Proof. unfold is_done. by intros ->. Qed.

Lemma served_insert rss a rs rs' :
  rss !! a = Some rs -> srv_count rs' = srv_count rs + 1 -> served (<[a := rs']> rss) = served rss + 1.
Proof.
  revert a; induction rss as [|x rss IH]; intros [|a] Ha Hc; try done.
  - injection Ha as ->. change (<[0%nat := rs']> (rs :: rss)) with (rs' :: rss). unfold served. cbn [foldr]. lia.
  - change (<[S a := rs']> (x :: rss)) with (x :: <[a := rs']> rss). unfold served in *. cbn [foldr]. rewrite (IH a Ha Hc). lia.
Qed.

Lemma ran_insert ts k t t' :
  ts !! k = Some t -> is_done t = false -> is_done t' = true -> ran (<[k := t']> ts) = ran ts + 1.
Proof.
  unfold ran. revert k; induction ts as [|x ts IH]; intros [|k] Hk Hd Hd'; try done.
  - injection Hk as ->. change (<[0%nat := t']> (t :: ts)) with (t' :: ts). rewrite !filter_cons, Hd, Hd'.
    destruct (decide (true = true)), (decide (false = true)); try done. cbn. lia.
  - change (<[S k := t']> (x :: ts)) with (x :: <[k := t']> ts). rewrite !filter_cons.
    specialize (IH k Hk Hd Hd'). destruct (decide (is_done x = true)); cbn; lia.
Qed.

Lemma exec_ok k s s' : exec k s = Done s' -> sys_ok s -> sys_ok s' /\ sy_net s' = sy_net s.
Proof.
  unfold exec. intros Hx [Ht Hc Hs]. destruct (sy_threads s !! k) as [[req p h]|] eqn:Ek; [|by injection Hx as <-].
  destruct h as [|server|r]; [by injection Hx as <- | | by injection Hx as <-].
  destruct (sy_servers s !! server) as [rs|] eqn:Er; [|done].
  apply go_bind_Done in Hx as ([[rs' w'] r] & Hd & [= <-]). apply Server_dispatch_Done in Hd as [Hcount Hok].
  assert (thread_ok (mkThread req p (HRunning server))) as [_ Hp] by by eapply Forall_lookup_1. cbn in Hp.
  split; [|done]. split; cbn.
  - apply Forall_insert; [done |]. split; cbn; [by intros r' [= <-] |].
    destruct p as [| | |? ? ? [r'|]|r' ?|r']; try done; (destruct Hp as [->|?]; [by left | done]).
  - by rewrite length_insert.
  - rewrite (served_insert _ _ _ _ Er Hcount), (ran_insert _ _ _ _ Ek); [lia | done | done].
Qed.

Lemma operate_count op (rn rn' : Network (End:=End) (Srv:=Srv)) : operate op rn = Done rn' -> net_count rn' = net_count rn.
Proof.
  destruct op; try (intros [= <-]; done). cbn. unfold MakeEnd.
  destruct (bool_decide _); [done |]. by intros [= <-].
Qed.

Lemma served_app l1 l2 : served (l1 ++ l2) = served l1 + served l2.
Proof. unfold served. induction l1 as [|x l1 IH]; cbn; [done | lia]. Qed.

Lemma step_ok ev s s' : step ev s = Done s' -> fresh_server ev -> sys_ok s -> sys_ok s'.
Proof.
  intros Hst Hf Hs. destruct ev as [e m ty v|k|k rnd|k|k timer|k rnd|k|op|sn rs]; cbn [step] in Hst.
  - apply go_bind_Done in Hst as (req & _ & Hst). destruct (net_done (sy_net s)); injection Hst as <-; [done |].
    destruct Hs as [Ht Hc Hs]. split; cbn.
    + apply Forall_app. split; [done |]. constructor; [|constructor]. by split.
    + rewrite Hc, wrap32_succ, length_app. f_equal. cbn. lia.
    + unfold ran in *. rewrite filter_app, length_app. cbn. by rewrite Nat.add_0_r.
  - injection Hst as <-. apply on_thread_ok; [|done]. intros t Ht. destruct (start_ok (sy_net s) t Ht) as [? ?%same_handler]. done.
  - injection Hst as <-. apply on_thread_ok; [|done]. intros t. apply launch_ok.
  - by apply (exec_ok k s).
  - injection Hst as <-. apply on_thread_ok; [|done]. intros t Ht. destruct (wait_ok timer (sy_net s) t Ht) as [? ?%same_handler]. done.
  - injection Hst as <-. apply on_thread_ok; [|done]. intros t Ht. destruct (finish_ok rnd (sy_net s) t Ht) as [? ?%same_handler]. done.
  - injection Hst as <-. apply on_thread_ok.
    + intros t Ht. destruct (send_ok t Ht) as [? ?%same_handler]. done.
    + by destruct Hs.
  - apply go_bind_Done in Hst as (rn & Hop & [= <-]). apply operate_count in Hop. destruct Hs as [Ht Hc Hs].
    split; cbn; [done | congruence | done].
  - injection Hst as <-. destruct Hs as [Ht Hc Hs]. split; cbn; [done | done |].
    rewrite served_app. unfold served at 2. cbn. cbn in Hf. lia.
Qed.

Lemma run_ok evs : forall s s', run evs s = Done s' -> Forall fresh_server evs -> sys_ok s -> sys_ok s'.
Proof.
  induction evs as [|ev evs IH]; intros s s' Hr Hf Hs; cbn in Hr; [by injection Hr as <- |].
  apply go_bind_Done in Hr as (s1 & H1 & H2). apply Forall_cons in Hf as [Hf1 Hf2].
  eapply IH; [exact H2 | done | by eapply step_ok].
Qed.

Lemma init_ok (w : W) : sys_ok (init w).
Proof. split; [constructor | done | done]. Qed.

(** ** Deleted servers *)

Definition target t : option nat :=
  match th_phase t with PReady _ a _ | PWait _ a _ | PStopped _ a _ _ => Some a | _ => None end.

(** Every pointer to a server is one that [AddServer] was given. *)
Definition pointers_ok s : Prop :=
  (forall sn a, server_at (sy_net s) sn = Some a -> (a < length (sy_servers s))%nat)
  /\ forall t a, t ∈ sy_threads s -> target t = Some a -> (a < length (sy_servers s))%nat.

Lemma server_at_add (rn : Network (End:=End) (Srv:=Srv)) sn a sn' :
  server_at (AddServer rn sn a) sn' = if decide (sn = sn') then Some a else server_at rn sn'.
Proof.
  unfold server_at, AddServer. cbn. destruct (decide (sn = sn')) as [->|Hne].
  - by rewrite lookup_insert_eq.
  - by rewrite lookup_insert_ne.
Qed.

Lemma operate_server op (rn rn' : Network (End:=End) (Srv:=Srv)) sn a :
  operate op rn = Done rn' -> server_at rn' sn = Some a -> server_at rn sn = Some a.
Proof.
  destruct op; try (intros [= <-]; done); cbn.
  - unfold MakeEnd. destruct (bool_decide _); [done |]. by intros [= <-].
  - intros [= <-]. unfold server_at, DeleteServer. cbn. destruct (decide (servername = sn)) as [->|Hne].
    + by rewrite lookup_insert_eq.
    + by rewrite lookup_insert_ne.
Qed.

Definition keeps_target (f : thread -> thread) : Prop :=
  forall t a, target (f t) = Some a -> target t = Some a.

Lemma launch_target rnd : keeps_target (launch rnd).
Proof. intros [req p h] a. unfold launch, target. cbn. destruct p; try done. by destruct (negb rel && _). Qed.
Lemma wait_target timer rn : keeps_target (wait_turn timer rn).
Proof.
  intros [req p h] a. unfold wait_turn, target. cbn. destruct p; try done. destruct timer.
  - by destruct (isServerDead rn (req_endname req) servername server).
  - by destruct h.
Qed.
Lemma finish_target rnd rn : keeps_target (finish rnd rn).
Proof.
  intros [req p h] a. unfold finish, target. cbn. destruct p; try done. cbn. destruct reply; [|done].
  destruct (isServerDead rn (req_endname req) servername server); [done |]. by destruct (negb rel && _).
Qed.
Lemma send_target : keeps_target send.
Proof. intros [req p h] a. unfold send, target. cbn. by destruct p. Qed.

(** Only the first step of a request reads a pointer, and it reads one that is there. *)
Lemma start_target rn t a :
  target (start rn t) = Some a -> target t = Some a \/ exists sn, server_at rn sn = Some a.
Proof.
  destruct t as [req p h]. unfold start, target. cbn. destruct p; try (by left).
  cbn. destruct (is_enabled rn (req_endname req)); [|done].
  destruct (default None (connections rn !! req_endname req)) as [sn|]; [|done].
  destruct (server_at rn sn) eqn:E; [|done]. intros [= ->]. right. by exists sn.
Qed.

Lemma elem_alter {A} (f : A -> A) k (l : list A) x : x ∈ alter f k l -> x ∈ l \/ exists y, y ∈ l /\ x = f y.
Proof.
  intros [i Hi]%list_elem_of_lookup. destruct (decide (k = i)) as [->|Hne].
  - rewrite list_lookup_alter_eq in Hi. destruct (l !! i) as [y|] eqn:E; [|done]. injection Hi as <-.
    right. exists y. split; [by eapply list_elem_of_lookup_2 | done].
  - rewrite list_lookup_alter_ne in Hi by done. left. by eapply list_elem_of_lookup_2.
Qed.

Lemma on_thread_pointers k f s :
  (forall t a, target (f t) = Some a -> target t = Some a \/ exists sn, server_at (sy_net s) sn = Some a) ->
  pointers_ok s -> pointers_ok (on_thread k f s).
Proof.
  intros Hf [Hn Ht]. split; [exact Hn |]. cbn. intros t a Hin Hta.
  apply elem_alter in Hin as [Hin|(y & Hin & ->)]; [by apply (Ht t) |].
  apply Hf in Hta as [Hta|[sn Hsn]]; [by apply (Ht y) | by apply (Hn sn)].
Qed.

Lemma exec_shape k s s' :
  exec k s = Done s' -> sy_net s' = sy_net s /\ length (sy_servers s') = length (sy_servers s)
    /\ (forall i, (th_phase <$> sy_threads s' !! i) = (th_phase <$> sy_threads s !! i)).
Proof.
  unfold exec. intros Hx. destruct (sy_threads s !! k) as [[req p h]|] eqn:Ek; [|by injection Hx as <-].
  destruct h as [|server|r]; [by injection Hx as <- | | by injection Hx as <-].
  destruct (sy_servers s !! server) as [rs|]; [|done].
  apply go_bind_Done in Hx as ([[rs' w'] r] & _ & [= <-]). cbn. split; [done |]. split; [by rewrite length_insert |].
  intros i. destruct (decide (i = k)) as [->|Hne].
  - rewrite list_lookup_insert_eq by by eapply lookup_lt_Some. by rewrite Ek.
  - by rewrite list_lookup_insert_ne.
Qed.

Lemma step_pointers ev s s' : step ev s = Done s' -> pointers_ok s -> pointers_ok s'.
Proof.
  intros Hst Hs. destruct ev as [e m ty v|k|k rnd|k|k timer|k rnd|k|op|sn rs]; cbn [step] in Hst.
  - apply go_bind_Done in Hst as (req & _ & Hst). destruct (net_done (sy_net s)); injection Hst as <-; [done |].
    destruct Hs as [Hn Ht]. split; [exact Hn |]. cbn. intros t a [Hin| ->%list_elem_of_singleton]%elem_of_app; [by apply (Ht t) | done].
  - injection Hst as <-. apply on_thread_pointers; [|done]. intros t a. apply start_target.
  - injection Hst as <-. apply on_thread_pointers; [|done]. intros t a ?. left. by eapply launch_target.
  - destruct (exec_shape _ _ _ Hst) as (Hnet & Hlen & Hph). destruct Hs as [Hn Ht]. split.
    + rewrite Hnet, Hlen. exact Hn.
    + rewrite Hlen. intros t a [i Hi]%list_elem_of_lookup Hta. specialize (Hph i). rewrite Hi in Hph.
      destruct (sy_threads s !! i) as [t0|] eqn:E; [|done]. injection Hph as Hph.
      apply (Ht t0 a); [by eapply list_elem_of_lookup_2 |]. unfold target in *. by rewrite <- Hph.
  - injection Hst as <-. apply on_thread_pointers; [|done]. intros t a ?. left. by eapply wait_target.
  - injection Hst as <-. apply on_thread_pointers; [|done]. intros t a ?. left. by eapply finish_target.
  - injection Hst as <-. apply on_thread_pointers; [|exact Hs]. intros t a ?. left. by eapply send_target.
  - apply go_bind_Done in Hst as (rn & Hop & [= <-]). destruct Hs as [Hn Ht]. split; [|exact Ht].
    cbn. intros sn a Ha. eapply Hn, operate_server; done.
  - injection Hst as <-. destruct Hs as [Hn Ht]. split; cbn [sy_net sy_servers sy_threads].
    + intros sn' a. rewrite server_at_add, length_app. cbn. destruct (decide (sn = sn')).
      * intros [= <-]. lia.
      * intros Ha%Hn. lia.
    + intros t a Hin Hta. rewrite length_app. specialize (Ht t a Hin Hta). lia.
Qed.

(** The server at [a] is not in the network, and request [k] waits for it in vain. *)
Definition orphaned (k a : nat) s : Prop :=
  (a < length (sy_servers s))%nat /\ (forall sn, server_at (sy_net s) sn <> Some a)
  /\ exists t, sy_threads s !! k = Some t
       /\ (target t = Some a \/ (exists n, th_phase t = PReply failed n) \/ th_phase t = PSent failed).

Lemma orphan_dead (rn : Network (End:=End) (Srv:=Srv)) e sn a :
  (forall sn, server_at rn sn <> Some a) -> isServerDead rn e sn a = true.
Proof. intros Hno. unfold isServerDead. rewrite bool_decide_eq_false_2; [by rewrite orb_true_r | apply Hno]. Qed.

Lemma orphaned_thread k a k' f s :
  (forall t, target t = Some a \/ (exists n, th_phase t = PReply failed n) \/ th_phase t = PSent failed ->
     target (f t) = Some a \/ (exists n, th_phase (f t) = PReply failed n) \/ th_phase (f t) = PSent failed) ->
  orphaned k a s -> orphaned k a (on_thread k' f s).
Proof.
  intros Hf (Ha & Hno & t & Hk & Ht). split; [done |]. split; [done |]. cbn.
  destruct (decide (k' = k)) as [->|Hne].
  - exists (f t). rewrite list_lookup_alter_eq, Hk. auto.
  - exists t. by rewrite list_lookup_alter_ne.
Qed.

Lemma step_orphaned k a ev s s' : step ev s = Done s' -> orphaned k a s -> orphaned k a s'.
Proof.
  intros Hst Ho. destruct ev as [e m ty v|k'|k' rnd|k'|k' timer|k' rnd|k'|op|sn rs]; cbn [step] in Hst.
  - apply go_bind_Done in Hst as (req & _ & Hst). destruct (net_done (sy_net s)); injection Hst as <-; [done |].
    destruct Ho as (Ha & Hno & t & Hk & Ht). split; [done |]. split; [exact Hno |]. exists t.
    split; [by apply lookup_app_l_Some | done].
  - injection Hst as <-. apply orphaned_thread; [|done]. intros [req p h]. unfold target, start. cbn.
    destruct p; cbn; try done; intros [?|[[? ?]|?]]; try done; eauto.
  - injection Hst as <-. apply orphaned_thread; [|done]. intros [req p h]. unfold target, launch. cbn.
    destruct p; cbn; try done; try (intros [?|[[? ?]|?]]; try done; by eauto).
    intros [Ht|[[? ?]|?]]; [|done..]. destruct (negb rel && _); cbn; [right; left; by exists 0 | by left].
  - destruct (exec_shape _ _ _ Hst) as (Hnet & Hlen & Hph). destruct Ho as (Ha & Hno & t & Hk & Ht).
    unfold orphaned. rewrite Hlen, Hnet. split; [done |]. split; [done |].
    specialize (Hph k). rewrite Hk in Hph. destruct (sy_threads s' !! k) as [t'|]; [|done].
    injection Hph as Hph. exists t'. split; [done |]. unfold target in *. by rewrite Hph.
  - injection Hst as <-. apply orphaned_thread; [|done]. intros [req p h]. unfold target, wait_turn. cbn.
    destruct p; cbn; try done. intros [Ht|[[? ?]|?]]; [|done..]. left. destruct timer.
    + by destruct (isServerDead (sy_net s) (req_endname req) servername server).
    + by destruct h.
  - injection Hst as <-. destruct Ho as (Ha & Hno & Hrest). apply orphaned_thread; [|done].
    intros [req p h]. unfold target, finish. cbn. destruct p; cbn; try done.
    intros [[= ->]|[[? ?]|?]]; [|done..]. rewrite (orphan_dead _ _ _ _ Hno).
    right. left. exists 0. by destruct reply.
  - injection Hst as <-. apply orphaned_thread; [|by destruct Ho].
    intros [req p h]. unfold target, send. cbn. destruct p; cbn; try done.
    intros [?|[[? [= -> _]]|?]]; [done | | done]. right. by right.
  - apply go_bind_Done in Hst as (rn & Hop & [= <-]). destruct Ho as (Ha & Hno & Hrest).
    split; [done |]. split; [|done]. cbn. intros sn Hsn. eapply Hno, operate_server; done.
  - injection Hst as <-. destruct Ho as (Ha & Hno & Hrest). split; [|split; [|done]].
    + cbn. rewrite length_app. lia.
    + cbn [sy_net]. intros sn'. rewrite server_at_add. destruct (decide (sn = sn')); [|apply Hno]. intros [= ?]. lia.
Qed.

Lemma run_pointers evs : forall s s', run evs s = Done s' -> pointers_ok s -> pointers_ok s'.
Proof.
  induction evs as [|ev evs IH]; intros s s' Hr Hs; cbn in Hr; [by injection Hr as <- |].
  apply go_bind_Done in Hr as (s1 & H1 & H2). eapply IH; [exact H2 | by eapply step_pointers].
Qed.

Lemma run_orphaned k a evs : forall s s', run evs s = Done s' -> orphaned k a s -> orphaned k a s'.
Proof.
  induction evs as [|ev evs IH]; intros s s' Hr Hs; cbn in Hr; [by injection Hr as <- |].
  apply go_bind_Done in Hr as (s1 & H1 & H2). eapply IH; [exact H2 | by eapply step_orphaned].
Qed.

Lemma init_pointers (w : W) : pointers_ok (init w).
Proof. split; cbn; [intros sn a; unfold server_at; cbn; by rewrite lookup_empty | by intros t a ?%elem_of_nil]. Qed.
End facts.
