(* ===== verification/LabrpcTheorems.v ===== *)
(** The theorems on the simulated network, with runs of a small network. *)
From Stdlib Require Import Ascii.
From S2P Require Import Prelude Labrpc LabrpcFacts.

(** ** A network with one end and one server, whose values are byte lists *)

#[export] Instance bytes_codec : Codec unit (list byte) :=
  {| zero_value := fun _ => []; encode := fun v => (v, true); decode := fun b _ => (b, true) |}.

(** A method that counts its calls and answers with what it was given. *)
Definition echo : Method (Ty:=unit) (Value:=list byte) (W:=nat) :=
  mkMethod "Echo" true 3 true 0 tt (fun w args _ => (S w, args)).
Definition echo_server : Server (Ty:=unit) (Value:=list byte) (W:=nat) :=
  AddService MakeServer (MakeService "Svc" [echo]).

Definition setup : list (event (End:=Z) (Srv:=Z) (Ty:=unit) (Value:=list byte) (W:=nat)) :=
  [EvOperate (OpMakeEnd 1); EvAddServer 7 echo_server; EvOperate (OpConnect 1 7); EvOperate (OpEnable 1 true)].
Definition echo_call : event (End:=Z) (Srv:=Z) (Ty:=unit) (Value:=list byte) (W:=nat) :=
  EvCall 1 "Svc.Echo" tt [x01; x02].
Definition serve_call : list (event (End:=Z) (Srv:=Z) (Ty:=unit) (Value:=list byte) (W:=nat)) :=
  [EvStart 0; EvLaunch 0 500; EvExec 0; EvWait 0 false; EvFinish 0 500; EvSend 0].

Definition after (evs : list (event (End:=Z) (Srv:=Z) (Ty:=unit) (Value:=list byte) (W:=nat))) :=
  match run evs (init 0%nat) with Done s => s | _ => init 0%nat end.

Section theorems.
Context {End Srv Ty Value W : Type}.
Context `{Countable End, Countable Srv, !Codec Ty Value}.
Abbreviation system := (system (End:=End) (Srv:=Srv) (Ty:=Ty) (Value:=Value) (W:=W)).

(** C31: In every run of the network on which servers start with a count of zero, each
    request is counted once in [GetTotalCount], an [int32] that wraps around and is the
    exact number for less than 2^31 requests.  The counters of all servers together are
    the number of requests whose handler has run, at most the number of requests, so
    that no request is executed twice, and a reply with [ok] that reached the caller is
    the one that its own handler returned. *)
Theorem network_accounting (w : W) evs (s : system) :
  run evs (init w) = Done s -> Forall fresh_server evs ->
  GetTotalCount (sy_net s) = wrap32 (len (sy_threads s))
  /\ (len (sy_threads s) < 2 ^ 31 -> GetTotalCount (sy_net s) = len (sy_threads s))
  /\ served (sy_servers s) = ran (sy_threads s)
  /\ served (sy_servers s) <= len (sy_threads s)
  /\ forall t r, t ∈ sy_threads s -> th_phase t = PSent r -> rep_ok r = true -> th_handler t = HDone r.
Proof.
  intros Hr Hf. destruct (run_ok evs _ _ Hr Hf (init_ok w)) as [Ht Hc Hs].
  split; [exact Hc |]. split; [intros Hlt; unfold GetTotalCount; rewrite Hc; apply wrap32_small; lia |].
  split; [exact Hs |]. split.
  - rewrite Hs. unfold ran. apply Nat2Z.inj_le, length_filter.
  - intros t r Hin Hp Hok. rewrite Forall_forall in Ht. destruct (Ht t Hin) as [_ Hph].
    rewrite Hp in Hph. by destruct Hph as [->|].
Qed.

(** C32: Once a server is not in the network any more (after [DeleteServer], or when
    another one has taken its name), no request that still waits for it, or has yet to
    look whether it is alive, is answered with [ok]: a client never gets a positive
    reply to a request that a dead server went on to execute. *)
Theorem deleted_server_silent (w : W) evs1 evs2 (s1 s2 : system) (k a : nat) t :
  run evs1 (init w) = Done s1 -> sy_threads s1 !! k = Some t -> target t = Some a ->
  (forall sn, server_at (sy_net s1) sn <> Some a) ->
  run evs2 s1 = Done s2 ->
  exists t2, sy_threads s2 !! k = Some t2 /\ forall r, th_phase t2 = PSent r -> r = failed.
Proof.
  intros H1 Hk Ht Hno H2. pose proof (run_pointers _ _ _ H1 (init_pointers w)) as [_ Hp].
  assert (orphaned k a s1) as Ho.
  { split; [by eapply Hp; [eapply list_elem_of_lookup_2 |] |]. split; [done |]. exists t. auto. }
  destruct (run_orphaned _ _ _ _ _ H2 Ho) as (_ & _ & t2 & Hk2 & Ht2). exists t2. split; [done |].
  intros r Hr. unfold target in Ht2. rewrite Hr in Ht2. destruct Ht2 as [?|[[? ?]|Heq]]; [done..|].
  by injection Heq.
Qed.

(** On a reliable network a call through an enabled, connected end reaches the method
    that its name says (what stands behind the last dot, of the service before it), is
    executed once, and is answered with the encoding of what the method returned. *)
Theorem reliable_call (s : system) e sn a rs sv m svc method ty args bytes r1 r2 :
  net_done (sy_net s) = false -> reliable (sy_net s) = true -> is_enabled (sy_net s) e = true ->
  connections (sy_net s) !! e = Some (Some sn) -> server_at (sy_net s) sn = Some a ->
  sy_servers s !! a = Some rs -> services rs !! sv = Some svc -> svc_methods svc !! m = Some method ->
  no_dot m = true -> encode args = (bytes, true) ->
  let k := length (sy_threads s) in
  let out := m_func method (sy_world s) (decode bytes (zero_value ty)).1 (zero_value (m_replyType method)) in
  exists s', run [EvCall e (sv +:+ String "."%char m) ty args; EvStart k; EvLaunch k r1; EvExec k; EvWait k false;
                  EvFinish k r2; EvSend k] s = Done s'
    /\ sy_world s' = out.1
    /\ (th_phase <$> sy_threads s' !! k) = Some (PSent (mkReplyMsg true (encode out.2).1))
    /\ GetCount (sy_servers s') (sy_net s') sn = Done (srv_count rs + 1).
Proof.
  intros Hdone Hrel Hen Hconn Hsrv Hrs Hsvc Hmeth Hm Henc k out.
  set (req := mkReqMsg e (sv +:+ String "."%char m) ty bytes).
  pose proof (Server_dispatch_split rs req (sy_world s) sv m svc method Hm eq_refl Hsvc Hmeth) as Hdisp.
  cbn [req_args req_argsType] in Hdisp. fold out in Hdisp.
  assert (forall t, (sy_threads s ++ [t]) !! k = Some t) as Hlast by (intros t; by apply list_lookup_middle).
  assert (forall f t, alter f k (sy_threads s ++ [t]) = sy_threads s ++ [f t]) as Halter.
  { intros f t. unfold k. generalize (sy_threads s) as l. induction l as [|x l IH]; [done |]. exact (f_equal (cons x) IH). }
  assert (forall t t', <[k := t']> (sy_threads s ++ [t]) = sy_threads s ++ [t']) as Hins.
  { intros t t'. unfold k. generalize (sy_threads s) as l. induction l as [|x l IH]; [done |]. exact (f_equal (cons x) IH). }
  cbn [run step]. unfold make_req. rewrite Henc. cbn [mbind go_bind mret go_ret]. fold req. rewrite Hdone.
  cbn [mbind go_bind mret go_ret]. unfold on_thread. cbn [sy_net sy_servers sy_world sy_threads].
  set (rn := (sy_net s) <| net_count := _ |> <| net_bytes := _ |>).
  assert (forall t, th_phase t = PNew -> th_req t = req ->
    start rn t = mkThread req (PReady sn a true) (th_handler t)) as Hstart.
  { intros t Hp Hq. unfold start. rewrite Hp, Hq. unfold readEndnameInfo.
    change (is_enabled rn (req_endname req)) with (is_enabled (sy_net s) e). rewrite Hen.
    change (connections rn !! req_endname req) with (connections (sy_net s) !! e). rewrite Hconn. cbn [from_option id].
    change (server_at rn sn) with (server_at (sy_net s) sn). rewrite Hsrv.
    change (reliable rn) with (reliable (sy_net s)). by rewrite Hrel. }
  rewrite Halter, Hstart by done. cbn [th_handler]. rewrite Halter. cbn [launch th_phase th_req negb andb].
  unfold exec. cbn [sy_net sy_servers sy_world sy_threads]. rewrite Hlast. rewrite Hrs, Hdisp.
  cbn [mbind go_bind mret go_ret]. rewrite Hins. cbn [sy_net sy_servers sy_world sy_threads].
  rewrite Halter. cbn [wait_turn th_phase th_req th_handler]. rewrite Halter. cbn [finish th_phase th_req th_handler].
  assert (isServerDead rn (req_endname req) sn a = false) as ->.
  { unfold isServerDead. change (is_enabled rn (req_endname req)) with (is_enabled (sy_net s) e). rewrite Hen.
    change (server_at rn sn) with (server_at (sy_net s) sn). by rewrite bool_decide_eq_true_2. }
  cbn [negb andb]. rewrite Hlast. unfold set_net. cbn [sy_net sy_servers sy_world sy_threads]. rewrite Halter.
  cbn [send th_phase]. eexists. split; [done |]. cbn [sy_net sy_servers sy_world sy_threads].
  split; [done |]. split; [by rewrite Hlast |].
  unfold GetCount. change (server_at _ sn) with (server_at (sy_net s) sn). rewrite Hsrv.
  by rewrite list_lookup_insert_eq by by eapply lookup_lt_Some.
Qed.
End theorems.

Lemma network_accounting_witness :
  run (setup ++ echo_call :: serve_call) (init 0%nat) = Done (after (setup ++ echo_call :: serve_call))
  /\ GetTotalCount (sy_net (after (setup ++ echo_call :: serve_call)))
     = len (sy_threads (after (setup ++ echo_call :: serve_call)))
  /\ served (sy_servers (after (setup ++ echo_call :: serve_call))) = 1.
Proof.
  destruct (network_accounting 0%nat (setup ++ echo_call :: serve_call) (after (setup ++ echo_call :: serve_call)))
    as (_ & Hc & _).
  - vm_compute. reflexivity.
  - repeat constructor.
  - split; [vm_compute; reflexivity |]. split; [apply Hc; vm_compute; reflexivity | vm_compute; reflexivity].
Defined.

(** The server is deleted while its handler runs; the client is told that the call failed. *)
Definition deleted_early : list (event (End:=Z) (Srv:=Z) (Ty:=unit) (Value:=list byte) (W:=nat)) :=
  setup ++ [echo_call; EvStart 0; EvLaunch 0 500; EvOperate (OpDeleteServer 7)].

Lemma deleted_server_silent_witness :
  exists t2, sy_threads (after (deleted_early ++ [EvExec 0; EvWait 0 false; EvFinish 0 500; EvSend 0])) !! 0%nat = Some t2
    /\ th_phase t2 = PSent failed /\ th_handler t2 = HDone (mkReplyMsg true [x01; x02]).
Proof.
  destruct (deleted_server_silent 0%nat deleted_early [EvExec 0; EvWait 0 false; EvFinish 0 500; EvSend 0]
    (after deleted_early) (after (deleted_early ++ [EvExec 0; EvWait 0 false; EvFinish 0 500; EvSend 0])) 0 0
    (mkThread (mkReqMsg 1 "Svc.Echo" tt [x01; x02]) (PWait 7 0%nat true) (HRunning 0))) as (t2 & Hk & Hf).
  - vm_compute. reflexivity.
  - vm_compute. reflexivity.
  - reflexivity.
  - intros sn. unfold server_at.
    assert (servers (sy_net (after deleted_early)) = {[7 := None]}) as -> by (vm_compute; reflexivity).
    destruct (decide (sn = 7)) as [->|Hne];
      [by rewrite lookup_singleton_eq | by rewrite lookup_singleton_ne].
  - vm_compute. reflexivity.
  - exists t2. split; [exact Hk |]. vm_compute in Hk. injection Hk as <-.
    split; [f_equal; apply Hf; reflexivity | reflexivity].
Defined.

Lemma reliable_call_witness :
  exists s', run (echo_call :: serve_call) (after setup) = Done s' /\ sy_world s' = 1%nat
    /\ (th_phase <$> sy_threads s' !! 0%nat) = Some (PSent (mkReplyMsg true [x01; x02]))
    /\ GetCount (sy_servers s') (sy_net s') 7 = Done 1.
Proof.
  destruct (reliable_call (after setup) 1 7 0 echo_server "Svc" "Echo" (MakeService "Svc" [echo]) echo tt
    [x01; x02] [x01; x02] 500 500) as (s' & Hr & Hw & Hp & Hc); [vm_compute; reflexivity .. |].
  exists s'. split; [exact Hr |]. split; [exact Hw |]. split; [exact Hp | exact Hc].
Defined.
