(* ===== verification/KvRaft.v ===== *)
(** The key/value service: [src/kvraft] (client.go, common.go, server.go).

    The network is the list of answers that the successive calls of an operation get:
    whether [Call] returned true, and the reply.  An operation on a list of answers
    either has returned, or is still calling when the answers are used up. *)
From S2P Require Import Prelude Persister RaftTypes RaftPersist RaftElection RaftSnapshot RaftNode.

(** ** [common.go] *)

Definition OK : string := "OK".
Definition ErrNoKey : string := "ErrNoKey".
Definition ErrWrongLeader : string := "ErrWrongLeader".

Record PutAppendArgs := mkPutAppendArgs { pa_Key : string; pa_Value : string; pa_Op : string; pa_ClientId : Z; pa_Seq : Z }.
Record PutAppendReply := mkPutAppendReply { pr_Err : string }.
Record GetArgs := mkGetArgs { ga_Key : string; ga_ClientId : Z; ga_Seq : Z }.
Record GetReply := mkGetReply { gr_Err : string; gr_Value : string }.

(** ** [client.go] *)

(** [ck_servers] is the number of servers. *)
Record Clerk := mkClerk { ck_servers : Z; ck_id : Z; ck_leaderId : Z; ck_seq : Z }.
#[export] Instance eta_Clerk : Eta Clerk := fun c => mkClerk (ck_servers c) (ck_id c) (ck_leaderId c) (ck_seq c).

(** [rnd] is the number that [nrand] drew. *)
Definition MakeClerk (servers rnd : Z) : Clerk := mkClerk servers rnd 0 0.

(** [ck.servers[serverId]] *)
Definition server_of (ck : Clerk) (serverId : Z) : go Z :=
  if (0 <=? serverId) && (serverId <? ck_servers ck) then Done serverId else Panic oob.
Definition next_server (ck : Clerk) (serverId : Z) : go Z :=
  if ck_servers ck =? 0 then Panic "integer divide by zero" else Done (Z.rem (serverId + 1) (ck_servers ck)).

(** The value that was returned (nothing yet: [None]), the clerk, and the requests sent. *)
Fixpoint Get_loop (ck : Clerk) (args : GetArgs) (serverId : Z) (answers : list (bool * GetReply))
    : go (option string * Clerk * list (Z * GetArgs)) :=
  match answers with
  | [] => mret (None, ck, [])
  | (ok, reply) :: answers =>
    to ← server_of ck serverId;
    if ok && String.eqb (gr_Err reply) ErrNoKey then
      mret (Some "", ck <| ck_leaderId := serverId |>, [(to, args)])
    else if ok && String.eqb (gr_Err reply) OK then
      mret (Some (gr_Value reply), ck <| ck_leaderId := serverId |>, [(to, args)])
    else
      serverId ← next_server ck serverId;
      '(res, ck, sent) ← Get_loop ck args serverId answers;
      mret (res, ck, (to, args) :: sent)
  end.

Definition Get (ck : Clerk) (key : string) (answers : list (bool * GetReply)) :=
  let ck := ck <| ck_seq := ck_seq ck + 1 |> in
  let args := mkGetArgs key (ck_id ck) (ck_seq ck) in
  Get_loop ck args (ck_leaderId ck) answers.

Fixpoint PutAppend_loop (ck : Clerk) (args : PutAppendArgs) (serverId : Z) (answers : list (bool * PutAppendReply))
    : go (option unit * Clerk * list (Z * PutAppendArgs)) :=
  match answers with
  | [] => mret (None, ck, [])
  | (ok, reply) :: answers =>
    to ← server_of ck serverId;
    if ok && String.eqb (pr_Err reply) OK then
      mret (Some tt, ck <| ck_leaderId := serverId |>, [(to, args)])
    else
      serverId ← next_server ck serverId;
      '(res, ck, sent) ← PutAppend_loop ck args serverId answers;
      mret (res, ck, (to, args) :: sent)
  end.

Definition PutAppend (ck : Clerk) (key value op : string) (answers : list (bool * PutAppendReply)) :=
  let ck := ck <| ck_seq := ck_seq ck + 1 |> in
  let args := mkPutAppendArgs key value op (ck_id ck) (ck_seq ck) in
  PutAppend_loop ck args (ck_leaderId ck) answers.

Definition Put (ck : Clerk) (key value : string) answers := PutAppend ck key value "Put" answers.
Definition Append (ck : Clerk) (key value : string) answers := PutAppend ck key value "Append" answers.

(** ** [server.go] *)

Record Op := mkOp { op_SeqId : Z; op_Key : string; op_Value : string; op_ClientId : Z; op_Index : Z; op_OpType : string }.

Section server.
Context `{!GobCodec Op}.

Record KVServer := mkKVServer {
  kv_me : Z; kv_rf : Raft Op; kv_dead : Z; kv_maxraftstate : Z;
  replayedIndex : Z; seqMap : gmap Z Z; kvPersist : gmap string string; lastIncludeIndex : Z }.
#[export] Instance eta_KVServer : Eta KVServer := fun s =>
  mkKVServer (kv_me s) (kv_rf s) (kv_dead s) (kv_maxraftstate s) (replayedIndex s) (seqMap s) (kvPersist s) (lastIncludeIndex s).

(** The handlers are empty: the reply stays as labrpc allocates it. *)
Definition KVServer_Get (kv : KVServer) (args : GetArgs) (reply : GetReply) : KVServer * GetReply := (kv, reply).
Definition KVServer_PutAppend (kv : KVServer) (args : PutAppendArgs) (reply : PutAppendReply) : KVServer * PutAppendReply := (kv, reply).

Definition KVServer_Kill (kv : KVServer) : KVServer := kv <| kv_dead := 1 |> <| kv_rf := Kill (kv_rf kv) |>.
Definition KVServer_killed (kv : KVServer) : bool := kv_dead kv =? 1.

Definition StartKVServer (npeers : nat) (me : Z) (ps : Persister) (maxraftstate now rnd : Z) : go KVServer :=
  rf ← Make npeers me ps now rnd;
  mret (mkKVServer me rf 0 maxraftstate 0 ∅ ∅ 0).
End server.

(** ** What the clerk promises *)

Definition settles_get (a : bool * GetReply) : option string :=
  if a.1 then
    if String.eqb (gr_Err a.2) ErrNoKey then Some ""
    else if String.eqb (gr_Err a.2) OK then Some (gr_Value a.2) else None
  else None.
Definition settles_put (a : bool * PutAppendReply) : option unit :=
  if a.1 && String.eqb (pr_Err a.2) OK then Some tt else None.

Definition clerk_ok (ck : Clerk) : Prop := 0 <= ck_leaderId ck < ck_servers ck.

(** The [i]-th server asked, when the first one is [l]. *)
Definition rotate (n l : Z) (i : nat) : Z := (l + Z.of_nat i) mod n.

Lemma rotate_range n l i : 0 < n -> 0 <= rotate n l i < n.
Proof. intros Hn. apply Z.mod_pos_bound. lia. Qed.

Lemma rotate_S n l i : 0 < n -> rotate n ((l + 1) mod n) i = rotate n l (S i).
Proof. intros Hn. unfold rotate. rewrite Zplus_mod_idemp_l. f_equal. lia. Qed.

(** All servers are asked in any [n] successive attempts. *)
Lemma rotate_covers n l x : 0 <= x < n -> 0 <= l < n -> exists i, (Z.of_nat i < n) /\ rotate n l i = x.
Proof.
  intros Hx Hl. exists (Z.to_nat ((x - l) mod n)). pose proof (Z.mod_pos_bound (x - l) n).
  rewrite Z2Nat.id by lia. split; [lia |]. unfold rotate. rewrite Z2Nat.id by lia.
  rewrite Zplus_mod_idemp_r. replace (l + (x - l)) with x by lia. apply Z.mod_small. lia.
Qed.

Lemma server_of_ok ck i : 0 <= i < ck_servers ck -> server_of ck i = Done i.
Proof.
  intros Hi. unfold server_of. destruct (Z.leb_spec 0 i), (Z.ltb_spec i (ck_servers ck)); cbn; done || lia.
Qed.
Lemma next_server_ok ck i : 0 <= i < ck_servers ck -> next_server ck i = Done ((i + 1) mod ck_servers ck).
Proof.
  intros Hi. unfold next_server. destruct (Z.eqb_spec (ck_servers ck) 0); [lia |]. f_equal.
  apply Z.rem_mod_nonneg; lia.
Qed.

(** Both loops: the answers before the one that settles the operation are retried on the
    next server, with the same arguments. *)
Section retry.
Context {Args Reply R : Type} (settles : bool * Reply -> option R).

Fixpoint retry (ck : Clerk) (args : Args) (i : nat) (l : Z) (answers : list (bool * Reply)) : option R * Clerk * list (Z * Args) :=
  match answers with
  | [] => (None, ck, [])
  | a :: answers =>
    match settles a with
    | Some r => (Some r, ck <| ck_leaderId := rotate (ck_servers ck) l i |>, [(rotate (ck_servers ck) l i, args)])
    | None =>
      let out := retry ck args (S i) l answers in
      (out.1.1, out.1.2, (rotate (ck_servers ck) l i, args) :: out.2)
    end
  end.

Lemma retry_sent ck args l answers : forall i,
  exists k, (k <= length answers)%nat
    /\ (retry ck args i l answers).2 = (fun j => (rotate (ck_servers ck) l j, args)) <$> seq i k
    /\ match (retry ck args i l answers).1.1 with
       | None => k = length answers /\ (retry ck args i l answers).1.2 = ck
       | Some r => exists a, answers !! (k - 1)%nat = Some a /\ (0 < k)%nat /\ settles a = Some r
           /\ (forall j b, (j < k - 1)%nat -> answers !! j = Some b -> settles b = None)
           /\ (retry ck args i l answers).1.2 = ck <| ck_leaderId := rotate (ck_servers ck) l (i + (k - 1)) |>
       end.
Proof.
  induction answers as [|a answers IH]; intros i; cbn [retry]; [by exists 0%nat |].
  destruct (settles a) as [r|] eqn:Es.
  - exists 1%nat. cbn. split; [lia |]. split; [done |]. exists a. split; [done |]. split; [lia |].
    split; [done |]. split; [intros; lia |]. by rewrite Nat.add_0_r.
  - destruct (IH (S i)) as (k & Hk & Hsent & Hres). exists (S k). cbn [fst snd]. split; [cbn; lia |].
    split; [by rewrite Hsent |]. destruct (retry ck args (S i) l answers) as [[[r|] ck'] sent]; cbn in Hres |- *.
    + destruct Hres as (b & Hb & Hpos & Hr & Hno & Hck). exists b.
      replace (k - 0)%nat with (S (k - 1)) by lia. split; [done |]. split; [lia |]. split; [done |]. split.
      * intros [|j] b' Hj Hb'; [by injection Hb' as <- | apply (Hno j); [lia | done]].
      * rewrite Hck. by replace (i + S (k - 1))%nat with (S i + (k - 1))%nat by lia.
    + destruct Hres as [-> ->]. done.
Qed.
End retry.

Lemma Get_loop_retry ck args answers : forall i l,
  0 <= l < ck_servers ck ->
  Get_loop ck args (rotate (ck_servers ck) l i) answers = Done (retry settles_get ck args i l answers).
Proof.
  induction answers as [|[ok reply] answers IH]; intros i l Hl; [done |]. cbn [Get_loop retry].
  pose proof (rotate_range (ck_servers ck) l i) as Hr.
  rewrite server_of_ok by (apply Hr; lia). cbn [mbind go_bind]. unfold settles_get at 1. cbn [fst snd].
  destruct ok; cbn [andb];
    [destruct (String.eqb (gr_Err reply) ErrNoKey); [done |];
     destruct (String.eqb (gr_Err reply) OK); [done |] |];
    rewrite next_server_ok by (apply Hr; lia); cbn [mbind go_bind];
    (replace ((rotate (ck_servers ck) l i + 1) mod ck_servers ck) with (rotate (ck_servers ck) l (S i));
     [| unfold rotate; rewrite Zplus_mod_idemp_l; f_equal; lia]);
    rewrite IH by done; cbn [mbind go_bind];
    by destruct (retry settles_get ck args (S i) l answers) as [[? ?] ?].
Qed.

Lemma PutAppend_loop_retry ck args answers : forall i l,
  0 <= l < ck_servers ck ->
  PutAppend_loop ck args (rotate (ck_servers ck) l i) answers = Done (retry settles_put ck args i l answers).
Proof.
  induction answers as [|[ok reply] answers IH]; intros i l Hl; [done |]. cbn [PutAppend_loop retry].
  pose proof (rotate_range (ck_servers ck) l i) as Hr.
  rewrite server_of_ok by (apply Hr; lia). cbn [mbind go_bind]. unfold settles_put at 1. cbn [fst snd].
  destruct (ok && String.eqb (pr_Err reply) OK); [done |].
  rewrite next_server_ok by (apply Hr; lia); cbn [mbind go_bind].
  replace ((rotate (ck_servers ck) l i + 1) mod ck_servers ck) with (rotate (ck_servers ck) l (S i));
    [| unfold rotate; rewrite Zplus_mod_idemp_l; f_equal; lia].
  rewrite IH by done. cbn [mbind go_bind].
  by destruct (retry settles_put ck args (S i) l answers) as [[? ?] ?].
Qed.

(** C36: [Get] and [PutAppend] on any answers of the network, from a clerk that knows a
    valid server: they never index out of range; they ask the servers in turn from the
    last known leader on, every time with the same arguments under a fresh sequence
    number; they return at the first answer that settles the operation, with its value,
    and remember the server that gave it. *)
Theorem clerk_operations ck key value op (gets : list (bool * GetReply)) (puts : list (bool * PutAppendReply)) :
  clerk_ok ck ->
  let gargs := mkGetArgs key (ck_id ck) (ck_seq ck + 1) in
  let pargs := mkPutAppendArgs key value op (ck_id ck) (ck_seq ck + 1) in
  (exists res ck' k, Get ck key gets = Done (res, ck', (fun j => (rotate (ck_servers ck) (ck_leaderId ck) j, gargs)) <$> seq 0 k)
     /\ clerk_ok ck' /\ ck_seq ck' = ck_seq ck + 1
     /\ match res with
        | None => k = length gets
        | Some v => exists a, gets !! (k - 1)%nat = Some a /\ settles_get a = Some v
            /\ (forall j b, (j < k - 1)%nat -> gets !! j = Some b -> settles_get b = None)
            /\ ck_leaderId ck' = rotate (ck_servers ck) (ck_leaderId ck) (k - 1)
        end)
  /\ (exists res ck' k, PutAppend ck key value op puts
       = Done (res, ck', (fun j => (rotate (ck_servers ck) (ck_leaderId ck) j, pargs)) <$> seq 0 k)
     /\ clerk_ok ck' /\ ck_seq ck' = ck_seq ck + 1
     /\ match res with
        | None => k = length puts
        | Some _ => exists a, puts !! (k - 1)%nat = Some a /\ settles_put a = Some tt
            /\ (forall j b, (j < k - 1)%nat -> puts !! j = Some b -> settles_put b = None)
            /\ ck_leaderId ck' = rotate (ck_servers ck) (ck_leaderId ck) (k - 1)
        end).
Proof.
  intros Hck gargs pargs. set (ck1 := ck <| ck_seq := ck_seq ck + 1 |>).
  assert (rotate (ck_servers ck1) (ck_leaderId ck) 0 = ck_leaderId ck) as Hrot.
  { unfold rotate. rewrite Z.add_0_r. apply Z.mod_small, Hck. }
  assert (forall i, clerk_ok (ck1 <| ck_leaderId := rotate (ck_servers ck1) (ck_leaderId ck) i |>)) as Hok.
  { intros i. apply rotate_range. unfold clerk_ok in Hck. cbn. lia. }
  split.
  - pose proof (Get_loop_retry ck1 gargs gets 0 (ck_leaderId ck) Hck) as Hrun. rewrite Hrot in Hrun.
    destruct (retry_sent settles_get ck1 gargs (ck_leaderId ck) gets 0) as (k & Hk & Hsent & Hres).
    destruct (retry settles_get ck1 gargs 0 (ck_leaderId ck) gets) as [[res ck'] sent]. cbn [fst snd] in *. subst sent.
    exists res, ck', k. split; [exact Hrun |]. destruct res as [v|].
    + destruct Hres as (a & Ha & _ & Hs & Hno & ->). split; [apply Hok |]. split; [done |]. by exists a.
    + destruct Hres as [-> ->]. by split.
  - pose proof (PutAppend_loop_retry ck1 pargs puts 0 (ck_leaderId ck) Hck) as Hrun. rewrite Hrot in Hrun.
    destruct (retry_sent settles_put ck1 pargs (ck_leaderId ck) puts 0) as (k & Hk & Hsent & Hres).
    destruct (retry settles_put ck1 pargs 0 (ck_leaderId ck) puts) as [[res ck'] sent]. cbn [fst snd] in *. subst sent.
    exists res, ck', k. split; [exact Hrun |]. destruct res as [[]|].
    + destruct Hres as (a & Ha & _ & Hs & Hno & ->). split; [apply Hok |]. split; [done |]. by exists a.
    + destruct Hres as [-> ->]. by split.
Qed.

(** A call that fails, a server that does not lead, and one that answers. *)
Lemma clerk_operations_witness :
  let ck := MakeClerk 3 42 in
  let answers := [(false, mkGetReply "" ""); (true, mkGetReply ErrWrongLeader ""); (true, mkGetReply OK "v")] in
  clerk_ok ck /\ (exists sent, Get ck "k" answers = Done (Some "v", mkClerk 3 42 2 1, sent) /\ sent.*1 = [0; 1; 2]).
Proof.
  intros ck answers. assert (clerk_ok ck) as Hck by (vm_compute; split; congruence). split; [exact Hck |].
  destruct (clerk_operations ck "k" "" "" answers [] Hck) as [(res & ck' & k & Hrun & _) _].
  vm_compute in Hrun. eexists. split; [vm_compute; reflexivity | reflexivity].
Defined.
