(* ===== verification/ShardCtrler.v ===== *)
(** The shard controller: [src/shardctrler] (common.go, client.go, server.go).

    As in [KvRaft], the network is the list of answers to the successive calls. *)
From S2P Require Import Prelude Persister RaftTypes RaftPersist RaftElection RaftSnapshot RaftNode.

(** ** [common.go] *)

Definition NShards : nat := 10.

Record Config := mkConfig { Num : Z; Shards : list Z; Groups : gmap Z (list string) }.
(** The zero value; its map is nil, which reads as empty. *)
Definition zero_Config : Config := mkConfig 0 (replicate NShards 0) ∅.

Definition OK : string := "OK".

Record JoinArgs := mkJoinArgs { ja_Servers : gmap Z (list string) }.
Record LeaveArgs := mkLeaveArgs { la_GIDs : list Z }.
Record MoveArgs := mkMoveArgs { ma_Shard : Z; ma_GID : Z }.
Record QueryArgs := mkQueryArgs { qa_Num : Z }.
Record JoinReply := mkJoinReply { jr_WrongLeader : bool; jr_Err : string }.
Record LeaveReply := mkLeaveReply { lr_WrongLeader : bool; lr_Err : string }.
Record MoveReply := mkMoveReply { mr_WrongLeader : bool; mr_Err : string }.
Record QueryReply := mkQueryReply { qr_WrongLeader : bool; qr_Err : string; qr_Config : Config }.

(** ** [client.go] *)

(** [sc_servers] is the number of servers. *)
Record Clerk := mkClerk { sc_servers : nat }.
Definition MakeClerk (servers : nat) : Clerk := mkClerk servers.

(** The loop that the four operations share: try each server in turn, then sleep and
    begin again, until [accept] takes a reply.  [todo] servers of the round are left.
    Result: the reply (nothing yet: [None]), the requests sent, the answers left.  With
    no server at all the loop only sleeps. *)
Section loop.
Context {Args Reply : Type}.

Fixpoint ask (n : nat) (args : Args) (accept : Reply -> bool) (todo : nat) (answers : list (bool * Reply))
    : option Reply * list (nat * Args) * list (bool * Reply) :=
  match answers with
  | [] => (None, [], [])
  | (ok, reply) :: answers =>
    match n with
    | O => (None, [], [])
    | S _ =>
      let srv := (n - todo)%nat in
      if ok && accept reply then (Some reply, [(srv, args)], answers)
      else
        let out := ask n args accept (if (todo =? 1)%nat then n else todo - 1)%nat answers in
        (out.1.1, (srv, args) :: out.1.2, out.2)
    end
  end.
End loop.

Definition Query (ck : Clerk) (num : Z) (answers : list (bool * QueryReply)) :=
  let args := mkQueryArgs num in
  let out := ask (sc_servers ck) args (fun r => negb (qr_WrongLeader r)) (sc_servers ck) answers in
  (qr_Config <$> out.1.1, out.1.2, out.2).
Definition Join (ck : Clerk) (servers : gmap Z (list string)) (answers : list (bool * JoinReply)) :=
  let args := mkJoinArgs servers in
  let out := ask (sc_servers ck) args (fun r => negb (jr_WrongLeader r)) (sc_servers ck) answers in
  ((fun _ => tt) <$> out.1.1, out.1.2, out.2).
Definition Leave (ck : Clerk) (gids : list Z) (answers : list (bool * LeaveReply)) :=
  let args := mkLeaveArgs gids in
  let out := ask (sc_servers ck) args (fun r => negb (lr_WrongLeader r)) (sc_servers ck) answers in
  ((fun _ => tt) <$> out.1.1, out.1.2, out.2).
Definition Move (ck : Clerk) (shard gid : Z) (answers : list (bool * MoveReply)) :=
  let args := mkMoveArgs shard gid in
  let out := ask (sc_servers ck) args (fun r => negb (mr_WrongLeader r)) (sc_servers ck) answers in
  ((fun _ => tt) <$> out.1.1, out.1.2, out.2).

(** ** [server.go] *)

Inductive Op := mkOp.

Section server.
Context `{!GobCodec Op}.

Record ShardCtrler := mkShardCtrler { sc_me : Z; sc_rf : Raft Op; configs : list Config }.

(** The handlers are empty: the reply stays as labrpc allocates it. *)
Definition ShardCtrler_Join (sc : ShardCtrler) (args : JoinArgs) (reply : JoinReply) := (sc, reply).
Definition ShardCtrler_Leave (sc : ShardCtrler) (args : LeaveArgs) (reply : LeaveReply) := (sc, reply).
Definition ShardCtrler_Move (sc : ShardCtrler) (args : MoveArgs) (reply : MoveReply) := (sc, reply).
Definition ShardCtrler_Query (sc : ShardCtrler) (args : QueryArgs) (reply : QueryReply) := (sc, reply).

Definition ShardCtrler_Kill (sc : ShardCtrler) : ShardCtrler := mkShardCtrler (sc_me sc) (Kill (sc_rf sc)) (configs sc).
Definition ShardCtrler_Raft (sc : ShardCtrler) : Raft Op := sc_rf sc.
Definition ShardCtrler_StartServer (npeers : nat) (me : Z) (ps : Persister) (now rnd : Z) : go ShardCtrler :=
  rf ← Make npeers me ps now rnd;
  mret (mkShardCtrler me rf [zero_Config]).
End server.

(** ** What the loop promises *)

Section loop_facts.
Context {Args Reply : Type} (args : Args) (accept : Reply -> bool).

Definition taken (a : bool * Reply) : bool := a.1 && accept a.2.

(** It returns at the first answer that is a reply of a server that is not the wrong
    leader; the requests went round the servers, all with the same arguments. *)
Lemma ask_spec n answers : (0 < n)%nat -> forall todo, (0 < todo <= n)%nat ->
  exists k, (ask n args accept todo answers).1.2 = (fun j => (((n - todo) + j) mod n, args)%nat) <$> seq 0 k
    /\ (ask n args accept todo answers).2 = drop k answers
    /\ match (ask n args accept todo answers).1.1 with
       | None => k = length answers /\ Forall (fun a => taken a = false) answers
       | Some r => exists k', k = S k' /\ answers !! k' = Some (true, r) /\ accept r = true
           /\ forall j a, (j < k')%nat -> answers !! j = Some a -> taken a = false
       end.
Proof.
  intros Hn. induction answers as [|[ok reply] answers IH]; intros todo Ht; cbn [ask]; [by exists 0%nat; cbn |].
  destruct n as [|n']; [lia |]. set (n := S n') in *. fold n.
  assert ((n - todo + 0) mod n = n - todo)%nat as Hmod by (rewrite Nat.add_0_r; apply Nat.mod_small; lia).
  destruct (ok && accept reply) eqn:Ea.
  - apply andb_true_iff in Ea as [-> Ha]. exists 1%nat. cbn [seq fmap list_fmap fst snd drop]. rewrite Hmod.
    split; [done |]. split; [done |]. exists 0%nat. split; [done |]. split; [done |]. split; [done |]. lia.
  - set (todo' := if (todo =? 1)%nat then n else (todo - 1)%nat).
    assert (0 < todo' <= n)%nat as Ht' by (unfold todo'; destruct (Nat.eqb_spec todo 1); lia).
    assert (forall j, ((n - todo' + j) mod n = (n - todo + S j) mod n)%nat) as Hshift.
    { intros j. unfold todo'. destruct (Nat.eqb_spec todo 1) as [->|].
      - replace (n - 1 + S j)%nat with (n - n + j + 1 * n)%nat by lia. by rewrite Nat.Div0.mod_add.
      - f_equal. lia. }
    destruct (IH todo' Ht') as (k & Hsent & Hdrop & Hres). exists (S k). cbn [fst snd drop].
    split; [|split; [done |]].
    + rewrite Hsent. cbn [seq fmap list_fmap]. rewrite Hmod. f_equal. rewrite <- seq_shift, <- list_fmap_compose.
      apply list_fmap_ext. intros _ j _. unfold compose. by rewrite Hshift.
    + destruct (ask n args accept todo' answers).1.1 as [r|].
      * destruct Hres as (k' & -> & Hk & Ha & Hno). exists (S k'). split; [done |]. split; [done |]. split; [done |].
        intros [|j] a Hj Hl; [injection Hl as <-; exact Ea | apply (Hno j); [lia | done]].
      * destruct Hres as [-> Hall]. split; [done |]. by constructor.
Qed.
End loop_facts.
