(* ===== verification/ShardKv.v ===== *)
(** The sharded key/value service: [src/shardkv] (common.go, client.go, server.go). *)
From S2P Require Import Prelude Persister RaftTypes RaftPersist RaftElection RaftSnapshot RaftNode ShardCtrler.

(** ** [common.go] *)

Definition ErrNoKey : string := "ErrNoKey".
Definition ErrWrongGroup : string := "ErrWrongGroup".
Definition ErrWrongLeader : string := "ErrWrongLeader".

Record PutAppendArgs := mkPutAppendArgs { pa_Key : string; pa_Value : string; pa_Op : string }.
Record PutAppendReply := mkPutAppendReply { pr_Err : string }.
Record GetArgs := mkGetArgs { ga_Key : string }.
Record GetReply := mkGetReply { gr_Err : string; gr_Value : string }.

(** ** [client.go] *)

Definition key2shard (key : string) : Z :=
  let shard := match key with EmptyString => 0 | String c _ => Z.of_N (Ascii.N_of_ascii c) end in
  Z.rem shard (Z.of_nat NShards).

(** [make_end] maps a name to its end, which is the name itself here. *)
Record Clerk := mkClerk { sm : ShardCtrler.Clerk; config : Config }.
Definition MakeClerk (ctrlers : nat) : Clerk := mkClerk (ShardCtrler.MakeClerk ctrlers) zero_Config.

(** What the network answers: the servers to [Get] or [PutAppend], the controllers to
    [Query]. *)
Record answers (Reply : Type) := mkAnswers { an_servers : list (bool * Reply); an_ctrlers : list (bool * QueryReply) }.
Arguments mkAnswers {Reply} _ _.
Arguments an_servers {Reply} _.
Arguments an_ctrlers {Reply} _.

(** The loop over the servers of the group: [inl]: the answers left when the round is
    over; [inr]: returned, or ([None]) still calling. *)
Fixpoint get_round (servers : list string) (args : GetArgs) (ans : list (bool * GetReply))
    : (list (bool * GetReply) + option string) * list (string * GetArgs) :=
  match servers with
  | [] => (inl ans, [])
  | srv :: servers =>
    match ans with
    | [] => (inr None, [])
    | (ok, reply) :: ans =>
      if ok && (String.eqb (gr_Err reply) OK || String.eqb (gr_Err reply) ErrNoKey) then
        (inr (Some (gr_Value reply)), [(srv, args)])
      else if ok && String.eqb (gr_Err reply) ErrWrongGroup then (inl ans, [(srv, args)])
      else let out := get_round servers args ans in (out.1, (srv, args) :: out.2)
    end
  end.
Fixpoint put_round (servers : list string) (args : PutAppendArgs) (ans : list (bool * PutAppendReply))
    : (list (bool * PutAppendReply) + option unit) * list (string * PutAppendArgs) :=
  match servers with
  | [] => (inl ans, [])
  | srv :: servers =>
    match ans with
    | [] => (inr None, [])
    | (ok, reply) :: ans =>
      if ok && String.eqb (pr_Err reply) OK then (inr (Some tt), [(srv, args)])
      else if ok && String.eqb (pr_Err reply) ErrWrongGroup then (inl ans, [(srv, args)])
      else let out := put_round servers args ans in (out.1, (srv, args) :: out.2)
    end
  end.

(** [ck.config.Shards[shard]] and the servers of its group, if there is one. *)
Definition servers_for (c : Config) (key : string) : go (option (list string)) :=
  gid ← go_index (Shards c) (key2shard key);
  mret (Groups c !! gid).

(** The loop, with at most [fuel] rounds: the result, the clerk, the requests sent. *)
Fixpoint Get_loop (fuel : nat) (ck : Clerk) (key : string) (an : answers GetReply)
    : go (option string * Clerk * list (string * GetArgs)) :=
  match fuel with
  | O => mret (None, ck, [])
  | S fuel =>
    servers ← servers_for (config ck) key;
    let out := match servers with
               | Some servers => get_round servers (mkGetArgs key) (an_servers an)
               | None => (inl (an_servers an), [])
               end in
    match out.1 with
    | inr res => mret (res, ck, out.2)
    | inl rest =>
      match Query (sm ck) (-1) (an_ctrlers an) with
      | (Some c, _, ctrlers) =>
        '(res, ck, sent) ← Get_loop fuel (mkClerk (sm ck) c) key (mkAnswers rest ctrlers);
        mret (res, ck, out.2 ++ sent)
      | (None, _, _) => mret (None, ck, out.2)
      end
    end
  end.
Fixpoint PutAppend_loop (fuel : nat) (ck : Clerk) (key value op : string) (an : answers PutAppendReply)
    : go (option unit * Clerk * list (string * PutAppendArgs)) :=
  match fuel with
  | O => mret (None, ck, [])
  | S fuel =>
    servers ← servers_for (config ck) key;
    let out := match servers with
               | Some servers => put_round servers (mkPutAppendArgs key value op) (an_servers an)
               | None => (inl (an_servers an), [])
               end in
    match out.1 with
    | inr res => mret (res, ck, out.2)
    | inl rest =>
      match Query (sm ck) (-1) (an_ctrlers an) with
      | (Some c, _, ctrlers) =>
        '(res, ck, sent) ← PutAppend_loop fuel (mkClerk (sm ck) c) key value op (mkAnswers rest ctrlers);
        mret (res, ck, out.2 ++ sent)
      | (None, _, _) => mret (None, ck, out.2)
      end
    end
  end.

(** Each round but the last takes an answer of a controller. *)
Definition Get (ck : Clerk) (key : string) (an : answers GetReply) :=
  Get_loop (S (length (an_ctrlers an))) ck key an.
Definition PutAppend (ck : Clerk) (key value op : string) (an : answers PutAppendReply) :=
  PutAppend_loop (S (length (an_ctrlers an))) ck key value op an.
Definition Put (ck : Clerk) (key value : string) an := PutAppend ck key value "Put" an.
Definition Append (ck : Clerk) (key value : string) an := PutAppend ck key value "Append" an.

(** ** [server.go] *)

Inductive Op := mkOp.

Section server.
Context `{!GobCodec Op}.

Record ShardKV := mkShardKV { kv_me : Z; kv_rf : Raft Op; kv_gid : Z; kv_ctrlers : nat; kv_maxraftstate : Z }.

(** The handlers are empty. *)
Definition ShardKV_Get (kv : ShardKV) (args : GetArgs) (reply : GetReply) := (kv, reply).
Definition ShardKV_PutAppend (kv : ShardKV) (args : PutAppendArgs) (reply : PutAppendReply) := (kv, reply).
Definition ShardKV_Kill (kv : ShardKV) : ShardKV :=
  mkShardKV (kv_me kv) (Kill (kv_rf kv)) (kv_gid kv) (kv_ctrlers kv) (kv_maxraftstate kv).
Definition ShardKV_StartServer (npeers : nat) (me : Z) (ps : Persister) (maxraftstate gid : Z) (ctrlers : nat) (now rnd : Z)
    : go ShardKV :=
  rf ← Make npeers me ps now rnd;
  mret (mkShardKV me rf gid ctrlers maxraftstate).
End server.

(** ** What the clerk promises *)

Lemma key2shard_range key : 0 <= key2shard key < Z.of_nat NShards.
Proof.
  unfold key2shard. change (Z.of_nat NShards) with 10.
  set (b := match key with EmptyString => 0 | String c _ => Z.of_N (Ascii.N_of_ascii c) end).
  assert (0 <= b) by (unfold b; destruct key; [done | apply N2Z.is_nonneg]).
  rewrite Z.rem_mod_nonneg by lia. apply Z.mod_pos_bound. lia.
Qed.

Definition config_ok (c : Config) : Prop := length (Shards c) = NShards.

Lemma servers_for_ok c key : config_ok c ->
  exists gid, Shards c !! Z.to_nat (key2shard key) = Some gid /\ servers_for c key = Done (Groups c !! gid).
Proof.
  intros Hc. pose proof (key2shard_range key) as Hr. unfold config_ok in Hc.
  destruct (go_index_total (Shards c) (key2shard key)) as (gid & Hg & Hl); [lia |].
  exists gid. split; [done |]. unfold servers_for. by rewrite Hg.
Qed.

Definition get_settles (r : GetReply) : bool := String.eqb (gr_Err r) OK || String.eqb (gr_Err r) ErrNoKey.

(** What a round does with its answers. *)
Lemma get_round_spec servers args ans :
  match (get_round servers args ans).1 with
  | inl rest => exists used, ans = used ++ rest /\ forall r, (true, r) ∈ used -> get_settles r = false
  | inr (Some v) => exists srv r, srv ∈ servers /\ last (get_round servers args ans).2 = Some (srv, args)
      /\ (true, r) ∈ ans /\ get_settles r = true /\ v = gr_Value r
  | inr None => forall r, (true, r) ∈ ans -> get_settles r = false
  end.
Proof.
  revert ans; induction servers as [|srv servers IH]; intros ans; cbn [get_round].
  { cbn. exists []. split; [done |]. by intros r ?%elem_of_nil. }
  destruct ans as [|[ok reply] ans]; [by cbn; intros r ?%elem_of_nil |].
  destruct (ok && _) eqn:E1; cbn [fst snd].
  { apply andb_true_iff in E1 as [-> Hs]. exists srv, reply. split; [by left |]. split; [done |]. split; [by left | done]. }
  assert (forall r, (ok, reply) = (true, r) -> get_settles r = false) as Hfirst by by intros r [= -> ->].
  destruct (ok && String.eqb (gr_Err reply) ErrWrongGroup) eqn:E2; cbn [fst snd].
  { exists [(ok, reply)]. split; [done |]. intros r Hr%list_elem_of_singleton. by apply Hfirst. }
  specialize (IH ans). destruct (get_round servers args ans).1 as [rest|[v|]] eqn:Er.
  - destruct IH as (used & -> & Hu). exists ((ok, reply) :: used). split; [done |].
    intros r [Hr|Hr]%elem_of_cons; [by apply Hfirst | by apply Hu].
  - destruct IH as (srv' & r & Hin & Hlast & Hr & Hs & Hv). exists srv', r. split; [by right |].
    split; [by rewrite last_cons, Hlast |]. split; [by right | done].
  - intros r [Hr|Hr]%elem_of_cons; [by apply Hfirst | by apply IH].
Qed.

Lemma Query_left ck num (ans : list (bool * QueryReply)) c sent rest :
  Query ck num ans = (Some c, sent, rest) ->
  (length rest < length ans)%nat /\ (exists r, (true, r) ∈ ans /\ qr_WrongLeader r = false /\ c = qr_Config r)
  /\ forall x, x ∈ rest -> x ∈ ans.
Proof.
  unfold Query. intros Hq. destruct (decide (0 < sc_servers ck)%nat) as [Hn|Hn]; last first.
  { replace (sc_servers ck) with 0%nat in Hq by lia. by destruct ans as [|[[] ?]]. }
  destruct (ask_spec (mkQueryArgs num) (fun r => negb (qr_WrongLeader r)) (sc_servers ck) ans Hn (sc_servers ck))
    as (k & _ & Hdrop & Hres); [lia |].
  destruct (ask _ _ _ _ ans) as [[[r|] s] d]; cbn in *; [|done]. injection Hq as <- <- <-.
  destruct Hres as (k' & -> & Hk & Ha & _). subst d. split; [|split].
  - rewrite length_drop. apply lookup_lt_Some in Hk. lia.
  - exists r. split; [by eapply list_elem_of_lookup_2 |]. split; [by destruct (qr_WrongLeader r) | done].
  - intros x Hx. rewrite <- (take_drop (S k') ans). apply elem_of_app. by right.
Qed.

Definition configs_ok (ans : list (bool * QueryReply)) : Prop := forall r, (true, r) ∈ ans -> config_ok (qr_Config r).

Lemma Get_loop_spec fuel : forall ck key an,
  config_ok (config ck) -> configs_ok (an_ctrlers an) -> (length (an_ctrlers an) < fuel)%nat ->
  exists res ck' sent, Get_loop fuel ck key an = Done (res, ck', sent)
    /\ (config ck' = config ck \/ exists r, (true, r) ∈ an_ctrlers an /\ qr_WrongLeader r = false /\ config ck' = qr_Config r)
    /\ forall v, res = Some v -> exists gid servers srv r,
         Shards (config ck') !! Z.to_nat (key2shard key) = Some gid /\ Groups (config ck') !! gid = Some servers
         /\ srv ∈ servers /\ last sent = Some (srv, mkGetArgs key)
         /\ (true, r) ∈ an_servers an /\ get_settles r = true /\ v = gr_Value r.
Proof.
  induction fuel as [|fuel IH]; intros ck key an Hc Hcs Hf; [lia |]. cbn [Get_loop].
  destruct (servers_for_ok (config ck) key Hc) as (gid & Hgid & ->). cbn [mbind go_bind].
  set (out := match Groups (config ck) !! gid with Some _ => _ | None => _ end).
  assert (match out.1 with
          | inl rest => forall x, x ∈ rest -> x ∈ an_servers an
          | inr (Some v) => exists servers srv r, Groups (config ck) !! gid = Some servers /\ srv ∈ servers
              /\ last out.2 = Some (srv, mkGetArgs key) /\ (true, r) ∈ an_servers an /\ get_settles r = true /\ v = gr_Value r
          | inr None => True end) as Hout.
  { unfold out. destruct (Groups (config ck) !! gid) as [servers|] eqn:Eg; [|by cbn; intros x Hx].
    pose proof (get_round_spec servers (mkGetArgs key) (an_servers an)) as Hr.
    destruct (get_round servers (mkGetArgs key) (an_servers an)).1 as [rest|[v|]]; [| |done].
    - destruct Hr as (used & -> & _). intros x Hx. apply elem_of_app. by right.
    - destruct Hr as (srv & r & ?). by exists servers, srv, r. }
  destruct out.1 as [rest|res]; last first.
  { eexists res, ck, _. split; [done |]. split; [by left |]. intros v ->.
    destruct Hout as (servers & srv & r & ? & ? & ? & ? & ? & ?). exists gid, servers, srv, r. by split_and!. }
  destruct (Query (sm ck) (-1) (an_ctrlers an)) as [[[c|] qsent] ctrlers] eqn:Eq; last first.
  { eexists None, ck, _. split; [done |]. split; [by left | done]. }
  apply Query_left in Eq as (Hlen & (r & Hr & Hw & ->) & Hsub).
  destruct (IH (mkClerk (sm ck) (qr_Config r)) key (mkAnswers rest ctrlers)) as (res & ck' & sent & -> & Hck' & Hv).
  - by apply Hcs.
  - intros r' Hr'. apply Hcs, Hsub, Hr'.
  - cbn. lia.
  - cbn [mbind go_bind]. eexists res, ck', _. split; [done |]. split.
    + right. destruct Hck' as [->|(r' & Hr' & Hw' & ->)]; [by exists r |]. exists r'. split; [by apply Hsub | done].
    + intros v Hres. destruct (Hv v Hres) as (gid' & servers & srv & r' & ? & ? & ? & Hlast & Hin & ? & ?).
      exists gid', servers, srv, r'. repeat (split; [done |]). rewrite last_app, Hlast. split; [done |].
      split; [by apply Hout | done].
Qed.

(** C38: A [Get] of the sharded service never indexes out of range (a key always maps to
    one of the ten shards), its configuration only ever changes to one that a leading
    controller answered, and a value it returns was answered, without error or as
    missing, by a server of the group that owns the shard of the key in the
    configuration the clerk has then. *)
Theorem Get_from_owner ck key an :
  config_ok (config ck) -> configs_ok (an_ctrlers an) ->
  exists res ck' sent, Get ck key an = Done (res, ck', sent)
    /\ (config ck' = config ck \/ exists r, (true, r) ∈ an_ctrlers an /\ qr_WrongLeader r = false /\ config ck' = qr_Config r)
    /\ forall v, res = Some v -> exists gid servers srv r,
         Shards (config ck') !! Z.to_nat (key2shard key) = Some gid /\ Groups (config ck') !! gid = Some servers
         /\ srv ∈ servers /\ last sent = Some (srv, mkGetArgs key)
         /\ (true, r) ∈ an_servers an /\ get_settles r = true /\ v = gr_Value r.
Proof. intros Hc Hcs. by apply Get_loop_spec; [| | lia]. Qed.

(** A clerk with no configuration asks the controllers, is told by the first server that
    it is not the leader, and gets the value from the second one. *)
Lemma Get_from_owner_witness :
  let c := mkConfig 1 (replicate NShards 100) {[100 := ["a"; "b"]]} in
  let an := mkAnswers [(true, mkGetReply ErrWrongLeader ""); (true, mkGetReply OK "v")]
              [(false, mkQueryReply false "" zero_Config); (true, mkQueryReply false OK c)] in
  config_ok (config (MakeClerk 3)) /\ exists ck' sent, Get (MakeClerk 3) "k" an = Done (Some "v", ck', sent)
    /\ exists gid servers, Groups (config ck') !! gid = Some servers /\ "b" ∈ servers.
Proof.
  intros c an. split; [reflexivity |].
  destruct (Get_from_owner (MakeClerk 3) "k" an) as (res & ck' & sent & Hrun & _ & Hv).
  - reflexivity.
  - intros r [Hr|Hr%list_elem_of_singleton]%elem_of_cons; [discriminate |]. injection Hr as ->. reflexivity.
  - assert (res = Some "v" /\ last sent = Some ("b", mkGetArgs "k")) as [-> Hl].
    { vm_compute in Hrun. injection Hrun as <- _ <-. by split. }
    exists ck', sent. split; [exact Hrun |].
    destruct (Hv "v" eq_refl) as (gid & servers & srv & r & _ & Hg & Hin & Hlast & _).
    exists gid, servers. split; [exact Hg |]. rewrite Hl in Hlast. by injection Hlast as <-.
Defined.
