(* ===== verification/MapReduce.v ===== *)
(** MapReduce: the sequential program [src/main/mrsequential.go], the skeletons of
    [src/mr] and of its main programs, and the applications of [src/mrapps] that do not
    look at processes or files.

    Texts are ASCII: a rune is a character, and [unicode.IsLetter] is the test for the
    ASCII letters.  The iteration order of a Go map and the order that [sort.Sort]
    leaves equal elements in are arguments. *)
From Stdlib Require Import Ascii.
From stdpp Require Import pretty.
From S2P Require Import Prelude.

(** ** [mr] *)

Record KeyValue := mkKeyValue { Key : string; Value : string }.

Definition byte_of (c : ascii) : Z := Z.of_N (N_of_ascii c).

(** FNV-1a on 32 bits, [hash/fnv]. *)
Fixpoint fnv32a (h : Z) (s : string) : Z :=
  match s with
  | EmptyString => h
  | String c s => fnv32a ((Z.lxor h (byte_of c) * 16777619) mod 2 ^ 32) s
  end.
Definition ihash (key : string) : Z :=
  let h := fnv32a 2166136261 key in
  Z.land h 0x7fffffff.

Record ExampleArgs := mkExampleArgs { X : Z }.
Record ExampleReply := mkExampleReply { Y : Z }.
Definition Example_rpc (args : ExampleArgs) (reply : ExampleReply) : ExampleReply := mkExampleReply (X args + 1).
Definition Done_mr : bool := false.
Definition coordinatorSock (uid : Z) : string := "/var/tmp/5840-mr-" +:+ pretty uid.

(** The coordinator has no state.  [listens]: whether [net.Listen] succeeds. *)
Record Coordinator := mkCoordinator {}.
Definition server (listens : bool) : go unit := if listens then mret tt else Panic "listen error:".
Definition MakeCoordinator (listens : bool) (files : list string) (nReduce : Z) : go Coordinator :=
  let c := mkCoordinator in
  _ ← server listens;
  mret c.

(** An RPC by net/rpc, whose connection and answers are arguments: [dials] is whether
    [DialHTTP] succeeds, [remote] the called method, or [None] if the call fails. *)
Definition call {A R} (dials : bool) (remote : A -> R -> option R) (args : A) (reply : R) : go (bool * R) :=
  if dials then
    mret (match remote args reply with Some reply => (true, reply) | None => (false, reply) end)
  else Panic "dialing:".

(** What [CallExample] prints (without the error that a failed call prints before). *)
Definition CallExample (dials : bool) (remote : ExampleArgs -> ExampleReply -> option ExampleReply) : go string :=
  let args := mkExampleArgs 99 in
  let reply := mkExampleReply 0 in
  '(ok, reply) ← call dials remote args reply;
  mret (if ok : bool then "reply.Y " +:+ pretty (Y reply) else "call failed!").

(** The worker of the assignment does nothing yet. *)
Definition Worker (mapf : string -> string -> list KeyValue) (reducef : string -> list string -> string) : unit := tt.

(** [main] of mrcoordinator.go and mrworker.go: [argv] is [os.Args]; [plugin] is what
    [plugin.Open] and [Lookup] find. *)
Definition mrcoordinator_main (argv : list string) (listens : bool) : go unit :=
  if len argv <? 2 then Panic "Usage: mrcoordinator inputfiles..." else
  _ ← MakeCoordinator listens (drop 1 argv) 10;
  if Done_mr then mret tt else Hang "for m.Done() == false".
Definition loadPlugin
    (plugin : string -> option (option (string -> string -> list KeyValue) * option (string -> list string -> string)))
    (filename : string) : go ((string -> string -> list KeyValue) * (string -> list string -> string)) :=
  match plugin filename with
  | None => Panic "cannot load plugin"
  | Some (None, _) => Panic "cannot find Map"
  | Some (Some mapf, None) => Panic "cannot find Reduce"
  | Some (Some mapf, Some reducef) => mret (mapf, reducef)
  end.
Definition mrworker_main plugin (argv : list string) : go unit :=
  match argv with
  | [_; filename] =>
    '(mapf, reducef) ← loadPlugin plugin filename;
    mret (Worker mapf reducef)
  | _ => Panic "Usage: mrworker xxx.so"
  end.

(** ** Standard library *)

Definition IsLetter (c : ascii) : bool :=
  let b := byte_of c in
  ((65 <=? b) && (b <=? 90)) || ((97 <=? b) && (b <=? 122)).

(** [strings.FieldsFunc]: the maximal runs of characters that [f] is false on; [cur] is
    the run being read, reversed. *)
Fixpoint string_rev (s acc : string) : string :=
  match s with EmptyString => acc | String c s => string_rev s (String c acc) end.
Fixpoint FieldsFunc_loop (f : ascii -> bool) (s cur : string) : list string :=
  match s with
  | EmptyString => match cur with EmptyString => [] | _ => [string_rev cur EmptyString] end
  | String c s =>
    if f c then
      match cur with
      | EmptyString => FieldsFunc_loop f s EmptyString
      | _ => string_rev cur EmptyString :: FieldsFunc_loop f s EmptyString
      end
    else FieldsFunc_loop f s (String c cur)
  end.
Definition FieldsFunc (s : string) (f : ascii -> bool) : list string := FieldsFunc_loop f s EmptyString.

Fixpoint Join (l : list string) (sep : string) : string :=
  match l with
  | [] => ""
  | [s] => s
  | s :: l => s +:+ sep +:+ Join l sep
  end.

Definition str_le (a b : string) : Prop := String.leb a b = true.
#[export] Instance str_le_dec : RelDecision str_le.
Proof. intros a b. unfold str_le. apply _. Defined.
Definition Strings (l : list string) : list string := merge_sort str_le l.

(** ** Applications *)

Module Wc.
Definition Map (filename contents : string) : list KeyValue :=
  let ff := fun r => negb (IsLetter r) in
  let words := FieldsFunc contents ff in
  (fun w => mkKeyValue w "1") <$> words.
Definition Reduce (key : string) (values : list string) : string := pretty (len values).
End Wc.

Module Indexer.
(** [order] is the iteration order of the map. *)
Definition Map (order : list string -> list string) (document value : string) : list KeyValue :=
  let words := FieldsFunc value (fun x => negb (IsLetter x)) in
  (fun w => mkKeyValue w document) <$> order (elements (list_to_set words : gset string)).
Definition Reduce (key : string) (values : list string) : string :=
  let values := Strings values in
  pretty (len values) +:+ " " +:+ Join values ",".
End Indexer.

Module Crash.
(** [rnd] is the random number; the long delay is no step. *)
Definition maybeCrash (rnd : Z) : go unit := if rnd <? 330 then Panic "os.Exit" else mret tt.
Definition Map (rnd : Z) (filename contents : string) : go (list KeyValue) :=
  _ ← maybeCrash rnd;
  mret [mkKeyValue "a" filename; mkKeyValue "b" (pretty (Z.of_nat (String.length filename)));
        mkKeyValue "c" (pretty (Z.of_nat (String.length contents))); mkKeyValue "d" "xyzzy"].
Definition Reduce (rnd : Z) (key : string) (values : list string) : go string :=
  _ ← maybeCrash rnd;
  let vv := Strings values in
  mret (Join vv " ").
End Crash.

Module NoCrash.
Definition Map (filename contents : string) : list KeyValue :=
  [mkKeyValue "a" filename; mkKeyValue "b" (pretty (Z.of_nat (String.length filename)));
   mkKeyValue "c" (pretty (Z.of_nat (String.length contents))); mkKeyValue "d" "xyzzy"].
Definition Reduce (key : string) (values : list string) : string :=
  let vv := Strings values in
  Join vv " ".
End NoCrash.

Module EarlyExit.
Definition Map (filename contents : string) : list KeyValue := [mkKeyValue filename "1"].
Definition Reduce (key : string) (values : list string) : string := pretty (len values).
End EarlyExit.

Module RTiming.
Definition Map (filename contents : string) : list KeyValue :=
  (fun k => mkKeyValue k "1") <$> ["a"; "b"; "c"; "d"; "e"; "f"; "g"; "h"; "i"; "j"].
End RTiming.

(** ** [mrsequential] *)

(** [ByKey.Less] *)
Definition Less (a b : KeyValue) : bool := String.ltb (Key a) (Key b).

Class KvSort (sort : list KeyValue -> list KeyValue) : Prop := {
  kv_perm l : sort l ≡ₚ l;
  kv_sorted l i j a b : (i < j)%nat -> sort l !! i = Some a -> sort l !! j = Some b -> Less b a = false }.

(** Lines 71-73: the elements with key [k] at the front, and the rest. *)
Fixpoint span (k : string) (l : list KeyValue) : list KeyValue * list KeyValue :=
  match l with
  | kv :: l =>
    if String.eqb (Key kv) k then (kv :: (span k l).1, (span k l).2) else ([], kv :: l)
  | [] => ([], [])
  end.

(** Lines 68-84: the lines that are printed; one turn takes at least one element. *)
Fixpoint reduce_loop (reducef : string -> list string -> string) (fuel : nat) (intermediate : list KeyValue)
    : list (string * string) :=
  match fuel, intermediate with
  | S fuel, kv :: rest =>
    let out := span (Key kv) rest in
    let values := Value <$> kv :: out.1 in
    (Key kv, reducef (Key kv) values) :: reduce_loop reducef fuel out.2
  | _, _ => []
  end.

Definition sequential (sort : list KeyValue -> list KeyValue) (mapf : string -> string -> list KeyValue)
    (reducef : string -> list string -> string) (files : list (string * string)) : list (string * string) :=
  let intermediate := concat ((fun f => mapf f.1 f.2) <$> files) in
  let intermediate := sort intermediate in
  reduce_loop reducef (length intermediate) intermediate.

(** The contents of [mr-out-0]. *)
Definition newline : string := String "010"%char EmptyString.
Definition mr_out (lines : list (string * string)) : string :=
  foldr (fun l s => l.1 +:+ " " +:+ l.2 +:+ newline +:+ s) "" lines.

(** ** Order of strings *)

Lemma ascii_compare_N a b : Ascii.compare a b = N.compare (N_of_ascii a) (N_of_ascii b).
Proof. reflexivity. Qed.

Lemma N_of_ascii_inj a b : N_of_ascii a = N_of_ascii b -> a = b.
Proof. intros H. rewrite <- (ascii_N_embedding a), <- (ascii_N_embedding b). by rewrite H. Qed.

Lemma str_ltb_cons a s b t :
  String.ltb (String a s) (String b t) = true <->
  (N_of_ascii a < N_of_ascii b)%N \/ (a = b /\ String.ltb s t = true).
Proof.
  unfold String.ltb. cbn [String.compare]. rewrite ascii_compare_N.
  destruct (N.compare_spec (N_of_ascii a) (N_of_ascii b)) as [He|Hl|Hg].
  - apply N_of_ascii_inj in He as ->. split; [by right | intros [?|[_ ?]]; [lia | done]].
  - split; [by left | done].
  - split; [done | intros [?|[-> _]]; lia].
Qed.

Lemma str_ltb_trans s t u : String.ltb s t = true -> String.ltb t u = true -> String.ltb s u = true.
Proof.
  revert t u. induction s as [|a s IH]; intros [|b t] [|c u]; try done.
  rewrite !str_ltb_cons. intros [?|[-> ?]] [?|[-> ?]].
  - left. lia.
  - by left.
  - by left.
  - right. split; [done | by eapply IH].
Qed.

Lemma str_ltb_irrefl s : String.ltb s s = false.
Proof.
  induction s as [|a s IH]; [done |]. apply not_true_iff_false. rewrite str_ltb_cons.
  intros [?|[_ ?]]; [lia | congruence].
Qed.

Lemma str_ltb_total s t : String.ltb s t = false -> String.ltb t s = false -> s = t.
Proof.
  unfold String.ltb. rewrite (String.compare_antisym t s). destruct (String.compare s t) eqn:E; cbn; try done.
  intros _ _. by apply String.compare_eq_iff.
Qed.

(** ** What the sequential program computes *)

(** No later key is smaller. *)
Definition by_key (l : list KeyValue) : Prop :=
  forall i j a b, (i < j)%nat -> l !! i = Some a -> l !! j = Some b -> Less b a = false.

Lemma by_key_cons a k : by_key (a :: k) -> by_key k /\ forall b, b ∈ k -> Less b a = false.
Proof.
  intros Hs. split.
  - intros i j x y Hij Hx Hy. apply (Hs (S i) (S j)); [lia | done | done].
  - intros b [j Hj]%list_elem_of_lookup. apply (Hs 0%nat (S j)); [lia | done | done].
Qed.

Lemma span_app k l : (span k l).1 ++ (span k l).2 = l.
Proof. induction l as [|kv l IH]; [done |]. cbn. destruct (String.eqb (Key kv) k); cbn; [by rewrite IH | done]. Qed.

Lemma span_keys k l : Forall (fun kv => Key kv = k) (span k l).1.
Proof.
  induction l as [|kv l IH]; [constructor |]. cbn. destruct (String.eqb_spec (Key kv) k); [by constructor | constructor].
Qed.

Lemma by_key_app_r l1 l2 : by_key (l1 ++ l2) -> by_key l2.
Proof.
  intros Hs i j a b Hij Ha Hb. apply (Hs (length l1 + i)%nat (length l1 + j)%nat); [lia | |];
    by rewrite lookup_app_r, Nat.add_comm, Nat.add_sub by lia.
Qed.

(** Behind the elements with the first key, all keys are larger. *)
Lemma span_rest kv l x : by_key (kv :: l) -> x ∈ (span (Key kv) l).2 -> String.ltb (Key kv) (Key x) = true.
Proof.
  induction l as [|y l IH]; intros Hs; cbn; [by intros ?%elem_of_nil |].
  destruct (String.eqb_spec (Key y) (Key kv)) as [He|Hne]; cbn.
  - intros Hx. apply IH; [|done]. intros i j a b Hij Ha Hb.
    destruct i as [|i], j as [|j]; [lia | | lia |].
    + apply (Hs 0%nat (S (S j))); [lia | done | done].
    + apply (Hs (S (S i)) (S (S j))); [lia | done | done].
  - intros Hx. apply by_key_cons in Hs as [Hs Hkv].
    assert (String.ltb (Key kv) (Key y) = true) as Hy.
    { destruct (String.ltb (Key kv) (Key y)) eqn:E; [done |]. exfalso. apply Hne.
      apply str_ltb_total; [|done]. apply (Hkv y). by left. }
    apply elem_of_cons in Hx as [->|Hx]; [done |].
    apply by_key_cons in Hs as [_ Hyl]. specialize (Hyl x Hx). unfold Less in Hyl.
    destruct (String.ltb (Key y) (Key x)) eqn:E; [by eapply str_ltb_trans |].
    by rewrite <- (str_ltb_total _ _ E Hyl).
Qed.

Definition values_of (k : string) (l : list KeyValue) : list string := Value <$> filter (fun kv => Key kv = k) l.

(** The lines of the output: one per key, in ascending order, from all of its values. *)
Lemma reduce_loop_spec reducef fuel : forall l,
  by_key l -> (length l <= fuel)%nat ->
  let lines := reduce_loop reducef fuel l in
  (forall i j a b, (i < j)%nat -> lines.*1 !! i = Some a -> lines.*1 !! j = Some b -> String.ltb a b = true)
  /\ (forall k, k ∈ lines.*1 <-> exists kv, kv ∈ l /\ Key kv = k)
  /\ forall k out, (k, out) ∈ lines -> out = reducef k (values_of k l).
Proof.
  induction fuel as [|fuel IH]; intros l Hs Hl; cbn zeta.
  { destruct l as [|? ?]; [|cbn in Hl; lia]. cbn. split; [done |]. split; [|by intros k out ?%elem_of_nil].
    intros k. split; [by intros ?%elem_of_nil | by intros (kv & ?%elem_of_nil & _)]. }
  destruct l as [|kv l]; cbn [reduce_loop].
  { cbn. split; [done |]. split; [|by intros k out ?%elem_of_nil].
    intros k. split; [by intros ?%elem_of_nil | by intros (kv & ?%elem_of_nil & _)]. }
  pose proof (span_app (Key kv) l) as Happ. pose proof (span_keys (Key kv) l) as Hkeys.
  assert (forall x, x ∈ (span (Key kv) l).2 -> String.ltb (Key kv) (Key x) = true) as Hrest by (intros x; by apply span_rest).
  destruct (span (Key kv) l) as [same rest]. cbn [fst snd] in *. subst l.
  rewrite Forall_forall in Hkeys.
  destruct (IH rest) as (Hsorted & Hin & Hout).
  { rewrite app_comm_cons in Hs. by eapply by_key_app_r. }
  { cbn in Hl. rewrite length_app in Hl. lia. }
  assert (values_of (Key kv) (kv :: same ++ rest) = Value <$> kv :: same) as Hvals.
  { unfold values_of. rewrite filter_cons_True by done. rewrite filter_app. cbn. f_equal.
    assert (filter (fun x => Key x = Key kv) same = same) as ->.
    { clear -Hkeys. induction same as [|x same IH]; [done |].
      rewrite filter_cons_True by (apply Hkeys; by left). f_equal. apply IH. intros y Hy. apply Hkeys. by right. }
    assert (filter (fun x => Key x = Key kv) rest = []) as ->; [|by rewrite app_nil_r].
    clear -Hrest. induction rest as [|x rest IH]; [done |]. rewrite filter_cons_False.
    - apply IH. intros y Hy. apply Hrest. by right.
    - intros Hx. specialize (Hrest x ltac:(by left)). rewrite Hx, str_ltb_irrefl in Hrest. done. }
  split; [|split].
  - intros i j a b Hij Ha Hb. destruct i as [|i].
    + injection Ha as <-. destruct j as [|j]; [lia |]. cbn in Hb.
      assert (b ∈ (reduce_loop reducef fuel rest).*1) as Hb' by by eapply list_elem_of_lookup_2.
      apply Hin in Hb' as (x & Hx & <-). by apply Hrest.
    + destruct j as [|j]; [lia |]. apply (Hsorted i j); [lia | done | done].
  - intros k. cbn [fmap list_fmap fst]. rewrite elem_of_cons, Hin. split.
    + intros [->|(x & Hx & <-)]; [exists kv; split; [by left | done] |].
      exists x. split; [|done]. right. apply elem_of_app. by right.
    + intros (x & [->|[Hx|Hx]%elem_of_app]%elem_of_cons & <-); [by left | left; by apply Hkeys |].
      right. by exists x.
  - intros k out [[= -> ->]|Hk]%elem_of_cons; [by rewrite Hvals |].
    rewrite (Hout _ _ Hk). f_equal.
    assert (k <> Key kv) as Hne.
    { intros ->. assert (Key kv ∈ (reduce_loop reducef fuel rest).*1) as Hk'
        by (apply list_elem_of_fmap; by exists (Key kv, out)).
      apply Hin in Hk' as (x & Hx & He). specialize (Hrest x Hx). by rewrite He, str_ltb_irrefl in Hrest. }
    unfold values_of. rewrite filter_cons_False by congruence. rewrite filter_app.
    assert (filter (fun x => Key x = k) same = []) as ->; [|done].
    clear -Hkeys Hne. induction same as [|x same IH]; [done |]. rewrite filter_cons_False.
    + apply IH. intros y Hy. apply Hkeys. by right.
    + rewrite (Hkeys x) by by left. congruence.
Qed.

(** Everything that the map calls of a run emit, in file order. *)
Definition emitted (mapf : string -> string -> list KeyValue) (files : list (string * string)) : list KeyValue :=
  concat ((fun f => mapf f.1 f.2) <$> files).

Lemma values_of_perm k l l' : l ≡ₚ l' -> values_of k l ≡ₚ values_of k l'.
Proof. intros Hp. unfold values_of. by rewrite Hp. Qed.

Lemma sequential_lines sort mapf reducef files :
  KvSort sort ->
  let lines := sequential sort mapf reducef files in
  (forall i j a b, (i < j)%nat -> lines.*1 !! i = Some a -> lines.*1 !! j = Some b -> String.ltb a b = true)
  /\ (forall k, k ∈ lines.*1 <-> exists kv, kv ∈ emitted mapf files /\ Key kv = k)
  /\ forall k out, (k, out) ∈ lines -> exists vals, vals ≡ₚ values_of k (emitted mapf files) /\ out = reducef k vals.
Proof.
  intros Hsort lines. unfold lines, sequential. fold (emitted mapf files).
  destruct (reduce_loop_spec reducef (length (sort (emitted mapf files))) (sort (emitted mapf files))) as (Hs & Hin & Hout);
    [intros i j a b; apply kv_sorted | done |].
  split; [exact Hs |]. split.
  - intros k. rewrite Hin. by setoid_rewrite kv_perm.
  - intros k out Hk. eexists. split; [|by apply Hout]. apply values_of_perm, kv_perm.
Qed.

(** The output of the sequential program, whatever the sort: one line for each key
    that some map call emitted, in strictly ascending order, holding what [reducef]
    returns on all the values that were emitted under the key. *)
Theorem sequential_output sort mapf reducef files :
  KvSort sort ->
  let lines := sequential sort mapf reducef files in
  (forall i j a b, (i < j)%nat -> lines.*1 !! i = Some a -> lines.*1 !! j = Some b -> String.ltb a b = true)
  /\ (forall k, k ∈ lines.*1 <-> exists kv, kv ∈ emitted mapf files /\ Key kv = k)
  /\ forall k out, (k, out) ∈ lines -> exists vals, vals ≡ₚ values_of k (emitted mapf files) /\ out = reducef k vals.
Proof. apply sequential_lines. Qed.

(** ** Word count *)

Fixpoint letters (w : string) : Prop :=
  match w with EmptyString => True | String c w => IsLetter c = true /\ letters w end.
Definition words_of (s : string) : list string := FieldsFunc s (fun r => negb (IsLetter r)).

Lemma string_rev_app s acc : string_rev s acc = string_rev s EmptyString +:+ acc.
Proof.
  revert acc; induction s as [|c s IH]; intros acc; [done |]. cbn. rewrite IH, (IH (String c EmptyString)).
  clear. induction (string_rev s EmptyString) as [|d t IH]; [done |]. exact (f_equal (String d) IH).
Qed.

Lemma string_rev_rev s : forall acc, string_rev (string_rev s acc) EmptyString = string_rev acc s.
Proof. induction s as [|c s IH]; intros acc; [done |]. cbn. apply IH. Qed.

Lemma FieldsFunc_run w : forall s cur, letters w ->
  FieldsFunc_loop (fun r => negb (IsLetter r)) (w +:+ s) cur
  = FieldsFunc_loop (fun r => negb (IsLetter r)) s (string_rev w cur).
Proof.
  induction w as [|c w IH]; intros s cur Hw; [done |]. destruct Hw as [Hc Hw].
  change (String c w +:+ s) with (String c (w +:+ s)). cbn [FieldsFunc_loop]. rewrite Hc. cbn [negb]. by apply IH.
Qed.

Lemma string_rev_nonempty w cur : w <> EmptyString \/ cur <> EmptyString -> string_rev w cur <> EmptyString.
Proof.
  revert cur; induction w as [|c w IH]; intros cur Hne; cbn; [by destruct Hne |]. apply IH. by right.
Qed.

(** [strings.FieldsFunc] as the word-count and index applications use it is the
    decomposition into words: it skips a separator at the front, ends a word at the
    first separator behind it, and the rest of a text without separators is a word. *)
Theorem FieldsFunc_words (w s : string) (c : ascii) :
  letters w -> w <> EmptyString -> IsLetter c = false ->
  words_of EmptyString = [] /\ words_of (String c s) = words_of s
  /\ words_of (w +:+ String c s) = w :: words_of s /\ words_of w = [w].
Proof.
  intros Hw Hne Hc. unfold words_of, FieldsFunc. split; [done |]. split; [by cbn; rewrite Hc |].
  assert (string_rev w EmptyString <> EmptyString) as Hr by (apply string_rev_nonempty; by left).
  assert (string_rev (string_rev w EmptyString) EmptyString = w) as Hrr by apply string_rev_rev.
  split.
  - rewrite FieldsFunc_run by done. cbn [FieldsFunc_loop]. rewrite Hc. cbn [negb].
    destruct (string_rev w EmptyString) as [|d t]; [done | by rewrite Hrr].
  - assert (w +:+ EmptyString = w) as Hnil.
    { clear. induction w as [|d w IH]; [done |]. exact (f_equal (String d) IH). }
    rewrite <- Hnil at 1. rewrite FieldsFunc_run by done. cbn [FieldsFunc_loop].
    destruct (string_rev w EmptyString) as [|d t]; [done | by rewrite Hrr].
Qed.

Lemma FieldsFunc_words_witness :
  words_of "a b, cd" = ["a"; "b"; "cd"] /\ words_of ("cd" +:+ String " "%char "x") = "cd" :: words_of "x".
Proof.
  split; [reflexivity |]. apply (FieldsFunc_words "cd" "x" " "%char); [repeat constructor | discriminate | reflexivity].
Defined.

(** How often [w] occurs as a word in the files. *)
Definition occurrences (w : string) (files : list (string * string)) : nat :=
  length (filter (fun x => x = w) (concat ((fun f => words_of f.2) <$> files))).

Lemma wc_values w files : length (values_of w (emitted Wc.Map files)) = occurrences w files.
Proof.
  unfold values_of, occurrences, emitted. rewrite length_fmap. induction files as [|f files IH]; [done |].
  cbn [fmap list_fmap concat]. rewrite !filter_app, !length_app, IH. f_equal.
  unfold Wc.Map. fold (words_of f.2). induction (words_of f.2) as [|x l IHl]; [done |].
  cbn [fmap list_fmap]. rewrite !filter_cons. cbn [Key]. destruct (decide (x = w)); cbn; by rewrite IHl.
Qed.

(** C40: Run sequentially, the word-count application prints one line for each word
    that occurs in the files, in strictly ascending order of the words (so that no word
    has two lines), with the number of times it occurs; and no other line. *)
Theorem wordcount_output sort files :
  KvSort sort ->
  let lines := sequential sort Wc.Map Wc.Reduce files in
  (forall i j a b, (i < j)%nat -> lines.*1 !! i = Some a -> lines.*1 !! j = Some b -> String.ltb a b = true)
  /\ forall w out, (w, out) ∈ lines <-> (0 < occurrences w files)%nat /\ out = pretty (Z.of_nat (occurrences w files)).
Proof.
  intros Hsort lines. destruct (sequential_lines sort Wc.Map Wc.Reduce files Hsort) as (Hasc & Hin & Hout).
  split; [exact Hasc |]. intros w out.
  assert (w ∈ (sequential sort Wc.Map Wc.Reduce files).*1 <-> (0 < occurrences w files)%nat) as Hw.
  { rewrite Hin, <- wc_values. unfold values_of. rewrite length_fmap. split.
    - intros (kv & Hkv & Hk). destruct (filter (fun x => Key x = w) (emitted Wc.Map files)) as [|y l] eqn:E; [|cbn; lia].
      exfalso. apply (not_elem_of_nil kv). rewrite <- E. by apply list_elem_of_filter.
    - intros Hpos. destruct (filter (fun x => Key x = w) (emitted Wc.Map files)) as [|y l] eqn:E; [cbn in Hpos; lia |].
      assert (y ∈ filter (fun x => Key x = w) (emitted Wc.Map files)) as Hy by (rewrite E; by left).
      apply list_elem_of_filter in Hy as [Hk Hy]. by exists y. }
  assert (forall o, (w, o) ∈ sequential sort Wc.Map Wc.Reduce files -> o = pretty (Z.of_nat (occurrences w files))) as Ho.
  { intros o Hl. destruct (Hout w o Hl) as (vals & Hvals & ->). unfold Wc.Reduce. by rewrite Hvals, wc_values. }
  split.
  - intros Hl. split; [|by apply Ho]. apply Hw, list_elem_of_fmap. by exists (w, out).
  - intros [Hpos ->]. apply Hw, list_elem_of_fmap in Hpos as ([w' o] & Hw' & Hl). cbn in Hw'. subst w'.
    by rewrite <- (Ho o Hl).
Qed.

(** The example call of the assignment, served by the coordinator's example handler,
    prints 100; the coordinator program never ends by itself. *)
Lemma CallExample_prints :
  CallExample true (fun args reply => Some (Example_rpc args reply)) = Done "reply.Y 100".
Proof. reflexivity. Qed.

Lemma mrcoordinator_waits prog file argv :
  mrcoordinator_main (prog :: file :: argv) true = Hang "for m.Done() == false".
Proof. unfold mrcoordinator_main. destruct (Z.ltb_spec (len (prog :: file :: argv)) 2); [cbn in *; lia | done]. Qed.

(** A sort for the runs. *)
Definition kv_le (a b : KeyValue) : Prop := Less b a = false.
#[export] Instance kv_le_dec : RelDecision kv_le.
Proof. intros a b. unfold kv_le. apply _. Defined.
Definition sortKv (l : list KeyValue) : list KeyValue := merge_sort kv_le l.

#[export] Instance sortKv_sort : KvSort sortKv.
Proof.
  split; [intros l; apply merge_sort_Permutation |].
  assert (forall l, StronglySorted kv_le (sortKv l)) as Hss.
  { intros l. apply StronglySorted_merge_sort.
    - intros x y z. unfold kv_le, Less. intros Hxy Hyz. apply not_true_iff_false. intros Hzx.
      destruct (String.ltb (Key x) (Key y)) eqn:E.
      + by rewrite (str_ltb_trans _ _ _ Hzx E) in Hyz.
      + rewrite (str_ltb_total _ _ E Hxy) in Hzx. by rewrite Hzx in Hyz.
    - intros x y. unfold kv_le, Less. destruct (String.ltb (Key y) (Key x)) eqn:E; [right | by left].
      apply not_true_iff_false. intros E'. pose proof (str_ltb_trans _ _ _ E E') as H. by rewrite str_ltb_irrefl in H. }
  intros l i j a b Hij Ha Hb. specialize (Hss l). revert i j Hij Ha Hb.
  induction Hss as [|x l' Hs IH Hx]; intros i j Hij Ha Hb; [done |].
  destruct j as [|j]; [lia |]. destruct i as [|i].
  - injection Ha as ->. rewrite Forall_forall in Hx. apply Hx. by eapply list_elem_of_lookup_2.
  - apply (IH i j); [lia | done | done].
Qed.

Definition two_files : list (string * string) := [("f1", "to be, or not"); ("f2", "to BE")].

Lemma sequential_output_witness :
  (sequential sortKv Wc.Map Wc.Reduce two_files).*1 = ["BE"; "be"; "not"; "or"; "to"]
  /\ ("to" ∈ (sequential sortKv Wc.Map Wc.Reduce two_files).*1 <->
      exists kv, kv ∈ emitted Wc.Map two_files /\ Key kv = "to").
Proof.
  split; [vm_compute; reflexivity |].
  destruct (sequential_output sortKv Wc.Map Wc.Reduce two_files) as (_ & Hin & _); [apply _ | apply Hin].
Defined.

Lemma wordcount_output_witness :
  (sequential sortKv Wc.Map Wc.Reduce two_files).*1 = ["BE"; "be"; "not"; "or"; "to"] /\ String.ltb "be" "to" = true
  /\ ("to", "2") ∈ sequential sortKv Wc.Map Wc.Reduce two_files.
Proof.
  destruct (wordcount_output sortKv two_files) as [Hasc Hlines]; [apply _ |].
  split; [vm_compute; reflexivity |]. split; [apply (Hasc 1%nat 4%nat); [lia | vm_compute; reflexivity ..] |].
  apply Hlines. split; [vm_compute; lia | vm_compute; reflexivity].
Defined.

Lemma ihash_range key : 0 <= ihash key < 2 ^ 31.
Proof.
  unfold ihash. change 0x7fffffff with (Z.ones 31). rewrite Z.land_ones by lia. apply Z.mod_pos_bound. lia.
Qed.
