(* ===== verification/MapReduceTiming.v ===== *)
(** The applications that watch the workers themselves: [src/mrapps/mtiming.go] and
    [rtiming.go], which count the workers that run at the same time, and [jobcount.go],
    which counts the calls.  They use files of the current directory and process ids. *)
From Stdlib Require Import Ascii.
From stdpp Require Import pretty fin_sets.
From S2P Require Import Prelude Decimal MapReduce.

(** ** [fmt.Sscanf] with a literal and [%d] *)

Fixpoint strip (pre s : string) : option string :=
  match pre, s with
  | EmptyString, _ => Some s
  | String a pre, String b s => if Ascii.eqb a b then strip pre s else None
  | String _ _, EmptyString => None
  end.

(** Blanks are skipped before a number; a newline is an error. *)
Fixpoint skip_space (s : string) : option string :=
  match s with
  | EmptyString => Some s
  | String c s' =>
    let b := byte_of c in
    if b =? 10 then None
    else if (b =? 9) || (b =? 11) || (b =? 12) || (b =? 13) || (b =? 32) then skip_space s' else Some s
  end.

(** The number, if [n == 1 && err == nil]: what follows it does not matter, but it has to
    fit in 64 bits. *)
Definition Sscanf_d (lit name : string) : option Z :=
  s ← strip lit name;
  s ← skip_space s;
  '(x, _) ← read_int s;
  if (- 2 ^ 63 <=? x) && (x <? 2 ^ 63) then Some x else None.

(** ** [nparallel] *)

Definition worker_prefix (phase : string) : string := "mr-worker-" +:+ phase +:+ "-".
Definition myfilename (phase : string) (pid : Z) : string := worker_prefix phase +:+ pretty pid.

(** [ioutil.WriteFile], and [os.Remove], which fails if there is no such file. *)
Definition WriteFile (f : string) (files : gset string) : gset string := {[f]} ∪ files.
Definition Remove (f : string) (files : gset string) : go (gset string) :=
  if decide (f ∈ files) then mret (files ∖ {[f]}) else Panic "remove: no such file".

(** The loop over [names]; [kill0] tells whether [syscall.Kill(xpid, 0)] succeeds. *)
Fixpoint count_loop (phase : string) (kill0 : Z -> bool) (names : list string) (ret : Z) : Z :=
  match names with
  | [] => ret
  | name :: names =>
    count_loop phase kill0 names
      (match Sscanf_d (worker_prefix phase) name with
       | Some xpid => if kill0 xpid then ret + 1 else ret
       | None => ret
       end)
  end.

(** The call in its three parts: other workers run between them, and while it sleeps.
    [names] is what [Readdirnames] returns: the directory, in any order. *)
Definition nparallel_enter (phase : string) (pid : Z) (files : gset string) : gset string :=
  WriteFile (myfilename phase pid) files.
Definition nparallel_scan (phase : string) (kill0 : Z -> bool) (names : list string) : Z :=
  count_loop phase kill0 names 0.
Definition nparallel_leave (phase : string) (pid : Z) (files : gset string) : go (gset string) :=
  Remove (myfilename phase pid) files.

Module MTiming.
(** [ts] is the time of the call, printed; [n] is the result of [nparallel("map")]. *)
Definition Map (pid : Z) (ts : string) (n : Z) (filename contents : string) : list KeyValue :=
  [mkKeyValue ("times-" +:+ pretty pid) ts; mkKeyValue ("parallel-" +:+ pretty pid) (pretty n)].
Definition Reduce (key : string) (values : list string) : string :=
  let vv := Strings values in
  Join vv " ".
End MTiming.

(** The same function in rtiming.go. *)
Definition rtiming_enter (phase : string) (pid : Z) (files : gset string) : gset string := nparallel_enter phase pid files.
Definition rtiming_scan (phase : string) (kill0 : Z -> bool) (names : list string) : Z := nparallel_scan phase kill0 names.
Definition rtiming_leave (phase : string) (pid : Z) (files : gset string) : go (gset string) := nparallel_leave phase pid files.

(** [Reduce] of rtiming.go; [n] is the result of [nparallel("reduce")]. *)
Definition RTiming_Reduce (n : Z) (key : string) (values : list string) : string := pretty n.

(** ** Workers, files and processes *)

(** [live]: the running processes; [used]: all that there have been; [busy]: those
    between the first and the last part of [nparallel], with the phase. *)
Record machine := mkMachine {
  files : gset string;
  live : gset Z;
  used : gset Z;
  busy : gmap Z string }.
#[export] Instance eta_machine : Eta machine := fun m => mkMachine (files m) (live m) (used m) (busy m).

Definition is_phase (phase : string) : Prop := phase = "map" \/ phase = "reduce".
#[export] Instance is_phase_dec phase : Decision (is_phase phase).
Proof. unfold is_phase. apply _. Defined.

(** A file that no phase takes for one of its workers. *)
Definition other (f : string) : Prop :=
  Sscanf_d (worker_prefix "map") f = None /\ Sscanf_d (worker_prefix "reduce") f = None.
#[export] Instance other_dec f : Decision (other f).
Proof. unfold other. apply _. Defined.

Inductive mevent :=
| MSpawn (p : Z) | MEnter (p : Z) (phase : string) | MLeave (p : Z) | MExit (p : Z)
| MWrite (f : string) | MRemove (f : string).

(** A process id is not used twice; a process may exit anywhere, also in [nparallel]. *)
Definition mstep (e : mevent) (m : machine) : option machine :=
  match e with
  | MSpawn p =>
    if decide (0 < p < 2 ^ 63 /\ p ∉ used m)
    then Some (m <| live := {[p]} ∪ live m |> <| used := {[p]} ∪ used m |>) else None
  | MEnter p phase =>
    if decide (p ∈ live m /\ busy m !! p = None /\ is_phase phase)
    then Some (m <| files := nparallel_enter phase p (files m) |> <| busy := <[p := phase]> (busy m) |>)
    else None
  | MLeave p =>
    phase ← busy m !! p;
    match nparallel_leave phase p (files m) with
    | Done fs => Some (m <| files := fs |> <| busy := delete p (busy m) |>)
    | _ => None
    end
  | MExit p => Some (m <| live := live m ∖ {[p]} |> <| busy := delete p (busy m) |>)
  | MWrite f => if decide (other f) then Some (m <| files := WriteFile f (files m) |>) else None
  | MRemove f => if decide (other f) then Some (m <| files := files m ∖ {[f]} |>) else None
  end.

Definition empty_machine : machine := mkMachine ∅ ∅ ∅ ∅.
Fixpoint mrun (l : list mevent) (m : machine) : option machine :=
  match l with [] => Some m | e :: l => m' ← mstep e m; mrun l m' end.

(** ** Names *)

Lemma strip_app pre s : strip pre (pre +:+ s) = Some s.
Proof.
  induction pre as [|a pre IH]; [done |]. change (String a pre +:+ s) with (String a (pre +:+ s)).
  cbn [strip]. by rewrite Ascii.eqb_refl.
Qed.

Lemma text_nil (s : string) : s +:+ "" = s.
Proof. induction s as [|c s IH]; [done |]. exact (f_equal (String c) IH). Qed.

Lemma read_printed z : read_int (pretty z) = Some (z, "").
Proof. rewrite <- (text_nil (pretty z)). by apply read_pretty. Qed.

Lemma skip_digit s : digit_first s = true -> skip_space s = Some s.
Proof.
  destruct s as [|c s]; [done |]. cbn. intros [d Hd]%bool_decide_eq_true. unfold digit in Hd.
  fold (byte_of c) in Hd. destruct (Z.leb_spec 48 (byte_of c)); [|done].
  by repeat match goal with |- context [?a =? ?b] => destruct (Z.eqb_spec a b); [lia |] end.
Qed.

Lemma printed_first p : 0 < p -> digit_first (pretty p) = true.
Proof. destruct p as [|p|p]; [lia | | lia]. intros _. apply (digit_first_go (N.pos p) ""). lia. Qed.

(** A worker's file is read back by its own phase only. *)
Lemma Sscanf_myfilename phase p :
  0 < p < 2 ^ 63 -> Sscanf_d (worker_prefix phase) (myfilename phase p) = Some p.
Proof.
  intros [Hp Hb]. unfold Sscanf_d, myfilename. rewrite strip_app. cbn [mbind option_bind].
  rewrite skip_digit by by apply printed_first. cbn [mbind option_bind]. rewrite read_printed. cbn [mbind option_bind].
  destruct (Z.leb_spec (- 2 ^ 63) p); [|lia]. by destruct (Z.ltb_spec p (2 ^ 63)); [|lia].
Qed.

Lemma Sscanf_other_phase phase phase' p :
  is_phase phase -> is_phase phase' -> phase <> phase' -> Sscanf_d (worker_prefix phase) (myfilename phase' p) = None.
Proof. by intros [-> | ->] [-> | ->] Hne. Qed.

Lemma Sscanf_worker phase phase' p :
  is_phase phase -> is_phase phase' -> 0 < p < 2 ^ 63 ->
  Sscanf_d (worker_prefix phase) (myfilename phase' p) = if decide (phase' = phase) then Some p else None.
Proof.
  intros H1 H2 Hp. case_decide as Hd; [subst; by apply Sscanf_myfilename | by apply Sscanf_other_phase].
Qed.

Lemma myfilename_inj phase phase' p p' :
  is_phase phase -> is_phase phase' -> 0 < p < 2 ^ 63 -> 0 < p' < 2 ^ 63 ->
  myfilename phase p = myfilename phase' p' -> phase = phase' /\ p = p'.
Proof.
  intros H1 H2 Hp Hp' He. pose proof (Sscanf_worker phase phase p H1 H1 Hp) as Hs.
  rewrite He, Sscanf_worker, (decide_True (P := phase = phase)) in Hs by done. by case_decide; simplify_eq.
Qed.

(** ** The invariant *)

Record minv (m : machine) : Prop := {
  mi_live : live m ⊆ used m;
  mi_used : forall p, p ∈ used m -> 0 < p < 2 ^ 63;
  mi_busy : forall p ph, busy m !! p = Some ph -> is_phase ph /\ p ∈ live m /\ myfilename ph p ∈ files m;
  mi_files : forall f, f ∈ files m -> other f \/ exists p ph, is_phase ph /\ f = myfilename ph p /\ p ∈ used m
    /\ (p ∈ live m -> busy m !! p = Some ph) }.

Lemma minv_files m fs :
  minv m -> (forall p ph, busy m !! p = Some ph -> myfilename ph p ∈ fs) ->
  (forall f, f ∈ fs -> other f \/ f ∈ files m) -> minv (m <| files := fs |>).
Proof.
  intros [Hl Hu Hb Hf] Hkeep Hnew. split; cbn; try done.
  - intros p ph Hp. destruct (Hb p ph Hp) as (? & ? & _). split; [done |]. split; [done | by apply Hkeep].
  - intros f [?|?]%Hnew; [by left | by apply Hf].
Qed.

Lemma worker_not_other ph p : is_phase ph -> 0 < p < 2 ^ 63 -> ~ other (myfilename ph p).
Proof.
  intros Hph Hp [H1 H2]. destruct Hph as [-> | ->]; rewrite Sscanf_worker in H1, H2; try done; by left + right.
Qed.

Lemma mstep_inv e m m' : minv m -> mstep e m = Some m' -> minv m'.
Proof.
  intros I. pose proof I as [Hl Hu Hb Hf]. destruct e as [p|p ph|p|p|f|f]; cbn.
  - case_decide as Hd; [|done]. destruct Hd as [Hp Hn]. intros [= <-]. split; cbn.
    + set_solver.
    + intros q [->%elem_of_singleton|?]%elem_of_union; [done | by apply Hu].
    + intros q ph Hq. destruct (Hb q ph Hq) as (? & ? & ?). set_solver.
    + intros f [?|(q & ph & Hph & He & Hq & Hbq)]%Hf; [by left | right]. exists q, ph.
      split; [done |]. split; [done |]. split; [set_solver |].
      intros [->%elem_of_singleton|?]%elem_of_union; [done | by apply Hbq].
  - case_decide as Hd; [|done]. destruct Hd as (Hp & Hn & Hph). intros [= <-].
    unfold nparallel_enter, WriteFile. split; cbn; try done.
    + intros q ph' [[<- <-]|[Hne Hq]]%lookup_insert_Some; [set_solver |].
      destruct (Hb q ph' Hq) as (? & ? & ?). set_solver.
    + intros f [->%elem_of_singleton|Hin]%elem_of_union.
      { right. exists p, ph. split; [done |]. split; [done |]. split; [by apply Hl |].
        intros _. apply lookup_insert_eq. }
      destruct (Hf f Hin) as [?|(q & ph' & Hph' & He & Hq & Hbq)]; [by left | right]. exists q, ph'.
      repeat (split; [done |]). intros Hq'. rewrite lookup_insert_ne; [by apply Hbq |].
      intros <-. by rewrite (Hbq Hq') in Hn.
  - destruct (busy m !! p) as [ph|] eqn:Hp; [|done]. cbn. unfold nparallel_leave, Remove.
    case_decide as Hin; [|done]. cbn. intros [= <-]. destruct (Hb p ph Hp) as (Hph & Hlp & _). split; cbn; try done.
    + intros q ph' [Hne Hq]%lookup_delete_Some. destruct (Hb q ph' Hq) as (Hph' & ? & ?).
      split; [done |]. split; [done |]. apply elem_of_difference. split; [done |].
      intros He%elem_of_singleton. destruct Hne. symmetry. eapply myfilename_inj; [| | | |exact He]; auto.
    + intros f [Hin' Hne]%elem_of_difference. destruct (Hf f Hin') as [?|(q & ph' & Hph' & He & Hq & Hbq)]; [by left | right].
      exists q, ph'. repeat (split; [done |]). intros Hq'. rewrite lookup_delete_ne; [by apply Hbq |].
      intros <-. specialize (Hbq Hq'). simplify_eq. destruct Hne. by apply elem_of_singleton.
  - intros [= <-]. split; cbn; try done.
    + set_solver.
    + intros q ph [Hne Hq]%lookup_delete_Some. destruct (Hb q ph Hq) as (? & ? & ?). set_solver.
    + intros f [?|(q & ph & Hph & He & Hq & Hbq)]%Hf; [by left | right]. exists q, ph.
      repeat (split; [done |]). intros [Hq' Hne]%elem_of_difference.
      rewrite lookup_delete_ne by set_solver. by apply Hbq.
  - case_decide; [|done]. intros [= <-]. apply minv_files; [done | |].
    + intros p ph Hp. destruct (Hb p ph Hp) as (? & ? & ?). unfold WriteFile. set_solver.
    + intros g. unfold WriteFile. set_solver.
  - case_decide as Ho; [|done]. intros [= <-]. apply minv_files; [done | |].
    + intros p ph Hp. destruct (Hb p ph Hp) as (Hph & Hlp & ?). apply elem_of_difference. split; [done |].
      intros He%elem_of_singleton. destruct (worker_not_other ph p); [done | by apply Hu, Hl | by rewrite He].
    + intros g. set_solver.
Qed.

Lemma mrun_inv l m m' : minv m -> mrun l m = Some m' -> minv m'.
Proof.
  revert m; induction l as [|e l IH]; intros m I; cbn; [by intros [= <-] |].
  destruct (mstep e m) as [m1|] eqn:He; [|done]. cbn. apply IH. by eapply mstep_inv.
Qed.

Lemma minv_empty : minv empty_machine.
Proof. by split; cbn. Qed.

(** ** What is counted *)

Definition counted (phase : string) (kill0 : Z -> bool) (name : string) : option Z :=
  xpid ← Sscanf_d (worker_prefix phase) name; if kill0 xpid then Some xpid else None.

Lemma count_loop_spec phase kill0 names ret :
  count_loop phase kill0 names ret = ret + len (omap (counted phase kill0) names).
Proof.
  revert ret; induction names as [|name names IH]; intros ret; cbn; [lia |]. rewrite IH. unfold counted at 2.
  destruct (Sscanf_d _ name) as [x|]; cbn; [|lia]. destruct (kill0 x); cbn; lia.
Qed.

Lemma counted_worker m phase kill0 f p :
  minv m -> is_phase phase -> (forall p, 0 < p -> kill0 p = bool_decide (p ∈ live m)) ->
  f ∈ files m -> counted phase kill0 f = Some p -> busy m !! p = Some phase /\ f = myfilename phase p.
Proof.
  intros [Hl Hu Hb Hf] Hph Hkill Hin Hc. unfold counted in Hc.
  destruct (Sscanf_d (worker_prefix phase) f) as [x|] eqn:Hs; [|done]. cbn in Hc.
  destruct (kill0 x) eqn:Hk; [|done]. injection Hc as ->.
  destruct (Hf f Hin) as [[H1 H2]|(q & ph & Hq & -> & Hqu & Hbq)].
  { destruct Hph as [-> | ->]; congruence. }
  rewrite Sscanf_worker in Hs by auto. case_decide; [|done]. simplify_eq.
  rewrite Hkill in Hk by by apply Hu. apply bool_decide_eq_true in Hk. split; [by apply Hbq | done].
Qed.

Lemma worker_counted m phase kill0 p :
  minv m -> (forall p, 0 < p -> kill0 p = bool_decide (p ∈ live m)) ->
  busy m !! p = Some phase -> counted phase kill0 (myfilename phase p) = Some p.
Proof.
  intros [Hl Hu Hb Hf] Hkill Hp. destruct (Hb p phase Hp) as (Hph & Hlp & _).
  assert (0 < p < 2 ^ 63) as Hpos by by apply Hu, Hl.
  unfold counted. rewrite Sscanf_myfilename by done. cbn. rewrite Hkill by lia. by rewrite bool_decide_eq_true_2.
Qed.

Lemma counted_NoDup m phase kill0 names :
  minv m -> is_phase phase -> (forall p, 0 < p -> kill0 p = bool_decide (p ∈ live m)) ->
  NoDup names -> (forall f, f ∈ names -> f ∈ files m) -> NoDup (omap (counted phase kill0) names).
Proof.
  intros I Hph Hkill. induction 1 as [|f names Hnew _ IH]; intros Hin; cbn; [constructor |].
  assert (NoDup (omap (counted phase kill0) names)) as Hnd by (apply IH; intros; apply Hin; by right).
  destruct (counted phase kill0 f) as [p|] eqn:Hf; [|done]. constructor; [|done].
  intros (g & Hg & Hgp)%list_elem_of_omap.
  eapply counted_worker in Hf as [_ ->]; [|done..|apply Hin; by left].
  eapply counted_worker in Hgp as [_ ->]; [by destruct Hnew | done..|apply Hin; by right].
Qed.

(** The workers of a phase. *)
Definition workers (phase : string) (m : machine) : gset Z := dom (filter (fun x => x.2 = phase) (busy m)).

(** C39: [nparallel] counts the workers.  However workers start, run, leave and die,
    with files left behind by the dead and any other files written and removed, if no
    process id is used twice: whatever order the directory is read in, the number that
    [nparallel] returns, taking its reads and signals at one moment, is that of the live
    workers that are in the same phase at that moment, the caller included, and the
    caller finds its file when it removes it. *)
Theorem nparallel_counts l m phase kill0 names p :
  mrun l empty_machine = Some m -> (forall p, 0 < p -> kill0 p = bool_decide (p ∈ live m)) ->
  names ≡ₚ elements (files m) -> busy m !! p = Some phase ->
  nparallel_scan phase kill0 names = Z.of_nat (size (workers phase m)) /\ p ∈ workers phase m
  /\ nparallel_leave phase p (files m) = Done (files m ∖ {[myfilename phase p]}).
Proof.
  intros Hrun Hkill Hnames Hp. pose proof (mrun_inv _ _ _ minv_empty Hrun) as I.
  destruct (mi_busy m I p phase Hp) as (Hph & _ & Hin).
  assert (forall q, q ∈ workers phase m <-> busy m !! q = Some phase) as Hw.
  { intros q. unfold workers. rewrite elem_of_dom. split.
    - intros [ph [Hq He]%map_lookup_filter_Some]. cbn in He. by subst ph.
    - intros Hq. exists phase. by apply map_lookup_filter_Some. }
  split; [|split; [by apply Hw | by unfold nparallel_leave, Remove; rewrite decide_True by done]].
  unfold nparallel_scan. rewrite count_loop_spec. cbn. f_equal.
  assert (omap (counted phase kill0) names ≡ₚ elements (workers phase m)) as ->; [|done].
  apply NoDup_Permutation; [| apply NoDup_elements |].
  - eapply counted_NoDup; [done..| rewrite Hnames; apply NoDup_elements |].
    intros f. rewrite Hnames. apply elem_of_elements.
  - intros q. rewrite elem_of_elements, Hw, list_elem_of_omap. split.
    + intros (f & Hf & Hq). rewrite Hnames in Hf. apply elem_of_elements in Hf. by eapply counted_worker.
    + intros Hq. exists (myfilename phase q). split; [|by eapply worker_counted].
      rewrite Hnames. apply elem_of_elements. by eapply mi_busy.
Qed.

(** Three workers; one dies in [nparallel] and leaves its file, two are counted. *)
Definition three_workers : list mevent :=
  [MSpawn 7; MSpawn 8; MSpawn 9; MEnter 7 "map"; MWrite "mr-0-1"; MEnter 8 "map"; MEnter 9 "reduce"; MExit 8;
   MSpawn 10; MEnter 10 "map"].

Lemma nparallel_counts_witness : exists m, mrun three_workers empty_machine = Some m
  /\ "mr-worker-map-8" ∈ files m
  /\ nparallel_scan "map" (fun p => bool_decide (p ∈ live m)) (elements (files m)) = 2
  /\ Z.of_nat (size (workers "map" m)) = 2.
Proof.
  eexists. split; [vm_compute; reflexivity |].
  match goal with |- _ /\ nparallel_scan _ _ (elements (files ?m0)) = _ /\ _ => set (m := m0) end.
  assert (Z.of_nat (size (workers "map" m)) = 2) as Hs by (vm_compute; reflexivity).
  split; [apply (bool_decide_eq_true_1 _); vm_compute; reflexivity |]. split; [|done].
  rewrite <- Hs. apply (nparallel_counts three_workers m "map" _ _ 7); [vm_compute; reflexivity | done | done |].
  vm_compute; reflexivity.
Defined.

(** ** [jobcount.go] *)

Module JobCount.
(** The process [me] with its variable [count]; the sleep is no step. *)
Definition Map (me count : Z) (files : gset string) (filename contents : string)
    : Z * gset string * list KeyValue :=
  let f := "mr-worker-jobcount-" +:+ pretty me +:+ "-" +:+ pretty count in
  (count + 1, WriteFile f files, [mkKeyValue "a" "x"]).

Fixpoint Reduce_loop (names : list string) (invocations : Z) : Z :=
  match names with
  | [] => invocations
  | name :: names =>
    Reduce_loop names (if String.prefix "mr-worker-jobcount" name then invocations + 1 else invocations)
  end.
Definition Reduce (names : list string) (key : string) (values : list string) : string :=
  pretty (Reduce_loop names 0).

(** Map calls by the processes of a list, one after the other; a new process counts
    from zero. *)
Fixpoint calls (l : list Z) (counts : gmap Z Z) (files : gset string) : gset string :=
  match l with
  | [] => files
  | me :: l =>
    let out := Map me (default 0 (counts !! me)) files "" "" in
    calls l (<[me := out.1.1]> counts) out.1.2
  end.

Definition job_file (me count : Z) : string := "mr-worker-jobcount-" +:+ pretty me +:+ "-" +:+ pretty count.
Definition jobs (files : gset string) : gset string :=
  filter (fun f => String.prefix "mr-worker-jobcount" f = true) files.

Lemma job_file_inj me count me' count' :
  job_file me count = job_file me' count' -> me = me' /\ count = count'.
Proof.
  intros He%(inj (String.append "mr-worker-jobcount-")). apply pretty_prefix in He as [-> He]; [|done..].
  split; [done |]. injection He as He. by apply (inj pretty).
Qed.

Lemma Reduce_loop_spec names n :
  Reduce_loop names n = n + len (filter (fun f => String.prefix "mr-worker-jobcount" f = true) names).
Proof.
  revert n; induction names as [|f names IH]; intros n; [cbn; lia |]. cbn [Reduce_loop].
  rewrite IH, filter_cons. destruct (String.prefix _ f) eqn:E; case_decide; cbn; (done || lia).
Qed.

Lemma calls_size l counts files :
  (forall me count, job_file me count ∈ files -> count < default 0 (counts !! me)) ->
  size (jobs (calls l counts files)) = (size (jobs files) + length l)%nat.
Proof.
  revert counts files; induction l as [|me l IH]; intros counts files Hold; cbn [calls]; [cbn; lia |].
  unfold Map. cbn [fst snd]. fold (job_file me (default 0 (counts !! me))).
  set (f := job_file me (default 0 (counts !! me))). rewrite IH.
  - assert (f ∉ files) as Hf by (intros Hin%Hold; lia). unfold WriteFile, jobs.
    assert ({[f]} ## filter (fun f => String.prefix "mr-worker-jobcount" f = true) files) as Hdis.
    { intros g ->%elem_of_singleton [_ ?]%elem_of_filter. done. }
    assert (String.prefix "mr-worker-jobcount" f = true) as Hpre by reflexivity. clearbody f.
    assert (filter (fun f => String.prefix "mr-worker-jobcount" f = true) ({[f]} ∪ files)
      = {[f]} ∪ filter (fun f => String.prefix "mr-worker-jobcount" f = true) files) as ->.
    { apply set_eq. intros g. rewrite elem_of_union, !elem_of_filter, elem_of_union, elem_of_singleton.
      split; [tauto |]. intros [->|?]; tauto. }
    rewrite size_union, size_singleton by done.
    cbn. lia.
  - unfold WriteFile. intros me' count' [He%elem_of_singleton|Hin]%elem_of_union.
    + apply job_file_inj in He as [-> ->]. rewrite lookup_insert_eq. cbn. lia.
    + apply Hold in Hin. destruct (decide (me' = me)) as [->|].
      * rewrite lookup_insert_eq. cbn. lia.
      * by rewrite lookup_insert_ne.
Qed.

(** [Reduce] reports how many map calls there have been: every call leaves a file of
    its own, whatever processes made the calls, in a directory without such files. *)
Theorem jobcount_counts l files names key values :
  jobs files = ∅ -> names ≡ₚ elements (calls l ∅ files) ->
  Reduce names key values = pretty (len l).
Proof.
  intros Hnone Hnames. unfold Reduce. rewrite Reduce_loop_spec. f_equal. rewrite Hnames.
  pose proof (calls_size l ∅ files) as Hs. rewrite Hnone, size_empty in Hs. cbn in Hs.
  rewrite <- Hs; [|clear Hs Hnames].
  { rewrite Z.add_0_l. f_equal. apply Permutation_length, NoDup_Permutation; [apply NoDup_filter, NoDup_elements | apply NoDup_elements |].
    intros f. unfold jobs. by rewrite elem_of_elements, list_elem_of_filter, elem_of_filter, elem_of_elements. }
  intros me count Hin. assert (job_file me count ∈ jobs files) as Hj by (apply elem_of_filter; by split).
  rewrite Hnone in Hj. by apply not_elem_of_empty in Hj.
Qed.

Lemma jobcount_counts_witness :
  Reduce (elements (calls [4; 5; 4] ∅ {["mr-0-1"]})) "a" ["x"; "x"; "x"] = "3".
Proof. apply (jobcount_counts [4; 5; 4] {["mr-0-1"]}); [vm_compute; reflexivity | done]. Defined.
End JobCount.
