(* ===== verification/Programs.v ===== *)
(** The main programs of [src/main] that are not part of MapReduce's skeleton:
    [mrsequential.go], and those that start servers and clerks of earlier labs.  The
    packages [diskv], [lockservice], [pbservice] and [viewservice] are not in the
    repository, so that what a program calls of them is an argument.  [argv] is
    [os.Args]; a program that ends with [os.Exit(1)] panics here; one that only sleeps
    after it has started a server ends with this server. *)
From Stdlib Require Import Ascii.
From stdpp Require Import pretty.
From S2P Require Import Prelude Decimal MapReduce.

Definition os_exit : string := "os.Exit".

(** ** strconv *)

Inductive parsed := Parsed (n : Z) | SyntaxError | RangeError.

(** [ParseUint(s, 10, 64)] behind the digits that make [n]: an overflow ends it before
    the rest is looked at. *)
Definition cutoff : Z := (2 ^ 64 - 1) `div` 10 + 1.
Fixpoint ParseUint_loop (n : Z) (s : string) : parsed :=
  match s with
  | EmptyString => Parsed n
  | String c s =>
    match digit c with
    | None => SyntaxError
    | Some d =>
      if cutoff <=? n then RangeError
      else if 2 ^ 64 <=? 10 * n + d then RangeError else ParseUint_loop (10 * n + d) s
    end
  end.
Definition ParseUint (s : string) : parsed :=
  match s with EmptyString => SyntaxError | _ => ParseUint_loop 0 s end.

(** The number that [ParseInt(s, 10, 64)] and [Atoi] return, also with an error. *)
Definition ParseInt (s : string) : Z :=
  let '(neg, t) :=
    match s with
    | String c t =>
      if Ascii.eqb c "-"%char then (true, t) else if Ascii.eqb c "+"%char then (false, t) else (false, s)
    | EmptyString => (false, s)
    end in
  match ParseUint t with
  | SyntaxError => 0
  | RangeError => if neg : bool then - 2 ^ 63 else 2 ^ 63 - 1
  | Parsed n =>
    if negb neg && (2 ^ 63 <=? n) then 2 ^ 63 - 1
    else if neg && (2 ^ 63 <? n) then - 2 ^ 63
    else if neg then - n else n
  end.
Definition Atoi (s : string) : Z := ParseInt s.

(** [ParseBool], which returns [false] with an error. *)
Definition ParseBool (s : string) : bool :=
  bool_decide (s ∈ ["1"; "t"; "T"; "TRUE"; "true"; "True"]).

(** ** [diskvd.go] *)

Record diskv_args := mkDiskv {
  dk_gid : Z; dk_masters : list string; dk_replicas : list string; dk_me : Z;
  dk_unreliable : bool; dk_dir : string; dk_restart : bool }.
#[export] Instance eta_diskv_args : Eta diskv_args := fun a =>
  mkDiskv (dk_gid a) (dk_masters a) (dk_replicas a) (dk_me a) (dk_unreliable a) (dk_dir a) (dk_restart a).

Definition no_args : diskv_args := mkDiskv (-1) [] [] (-1) false "" false.

Definition usage {A} : go A := Panic os_exit.

(** One turn of the loop. *)
Definition diskvd_arg (a0 a1 : string) (a : diskv_args) : go diskv_args :=
  if String.eqb a0 "-g" then mret (a <| dk_gid := ParseInt a1 |>)
  else if String.eqb a0 "-m" then mret (a <| dk_masters := dk_masters a ++ [a1] |>)
  else if String.eqb a0 "-s" then mret (a <| dk_replicas := dk_replicas a ++ [a1] |>)
  else if String.eqb a0 "-i" then mret (a <| dk_me := Atoi a1 |>)
  else if String.eqb a0 "-u" then mret (a <| dk_unreliable := ParseBool a1 |>)
  else if String.eqb a0 "-d" then mret (a <| dk_dir := a1 |>)
  else if String.eqb a0 "-r" then mret (a <| dk_restart := ParseBool a1 |>)
  else usage.

(** The loop: an argument without a value behind it is left out. *)
Fixpoint diskvd_args (args : list string) (a : diskv_args) : go diskv_args :=
  match args with
  | a0 :: a1 :: args => a ← diskvd_arg a0 a1 a; diskvd_args args a
  | _ => mret a
  end.

Definition diskvd_bad (a : diskv_args) : bool :=
  (dk_gid a <? 0) || (dk_me a <? 0) || (len (dk_masters a) <? 1) || (len (dk_replicas a) <=? dk_me a)
  || String.eqb (dk_dir a) "".

(** What the program starts before it kills itself after ten minutes. *)
Definition diskvd_main {Server W}
    (StartServer : Z -> list string -> list string -> Z -> string -> bool -> W -> go (Server * W))
    (Setunreliable : Server -> bool -> W -> W) (argv : list string) (w : W) : go W :=
  a ← diskvd_args (drop 1 argv) no_args;
  if diskvd_bad a then usage else
  '(srv, w) ← StartServer (dk_gid a) (dk_masters a) (dk_replicas a) (dk_me a) (dk_dir a) (dk_restart a) w;
  mret (Setunreliable srv (dk_unreliable a) w).

(** ** The lock service, the primary/backup service and its view service *)

Definition lockc_main (Lock Unlock : string -> string -> string -> bool) (argv : list string) : go string :=
  match argv with
  | [_; what; primary; backup; name] =>
    ok ← (if String.eqb what "-l" then mret (Lock primary backup name)
          else if String.eqb what "-u" then mret (Unlock primary backup name) else usage);
    mret ("reply: " +:+ (if ok : bool then "true" else "false"))
  | _ => usage
  end.

Definition lockd_main {W} (StartServer : string -> string -> bool -> W -> go W) (argv : list string) (w : W) : go W :=
  match argv with
  | [_; what; primary; backup] =>
    if String.eqb what "-p" then StartServer primary backup true w
    else if String.eqb what "-b" then StartServer primary backup false w else usage
  | _ => usage
  end.

(** The clerk's [Get] and [Put] with the view server's port. *)
Definition pbc_main {W} (Get : string -> string -> W -> string * W) (Put : string -> string -> string -> W -> W)
    (argv : list string) (w : W) : go (option string * W) :=
  match argv with
  | [_; vs; key] => let '(v, w) := Get vs key w in mret (Some v, w)
  | [_; vs; key; value] => mret (None, Put vs key value w)
  | _ => usage
  end.

Definition pbd_main {W} (StartServer : string -> string -> W -> go W) (argv : list string) (w : W) : go W :=
  match argv with [_; vs; port] => StartServer vs port w | _ => usage end.

Definition viewd_main {W} (StartServer : string -> W -> go W) (argv : list string) (w : W) : go W :=
  match argv with [_; port] => StartServer port w | _ => usage end.

(** ** [mrsequential.go] *)

(** [read] is what [os.Open] and [ioutil.ReadAll] give. *)
Fixpoint read_inputs (read : string -> option (option string)) (filenames : list string) : go (list (string * string)) :=
  match filenames with
  | [] => mret []
  | filename :: filenames =>
    match read filename with
    | None => Panic "cannot open"
    | Some None => Panic "cannot read"
    | Some (Some content) => files ← read_inputs read filenames; mret ((filename, content) :: files)
    end
  end.

Definition mrsequential_loadPlugin
    (plugin : string -> option (option (string -> string -> list KeyValue) * option (string -> list string -> string)))
    (filename : string) : go ((string -> string -> list KeyValue) * (string -> list string -> string)) :=
  match plugin filename with
  | None => Panic "cannot load plugin"
  | Some (None, _) => Panic "cannot find Map"
  | Some (Some mapf, None) => Panic "cannot find Reduce"
  | Some (Some mapf, Some reducef) => mret (mapf, reducef)
  end.

(** The contents of [mr-out-0]. *)
Definition mrsequential_main (sort : list KeyValue -> list KeyValue) plugin (read : string -> option (option string))
    (argv : list string) : go string :=
  match argv with
  | _ :: xxx :: _ :: _ =>
    '(mapf, reducef) ← mrsequential_loadPlugin plugin xxx;
    files ← read_inputs read (drop 2 argv);
    mret (mr_out (sequential sort mapf reducef files))
  | _ => Panic os_exit
  end.

(** ** Numbers *)

Lemma read_digits_ge s : forall acc, 0 <= acc -> acc <= (read_digits acc s).1.
Proof.
  induction s as [|c s IH]; intros acc Hacc; cbn [read_digits]; [done |].
  destruct (digit c) as [d|] eqn:Ed; [|done].
  assert (0 <= d) by (unfold digit in Ed; destruct (_ && _) eqn:Eb; [|done]; injection Ed as <-; lia).
  specialize (IH (10 * acc + d)). lia.
Qed.

Lemma ParseUint_read s : forall n m, 0 <= n -> read_digits n s = (m, EmptyString) -> m < 2 ^ 64 -> ParseUint_loop n s = Parsed m.
Proof.
  induction s as [|c s IH]; intros n m Hn Hr Hm; cbn [read_digits ParseUint_loop] in *; [by injection Hr as -> |].
  destruct (digit c) as [d|] eqn:Ed; [|done].
  assert (0 <= d) by (unfold digit in Ed; destruct (_ && _) eqn:Eb; [|done]; injection Ed as <-; lia).
  pose proof (read_digits_ge s (10 * n + d)) as Hge. rewrite Hr in Hge. cbn [fst] in Hge.
  assert (cutoff = 1844674407370955162) as Hc by reflexivity.
  destruct (Z.leb_spec cutoff n); [lia |]. destruct (Z.leb_spec (2 ^ 64) (10 * n + d)); [lia |]. apply IH; [lia | done..].
Qed.

Lemma ParseUint_pretty (x : N) : Z.of_N x < 2 ^ 64 -> ParseUint (pretty x) = Parsed (Z.of_N x).
Proof.
  intros Hx. destruct (read_pretty_N x EmptyString eq_refl) as [Hf Hr].
  assert (forall s, s +:+ EmptyString = s) as Happ by (induction s as [|c s IH]; [done | exact (f_equal (String c) IH)]).
  rewrite Happ in Hf, Hr. unfold ParseUint. destruct (pretty x) as [|c s]; [done |]. by apply ParseUint_read.
Qed.

Lemma ParseInt_pretty (z : Z) : - 2 ^ 63 <= z < 2 ^ 63 -> ParseInt (pretty z) = z.
Proof.
  assert (forall x : N, Z.of_N x < 2 ^ 63 -> ParseInt (pretty x) = Z.of_N x) as Hpos.
  { intros x Hx. destruct (read_pretty_N x EmptyString eq_refl) as [Hf _].
    unfold ParseInt. pose proof (ParseUint_pretty x ltac:(lia)) as Hp. destruct (pretty x) as [|c s]; [done |].
    cbn in Hf. apply bool_decide_eq_true in Hf as [d Hd]. destruct (first_sign c d Hd) as [Hm Hpl].
    apply Ascii.eqb_neq in Hm as ->. apply Ascii.eqb_neq in Hpl as ->. rewrite Hp. cbn [negb andb].
    destruct (Z.leb_spec (2 ^ 63) (Z.of_N x)); [lia | done]. }
  intros Hz. destruct z as [|p|p].
  - reflexivity.
  - apply (Hpos (N.pos p)). lia.
  - change (ParseInt (String "-" (pretty (N.pos p))) = Z.neg p). unfold ParseInt.
    change (Ascii.eqb "-" "-") with true. cbv iota. rewrite ParseUint_pretty by lia. cbn [negb andb].
    destruct (Z.ltb_spec (2 ^ 63) (Z.of_N (N.pos p))); lia.
Qed.

(** ** The command line of diskvd *)

(** The arguments as a tester writes them. *)
Definition diskvd_argv (a : diskv_args) : list string :=
  ["-g"; pretty (dk_gid a)] ++ (dk_masters a ≫= fun m => ["-m"; m]) ++ (dk_replicas a ≫= fun s => ["-s"; s])
  ++ ["-i"; pretty (dk_me a); "-u"; if dk_unreliable a then "true" else "false"; "-d"; dk_dir a;
      "-r"; if dk_restart a then "true" else "false"].

Lemma masters_args ms rest : forall a,
  diskvd_args ((ms ≫= fun m => ["-m"; m]) ++ rest) a = diskvd_args rest (a <| dk_masters := dk_masters a ++ ms |>).
Proof.
  induction ms as [|m ms IH]; intros a.
  - destruct a. cbn. by rewrite app_nil_r.
  - rewrite bind_cons. cbn [app diskvd_args]. change (diskvd_arg "-m" m a) with (mret (M := go) (a <| dk_masters := dk_masters a ++ [m] |>)).
    cbn [mret go_ret mbind go_bind] in IH |- *. rewrite IH. cbn. by rewrite <- app_assoc.
Qed.

Lemma replicas_args ss rest : forall a,
  diskvd_args ((ss ≫= fun s => ["-s"; s]) ++ rest) a = diskvd_args rest (a <| dk_replicas := dk_replicas a ++ ss |>).
Proof.
  induction ss as [|s ss IH]; intros a.
  - destruct a. cbn. by rewrite app_nil_r.
  - rewrite bind_cons. cbn [app diskvd_args]. change (diskvd_arg "-s" s a) with (mret (M := go) (a <| dk_replicas := dk_replicas a ++ [s] |>)).
    cbn [mret go_ret mbind go_bind] in IH |- *. rewrite IH. cbn. by rewrite <- app_assoc.
Qed.

(** What is written on the command line is what is started. *)
Lemma diskvd_roundtrip a : - 2 ^ 63 <= dk_gid a < 2 ^ 63 -> - 2 ^ 63 <= dk_me a < 2 ^ 63 ->
  diskvd_args (diskvd_argv a) no_args = Done a.
Proof.
  intros Hg Hm. transitivity (diskvd_args ((dk_masters a ≫= fun m => ["-m"; m]) ++ (dk_replicas a ≫= fun s => ["-s"; s])
    ++ drop 2 (diskvd_argv (a <| dk_masters := [] |> <| dk_replicas := [] |>))) (no_args <| dk_gid := ParseInt (pretty (dk_gid a)) |>)).
  { reflexivity. }
  rewrite ParseInt_pretty by done.
  rewrite masters_args, replicas_args. cbn -[ParseInt ParseBool pretty]. unfold Atoi. rewrite ParseInt_pretty by done.
  destruct a as [gid ms ss me u dir r]. by destruct u, r.
Qed.

Definition diskvd_valid (a : diskv_args) : Prop :=
  0 <= dk_gid a /\ 0 <= dk_me a < len (dk_replicas a) /\ dk_masters a <> [] /\ dk_dir a <> "".

Lemma diskvd_bad_valid a : diskvd_bad a = false <-> diskvd_valid a.
Proof.
  unfold diskvd_bad, diskvd_valid. rewrite !orb_false_iff, !Z.ltb_ge, Z.leb_gt, String.eqb_neq.
  destruct (dk_masters a); cbn; split; intros; destruct_and?; split_and?; try done; lia.
Qed.

(** A program that gets beyond its checks has started a server of a valid configuration. *)
Lemma diskvd_starts {Server W} StartServer (Setunreliable : Server -> bool -> W -> W) argv w w' :
  diskvd_main StartServer Setunreliable argv w = Done w' ->
  exists a srv w1, diskvd_args (drop 1 argv) no_args = Done a /\ diskvd_valid a
    /\ StartServer (dk_gid a) (dk_masters a) (dk_replicas a) (dk_me a) (dk_dir a) (dk_restart a) w = Done (srv, w1)
    /\ w' = Setunreliable srv (dk_unreliable a) w1.
Proof.
  unfold diskvd_main. intros (a & -> & H)%go_bind_Done. destruct (diskvd_bad a) eqn:Eb; [done |].
  apply go_bind_Done in H as ([srv w1] & Hs & [= <-]). exists a, srv, w1. split; [done |]. by split; [apply diskvd_bad_valid |].
Qed.

(** ** mrsequential *)

Lemma read_inputs_Done read filenames files :
  read_inputs read filenames = Done files <-> Forall2 (fun name f => f.1 = name /\ read name = Some (Some f.2)) filenames files.
Proof.
  revert files; induction filenames as [|name filenames IH]; intros files; cbn [read_inputs].
  - split; [by intros [= <-] | by intros Hf; inversion Hf].
  - destruct (read name) as [[content|]|] eqn:Er.
    2, 3: split; [done | intros Hf; inversion Hf as [|? [] ? ? [? ?]]; subst; congruence].
    rewrite go_bind_Done. setoid_rewrite IH. split.
    + intros (fs & Hf & [= <-]). by constructor.
    + intros Hf. inversion Hf as [|? [n c] ? fs [Hn Hc] Hfs]; subst. cbn in *. exists fs. split; [done |].
      rewrite Er in Hc. by injection Hc as ->.
Qed.

(** The program writes what [sequential] makes of its files, if it finds them. *)
Lemma mrsequential_writes sort plugin read prog xxx filenames mapf reducef files :
  filenames <> [] -> plugin xxx = Some (Some mapf, Some reducef) ->
  Forall2 (fun name f => f.1 = name /\ read name = Some (Some f.2)) filenames files ->
  mrsequential_main sort plugin read (prog :: xxx :: filenames) = Done (mr_out (sequential sort mapf reducef files)).
Proof.
  intros Hne Hp Hf%read_inputs_Done. unfold mrsequential_main, mrsequential_loadPlugin. rewrite Hp.
  destruct filenames as [|f filenames]; [done |]. cbn [mret go_ret mbind go_bind drop]. by rewrite Hf.
Qed.
