(* ===== verification/Wiring.v ===== *)
(** Groups of connection ends: the loops in which the testers make, connect, enable and
    disable the ends of the simulated network, and what they leave behind. *)
From S2P Require Import Prelude Labrpc.

(** [for j := 0; j < n; j++] *)
Definition range (n : Z) : list Z := Z.of_nat <$> seq 0 (Z.to_nat n).

Lemma elem_of_range n j : j ∈ range n <-> 0 <= j < n.
Proof.
  unfold range. rewrite list_elem_of_fmap. split.
  - intros (k & -> & [_ Hk]%elem_of_seq). lia.
  - intros Hj. exists (Z.to_nat j). split; [lia | apply elem_of_seq; lia].
Qed.

Lemma length_range n : length (range n) = Z.to_nat n.
Proof. unfold range. by rewrite length_fmap, length_seq. Qed.
Lemma range_lookup n k : 0 <= k < n -> range n !! Z.to_nat k = Some k.
Proof. intros Hk. unfold range. rewrite list_lookup_fmap, lookup_seq_lt by lia. cbn. f_equal. lia. Qed.

(** ** A table of end names: a row per server, nil before the server is started *)

(** [endnames[i][j]]; indexing a nil slice panics. *)
Definition name_in (endnames : list (option (list string))) (i j : Z) : go string :=
  names ← go_index endnames i; go_index (default [] names) j.
(** [endnames[i] != nil] *)
Definition has_row (endnames : list (option (list string))) (i : Z) : go bool :=
  names ← go_index endnames i; mret (bool_decide (is_Some names)).

Lemma name_in_Done endnames i j e :
  name_in endnames i j = Done e <->
  exists names, 0 <= i /\ endnames !! Z.to_nat i = Some (Some names) /\ 0 <= j /\ names !! Z.to_nat j = Some e.
Proof.
  unfold name_in. rewrite go_bind_Done. split.
  - intros ([names|] & [Hi Hl]%go_index_Done & [Hj Hn]%go_index_Done); [by exists names | done].
  - intros (names & Hi & Hl & Hj & Hn). exists (Some names). by split; apply go_index_Done.
Qed.

Lemma has_row_Done endnames i j e : name_in endnames i j = Done e -> has_row endnames i = Done true.
Proof.
  intros (names & Hi & Hl & _)%name_in_Done. unfold has_row. by rewrite (go_index_lookup _ _ _ Hi Hl).
Qed.

Lemma zip_range_lookup (names : list string) n e j :
  len names = n -> (e, j) ∈ zip names (range n) <-> 0 <= j /\ names !! Z.to_nat j = Some e.
Proof.
  intros Hn. rewrite list_elem_of_lookup. unfold range. split.
  - intros (k & Hk). apply lookup_zip_Some in Hk as [H1 H2]. rewrite list_lookup_fmap in H2.
    apply fmap_Some in H2 as (k' & [-> _]%lookup_seq & ->). split; [lia | by rewrite Nat2Z.id].
  - intros [Hj He]. exists (Z.to_nat j). apply lookup_zip_Some. split; [done |].
    rewrite list_lookup_fmap. apply lookup_lt_Some in He. rewrite lookup_seq_lt by lia. cbn. f_equal. lia.
Qed.

Lemma zip_range_fst (names : list string) n : len names = n -> (zip names (range n)).*1 = names.
Proof. intros Hn. apply fst_zip. rewrite length_range. lia. Qed.

Section wiring.
Context {End Srv : Type} `{Countable End, Countable Srv}.
Abbreviation Network := (Network (End:=End) (Srv:=Srv)).
Implicit Types (rn : Network) (e : End).

(** ** Making ends *)

(** [ends[j] = net.MakeEnd(names[j]); net.Connect(names[j], servers[j])] for each [j]. *)
Fixpoint MakeEnds (l : list (End * Srv)) rn : go Network :=
  match l with
  | [] => mret rn
  | (e, sn) :: l => rn ← MakeEnd rn e; MakeEnds l (Connect rn e sn)
  end.

Lemma MakeEnd_Done rn e rn' :
  MakeEnd rn e = Done rn' ->
  e ∉ ends rn /\ rn' = rn <| ends := {[e]} ∪ ends rn |> <| enabled := <[e := false]> (enabled rn) |>
                          <| connections := <[e := None]> (connections rn) |>.
Proof. unfold MakeEnd. case_bool_decide; intros Hd; [done |]. by injection Hd as <-. Qed.

Lemma is_enabled_Enable rn e yes e' :
  is_enabled (Enable rn e yes) e' = if decide (e' = e) then yes else is_enabled rn e'.
Proof.
  unfold is_enabled, Enable. cbn. destruct (decide (e' = e)) as [->|Hne].
  - by rewrite lookup_insert_eq.
  - by rewrite lookup_insert_ne.
Qed.

(** What making the ends [l] changes: the ends are new and distinct, each is connected to
    its server, disabled, and nothing else changes. *)
Record made (l : list (End * Srv)) rn rn' : Prop := {
  md_nodup : NoDup l.*1;
  md_fresh : forall e, e ∈ l.*1 -> e ∉ ends rn;
  md_ends : ends rn' = list_to_set l.*1 ∪ ends rn;
  md_enabled : forall e, is_enabled rn' e = if decide (e ∈ l.*1) then false else is_enabled rn e;
  md_conn : forall e sn, (e, sn) ∈ l -> connections rn' !! e = Some (Some sn);
  md_other : forall e, e ∉ l.*1 -> connections rn' !! e = connections rn !! e;
  md_servers : servers rn' = servers rn }.

Lemma MakeEnds_made l rn rn' : MakeEnds l rn = Done rn' -> made l rn rn'.
Proof.
  revert rn; induction l as [|[e sn] l IH]; intros rn Hm; cbn [MakeEnds] in Hm.
  { injection Hm as <-. split; cbn; try done; try set_solver. constructor. }
  apply go_bind_Done in Hm as (rn1 & [Hn ->]%MakeEnd_Done & Hm). destruct (IH _ Hm) as [ND Fr En Ab Co Ot Sv].
  cbn in Fr, En, Ot, Sv. assert (e ∉ l.*1) as Hel by (intros Hin; specialize (Fr e Hin); set_solver). split; cbn.
  - by constructor.
  - intros e' [->|He']%elem_of_cons; [done |]. specialize (Fr e' He'). set_solver.
  - rewrite En. set_solver.
  - intros e'. rewrite Ab. destruct (decide (e' ∈ l.*1)) as [Hin|Hin].
    + by rewrite decide_True by set_solver.
    + unfold is_enabled. cbn. destruct (decide (e' = e)) as [->|Hne].
      * by rewrite lookup_insert_eq, decide_True by set_solver.
      * by rewrite lookup_insert_ne, decide_False by set_solver.
  - intros e' sn' [[= -> ->]|Hin]%elem_of_cons; [|by apply Co].
    rewrite Ot by done. by rewrite lookup_insert_eq.
  - intros e' He'. rewrite Ot by set_solver. by rewrite !lookup_insert_ne by set_solver.
  - done.
Qed.

(** ** Switching ends on or off *)

Definition Enable_all (names : list End) (yes : bool) rn : Network :=
  foldl (fun rn e => Enable rn e yes) rn names.

(** [for j := range js { if test(j) { net.Enable(name(j), yes) } }] *)
Fixpoint switch_loop (test : Z -> go bool) (name : Z -> go End) (yes : bool) (js : list Z) rn : go Network :=
  match js with
  | [] => mret rn
  | j :: js =>
    b ← test j;
    rn ← (if b : bool then e ← name j; mret (Enable rn e yes) else mret rn);
    switch_loop test name yes js rn
  end.

Lemma is_enabled_Enable_all names yes rn e :
  is_enabled (Enable_all names yes rn) e = if decide (e ∈ names) then yes else is_enabled rn e.
Proof.
  unfold Enable_all. revert rn; induction names as [|e1 names IH]; intros rn; cbn [foldl].
  { by rewrite decide_False by apply not_elem_of_nil. }
  rewrite IH, is_enabled_Enable. destruct (decide (e ∈ names)) as [Hin|Hin].
  - by rewrite decide_True by set_solver.
  - destruct (decide (e = e1)) as [->|Hne]; [by rewrite decide_True by set_solver |].
    by rewrite decide_False by set_solver.
Qed.

(** Everything but [enabled] is as before. *)
Definition same_wires rn rn' : Prop :=
  ends rn' = ends rn /\ connections rn' = connections rn /\ servers rn' = servers rn.

Lemma Enable_all_wires names yes rn : same_wires rn (Enable_all names yes rn).
Proof.
  unfold Enable_all. revert rn; induction names as [|e names IH]; intros rn; [done |]. exact (IH (Enable rn e yes)).
Qed.

(** Exactly the ends [names] are switched. *)
Record switched (names : list End) (yes : bool) rn rn' : Prop := {
  sw_enabled : forall e, is_enabled rn' e = if decide (e ∈ names) then yes else is_enabled rn e;
  sw_wires : same_wires rn rn' }.

(** The ends that the loop switches. *)
Definition chosen (test : Z -> go bool) (name : Z -> go End) (js : list Z) (e : End) : Prop :=
  exists j, j ∈ js /\ test j = Done true /\ name j = Done e.

Lemma switch_loop_names test name yes js rn rn' :
  switch_loop test name yes js rn = Done rn' ->
  exists names, rn' = Enable_all names yes rn /\ forall e, e ∈ names <-> chosen test name js e.
Proof.
  revert rn; induction js as [|j js IH]; intros rn Hs; cbn [switch_loop] in Hs.
  { injection Hs as <-. exists []. split; [done |]. intros e. split; [by intros ?%elem_of_nil |].
    by intros (j & ?%elem_of_nil & _). }
  apply go_bind_Done in Hs as ([] & Ht & Hs).
  - apply go_bind_Done in Hs as (rn1 & Hn & Hs). apply go_bind_Done in Hn as (e0 & Hn & [= <-]).
    destruct (IH _ Hs) as (names & -> & Hiff). exists (e0 :: names). split; [done |]. intros e.
    rewrite elem_of_cons, Hiff. split.
    + intros [->|(j' & Hj' & ?)]; [by exists j; split; [left |] | exists j'; split; [by right | done]].
    + intros (j' & [->|Hj']%elem_of_cons & Ht' & Hn'); [left; congruence | right; by exists j'].
  - destruct (IH _ Hs) as (names & -> & Hiff). exists names. split; [done |]. intros e. rewrite Hiff. split.
    + intros (j' & Hj' & ?). exists j'. split; [by right | done].
    + intros (j' & [->|Hj']%elem_of_cons & Ht' & Hn'); [congruence | by exists j'].
Qed.

Lemma switch_loop_switched test name yes js rn rn' :
  switch_loop test name yes js rn = Done rn' ->
  exists names, (forall e, e ∈ names <-> chosen test name js e) /\ switched names yes rn rn'.
Proof.
  intros (names & -> & Hiff)%switch_loop_names. exists names. split; [done |].
  split; [intros e; apply is_enabled_Enable_all | apply Enable_all_wires].
Qed.

(** Two loops in a row, as [connect] and [disconnect] have them. *)
Lemma switch_loops yes t1 n1 js1 t2 n2 js2 rn rn' :
  (rn ← switch_loop t1 n1 yes js1 rn; switch_loop t2 n2 yes js2 rn) = Done rn' ->
  exists names, (forall e, e ∈ names <-> chosen t1 n1 js1 e \/ chosen t2 n2 js2 e) /\ switched names yes rn rn'.
Proof.
  intros (rn1 & (l1 & -> & H1)%switch_loop_names & (l2 & -> & H2)%switch_loop_names)%go_bind_Done.
  destruct (Enable_all_wires l1 yes rn) as (E1 & C1 & S1).
  destruct (Enable_all_wires l2 yes (Enable_all l1 yes rn)) as (E2 & C2 & S2).
  exists (l1 ++ l2). split; [intros e; by rewrite elem_of_app, H1, H2 |]. split.
  - intros e. rewrite !is_enabled_Enable_all.
    destruct (decide (e ∈ l2)), (decide (e ∈ l1)), (decide (e ∈ l1 ++ l2)); set_solver.
  - split; [by rewrite E2 |]. split; [by rewrite C2 | by rewrite S2].
Qed.

(** A loop runs to its end if its tests and the names it needs are there. *)
Lemma switch_loop_returns test name yes js rn :
  (forall j, j ∈ js -> exists b, test j = Done b /\ (b = true -> returns (name j))) ->
  returns (switch_loop test name yes js rn).
Proof.
  revert rn; induction js as [|j js IH]; intros rn Hj; [by eexists |]. cbn [switch_loop].
  destruct (Hj j) as (b & -> & Hb); [by left |]. cbn [mbind go_bind].
  assert (forall rn, returns (switch_loop test name yes js rn)) as Hrest by (intros; apply IH; intros; apply Hj; by right).
  destruct b; [destruct (Hb eq_refl) as [e ->] |]; cbn; apply Hrest.
Qed.
End wiring.
