(* ===== verification/RaftConfig.v ===== *)
(** The cluster that drives the Raft peers, [src/raft/config.go]: starting, crashing and
    connecting peers, reading what they apply, and the checks on leaders and commitment.

    [rafts] points into the list [world] of all instances ever made.  The persister that
    [saved[i]] points to is either one that nobody else has, or the one that was given to
    an instance, which goes on writing to it.  [interface{}] is [option C].  A call of
    [t.Fatal] ends the test.  What other goroutines do while the code sleeps, and the
    names that [randstring] draws, are arguments. *)
From S2P Require Import Prelude Persister RaftTypes RaftTools RaftPersist RaftElection RaftSnapshot RaftNode.
From S2P Require Import Labrpc Wiring.

Definition tFatal : string := "t.Fatal".

(** The bytes that [applierSnap] encodes, an index and a list of commands. *)
Class SnapCodec (C : Type) := {
  snap_encode : Z -> list (option C) -> bytes;
  snap_decode : bytes -> option (Z * list (option C)) }.
Class SnapLaws (C : Type) `{SnapCodec C} := {
  snap_roundtrip i l : snap_decode (snap_encode i l) = Some (i, l);
  snap_nonempty i l : snap_encode i l <> [] }.

(** What [err_msg] says; [None] is the empty string. *)
Inductive apply_err (C : Type) :=
| CommitMismatch (index : Z) (i : Z) (v : option C) (j : Z) (old : option C)
| OutOfOrder (i index : Z)
| OutOfOrderExpected (i expected index : Z)
| SnapshotMismatch (i : Z)
| OtherError (msg : string).
Arguments CommitMismatch {C} _ _ _ _ _.
Arguments OutOfOrder {C} _ _.
Arguments OutOfOrderExpected {C} _ _ _.
Arguments SnapshotMismatch {C} _.
Arguments OtherError {C} _.

(** A pointer to a persister. *)
Inductive pers := POwn (ps : Persister) | POf (p : nat).

Section config.
Context {C Ty Value : Type} `{EqDecision C, GobCodec C, SnapCodec C, !Codec Ty Value}.
Abbreviation Network := (Network (End:=string) (Srv:=Z)).
Abbreviation Server := (Server (Ty:=Ty) (Value:=Value) (W:=list (Raft C))).
(** Reflection: the methods of the [p]-th instance. *)
Context (raft_methods : nat -> list (Method (Ty:=Ty) (Value:=Value) (W:=list (Raft C)))).

Record config := mkConfig {
  cfg_finished : Z;
  cfg_net : Network;
  cfg_servers : list Server;              (* the labrpc servers ever made *)
  cfg_world : list (Raft C);
  cfg_n : Z;
  cfg_rafts : list (option nat);
  cfg_applyErr : list (option (apply_err C));
  cfg_connected : list bool;
  cfg_saved : list (option pers);
  cfg_endnames : list (option (list string));
  cfg_logs : list (gmap Z (option C));
  cfg_lastApplied : list Z;
  cfg_rpcs0 : Z; cfg_cmds0 : Z; cfg_bytes0 : Z; cfg_maxIndex : Z; cfg_maxIndex0 : Z }.
#[export] Instance eta_config : Eta config := fun c =>
  mkConfig (cfg_finished c) (cfg_net c) (cfg_servers c) (cfg_world c) (cfg_n c) (cfg_rafts c)
    (cfg_applyErr c) (cfg_connected c) (cfg_saved c) (cfg_endnames c) (cfg_logs c)
    (cfg_lastApplied c) (cfg_rpcs0 c) (cfg_cmds0 c) (cfg_bytes0 c) (cfg_maxIndex c) (cfg_maxIndex0 c).
Implicit Types (cfg : config).

(** ** Connecting *)

Definition endname cfg : Z -> Z -> go string := name_in (cfg_endnames cfg).
Definition has_endnames cfg : Z -> go bool := has_row (cfg_endnames cfg).

Definition connect (i : Z) cfg : go config :=
  connected ← go_update (cfg_connected cfg) i true;
  let cfg := cfg <| cfg_connected := connected |> in
  rn ← (rn ← switch_loop (go_index connected) (fun j => endname cfg i j) true (range (cfg_n cfg)) (cfg_net cfg);
        switch_loop (go_index connected) (fun j => endname cfg j i) true (range (cfg_n cfg)) rn);
  mret (cfg <| cfg_net := rn |>).

Definition disconnect (i : Z) cfg : go config :=
  connected ← go_update (cfg_connected cfg) i false;
  let cfg := cfg <| cfg_connected := connected |> in
  rn ← (rn ← switch_loop (fun _ => has_endnames cfg i) (fun j => endname cfg i j) false (range (cfg_n cfg)) (cfg_net cfg);
        switch_loop (has_endnames cfg) (fun j => endname cfg j i) false (range (cfg_n cfg)) rn);
  mret (cfg <| cfg_net := rn |>).

(** ** Instances *)

Definition nil_deref : string := "nil pointer dereference".

(** [*cfg.saved[i]] *)
Definition read_pers cfg (o : option pers) : go Persister :=
  match o with
  | None => Panic nil_deref
  | Some (POwn ps) => Done ps
  | Some (POf p) => match cfg_world cfg !! p with Some rf => Done (persister rf) | None => Panic nil_deref end
  end.

(** A method of the instance that a pointer points to. *)
Definition deref cfg (o : option nat) : go (Raft C) :=
  match o with
  | None => Panic nil_deref
  | Some p => match cfg_world cfg !! p with Some rf => Done rf | None => Panic nil_deref end
  end.

Definition crash1 (i : Z) cfg : go config :=
  cfg ← disconnect i cfg;
  let cfg := cfg <| cfg_net := DeleteServer (cfg_net cfg) i |> in
  s ← go_index (cfg_saved cfg) i;
  cfg ← (if s is Some _ then
           ps ← read_pers cfg s;
           saved ← go_update (cfg_saved cfg) i (Some (POwn (Copy ps)));
           mret (cfg <| cfg_saved := saved |>)
         else mret cfg);
  rf ← go_index (cfg_rafts cfg) i;
  cfg ← (if rf is Some p then
           rafts ← go_update (cfg_rafts cfg) i None;
           mret (cfg <| cfg_world := alter Kill p (cfg_world cfg) |> <| cfg_rafts := rafts |>)
         else mret cfg);
  s ← go_index (cfg_saved cfg) i;
  if s is Some _ then
    ps ← read_pers cfg s;
    let raftlog := ReadRaftState ps in
    let snap := ReadSnapshot ps in
    saved ← go_update (cfg_saved cfg) i (Some (POwn (Save (mkPersister [] []) raftlog snap)));
    mret (cfg <| cfg_saved := saved |>)
  else mret cfg.

(** ** Checking what is applied *)

(** The loop of [checkLogs]: the last server with another value is reported. *)
Fixpoint checkLogs_loop (i : Z) (index : Z) (v : option C) (j : Z) (logs : list (gmap Z (option C)))
    (err_msg : option (apply_err C)) : option (apply_err C) :=
  match logs with
  | [] => err_msg
  | l :: logs =>
    let err_msg :=
      match l !! index with
      | Some old => if bool_decide (old = v) then err_msg else Some (CommitMismatch index i v j old)
      | None => err_msg
      end in
    checkLogs_loop i index v (j + 1) logs err_msg
  end.

Definition checkLogs (i : Z) (m : ApplyMsg C) cfg : go (config * option (apply_err C) * bool) :=
  let v := am_Command m in
  let err_msg := checkLogs_loop i (CommandIndex m) v 0 (cfg_logs cfg) None in
  log_i ← go_index (cfg_logs cfg) i;
  let prevok := bool_decide (is_Some (log_i !! (CommandIndex m - 1))) in
  logs ← go_update (cfg_logs cfg) i (<[CommandIndex m := v]> log_i);
  let cfg := cfg <| cfg_logs := logs |> in
  let cfg := if cfg_maxIndex cfg <? CommandIndex m then cfg <| cfg_maxIndex := CommandIndex m |> else cfg in
  mret (cfg, err_msg, prevok).

(** One turn of the loop of [applier]; [log.Fatalf] ends the process. *)
Definition applier (i : Z) (m : ApplyMsg C) cfg : go config :=
  if negb (CommandValid m) then mret cfg else
  '(cfg, err_msg, prevok) ← checkLogs i m cfg;
  let err_msg := if (1 <? CommandIndex m) && negb prevok then Some (OutOfOrder i (CommandIndex m)) else err_msg in
  match err_msg with None => mret cfg | Some _ => Panic fatal end.

(** [cfg.logs[i][j] = xlog[j]] from [j] on. *)
Fixpoint xlog_map (j : Z) (xlog : list (option C)) (m : gmap Z (option C)) : gmap Z (option C) :=
  match xlog with [] => m | v :: xlog => xlog_map (j + 1) xlog (<[j := v]> m) end.

(** A nil snapshot and an empty one, which does not decode, end alike. *)
Definition ingestSnap (i : Z) (snapshot : bytes) (index : Z) cfg : go (config * option (apply_err C)) :=
  match snapshot with
  | [] => Panic fatal
  | _ =>
    match snap_decode snapshot with
    | None => Panic fatal
    | Some (lastIncludedIndex, xlog) =>
      if negb (index =? -1) && negb (index =? lastIncludedIndex) then mret (cfg, Some (SnapshotMismatch i))
      else
        logs ← go_update (cfg_logs cfg) i (xlog_map 0 xlog ∅);
        la ← go_update (cfg_lastApplied cfg) i lastIncludedIndex;
        mret (cfg <| cfg_logs := logs |> <| cfg_lastApplied := la |>, None)
    end
  end.

Definition SnapShotInterval : Z := 10.

(** [for j := 0; j <= index; j++ { xlog = append(xlog, cfg.logs[i][j]) }] *)
Definition xlog_of (l : gmap Z (option C)) (index : Z) : list (option C) :=
  (fun j => default None (l !! j)) <$> range (index + 1).

(** One turn of the loop of [applierSnap], started with the instance [p]. *)
Definition applierSnap (i : Z) (p : nat) (m : ApplyMsg C) cfg : go config :=
  '(cfg, err_msg) ←
    (if SnapshotValid m then ingestSnap i (am_Snapshot m) (SnapshotIndex m) cfg
     else if CommandValid m then
       la ← go_index (cfg_lastApplied cfg) i;
       '(cfg, err_msg) ←
         (if negb (CommandIndex m =? la + 1) then mret (cfg, Some (OutOfOrderExpected i (la + 1) (CommandIndex m)))
          else
            '(cfg, err_msg, prevok) ← checkLogs i m cfg;
            mret (cfg, if (1 <? CommandIndex m) && negb prevok then Some (OutOfOrder i (CommandIndex m)) else err_msg));
       las ← go_update (cfg_lastApplied cfg) i (CommandIndex m);
       let cfg := cfg <| cfg_lastApplied := las |> in
       if Z.rem (CommandIndex m + 1) SnapShotInterval =? 0 then
         log_i ← go_index (cfg_logs cfg) i;
         rf ← deref cfg (Some p);
         rf ← Snapshot rf (CommandIndex m) (snap_encode (CommandIndex m) (xlog_of log_i (CommandIndex m)));
         mret (cfg <| cfg_world := <[p := rf]> (cfg_world cfg) |>, err_msg)
       else mret (cfg, err_msg)
     else Panic "unexpected ApplyMsg");
  match err_msg with None => mret cfg | Some _ => Panic fatal end.

(** The first lines of [applierSnap]: which instance it serves, if any. *)
Definition applierSnap_start (i : Z) cfg : go (option nat) := go_index (cfg_rafts cfg) i.

(** ** Starting *)

(** [names] are the [n] names drawn by [randstring]; [now] and [rnd] are for [Make]. *)
Definition start1 (i : Z) (names : list string) (now rnd : Z) cfg : go config :=
  cfg ← crash1 i cfg;
  endnames ← go_update (cfg_endnames cfg) i (Some names);
  rn ← MakeEnds (zip names (range (cfg_n cfg))) (cfg_net cfg);
  la ← go_update (cfg_lastApplied cfg) i 0;
  let cfg := cfg <| cfg_endnames := endnames |> <| cfg_net := rn |> <| cfg_lastApplied := la |> in
  s ← go_index (cfg_saved cfg) i;
  '(cfg, ps) ←
    (if s is Some _ then
       ps ← read_pers cfg s;
       let ps := Copy ps in
       let snap := ReadSnapshot ps in
       if 0 <? len snap then
         '(cfg, err) ← ingestSnap i snap (-1) cfg;
         match err with None => mret (cfg, ps) | Some _ => Panic tFatal end
       else mret (cfg, ps)
     else mret (cfg, MakePersister));
  rf ← Make (Z.to_nat (cfg_n cfg)) i ps now rnd;
  let p := length (cfg_world cfg) in
  saved ← go_update (cfg_saved cfg) i (Some (POf p));
  rafts ← go_update (cfg_rafts cfg) i (Some p);
  let srv := AddService MakeServer (MakeService "Raft" (raft_methods p)) in
  mret (cfg <| cfg_world := cfg_world cfg ++ [rf] |> <| cfg_saved := saved |> <| cfg_rafts := rafts |>
            <| cfg_servers := cfg_servers cfg ++ [srv] |>
            <| cfg_net := AddServer (cfg_net cfg) i (length (cfg_servers cfg)) |>).

Definition setunreliable (unrel : bool) cfg : config := cfg <| cfg_net := Reliable (cfg_net cfg) (negb unrel) |>.
Definition setlongreordering (longrel : bool) cfg : config :=
  cfg <| cfg_net := LongReordering (cfg_net cfg) longrel |>.

(** The loops of [make_config]. *)
Fixpoint for_each (f : Z -> config -> go config) (is_ : list Z) cfg : go config :=
  match is_ with [] => mret cfg | i :: is_ => cfg ← f i cfg; for_each f is_ cfg end.

(** [draw i] are the names, the time and the random number for server [i]. *)
Definition make_config (n : Z) (unreliable : bool) (draw : Z -> list string * Z * Z) : go config :=
  if n <? 0 then Panic "makeslice: len out of range" else
  let k := Z.to_nat n in
  let cfg := mkConfig 0 MakeNetwork [] [] n (replicate k None) (replicate k None) (replicate k false)
               (replicate k None) (replicate k None) (replicate k ∅) (replicate k 0) 0 0 0 0 0 in
  let cfg := setunreliable unreliable cfg in
  let cfg := cfg <| cfg_net := LongDelays (cfg_net cfg) true |> in
  cfg ← for_each (fun i cfg => start1 i (draw i).1.1 (draw i).1.2 (draw i).2 cfg) (range n) cfg;
  for_each connect (range n) cfg.

(** ** Statistics and the end of a test *)

Definition rpcCount (server : Z) cfg : go Z := GetCount (cfg_servers cfg) (cfg_net cfg) server.
Definition rpcTotal cfg : Z := GetTotalCount (cfg_net cfg).
Definition bytesTotal cfg : Z := GetTotalBytes (cfg_net cfg).

(** [failed] is [t.Failed()], [elapsed] the seconds since the start. *)
Definition checkTimeout (failed : bool) (elapsed : Z) : go unit :=
  if negb failed && (120 <? elapsed) then Panic tFatal else mret tt.
Definition checkFinished cfg : bool := negb (cfg_finished cfg =? 0).

Definition cleanup (failed : bool) (elapsed : Z) cfg : go config :=
  let cfg := cfg <| cfg_finished := 1 |> in
  let cfg := cfg <| cfg_world := foldl (fun w o => if o is Some p then alter Kill p w else w) (cfg_world cfg) (cfg_rafts cfg) |> in
  rn ← Cleanup (cfg_net cfg);
  checkTimeout failed elapsed;;
  mret (cfg <| cfg_net := rn |>).

Definition begin (cfg : config) : config :=
  cfg <| cfg_rpcs0 := rpcTotal cfg |> <| cfg_bytes0 := bytesTotal cfg |> <| cfg_cmds0 := 0 |>
      <| cfg_maxIndex0 := cfg_maxIndex cfg |>.

(** The numbers that [end] prints: peers, RPCs, bytes, agreements. *)
Definition end_ (failed : bool) (elapsed : Z) cfg : go (option (Z * Z * Z * Z)) :=
  checkTimeout failed elapsed;;
  mret (if failed then None
        else Some (cfg_n cfg, rpcTotal cfg - cfg_rpcs0 cfg, bytesTotal cfg - cfg_bytes0 cfg,
                   cfg_maxIndex cfg - cfg_maxIndex0 cfg)).

Fixpoint LogSize_loop cfg (is_ : list Z) (logsize : Z) : go Z :=
  match is_ with
  | [] => mret logsize
  | i :: is_ =>
    s ← go_index (cfg_saved cfg) i;
    ps ← read_pers cfg s;
    let n := RaftStateSize ps in
    LogSize_loop cfg is_ (if logsize <? n then n else logsize)
  end.
Definition LogSize cfg : go Z := LogSize_loop cfg (range (cfg_n cfg)) 0.

(** ** Leaders and terms *)

(** [cfg.connected[i]], and [cfg.rafts[i].GetState()] if it is. *)
Definition state_of cfg (i : Z) : go (option (Z * bool)) :=
  c ← go_index (cfg_connected cfg) i;
  if c : bool then
    o ← go_index (cfg_rafts cfg) i;
    rf ← deref cfg o;
    mret (Some (GetState rf))
  else mret None.

(** The map of leaders by term; [looks i] is the state when server [i] is asked. *)
Fixpoint leaders_loop (looks : Z -> config) (is_ : list Z) (leaders : gmap Z (list Z)) : go (gmap Z (list Z)) :=
  match is_ with
  | [] => mret leaders
  | i :: is_ =>
    s ← state_of (looks i) i;
    leaders_loop looks is_
      (match s with
       | Some (term, true) => <[term := default [] (leaders !! term) ++ [i]]> leaders
       | _ => leaders
       end)
  end.

(** [for term, leaders := range leaders { ... }] *)
Fixpoint last_term_loop (l : list (Z * list Z)) (lastTermWithLeader : Z) : go Z :=
  match l with
  | [] => mret lastTermWithLeader
  | (term, leaders) :: l =>
    if 1 <? len leaders then Panic tFatal
    else last_term_loop l (if lastTermWithLeader <? term then term else lastTermWithLeader)
  end.

(** [n] is [cfg.n]; one element of [iters] per iteration, at most ten. *)
Fixpoint checkOneLeader (n : Z) (iters : list (Z -> config)) : go Z :=
  match iters with
  | [] => Panic tFatal
  | looks :: iters =>
    leaders ← leaders_loop looks (range n) ∅;
    lastTermWithLeader ← last_term_loop (map_to_list leaders) (-1);
    if bool_decide (leaders = ∅) then checkOneLeader n iters
    else go_index (default [] (leaders !! lastTermWithLeader)) 0
  end.

Fixpoint checkTerms_loop (looks : Z -> config) (is_ : list Z) (term : Z) : go Z :=
  match is_ with
  | [] => mret term
  | i :: is_ =>
    s ← state_of (looks i) i;
    match s with
    | None => checkTerms_loop looks is_ term
    | Some (xterm, _) =>
      if term =? -1 then checkTerms_loop looks is_ xterm
      else if negb (term =? xterm) then Panic tFatal
      else checkTerms_loop looks is_ term
    end
  end.
Definition checkTerms (n : Z) (looks : Z -> config) : go Z := checkTerms_loop looks (range n) (-1).

Fixpoint checkNoLeader_loop (looks : Z -> config) (is_ : list Z) : go unit :=
  match is_ with
  | [] => mret tt
  | i :: is_ =>
    s ← state_of (looks i) i;
    match s with Some (_, true) => Panic tFatal | _ => checkNoLeader_loop looks is_ end
  end.
Definition checkNoLeader (n : Z) (looks : Z -> config) : go unit := checkNoLeader_loop looks (range n).

(** ** Agreement *)

(** What the other goroutines do while the tester does not hold [cfg.mu]. *)
Definition env := config -> config.

(** The lock is taken for each server again.  [gap i] is what happens before
    [cfg.applyErr[i]] is read (without the lock), and between that and [cfg.mu.Lock()]. *)
Fixpoint nCommitted_loop (index : Z) (gap : Z -> env * env) (is_ : list Z) (count : Z) (cmd : option C) cfg
    : go (config * Z * option C) :=
  match is_ with
  | [] => mret (cfg, count, cmd)
  | i :: is_ =>
    let cfg := (gap i).1 cfg in
    err ← go_index (cfg_applyErr cfg) i;
    if bool_decide (is_Some err) then Panic tFatal else
    let cfg := (gap i).2 cfg in
    log_i ← go_index (cfg_logs cfg) i;
    match log_i !! index with
    | Some cmd1 =>
      if (0 <? count) && negb (bool_decide (cmd = cmd1)) then Panic tFatal
      else nCommitted_loop index gap is_ (count + 1) cmd1 cfg
    | None => nCommitted_loop index gap is_ count cmd cfg
    end
  end.
Definition nCommitted (index : Z) (gap : Z -> env * env) cfg : go (config * Z * option C) :=
  nCommitted_loop index gap (range (len (cfg_rafts cfg))) 0 None cfg.

(** [for _, r := range cfg.rafts { if t, _ := r.GetState(); t > startTerm { return -1 } }];
    [gap i] is what happens before server [i] is asked. *)
Fixpoint moved_on (gap : Z -> env) (is_ : list Z) (startTerm : Z) cfg : go (config * bool) :=
  match is_ with
  | [] => mret (cfg, false)
  | i :: is_ =>
    let cfg := gap i cfg in
    r ← go_index (cfg_rafts cfg) i;
    rf ← deref cfg r;
    if startTerm <? (GetState rf).1 then mret (cfg, true) else moved_on gap is_ startTerm cfg
  end.

(** An iteration of [wait]: what happens during [nCommitted], during the sleep, and
    while the terms are looked at. *)
Record wait_iter := mkWaitIter { wi_gap : Z -> env * env; wi_sleep : env; wi_states : Z -> env }.

(** At most thirty [iters]; [last] is what happens during the last [nCommitted].  [None]
    is the -1 that is returned when someone has moved on. *)
Fixpoint wait (index n startTerm : Z) (iters : list wait_iter) (last : Z -> env * env) cfg
    : go (config * option (option C)) :=
  let finish cfg :=
    '(cfg, nd, cmd) ← nCommitted index last cfg;
    if nd <? n then Panic tFatal else mret (cfg, Some cmd) in
  match iters with
  | [] => finish cfg
  | it :: iters =>
    '(cfg, nd, _) ← nCommitted index (wi_gap it) cfg;
    if n <=? nd then finish cfg else
    let cfg := wi_sleep it cfg in
    '(cfg, moved) ← (if -1 <? startTerm then moved_on (wi_states it) (range (len (cfg_rafts cfg))) startTerm cfg
                     else mret (cfg, false));
    if moved : bool then mret (cfg, None) else wait index n startTerm iters last cfg
  end.

(** [for si := 0; si < cfg.n; si++ { ... }]: submit the command to the first server that
    takes it.  [gap starts] is what happens before the lock is taken for this server, and
    between the unlock and [rf.Start]. *)
Fixpoint try_servers (gap : Z -> env * env) (si : nat) (starts : Z) (cmd : C) cfg : go (config * Z * Z) :=
  match si with
  | O => mret (cfg, starts, -1)
  | S si =>
    let starts := Z.rem (starts + 1) (cfg_n cfg) in
    let cfg := (gap starts).1 cfg in
    c ← go_index (cfg_connected cfg) starts;
    o ← (if c : bool then go_index (cfg_rafts cfg) starts else mret None);
    let cfg := (gap starts).2 cfg in
    match o with
    | None => try_servers gap si starts cmd cfg
    | Some p =>
      rf ← deref cfg (Some p);
      '(rf, (index1, _, ok)) ← Start rf cmd;
      let cfg := cfg <| cfg_world := <[p := rf]> (cfg_world cfg) |> in
      if ok : bool then mret (cfg, starts, index1) else try_servers gap si starts cmd cfg
    end
  end.

(** A turn of the two seconds of waiting for agreement: what happens during
    [nCommitted], and during the sleep of 20 ms. *)
Record poll_turn := mkPollTurn { pt_gap : Z -> env * env; pt_sleep : env }.

Fixpoint poll (cmd : C) (expectedServers index : Z) (turns : list poll_turn) cfg : go (config * option Z) :=
  match turns with
  | [] => mret (cfg, None)
  | t :: turns =>
    '(cfg, nd, cmd1) ← nCommitted index (pt_gap t) cfg;
    if (0 <? nd) && (expectedServers <=? nd) && bool_decide (cmd1 = Some cmd) then mret (cfg, Some index)
    else poll cmd expectedServers index turns (pt_sleep t cfg)
  end.

(** A turn of the outer loop: what happens while the servers are tried, the turns of
    waiting for agreement, and what happens in the 50 ms of sleep if no server took the
    command. *)
Record one_round := mkOneRound { or_try : Z -> env * env; or_turns : list poll_turn; or_sleep : env }.

(** One element of [rounds] per turn of the outer loop, within its ten seconds. *)
Fixpoint one_loop (cmd : C) (expectedServers : Z) (retry : bool) (starts : Z) (rounds : list one_round) cfg
    : go (config * Z) :=
  match rounds with
  | [] => if negb (checkFinished cfg) then Panic tFatal else mret (cfg, -1)
  | r :: rounds =>
    if checkFinished cfg then mret (cfg, -1) else
    '(cfg, starts, index) ← try_servers (or_try r) (Z.to_nat (cfg_n cfg)) starts cmd cfg;
    if negb (index =? -1) then
      '(cfg, found) ← poll cmd expectedServers index (or_turns r) cfg;
      match found with
      | Some index => mret (cfg, index)
      | None => if negb retry then Panic tFatal else one_loop cmd expectedServers retry starts rounds cfg
      end
    else one_loop cmd expectedServers retry starts rounds (or_sleep r cfg)
  end.
Definition one (cmd : C) (expectedServers : Z) (retry : bool) (rounds : list one_round) cfg : go (config * Z) :=
  one_loop cmd expectedServers retry 0 rounds cfg.
End config.
