(* ===== verification/RaftConfigWiring.v ===== *)
(** The wiring of the Raft tester: in every state that its operations reach, an end that
    may send belongs to the newest instance of a connected peer and leads to a connected
    peer. *)
From S2P Require Import Prelude Persister RaftTypes RaftPersist RaftNode Labrpc Wiring RaftConfig.

Section wiring.
Context {C Ty Value : Type} `{EqDecision C, GobCodec C, SnapCodec C, !Codec Ty Value}.
Context (raft_methods : nat -> list (Method (Ty:=Ty) (Value:=Value) (W:=list (Raft C)))).
Abbreviation config := (config (C:=C) (Ty:=Ty) (Value:=Value)).
Implicit Types (cfg : config).

Definition up (connected : list bool) (i : Z) : bool := default false (connected !! Z.to_nat i).

Record wired cfg : Prop := {
  wd_connected : len (cfg_connected cfg) = cfg_n cfg;
  wd_endnames : len (cfg_endnames cfg) = cfg_n cfg;
  wd_row : forall i names, cfg_endnames cfg !! i = Some (Some names) -> len names = cfg_n cfg;
  wd_ends : forall i j e, endname cfg i j = Done e -> e ∈ ends (cfg_net cfg);
  wd_inj : forall i j i' j' e, endname cfg i j = Done e -> endname cfg i' j' = Done e -> i = i' /\ j = j';
  wd_conn : forall i j e, endname cfg i j = Done e -> connections (cfg_net cfg) !! e = Some (Some j);
  wd_link : forall i j e, endname cfg i j = Done e ->
    is_enabled (cfg_net cfg) e = up (cfg_connected cfg) i && up (cfg_connected cfg) j;
  wd_old : forall e, is_enabled (cfg_net cfg) e = true -> exists i j, endname cfg i j = Done e }.

(** The parts that [wired] looks at. *)
Record same_wiring cfg cfg' : Prop := {
  sm_n : cfg_n cfg' = cfg_n cfg;
  sm_connected : cfg_connected cfg' = cfg_connected cfg;
  sm_endnames : cfg_endnames cfg' = cfg_endnames cfg;
  sm_ends : ends (cfg_net cfg') = ends (cfg_net cfg);
  sm_enabled : enabled (cfg_net cfg') = enabled (cfg_net cfg);
  sm_conn : connections (cfg_net cfg') = connections (cfg_net cfg) }.

#[export] Instance same_wiring_equivalence : Equivalence same_wiring.
Proof.
  split.
  - by intros cfg.
  - intros c1 c2 []. by split.
  - intros c1 c2 c3 [] []. split; congruence.
Qed.

#[export] Instance wired_proper : Proper (same_wiring ==> impl) wired.
Proof.
  intros cfg cfg' [Hn Hc He Hs Hen Hco] [].
  assert (forall i j, endname cfg' i j = endname cfg i j) as Heq by (intros; unfold endname; by rewrite He).
  assert (forall e, is_enabled (cfg_net cfg') e = is_enabled (cfg_net cfg) e) as Hie
    by (intros; unfold is_enabled; by rewrite Hen).
  split; rewrite ?Hn, ?Hc, ?He, ?Hs, ?Hco; try done; intros *; rewrite ?Heq, ?Hie; eauto.
  intros Hd. destruct (wd_old0 _ Hd) as (i & j & ?). exists i, j. by rewrite Heq.
Qed.

(** ** Names and indexes *)

Lemma endname_row cfg i j e :
  endname cfg i j = Done e <->
  exists names, 0 <= i /\ cfg_endnames cfg !! Z.to_nat i = Some (Some names) /\ 0 <= j /\ names !! Z.to_nat j = Some e.
Proof. apply name_in_Done. Qed.

Lemma endname_range cfg i j e :
  wired cfg -> endname cfg i j = Done e -> 0 <= i < cfg_n cfg /\ 0 <= j < cfg_n cfg.
Proof.
  intros W (names & Hi & Hl & Hj & Hn)%endname_row.
  pose proof (wd_row _ W _ _ Hl). pose proof (wd_endnames _ W).
  apply lookup_lt_Some in Hl. apply lookup_lt_Some in Hn. lia.
Qed.

Lemma has_endnames_Done cfg i j e : endname cfg i j = Done e -> has_endnames cfg i = Done true.
Proof. apply has_row_Done. Qed.

Lemma up_go_index connected i : 0 <= i -> go_index connected i = Done true <-> up connected i = true.
Proof.
  intros Hi. unfold up. rewrite go_index_Done. destruct (connected !! Z.to_nat i) as [[]|]; cbn; naive_solver.
Qed.

Lemma up_update connected i b connected' j :
  go_update connected i b = Done connected' -> 0 <= j -> up connected' j = if decide (j = i) then b else up connected j.
Proof.
  intros [Hi ->]%go_update_inv Hj. unfold up. destruct (decide (j = i)) as [->|Hne].
  - by rewrite list_lookup_insert_eq by lia.
  - by rewrite list_lookup_insert_ne by lia.
Qed.

(** ** connect and disconnect *)

(** Setting [connected[i]] to [b] and switching the ends [switches] to [b]. *)
Lemma wired_switch cfg i b connected switches rn' :
  wired cfg -> go_update (cfg_connected cfg) i b = Done connected -> switched switches b (cfg_net cfg) rn' ->
  (forall e, e ∈ switches -> exists j k,
     endname cfg j k = Done e /\ (j = i \/ k = i) /\ up connected j && up connected k = b) ->
  (forall j k e, endname cfg j k = Done e -> j = i \/ k = i -> e ∉ switches ->
     up connected j && up connected k = up (cfg_connected cfg) j && up (cfg_connected cfg) k) ->
  wired (cfg <| cfg_connected := connected |> <| cfg_net := rn' |>).
Proof.
  intros W Hup [Hen (Hends & Hconn & _)] HP Hall.
  set (cfg' := cfg <| cfg_connected := connected |> <| cfg_net := rn' |>).
  assert (forall i j, endname cfg' i j = endname cfg i j) as Heq by done.
  split; cbn [cfg_connected cfg_n cfg_endnames cfg_net cfg' set_field].
  - rewrite <- (wd_connected _ W). destruct (go_update_inv _ _ _ _ Hup) as [_ ->]. by rewrite length_insert.
  - apply (wd_endnames _ W).
  - apply (wd_row _ W).
  - intros *. rewrite Heq, Hends. apply (wd_ends _ W).
  - intros *. rewrite !Heq. apply (wd_inj _ W).
  - intros *. rewrite Heq, Hconn. apply (wd_conn _ W).
  - intros j k e. rewrite Heq. intros He. destruct (endname_range _ _ _ _ W He) as [Hj Hk]. rewrite Hen.
    destruct (decide (e ∈ switches)) as [Hp|Hp].
    { destruct (HP e Hp) as (j' & k' & He' & _ & <-). by destruct (wd_inj _ W _ _ _ _ _ He He') as [-> ->]. }
    rewrite (wd_link _ W _ _ _ He).
    destruct (decide (j = i \/ k = i)) as [Hi|Hi]; [by rewrite (Hall j k e He Hi Hp) |].
    rewrite !(up_update _ _ _ _ _ Hup) by lia. by rewrite !decide_False by tauto.
  - intros e. rewrite Hen. destruct (decide (e ∈ switches)) as [Hp|Hp]; [|apply (wd_old _ W)].
    intros _. destruct (HP e Hp) as (j & k & He & _). by exists j, k.
Qed.

Lemma connect_wired i cfg cfg' :
  wired cfg -> connect i cfg = Done cfg' -> wired cfg' /\ up (cfg_connected cfg') i = true.
Proof.
  intros W (connected & Hup & (rn' & Hsw & [= <-])%go_bind_Done)%go_bind_Done.
  destruct (go_update_inv _ _ _ _ Hup) as [Hi _].
  assert (up connected i = true) as Hupi by (rewrite (up_update _ _ _ _ _ Hup) by lia; by rewrite decide_True).
  split; [|done]. destruct (switch_loops _ _ _ _ _ _ _ _ _ Hsw) as (switches & Hiff & Hswd).
  cbn [cfg_net cfg_n set_field] in *. apply (wired_switch cfg i true connected switches rn'); [done | done | done | |].
  - intros e [(j & Hj & Ht & Hn)|(j & Hj & Ht & Hn)]%Hiff.
    + exists i, j. split; [exact Hn |]. split; [by left |]. apply elem_of_range in Hj. apply up_go_index in Ht; [|lia].
      by rewrite Hupi, Ht.
    + exists j, i. split; [exact Hn |]. split; [by right |]. apply elem_of_range in Hj. apply up_go_index in Ht; [|lia].
      by rewrite Hupi, Ht.
  - intros j k e He Hjk Hns. destruct (endname_range _ _ _ _ W He) as [Hj Hk]. rewrite Hiff in Hns.
    assert (forall x, 0 <= x -> up connected x = false -> up (cfg_connected cfg) x = false) as Hmono.
    { intros x Hx. rewrite (up_update _ _ _ _ _ Hup) by lia. by destruct (decide (x = i)). }
    destruct Hjk as [-> | ->].
    + destruct (up connected k) eqn:Ek; [|by rewrite (Hmono k), !andb_false_r by (lia || done)].
      exfalso. apply Hns. left. exists k. split; [by apply elem_of_range |]. split; [apply up_go_index; [lia | done] | done].
    + destruct (up connected j) eqn:Ej; [|by rewrite (Hmono j) by (lia || done)].
      exfalso. apply Hns. right. exists j. split; [by apply elem_of_range |]. split; [apply up_go_index; [lia | done] | done].
Qed.

Lemma disconnect_wired i cfg cfg' :
  wired cfg -> disconnect i cfg = Done cfg' ->
  wired cfg' /\ up (cfg_connected cfg') i = false /\ cfg_endnames cfg' = cfg_endnames cfg /\ cfg_n cfg' = cfg_n cfg.
Proof.
  intros W (connected & Hup & (rn' & Hsw & [= <-])%go_bind_Done)%go_bind_Done.
  destruct (go_update_inv _ _ _ _ Hup) as [Hi _].
  assert (up connected i = false) as Hupi by (rewrite (up_update _ _ _ _ _ Hup) by lia; by rewrite decide_True).
  split; [|done]. destruct (switch_loops _ _ _ _ _ _ _ _ _ Hsw) as (switches & Hiff & Hswd).
  cbn [cfg_net cfg_n set_field] in *. apply (wired_switch cfg i false connected switches rn'); [done | done | done | |].
  - intros e [(j & _ & _ & Hn)|(j & _ & _ & Hn)]%Hiff.
    + exists i, j. split; [exact Hn |]. split; [by left | by rewrite Hupi].
    + exists j, i. split; [exact Hn |]. split; [by right | by rewrite Hupi, andb_false_r].
  - intros j k e He Hjk Hns. exfalso. apply Hns, Hiff. destruct (endname_range _ _ _ _ W He) as [Hj Hk].
    destruct Hjk as [-> | ->]; [left; exists k | right; exists j];
      (split; [by apply elem_of_range |]; split; [exact (has_endnames_Done _ _ _ _ He) | done]).
Qed.

(** ** crash1 and start1 *)

Lemma crash1_wired i cfg cfg' :
  wired cfg -> crash1 i cfg = Done cfg' ->
  wired cfg' /\ up (cfg_connected cfg') i = false /\ cfg_endnames cfg' = cfg_endnames cfg /\ cfg_n cfg' = cfg_n cfg.
Proof.
  intros W (cfg1 & Hdis & Hrest)%go_bind_Done.
  destruct (disconnect_wired _ _ _ W Hdis) as (W1 & Hup & He & Hn).
  assert (same_wiring cfg1 cfg') as Hsm.
  { apply go_bind_Done in Hrest as (s & _ & Hrest). apply go_bind_Done in Hrest as (cfg2 & H2 & Hrest).
    assert (same_wiring cfg1 cfg2) as ->.
    { destruct s as [ptr|]; [|by injection H2 as <-].
      apply go_bind_Done in H2 as (ps & _ & H2). by apply go_bind_Done in H2 as (saved & _ & [= <-]). }
    apply go_bind_Done in Hrest as (rf & _ & Hrest). apply go_bind_Done in Hrest as (cfg3 & H3 & Hrest).
    assert (same_wiring cfg2 cfg3) as ->.
    { destruct rf as [p|]; [|by injection H3 as <-]. by apply go_bind_Done in H3 as (rafts & _ & [= <-]). }
    apply go_bind_Done in Hrest as (s' & _ & Hrest). destruct s' as [ptr|]; [|by injection Hrest as <-].
    apply go_bind_Done in Hrest as (ps & _ & Hrest). by apply go_bind_Done in Hrest as (saved & _ & [= <-]). }
  split; [by eapply wired_proper |]. rewrite <- He, <- Hn. by destruct Hsm as [? -> ? ? ? ?].
Qed.

(** New names for the ends of a peer that is not connected. *)
Lemma wired_rename cfg i names endnames rn' :
  wired cfg -> up (cfg_connected cfg) i = false -> len names = cfg_n cfg ->
  go_update (cfg_endnames cfg) i (Some names) = Done endnames ->
  made (zip names (range (cfg_n cfg))) (cfg_net cfg) rn' ->
  wired (cfg <| cfg_endnames := endnames |> <| cfg_net := rn' |>).
Proof.
  intros W Hup Hlen [Hi ->]%go_update_inv [ND Fr En Ab Co Ot _]. rewrite zip_range_fst in * by done.
  set (cfg' := cfg <| cfg_endnames := _ |> <| cfg_net := rn' |>).
  assert (forall j k e, endname cfg' j k = Done e ->
    (j = i /\ 0 <= k /\ names !! Z.to_nat k = Some e) \/ (j <> i /\ endname cfg j k = Done e)) as Hcase.
  { intros j k e (names' & Hj & Hl & Hk & He)%endname_row. cbn in Hl. destruct (decide (j = i)) as [->|Hne].
    - left. rewrite list_lookup_insert_eq in Hl by lia. by injection Hl as <-.
    - right. split; [done |]. apply endname_row. exists names'. by rewrite list_lookup_insert_ne in Hl by lia. }
  assert (forall j k e, endname cfg j k = Done e -> e ∉ names) as Hold
    by (intros j k e He Hin; exact (Fr e Hin (wd_ends _ W _ _ _ He))).
  assert (forall k e, names !! k = Some e -> e ∈ names) as Hnew by (intros; by eapply list_elem_of_lookup_2).
  split; cbn [cfg_connected cfg_n cfg_endnames cfg_net cfg' set_field].
  - apply (wd_connected _ W).
  - rewrite length_insert. apply (wd_endnames _ W).
  - intros j names' Hj. destruct (decide (j = Z.to_nat i)) as [->|Hne].
    + rewrite list_lookup_insert_eq in Hj by lia. by injection Hj as <-.
    + rewrite list_lookup_insert_ne in Hj by done. by eapply (wd_row _ W).
  - intros j k e [(_ & _ & He)|[_ He]]%Hcase; rewrite En; [apply Hnew in He; set_solver |].
    apply (wd_ends _ W) in He. set_solver.
  - intros j k j' k' e [(-> & Hk & He)|[Hne He]]%Hcase [(-> & Hk' & He')|[Hne' He']]%Hcase.
    + split; [done |]. pose proof (NoDup_lookup _ _ _ _ ND He He'). lia.
    + exfalso. eapply Hold; [exact He' | by eapply Hnew].
    + exfalso. eapply Hold; [exact He | by eapply Hnew].
    + by eapply (wd_inj _ W).
  - intros j k e [(-> & Hk & He)|[_ He]]%Hcase; [by apply Co, zip_range_lookup |].
    rewrite Ot by by eapply Hold. by apply (wd_conn _ W) in He.
  - intros j k e [(-> & Hk & He)|[_ He]]%Hcase; rewrite Ab.
    + rewrite decide_True by by eapply Hnew. by rewrite Hup.
    + rewrite decide_False by by eapply Hold. by apply (wd_link _ W).
  - intros e. rewrite Ab. destruct (decide (e ∈ names)) as [|Hin]; [done |]. intros Hen.
    destruct (wd_old _ W e Hen) as (j & k & He). exists j, k. rewrite (wd_link _ W _ _ _ He) in Hen.
    assert (j <> i) as Hne by (intros ->; by rewrite Hup in Hen).
    apply endname_row. apply endname_row in He as (names' & Hj & Hl & Hk & He). exists names'. cbn.
    by rewrite list_lookup_insert_ne by lia.
Qed.

Lemma start1_wired i names now rnd cfg cfg' :
  wired cfg -> len names = cfg_n cfg -> start1 raft_methods i names now rnd cfg = Done cfg' ->
  wired cfg' /\ cfg_n cfg' = cfg_n cfg.
Proof.
  intros W Hlen (cfg1 & Hcr & Hrest)%go_bind_Done.
  destruct (crash1_wired _ _ _ W Hcr) as (W1 & Hup & _ & Hn). rewrite <- Hn in Hlen |- *.
  apply go_bind_Done in Hrest as (en & Hen & Hrest). apply go_bind_Done in Hrest as (rn & Hm & Hrest).
  apply go_bind_Done in Hrest as (la & _ & Hrest).
  pose proof (wired_rename cfg1 i names en rn W1 Hup Hlen Hen (MakeEnds_made _ _ _ Hm)) as W2.
  set (cfg2 := cfg1 <| cfg_endnames := en |> <| cfg_net := rn |>) in *.
  assert (same_wiring cfg2 cfg' /\ cfg_n cfg' = cfg_n cfg1) as [Hsm ?]; [|split; [by eapply wired_proper | done]].
  apply go_bind_Done in Hrest as (s & _ & Hrest). apply go_bind_Done in Hrest as ([cfg3 ps] & H3 & Hrest).
  assert (same_wiring cfg2 cfg3) as Hsm.
  { destruct s as [ptr|]; [|by injection H3 as <- <-].
    apply go_bind_Done in H3 as (ps' & _ & H3). cbn zeta in H3. destruct (0 <? len (ReadSnapshot (Copy ps'))); [|by injection H3 as <- <-].
    apply go_bind_Done in H3 as ([cfg4 err] & Hing & H3). destruct err; [done |]. injection H3 as <- _.
    unfold ingestSnap in Hing. destruct (ReadSnapshot _); [done |]. destruct (snap_decode _) as [[idx xlog]|]; [|done].
    cbn [Z.eqb negb andb] in Hing. apply go_bind_Done in Hing as (logs & _ & Hing).
    by apply go_bind_Done in Hing as (la' & _ & [= <-]). }
  apply go_bind_Done in Hrest as (rf & _ & Hrest). apply go_bind_Done in Hrest as (saved & _ & Hrest).
  apply go_bind_Done in Hrest as (rafts & _ & [= <-]).
  split; [|exact (sm_n _ _ Hsm)]. etransitivity; [exact Hsm |]. done.
Qed.

(** ** Every state of a test *)

(** The operations on the wiring; whatever else happens (peers and network at work,
    statistics, [applier]) leaves it alone. *)
Inductive tester : config -> Prop :=
| tester_make n unreliable draw cfg :
    (forall i, len (draw i).1.1 = n) -> make_config raft_methods n unreliable draw = Done cfg -> tester cfg
| tester_connect i cfg cfg' : tester cfg -> connect i cfg = Done cfg' -> tester cfg'
| tester_disconnect i cfg cfg' : tester cfg -> disconnect i cfg = Done cfg' -> tester cfg'
| tester_crash1 i cfg cfg' : tester cfg -> crash1 i cfg = Done cfg' -> tester cfg'
| tester_start1 i names now rnd cfg cfg' :
    tester cfg -> len names = cfg_n cfg -> start1 raft_methods i names now rnd cfg = Done cfg' -> tester cfg'
| tester_other cfg cfg' : tester cfg -> same_wiring cfg cfg' -> tester cfg'.

Lemma for_each_ind (P : config -> Prop) f is_ cfg cfg' :
  (forall i cfg cfg', P cfg -> f i cfg = Done cfg' -> P cfg') -> P cfg -> for_each f is_ cfg = Done cfg' -> P cfg'.
Proof.
  intros Hf. revert cfg; induction is_ as [|i is_ IH]; intros cfg HP He; cbn [for_each] in He;
    [by injection He as <- |].
  apply go_bind_Done in He as (cfg1 & H1 & He). eapply IH; [|exact He]. by eapply Hf.
Qed.

Lemma wired_empty n (cfg : config) :
  cfg_n cfg = Z.of_nat n -> cfg_connected cfg = replicate n false -> cfg_endnames cfg = replicate n None ->
  enabled (cfg_net cfg) = ∅ -> wired cfg.
Proof.
  intros Hn Hc He Hen.
  assert (forall i j e, endname cfg i j <> Done e) as Hno.
  { intros i j e (names & _ & Hl & _)%endname_row. rewrite He in Hl. by apply lookup_replicate in Hl as [? _]. }
  split; rewrite ?Hn, ?Hc, ?He, ?length_replicate; try done; try (by intros * Hd; destruct (Hno _ _ _ Hd)).
  - intros i names Hl. by apply lookup_replicate in Hl as [? _].
  - intros e. unfold is_enabled. by rewrite Hen.
Qed.

Lemma make_config_wired n unreliable draw cfg :
  (forall i, len (draw i).1.1 = n) -> make_config raft_methods n unreliable draw = Done cfg ->
  wired cfg /\ cfg_n cfg = n.
Proof.
  intros Hdraw. unfold make_config. destruct (Z.ltb_spec n 0) as [|Hn]; [done |]. cbn zeta.
  intros (cfg1 & H1 & H2)%go_bind_Done.
  assert (wired cfg1 /\ cfg_n cfg1 = n) as HW1.
  { eapply (for_each_ind (fun c => wired c /\ cfg_n c = n)); [| |exact H1].
    - intros i c c' [W Hc] Hst. destruct (start1_wired _ _ _ _ _ _ W ltac:(rewrite Hc; apply Hdraw) Hst) as [? ->]. done.
    - split; [|done]. apply (wired_empty (Z.to_nat n)); try done. cbn. lia. }
  eapply (for_each_ind (fun c => wired c /\ cfg_n c = n)); [| exact HW1 | exact H2].
  intros i c c' [W Hc] Hco. destruct (connect_wired _ _ _ W Hco) as [W' _]. split; [done |].
  apply go_bind_Done in Hco as (? & _ & Hco). by apply go_bind_Done in Hco as (? & _ & [= <-]).
Qed.

Lemma tester_wired cfg : tester cfg -> wired cfg.
Proof.
  induction 1 as [n u draw cfg Hd Hm|i cfg cfg' _ W Ho|i cfg cfg' _ W Ho|i cfg cfg' _ W Ho|i names now rnd cfg cfg' _ W Hl Ho|cfg cfg' _ W Hs].
  - by eapply make_config_wired.
  - by destruct (connect_wired _ _ _ W Ho).
  - by destruct (disconnect_wired _ _ _ W Ho).
  - by destruct (crash1_wired _ _ _ W Ho).
  - by destruct (start1_wired _ _ _ _ _ _ W Hl Ho).
  - by eapply wired_proper.
Qed.

(** C34: Whatever sequence of starts, crashes, connects and disconnects a test has made, the
    end from peer [i] to peer [j] is connected to server [j] and lets messages pass exactly
    when both peers are marked connected, and every other end of the network, in
    particular those of earlier instances, is disabled. *)
Theorem tester_wiring cfg :
  tester cfg ->
  (forall i j e, endname cfg i j = Done e ->
     connections (cfg_net cfg) !! e = Some (Some j)
     /\ is_enabled (cfg_net cfg) e = up (cfg_connected cfg) i && up (cfg_connected cfg) j)
  /\ (forall e, (forall i j, endname cfg i j <> Done e) -> is_enabled (cfg_net cfg) e = false).
Proof.
  intros W%tester_wired. split.
  - intros i j e He. split; [by eapply (wd_conn _ W) | by eapply (wd_link _ W)].
  - intros e Hno. apply not_true_is_false. intros Hen. destruct (wd_old _ W e Hen) as (i & j & He). by apply (Hno i j).
Qed.
End wiring.

(** ** A test with two peers *)

Module Sample.
Import ZCodec.
Definition snap_enc (i : Z) (l : list (option Z)) : bytes := ZCodec.pos_to_bytes (countable.encode (i, l)).
Definition snap_dec (b : bytes) : option (Z * list (option Z)) := p ← ZCodec.bytes_to_pos b; countable.decode p.
#[export] Instance snap_codec : SnapCodec Z := {| snap_encode := snap_enc; snap_decode := snap_dec |}.
#[export] Instance snap_laws : SnapLaws Z.
Proof.
  split; intros i l; cbn; unfold snap_dec, snap_enc.
  - rewrite bytes_to_pos_to_bytes. apply decode_encode.
  - by destruct (countable.encode (i, l)).
Qed.

#[export] Instance unit_codec : Codec unit unit :=
  {| zero_value := fun _ => tt; encode := fun v => ([], true); decode := fun b _ => (tt, true) |}.

Definition methods (p : nat) : list (Method (Ty:=unit) (Value:=unit) (W:=list (Raft Z))) := [].
Definition cfg0 : go (config (C:=Z) (Ty:=unit) (Value:=unit)) :=
  make_config methods 2 false (fun i => (if i =? 0 then ["a"; "b"]%string else ["c"; "d"]%string, 0, 0)).
Definition of_go (g : go (config (C:=Z) (Ty:=unit) (Value:=unit))) : config (C:=Z) (Ty:=unit) (Value:=unit) :=
  match g with Done c => c | _ => mkConfig 0 MakeNetwork [] [] 0 [] [] [] [] [] [] [] 0 0 0 0 0 end.
(** Peer 1 is crashed and started again, and not yet connected. *)
Definition cfg1 : go (config (C:=Z) (Ty:=unit) (Value:=unit)) :=
  start1 methods 1 ["e"; "f"]%string 0 0 (of_go cfg0).
End Sample.
Import ZCodec Sample.

Lemma tester_wiring_witness :
  tester Sample.methods (Sample.of_go Sample.cfg1)
  /\ endname (Sample.of_go Sample.cfg1) 1 0 = Done "e"%string
  /\ is_enabled (cfg_net (Sample.of_go Sample.cfg1)) "e"%string = false
  /\ is_enabled (cfg_net (Sample.of_go Sample.cfg1)) "c"%string = false
  /\ is_enabled (cfg_net (Sample.of_go Sample.cfg1)) "a"%string = true.
Proof.
  assert (tester Sample.methods (Sample.of_go Sample.cfg1)) as Ht.
  { apply (tester_start1 _ 1 ["e"; "f"]%string 0 0 (Sample.of_go Sample.cfg0)); [| vm_compute; reflexivity ..].
    apply (tester_make _ 2 false (fun i => (if i =? 0 then ["a"; "b"]%string else ["c"; "d"]%string, 0, 0)));
      [intros i; by destruct (i =? 0) | vm_compute; reflexivity]. }
  destruct (tester_wiring _ _ Ht) as [Hl Ho]. split; [exact Ht |].
  assert (endname (Sample.of_go Sample.cfg1) 1 0 = Done "e"%string) as He by (vm_compute; reflexivity).
  split; [exact He |]. split; [|split].
  - destruct (Hl 1 0 _ He) as [_ ->]. vm_compute. reflexivity.
  - vm_compute. reflexivity.
  - destruct (Hl 0 0 "a"%string) as [_ ->]; vm_compute; reflexivity.
Defined.
