(* ===== verification/RaftConfigLogs.v ===== *)
(** What the Raft tester checks: that what the peers apply agrees and comes in order, that
    an agreement was reached, that there is one leader, and that a restart keeps what was
    saved. *)
From S2P Require Import Prelude Persister RaftTypes RaftTools RaftPersist RaftElection RaftNode.
From S2P Require Import Labrpc Wiring RaftConfig RaftConfigWiring.

Section logs.
Context {C Ty Value : Type} `{EqDecision C, GobCodec C, SnapCodec C, !Codec Ty Value}.
Abbreviation config := (config (C:=C) (Ty:=Ty) (Value:=Value)).
Abbreviation cmdlog := (gmap Z (option C)).
Implicit Types (cfg : config) (m : ApplyMsg C) (l : cmdlog).

(** ** One message *)

Lemma checkLogs_loop_None i index v j (logs : list cmdlog) err :
  checkLogs_loop i index v j logs err = None <->
  err = None /\ forall l old, l ∈ logs -> l !! index = Some old -> old = v.
Proof.
  revert j err; induction logs as [|l logs IH]; intros j err; cbn [checkLogs_loop].
  { split; [|by intros [-> _]]. intros ->. split; [done |]. by intros ? ? ?%elem_of_nil. }
  rewrite IH. split.
  - intros [He Hall]. assert (err = None /\ forall old, l !! index = Some old -> old = v) as [-> Hl].
    { destruct (l !! index) as [old|] eqn:E; [|by split]. case_bool_decide; [|done]. split; [done | naive_solver]. }
    split; [done |]. intros l' old [-> | Hin]%elem_of_cons; [apply Hl | by apply Hall].
  - intros [-> Hall]. split; [|intros l' old Hin; apply Hall; by right].
    destruct (l !! index) as [old|] eqn:E; [|done]. rewrite bool_decide_eq_true_2; [done |].
    apply (Hall l); [by left | done].
Qed.

(** What the tester asks of a message. *)
Definition acceptable (logs : list cmdlog) (i : nat) m : Prop :=
  CommandValid m = true ->
  (forall l old, l ∈ logs -> l !! CommandIndex m = Some old -> old = am_Command m)
  /\ (1 < CommandIndex m -> exists l, logs !! i = Some l /\ is_Some (l !! (CommandIndex m - 1))).

(** The logs after a message. *)
Definition note_msg (i : nat) m (logs : list cmdlog) : list cmdlog :=
  if CommandValid m then alter (<[CommandIndex m := am_Command m]>) i logs else logs.

Lemma checkLogs_Done (i : nat) m cfg l :
  cfg_logs cfg !! i = Some l ->
  exists cfg', checkLogs (Z.of_nat i) m cfg
      = Done (cfg', checkLogs_loop (Z.of_nat i) (CommandIndex m) (am_Command m) 0 (cfg_logs cfg) None,
              bool_decide (is_Some (l !! (CommandIndex m - 1))))
    /\ cfg_logs cfg' = alter (<[CommandIndex m := am_Command m]>) i (cfg_logs cfg)
    /\ cfg_maxIndex cfg' = Z.max (cfg_maxIndex cfg) (CommandIndex m).
Proof.
  intros Hl. unfold checkLogs. rewrite (go_index_nat _ _ _ Hl). cbn [mbind go_bind].
  pose proof (lookup_lt_Some _ _ _ Hl). rewrite go_update_Done by lia. cbn [mbind go_bind]. rewrite Nat2Z.id.
  eexists. split; [reflexivity |].
  assert (<[i:=<[CommandIndex m := am_Command m]> l]> (cfg_logs cfg)
          = alter (<[CommandIndex m := am_Command m]>) i (cfg_logs cfg)) as ->.
  { apply list_eq. intros k. destruct (decide (k = i)) as [->|Hne].
    - rewrite list_lookup_insert_eq by done. by rewrite list_lookup_alter_eq, Hl.
    - by rewrite list_lookup_insert_ne, list_lookup_alter_ne. }
  match goal with |- context [if ?b then _ else _] => change b with (cfg_maxIndex cfg <? CommandIndex m) end.
  destruct (Z.ltb_spec (cfg_maxIndex cfg) (CommandIndex m)); cbn; (split; [done | lia]).
Qed.

Lemma applier_step (i : nat) m cfg :
  (i < length (cfg_logs cfg))%nat ->
  (acceptable (cfg_logs cfg) i m /\ exists cfg', applier (Z.of_nat i) m cfg = Done cfg' /\ cfg_logs cfg' = note_msg i m (cfg_logs cfg))
  \/ (~ acceptable (cfg_logs cfg) i m /\ applier (Z.of_nat i) m cfg = Panic fatal).
Proof.
  intros [l Hl]%lookup_lt_is_Some. unfold applier, acceptable, note_msg.
  destruct (CommandValid m); cbn [negb]; [|by left; split; [done | eexists]].
  destruct (checkLogs_Done i m cfg l Hl) as (cfg' & -> & Hlogs & _). cbn [mbind go_bind].
  pose proof (checkLogs_loop_None (Z.of_nat i) (CommandIndex m) (am_Command m) 0 (cfg_logs cfg) None) as Hloop.
  destruct (checkLogs_loop _ _ _ _ _ _) as [err|].
  - right. split.
    + intros Ha. destruct (Ha eq_refl) as [Hagree _]. discriminate (proj2 Hloop (conj eq_refl Hagree)).
    + by destruct (_ && _).
  - destruct (proj1 Hloop eq_refl) as [_ Hagree]. destruct (Z.ltb_spec 1 (CommandIndex m)); cbn [andb].
    + case_bool_decide as Hp; cbn [negb].
      * left. split; [intros _; split; [exact Hagree | intros _; by exists l] | by exists cfg'].
      * right. split; [|done]. intros Ha. destruct (Ha eq_refl) as [_ Ho]. destruct (Ho ltac:(done)) as (l' & Hl' & ?).
        congruence.
    + left. split; [intros _; split; [exact Hagree | lia] | by exists cfg'].
Qed.

(** ** A whole test *)

(** The messages that the appliers read, in the order in which they handle them. *)
Fixpoint apply_all (msgs : list (nat * ApplyMsg C)) cfg : go config :=
  match msgs with [] => mret cfg | (i, m) :: msgs => cfg ← applier (Z.of_nat i) m cfg; apply_all msgs cfg end.

Definition applied (msgs : list (nat * ApplyMsg C)) (i : nat) (index : Z) (v : option C) : Prop :=
  exists m, (i, m) ∈ msgs /\ CommandValid m = true /\ CommandIndex m = index /\ am_Command m = v.

(** State machine safety, and no gaps: what a correct run of Raft promises. *)
Record consistent (msgs : list (nat * ApplyMsg C)) : Prop := {
  co_agree : forall i j index v w, applied msgs i index v -> applied msgs j index w -> v = w;
  co_order : forall before i m after, msgs = before ++ (i, m) :: after -> CommandValid m = true ->
    1 < CommandIndex m -> exists v, applied before i (CommandIndex m - 1) v }.

Definition recorded (msgs : list (nat * ApplyMsg C)) (logs : list cmdlog) : Prop :=
  forall i index v, (exists l, logs !! i = Some l /\ l !! index = Some v) <-> applied msgs i index v.

Lemma apply_all_app msgs1 msgs2 cfg : apply_all (msgs1 ++ msgs2) cfg = apply_all msgs1 cfg ≫= apply_all msgs2.
Proof.
  revert cfg; induction msgs1 as [|[i m] msgs1 IH]; intros cfg; [done |]. cbn.
  destruct (applier (Z.of_nat i) m cfg); [apply IH | done | done].
Qed.

Lemma applied_app msgs1 msgs2 i index v :
  applied (msgs1 ++ msgs2) i index v <-> applied msgs1 i index v \/ applied msgs2 i index v.
Proof. unfold applied. setoid_rewrite elem_of_app. naive_solver. Qed.

Lemma applied_one i m j index v :
  applied [(i, m)] j index v <-> j = i /\ CommandValid m = true /\ CommandIndex m = index /\ am_Command m = v.
Proof. unfold applied. setoid_rewrite list_elem_of_singleton. naive_solver. Qed.

(** The next message is acceptable exactly if the messages stay consistent. *)
Lemma consistent_snoc msgs i m logs :
  recorded msgs logs -> consistent msgs -> acceptable logs i m <-> consistent (msgs ++ [(i, m)]).
Proof.
  intros Hrec [Hagree Horder]. split.
  - intros Hacc. split.
    + assert (forall j index v w, applied msgs j index v -> applied [(i, m)] i index w -> v = w) as Hnew.
      { intros j index v w Hv (_ & Hval & <- & <-)%applied_one. destruct (Hacc Hval) as [Ha _].
        apply Hrec in Hv as (l & Hl & Hi). apply (Ha l); [by eapply list_elem_of_lookup_2 | done]. }
      intros j k index v w [Hv|Hv]%applied_app [Hw|Hw]%applied_app.
      * by eapply Hagree.
      * pose proof Hw as (-> & _)%applied_one. by eapply Hnew.
      * pose proof Hv as (-> & _)%applied_one. symmetry. by eapply Hnew.
      * apply applied_one in Hv as (_ & _ & _ & <-), Hw as (_ & _ & _ & <-). done.
    + intros before j m' after Hm Hval Hlt. destruct after as [|x after _] using rev_ind.
      * apply app_inj_tail in Hm as [-> [= -> ->]]. destruct (Hacc Hval) as [_ Ho].
        destruct (Ho Hlt) as (l & Hl & v & Hv). exists v. apply Hrec. by exists l.
      * rewrite app_comm_cons, app_assoc in Hm. apply app_inj_tail in Hm as [-> _]. by eapply Horder.
  - intros [Ha Ho] Hval. assert (applied (msgs ++ [(i, m)]) i (CommandIndex m) (am_Command m)) as Hself
      by (apply applied_app; right; by apply applied_one). split.
    + intros l old [j Hj]%list_elem_of_lookup Hold. eapply (Ha j i); [|exact Hself].
      apply applied_app. left. apply Hrec. by exists l.
    + intros Hlt. destruct (Ho msgs i m [] eq_refl Hval Hlt) as (v & (l & Hl & Hv)%Hrec). exists l. split; [done | by exists v].
Qed.

Lemma recorded_snoc msgs i m logs :
  (i < length logs)%nat -> recorded msgs logs -> acceptable logs i m -> recorded (msgs ++ [(i, m)]) (note_msg i m logs).
Proof.
  intros [li Hli]%lookup_lt_is_Some Hrec Hacc j index v. rewrite applied_app, applied_one, <- (Hrec j index v).
  unfold note_msg. destruct (CommandValid m) eqn:Hval; [|naive_solver]. destruct (Hacc Hval) as [Ha _].
  destruct (decide (j = i)) as [->|Hne].
  - rewrite list_lookup_alter_eq, Hli. cbn. split.
    + intros (l & [= <-] & Hv). destruct (decide (index = CommandIndex m)) as [->|Hn].
      * rewrite lookup_insert_eq in Hv. injection Hv as <-. by right.
      * rewrite lookup_insert_ne in Hv by done. left. by exists li.
    + intros [(l & [= <-] & Hv)|(_ & _ & <- & <-)]; eexists; (split; [done |]).
      * destruct (decide (index = CommandIndex m)) as [->|Hn]; [|by rewrite lookup_insert_ne].
        rewrite lookup_insert_eq. f_equal. symmetry. apply (Ha li); [by eapply list_elem_of_lookup_2 | done].
      * by rewrite lookup_insert_eq.
  - rewrite list_lookup_alter_ne by done. naive_solver.
Qed.

Lemma note_msg_length i m (logs : list cmdlog) : length (note_msg i m logs) = length logs.
Proof. unfold note_msg. destruct (CommandValid m); [apply length_alter | done]. Qed.

Lemma consistent_prefix msgs1 msgs2 : consistent (msgs1 ++ msgs2) -> consistent msgs1.
Proof.
  intros [Ha Ho]. split.
  - intros i j index v w Hv Hw. eapply Ha; apply applied_app; left; done.
  - intros before i m after -> Hval Hlt. apply (Ho before i m (after ++ msgs2)); [by rewrite <- app_assoc | done | done].
Qed.

Lemma apply_all_spec msgs cfg :
  (forall l, l ∈ cfg_logs cfg -> l = ∅) -> Forall (fun x => (x.1 < length (cfg_logs cfg))%nat) msgs ->
  (consistent msgs /\ exists cfg', apply_all msgs cfg = Done cfg' /\ recorded msgs (cfg_logs cfg')
                                   /\ length (cfg_logs cfg') = length (cfg_logs cfg))
  \/ (~ consistent msgs /\ apply_all msgs cfg = Panic fatal).
Proof.
  intros Hempty. induction msgs as [|[i m] msgs IH] using rev_ind.
  - intros _. left. split; [split|exists cfg; split; [done | split; [|done]]].
    + intros i j index v w (m & []%elem_of_nil & _).
    + by intros [] ? ? ?.
    + intros i index v. split.
      * intros (l & Hl & Hv). rewrite (Hempty l) in Hv by (by eapply list_elem_of_lookup_2). by rewrite lookup_empty in Hv.
      * by intros (m & []%elem_of_nil & _).
  - intros [Hall [Hi _]%Forall_cons]%Forall_app. rewrite apply_all_app. cbn in Hi.
    destruct (IH Hall) as [(Hc & cfg1 & -> & Hrec & Hlen)|[Hc ->]]; [|right; split; [by intros ?%consistent_prefix | done]].
    cbn. destruct (applier_step i m cfg1) as [(Hacc & cfg2 & -> & Hlogs)|[Hacc ->]]; [by rewrite Hlen | |].
    + left. split; [by eapply consistent_snoc |]. exists cfg2. split; [done |]. rewrite Hlogs.
      split; [by apply recorded_snoc; [rewrite Hlen | |] | by rewrite note_msg_length].
    + right. split; [|done]. by rewrite <- (consistent_snoc _ _ _ _ Hrec Hc).
Qed.

(** C33: The appliers accept exactly the runs in which no two peers apply different commands
    at one index and each peer applies without gaps: on such a sequence of messages they
    go through and record every command at its index, on any other one the test ends in
    [log.Fatalf]. *)
Theorem appliers_accept msgs cfg :
  (forall l, l ∈ cfg_logs cfg -> l = ∅) -> Forall (fun x => (x.1 < length (cfg_logs cfg))%nat) msgs ->
  (consistent msgs -> returns (apply_all msgs cfg))
  /\ (forall cfg', apply_all msgs cfg = Done cfg' -> consistent msgs /\ recorded msgs (cfg_logs cfg'))
  /\ (~ consistent msgs -> apply_all msgs cfg = Panic fatal).
Proof.
  intros He Hall. destruct (apply_all_spec msgs cfg He Hall) as [(Hc & cfg' & Hr & Hrec & _)|[Hc Hr]]; rewrite Hr.
  - split; [by exists cfg' |]. split; [by intros ? [= <-] | done].
  - done.
Qed.

(** ** Agreement *)

(** [cfg.logs[i][index]] *)
Definition logged cfg (index i : Z) : option (option C) :=
  match cfg_logs cfg !! Z.to_nat i with Some l => l !! index | None => None end.

(** The servers that [nCommitted] looks at, each with the state in which its log is read. *)
Fixpoint glimpses (gap : Z -> env (C:=C) (Ty:=Ty) (Value:=Value) * env) (is_ : list Z) cfg : list (Z * config) :=
  match is_ with
  | [] => []
  | i :: is_ => let cfg := (gap i).2 ((gap i).1 cfg) in (i, cfg) :: glimpses gap is_ cfg
  end.

Definition has_logged (index : Z) (x : Z * config) : Prop := is_Some (logged x.2 index x.1).
#[export] Instance has_logged_dec index x : Decision (has_logged index x).
Proof. unfold has_logged. apply _. Defined.

(** Of the servers looked at, [n] had logged [cmd] at [index], and none anything else. *)
Definition agreed (looks : list (Z * config)) (index n : Z) (cmd : option C) : Prop :=
  len (filter (has_logged index) looks) = n
  /\ forall x, x ∈ looks -> has_logged index x -> logged x.2 index x.1 = Some cmd.

(** All servers at one moment. *)
Definition at_once cfg : list (Z * config) := (fun i => (i, cfg)) <$> range (len (cfg_rafts cfg)).

Lemma nCommitted_loop_Done index gap is_ count cmd cfg cfg' nd r :
  0 <= count -> nCommitted_loop index gap is_ count cmd cfg = Done (cfg', nd, r) ->
  nd = count + len (filter (has_logged index) (glimpses gap is_ cfg))
  /\ (0 < count -> r = cmd)
  /\ (forall x, x ∈ glimpses gap is_ cfg -> has_logged index x -> logged x.2 index x.1 = Some r).
Proof.
  revert count cmd cfg; induction is_ as [|i is_ IH]; intros count cmd cfg Hc Hn; cbn [nCommitted_loop glimpses] in *.
  { injection Hn as _ <- <-. split; [cbn; lia |]. split; [done |]. by intros x ?%elem_of_nil. }
  apply go_bind_Done in Hn as (err & _ & Hn). case_bool_decide; [done |].
  apply go_bind_Done in Hn as (l & [Hi Hl]%go_index_Done & Hn).
  set (cfg1 := (gap i).2 ((gap i).1 cfg)) in *.
  assert (logged cfg1 index i = l !! index) as Hlog by (unfold logged; by rewrite Hl).
  destruct (l !! index) as [cmd1|] eqn:E.
  - rewrite filter_cons_True by (unfold has_logged; cbn; rewrite Hlog; by eexists). cbn [base.length].
    destruct ((0 <? count) && negb (bool_decide (cmd = cmd1))) eqn:Et; [done |].
    destruct (IH (count + 1) cmd1 cfg1 ltac:(lia) Hn) as (-> & Hr & Hall). specialize (Hr ltac:(lia)) as ->.
    split; [lia |]. split.
    + intros Hlt. apply andb_false_iff in Et as [Et|Et]; [lia |]. by apply negb_false_iff, bool_decide_eq_true in Et.
    + intros x [-> |Hj]%elem_of_cons; [done | by apply Hall].
  - rewrite filter_cons_False by (unfold has_logged; cbn; rewrite Hlog; by intros []).
    destruct (IH count cmd cfg1 Hc Hn) as (-> & Hr & Hall). split; [done |]. split; [exact Hr |].
    intros x [-> |Hj]%elem_of_cons Hx; [|by apply Hall]. unfold has_logged in Hx. cbn in Hx. rewrite Hlog in Hx. by destruct Hx.
Qed.

Lemma nCommitted_agreed index gap cfg cfg' nd cmd :
  nCommitted index gap cfg = Done (cfg', nd, cmd) ->
  agreed (glimpses gap (range (len (cfg_rafts cfg))) cfg) index nd cmd.
Proof. intros Hn. apply nCommitted_loop_Done in Hn as (-> & _ & Hall); [|lia]. split; [lia | exact Hall]. Qed.

(** *** What the others may do without harm *)

(** No server has logged another command than another server at one index. *)
Definition agreeing cfg : Prop :=
  forall index i j v w, logged cfg index i = Some v -> logged cfg index j = Some w -> v = w.

(** What is logged stays, and so does the agreement. *)
Record kept cfg cfg' : Prop := {
  kp_rafts : len (cfg_rafts cfg') = len (cfg_rafts cfg);
  kp_logged : forall index i v, logged cfg index i = Some v -> logged cfg' index i = Some v;
  kp_agree : agreeing cfg -> agreeing cfg' }.

#[export] Instance kept_preorder : PreOrder kept.
Proof.
  split; [by split |]. intros a b c [R1 L1 A1] [R2 L2 A2]. split; [congruence | intros; by apply L2, L1 | auto].
Qed.

Definition keeps (e : env) : Prop := forall cfg, kept cfg (e cfg).
Definition gap_keeps (gap : Z -> env * env) : Prop := forall i, keeps (gap i).1 /\ keeps (gap i).2.
Definition turn_keeps (t : poll_turn) : Prop := gap_keeps (pt_gap t) /\ keeps (pt_sleep t).
Definition round_keeps (r : one_round) : Prop :=
  gap_keeps (or_try r) /\ Forall turn_keeps (or_turns r) /\ keeps (or_sleep r).

Lemma gap_kept gap i cfg : gap_keeps gap -> kept cfg ((gap i).2 ((gap i).1 cfg)).
Proof. intros Hg. destruct (Hg i) as [Hb Hl]. transitivity ((gap i).1 cfg); [apply Hb | apply Hl]. Qed.

Lemma kept_same cfg cfg' :
  cfg_logs cfg' = cfg_logs cfg -> cfg_rafts cfg' = cfg_rafts cfg -> kept cfg cfg'.
Proof. intros Hl Hr. split; unfold agreeing, logged; rewrite ?Hl, ?Hr; done. Qed.

(** A turn of an applier keeps what is logged, and the agreement. *)
Lemma applier_keeps (i : nat) m cfg cfg' : applier (Z.of_nat i) m cfg = Done cfg' -> kept cfg cfg'.
Proof.
  intros Ha. destruct (decide (i < length (cfg_logs cfg))%nat) as [Hi|Hi].
  2: { unfold applier in Ha. destruct (CommandValid m); cbn [negb] in Ha; [|by injection Ha as <-].
       unfold checkLogs in Ha. apply go_bind_Done in Ha as (x & Hx & _).
       apply go_bind_Done in Hx as (l & [_ Hl]%go_index_Done & _). apply lookup_lt_Some in Hl. lia. }
  assert (cfg_rafts cfg' = cfg_rafts cfg) as Hr.
  { unfold applier in Ha. destruct (CommandValid m); cbn [negb] in Ha; [|by injection Ha as <-].
    apply go_bind_Done in Ha as ([[cfg1 err] ok] & Hx & Ha).
    assert (cfg1 = cfg') as <- by (by destruct (if _ && _ then _ else _); [| injection Ha as <-]).
    unfold checkLogs in Hx. apply go_bind_Done in Hx as (l & _ & Hx). apply go_bind_Done in Hx as (logs & _ & Hx).
    injection Hx as <- _ _. match goal with |- context [if ?b then _ else _] => by destruct b end. }
  destruct (applier_step i m cfg Hi) as [(Hacc & cfg1 & Hrun & Hlogs)|[_ Hrun]]; [|congruence].
  assert (cfg1 = cfg') as -> by congruence. unfold note_msg, acceptable in *.
  destruct (CommandValid m) eqn:Hval; [|by apply kept_same]. destruct (Hacc eq_refl) as [Hagree _].
  assert (forall index j v, logged cfg' index j = Some v ->
    logged cfg index j = Some v \/ index = CommandIndex m /\ v = am_Command m) as Hnew.
  { intros index j v. unfold logged. rewrite Hlogs. destruct (decide (Z.to_nat j = i)) as [->|Hne].
    - rewrite list_lookup_alter_eq. destruct (cfg_logs cfg !! i) as [l|]; [|by left]. cbn.
      destruct (decide (index = CommandIndex m)) as [->|Hn]; [rewrite lookup_insert_eq; naive_solver |].
      rewrite lookup_insert_ne by done. by left.
    - rewrite list_lookup_alter_ne by done. by left. }
  assert (forall j v, logged cfg (CommandIndex m) j = Some v -> v = am_Command m) as Hold.
  { intros j v. unfold logged. destruct (cfg_logs cfg !! Z.to_nat j) as [l|] eqn:E; [|done].
    intros Hv. apply (Hagree l); [by eapply list_elem_of_lookup_2 | done]. }
  split; [congruence | |].
  - intros index j v Hv. unfold logged in *. rewrite Hlogs. destruct (decide (Z.to_nat j = i)) as [Hj|Hne].
    + rewrite Hj, list_lookup_alter_eq. rewrite <- Hj. destruct (cfg_logs cfg !! Z.to_nat j) as [l|] eqn:E; [|done]. cbn.
      destruct (decide (index = CommandIndex m)) as [->|Hn]; [|by rewrite lookup_insert_ne].
      rewrite lookup_insert_eq. f_equal. symmetry. apply (Hold j). unfold logged. by rewrite E.
    + by rewrite list_lookup_alter_ne.
  - intros Hag index j k v w Hv%Hnew Hw%Hnew. destruct Hv as [Hv|[-> ->]], Hw as [Hw|[Hx ->]].
    + by eapply Hag.
    + subst. by eapply Hold.
    + symmetry. by eapply Hold.
    + done.
Qed.

Lemma appliers_keep msgs cfg cfg' : apply_all msgs cfg = Done cfg' -> kept cfg cfg'.
Proof.
  revert cfg; induction msgs as [|[i m] msgs IH]; intros cfg Ha; cbn [apply_all] in Ha; [by injection Ha as <- |].
  apply go_bind_Done in Ha as (cfg1 & Hm%applier_keeps & Ha%IH). by transitivity cfg1.
Qed.

Lemma glimpses_kept index gap is_ count cmd cfg cfg' nd r :
  gap_keeps gap -> nCommitted_loop index gap is_ count cmd cfg = Done (cfg', nd, r) ->
  kept cfg cfg' /\ forall x, x ∈ glimpses gap is_ cfg -> kept x.2 cfg'.
Proof.
  intros Hg. revert count cmd cfg; induction is_ as [|i is_ IH]; intros count cmd cfg Hn; cbn [nCommitted_loop glimpses] in *.
  { injection Hn as <- _ _. split; [done |]. by intros x ?%elem_of_nil. }
  apply go_bind_Done in Hn as (err & _ & Hn). case_bool_decide; [done |].
  apply go_bind_Done in Hn as (l & _ & Hn).
  assert (exists count' cmd', nCommitted_loop index gap is_ count' cmd' ((gap i).2 ((gap i).1 cfg)) = Done (cfg', nd, r))
    as (count' & cmd' & [Hk Hall]%IH).
  { destruct (l !! index); [destruct (_ && _); [done |] |]; by eexists _, _. }
  split; [transitivity ((gap i).2 ((gap i).1 cfg)); [by apply gap_kept | exact Hk] |]. intros x [-> |Hx]%elem_of_cons; [exact Hk | by apply Hall].
Qed.

Lemma glimpses_servers gap is_ cfg : (glimpses gap is_ cfg).*1 = is_.
Proof. revert cfg; induction is_ as [|i is_ IH]; intros cfg; cbn; [done | by rewrite IH]. Qed.

(** If the others keep what is logged, then what was seen one server after another
    holds at once in the end. *)
Lemma agreed_at_once index gap cfg cfg' nd cmd :
  gap_keeps gap -> agreeing cfg -> 0 < nd -> nCommitted index gap cfg = Done (cfg', nd, cmd) ->
  exists nd', nd <= nd' /\ agreed (at_once cfg') index nd' cmd.
Proof.
  intros Hg Hag Hpos Hn. destruct (nCommitted_agreed _ _ _ _ _ _ Hn) as [Hcount Hall].
  destruct (glimpses_kept _ _ _ _ _ _ _ _ _ Hg Hn) as [Hk Hlooks].
  set (looks := glimpses gap (range (len (cfg_rafts cfg))) cfg) in *.
  assert (forall x, x ∈ looks -> has_logged index x -> logged cfg' index x.1 = Some cmd) as Hend.
  { intros x Hx Hl. by apply (kp_logged _ _ (Hlooks x Hx)), Hall. }
  assert (at_once cfg' = (fun x => (x.1, cfg')) <$> looks) as Heq.
  { unfold at_once. rewrite (kp_rafts _ _ Hk), <- (glimpses_servers gap (range (len (cfg_rafts cfg))) cfg) at 1.
    fold looks. by rewrite <- list_fmap_compose. }
  eexists. split; [|split; [done |]].
  - rewrite <- Hcount, Heq. clear -Hend. induction looks as [|x looks IH]; [cbn; lia |]. cbn [fmap list_fmap].
    specialize (IH (fun y Hy => Hend y (list_elem_of_further _ _ _ Hy))). rewrite !filter_cons.
    destruct (decide (has_logged index x)) as [Hx|_].
    + rewrite decide_True; [cbn; lia |]. unfold has_logged. cbn. rewrite (Hend x); [by eexists | by left | done].
    + destruct (decide _); cbn; lia.
  - intros x Hx [v Hv]. destruct (filter (has_logged index) looks) as [|y l] eqn:Ef; [cbn in Hcount; lia |].
    assert (y ∈ filter (has_logged index) looks) as [Hy Hin]%list_elem_of_filter by (rewrite Ef; by left).
    apply list_elem_of_fmap in Hx as (i & -> & _). cbn in *. rewrite Hv. f_equal.
    by eapply (kp_agree _ _ Hk Hag); [| apply (Hend y)].
Qed.

Lemma try_servers_kept gap si starts cmd cfg cfg' starts' index :
  gap_keeps gap -> try_servers gap si starts cmd cfg = Done (cfg', starts', index) -> kept cfg cfg'.
Proof.
  intros Hg. revert starts cfg; induction si as [|si IH]; intros starts cfg Ht; cbn [try_servers] in Ht.
  { by injection Ht as <- _ _. }
  set (k := Z.rem (starts + 1) (cfg_n cfg)) in *.
  apply go_bind_Done in Ht as (c & _ & Ht). apply go_bind_Done in Ht as (o & _ & Ht).
  transitivity ((gap k).2 ((gap k).1 cfg)); [by apply gap_kept |].
  destruct o as [p|]; [|by eapply IH].
  apply go_bind_Done in Ht as (rf & _ & Ht). apply go_bind_Done in Ht as ([rf' [[index1 t] ok]] & _ & Ht).
  set (cfg1 := set_field cfg_world _ _) in Ht.
  transitivity cfg1; [by apply kept_same |]. destruct ok; [by injection Ht as <- _ _ | by eapply IH].
Qed.

(** What a successful wait for agreement has seen. *)
Lemma poll_found cmd n index turns cfg cfg' i :
  poll cmd n index turns cfg = Done (cfg', Some i) ->
  i = index /\ exists t cfg1 nd, t ∈ turns /\ 0 < nd /\ n <= nd
    /\ nCommitted index (pt_gap t) cfg1 = Done (cfg', nd, Some cmd)
    /\ (Forall turn_keeps turns -> kept cfg cfg1).
Proof.
  revert cfg; induction turns as [|t turns IH]; intros cfg Hp; cbn [poll] in Hp; [done |].
  apply go_bind_Done in Hp as ([[cfg1 nd] cmd1] & Hn & Hp).
  destruct ((0 <? nd) && (n <=? nd) && bool_decide (cmd1 = Some cmd)) eqn:Et.
  - injection Hp as <- <-. apply andb_true_iff in Et as [[Hp1 Hp2]%andb_true_iff ->%bool_decide_eq_true].
    split; [done |]. exists t, cfg, nd. split; [by left |]. by split_and!; [lia | lia | |].
  - destruct (IH _ Hp) as (-> & t' & cfg2 & nd' & Hin & Hp1 & Hp2 & Hn' & Hk). split; [done |].
    exists t', cfg2, nd'. split; [by right |]. split_and!; try done. intros [[Hg Hs] Hall]%Forall_cons.
    destruct (glimpses_kept _ _ _ _ _ _ _ _ _ Hg Hn) as [Hk1 _].
    transitivity cfg1; [exact Hk1 |]. transitivity (pt_sleep t cfg1); [apply Hs | by apply Hk].
Qed.

Lemma poll_kept cmd n index turns cfg cfg' r :
  Forall turn_keeps turns -> poll cmd n index turns cfg = Done (cfg', r) -> kept cfg cfg'.
Proof.
  intros Hall. revert cfg; induction Hall as [|t turns [Hg Hs] _ IH]; intros cfg Hp; cbn [poll] in Hp; [by injection Hp as <- _ |].
  apply go_bind_Done in Hp as ([[cfg1 nd] cmd1] & Hn & Hp). destruct (glimpses_kept _ _ _ _ _ _ _ _ _ Hg Hn) as [Hk _].
  transitivity cfg1; [exact Hk |]. destruct (_ && _); [by injection Hp as <- _ |].
  transitivity (pt_sleep t cfg1); [apply Hs | by apply IH].
Qed.

(** The last look of a call of [one] that returns an index. *)
Lemma one_found cmd expectedServers retry rounds starts cfg cfg' index :
  one_loop cmd expectedServers retry starts rounds cfg = Done (cfg', index) -> index <> -1 ->
  exists r t cfg1 nd, r ∈ rounds /\ t ∈ or_turns r /\ 0 < nd /\ expectedServers <= nd
    /\ nCommitted index (pt_gap t) cfg1 = Done (cfg', nd, Some cmd)
    /\ (Forall round_keeps rounds -> kept cfg cfg1).
Proof.
  intros Ho Hi. revert starts cfg Ho. induction rounds as [|r rounds IH]; intros starts cfg Ho; cbn [one_loop] in Ho.
  { destruct (checkFinished cfg); [by injection Ho as _ <- | done]. }
  destruct (checkFinished cfg); [by injection Ho as _ <- |].
  apply go_bind_Done in Ho as ([[cfg1 starts1] index1] & Htry & Ho).
  assert (forall starts' cfg2, one_loop cmd expectedServers retry starts' rounds cfg2 = Done (cfg', index) ->
    (round_keeps r -> kept cfg cfg2) -> exists r' t cfg3 nd, r' ∈ r :: rounds /\ t ∈ or_turns r' /\ 0 < nd
      /\ expectedServers <= nd /\ nCommitted index (pt_gap t) cfg3 = Done (cfg', nd, Some cmd)
      /\ (Forall round_keeps (r :: rounds) -> kept cfg cfg3)) as Hnext.
  { intros starts' cfg2 Hl Hk. destruct (IH _ _ Hl) as (r' & t & cfg3 & nd & Hr & Ht & Hp1 & Hp2 & Hn & Hk3).
    exists r', t, cfg3, nd. split; [by right |]. split_and!; try done.
    intros [Hp3 Hp4]%Forall_cons. transitivity cfg2; [by apply Hk | by apply Hk3]. }
  destruct (index1 =? -1); cbn [negb] in Ho.
  { eapply Hnext; [exact Ho |]. intros (Hg & _ & Hs). transitivity cfg1; [by eapply try_servers_kept | apply Hs]. }
  apply go_bind_Done in Ho as ([cfg2 [found|]] & Hp & Ho).
  - injection Ho as <- <-. destruct (poll_found _ _ _ _ _ _ _ Hp) as (-> & t & cfg3 & nd & Ht & Hp1 & Hp2 & Hn & Hk).
    exists r, t, cfg3, nd. split; [by left |]. split_and!; try done. intros [(Hg & Hturns & _) _]%Forall_cons.
    transitivity cfg1; [by eapply try_servers_kept | by apply Hk].
  - destruct retry; cbn in Ho; [|done]. eapply Hnext; [exact Ho |]. intros (Hg & Hturns & _).
    transitivity cfg1; [by eapply try_servers_kept | by eapply poll_kept].
Qed.

(** C35: When [one] returns an index, then in its last look at the logs, which takes the
    lock for each server again, that many servers as were asked for, and at least one,
    had logged the submitted command at that index when they were looked at, and no
    server had logged another one there; whatever happened in between, and however often
    the command was submitted.  If what the other goroutines do meanwhile keeps what is
    logged and does not make logs disagree, as the appliers do ([appliers_keep]), then
    this holds of all servers at once in the state in which [one] returns. *)
Theorem one_agreement cmd expectedServers retry rounds cfg cfg' index :
  one cmd expectedServers retry rounds cfg = Done (cfg', index) -> index <> -1 ->
  exists r t cfg1 nd, r ∈ rounds /\ t ∈ or_turns r /\ 0 < nd /\ expectedServers <= nd
    /\ agreed (glimpses (pt_gap t) (range (len (cfg_rafts cfg1))) cfg1) index nd (Some cmd)
    /\ (agreeing cfg -> Forall round_keeps rounds -> exists nd', nd <= nd' /\ agreed (at_once cfg') index nd' (Some cmd)).
Proof.
  intros Ho Hi. destruct (one_found _ _ _ _ _ _ _ _ Ho Hi) as (r & t & cfg1 & nd & Hr & Ht & Hp1 & Hp2 & Hn & Hk).
  exists r, t, cfg1, nd. split; [done |]. split; [done |]. split; [done |]. split; [done |].
  split; [by eapply nCommitted_agreed |]. intros Hag Hall.
  apply (agreed_at_once index (pt_gap t) cfg1); [| by apply (kp_agree _ _ (Hk Hall)) | done | done].
  rewrite Forall_forall in Hall. destruct (Hall r Hr) as (_ & Hturns & _). rewrite Forall_forall in Hturns. by apply Hturns.
Qed.

(** ** One leader *)

(** Server [i], connected, says that it leads in [term]. *)
Definition leads (looks : Z -> config) (term i : Z) : bool :=
  match state_of (looks i) i with Done (Some (t, true)) => t =? term | _ => false end.

Lemma leaders_loop_Done looks is_ (acc res : gmap Z (list Z)) :
  leaders_loop looks is_ acc = Done res -> (forall t, acc !! t <> Some []) ->
  (forall t, res !! t <> Some []) /\
  forall t, default [] (res !! t) = default [] (acc !! t) ++ filter (fun i => leads looks t i = true) is_.
Proof.
  revert acc; induction is_ as [|i is_ IH]; intros acc Hl Hne; cbn [leaders_loop] in Hl.
  { injection Hl as <-. split; [done |]. intros t. by rewrite app_nil_r. }
  apply go_bind_Done in Hl as (s & Hs & Hl). apply IH in Hl as [Hres Hall].
  - split; [done |]. intros t. rewrite Hall.
    assert (leads looks t i = match s with Some (t', true) => t' =? t | _ => false end) as Hle
      by (unfold leads; by rewrite Hs).
    destruct (leads looks t i) eqn:El.
    + rewrite filter_cons_True by done. destruct s as [[term [|]]|]; try done.
      symmetry in Hle. apply Z.eqb_eq in Hle as ->. rewrite lookup_insert_eq. cbn. by rewrite <- app_assoc.
    + rewrite filter_cons_False by congruence. destruct s as [[term [|]]|]; try done.
      symmetry in Hle. apply Z.eqb_neq in Hle. by rewrite lookup_insert_ne.
  - intros t. destruct s as [[term [|]]|]; try done. destruct (decide (t = term)) as [->|Hnt].
    + rewrite lookup_insert_eq. intros [= Ha]. by apply app_eq_nil in Ha as [_ ?].
    + by rewrite lookup_insert_ne.
Qed.

Lemma last_term_loop_Done (l : list (Z * list Z)) lt res :
  last_term_loop l lt = Done res ->
  (forall t js, (t, js) ∈ l -> len js <= 1 /\ t <= res) /\ lt <= res.
Proof.
  revert lt; induction l as [|[t js] l IH]; intros lt Hl; cbn [last_term_loop] in Hl.
  { injection Hl as <-. split; [by intros t js ?%elem_of_nil | done]. }
  destruct (Z.ltb_spec 1 (len js)); [done |]. apply IH in Hl as [Hall Hlt].
  destruct (Z.ltb_spec lt t); (split; [|lia]); intros t' js' [[= -> ->]|Hin]%elem_of_cons; (split; [lia | lia]) || by apply Hall.
Qed.

(** When [checkOneLeader] returns a server, then at one of its looks that server was
    connected and led in some term, no connected server led in a later one, and no term
    had two connected leaders. *)
Theorem checkOneLeader_spec n iters i :
  checkOneLeader n iters = Done i ->
  exists looks t, looks ∈ iters /\ 0 <= i < n /\ leads looks t i = true
    /\ (forall t' j, 0 <= j < n -> leads looks t' j = true -> t' <= t)
    /\ (forall t' j k, 0 <= j < n -> 0 <= k < n -> leads looks t' j = true -> leads looks t' k = true -> j = k).
Proof.
  induction iters as [|looks iters IH]; cbn [checkOneLeader]; [done |].
  intros (res & Hl & (t & Ht & Hrest)%go_bind_Done)%go_bind_Done.
  apply leaders_loop_Done in Hl as [Hne Hres]; [|intros t'; by rewrite lookup_empty].
  apply last_term_loop_Done in Ht as [Hall _].
  case_bool_decide as Hempty.
  { destruct (IH Hrest) as (looks' & t' & Hin & ?). exists looks', t'. split; [by right | done]. }
  assert (forall t' j, 0 <= j < n -> leads looks t' j = true ->
    exists js, res !! t' = Some js /\ j ∈ js /\ len js <= 1 /\ t' <= t) as Hlead.
  { intros t' j Hj Hlj. specialize (Hres t'). rewrite lookup_empty in Hres. cbn in Hres.
    assert (j ∈ default [] (res !! t')) as Hin by (rewrite Hres; apply list_elem_of_filter; split; [done | by apply elem_of_range]).
    destruct (res !! t') as [js|] eqn:E; cbn in Hin; [|by apply elem_of_nil in Hin].
    exists js. split; [done |]. split; [done |]. by apply Hall, elem_of_map_to_list. }
  apply go_index_Done in Hrest as [_ Hi].
  assert (i ∈ default [] (res !! t)) as Hin by by eapply list_elem_of_lookup_2.
  rewrite Hres, lookup_empty in Hin. apply list_elem_of_filter in Hin as [Hli Hr%elem_of_range].
  exists looks, t. split; [by left |]. split; [done |]. split; [done |]. split.
  - intros t' j Hj Hlj. by destruct (Hlead t' j Hj Hlj) as (? & _ & _ & _ & ?).
  - intros t' j k Hj Hk Hlj Hlk. destruct (Hlead t' j Hj Hlj) as (js & Hjs & Hinj & Hlen & _).
    destruct (Hlead t' k Hk Hlk) as (js' & Hjs' & Hink & _). rewrite Hjs in Hjs'. injection Hjs' as <-.
    destruct js as [|x [|y js]]; cbn in Hlen; [by apply elem_of_nil in Hinj | | lia].
    apply list_elem_of_singleton in Hinj, Hink. congruence.
Qed.

(** ** Snapshots of the tester *)

Lemma xlog_map_lookup j (xlog : list (option C)) (acc : cmdlog) k :
  xlog_map j xlog acc !! k = if bool_decide (j <= k < j + len xlog) then xlog !! Z.to_nat (k - j) else acc !! k.
Proof.
  revert j acc; induction xlog as [|v xlog IH]; intros j acc; cbn [xlog_map].
  { rewrite bool_decide_eq_false_2; [done | cbn; lia]. }
  rewrite IH. cbn [base.length]. destruct (decide (k = j)) as [->|Hne].
  - rewrite bool_decide_eq_false_2, bool_decide_eq_true_2 by lia. rewrite lookup_insert_eq. by rewrite Z.sub_diag.
  - rewrite lookup_insert_ne by done. destruct (decide (j + 1 <= k < j + 1 + len xlog)) as [Hin|Hin].
    + rewrite !bool_decide_eq_true_2 by lia. by replace (Z.to_nat (k - j)) with (S (Z.to_nat (k - (j + 1)))) by lia.
    + by rewrite !bool_decide_eq_false_2 by lia.
Qed.

(** What [applierSnap] encodes of a server's log up to [index] is what another server's
    log becomes when it ingests the snapshot: the same commands at the positions up to
    [index], nothing after, and [index] as the last applied position. *)
Theorem ingestSnap_snapshot `{!SnapLaws C} (l : cmdlog) (j index expected : Z) cfg :
  0 <= index -> expected = -1 \/ expected = index ->
  0 <= j < len (cfg_logs cfg) -> 0 <= j < len (cfg_lastApplied cfg) ->
  exists cfg' l', ingestSnap j (snap_encode index (xlog_of l index)) expected cfg = Done (cfg', None)
    /\ cfg_logs cfg' = <[Z.to_nat j := l']> (cfg_logs cfg)
    /\ cfg_lastApplied cfg' = <[Z.to_nat j := index]> (cfg_lastApplied cfg)
    /\ forall k, l' !! k = if bool_decide (0 <= k <= index) then Some (default None (l !! k)) else None.
Proof.
  intros Hi He Hj Hj'. unfold ingestSnap.
  destruct (snap_encode index (xlog_of l index)) as [|b bs] eqn:E; [by destruct (snap_nonempty index (xlog_of l index)) |].
  rewrite <- E, snap_roundtrip.
  assert (negb (expected =? -1) && negb (expected =? index) = false) as ->
    by (destruct He as [-> | ->]; [done | by rewrite Z.eqb_refl, andb_false_r]).
  rewrite go_update_Done by done. cbn [mbind go_bind]. rewrite go_update_Done by done. cbn [mbind go_bind].
  eexists _, _. split; [reflexivity |]. split; [done |]. split; [done |]. intros k.
  rewrite xlog_map_lookup. unfold xlog_of. rewrite length_fmap, length_range.
  destruct (decide (0 <= k <= index)) as [Hk|Hk].
  - rewrite !bool_decide_eq_true_2 by lia. by rewrite list_lookup_fmap, Z.sub_0_r, range_lookup by lia.
  - by rewrite !bool_decide_eq_false_2 by lia.
Qed.

(** ** Restarts *)

Lemma disconnect_keeps i cfg cfg' :
  disconnect i cfg = Done cfg' ->
  cfg_world cfg' = cfg_world cfg /\ cfg_saved cfg' = cfg_saved cfg /\ cfg_rafts cfg' = cfg_rafts cfg /\ cfg_n cfg' = cfg_n cfg.
Proof. by intros (up & _ & (rn & _ & [= <-])%go_bind_Done)%go_bind_Done. Qed.

Lemma Save_Read ps : Save (mkPersister [] []) (ReadRaftState ps) (ReadSnapshot ps) = ps.
Proof. unfold Save, ReadRaftState, ReadSnapshot. destruct ps. cbn. by rewrite !clone_id. Qed.

Lemma crash1_Done (i : nat) p ps rf cfg cfg' :
  cfg_rafts cfg !! i = Some (Some p) -> cfg_saved cfg !! i = Some (Some (POf p)) ->
  cfg_world cfg !! p = Some rf -> persister rf = ps -> crash1 (Z.of_nat i) cfg = Done cfg' ->
  cfg_world cfg' = alter Kill p (cfg_world cfg)
  /\ cfg_rafts cfg' = <[i := None]> (cfg_rafts cfg)
  /\ cfg_saved cfg' = <[i := Some (POwn ps)]> (cfg_saved cfg) /\ cfg_n cfg' = cfg_n cfg.
Proof.
  intros Hr Hs Hw Hps (cfg1 & (W1 & S1 & R1 & N1)%disconnect_keeps & Hrest)%go_bind_Done.
  pose proof (lookup_lt_Some _ _ _ Hr). pose proof (lookup_lt_Some _ _ _ Hs).
  cbn [cfg_saved cfg_rafts cfg_net set_field] in Hrest.
  rewrite S1, (go_index_nat _ _ _ Hs) in Hrest. cbn [mbind go_bind read_pers cfg_world set_field] in Hrest.
  rewrite W1, Hw in Hrest. cbn [mbind go_bind] in Hrest. rewrite go_update_Done in Hrest by lia.
  cbn [mbind go_bind mret go_ret cfg_rafts set_field] in Hrest. rewrite Nat2Z.id, R1, (go_index_nat _ _ _ Hr) in Hrest.
  cbn [mbind go_bind mret go_ret cfg_rafts set_field] in Hrest. rewrite go_update_Done in Hrest by lia.
  cbn [mbind go_bind mret go_ret cfg_saved set_field] in Hrest.
  rewrite (go_index_nat _ i (Some (POwn (Copy (persister rf))))) in Hrest by (by rewrite list_lookup_insert_eq by done).
  cbn [mbind go_bind mret go_ret read_pers cfg_saved set_field] in Hrest.
  rewrite go_update_Done in Hrest by (rewrite length_insert; lia). cbn [mbind go_bind mret go_ret] in Hrest.
  injection Hrest as <-. rewrite Save_Read, Copy_id, Hps, Nat2Z.id, list_insert_insert_eq.
  split; [cbn; by rewrite W1 |]. done.
Qed.

(** Starting a running peer again kills its old instance, and makes a new one on the
    contents that the old one's storage had at that moment; the peer's storage is from
    then on what the new instance writes, and nothing that the old one still does to its
    own can reach it. *)
Theorem restart_isolated raft_methods (i : nat) p rf names now rnd cfg cfg' :
  cfg_rafts cfg !! i = Some (Some p) -> cfg_saved cfg !! i = Some (Some (POf p)) -> cfg_world cfg !! p = Some rf ->
  start1 raft_methods (Z.of_nat i) names now rnd cfg = Done cfg' ->
  let p' := length (cfg_world cfg) in
  exists rf', Make (Z.to_nat (cfg_n cfg)) (Z.of_nat i) (persister rf) now rnd = Done rf'
    /\ cfg_world cfg' = alter Kill p (cfg_world cfg) ++ [rf']
    /\ cfg_rafts cfg' = <[i := Some p']> (cfg_rafts cfg)
    /\ cfg_saved cfg' = <[i := Some (POf p')]> (cfg_saved cfg)
    /\ forall rf_old, read_pers (cfg' <| cfg_world := <[p := rf_old]> (cfg_world cfg') |>) (Some (POf p')) = Done (persister rf').
Proof.
  intros Hr Hs Hw (cfg1 & Hcr & Hrest)%go_bind_Done p'.
  destruct (crash1_Done _ _ _ _ _ _ Hr Hs Hw eq_refl Hcr) as (W1 & R1 & S1 & N1).
  pose proof (lookup_lt_Some _ _ _ Hr). pose proof (lookup_lt_Some _ _ _ Hs). pose proof (lookup_lt_Some _ _ _ Hw) as Hp.
  apply go_bind_Done in Hrest as (en & _ & Hrest). apply go_bind_Done in Hrest as (rn & _ & Hrest).
  apply go_bind_Done in Hrest as (la & _ & Hrest). cbn [cfg_saved set_field] in Hrest.
  rewrite S1, (go_index_nat _ i (Some (POwn (persister rf)))) in Hrest by (by rewrite list_lookup_insert_eq by done).
  cbn [mbind go_bind read_pers] in Hrest. apply go_bind_Done in Hrest as ([cfg3 ps] & H3 & Hrest).
  assert (ps = persister rf /\ cfg_n cfg3 = cfg_n cfg1 /\ cfg_world cfg3 = cfg_world cfg1
          /\ cfg_saved cfg3 = cfg_saved cfg1 /\ cfg_rafts cfg3 = cfg_rafts cfg1) as (-> & N3 & W3 & S3 & R3).
  { rewrite Copy_id in H3. destruct (0 <? len (ReadSnapshot (persister rf))); [|by injection H3 as <- <-].
    apply go_bind_Done in H3 as ([cfg4 err] & Hing & H3). destruct err; [done |]. injection H3 as <- <-.
    unfold ingestSnap in Hing. destruct (ReadSnapshot _); [done |]. destruct (snap_decode _) as [[idx xlog]|]; [|done].
    cbn [Z.eqb negb andb] in Hing. apply go_bind_Done in Hing as (logs & _ & Hing).
    by apply go_bind_Done in Hing as (la' & _ & [= <-]). }
  apply go_bind_Done in Hrest as (rf' & Hmake & Hrest). exists rf'.
  rewrite S3, S1, R3, R1, W3, W1, N3, N1 in *. rewrite length_alter in Hrest.
  rewrite go_update_Done in Hrest by (rewrite length_insert; lia). cbn [mbind go_bind] in Hrest.
  rewrite go_update_Done in Hrest by (rewrite length_insert; lia). cbn [mbind go_bind] in Hrest.
  injection Hrest as <-. rewrite !Nat2Z.id, !list_insert_insert_eq.
  split; [done |]. split; [done |]. split; [done |]. split; [done |]. intros rf_old.
  unfold read_pers. cbn [cfg_world set_field].
  assert ((<[p := rf_old]> (alter Kill p (cfg_world cfg) ++ [rf'])) !! p' = Some rf') as Hl.
  { rewrite list_lookup_insert_ne by (unfold p'; lia).
    rewrite lookup_app_r by (rewrite length_alter; done). by rewrite length_alter, Nat.sub_diag. }
  cbn. by rewrite Hl.
Qed.
End logs.

(** ** A test with two peers *)

Import ZCodec Sample.

Definition command_msg (index : Z) (c : Z) : ApplyMsg Z := mkApplyMsg true (Some c) index false [] 0 0.

Lemma appliers_accept_witness :
  (exists cfg', apply_all [(0%nat, command_msg 1 7); (1%nat, command_msg 1 7); (0%nat, command_msg 2 8)] (of_go cfg0) = Done cfg'
     /\ consistent [(0%nat, command_msg 1 7); (1%nat, command_msg 1 7); (0%nat, command_msg 2 8)])
  /\ (apply_all [(0%nat, command_msg 1 7); (1%nat, command_msg 1 8)] (of_go cfg0) = Panic fatal).
Proof.
  assert (forall l, l ∈ cfg_logs (of_go cfg0) -> l = ∅) as He.
  { assert (cfg_logs (of_go cfg0) = [∅; ∅]) as -> by (vm_compute; reflexivity).
    intros l [-> | [-> | []%elem_of_nil]%elem_of_cons]%elem_of_cons; reflexivity. }
  assert (length (cfg_logs (of_go cfg0)) = 2%nat) as Hl by (vm_compute; reflexivity). split.
  - destruct (apply_all [(0%nat, command_msg 1 7); (1%nat, command_msg 1 7); (0%nat, command_msg 2 8)] (of_go cfg0))
      as [cfg'|w|w] eqn:E; [|vm_compute in E; discriminate ..].
    exists cfg'. split; [reflexivity |].
    apply (appliers_accept _ (of_go cfg0) He) with (cfg' := cfg'); [|exact E].
    rewrite Hl. repeat constructor; cbn; lia.
  - apply (appliers_accept _ (of_go cfg0) He).
    + rewrite Hl. repeat constructor; cbn; lia.
    + intros [Ha _]. specialize (Ha 0%nat 1%nat 1 (Some 7) (Some 8)). enough (Some 7 = Some 8) by discriminate. apply Ha.
      * exists (command_msg 1 7). split; [left | repeat split].
      * exists (command_msg 1 8). split; [right; left | repeat split].
Defined.

(** Peer 0 is made leader, and both peers apply its command while [one] looks on. *)
Definition led_by (i : nat) (cfg : config (C:=Z) (Ty:=unit) (Value:=unit)) : config (C:=Z) (Ty:=unit) (Value:=unit) :=
  cfg <| cfg_world := alter (fun rf => rf <| role := Leader |> <| currentTerm := 3 |> <| matchIndex := [0; 0] |>
                                          <| nextIndex := [0; 0] |>) i (cfg_world cfg) |>.
Definition both_apply (c : Z) (cfg : config (C:=Z) (Ty:=unit) (Value:=unit)) : config (C:=Z) (Ty:=unit) (Value:=unit) :=
  match apply_all [(1%nat, command_msg 1 c); (0%nat, command_msg 1 c)] cfg with Done cfg' => cfg' | _ => cfg end.

Lemma both_apply_keeps c : keeps (both_apply c).
Proof.
  intros cfg. unfold both_apply. destruct (apply_all _ cfg) as [cfg'|w|w] eqn:E; [by eapply appliers_keep | done | done].
Qed.

(** The appliers of both peers run after the log of peer 0 has been looked at, so that
    the first look finds one of them, and the second look both. *)
Abbreviation test_env := (env (C:=Z) (Ty:=unit) (Value:=unit)).
Definition nothing (i : Z) : test_env * test_env := (fun cfg => cfg, fun cfg => cfg).
Definition between (c i : Z) : test_env * test_env :=
  (if i =? 1 then both_apply c else fun cfg => cfg, fun cfg => cfg).
Definition one_turns (c : Z) : list (poll_turn (C:=Z) (Ty:=unit) (Value:=unit)) :=
  [mkPollTurn (between c) (fun cfg => cfg); mkPollTurn nothing (fun cfg => cfg)].
Definition quiet_round (turns : list poll_turn) : one_round (C:=Z) (Ty:=unit) (Value:=unit) := mkOneRound nothing turns (fun cfg => cfg).

Lemma one_turns_keep c : Forall round_keeps [quiet_round (one_turns c)].
Proof.
  assert (gap_keeps nothing) as Hn by (intros i; split; intros cfg; reflexivity).
  assert (gap_keeps (between c)) as Hb.
  { intros i. split; intros cfg; cbn; [|reflexivity]. destruct (i =? 1); [apply both_apply_keeps | reflexivity]. }
  constructor; [|constructor]. split; [exact Hn |]. split; [|intros cfg; reflexivity].
  constructor; [|constructor; [|constructor]]; (split; [done | intros cfg; reflexivity]).
Qed.

Lemma one_agreement_witness :
  exists cfg' cfg1 nd, nCommitted 1 (between 7) (led_by 0 (of_go cfg0)) = Done (cfg1, 1, Some 7)
    /\ one 7 2 false [quiet_round [mkPollTurn (between 7) (fun cfg => cfg)]] (led_by 0 (of_go cfg0)) = Panic tFatal
    /\ one 7 2 true [quiet_round (one_turns 7)] (led_by 0 (of_go cfg0)) = Done (cfg', 1)
    /\ 2 <= nd /\ agreed (at_once cfg') 1 nd (Some 7).
Proof.
  destruct (one 7 2 true [quiet_round (one_turns 7)] (led_by 0 (of_go cfg0))) as [[cfg' index]|w|w] eqn:E;
    [|vm_compute in E; discriminate ..].
  destruct (nCommitted 1 (between 7) (led_by 0 (of_go cfg0))) as [[[cfg1 n1] c1]|w|w] eqn:E1;
    [|vm_compute in E1; discriminate ..].
  assert (index = 1) as -> by (vm_compute in E; congruence).
  assert (n1 = 1 /\ c1 = Some 7) as [-> ->] by (vm_compute in E1; split; congruence).
  destruct (one_agreement _ _ _ _ _ _ _ E) as (r & t & cfg2 & nd & _ & _ & _ & Hnd & _ & Hnow); [lia |].
  destruct Hnow as (nd' & Hle & Ha); [| apply one_turns_keep |].
  - assert (cfg_logs (led_by 0 (of_go cfg0)) = [∅; ∅]) as Hl by (vm_compute; reflexivity).
    intros idx i j v w. unfold logged. rewrite Hl. destruct (Z.to_nat i) as [|[|]]; discriminate.
  - exists cfg', cfg1, nd'. split; [reflexivity |]. split; [vm_compute; reflexivity |]. split; [reflexivity |].
    split; [lia | exact Ha].
Defined.

Lemma checkOneLeader_spec_witness :
  exists (looks : Z -> config (C:=Z) (Ty:=unit) (Value:=unit)) t, checkOneLeader 2 [fun _ => of_go cfg0; fun _ => led_by 0 (of_go cfg0)] = Done 0
    /\ leads looks t 0 = true.
Proof.
  destruct (checkOneLeader_spec 2 [fun _ => of_go cfg0; fun _ => led_by 0 (of_go cfg0)] 0) as (looks & t & _ & _ & Hl & _).
  - vm_compute. reflexivity.
  - exists looks, t. split; [vm_compute; reflexivity | exact Hl].
Defined.

Lemma ingestSnap_snapshot_witness :
  exists cfg' (l' : gmap Z (option Z)), ingestSnap 1 (snap_encode 2 (xlog_of ({[1 := Some 7; 2 := Some 8; 3 := Some 9]} : gmap Z (option Z)) 2)) 2 (of_go cfg0)
      = Done (cfg', None)
    /\ l' !! 2 = Some (Some 8) /\ l' !! 3 = None.
Proof.
  destruct (ingestSnap_snapshot ({[1 := Some 7; 2 := Some 8; 3 := Some 9]} : gmap Z (option Z)) 1 2 2 (of_go cfg0))
    as (cfg' & l' & Hr & _ & _ & Hl'); [lia | right; reflexivity | vm_compute; split; [discriminate | reflexivity] .. |].
  exists cfg', l'. split; [exact Hr |]. rewrite !Hl'. split; vm_compute; reflexivity.
Defined.

Lemma restart_isolated_witness :
  exists cfg', start1 methods 1 ["e"; "f"]%string 0 0 (of_go cfg0) = Done cfg'
    /\ cfg_rafts cfg' = [Some 0%nat; Some 2%nat].
Proof.
  destruct (start1 methods 1 ["e"; "f"]%string 0 0 (of_go cfg0)) as [cfg'|w|w] eqn:E; [|vm_compute in E; discriminate ..].
  assert (exists rf, cfg_world (of_go cfg0) !! 1%nat = Some rf) as [rf Hrf] by (vm_compute; eexists; reflexivity).
  destruct (restart_isolated methods 1 1 rf ["e"; "f"]%string 0 0 (of_go cfg0) cfg') as (rf' & _ & _ & Hr & _);
    [vm_compute; reflexivity | vm_compute; reflexivity | exact Hrf | exact E |].
  exists cfg'. split; [reflexivity |]. rewrite Hr. vm_compute. reflexivity.
Defined.
