(* ===== verification/Tester.v ===== *)
(** The tester of a replicated service, as [src/kvraft/config.go] and
    [src/shardctrler/config.go] both have it: servers, the clerks' ends, partitions.

    The service is an instance of the class [TestServer].  As in [RaftConfig], a server is
    a position in the list of all instances ever made, and [saved[i]] points to a persister
    of its own or to the one that an instance was given. *)
From S2P Require Import Prelude Persister RaftTypes RaftTools Labrpc Wiring RaftConfig.

(** What the tester asks of a server: its Raft peer, Kill, and how it is started (peers,
    me, persister, maxraftstate, time and random number). *)
Class TestServer (Sv C : Type) := {
  ts_raft : Sv -> Raft C;
  ts_kill : Sv -> Sv;
  ts_start : nat -> Z -> Persister -> Z -> Z -> Z -> go Sv }.

Section tester.
Context {Sv C Ty Value : Type} `{!TestServer Sv C, !Codec Ty Value}.
Abbreviation Network := (Network (End:=string) (Srv:=Z)).
Abbreviation Server := (Server (Ty:=Ty) (Value:=Value) (W:=list Sv)).
(** Reflection: the services of the [p]-th instance and of its Raft peer. *)
Context (reflect : nat -> list (Service (Ty:=Ty) (Value:=Value) (W:=list Sv))).

Record config := mkConfig {
  kc_net : Network; kc_heap : list Server; kc_world : list Sv;
  kc_n : Z; kc_servers : list (option nat); kc_saved : list (option pers);
  kc_endnames : list (option (list string));
  kc_clerks : gmap nat (list string);         (* by clerk, numbered as they are made *)
  kc_made : nat;
  kc_nextClientId : Z; kc_maxraftstate : Z; kc_rpcs0 : Z; kc_ops : Z }.
#[export] Instance eta_config : Eta config := fun c =>
  mkConfig (kc_net c) (kc_heap c) (kc_world c) (kc_n c) (kc_servers c) (kc_saved c) (kc_endnames c)
    (kc_clerks c) (kc_made c) (kc_nextClientId c) (kc_maxraftstate c) (kc_rpcs0 c) (kc_ops c).
Implicit Types (cfg : config).

(** ** Connections between servers *)

Definition yes (_ : Z) : go bool := Done true.

Definition connectUnlocked (i : Z) (to : list Z) cfg : go config :=
  rn ← (rn ← switch_loop yes (name_in (kc_endnames cfg) i) true to (kc_net cfg);
        switch_loop yes (fun j => name_in (kc_endnames cfg) j i) true to rn);
  mret (cfg <| kc_net := rn |>).

(** The second loop tests [endnames[j]] for the position [j] in [from], not for
    [from[j]]. *)
Fixpoint disconnect_in (i j : Z) (from : list Z) cfg (rn : Network) : go Network :=
  match from with
  | [] => mret rn
  | f :: from =>
    b ← has_row (kc_endnames cfg) j;
    rn ← (if b : bool then e ← name_in (kc_endnames cfg) f i; mret (Enable rn e false) else mret rn);
    disconnect_in i (j + 1) from cfg rn
  end.
Definition disconnectUnlocked (i : Z) (from : list Z) cfg : go config :=
  rn ← switch_loop (fun _ => has_row (kc_endnames cfg) i) (name_in (kc_endnames cfg) i) false from (kc_net cfg);
  rn ← disconnect_in i 0 from cfg rn;
  mret (cfg <| kc_net := rn |>).

Definition connect : Z -> list Z -> config -> go config := connectUnlocked.
Definition disconnect : Z -> list Z -> config -> go config := disconnectUnlocked.

Definition All cfg : list Z := range (kc_n cfg).

Fixpoint for_each (f : Z -> config -> go config) (is_ : list Z) cfg : go config :=
  match is_ with [] => mret cfg | i :: is_ => cfg ← f i cfg; for_each f is_ cfg end.

Definition ConnectAll cfg : go config := for_each (fun i cfg => connectUnlocked i (All cfg) cfg) (range (kc_n cfg)) cfg.

Definition partition (p1 p2 : list Z) cfg : go config :=
  cfg ← for_each (fun i cfg => cfg ← disconnectUnlocked i p2 cfg; connectUnlocked i p1 cfg) p1 cfg;
  for_each (fun i cfg => cfg ← disconnectUnlocked i p1 cfg; connectUnlocked i p2 cfg) p2 cfg.

(** ** Clerks *)

(** [sa[i], sa[j] = sa[j], sa[i]] for [i] from the start on, with the numbers drawn by
    [rand.Intn(i + 1)]. *)
Fixpoint random_handles {A} (i : Z) (draws : list Z) (sa : list A) : go (list A) :=
  match draws with
  | [] => mret sa
  | j :: draws =>
    x ← go_index sa i; y ← go_index sa j;
    sa ← go_update sa i y; sa ← go_update sa j x;
    random_handles (i + 1) draws sa
  end.

Definition ConnectClientUnlocked (ck : nat) (to : list Z) cfg : go config :=
  let endnames := default [] (kc_clerks cfg !! ck) in
  rn ← switch_loop yes (go_index endnames) true to (kc_net cfg);
  mret (cfg <| kc_net := rn |>).
Definition DisconnectClientUnlocked (ck : nat) (from : list Z) cfg : go config :=
  let endnames := default [] (kc_clerks cfg !! ck) in
  rn ← switch_loop yes (go_index endnames) false from (kc_net cfg);
  mret (cfg <| kc_net := rn |>).
Definition ConnectClient : nat -> list Z -> config -> go config := ConnectClientUnlocked.
Definition DisconnectClient : nat -> list Z -> config -> go config := DisconnectClientUnlocked.

(** The clerk, and the order in which it holds its ends. *)
Definition makeClient (to : list Z) (names : list string) (draws : list Z) cfg : go (config * nat * list string) :=
  rn ← MakeEnds (zip names (range (kc_n cfg))) (kc_net cfg);
  handles ← random_handles 0 draws names;
  let ck := kc_made cfg in
  let cfg := cfg <| kc_net := rn |> <| kc_clerks := <[ck := names]> (kc_clerks cfg) |> <| kc_made := S ck |>
                 <| kc_nextClientId := kc_nextClientId cfg + 1 |> in
  cfg ← ConnectClientUnlocked ck to cfg;
  mret (cfg, ck, handles).

(** The files that are removed do not exist; the ends stay enabled. *)
Definition deleteClient (ck : nat) cfg : config := cfg <| kc_clerks := delete ck (kc_clerks cfg) |>.

(** ** Servers *)

Definition read_pers cfg (o : option pers) : go Persister :=
  match o with
  | None => Panic nil_deref
  | Some (POwn ps) => Done ps
  | Some (POf p) => match kc_world cfg !! p with Some s => Done (persister (ts_raft s)) | None => Panic nil_deref end
  end.

(** [cfg.saved[i] = cfg.saved[i].Copy()], if there is one. *)
Definition copy_saved (i : Z) cfg : go config :=
  s ← go_index (kc_saved cfg) i;
  if s is Some _ then
    ps ← read_pers cfg s;
    saved ← go_update (kc_saved cfg) i (Some (POwn (Copy ps)));
    mret (cfg <| kc_saved := saved |>)
  else mret cfg.

Definition ShutdownServer (i : Z) cfg : go config :=
  cfg ← disconnectUnlocked i (All cfg) cfg;
  let cfg := cfg <| kc_net := DeleteServer (kc_net cfg) i |> in
  cfg ← copy_saved i cfg;
  kv ← go_index (kc_servers cfg) i;
  if kv is Some p then
    servers ← go_update (kc_servers cfg) i None;
    mret (cfg <| kc_world := alter ts_kill p (kc_world cfg) |> <| kc_servers := servers |>)
  else mret cfg.

Definition StartServer (i : Z) (names : list string) (now rnd : Z) cfg : go config :=
  endnames ← go_update (kc_endnames cfg) i (Some names);
  rn ← MakeEnds (zip names (range (kc_n cfg))) (kc_net cfg);
  let cfg := cfg <| kc_endnames := endnames |> <| kc_net := rn |> in
  s ← go_index (kc_saved cfg) i;
  ps ← (if s is Some _ then ps ← read_pers cfg s; mret (Copy ps) else mret MakePersister);
  kv ← ts_start (Z.to_nat (kc_n cfg)) i ps (kc_maxraftstate cfg) now rnd;
  let p := length (kc_world cfg) in
  saved ← go_update (kc_saved cfg) i (Some (POf p));
  servers ← go_update (kc_servers cfg) i (Some p);
  let srv := foldl AddService MakeServer (reflect p) in
  mret (cfg <| kc_world := kc_world cfg ++ [kv] |> <| kc_saved := saved |> <| kc_servers := servers |>
            <| kc_heap := kc_heap cfg ++ [srv] |>
            <| kc_net := AddServer (kc_net cfg) i (length (kc_heap cfg)) |>).

(** The largest value of [size] over the saved persisters. *)
Fixpoint size_loop (size : Persister -> Z) (is_ : list Z) cfg (largest : Z) : go Z :=
  match is_ with
  | [] => mret largest
  | i :: is_ =>
    s ← go_index (kc_saved cfg) i;
    ps ← read_pers cfg s;
    size_loop size is_ cfg (if largest <? size ps then size ps else largest)
  end.
Definition LogSize cfg : go Z := size_loop RaftStateSize (range (kc_n cfg)) cfg 0.
Definition SnapshotSize cfg : go Z := size_loop Persister.SnapshotSize (range (kc_n cfg)) cfg 0.

(** ** The leader, and the partition that isolates it *)

(** [skip_nil]: whether a server that is shut down is passed over (or dereferenced). *)
Fixpoint Leader_loop (skip_nil : bool) (is_ : list Z) cfg : go (bool * Z) :=
  match is_ with
  | [] => mret (false, 0)
  | i :: is_ =>
    kv ← go_index (kc_servers cfg) i;
    match kv with
    | None => if skip_nil then Leader_loop skip_nil is_ cfg else Panic nil_deref
    | Some p =>
      match kc_world cfg !! p with
      | None => Panic nil_deref
      | Some s => if (GetState (ts_raft s)).2 then mret (true, i) else Leader_loop skip_nil is_ cfg
      end
    end
  end.
Definition Leader (skip_nil : bool) cfg : go (bool * Z) := Leader_loop skip_nil (range (kc_n cfg)) cfg.

(** The loop over the servers; [j] counts those that are not the leader. *)
Fixpoint fill_partition (is_ : list Z) (l j : Z) (p1 p2 : list Z) : go (list Z * list Z) :=
  match is_ with
  | [] => mret (p1, p2)
  | i :: is_ =>
    if i =? l then fill_partition is_ l j p1 p2
    else if j <? len p1 then p1 ← go_update p1 j i; fill_partition is_ l (j + 1) p1 p2
    else p2 ← go_update p2 (j - len p1) i; fill_partition is_ l (j + 1) p1 p2
  end.
Definition make_slice (n : Z) : go (list Z) :=
  if n <? 0 then Panic "makeslice: len out of range" else mret (replicate (Z.to_nat n) 0).
Definition make_partition (skip_nil : bool) cfg : go (list Z * list Z) :=
  '(_, l) ← Leader skip_nil cfg;
  p1 ← make_slice (Z.quot (kc_n cfg) 2 + 1);
  p2 ← make_slice (Z.quot (kc_n cfg) 2);
  '(p1, p2) ← fill_partition (range (kc_n cfg)) l 0 p1 p2;
  p2 ← go_update p2 (len p2 - 1) l;
  mret (p1, p2).

(** ** A whole test *)

Definition make_config (n : Z) (unreliable : bool) (maxraftstate : Z) (draw : Z -> list string * Z * Z) : go config :=
  if n <? 0 then Panic "makeslice: len out of range" else
  let k := Z.to_nat n in
  let cfg := mkConfig MakeNetwork [] [] n (replicate k None) (replicate k None) (replicate k None) ∅ 0
               (n + 1000) maxraftstate 0 0 in
  cfg ← for_each (fun i cfg => StartServer i (draw i).1.1 (draw i).1.2 (draw i).2 cfg) (range n) cfg;
  cfg ← ConnectAll cfg;
  mret (cfg <| kc_net := Reliable (kc_net cfg) (negb unreliable) |>).

Definition cleanup (failed : bool) (elapsed : Z) cfg : go config :=
  let cfg := cfg <| kc_world := foldl (fun w o => if o is Some p then alter ts_kill p w else w) (kc_world cfg) (kc_servers cfg) |> in
  rn ← Cleanup (kc_net cfg);
  checkTimeout failed elapsed;;
  mret (cfg <| kc_net := rn |>).

Definition rpcTotal cfg : Z := GetTotalCount (kc_net cfg).
Definition begin cfg : config := cfg <| kc_rpcs0 := rpcTotal cfg |> <| kc_ops := 0 |>.
Definition op cfg : config := cfg <| kc_ops := wrap32 (kc_ops cfg + 1) |>.
(** The numbers that [end] prints: peers, RPCs, operations. *)
Definition end_ (failed : bool) (elapsed : Z) cfg : go (option (Z * Z * Z)) :=
  checkTimeout failed elapsed;;
  mret (if failed then None else Some (kc_n cfg, rpcTotal cfg - kc_rpcs0 cfg, kc_ops cfg)).
End tester.
