(* ===== verification/TesterFacts.v ===== *)
(** The testers of the services: [make_config] gives every server its own ends, and a
    partition cuts exactly the connections between its two sides. *)
From S2P Require Import Prelude Persister RaftTypes RaftTools RaftPersist RaftNode Labrpc Wiring RaftConfig.
From S2P Require Import KvRaft Tester.

(** ** The leader goes last *)

Lemma fill_partition_spec is_ l j p1 p2 :
  0 <= j -> j + len (filter (fun i => i <> l) is_) <= len p1 + len p2 ->
  exists p1' p2', fill_partition is_ l j p1 p2 = Done (p1', p2')
    /\ length p1' = length p1 /\ length p2' = length p2
    /\ p1' ++ p2' = take (Z.to_nat j) (p1 ++ p2) ++ filter (fun i => i <> l) is_
                    ++ drop (Z.to_nat j + length (filter (fun i => i <> l) is_)) (p1 ++ p2).
Proof.
  revert j p1 p2; induction is_ as [|i is_ IH]; intros j p1 p2 Hj Hle; cbn [fill_partition].
  { exists p1, p2. split; [done |]. split; [done |]. split; [done |]. cbn.
    rewrite Nat.add_0_r. by rewrite take_drop. }
  destruct (Z.eqb_spec i l) as [->|Hne]; [rewrite filter_cons_False in * by naive_solver; by apply IH |].
  rewrite filter_cons_True in * by done. cbn [base.length] in Hle |- *.
  set (f := filter (fun i => i <> l) is_) in *.
  assert (forall q1 q2 : list Z, length q1 = length p1 -> length q2 = length p2 -> q1 ++ q2 = <[Z.to_nat j := i]> (p1 ++ p2) ->
    exists p1' p2', fill_partition is_ l (j + 1) q1 q2 = Done (p1', p2')
      /\ length p1' = length p1 /\ length p2' = length p2
      /\ p1' ++ p2' = take (Z.to_nat j) (p1 ++ p2) ++ i :: f ++ drop (Z.to_nat j + S (length f)) (p1 ++ p2)) as Hstep.
  { intros q1 q2 H1 H2 Hq. destruct (IH (j + 1) q1 q2) as (p1' & p2' & Hf & L1 & L2 & Hp); [lia | rewrite H1, H2; lia |].
    exists p1', p2'. split; [done |]. split; [congruence |]. split; [congruence |]. rewrite Hp, Hq. fold f.
    replace (Z.to_nat (j + 1)) with (S (Z.to_nat j)) by lia.
    rewrite (take_S_r _ _ i) by (rewrite list_lookup_insert_eq; [done | rewrite length_app; lia]).
    rewrite take_insert_ge by lia. rewrite drop_insert_lt by lia. rewrite <- !app_assoc. cbn.
    by replace (Z.to_nat j + S (length f))%nat with (S (Z.to_nat j + length f)) by lia. }
  destruct (Z.ltb_spec j (len p1)).
  - rewrite go_update_Done by lia. cbn [mbind go_bind].
    apply Hstep; [by rewrite length_insert | done |]. by rewrite insert_app_l by lia.
  - rewrite go_update_Done by lia. cbn [mbind go_bind].
    apply Hstep; [done | by rewrite length_insert |]. rewrite insert_app_r_alt by lia.
    by replace (Z.to_nat (j - len p1)) with (Z.to_nat j - length p1)%nat by lia.
Qed.

Lemma others_permutation n l : 0 <= l < n -> filter (fun i => i <> l) (range n) ++ [l] ≡ₚ range n.
Proof.
  intros Hl. assert (NoDup (range n)) as Hnd by (apply NoDup_fmap_2; [apply _ | apply NoDup_seq]).
  apply NoDup_Permutation; [|done |].
  - apply NoDup_app. split; [by apply NoDup_filter |]. split; [|apply NoDup_singleton].
    intros x [Hx _]%list_elem_of_filter ->%list_elem_of_singleton. done.
  - intros x. rewrite elem_of_app, list_elem_of_filter, list_elem_of_singleton, elem_of_range.
    destruct (decide (x = l)); naive_solver lia.
Qed.

Section tester.
Context {Sv C Ty Value : Type} `{!TestServer Sv C, !Codec Ty Value}.
Abbreviation config := (config (Sv:=Sv) (Ty:=Ty) (Value:=Value)).
Implicit Types (cfg : config).

Lemma make_partition_fill skip_nil b l cfg :
  let n := kc_n cfg in
  2 <= n -> 0 <= l < n -> Leader skip_nil cfg = Done (b, l) ->
  exists p1 p2, make_partition skip_nil cfg = Done (p1, p2)
    /\ len p1 = n / 2 + 1 /\ len p2 = n / 2 /\ last p2 = Some l
    /\ p1 ++ p2 = filter (fun i => i <> l) (range n) ++ (if Z.odd n then [l] else [0; l]).
Proof.
  intros n Hn Hl Hlead. unfold make_partition. rewrite Hlead. cbn [mbind go_bind]. fold n.
  rewrite Z.quot_div_nonneg by lia. unfold make_slice.
  assert (0 <= n / 2) by (apply Z.div_pos; lia).
  destruct (Z.ltb_spec (n / 2 + 1) 0), (Z.ltb_spec (n / 2) 0); try lia. cbn [mbind go_bind mret go_ret].
  set (others := filter (fun i => i <> l) (range n)).
  assert (len others = n - 1) as Hlen.
  { pose proof (Permutation_length (others_permutation n l Hl)) as Hp. rewrite length_app, length_range in Hp.
    fold others in Hp. cbn in Hp. lia. }
  assert ((Z.odd n = true /\ n = 2 * (n / 2) + 1) \/ (Z.odd n = false /\ n = 2 * (n / 2))) as Hodd.
  { pose proof (Z.div_mod n 2 ltac:(lia)) as Hd. rewrite Zmod_odd in Hd. destruct (Z.odd n); [left | right]; (split; [done | lia]). }
  destruct (fill_partition_spec (range n) l 0 (replicate (Z.to_nat (n / 2 + 1)) 0) (replicate (Z.to_nat (n / 2)) 0))
    as (p1 & p2 & -> & L1 & L2 & Hp); [done | fold others; rewrite !length_replicate; destruct Hodd as [[_ ?]|[_ ?]]; lia |].
  rewrite length_replicate in L1, L2. cbn [mbind go_bind]. rewrite go_update_Done by lia. cbn [mbind go_bind mret go_ret].
  eexists p1, _. split; [reflexivity |]. split; [lia |]. rewrite length_insert. split; [lia |]. split.
  { rewrite last_lookup, length_insert. replace (Z.to_nat (len p2 - 1)) with (pred (length p2)) by lia.
    apply list_lookup_insert_eq. lia. }
  fold others in Hp. rewrite <- replicate_add, drop_replicate in Hp. cbn [take] in Hp.
  assert (p1 ++ <[Z.to_nat (len p2 - 1) := l]> p2 = <[(length p1 + Z.to_nat (len p2 - 1))%nat := l]> (p1 ++ p2)) as ->
    by (by rewrite insert_app_r).
  rewrite Hp. change (take (Z.to_nat 0) (replicate (Z.to_nat (n / 2 + 1) + Z.to_nat (n / 2)) 0)) with (@nil Z).
  rewrite app_nil_l, insert_app_r_alt by (destruct Hodd as [[_ ?]|[_ ?]]; lia). f_equal.
  destruct Hodd as [[-> Hodd]|[-> Hodd]].
  - replace (Z.to_nat (n / 2 + 1) + Z.to_nat (n / 2) - (Z.to_nat 0 + length others))%nat with 1%nat by lia.
    by replace (length p1 + Z.to_nat (len p2 - 1) - length others)%nat with 0%nat by lia.
  - replace (Z.to_nat (n / 2 + 1) + Z.to_nat (n / 2) - (Z.to_nat 0 + length others))%nat with 2%nat by lia.
    by replace (length p1 + Z.to_nat (len p2 - 1) - length others)%nat with 1%nat by lia.
Qed.

(** ** Links *)

(** Every server has a row of ends, and all names differ. *)
Record table_ok (endnames : list (option (list string))) (n : Z) : Prop := {
  tb_row : forall i, 0 <= i < n -> exists names, endnames !! Z.to_nat i = Some (Some names) /\ len names = n;
  tb_inj : forall i j i' j' e, name_in endnames i j = Done e -> name_in endnames i' j' = Done e -> i = i' /\ j = j' }.

Lemma table_name endnames n i j :
  table_ok endnames n -> 0 <= i < n -> 0 <= j < n -> exists e, name_in endnames i j = Done e.
Proof.
  intros T Hi Hj. destruct (tb_row _ _ T i Hi) as (names & Hl & Hn).
  destruct (lookup_lt_is_Some_2 names (Z.to_nat j)) as [e He]; [lia |].
  exists e. apply name_in_Done. exists names. repeat split; (done || lia).
Qed.

(** The end from server [a] to server [b] lets messages pass. *)
Definition linked cfg (a b : Z) : bool :=
  match name_in (kc_endnames cfg) a b with Done e => is_enabled (kc_net cfg) e | _ => false end.

(** The ends that [connectUnlocked i to] and [disconnectUnlocked i to] switch, for every
    [i] of [is_]. *)
Definition touched (is_ to : list Z) (a b : Z) : Prop := (a ∈ is_ /\ b ∈ to) \/ (b ∈ is_ /\ a ∈ to).
#[export] Instance touched_dec is_ to a b : Decision (touched is_ to a b) := ltac:(unfold touched; apply _).

Definition in_range cfg (l : list Z) : Prop := forall x, x ∈ l -> 0 <= x < kc_n cfg.

(** [cfg'] differs from [cfg] by [b] on the links of [P]. *)
Record relinked (P : Z -> Z -> Prop) (b : bool) cfg cfg' : Prop := {
  rl_n : kc_n cfg' = kc_n cfg;
  rl_endnames : kc_endnames cfg' = kc_endnames cfg;
  rl_in : forall x y, 0 <= x < kc_n cfg -> 0 <= y < kc_n cfg -> P x y -> linked cfg' x y = b;
  rl_out : forall x y, 0 <= x < kc_n cfg -> 0 <= y < kc_n cfg -> ~ P x y -> linked cfg' x y = linked cfg x y }.

Lemma relinked_switch i l b cfg (names : list string) rn :
  table_ok (kc_endnames cfg) (kc_n cfg) -> switched names b (kc_net cfg) rn ->
  (forall e, e ∈ names <-> exists j, j ∈ l /\ (name_in (kc_endnames cfg) i j = Done e \/ name_in (kc_endnames cfg) j i = Done e)) ->
  relinked (touched [i] l) b cfg (cfg <| kc_net := rn |>).
Proof.
  intros T [Hen _] Hiff.
  assert (forall x y, 0 <= x < kc_n cfg -> 0 <= y < kc_n cfg -> exists e, name_in (kc_endnames cfg) x y = Done e
    /\ (e ∈ names <-> touched [i] l x y)) as Hname.
  { intros x y Hx Hy. destruct (table_name _ _ x y T Hx Hy) as [e He]. exists e. split; [done |]. rewrite Hiff. unfold touched.
    rewrite !list_elem_of_singleton. split.
    - intros (j & Hj & [Hn|Hn]); destruct (tb_inj _ _ T _ _ _ _ _ He Hn) as [-> ->]; [by left | by right].
    - intros [[-> Hy']|[-> Hx']]; [exists y; split; [done | by left] | exists x; split; [done | by right]]. }
  split; [done | done | |]; intros x y Hx Hy HP; destruct (Hname x y Hx Hy) as (e & He & Hei);
    unfold linked; cbn [kc_endnames kc_net set_field]; rewrite He, Hen; [by rewrite decide_True by tauto | by rewrite decide_False by tauto].
Qed.

Lemma yes_returns name l rn (b : bool) :
  (forall j, j ∈ l -> exists e, name j = Done e) -> returns (switch_loop (End:=string) (Srv:=Z) yes name b l rn).
Proof. intros Hn. apply switch_loop_returns. intros j Hj. exists true. split; [done |]. by intros _; apply Hn. Qed.

Lemma connectUnlocked_relinked i to cfg :
  table_ok (kc_endnames cfg) (kc_n cfg) -> 0 <= i < kc_n cfg -> in_range cfg to ->
  exists cfg', connectUnlocked i to cfg = Done cfg' /\ relinked (touched [i] to) true cfg cfg'.
Proof.
  intros T Hi Hto. unfold connectUnlocked.
  destruct (yes_returns (name_in (kc_endnames cfg) i) to (kc_net cfg) true) as [rn1 H1];
    [intros j Hj; by apply (table_name _ _ i j T), Hto |].
  destruct (yes_returns (fun j => name_in (kc_endnames cfg) j i) to rn1 true) as [rn2 H2];
    [intros j Hj; apply (table_name _ _ j i T); [by apply Hto | done] |].
  assert ((rn ← switch_loop yes (name_in (kc_endnames cfg) i) true to (kc_net cfg);
           switch_loop yes (fun j => name_in (kc_endnames cfg) j i) true to rn) = Done rn2) as Hsw by (by rewrite H1).
  rewrite Hsw. cbn [mbind go_bind]. eexists. split; [reflexivity |].
  destruct (switch_loops _ _ _ _ _ _ _ _ _ Hsw) as (names & Hiff & Hswd).
  apply (relinked_switch i to true cfg names rn2 T Hswd). intros e. rewrite Hiff. unfold chosen, yes. naive_solver.
Qed.

(** With a full table the test of [endnames[j]] never matters. *)
Lemma disconnect_in_switch i j from cfg rn :
  table_ok (kc_endnames cfg) (kc_n cfg) -> 0 <= j -> j + len from <= kc_n cfg ->
  disconnect_in i j from cfg rn = switch_loop yes (fun f => name_in (kc_endnames cfg) f i) false from rn.
Proof.
  intros T. revert j rn; induction from as [|f from IH]; intros j rn Hj Hle; [done |].
  cbn [base.length] in Hle. cbn [disconnect_in switch_loop].
  destruct (table_name _ _ j j T ltac:(lia) ltac:(lia)) as [e He]. rewrite (has_row_Done _ _ _ _ He).
  cbn [yes mbind go_bind]. destruct (name_in (kc_endnames cfg) f i); [|done..]. cbn. apply IH; lia.
Qed.

Lemma disconnectUnlocked_relinked i from cfg :
  table_ok (kc_endnames cfg) (kc_n cfg) -> 0 <= i < kc_n cfg -> in_range cfg from -> len from <= kc_n cfg ->
  exists cfg', disconnectUnlocked i from cfg = Done cfg' /\ relinked (touched [i] from) false cfg cfg'.
Proof.
  intros T Hi Hfrom Hlen. unfold disconnectUnlocked.
  destruct (table_name _ _ i i T Hi Hi) as [ei Hei].
  destruct (switch_loop_returns (fun _ => has_row (kc_endnames cfg) i) (name_in (kc_endnames cfg) i) false from (kc_net cfg)) as [rn1 H1].
  { intros j Hj. exists true. split; [by eapply has_row_Done |]. intros _. by apply (table_name _ _ i j T), Hfrom. }
  destruct (yes_returns (fun j => name_in (kc_endnames cfg) j i) from rn1 false) as [rn2 H2];
    [intros j Hj; apply (table_name _ _ j i T); [by apply Hfrom | done] |].
  assert ((rn ← switch_loop (fun _ => has_row (kc_endnames cfg) i) (name_in (kc_endnames cfg) i) false from (kc_net cfg);
           switch_loop yes (fun j => name_in (kc_endnames cfg) j i) false from rn) = Done rn2) as Hsw by (by rewrite H1).
  rewrite H1. cbn [mbind go_bind]. rewrite disconnect_in_switch, H2 by (done || lia). cbn [mbind go_bind].
  eexists. split; [reflexivity |]. destruct (switch_loops _ _ _ _ _ _ _ _ _ Hsw) as (names & Hiff & Hswd).
  apply (relinked_switch i from false cfg names rn2 T Hswd). intros e. rewrite Hiff. unfold chosen, yes.
  rewrite (has_row_Done _ _ _ _ Hei). naive_solver.
Qed.

(** ** Partitions *)

(** One of the two loops of [partition]: the servers [is_] leave the side [other] and join
    the side [own]. *)
Lemma side_loop is_ own other cfg :
  table_ok (kc_endnames cfg) (kc_n cfg) -> in_range cfg own -> in_range cfg other -> len other <= kc_n cfg ->
  is_ ⊆ own -> (forall x, x ∈ own -> x ∉ other) ->
  exists cfg', for_each (fun i cfg => cfg ← disconnectUnlocked i other cfg; connectUnlocked i own cfg) is_ cfg = Done cfg'
    /\ kc_n cfg' = kc_n cfg /\ kc_endnames cfg' = kc_endnames cfg
    /\ forall x y, 0 <= x < kc_n cfg -> 0 <= y < kc_n cfg ->
         linked cfg' x y = if decide (touched is_ own x y) then true
                           else if decide (touched is_ other x y) then false else linked cfg x y.
Proof.
  revert cfg; induction is_ as [|i is_ IH]; intros cfg T Ho Hot Hlen Hsub Hdisj; cbn [for_each].
  { exists cfg. split; [done |]. split; [done |]. split; [done |]. intros x y _ _. unfold touched.
    rewrite !decide_False; [done | |]; by intros [[[]%elem_of_nil _]|[[]%elem_of_nil _]]. }
  assert (0 <= i < kc_n cfg) as Hi by (apply Ho; set_solver).
  destruct (disconnectUnlocked_relinked i other cfg T Hi Hot Hlen) as (cfg1 & -> & [N1 E1 I1 O1]). cbn [mbind go_bind].
  destruct (connectUnlocked_relinked i own cfg1) as (cfg2 & -> & [N2 E2 I2 O2]);
    [by rewrite E1, N1 | by rewrite N1 | unfold in_range; by rewrite N1 |]. cbn [mbind go_bind].
  destruct (IH cfg2) as (cfg' & -> & N3 & E3 & Hl); [by rewrite E2, E1, N2, N1 | unfold in_range; by rewrite N2, N1 ..
    | by rewrite N2, N1 | set_solver | done |].
  exists cfg'. split; [done |]. split; [congruence |]. split; [congruence |]. intros x y Hx Hy.
  rewrite Hl by (rewrite N2, N1; done).
  assert (forall to, touched (i :: is_) to x y <-> touched [i] to x y \/ touched is_ to x y) as Hsplit
    by (intros to; unfold touched; set_solver).
  assert (touched [i] own x y -> ~ touched [i] other x y /\ ~ touched is_ other x y) as Hd1
    by (unfold touched; set_solver).
  assert (touched is_ other x y -> ~ touched [i] own x y) as Hd2 by tauto.
  assert (touched is_ own x y -> ~ touched [i] other x y) as Hd3 by (unfold touched; set_solver).
  destruct (decide (touched is_ own x y)) as [Ha|Ha]; [by rewrite decide_True by (apply Hsplit; tauto) |].
  destruct (decide (touched is_ other x y)) as [Hb|Hb];
    [rewrite decide_False, decide_True by (rewrite Hsplit; tauto); done |].
  destruct (decide (touched [i] own x y)) as [Hc|Hc].
  - rewrite decide_True by (apply Hsplit; tauto). apply I2; (by rewrite ?N1).
  - rewrite O2 by (by rewrite ?N1). rewrite decide_False by (rewrite Hsplit; tauto).
    destruct (decide (touched [i] other x y)) as [Hd|Hd].
    + rewrite decide_True by (apply Hsplit; tauto). by apply I1.
    + rewrite decide_False by (rewrite Hsplit; tauto). by apply O1.
Qed.

Lemma partition_spec p1 p2 cfg :
  table_ok (kc_endnames cfg) (kc_n cfg) -> p1 ++ p2 ≡ₚ range (kc_n cfg) ->
  exists cfg', partition p1 p2 cfg = Done cfg'
    /\ forall x y, 0 <= x < kc_n cfg -> 0 <= y < kc_n cfg -> linked cfg' x y = bool_decide (x ∈ p1 <-> y ∈ p1).
Proof.
  intros T Hp. assert (forall x, x ∈ p1 \/ x ∈ p2 <-> 0 <= x < kc_n cfg) as Hin.
  { intros x. by rewrite <- elem_of_app, Hp, elem_of_range. }
  assert (NoDup (p1 ++ p2)) as (_ & Hdisj & _)%NoDup_app.
  { rewrite Hp. apply NoDup_fmap_2; [apply _ | apply NoDup_seq]. }
  pose proof (Permutation_length Hp) as Hlen. rewrite length_app, length_range in Hlen.
  assert (in_range cfg p1) as R1 by (intros x Hx; apply Hin; tauto).
  assert (in_range cfg p2) as R2 by (intros x Hx; apply Hin; tauto).
  unfold partition. destruct (decide (p1 ++ p2 = [])) as [He|Hne].
  { apply app_eq_nil in He as [-> ->]. exists cfg. split; [done |]. intros x y Hx.
    apply Hin in Hx as [[]%elem_of_nil|[]%elem_of_nil]. }
  assert (0 <= kc_n cfg) by (destruct (p1 ++ p2) as [|x l] eqn:E; [done |];
    assert (0 <= x < kc_n cfg) by (apply Hin; rewrite <- elem_of_app, E; by left); lia).
  destruct (side_loop p1 p1 p2 cfg T R1 R2) as (cfg1 & -> & N1 & E1 & L1); [lia | done | set_solver |]. cbn [mbind go_bind].
  destruct (side_loop p2 p2 p1 cfg1) as (cfg2 & -> & N2 & E2 & L2);
    [by rewrite E1, N1 | unfold in_range; by rewrite N1 .. | rewrite N1; lia | done | set_solver |].
  exists cfg2. split; [done |]. intros x y Hx Hy. rewrite L2, L1 by (rewrite ?N1; done).
  apply Hin in Hx, Hy. unfold touched.
  destruct (decide (x ∈ p1)) as [Hx1|Hx1], (decide (y ∈ p1)) as [Hy1|Hy1].
  - rewrite decide_False by set_solver. rewrite decide_False by set_solver. rewrite decide_True by set_solver.
    by rewrite bool_decide_eq_true_2 by tauto.
  - rewrite decide_False by set_solver. rewrite decide_True by set_solver. by rewrite bool_decide_eq_false_2 by tauto.
  - rewrite decide_False by set_solver. rewrite decide_True by set_solver. by rewrite bool_decide_eq_false_2 by tauto.
  - rewrite decide_True by set_solver. by rewrite bool_decide_eq_true_2 by tauto.
Qed.

(** ** What [make_config] leaves *)

Record table_part (done : list Z) cfg : Prop := {
  tp_len : len (kc_endnames cfg) = kc_n cfg;
  tp_rows : forall i names, kc_endnames cfg !! i = Some (Some names) -> len names = kc_n cfg;
  tp_done : forall i, i ∈ done -> exists names, kc_endnames cfg !! Z.to_nat i = Some (Some names);
  tp_ends : forall i j e, name_in (kc_endnames cfg) i j = Done e -> e ∈ ends (kc_net cfg);
  tp_inj : forall i j i' j' e, name_in (kc_endnames cfg) i j = Done e -> name_in (kc_endnames cfg) i' j' = Done e ->
    i = i' /\ j = j' }.

Context (reflect : nat -> list (Service (Ty:=Ty) (Value:=Value) (W:=list Sv))).

Lemma StartServer_part i names now rnd done cfg cfg' :
  table_part done cfg -> len names = kc_n cfg -> Forall (fun j => 0 <= j) done ->
  StartServer reflect i names now rnd cfg = Done cfg' ->
  table_part (i :: done) cfg' /\ kc_n cfg' = kc_n cfg /\ 0 <= i.
Proof.
  intros [TL TR TD TE TI] Hlen Hpos Hst. apply go_bind_Done in Hst as (en & [Hi ->]%go_update_inv & Hst).
  apply go_bind_Done in Hst as (rn & [ND Fr En _ _ _ _]%MakeEnds_made & Hst). rewrite zip_range_fst in * by done.
  apply go_bind_Done in Hst as (s & _ & Hst). apply go_bind_Done in Hst as (ps & _ & Hst).
  apply go_bind_Done in Hst as (kv & _ & Hst). apply go_bind_Done in Hst as (saved & _ & Hst).
  apply go_bind_Done in Hst as (servers & _ & [= <-]).
  assert (forall j k e, name_in (<[Z.to_nat i := Some names]> (kc_endnames cfg)) j k = Done e ->
    (j = i /\ 0 <= k /\ names !! Z.to_nat k = Some e) \/ (j <> i /\ name_in (kc_endnames cfg) j k = Done e)) as Hcase.
  { intros j k e (names' & Hj & Hl & Hk & He)%name_in_Done. destruct (decide (j = i)) as [->|Hne].
    - left. rewrite list_lookup_insert_eq in Hl by lia. by injection Hl as <-.
    - right. split; [done |]. apply name_in_Done. exists names'. by rewrite list_lookup_insert_ne in Hl by lia. }
  assert (forall k e, names !! k = Some e -> e ∈ names) as Hnew by (intros; by eapply list_elem_of_lookup_2).
  split; [|split; [done | lia]]. split; cbn [kc_endnames kc_n kc_net set_field].
  - by rewrite length_insert.
  - intros j names' Hj. destruct (decide (j = Z.to_nat i)) as [->|Hne].
    + rewrite list_lookup_insert_eq in Hj by lia. by injection Hj as <-.
    + rewrite list_lookup_insert_ne in Hj by done. by eapply TR.
  - intros j [->|Hj]%elem_of_cons; [exists names; apply list_lookup_insert_eq; lia |].
    destruct (decide (Z.to_nat j = Z.to_nat i)) as [->|Hne]; [exists names; apply list_lookup_insert_eq; lia |].
    rewrite list_lookup_insert_ne by done. by apply TD.
  - intros j k e [(_ & _ & He)|[_ He]]%Hcase; cbn [ends AddServer set_field]; rewrite En.
    + apply Hnew in He. set_solver.
    + apply TE in He. set_solver.
  - intros j k j' k' e [(-> & Hk & He)|[Hne He]]%Hcase [(-> & Hk' & He')|[Hne' He']]%Hcase.
    + split; [done |]. pose proof (NoDup_lookup _ _ _ _ ND He He'). lia.
    + exfalso. exact (Fr e (Hnew _ _ He) (TE _ _ _ He')).
    + exfalso. exact (Fr e (Hnew _ _ He') (TE _ _ _ He)).
    + by eapply TI.
Qed.

Lemma start_loop_part draw is_ done cfg cfg' :
  table_part done cfg -> (forall i, len (draw i).1.1 = kc_n cfg) -> Forall (fun j => 0 <= j) done ->
  for_each (fun i cfg => StartServer reflect i (draw i).1.1 (draw i).1.2 (draw i).2 cfg) is_ cfg = Done cfg' ->
  table_part (reverse is_ ++ done) cfg' /\ kc_n cfg' = kc_n cfg.
Proof.
  revert done cfg; induction is_ as [|i is_ IH]; intros done cfg HP Hd Hpos Hf; cbn [for_each] in Hf.
  { injection Hf as <-. done. }
  apply go_bind_Done in Hf as (cfg1 & Hst & Hf).
  destruct (StartServer_part _ _ _ _ _ _ _ HP (Hd i) Hpos Hst) as (HP1 & N1 & Hi).
  destruct (IH (i :: done) cfg1 HP1) as [HP2 N2]; [by rewrite N1 | by constructor | done |].
  split; [|congruence]. rewrite reverse_cons, <- app_assoc. exact HP2.
Qed.

Lemma connect_loop is_ cfg :
  table_ok (kc_endnames cfg) (kc_n cfg) -> in_range cfg is_ ->
  exists cfg', for_each (fun i cfg => connectUnlocked i (All cfg) cfg) is_ cfg = Done cfg'
    /\ kc_n cfg' = kc_n cfg /\ kc_endnames cfg' = kc_endnames cfg
    /\ forall x y, 0 <= x < kc_n cfg -> 0 <= y < kc_n cfg -> x ∈ is_ \/ linked cfg x y = true -> linked cfg' x y = true.
Proof.
  revert cfg; induction is_ as [|i is_ IH]; intros cfg T Hr; cbn [for_each].
  { exists cfg. split; [done |]. split; [done |]. split; [done |]. intros x y _ _ [[]%elem_of_nil|]; done. }
  destruct (connectUnlocked_relinked i (All cfg) cfg T) as (cfg1 & -> & [N1 E1 I1 O1]);
    [apply Hr; by left | by intros x ?%elem_of_range |]. cbn [mbind go_bind].
  destruct (IH cfg1) as (cfg2 & -> & N2 & E2 & L2); [by rewrite E1, N1 | intros x Hx; rewrite N1; apply Hr; by right |].
  exists cfg2. split; [done |]. split; [congruence |]. split; [congruence |]. intros x y Hx Hy Hor.
  apply L2; [by rewrite N1.. |]. destruct (decide (touched [i] (All cfg) x y)) as [Ht|Ht]; [right; by apply I1 |].
  destruct Hor as [[->|Hin]%elem_of_cons|Hl]; [|by left | right; by rewrite O1].
  exfalso. apply Ht. left. split; [by apply list_elem_of_singleton | by apply elem_of_range].
Qed.

Lemma make_config_table n unreliable mrs draw cfg :
  (forall i, len (draw i).1.1 = n) -> make_config reflect n unreliable mrs draw = Done cfg ->
  kc_n cfg = n /\ table_ok (kc_endnames cfg) n /\ forall x y, 0 <= x < n -> 0 <= y < n -> linked cfg x y = true.
Proof.
  intros Hd. unfold make_config. destruct (Z.ltb_spec n 0); [done |].
  intros (cfg1 & H1 & (cfg2 & H2 & [= <-])%go_bind_Done)%go_bind_Done.
  apply (start_loop_part draw (range n) []) in H1 as [[_ TR TD _ TI] N1]; [|split; cbn|done|constructor].
  - cbn [kc_n] in N1. rewrite app_nil_r in TD.
    assert (table_ok (kc_endnames cfg1) (kc_n cfg1)) as T.
    { rewrite N1. split; [|exact TI]. intros i Hi. destruct (TD i) as [names Hn];
        [by rewrite reverse_Permutation, elem_of_range |]. exists names. split; [done |]. rewrite <- N1. by eapply TR. }
    unfold ConnectAll in H2. destruct (connect_loop (range (kc_n cfg1)) cfg1 T) as (cfg2' & Hc & N2 & E2 & L2);
      [by intros x ?%elem_of_range |].
    rewrite H2 in Hc. injection Hc as <-. cbn [kc_n kc_endnames set_field].
    split; [congruence |]. split; [rewrite E2, <- N1; exact T |]. intros x y Hx Hy.
    apply (L2 x y); [by rewrite N1.. |]. left. apply elem_of_range. by rewrite N1.
  - rewrite length_replicate. lia.
  - by intros i names [? _]%lookup_replicate.
  - by intros i ?%elem_of_nil.
  - by intros i j e (names & _ & [? _]%lookup_replicate & _)%name_in_Done.
  - by intros i j i' j' e (names & _ & [? _]%lookup_replicate & _)%name_in_Done.
Qed.

(** In a test with an odd number of servers, at least three, that [make_config] has
    wired (all of them connected to each other), [make_partition] splits the servers into
    a majority and a minority that holds the leader, each server on one side; and
    [partition] with these sides returns and leaves exactly the connections between
    servers of one side. *)
Theorem leader_isolated n unreliable mrs draw cfg0 cfg skip_nil l :
  (forall i, len (draw i).1.1 = n) -> make_config reflect n unreliable mrs draw = Done cfg0 ->
  kc_endnames cfg = kc_endnames cfg0 -> kc_n cfg = n ->
  Z.odd n = true -> 3 <= n -> 0 <= l < n -> Leader skip_nil cfg = Done (true, l) ->
  (forall x y, 0 <= x < n -> 0 <= y < n -> linked cfg0 x y = true)
  /\ exists p1 p2 cfg', make_partition skip_nil cfg = Done (p1, p2)
    /\ p1 ++ p2 ≡ₚ range n /\ len p1 = n / 2 + 1 /\ len p2 = n / 2 /\ l ∈ p2
    /\ partition p1 p2 cfg = Done cfg'
    /\ forall x y, 0 <= x < n -> 0 <= y < n -> linked cfg' x y = bool_decide (x ∈ p1 <-> y ∈ p1).
Proof.
  intros Hd Hm He <- Hodd Hn Hl Hlead. destruct (make_config_table _ _ _ _ _ Hd Hm) as (_ & T & Hall). split; [done |].
  destruct (make_partition_fill skip_nil true l cfg) as (p1 & p2 & Hmp & L1 & L2 & Hlast & Hp); [lia | done | done |].
  rewrite Hodd in Hp. assert (p1 ++ p2 ≡ₚ range (kc_n cfg)) as Hperm by (rewrite Hp; by apply others_permutation).
  destruct (partition_spec p1 p2 cfg) as (cfg' & Hpt & Hlk); [by rewrite He | done |].
  exists p1, p2, cfg'. repeat split; try done. rewrite last_lookup in Hlast. by eapply list_elem_of_lookup_2.
Qed.

(** With an even number of servers the last server but one of the minority is not set:
    server 0 is put there, also when it is in the majority. *)
Theorem make_partition_even cfg skip_nil l :
  Z.odd (kc_n cfg) = false -> 2 <= kc_n cfg -> 0 < l < kc_n cfg -> Leader skip_nil cfg = Done (true, l) ->
  exists p1 p2, make_partition skip_nil cfg = Done (p1, p2) /\ ~ NoDup (p1 ++ p2).
Proof.
  intros Hodd Hn Hl Hlead.
  destruct (make_partition_fill skip_nil true l cfg) as (p1 & p2 & Hmp & _ & _ & _ & Hp); [lia | lia | done |].
  exists p1, p2. split; [done |]. rewrite Hp, Hodd. intros (_ & Hdisj & _)%NoDup_app. apply (Hdisj 0).
  - apply list_elem_of_filter. split; [lia | apply elem_of_range; lia].
  - by left.
Qed.
End tester.

(** ** A test with three servers, each just a Raft peer *)

Module Sample3.
Import ZCodec.
#[export] Instance raft_server : TestServer (Raft Z) Z :=
  {| ts_raft := fun rf => rf; ts_kill := RaftElection.Kill; ts_start := fun n i ps _ now rnd => Make n i ps now rnd |}.
#[export] Instance unit_codec : Codec unit unit :=
  {| zero_value := fun _ => tt; encode := fun v => ([], true); decode := fun b _ => (tt, true) |}.
Definition draw (i : Z) : list string * Z * Z :=
  (if i =? 0 then ["a"; "b"; "c"]%string else if i =? 1 then ["d"; "e"; "f"]%string else ["g"; "h"; "i"]%string, 0, 0).
Definition reflect (p : nat) : list (Service (Ty:=unit) (Value:=unit) (W:=list (Raft Z))) := [].
Definition cfg0 : config (Sv:=Raft Z) (Ty:=unit) (Value:=unit) :=
  match make_config reflect 3 false (-1) draw with
  | Done c => c | _ => mkConfig MakeNetwork [] [] 0 [] [] [] ∅ 0 0 0 0 0
  end.
(** Server 1 leads. *)
Definition cfg1 : config (Sv:=Raft Z) (Ty:=unit) (Value:=unit) :=
  cfg0 <| kc_world := alter (fun rf => rf <| role := RaftTypes.Leader |>) 1%nat (kc_world cfg0) |>.
End Sample3.
Import Sample3.

Lemma leader_isolated_witness :
  exists p1 p2 cfg', make_partition false cfg1 = Done (p1, p2) /\ partition p1 p2 cfg1 = Done cfg'
    /\ p1 = [0; 2] /\ p2 = [1] /\ linked cfg' 0 2 = true /\ linked cfg' 0 1 = false.
Proof.
  destruct (leader_isolated reflect 3 false (-1) draw cfg0 cfg1 false 1)
    as (_ & p1 & p2 & cfg' & Hm & _ & _ & _ & _ & Hp & Hlk).
  - intros i. unfold draw. destruct (i =? 0), (i =? 1); reflexivity.
  - vm_compute. reflexivity.
  - vm_compute. reflexivity.
  - vm_compute. reflexivity.
  - reflexivity.
  - lia.
  - lia.
  - vm_compute. reflexivity.
  - exists p1, p2, cfg'. split; [exact Hm |]. split; [exact Hp |].
    assert ((p1, p2) = ([0; 2], [1])) as Heq by (vm_compute in Hm; congruence). injection Heq as -> ->.
    split; [reflexivity |]. split; [reflexivity |]. split; (rewrite Hlk by lia; vm_compute; reflexivity).
Defined.
