(* ===== verification/ServiceTesters.v ===== *)
(** The two testers that [Tester] models: of the key/value service
    ([src/kvraft/config.go]) and of the shard controller ([src/shardctrler/config.go]).
    The second is the first without the statistics and with a [Leader] that passes over
    servers that are shut down. *)
From S2P Require Import Prelude Persister RaftTypes RaftPersist RaftNode Labrpc Wiring RaftConfig.
From S2P Require KvRaft ShardCtrler.
From S2P Require Import Tester.

Module KvTest.
Section kv.
Context `{!GobCodec KvRaft.Op}.
#[export] Instance kv_server : TestServer KvRaft.KVServer KvRaft.Op :=
  {| ts_raft := KvRaft.kv_rf; ts_kill := KvRaft.KVServer_Kill; ts_start := KvRaft.StartKVServer |}.

Definition Leader {Ty Value} (cfg : config (Sv:=KvRaft.KVServer) (Ty:=Ty) (Value:=Value)) := Tester.Leader false cfg.
Definition make_partition {Ty Value} (cfg : config (Sv:=KvRaft.KVServer) (Ty:=Ty) (Value:=Value)) :=
  Tester.make_partition false cfg.
End kv.
End KvTest.

Module CtrlerTest.
Section ctrler.
Context {Ty Value : Type} `{!GobCodec ShardCtrler.Op, !Codec Ty Value}.
Context (reflect : nat -> list (Service (Ty:=Ty) (Value:=Value) (W:=list ShardCtrler.ShardCtrler))).
#[export] Instance ctrler_server : TestServer ShardCtrler.ShardCtrler ShardCtrler.Op :=
  {| ts_raft := ShardCtrler.ShardCtrler_Raft; ts_kill := ShardCtrler.ShardCtrler_Kill;
     ts_start := fun n i ps _ now rnd => ShardCtrler.ShardCtrler_StartServer n i ps now rnd |}.

Abbreviation config := (config (Sv:=ShardCtrler.ShardCtrler) (Ty:=Ty) (Value:=Value)).
Implicit Types (cfg : config).

Definition connectUnlocked (i : Z) (to : list Z) cfg := Tester.connectUnlocked i to cfg.
Definition disconnectUnlocked (i : Z) (from : list Z) cfg := Tester.disconnectUnlocked i from cfg.
Definition connect (i : Z) (to : list Z) cfg := Tester.connect i to cfg.
Definition disconnect (i : Z) (from : list Z) cfg := Tester.disconnect i from cfg.
Definition All cfg := Tester.All cfg.
Definition ConnectAll cfg := Tester.ConnectAll cfg.
Definition partition (p1 p2 : list Z) cfg := Tester.partition p1 p2 cfg.
Definition random_handles {A} (draws : list Z) (sa : list A) := Tester.random_handles 0 draws sa.
Definition makeClient (to : list Z) (names : list string) (draws : list Z) cfg := Tester.makeClient to names draws cfg.
Definition deleteClient (ck : nat) cfg := Tester.deleteClient ck cfg.
Definition ConnectClientUnlocked (ck : nat) (to : list Z) cfg := Tester.ConnectClientUnlocked ck to cfg.
Definition ConnectClient (ck : nat) (to : list Z) cfg := Tester.ConnectClient ck to cfg.
Definition DisconnectClientUnlocked (ck : nat) (from : list Z) cfg := Tester.DisconnectClientUnlocked ck from cfg.
Definition DisconnectClient (ck : nat) (from : list Z) cfg := Tester.DisconnectClient ck from cfg.
Definition ShutdownServer (i : Z) cfg := Tester.ShutdownServer i cfg.
Definition StartServer (i : Z) (names : list string) (now rnd : Z) cfg := Tester.StartServer reflect i names now rnd cfg.
Definition LogSize cfg := Tester.LogSize cfg.
Definition Leader cfg := Tester.Leader true cfg.
Definition make_partition cfg := Tester.make_partition true cfg.
Definition make_config (n : Z) (unreliable : bool) (draw : Z -> list string * Z * Z) :=
  Tester.make_config reflect n unreliable 0 draw.
Definition checkTimeout (failed : bool) (elapsed : Z) := RaftConfig.checkTimeout failed elapsed.
Definition cleanup (failed : bool) (elapsed : Z) cfg := Tester.cleanup failed elapsed cfg.
End ctrler.
End CtrlerTest.
