(* ===== verification/Randoms.v ===== *)
(** What the testers draw at random, and what is printed: [randstring], [makeSeed] and
    [random_handles] of the config.go files, [src/kvraft/utils.go] and
    [src/raft/util.go].  The random bytes and numbers are arguments. *)
From Stdlib Require Import Ascii.
From stdpp Require Import pretty.
From S2P Require Import Prelude Decimal Persister RaftTypes RaftTools RaftPrint Labrpc RaftConfig Tester.

(** ** Names *)

(** [base64.URLEncoding]: the character of six bits. *)
Definition url_char (x : Z) : ascii :=
  ascii_of_N (Z.to_N (if x <? 26 then 65 + x
    else if x <? 52 then 97 + (x - 26)
    else if x <? 62 then 48 + (x - 52)
    else if x =? 62 then 45 else 95)).

Fixpoint EncodeToString (b : list Z) : list ascii :=
  match b with
  | [] => []
  | [x] => [url_char (Z.shiftr x 2); url_char (Z.land (Z.shiftl x 4) 63); "="; "="]%char
  | [x; y] => [url_char (Z.shiftr x 2); url_char (Z.land (Z.lor (Z.shiftl x 4) (Z.shiftr y 4)) 63);
               url_char (Z.land (Z.shiftl y 2) 63); "="]%char
  | x :: y :: z :: b =>
    url_char (Z.shiftr x 2) :: url_char (Z.land (Z.lor (Z.shiftl x 4) (Z.shiftr y 4)) 63)
    :: url_char (Z.land (Z.lor (Z.shiftl y 2) (Z.shiftr z 6)) 63) :: url_char (Z.land z 63) :: EncodeToString b
  end.

(** [read] is what [crand.Read] puts into a slice of the given length. *)
Definition randstring (read : nat -> list Z) (n : Z) : go string :=
  if 2 * n <? 0 then Panic "makeslice: len out of range" else
  let b := read (Z.to_nat (2 * n)) in
  let s := EncodeToString b in
  if len s <? n then Panic "slice bounds out of range" else mret (String.string_of_list_ascii (take (Z.to_nat n) s)).

(** [Int] is [crand.Int], a number below its argument. *)
Definition makeSeed (Int : Z -> Z) : Z :=
  let max := Z.shiftl 1 62 in
  Int max.

(** The same functions in the other packages. *)
Module KvTest.
Definition randstring := randstring.
Definition makeSeed := makeSeed.
Definition checkTimeout := RaftConfig.checkTimeout.
End KvTest.
Module CtrlerTest.
Definition randstring := randstring.
End CtrlerTest.
Module ShardTest.
Definition randstring := randstring.
Definition makeSeed := makeSeed.
Definition checkTimeout := RaftConfig.checkTimeout.
Definition random_handles {A} (draws : list Z) (sa : list A) := Tester.random_handles 0 draws sa.
End ShardTest.

(** ** What is printed *)

Module KvPrint.
Definition selectColor (inputColor : string) : string :=
  let color := esc "[0m" in
  if String.eqb inputColor "red" then esc "[31m"
  else if String.eqb inputColor "green" then esc "[32m"
  else if String.eqb inputColor "yellow" then esc "[33m"
  else if String.eqb inputColor "blue" then esc "[34m"
  else if String.eqb inputColor "purple" then esc "[35m"
  else if String.eqb inputColor "skyblue" then esc "[36m"
  else if String.eqb inputColor "default" then esc "[0m"
  else color.

(** The line, without date and time. *)
Definition PrintLog (content color : string) (me : Z) (isServer : bool) : string :=
  let prefix := if isServer then "[lab3][Server " +:+ Itoa me +:+ "]" else "[lab3][Client " +:+ Itoa me +:+ "]" in
  selectColor color +:+ prefix +:+ Itoa me +:+ "]" +:+ content +:+ esc "[0m".

(** The number is printed a second time behind the prefix, with a bracket. *)
Lemma PrintLog_twice : PrintLog " Get" "blue" 3 true = esc "[34m" +:+ "[lab3][Server 3]3] Get" +:+ esc "[0m".
Proof. reflexivity. Qed.
End KvPrint.

(** [DPrintf]: the line it prints, if any. *)
Definition Debug : bool := false.
Definition DPrintf (line : string) : option string := if Debug then Some line else None.

(** ** Random strings *)

Definition url_safe (c : ascii) : Prop := exists x, 0 <= x < 64 /\ c = url_char x.

Lemma low_bits x : 0 <= Z.land x 63 < 64.
Proof. change 63 with (Z.ones 6). rewrite Z.land_ones by lia. apply Z.mod_pos_bound. lia. Qed.

Lemma high_bits x : 0 <= x < 256 -> 0 <= Z.shiftr x 2 < 64.
Proof. intros Hx. rewrite Z.shiftr_div_pow2 by lia. change (2 ^ 2) with 4. Z.to_euclidean_division_equations. lia. Qed.

(** Safe characters, then padding: at least four for three bytes. *)
Lemma encode_safe b : Forall (fun x => 0 <= x < 256) b ->
  exists safe pad, EncodeToString b = safe ++ pad /\ Forall url_safe safe /\ 4 * len b <= 3 * len safe.
Proof.
  assert (forall l, Forall (fun c => exists y, c = url_char (Z.land y 63) \/ 0 <= y < 256 /\ c = url_char (Z.shiftr y 2)) l ->
    Forall url_safe l) as Hsafe.
  { intros l Hl. eapply Forall_impl; [exact Hl |]. intros c (y & [-> | [Hy ->]]); eexists; (split; [|reflexivity]); [apply low_bits | by apply high_bits]. }
  remember (base.length b) as m eqn:Hm. revert b Hm. induction (lt_wf m) as [m _ IH]. intros b -> Hb.
  destruct b as [|x [|y [|z b]]]; repeat (apply Forall_cons in Hb as [? Hb]); cbn [EncodeToString].
  - by exists [], [].
  - exists [url_char (Z.shiftr x 2); url_char (Z.land (Z.shiftl x 4) 63)], ["="; "="]%char. split; [done |].
    split; [|cbn; lia]. apply Hsafe. repeat constructor; eauto.
  - exists [url_char (Z.shiftr x 2); url_char (Z.land (Z.lor (Z.shiftl x 4) (Z.shiftr y 4)) 63); url_char (Z.land (Z.shiftl y 2) 63)], ["="]%char.
    split; [done |]. split; [|cbn; lia]. apply Hsafe. repeat constructor; eauto.
  - destruct (IH (base.length b) ltac:(cbn; lia) b eq_refl Hb) as (safe & pad & -> & Hs & Hl).
    eexists (_ :: _ :: _ :: _ :: safe), pad. split; [reflexivity |]. split; [|cbn [base.length]; lia].
    do 4 (apply Forall_cons; split; [apply (Forall_singleton url_safe), Hsafe; repeat constructor; eauto |]). exact Hs.
Qed.

(** A random string has the length that is asked for, and no padding. *)
Lemma randstring_spec read n :
  0 <= n -> (forall k, base.length (read k) = k /\ Forall (fun x => 0 <= x < 256) (read k)) ->
  exists s, randstring read n = Done s /\ Z.of_nat (String.length s) = n /\ Forall url_safe (String.list_ascii_of_string s).
Proof.
  intros Hn Hr. destruct (Hr (Z.to_nat (2 * n))) as [Hl Hb]. unfold randstring.
  destruct (Z.ltb_spec (2 * n) 0); [lia |]. destruct (encode_safe _ Hb) as (safe & pad & -> & Hs & Hlen). rewrite Hl in Hlen.
  destruct (Z.ltb_spec (len (safe ++ pad)) n) as [Hlt|Hge]; [rewrite length_app in Hlt; lia |].
  rewrite take_app_le by lia. eexists. split; [done |]. rewrite String.list_ascii_of_string_of_list_ascii.
  split; [|by apply Forall_take].
  assert (forall l, String.length (String.string_of_list_ascii l) = base.length l) as -> by (induction l; cbn; congruence).
  rewrite length_take. lia.
Qed.

Lemma makeSeed_spec Int : (forall m, 0 < m -> 0 <= Int m < m) -> 0 <= makeSeed Int < 2 ^ 62.
Proof. intros H. apply (H (2 ^ 62)). lia. Qed.

(** ** Shuffles *)

Section shuffle.
Context {A : Type}.
Implicit Types (sa t : list A) (draws : list Z).

(** [rand.Intn(i + 1)] for the places from [i] on. *)
Definition drawn_from (i : Z) draws : Prop := forall (k : nat) j, draws !! k = Some j -> 0 <= j <= i + Z.of_nat k.

(** The exchange of two places. *)
Definition exchange (i j : nat) sa : list A :=
  match sa !! i, sa !! j with Some x, Some y => <[j := x]> (<[i := y]> sa) | _, _ => sa end.

Lemma exchange_length i j sa : base.length (exchange i j sa) = base.length sa.
Proof. unfold exchange. destruct (sa !! i), (sa !! j); by rewrite ?length_insert. Qed.

Lemma exchange_lookup i j sa k : (i < base.length sa)%nat -> (j < base.length sa)%nat ->
  exchange i j sa !! k = if decide (k = j) then sa !! i else if decide (k = i) then sa !! j else sa !! k.
Proof.
  intros [x Hx]%lookup_lt_is_Some_2 [y Hy]%lookup_lt_is_Some_2. unfold exchange. rewrite Hx, Hy.
  pose proof (lookup_lt_Some _ _ _ Hx). pose proof (lookup_lt_Some _ _ _ Hy).
  destruct (decide (k = j)) as [->|Hkj]; [by rewrite list_lookup_insert_eq by (by rewrite length_insert) |].
  rewrite list_lookup_insert_ne by done. destruct (decide (k = i)) as [->|Hki]; [by rewrite list_lookup_insert_eq |].
  by rewrite list_lookup_insert_ne.
Qed.

Lemma exchange_twice i j sa : (i < base.length sa)%nat -> (j < base.length sa)%nat -> exchange i j (exchange i j sa) = sa.
Proof.
  intros Hi Hj. apply list_eq. intros k. rewrite !exchange_lookup by (rewrite ?exchange_length; done).
  repeat case_decide; subst; try done.
Qed.

Lemma exchange_perm i j sa : (i < base.length sa)%nat -> (j < base.length sa)%nat -> exchange i j sa ≡ₚ sa.
Proof.
  intros Hi Hj. apply Permutation_inj. rewrite exchange_length. split; [done |].
  exists (fun k => if decide (k = j) then i else if decide (k = i) then j else k).
  split; [intros k1 k2; repeat case_decide; congruence |]. intros k. rewrite exchange_lookup by done. by repeat case_decide.
Qed.

Lemma random_handles_step i j draws sa : 0 <= i < len sa -> 0 <= j < len sa ->
  Tester.random_handles i (j :: draws) sa = Tester.random_handles (i + 1) draws (exchange (Z.to_nat i) (Z.to_nat j) sa).
Proof.
  intros Hi Hj. cbn [random_handles]. unfold exchange.
  destruct (go_index_total sa i Hi) as (x & -> & Hx). destruct (go_index_total sa j Hj) as (y & -> & Hy). rewrite Hx, Hy.
  cbn [mbind go_bind]. rewrite go_update_Done by done. cbn [mbind go_bind].
  rewrite go_update_Done by by rewrite length_insert. done.
Qed.

(** The shuffle ends, with a permutation. *)
Lemma random_handles_perm draws : forall i sa, 0 <= i -> i + len draws <= len sa -> drawn_from i draws ->
  exists t, Tester.random_handles i draws sa = Done t /\ t ≡ₚ sa.
Proof.
  induction draws as [|j draws IH]; intros i sa Hi Hl Hd; [by exists sa |]. cbn [base.length] in Hl.
  pose proof (Hd 0%nat j eq_refl). rewrite random_handles_step by lia.
  destruct (IH (i + 1) (exchange (Z.to_nat i) (Z.to_nat j) sa)) as (t & -> & Ht).
  - lia.
  - rewrite exchange_length. lia.
  - intros k j' Hk. specialize (Hd (S k) j' Hk). lia.
  - exists t. split; [done |]. rewrite Ht. apply exchange_perm; lia.
Qed.

Lemma random_handles_snoc draws j : forall i sa, 0 <= i -> i + len draws < len sa -> drawn_from i draws -> 0 <= j < len sa ->
  Tester.random_handles i (draws ++ [j]) sa
  = (t ← Tester.random_handles i draws sa; mret (exchange (Z.to_nat (i + len draws)) (Z.to_nat j) t)).
Proof.
  induction draws as [|j' draws IH]; intros i sa Hi Hl Hd Hj; cbn [app].
  - rewrite random_handles_step by lia. cbn. by rewrite Z.add_0_r.
  - cbn [base.length] in *. pose proof (Hd 0%nat j' eq_refl). rewrite !random_handles_step by lia.
    rewrite IH; [| lia | rewrite exchange_length; lia | | rewrite exchange_length; lia].
    + by replace (i + 1 + len draws) with (i + Z.of_nat (S (base.length draws))) by lia.
    + intros k j'' Hk. specialize (Hd (S k) j'' Hk). lia.
Qed.

(** Every order of the handles can come out: the last element is taken back to the last
    place, and the rest is an order of the elements before it. *)
Lemma random_handles_any n : forall sa t, (n <= base.length sa)%nat -> t ≡ₚ take n sa ->
  exists draws, base.length draws = n /\ drawn_from 0 draws /\ Tester.random_handles 0 draws sa = Done (t ++ drop n sa).
Proof.
  induction n as [|n IH]; intros sa t Hn Ht.
  - exists []. cbn in Ht. apply Permutation_nil_r in Ht as ->. split; [done |]. split; [|done]. intros k j Hk. by destruct k.
  - destruct (lookup_lt_is_Some_2 sa n) as [x Hx]; [lia |]. rewrite (take_S_r _ _ _ Hx) in Ht.
    pose proof (Permutation_length Ht) as Hlt. rewrite length_app, length_take in Hlt. cbn [base.length] in Hlt.
    assert (x ∈ t) as Hin by (rewrite Ht; apply elem_of_app; right; left). apply list_elem_of_lookup in Hin as [j Hj].
    pose proof (lookup_lt_Some _ _ _ Hj) as Hjt. set (u := exchange n j t).
    assert (base.length u = S n) as Hu by (unfold u; rewrite exchange_length; lia).
    assert (u !! n = Some x) as Hux.
    { unfold u. rewrite exchange_lookup by lia. case_decide as Hnj; [by subst |]. by rewrite decide_True. }
    assert (u = take n u ++ [x]) as Hsplit by (rewrite <- (take_S_r _ _ _ Hux), take_ge by lia; done).
    assert (take n u ≡ₚ take n sa) as Hperm.
    { apply (Permutation_app_inv_r [x]). rewrite <- Hsplit, <- Ht. apply exchange_perm; lia. }
    destruct (IH sa (take n u) ltac:(lia) Hperm) as (draws & Hl & Hd & Hr). exists (draws ++ [Z.of_nat j]).
    split; [rewrite length_app; cbn; lia |]. split.
    { intros k j' [Hk|[Hge Hk]]%lookup_app_Some; [by apply Hd |]. apply list_lookup_singleton_Some in Hk as [? <-]. lia. }
    rewrite random_handles_snoc by (try done; lia). rewrite Hr. cbn [mbind go_bind]. go_simpl. f_equal.
    rewrite Z.add_0_l, !Nat2Z.id, Hl.
    assert (drop n sa = x :: drop (S n) sa) as Hdrop by by rewrite (drop_S _ _ _ Hx).
    rewrite Hdrop. rewrite cons_middle, app_assoc, <- Hsplit.
    assert (forall i j (l1 l2 : list A), (i < base.length l1)%nat -> (j < base.length l1)%nat ->
      exchange i j (l1 ++ l2) = exchange i j l1 ++ l2) as Happ.
    { intros i j' l1 l2 [y Hy]%lookup_lt_is_Some_2 [z Hz]%lookup_lt_is_Some_2. unfold exchange.
      rewrite !lookup_app_l by (by eapply lookup_lt_Some). rewrite Hy, Hz.
      rewrite !insert_app_l; [done | rewrite ?length_insert; by eapply lookup_lt_Some..]. }
    rewrite Happ by lia. f_equal. unfold u. apply exchange_twice; lia.
Qed.
End shuffle.
