(* ===== verification/ShardKvConfig.v ===== *)
(** The tester of the sharded key/value service, [src/shardkv/config.go]: three
    controllers, groups of servers, their clerks, and what the tester tells the
    controllers.

    A group is updated in place through [cfg.groups[gi]].  Servers are positions in the
    lists of all instances ever made, as in [RaftConfig]; the network knows servers by
    their names. *)
From stdpp Require Import pretty.
From S2P Require Import Prelude Persister RaftTypes RaftPersist Labrpc Wiring RaftConfig.
From S2P Require ShardCtrler ShardKv.

Section config.
Context {Ty Value : Type} `{!GobCodec ShardCtrler.Op, !GobCodec ShardKv.Op, !Codec Ty Value}.
Abbreviation ShardCtrler := ShardCtrler.ShardCtrler.
Abbreviation ShardKV := ShardKv.ShardKV.
Abbreviation World := (list ShardKV * list ShardCtrler)%type.
Abbreviation Network := (Network (End:=string) (Srv:=string)).
Abbreviation Server := (Server (Ty:=Ty) (Value:=Value) (W:=World)).
Abbreviation Service := (Service (Ty:=Ty) (Value:=Value) (W:=World)).
(** Reflection: the services of the [p]-th server, and of the [p]-th controller, with
    those of their Raft peers. *)
Context (reflect reflect_ctrler : nat -> list Service).

Record group := mkGroup {
  gg_gid : Z; gg_servers : list (option nat); gg_saved : list (option pers);
  gg_endnames : list (option (list string)); gg_mendnames : list (option (list string)) }.

Record config := mkConfig {
  sk_net : Network; sk_heap : list Server; sk_kvs : list ShardKV; sk_ctrlers : list ShardCtrler;
  sk_nctrlers : Z; sk_ctrlerservers : list (option nat); sk_mck : ShardCtrler.Clerk;
  sk_ngroups : Z; sk_n : Z; sk_groups : list group;
  sk_clerks : gmap nat (list string); sk_made : nat; sk_nextClientId : Z; sk_maxraftstate : Z }.
#[export] Instance eta_group : Eta group := fun g =>
  mkGroup (gg_gid g) (gg_servers g) (gg_saved g) (gg_endnames g) (gg_mendnames g).
#[export] Instance eta_config : Eta config := fun c =>
  mkConfig (sk_net c) (sk_heap c) (sk_kvs c) (sk_ctrlers c) (sk_nctrlers c) (sk_ctrlerservers c) (sk_mck c)
    (sk_ngroups c) (sk_n c) (sk_groups c) (sk_clerks c) (sk_made c) (sk_nextClientId c) (sk_maxraftstate c).
Implicit Types (cfg : config) (gg : group).

(** ** Names and ends *)

(** [strconv.Itoa] *)
Definition ctrlername (i : Z) : string := "ctrler" +:+ pretty i.
Definition servername (gid i : Z) : string := "server-" +:+ pretty gid +:+ "-" +:+ pretty i.

(** [MakeEnd], [Connect] and [Enable] for each end. *)
Fixpoint open_ends (l : list (string * string)) (rn : Network) : go Network :=
  match l with
  | [] => mret rn
  | (e, sn) :: l => rn ← MakeEnd rn e; open_ends l (Enable (Connect rn e sn) e true)
  end.

(** The function that clerks and servers are given to reach a server by its name. *)
Definition make_end (name servername : string) cfg : go config :=
  rn ← open_ends [(name, servername)] (sk_net cfg); mret (cfg <| sk_net := rn |>).

Definition ctrler_ends cfg (names : list string) : list (string * string) :=
  zip names (ctrlername <$> range (sk_nctrlers cfg)).

Definition shardclerk (names : list string) cfg : go (config * ShardCtrler.Clerk) :=
  rn ← open_ends (ctrler_ends cfg names) (sk_net cfg);
  mret (cfg <| sk_net := rn |>, ShardCtrler.MakeClerk (length (ctrler_ends cfg names))).

(** [endnames := make([]string, cfg.n)] is indexed by controller. *)
Fixpoint store_names (j : Z) (names : list string) (endnames : list string) : go (list string) :=
  match names with [] => mret endnames | e :: names => en ← go_update endnames j e; store_names (j + 1) names en end.

Definition makeClient (names : list string) cfg : go (config * nat * ShardKv.Clerk) :=
  if sk_n cfg <? 0 then Panic "makeslice: len out of range" else
  endnames ← store_names 0 names (replicate (Z.to_nat (sk_n cfg)) ""%string);
  rn ← open_ends (ctrler_ends cfg names) (sk_net cfg);
  let ck := sk_made cfg in
  mret (cfg <| sk_net := rn |> <| sk_clerks := <[ck := endnames]> (sk_clerks cfg) |> <| sk_made := S ck |>
            <| sk_nextClientId := sk_nextClientId cfg + 1 |>, ck, ShardKv.MakeClerk (length (ctrler_ends cfg names))).

Definition deleteClient (ck : nat) cfg : config := cfg <| sk_clerks := delete ck (sk_clerks cfg) |>.

(** ** Servers *)

Definition read_pers cfg (o : option pers) : go Persister :=
  match o with
  | None => Panic nil_deref
  | Some (POwn ps) => Done ps
  | Some (POf p) => match sk_kvs cfg !! p with Some kv => Done (persister (ShardKv.kv_rf kv)) | None => Panic nil_deref end
  end.

(** [for j ... { name := row[j]; net.Enable(name, false) }] *)
Definition close_row (rows : list (option (list string))) (i n : Z) (rn : Network) : go Network :=
  switch_loop (fun _ => Done true) (name_in rows i) false (range n) rn.
(** [len(rows[i])] *)
Definition row_length (rows : list (option (list string))) (i : Z) : go Z :=
  row ← go_index rows i; mret (len (default [] row)).

Definition ShutdownServer (gi i : Z) cfg : go config :=
  gg ← go_index (sk_groups cfg) gi;
  rn ← close_row (gg_endnames gg) i (len (gg_servers gg)) (sk_net cfg);
  mlen ← row_length (gg_mendnames gg) i;
  rn ← close_row (gg_mendnames gg) i mlen rn;
  let rn := DeleteServer rn (servername (gg_gid gg) i) in
  s ← go_index (gg_saved gg) i;
  gg ← (if s is Some _ then
          ps ← read_pers cfg s;
          saved ← go_update (gg_saved gg) i (Some (POwn (Copy ps)));
          mret (gg <| gg_saved := saved |>)
        else mret gg);
  kv ← go_index (gg_servers gg) i;
  '(gg, kvs) ← (if kv is Some p then
                  servers ← go_update (gg_servers gg) i None;
                  mret (gg <| gg_servers := servers |>, alter ShardKv.ShardKV_Kill p (sk_kvs cfg))
                else mret (gg, sk_kvs cfg));
  groups ← go_update (sk_groups cfg) gi gg;
  mret (cfg <| sk_net := rn |> <| sk_groups := groups |> <| sk_kvs := kvs |>).

Fixpoint for_each (f : Z -> config -> go config) (is_ : list Z) cfg : go config :=
  match is_ with [] => mret cfg | i :: is_ => cfg ← f i cfg; for_each f is_ cfg end.

Definition ShutdownGroup (gi : Z) cfg : go config := for_each (ShutdownServer gi) (range (sk_n cfg)) cfg.

(** What [randstring] draws for a server: names of ends to its group and to the
    controllers; the time and random number for [Make]. *)
Record draw := mkDraw { dr_names : list string; dr_mnames : list string; dr_now : Z; dr_rnd : Z }.

Definition StartServer (gi i : Z) (d : draw) cfg : go config :=
  gg ← go_index (sk_groups cfg) gi;
  endnames ← go_update (gg_endnames gg) i (Some (dr_names d));
  rn ← open_ends (zip (dr_names d) (servername (gg_gid gg) <$> range (sk_n cfg))) (sk_net cfg);
  mendnames ← go_update (gg_mendnames gg) i (Some (dr_mnames d));
  rn ← open_ends (ctrler_ends cfg (dr_mnames d)) rn;
  s ← go_index (gg_saved gg) i;
  ps ← (if s is Some _ then ps ← read_pers cfg s; mret (Copy ps) else mret MakePersister);
  kv ← ShardKv.ShardKV_StartServer (Z.to_nat (sk_n cfg)) i ps (sk_maxraftstate cfg) (gg_gid gg)
         (Z.to_nat (sk_nctrlers cfg)) (dr_now d) (dr_rnd d);
  let p := length (sk_kvs cfg) in
  saved ← go_update (gg_saved gg) i (Some (POf p));
  servers ← go_update (gg_servers gg) i (Some p);
  groups ← go_update (sk_groups cfg) gi (mkGroup (gg_gid gg) servers saved endnames mendnames);
  let srv := foldl AddService MakeServer (reflect p) in
  mret (cfg <| sk_net := AddServer rn (servername (gg_gid gg) i) (length (sk_heap cfg)) |>
            <| sk_heap := sk_heap cfg ++ [srv] |> <| sk_kvs := sk_kvs cfg ++ [kv] |> <| sk_groups := groups |>).

Definition StartGroup (gi : Z) (draws : Z -> draw) cfg : go config :=
  for_each (fun i => StartServer gi i (draws i)) (range (sk_n cfg)) cfg.

Definition StartCtrlerserver (i : Z) (names : list string) (now rnd : Z) cfg : go config :=
  rn ← open_ends (ctrler_ends cfg names) (sk_net cfg);
  sc ← ShardCtrler.ShardCtrler_StartServer (Z.to_nat (sk_nctrlers cfg)) i MakePersister now rnd;
  let p := length (sk_ctrlers cfg) in
  servers ← go_update (sk_ctrlerservers cfg) i (Some p);
  let srv := foldl AddService MakeServer (reflect_ctrler p) in
  mret (cfg <| sk_net := AddServer rn (ctrlername i) (length (sk_heap cfg)) |> <| sk_heap := sk_heap cfg ++ [srv] |>
            <| sk_ctrlers := sk_ctrlers cfg ++ [sc] |> <| sk_ctrlerservers := servers |>).

(** ** Telling the controllers *)

Fixpoint joinm_map cfg (gis : list Z) (m : gmap Z (list string)) : go (gmap Z (list string)) :=
  match gis with
  | [] => mret m
  | g :: gis =>
    gg ← go_index (sk_groups cfg) g;
    joinm_map cfg gis (<[gg_gid gg := servername (gg_gid gg) <$> range (sk_n cfg)]> m)
  end.
Definition joinm (gis : list Z) (answers : list (bool * ShardCtrler.JoinReply)) cfg :=
  m ← joinm_map cfg gis ∅; mret (M := go) (ShardCtrler.Join (sk_mck cfg) m answers).
Definition join (gi : Z) := joinm [gi].

Definition leavem (gis : list Z) (answers : list (bool * ShardCtrler.LeaveReply)) cfg :=
  gids ← foldr (fun g rest => gg ← go_index (sk_groups cfg) g; gids ← rest; mret (gg_gid gg :: gids)) (mret []) gis;
  mret (M := go) (ShardCtrler.Leave (sk_mck cfg) gids answers).
Definition leave (gi : Z) := leavem [gi].

(** ** A whole test *)

(** The sizes that [checklogs] looks at. *)
Definition check_sizes (maxraftstate : Z) (ps : Persister) : go unit :=
  if (0 <=? maxraftstate) && (8 * maxraftstate <? RaftStateSize ps) then Panic tFatal
  else if (maxraftstate <? 0) && (0 <? len (ReadSnapshot ps)) then Panic tFatal
  else mret tt.
Fixpoint checklogs_group cfg gg (is_ : list Z) : go unit :=
  match is_ with
  | [] => mret tt
  | i :: is_ =>
    s ← go_index (gg_saved gg) i; ps ← read_pers cfg s;
    check_sizes (sk_maxraftstate cfg) ps;; checklogs_group cfg gg is_
  end.
Fixpoint checklogs_loop cfg (gis : list Z) : go unit :=
  match gis with
  | [] => mret tt
  | gi :: gis =>
    gg ← go_index (sk_groups cfg) gi;
    checklogs_group cfg gg (range (sk_n cfg));; checklogs_loop cfg gis
  end.
Definition checklogs cfg : go unit := checklogs_loop cfg (range (sk_ngroups cfg)).

Definition Kill_ctrler (i : Z) cfg : go config :=
  o ← go_index (sk_ctrlerservers cfg) i;
  match o with
  | Some p => mret (cfg <| sk_ctrlers := alter ShardCtrler.ShardCtrler_Kill p (sk_ctrlers cfg) |>)
  | None => Panic nil_deref
  end.

Definition cleanup (failed : bool) (elapsed : Z) cfg : go config :=
  cfg ← for_each ShutdownGroup (range (sk_ngroups cfg)) cfg;
  cfg ← for_each Kill_ctrler (range (sk_nctrlers cfg)) cfg;
  rn ← Cleanup (sk_net cfg);
  checkTimeout failed elapsed;;
  mret (cfg <| sk_net := rn |>).

(** The group [gi] of [make_config]; [mendnames] has a row per controller. *)
Definition new_group (gi : Z) cfg : group :=
  mkGroup (100 + gi) (replicate (Z.to_nat (sk_n cfg)) None) (replicate (Z.to_nat (sk_n cfg)) None)
    (replicate (Z.to_nat (sk_n cfg)) None) (replicate (Z.to_nat (sk_nctrlers cfg)) None).

(** [cdraw i]: the names, time and random number of controller [i]; [mnames]: those of
    the tester's clerk; [gdraw gi i]: those of server [i] of group [gi]. *)
Definition make_config (n : Z) (unreliable : bool) (maxraftstate : Z)
    (cdraw : Z -> list string * Z * Z) (mnames : list string) (gdraw : Z -> Z -> draw) : go config :=
  let cfg := mkConfig MakeNetwork [] [] [] 3 (replicate 3 None) (ShardCtrler.MakeClerk 0) 0 0 [] ∅ 0 0 maxraftstate in
  cfg ← for_each (fun i => StartCtrlerserver i (cdraw i).1.1 (cdraw i).1.2 (cdraw i).2) (range (sk_nctrlers cfg)) cfg;
  '(cfg, mck) ← shardclerk mnames cfg;
  if n <? 0 then Panic "makeslice: len out of range" else
  let cfg := cfg <| sk_mck := mck |> <| sk_ngroups := 3 |> <| sk_n := n |> in
  cfg ← for_each (fun gi cfg =>
          let cfg := cfg <| sk_groups := sk_groups cfg ++ [new_group gi cfg] |> in
          StartGroup gi (gdraw gi) cfg) (range (sk_ngroups cfg)) cfg;
  mret (cfg <| sk_nextClientId := sk_n cfg + 1000 |> <| sk_net := Reliable (sk_net cfg) (negb unreliable) |>).
End config.

(** ** Shutting a server down *)

Section facts.
Context {Ty Value : Type} `{!GobCodec ShardCtrler.Op, !GobCodec ShardKv.Op, !Codec Ty Value}.
Abbreviation config := (config (Ty:=Ty) (Value:=Value)).
Implicit Types (cfg : config).

(** The ends of server [i] of the group, to the group and to the controllers. *)
Definition own_end (gg : group) (i : Z) (e : string) : Prop :=
  (exists j, 0 <= j < len (gg_servers gg) /\ name_in (gg_endnames gg) i j = Done e)
  \/ (exists j, name_in (gg_mendnames gg) i j = Done e).

Lemma row_length_Done rows i n j e : row_length rows i = Done n -> name_in rows i j = Done e -> 0 <= j < n.
Proof.
  intros (row & [Hi Hr]%go_index_Done & [= <-])%go_bind_Done (names & _ & Hl & Hj & He)%name_in_Done.
  rewrite Hr in Hl. injection Hl as ->. apply lookup_lt_Some in He. cbn. lia.
Qed.

(** [ShutdownServer] disables the ends by which the server talks to its group and to
    the controllers and no others (those that [make_end] gave it to talk to other groups
    stay as they are), takes the server off the network, kills the instance, and keeps in
    [saved] a copy of what was persisted that the old instance cannot change. *)
Theorem ShutdownServer_spec gi i cfg cfg' gg p kv :
  go_index (sk_groups cfg) gi = Done gg -> go_index (gg_servers gg) i = Done (Some p) ->
  go_index (gg_saved gg) i = Done (Some (POf p)) -> sk_kvs cfg !! p = Some kv ->
  ShutdownServer gi i cfg = Done cfg' ->
  (forall e, (own_end gg i e -> is_enabled (sk_net cfg') e = false)
             /\ (~ own_end gg i e -> is_enabled (sk_net cfg') e = is_enabled (sk_net cfg) e))
  /\ server_at (sk_net cfg') (servername (gg_gid gg) i) = None
  /\ sk_kvs cfg' = alter ShardKv.ShardKV_Kill p (sk_kvs cfg)
  /\ exists gg', go_index (sk_groups cfg') gi = Done gg' /\ go_index (gg_servers gg') i = Done None
       /\ go_index (gg_saved gg') i = Done (Some (POwn (persister (ShardKv.kv_rf kv)))).
Proof.
  intros Hgg Hsv Hsd Hkv Hs. unfold ShutdownServer in Hs. rewrite Hgg in Hs. cbn [mbind go_bind] in Hs.
  apply go_bind_Done in Hs as (rn1 & Hrow & Hs). apply go_bind_Done in Hs as (mlen & Hmlen & Hs).
  apply go_bind_Done in Hs as (rn2 & Hmrow & Hs).
  rewrite Hsd in Hs. cbn [mbind go_bind read_pers] in Hs. rewrite Hkv in Hs. cbn [mbind go_bind] in Hs.
  pose proof Hsd as [_ Hld%lookup_lt_Some]%go_index_Done. pose proof Hsv as [Hi Hlv%lookup_lt_Some]%go_index_Done.
  rewrite go_update_Done in Hs by lia. cbn [mbind go_bind mret go_ret gg_servers set_field] in Hs.
  rewrite Hsv in Hs. cbn [mbind go_bind] in Hs. rewrite go_update_Done in Hs by lia.
  cbn [mbind go_bind mret go_ret] in Hs.
  pose proof Hgg as [Hgi Hlg%lookup_lt_Some]%go_index_Done. rewrite go_update_Done in Hs by lia.
  cbn [mbind go_bind] in Hs. injection Hs as <-. cbn [sk_net sk_kvs sk_groups set_field].
  assert (closed : switch_loop (fun _ => Done true) (name_in (gg_endnames gg) i) false (range (len (gg_servers gg))) (sk_net cfg) ≫=
    switch_loop (fun _ => Done true) (name_in (gg_mendnames gg) i) false (range mlen) = Done rn2)
    by (unfold close_row in Hrow, Hmrow; by rewrite Hrow).
  destruct (switch_loops _ _ _ _ _ _ _ _ _ closed) as (names & Hiff & [Hen _]).
  assert (forall e, e ∈ names <-> own_end gg i e) as Hown.
  { intros e. rewrite Hiff. unfold chosen, own_end. split.
    - intros [(j & Hj%elem_of_range & _ & Hn)|(j & _ & _ & Hn)]; [left | right]; by exists j.
    - intros [(j & Hj & Hn)|(j & Hn)]; [left | right]; exists j;
        (split; [apply elem_of_range; (done || by eapply row_length_Done) | done]). }
  split; [|split; [|split]].
  - intros e. change (is_enabled (DeleteServer rn2 (servername (gg_gid gg) i)) e) with (is_enabled rn2 e). rewrite Hen.
    split; intros He; [by rewrite decide_True by by apply Hown | by rewrite decide_False by by rewrite Hown].
  - unfold server_at, DeleteServer. cbn [servers set_field]. by rewrite lookup_insert_eq.
  - done.
  - eexists. split; [apply go_index_lookup; [done | by apply list_lookup_insert_eq] |].
    cbn [gg_servers gg_saved set_field]. rewrite Copy_id.
    split; (apply go_index_lookup; [done | by apply list_lookup_insert_eq]).
Qed.

(** ** The sizes that the tester is made for *)

(** Every turn of a loop that returns starts in a state where [P] holds, if every turn
    preserves it. *)
Lemma for_each_turns (P : config -> Prop) f is_ cfg cfg' :
  P cfg -> (forall i cfg cfg', P cfg -> f i cfg = Done cfg' -> P cfg') -> for_each f is_ cfg = Done cfg' ->
  P cfg' /\ forall i, i ∈ is_ -> exists c c', P c /\ f i c = Done c'.
Proof.
  revert cfg; induction is_ as [|i is_ IH]; intros cfg HP Hf He; cbn [for_each] in He.
  { injection He as <-. split; [done |]. by intros i ?%elem_of_nil. }
  apply go_bind_Done in He as (cfg1 & H1 & He). destruct (IH cfg1) as [HP' Hall]; [by eapply Hf | done | done |].
  split; [done |]. intros j [->|Hj]%elem_of_cons; [by exists cfg, cfg1 | by apply Hall].
Qed.

Lemma store_names_Done j names endnames en :
  store_names j names endnames = Done en -> names = [] \/ j + len names <= len endnames.
Proof.
  revert j endnames; induction names as [|e names IH]; intros j endnames Hs; [by left |]. right. cbn [store_names] in Hs.
  apply go_bind_Done in Hs as (en1 & [Hj ->]%go_update_inv & Hs). apply IH in Hs. rewrite length_insert in Hs.
  destruct Hs as [-> | Hs]; cbn [base.length]; cbn; lia.
Qed.

Context (reflect reflect_ctrler : nat -> list (Service (Ty:=Ty) (Value:=Value)
           (W:=(list ShardKv.ShardKV * list ShardCtrler.ShardCtrler)%type))).

(** The row of the ends to the controllers is looked up by server in a table with a row
    per controller. *)
Lemma StartServer_rows gi i d cfg cfg' gg :
  go_index (sk_groups cfg) gi = Done gg -> StartServer reflect gi i d cfg = Done cfg' ->
  i < len (gg_mendnames gg)
  /\ exists gg', go_index (sk_groups cfg') gi = Done gg' /\ length (gg_mendnames gg') = length (gg_mendnames gg).
Proof.
  intros Hgg Hs. unfold StartServer in Hs. rewrite Hgg in Hs. cbn [mbind go_bind] in Hs.
  apply go_bind_Done in Hs as (en & _ & Hs). apply go_bind_Done in Hs as (rn & _ & Hs).
  apply go_bind_Done in Hs as (mn & [Hi ->]%go_update_inv & Hs). split; [lia |].
  apply go_bind_Done in Hs as (rn2 & _ & Hs). apply go_bind_Done in Hs as (sd & _ & Hs).
  apply go_bind_Done in Hs as (ps & _ & Hs). apply go_bind_Done in Hs as (kv & _ & Hs).
  apply go_bind_Done in Hs as (saved & _ & Hs). apply go_bind_Done in Hs as (servers & _ & Hs).
  apply go_bind_Done in Hs as (groups & [Hgi ->]%go_update_inv & [= <-]).
  eexists. split; [apply go_index_lookup; [lia |]; apply list_lookup_insert_eq; lia |]. cbn. by rewrite length_insert.
Qed.

Lemma StartGroup_rows gi draws cfg cfg' gg :
  go_index (sk_groups cfg) gi = Done gg -> StartGroup reflect gi draws cfg = Done cfg' ->
  sk_n cfg <= len (gg_mendnames gg).
Proof.
  intros Hgg Hs. destruct (decide (sk_n cfg <= 0)); [lia |]. unfold StartGroup in Hs.
  set (P := fun c : config => exists g, go_index (sk_groups c) gi = Done g /\ length (gg_mendnames g) = length (gg_mendnames gg)).
  apply (for_each_turns P) in Hs as [_ Hall].
  - destruct (Hall (sk_n cfg - 1)) as (c & c' & (g & Hg & Hlen) & Hst); [apply elem_of_range; lia |].
    destruct (StartServer_rows _ _ _ _ _ _ Hg Hst) as [Hlt _]. lia.
  - by exists gg.
  - intros i c c' (g & Hg & Hlen) Hst. destruct (StartServer_rows _ _ _ _ _ _ Hg Hst) as (_ & g' & Hg' & Hlen').
    exists g'. split; [done |]. congruence.
Qed.

Lemma StartCtrlerserver_groups i names now rnd cfg cfg' :
  StartCtrlerserver reflect_ctrler i names now rnd cfg = Done cfg' ->
  sk_groups cfg' = sk_groups cfg /\ sk_nctrlers cfg' = sk_nctrlers cfg.
Proof.
  intros (rn & _ & (sc & _ & (servers & _ & [= <-])%go_bind_Done)%go_bind_Done)%go_bind_Done. done.
Qed.

Lemma StartGroup_n gi draws cfg cfg' : StartGroup reflect gi draws cfg = Done cfg' -> sk_n cfg' = sk_n cfg.
Proof.
  intros Hs. apply (for_each_turns (fun c => sk_n c = sk_n cfg)) in Hs as [Hn _]; [exact Hn | done |].
  intros i c c' <- Hst. unfold StartServer in Hst.
  repeat (apply go_bind_Done in Hst as (? & _ & Hst)). by injection Hst as <-.
Qed.

(** The tester works for groups of three servers only: with more, [make_config] panics
    on a row of [mendnames], which has three; with fewer, [makeClient] panics on
    [endnames], which has a place per server and is filled per controller. *)
Theorem tester_sizes n unreliable mrs cdraw mnames gdraw cfg names r :
  make_config reflect reflect_ctrler n unreliable mrs cdraw mnames gdraw = Done cfg ->
  len names = 3 -> makeClient names cfg = Done r -> n = 3.
Proof.
  unfold make_config. set (cfg0 := mkConfig _ _ _ _ _ _ _ _ _ _ _ _ _ _).
  intros (cfg1 & H1 & Hm)%go_bind_Done Hnames Hcl.
  apply (for_each_turns (fun c => sk_groups c = [] /\ sk_nctrlers c = 3)) in H1 as [[HG HN] _]; [|done|].
  2: { intros i c c' [Hg Hn] (-> & ->)%StartCtrlerserver_groups. done. }
  apply go_bind_Done in Hm as ([cfg2 mck] & (rn & _ & [= <- <-])%go_bind_Done & Hm).
  destruct (Z.ltb_spec n 0); [done |]. apply go_bind_Done in Hm as (cfg3 & Hg & [= <-]).
  cbn [sk_ngroups set_field] in Hg. change (range 3) with [0; 1; 2] in Hg.
  pose proof Hg as Hloop. cbn [for_each] in Hg. apply go_bind_Done in Hg as (c0 & G0 & _).
  apply (StartGroup_rows _ _ _ _ (mkGroup 100 (replicate (Z.to_nat n) None) (replicate (Z.to_nat n) None)
    (replicate (Z.to_nat n) None) (replicate 3 None))) in G0; cbn [sk_n sk_groups set_field gg_mendnames] in G0 |- *.
  2: { rewrite HG. unfold new_group. cbn [sk_n sk_nctrlers set_field]. by rewrite HN. }
  apply (for_each_turns (fun c => sk_n c = n)) in Hloop as [Hn _]; [|done | by intros i c c' <- ->%StartGroup_n].
  unfold makeClient in Hcl. cbn [sk_n set_field] in Hcl. rewrite Hn in Hcl.
  destruct (Z.ltb_spec n 0); [done |]. apply go_bind_Done in Hcl as (en & [Hs|Hs]%store_names_Done & _).
  - by rewrite Hs in Hnames.
  - rewrite length_replicate in Hs. cbn in G0. lia.
Qed.
End facts.

(** ** A test *)

Module Sample3.
#[export] Instance op_codec : GobCodec ShardCtrler.Op := {| gob_encode := fun _ => [x01]; gob_decode := fun _ _ => None |}.
#[export] Instance kvop_codec : GobCodec ShardKv.Op := {| gob_encode := fun _ => [x01]; gob_decode := fun _ _ => None |}.
#[export] Instance unit_codec : Codec unit unit :=
  {| zero_value := fun _ => tt; encode := fun v => ([], true); decode := fun b _ => (tt, true) |}.
Definition reflect (p : nat) : list (Service (Ty:=unit) (Value:=unit) (W:=(list ShardKv.ShardKV * list ShardCtrler.ShardCtrler)%type)) := [].
(** Three names of one character. *)
Definition name (k : Z) : string := String (Ascii.ascii_of_nat (Z.to_nat k)) "".
Definition three (k : Z) : list string := [name k; name (k + 1); name (k + 2)].
Definition cdraw (i : Z) : list string * Z * Z := (three (3 * i), 0, 0).
Definition gdraw (gi i : Z) : draw := mkDraw (three (20 + 20 * gi + 6 * i)) (three (20 + 20 * gi + 6 * i + 3)) 0 0.
Definition test (n : Z) : go (config (Ty:=unit) (Value:=unit)) :=
  make_config reflect reflect n false (-1) cdraw (three 9) gdraw.
Definition of_go (g : go (config (Ty:=unit) (Value:=unit))) : config (Ty:=unit) (Value:=unit) :=
  match g with
  | Done c => c
  | _ => mkConfig MakeNetwork [] [] [] 0 [] (ShardCtrler.MakeClerk 0) 0 0 [] ∅ 0 0 0
  end.
Definition finished {A} (g : go A) : bool := match g with Done _ => true | _ => false end.
Lemma of_go_Done g : finished g = true -> g = Done (of_go g).
Proof. by destruct g. Qed.
Definition cfg3 : config (Ty:=unit) (Value:=unit) := of_go (test 3).
(** The first server of the first group is shut down. *)
Definition cfg3' : config (Ty:=unit) (Value:=unit) := of_go (ShutdownServer 0 0 cfg3).
(** What the witness needs of the first group. *)
Definition first_group (g : group) : bool :=
  match gg_servers g, gg_saved g, name_in (gg_endnames g) 0 1 with
  | Some 0%nat :: _ :: _, Some (POf 0) :: _, Done e => String.eqb e (name 21) && (gg_gid g =? 100)
  | _, _, _ => false
  end.
Lemma first_group_spec g : first_group g = true ->
  go_index (gg_servers g) 0 = Done (Some 0%nat) /\ go_index (gg_saved g) 0 = Done (Some (POf 0)) /\ gg_gid g = 100
  /\ own_end g 0 (name 21).
Proof.
  unfold first_group, own_end. destruct (gg_servers g) as [|[[|]|] [|]]; try done. destruct (gg_saved g) as [|[[|[|]]|]]; try done.
  destruct (name_in _ 0 1) as [e| |] eqn:En; [|done..]. intros [->%String.eqb_eq Hg%Z.eqb_eq]%andb_true_iff.
  split; [done |]. split; [done |]. split; [done |]. left. exists 1. rewrite !length_cons. split; [lia | exact En].
Qed.
End Sample3.
Import Sample3.

Lemma ShutdownServer_spec_witness :
  ShutdownServer 0 0 cfg3 = Done cfg3'
  /\ is_enabled (sk_net cfg3') (name 21) = false /\ is_enabled (sk_net cfg3') (name 27) = true
  /\ server_at (sk_net cfg3') "server-100-0"%string = None.
Proof.
  assert (ShutdownServer 0 0 cfg3 = Done cfg3') as Hs by (apply of_go_Done; vm_cast_no_check (eq_refl true)).
  assert (default false (first_group <$> sk_groups cfg3 !! 0%nat) = true) as Hgg by vm_cast_no_check (eq_refl true).
  destruct (sk_groups cfg3 !! 0%nat) as [gg|] eqn:Eg; [|discriminate]. apply first_group_spec in Hgg as (Hsv & Hsd & Hgid & Hown).
  assert (default false ((fun _ => true) <$> sk_kvs cfg3 !! 0%nat) = true) as Hkv by vm_cast_no_check (eq_refl true).
  destruct (sk_kvs cfg3 !! 0%nat) as [kv|] eqn:Ekv; [|discriminate].
  destruct (ShutdownServer_spec 0 0 cfg3 cfg3' gg 0 kv (go_index_lookup _ 0 _ (Z.le_refl 0) Eg) Hsv Hsd Ekv Hs) as (He & Hsrv & _).
  split; [exact Hs |]. split; [|split].
  - apply He. exact Hown.
  - vm_cast_no_check (eq_refl true).
  - rewrite Hgid in Hsrv. exact Hsrv.
Defined.
