(* ===== verification/Labgob.v ===== *)
(** The checks of the gob wrapper, [src/labgob/labgob.go]: complaints about lower-case
    fields and about decoding into variables that are not zero.

    Reflection is a table of type definitions; a [reflect.Type] is an index into it, so
    that types may be recursive.  Field names are ASCII.  What gob itself does is not
    modelled here. *)
From Stdlib Require Import Ascii.
From S2P Require Import Prelude.
Local Open Scope Z_scope.

(** ** Types *)

Record field := mkField { f_name : string; f_type : nat }.
Inductive kind :=
| Struct (fields : list field)
| Elem (elem : nat)                     (* slice, array, pointer *)
| Map (elem key : nat)
| Basic.
Record type_def := mkType { t_name : string; t_kind : kind }.

(** [unicode.IsUpper] of the first rune *)
Definition IsUpper (name : string) : bool :=
  match name with
  | EmptyString => false
  | String c _ => let b := Z.of_N (N_of_ascii c) in (65 <=? b) && (b <=? 90)
  end.

(** ** [checkType] *)

(** The package's variables, and the types that were complained about. *)
Record gob_state := mkGobState { errorCount : Z; checked : gset nat; complaints : list (string * string) }.

Section check.
Context (types : list type_def).

Definition complain (t : string) (f : field) (st : gob_state) : gob_state :=
  if IsUpper (f_name f) then st
  else mkGobState (errorCount st + 1) (checked st) (complaints st ++ [(f_name f, t)]).

(** [for i := 0; i < t.NumField(); i++ { ... }] *)
Fixpoint field_loop (rec : nat -> gob_state -> go gob_state) (t : string) (fields : list field) (st : gob_state) : go gob_state :=
  match fields with
  | [] => mret st
  | f :: fields => st ← rec (f_type f) (complain t f st); field_loop rec t fields st
  end.

(** At most [fuel] nested calls. *)
Fixpoint checkType (fuel t : nat) (st : gob_state) : go gob_state :=
  match types !! t with
  | None => Panic "nil pointer dereference"
  | Some def =>
    if bool_decide (t ∈ checked st) then mret st else
    match fuel with
    | O => Hang "checkType"
    | S fuel =>
      let st := mkGobState (errorCount st) ({[t]} ∪ checked st) (complaints st) in
      match t_kind def with
      | Struct fields => field_loop (checkType fuel) (t_name def) fields st
      | Elem e => checkType fuel e st
      | Map e k => st ← checkType fuel e st; checkType fuel k st
      | Basic => mret st
      end
    end
  end.

(** Every type is entered at most once. *)
Definition checkValue (t : nat) (st : gob_state) : go gob_state := checkType (S (length types)) t st.
End check.

(** ** [checkDefault] *)

(** A value, as far as the check looks: a basic value with whether it is zero; a nil
    pointer has no value behind it. *)
Inductive gvalue :=
| VStruct (fields : list (string * gvalue))
| VPtr (v : option gvalue)
| VBasic (tname : string) (zero : bool)
| VOther.

(** The names warned about: [depth] counts down from 3. *)
Fixpoint checkDefault1 (depth : nat) (name : string) (v : gvalue) {struct depth} : list string :=
  match depth with
  | O => []
  | S depth =>
    match v with
    | VStruct fields =>
      concat ((fun f => checkDefault1 depth (if String.eqb name ""%string then f.1 else (name +:+ "." +:+ f.1)%string) f.2) <$> fields)
    | VPtr (Some v) => checkDefault1 depth name v
    | VPtr None => []
    | VBasic tname zero => if zero then [] else [if String.eqb name ""%string then tname else name]
    | VOther => []
    end
  end.
(** [None] is a nil interface; each name adds one to [errorCount] (and is printed if the
    count was zero). *)
Definition checkDefault (v : option gvalue) (st : gob_state) : gob_state :=
  match v with
  | None => st
  | Some v => mkGobState (errorCount st + len (checkDefault1 3 ""%string v)) (checked st) (complaints st)
  end.

(** ** Encoding, decoding, registering: the checks come first *)

(** [gob] is what package gob does with the encoder, decoder or registry [G]. *)
Section wrapper.
Context (types : list type_def) {G : Type} (gob : G -> go G).

Definition Encode (t : nat) (st : gob_state) (g : G) : go (gob_state * G) :=
  st ← checkValue types t st; g ← gob g; mret (st, g).
Definition Decode (t : nat) (v : option gvalue) (st : gob_state) (g : G) : go (gob_state * G) :=
  st ← checkValue types t st; let st := checkDefault v st in g ← gob g; mret (st, g).
Definition Register (t : nat) (st : gob_state) (g : G) : go (gob_state * G) :=
  st ← checkValue types t st; g ← gob g; mret (st, g).
Definition EncodeValue : nat -> gob_state -> G -> go (gob_state * G) := Encode.
Definition RegisterName : nat -> gob_state -> G -> go (gob_state * G) := Register.
End wrapper.

(** ** [checkType] visits what it can reach, once *)

Section facts.
Context (types : list type_def).

Definition children (k : kind) : list nat :=
  match k with Struct fields => f_type <$> fields | Elem e => [e] | Map e k => [e; k] | Basic => [] end.
Definition refers (t u : nat) : Prop := exists def, types !! t = Some def /\ u ∈ children (t_kind def).

(** Types only mention types of the table. *)
Definition closed : Prop := forall t u, refers t u -> is_Some (types !! u).

Definition lower_fields (t : nat) : list (string * string) :=
  match types !! t with
  | Some def =>
    match t_kind def with
    | Struct fields => (fun f => (f_name f, t_name def)) <$> filter (fun f => IsUpper (f_name f) = false) fields
    | _ => []
    end
  | None => []
  end.

(** What the visit of some types adds: [new] lists the types that were entered, once
    each; every one is reachable, its children are all checked, and the complaints are
    those about the lower-case fields of the new types. *)
Record visited (roots : list nat) (st st' : gob_state) (new : list nat) : Prop := {
  vi_checked : checked st' = list_to_set new ∪ checked st;
  vi_nodup : NoDup new;
  vi_new : forall t, t ∈ new -> (t ∉ checked st) /\ exists r, r ∈ roots /\ rtc refers r t;
  vi_roots : forall r, r ∈ roots -> r ∈ checked st';
  vi_closed : forall t u, t ∈ new -> refers t u -> u ∈ checked st';
  vi_count : errorCount st' = errorCount st + len (concat (lower_fields <$> new));
  vi_complaints : complaints st' ≡ₚ complaints st ++ concat (lower_fields <$> new) }.

Lemma visited_none roots st : (forall r, r ∈ roots -> r ∈ checked st) -> visited roots st st [].
Proof.
  intros Hr. split; cbn; try set_solver; try lia; [constructor | by rewrite app_nil_r].
Qed.

Lemma visited_trans r1 r2 st1 st2 st3 n1 n2 :
  visited r1 st1 st2 n1 -> visited r2 st2 st3 n2 -> visited (r1 ++ r2) st1 st3 (n1 ++ n2).
Proof.
  intros [C1 N1 W1 R1 L1 E1 P1] [C2 N2 W2 R2 L2 E2 P2].
  assert (forall t, t ∈ checked st2 -> t ∈ checked st3) as Hmono by (rewrite C2; set_solver). split.
  - rewrite C2, C1, list_to_set_app_L. set_solver.
  - apply NoDup_app. split; [done |]. split; [|done]. intros t H1 H2. destruct (W2 t H2) as [Hn _].
    apply Hn. rewrite C1. set_solver.
  - intros t [Ht|Ht]%elem_of_app.
    + destruct (W1 t Ht) as [? (r & Hr & ?)]. split; [done |]. exists r. split; [set_solver | done].
    + destruct (W2 t Ht) as [Hn (r & Hr & ?)]. split; [rewrite C1 in Hn; set_solver |]. exists r. split; [set_solver | done].
  - intros r [Hr|Hr]%elem_of_app; auto.
  - intros t u [Ht|Ht]%elem_of_app Hu; eauto.
  - rewrite E2, E1, fmap_app, concat_app, length_app. lia.
  - rewrite P2, P1, fmap_app, concat_app. by rewrite app_assoc.
Qed.

Definition complain_all (t : string) (fields : list field) (st : gob_state) : gob_state :=
  foldl (fun st f => complain t f st) st fields.

Lemma complain_checked t f st : checked (complain t f st) = checked st.
Proof. unfold complain. by destruct (IsUpper (f_name f)). Qed.
Lemma complain_all_checked t fields st : checked (complain_all t fields st) = checked st.
Proof.
  unfold complain_all. revert st; induction fields as [|f fields IH]; intros st; [done |]. cbn.
  by rewrite IH, complain_checked.
Qed.

Lemma visited_complain roots st st' new t f :
  visited roots st st' new -> visited roots (complain t f st) (complain t f st') new.
Proof.
  intros [C N W R L E P]. unfold complain. destruct (IsUpper (f_name f)); [done |].
  split; cbn; try done; [lia | rewrite P; solve_Permutation].
Qed.
Lemma visited_complain_all roots st st' new t fields :
  visited roots st st' new -> visited roots (complain_all t fields st) (complain_all t fields st') new.
Proof.
  unfold complain_all. revert st st'; induction fields as [|f fields IH]; intros st st' Hv; [done |]. cbn.
  by apply IH, visited_complain.
Qed.

Lemma complain_all_spec t fields st :
  errorCount (complain_all t fields st)
    = errorCount st + len (filter (fun f => IsUpper (f_name f) = false) fields)
  /\ complaints (complain_all t fields st)
    = complaints st ++ ((fun f => (f_name f, t)) <$> filter (fun f => IsUpper (f_name f) = false) fields).
Proof.
  unfold complain_all. revert st; induction fields as [|f fields IH]; intros st;
    [cbn; rewrite app_nil_r; split; [lia | done] |].
  cbn [foldl]. destruct (IH (complain t f st)) as [-> ->]. unfold complain.
  destruct (IsUpper (f_name f)) eqn:Hu; cbn [errorCount complaints].
  - by rewrite !filter_cons_False by congruence.
  - rewrite !filter_cons_True by done. cbn [base.length fmap list_fmap]. split; [lia |].
    by rewrite <- app_assoc.
Qed.

(** Types of the table that are still to be entered. *)
Definition unchecked (st : gob_state) : nat :=
  length (filter (fun t => t ∉ checked st) (seq 0 (length types))).

Lemma filter_le (P Q : nat -> Prop) `{forall x, Decision (P x)} `{forall x, Decision (Q x)} (l : list nat) :
  (forall x, P x -> Q x) -> (length (filter P l) <= length (filter Q l))%nat.
Proof.
  intros HPQ. induction l as [|x l IH]; [done |]. rewrite !filter_cons.
  destruct (decide (P x)) as [Hp|Hp], (decide (Q x)) as [Hq|Hq]; cbn; try lia. by destruct Hq; apply HPQ.
Qed.

Lemma unchecked_le st st' : (forall t, t ∈ checked st -> t ∈ checked st') -> (unchecked st' <= unchecked st)%nat.
Proof. intros Hm. apply filter_le. intros x Hx Hc. by apply Hx, Hm. Qed.

Lemma unchecked_add st t st' :
  is_Some (types !! t) -> t ∉ checked st -> checked st' = {[t]} ∪ checked st -> (unchecked st' < unchecked st)%nat.
Proof.
  intros Ht%lookup_lt_is_Some_1 Hn Hc. unfold unchecked. rewrite Hc.
  assert (t ∈ seq 0 (length types)) as Hin by (apply elem_of_seq; lia).
  apply list_elem_of_split in Hin as (l1 & l2 & ->). rewrite !filter_app, !length_app.
  rewrite (filter_cons_False (fun x => x ∉ {[t]} ∪ checked st)) by set_solver.
  rewrite (filter_cons_True (fun x => x ∉ checked st)) by done. cbn [base.length].
  pose proof (filter_le (fun x => x ∉ {[t]} ∪ checked st) (fun x => x ∉ checked st) l1 ltac:(set_solver)).
  pose proof (filter_le (fun x => x ∉ {[t]} ∪ checked st) (fun x => x ∉ checked st) l2 ltac:(set_solver)). lia.
Qed.

Lemma visited_mono roots st st' new : visited roots st st' new -> forall t, t ∈ checked st -> t ∈ checked st'.
Proof. intros Hv t Ht. rewrite (vi_checked _ _ _ _ Hv). set_solver. Qed.

(** What the nested calls do. *)
Definition visits (rec : nat -> gob_state -> go gob_state) (m : nat) : Prop :=
  forall t st, is_Some (types !! t) -> (unchecked st <= m)%nat ->
    exists st' new, rec t st = Done st' /\ visited [t] st st' new.

Lemma field_loop_visits rec m name fields : forall st,
  visits rec m -> (forall f, f ∈ fields -> is_Some (types !! f_type f)) -> (unchecked st <= m)%nat ->
  exists st' new, field_loop rec name fields st = Done st'
    /\ visited (f_type <$> fields) (complain_all name fields st) st' new.
Proof.
  induction fields as [|f fields IH]; intros st Hrec Hf Hm; cbn [field_loop].
  { exists st, []. split; [done |]. apply visited_none. by intros r ?%elem_of_nil. }
  destruct (Hrec (f_type f) (complain name f st)) as (st1 & n1 & -> & V1).
  { apply Hf. by left. }
  { etransitivity; [|exact Hm]. apply unchecked_le. by rewrite complain_checked. }
  cbn [mbind go_bind].
  destruct (IH st1) as (st2 & n2 & -> & V2); [done | intros; apply Hf; by right | |].
  { etransitivity; [apply unchecked_le, (visited_mono _ _ _ _ V1) |].
    etransitivity; [|exact Hm]. apply unchecked_le. by rewrite complain_checked. }
  exists st2, (n1 ++ n2). split; [done |].
  apply (visited_trans [f_type f] _ _ (complain_all name fields st1)); [|done].
  exact (visited_complain_all _ _ _ _ name fields V1).
Qed.

(** The type itself, before its children. *)
Lemma visited_enter t def st st1 st' new :
  types !! t = Some def -> t ∉ checked st -> checked st1 = {[t]} ∪ checked st ->
  errorCount st1 = errorCount st + len (lower_fields t) -> complaints st1 = complaints st ++ lower_fields t ->
  visited (children (t_kind def)) st1 st' new -> visited [t] st st' (t :: new).
Proof.
  intros Ht Hn Hc He Hp [C N W R L E P]. rewrite Hc in *. split.
  - rewrite C. cbn. set_solver.
  - constructor; [|done]. intros Hin. destruct (W t Hin) as [Hnt _]. set_solver.
  - intros u [->|Hu]%elem_of_cons; [split; [done |]; exists t; split; [by left | done] |].
    destruct (W u Hu) as [Hnu (r & Hr & Hru)]. split; [set_solver |]. exists t. split; [by left |].
    eapply rtc_l; [|exact Hru]. by exists def.
  - intros r ->%list_elem_of_singleton. rewrite C. set_solver.
  - intros u v [->|Hu]%elem_of_cons Huv; [|by eapply L]. apply R. destruct Huv as (def' & Hd & Hv). congruence.
  - cbn. rewrite E, He, length_app. lia.
  - cbn. by rewrite P, Hp, <- app_assoc.
Qed.

Lemma checkType_visits fuel : closed -> visits (checkType types fuel) fuel.
Proof.
  intros Hcl. induction fuel as [|fuel IH]; intros t st [def Hdef] Hm.
  - cbn [checkType]. rewrite Hdef. destruct (decide (t ∈ checked st)) as [Hin|Hin].
    + rewrite bool_decide_eq_true_2 by done. exists st, []. split; [done |].
      apply visited_none. by intros r ->%list_elem_of_singleton.
    + exfalso. pose proof (unchecked_add st t (mkGobState 0 ({[t]} ∪ checked st) []) ltac:(by eexists) Hin eq_refl). lia.
  - cbn [checkType]. rewrite Hdef. destruct (decide (t ∈ checked st)) as [Hin|Hin].
    { rewrite bool_decide_eq_true_2 by done. exists st, []. split; [done |].
      apply visited_none. by intros r ->%list_elem_of_singleton. }
    rewrite bool_decide_eq_false_2 by done. cbn zeta.
    set (st1 := mkGobState (errorCount st) ({[t]} ∪ checked st) (complaints st)).
    assert (unchecked st1 <= fuel)%nat as Hm1.
    { pose proof (unchecked_add st t st1 ltac:(by eexists) Hin eq_refl). lia. }
    assert (forall u, u ∈ children (t_kind def) -> is_Some (types !! u)) as Hch by (intros u Hu; apply (Hcl t); by exists def).
    assert (t_kind def = Basic \/ (exists e, t_kind def = Elem e) \/ (exists e k, t_kind def = Map e k)
            \/ exists fs, t_kind def = Struct fs) as Hk by (destruct (t_kind def); naive_solver).
    destruct Hk as [Hk|[[e Hk]|[(e & k & Hk)|[fs Hk]]]]; rewrite Hk in *.
    + exists st1, [t]. split; [done |].
      apply (visited_enter t def st st1); [done | done | done | unfold lower_fields; rewrite Hdef, Hk; cbn; lia
        | unfold lower_fields; rewrite Hdef, Hk; cbn; by rewrite app_nil_r |].
      rewrite Hk. apply visited_none. by intros r ?%elem_of_nil.
    + destruct (IH e st1) as (st2 & n2 & -> & V); [apply Hch; by left | done |]. exists st2, (t :: n2). split; [done |].
      apply (visited_enter t def st st1); [done | done | done | unfold lower_fields; rewrite Hdef, Hk; cbn; lia
        | unfold lower_fields; rewrite Hdef, Hk; cbn; by rewrite app_nil_r | by rewrite Hk].
    + destruct (IH e st1) as (st2 & n2 & -> & V2); [apply Hch; by left | done |]. cbn [mbind go_bind].
      destruct (IH k st2) as (st3 & n3 & -> & V3); [apply Hch; right; by left | |].
      { etransitivity; [apply unchecked_le, (visited_mono _ _ _ _ V2) | done]. }
      exists st3, (t :: n2 ++ n3). split; [done |].
      apply (visited_enter t def st st1); [done | done | done | unfold lower_fields; rewrite Hdef, Hk; cbn; lia
        | unfold lower_fields; rewrite Hdef, Hk; cbn; by rewrite app_nil_r |].
      rewrite Hk. exact (visited_trans [e] [k] _ _ _ _ _ V2 V3).
    + destruct (field_loop_visits (checkType types fuel) fuel (t_name def) fs st1 IH) as (st2 & n2 & -> & V);
        [intros f Hf; apply Hch, list_elem_of_fmap; by exists f | done |].
      exists st2, (t :: n2). split; [done |]. destruct (complain_all_spec (t_name def) fs st1) as [He Hp].
      apply (visited_enter t def st (complain_all (t_name def) fs st1)); [done | done | | | | by rewrite Hk].
      * by rewrite complain_all_checked.
      * rewrite He. unfold lower_fields. rewrite Hdef, Hk, length_fmap. done.
      * rewrite Hp. unfold lower_fields. by rewrite Hdef, Hk.
Qed.
End facts.

(** C37: The check of a type ends, recursive types included; it enters exactly the types
    that the type refers to, directly or not, and that were not checked before, each one
    once, and counts and reports one error per lower-case field of those. *)
Theorem checkValue_complete (types : list type_def) t st :
  closed types -> is_Some (types !! t) ->
  exists st' new, checkValue types t st = Done st' /\ visited types [t] st st' new
    /\ (checked st = ∅ -> forall u, u ∈ checked st' <-> rtc (refers types) t u).
Proof.
  intros Hcl Ht. destruct (checkType_visits types (S (length types)) Hcl t st Ht) as (st' & new & Hrun & V).
  { unfold unchecked. etransitivity; [apply length_filter |]. rewrite length_seq. lia. }
  exists st', new. split; [done |]. split; [done |]. intros He u. split.
  - rewrite (vi_checked _ _ _ _ _ V), He. intros Hu. assert (u ∈ new) as Hn by set_solver.
    destruct (vi_new _ _ _ _ _ V u Hn) as [_ (r & ->%list_elem_of_singleton & Hr)]. done.
  - intros Hr. assert (t ∈ checked st') as Hts by (apply (vi_roots _ _ _ _ _ V); by left).
    assert (forall x y, x ∈ checked st' -> refers types x y -> y ∈ checked st') as Hstep.
    { intros x y Hx. apply (vi_closed _ _ _ _ _ V). rewrite (vi_checked _ _ _ _ _ V), He in Hx. set_solver. }
    clear -Hr Hts Hstep. induction Hr as [|x y z Hxy Hyz IH]; [done |]. by eapply IH, Hstep.
Qed.

(** A recursive reply type with a lower-case field in a nested struct. *)
Definition sample_types : list type_def :=
  [mkType "Reply" (Struct [mkField "Next" 1; mkField "Body" 2]); mkType "" (Elem 0);
   mkType "body" (Struct [mkField "size" 3; mkField "Data" 3]); mkType "int" Basic].

Lemma checkValue_complete_witness :
  exists st', checkValue sample_types 1 (mkGobState 0 ∅ []) = Done st'
    /\ errorCount st' = 1 /\ complaints st' = [("size", "body")] /\ 3%nat ∈ checked st'.
Proof.
  destruct (checkValue_complete sample_types 1 (mkGobState 0 ∅ [])) as (st' & new & Hrun & V & Hr).
  - intros t u (def & Hd & Hu). destruct t as [|[|[|[|t]]]]; [..| destruct t; discriminate];
      injection Hd as <-; cbn in Hu; rewrite ?elem_of_cons, ?elem_of_nil in Hu;
      repeat destruct Hu as [->|Hu]; try done; by eexists.
  - by eexists.
  - exists st'. split; [exact Hrun |]. assert (3%nat ∈ checked st') as H3.
    { apply Hr; [reflexivity |]. eapply rtc_l; [exists (mkType "" (Elem 0)); split; [reflexivity | by left] |].
      eapply rtc_l; [eexists; split; [reflexivity | right; by left] |].
      eapply rtc_l; [eexists; split; [reflexivity | by left] | apply rtc_refl]. }
    split; [|split; [|exact H3]]; vm_compute in Hrun; injection Hrun as <-; reflexivity.
Defined.
